(* ===== verification/_CoqProject ===== *)
-Q . S2P
Prelude.v
Json.v
Errors.v
ThreadWorker.v
KernelSpec.v
Wire.v
Language.v
PyInterrupt.v
Services.v
Startup.v
Queue.v
Requests.v
PyAdapter.v
PyBindings.v
PyChild.v
Hosts.v
Shell.v
Ledger.v
Controls.v
Schedule.v
Lifetime.v
Rest.v
Kernel.v
System.v
Routing.v
Context.v
ControlRequests.v
Program.v
KernelLedger.v
KernelRest.v
Survival.v
Driver.v
Transport.v
Connections.v
Servers.v
Stdin.v
Broadcast.v
Dap.v
DapTasks.v
PyDap.v
EndToEnd.v
Scenarios.v
Witnesses.v
