(* ===== verification/Prelude.v ===== *)
(** * kernmini: a verification development

    kernmini is the engine of a Jupyter kernel: a Rust library that speaks the
    Jupyter messaging protocol and drives a language implementation behind a
    trait.  This library models its core, states what makes it correct and
    proves it.

    ** The program

    A client talks to the kernel over five channels.  [src/src/transport.rs]
    accepts connections and hands decoded messages ([Inbound]) to the engine;
    [src/src/wire.rs] signs, encodes, checks and decodes messages.
    [src/src/engine.rs] is the kernel: [run_kernel_with_interrupter] is the main
    loop, which routes shell requests to shells, serves control requests and
    watches its tasks; each shell ([Shell]) is a scheduler of its own, with a
    priority queue, at most one running execution, an optional held request, and
    controls (release, interrupt, stop) from the main loop; [execute],
    [handle_shell] and the functions next to them serve one request, with an
    output pump that publishes what the language emits.
    [src/src/language.rs] is the interface of a language, the interrupt of one
    execution and the context through which running code talks to the kernel;
    [src/src/error.rs] the error type; [src/src/connection.rs] the connection
    file; [src/src/dap.rs] a client for debug adapters;
    [src/src/thread_worker.rs] a thread that runs jobs for an interpreter;
    [src/src/kernelspec.rs] installs kernel specs;
    [src/src/bin/kernmini-echo.rs] is a kernel for a language that echoes.  Under
    [src/py] a Python shell object becomes a language ([python.rs]), with the
    delivery of interrupts to user code and child sessions on threads of their
    own, and gets the debug client ([python_dap.rs]) and the thread worker
    ([python_worker.rs]) as classes.

    ** The files, and what they model

    - [Prelude] (this file): results, 64-bit integers, bytes and strings, 64-bit
      floats, lists; the hint database [kern].
    - [Json]: [serde_json]'s values and maps, as far as the engine uses them.
    - [Errors]: src/src/error.rs.
    - [ThreadWorker]: src/src/thread_worker.rs: the channel and the thread, with
      the callers as the environment.
    - [KernelSpec]: src/src/kernelspec.rs over a file system that maps paths to
      directories and files.
    - [Wire]: src/src/wire.rs.  HMAC, hex, JSON text, UUIDs and dates are the
      fields of the class [WireExt]: they are libraries the source calls.
    - [Language]: src/src/language.rs: the data, the traits as the classes
      [LanguageSession] and [Language], the default replies, the interrupt.  A
      language is a parameter: each method is a function of its arguments and
      of the moment of the call, so it may answer differently every time.
    - [PyInterrupt]: src/py/src/python.rs, the delivery of interrupts: the shared
      [UserCode], the operations on it, and the steps of engine, delivery
      threads, event loop, signal handler and user code.
    - [Services]: the effects of the engine as a state and error monad [M] over
      [World] (what was sent, the clock, closed peers, pending inputs), and the
      first half of engine.rs: replies, status, errors, stdin, the output pump.
    - [Startup]: [KernelConfig], src/src/connection.rs, the listeners.
    - [Queue]: [QueueItem], its order, [pop_runnable]; [BinaryHeap] is
      represented by the list of its elements and [heap_pop].
    - [Requests]: [execute], [run_execution], [handle_shell], holds and aborts.
    - [PyAdapter]: src/py/src/python.rs, the language session over a Python shell;
      the shell and Python's own functions are the class [PyShell].
    - [PyBindings]: src/py/src: the sink of an execution, the worker class, the
      task for debug events, the installers.
    - [PyChild]: src/py/src/python.rs: the start, the life and the end of a child
      session's thread, with its creator and its owner interleaved.
    - [Hosts]: what runs a kernel: [KernelInterrupter], the Python [run_kernel]
      with its start and its process group, and the echo kernel.
    - [Shell]: the scheduler.  [Shell] is the struct of the same name plus the
      point of the loop it is at; [shell_step] is [Shell::run] from one such
      point to the next; [sys_step] adds the environment, in which the code of
      the running execution sends output, as much as it likes ([LOutput]), makes
      progress or none at all, and may panic ([LPanic]).
    - [Ledger]: every request is accounted for.
    - [Controls]: what a failed execution, an interrupt, a release and a timeout
      do.
    - [Schedule]: which request runs when.
    - [Lifetime]: what can end a shell and what it leaves.
    - [Rest]: a shell left alone comes to rest: a measure on its state that every
      move of its own lowers, and what it waits for when there is none left, also
      with code that never returns ([own_step] with [code] false).
    - [Kernel]: the main loop, subshells, routes, control requests.
    - [System]: main loop, shell tasks and background stops interleaved; every
      task of the kernel is a run of [Shell].
    - [Routing], [ControlRequests]: the tables of the main loop and what its
      requests do.
    - [KernelLedger]: every shell and control request of the whole kernel is
      accounted for: [owed] is what running shells have in hand, [left_behind]
      what shells that ended took along.
    - [KernelRest]: the whole kernel left alone: its own moves ([kernel_move]) end
      in every order, a shutdown ends, and everything is answered.  Two functions
      say of each shell whether its code returns ([code]) and whether the calls of
      the language in its loop do ([loop]): a task for which they do not makes no
      move, and everything that can wait for it is named.
    - [Survival]: which branches of the main loop and of the loop of a release
      request end the kernel.
    - [Driver]: a scheduler that picks the next move, as a function, with the proof
      that it misses none; it runs the demonstration kernel to rest.
    - [Program]: the start of [run_kernel_with_interrupter] and the functions that
      run it.
    - [Context]: what running code asks of the kernel: input, and the commands
      that open and close subshell routes, followed through the main loop.
    - [Transport]: src/src/transport.rs: the table of router peers, the
      subscribers of IOPub, what peers send and are sent.
    - [Connections]: src/src/transport.rs: a reply sink and the writer and reader
      of its connection, and the wait for a peer, interleaved.
    - [Servers]: src/src/transport.rs: the accept loop, and the router server with
      all its connections: [serve_router] and [router_peer] as a function of the
      event, over the state of the tasks, the sinks, the table and the replay set.
    - [Stdin]: [Stdin] of src/src/engine.rs: the stdin router, the task that takes
      replies, the table of pending inputs and the calls of [Stdin::request],
      interleaved; and the crate's own test of it as a run.
    - [Broadcast]: src/src/transport.rs: [Iopub::serve] with its subscribers and
      its publishers, a round of the loop at a time, a publisher being dropped at
      any of them, and [serve_heartbeat].
    - [Dap]: src/src/dap.rs: the framing, the sequence numbers and the table of
      pending requests, with the calls interleaved.
    - [DapTasks]: src/src/dap.rs: the writer and the reader task of a connection,
      over the stream of bytes the adapter sends; a write goes out in pieces,
      waits for the adapter and may fail in the middle.
    - [PyDap]: src/py/src/python_dap.rs: threads, waits and timeouts over
      connections that are replaced and closed.
    - [EndToEnd]: the shell and control servers and the kernel behind them as one
      system.
    - [Scenarios], [Witnesses]: a demonstration kernel, runs of it, and the
      theorems applied to it.

    ** What the theorems show

    - Wire: decoding inverts encoding; a message is accepted only with a good,
      fresh signature; every way to reject is named; nothing is accepted twice.
    - Requests: an execution shows its protocol messages in order, with exactly
      one reply; output is never dropped or reordered by the pump; a call of
      input always comes back, with the error its case calls for, and leaves
      nothing behind.
    - Shell: no request is lost or answered twice, as long as no hold request is
      strictly above another, the shell has not failed and no execution has
      panicked; one execution at a time, the most urgent first; the shell waits
      only when nothing may run; nothing a client sends ends it but a shutdown
      request; aborts, interrupts, releases, timeouts do exactly
      what they should; left alone it comes to rest, having served all that a
      hold does not keep back and that does not wait for code that never returns,
      and a stop with an interrupt ends it unless its code ignores the interrupt.
    - Kernel: under the same conditions every request that arrives, on shell or
      control, is in exactly one place until it is answered, once, or left behind
      by a shell that ended, whatever main loop, shells and background stops do;
      every shell task refines the shell; the tables are consistent;
      requests are routed to exactly one shell; interrupts come after what
      arrived before them; subshells and routes are created, listed, closed.
      Each command of running code is answered once, and changes only the route
      of its own client session.  Left alone, the kernel comes to rest whatever
      the order of its moves, and if no hold is in force and no code runs then, it
      has answered every request that no ended shell took along; a shutdown ends
      unless code that ignores the interrupt, or a call of the language that does
      not return, keeps a shell; no request ends a kernel whose shells run, except
      a shutdown request.
    - Input: a call of [input] gets the value of one reply, which names its prompt
      or comes from its client, and no reply serves two; prompts go to the client
      that asked, once; finished calls leave nothing behind; a call that waits has
      something to wait for, and an interrupt or the end of the connection ends it.
    - End to end: under the conditions of the kernel's ledger, replies, replies
      owed, requests left behind and requests in hand are exactly what the two
      servers handed on; a reply answers a message that came well signed on
      the connection it goes to, and no signature is accepted twice.
    - Start: the configuration is what the environment says or its default, within
      its machine types, and the one value that panics is named; a kernel listens
      on the ports of a well-formed connection file, or not at all.
    - Transport: what reaches the engine of a connection is what one session
      decoding everything in order accepts of it; no connection disturbs another,
      and only a failing accept or a panic ends a server; a reply is written in
      order or its end is reported, and no call waits on a peer that is gone; the
      wait for a peer misses no wake-up; the table of peers survives
      reconnections; a subscriber gets every message published since it came, in
      order, within its capacity, but for those whose publisher was dropped on the
      way; the heartbeat echoes.
    - Thread worker: jobs are served in order on one state; a shutdown ends the
      thread and every caller is told.
    - Kernel specs: the destination becomes exactly what was asked, and nothing
      else on the disk changes.
    - Python: an interrupt stays in user code, is never forgotten unless a call of
      the operating system or the interpreter fails, and has one fate; an execution ends in one reply with the right error; errors keep
      their kind; a child nobody holds any more ends its thread; a callback that
      raises does not harm its worker; an orphaned kernel takes its process group
      with it; a debug call returns its own response, the reason its connection
      closed, or a timeout.
    - Dap: a stream of framed messages is read back; frames are written in order,
      whole but for the one at which a write failed; every debug request is
      pending, answered once or given up, however calls, responses and closing
      interleave; a closed client's tasks end, the writer once the adapter took
      the frame it is in.
    - Echo: an execution shows the echo, its result or its error, one reply.
    - Eleven theorems state behaviour the source probably does not intend, each in
      the words of the code: a hold within a hold forgets the first; a request
      can be lost while a shell stops; an interrupt that meets an ended subshell
      ends the kernel; deleting without an id removes the parent; closing a
      shared subshell leaves a route to it; kernmini's own SIGINT can be taken
      for Ctrl-C; an injected interrupt is lost when its block ends first; a
      kernel spec installed onto itself is emptied; an empty name removes every
      kernel spec; a negative sleep panics the echo language; a late reply to an
      interrupted prompt answers the client's next one.

    ** Fuel and bounds

    Loops over a queue or a channel take its length as fuel: every round takes
    one element out, and the lemmas show that the fuel is enough
    ([pop_loop_spec], [drain_loop_spec], [pump_batch_spec],
    [route_pending_live]).  Copying a directory takes one more than the depth of
    the file system ([fs_depth]).  Reading a stream takes its length
    ([read_all_ends], [read_message_length]).  Termination of the shell and of the
    kernel needs no fuel: [next_move_sn] and [knext_move_sn] are well-founded
    inductions on a lexicographic measure, whatever code sends and time passes
    between two moves.  Arrival numbers and execution counts
    are 64-bit and wrap; theorems on order assume fewer than 2^64 requests.  Priorities are
    IEEE doubles ([spec_float]); JSON has no NaN, and the theorems on order use
    that.

    ** What is not modelled, and why

    Sockets and the ZMTP protocol (the zmtpmini library): what they report is the
    servers' events.  The Tokio runtime: its [select!] is a choice of any branch
    that is ready, a task that is dropped drops what it owns, and bounded channels
    other than IOPub's are unbounded, which hides only waiting.  The
    installation of the SIGTERM handler (SIGTERM is a branch of the loop) and the
    registration of the Python module's names, which only call libraries.  Symbolic
    links and permissions of files.  The interpreter: shell objects, [json.dumps] and [json.loads], and event loops are parameters, and its
    lock is taken to make the steps of [PyInterrupt] and [PyChild] that hold it
    atomic.  Panics (a poisoned lock, a counter that overflows in a debug build)
    are modelled where the code meets input it does not check (the configuration,
    the echo language), where it runs the code of others (executions, the jobs of a
    worker) and where it looks at them (the connections of a server).  The main
    loop's own calls of the language (creating a child, the debugger) are taken to
    return.  A debug request takes its sequence number in one step, and in
    [PyDap] a send is one step; [Dap] interleaves its critical sections. *)

From Stdlib Require Import ZArith Strings.Byte.
From stdpp Require Import base gmap sets list strings sorting relations.
From Corelib.Floats Require Import SpecFloat.

Declare Scope kern_scope.
Delimit Scope kern_scope with kern.
Create HintDb kern.

(** ** Results

    Rust's [std::result::Result], with the error type as a parameter; [?]
    is [mbind]. *)
Inductive result (E A : Type) : Type :=
| Ok (a : A)
| Err (e : E).

Arguments Ok {E A} a.
Arguments Err {E A} e.

Definition is_ok {E A} (r : result E A) : bool := match r with Ok _ => true | Err _ => false end.

Definition map_err {E F A} (f : E → F) (r : result E A) : result F A :=
  match r with Ok a => Ok a | Err e => Err (f e) end.

Definition ok_or {E A} (e : E) (o : option A) : result E A :=
  match o with Some a => Ok a | None => Err e end.

Global Instance result_ret E : MRet (result E) := λ A a, Ok a.
Global Instance result_bind E : MBind (result E) := λ A B f r,
  match r with Ok a => f a | Err e => Err e end.
Global Instance result_fmap E : FMap (result E) := λ A B f r,
  match r with Ok a => Ok (f a) | Err e => Err e end.

(** Rust's [Option::unwrap_or]. *)
Definition unwrap_or {A} (o : option A) (d : A) : A := match o with Some a => a | None => d end.

(** Rust's [Option::filter]. *)
Definition opt_filter {A} (p : A → bool) (o : option A) : option A :=
  match o with Some a => if p a then Some a else None | None => None end.

(** ** Machine integers

    A [u64] is a [Z] in the range below; [+=] on it wraps, as in the
    repository's release profile, which leaves overflow checks off. *)
Definition u64_mod : Z := 2 ^ 64.

Definition u64_add (a b : Z) : Z := (a + b) `mod` u64_mod.

Definition is_u64 (z : Z) : bool := (0 <=? z)%Z && (z <? u64_mod)%Z.

Lemma u64_add_small a b : (0 ≤ a + b < u64_mod)%Z → u64_add a b = (a + b)%Z.
Proof. intros H. unfold u64_add. by rewrite Z.mod_small. Qed.

Lemma u64_add_range a b : (0 ≤ u64_add a b < u64_mod)%Z.
Proof. apply Z.mod_pos_bound. done. Qed.

(** ** Bytes and strings

    A Rust [str] is the [string] of its UTF-8 bytes, and a [Vec<u8>] or
    [Bytes] a list of bytes. *)
Global Instance byte_eq_dec : EqDecision byte := Byte.byte_eq_dec.
Global Instance byte_countable : Countable byte := inj_countable Byte.to_N Byte.of_N Byte.of_to_N.

Abbreviation bytes := (list byte).

Definition as_bytes (s : string) : bytes := String.list_byte_of_string s.

(** [str::starts_with], [str::ends_with], [str::strip_prefix]. *)
Fixpoint strip_prefix (p s : string) : option string :=
  match p, s with
  | "", _ => Some s
  | String a p', String b s' => if decide (a = b) then strip_prefix p' s' else None
  | String _ _, "" => None
  end%string.

Definition starts_with (p s : string) : bool := match strip_prefix p s with Some _ => true | None => false end.

Fixpoint ends_with (suf s : string) : bool :=
  if decide (s = suf) then true
  else match s with String _ s' => ends_with suf s' | "" => false end%string.

(** [str::replace]: every non-overlapping occurrence of [p], from the left.
    Each round consumes at least one character when [p] is not empty, so the
    length of the string is enough fuel. *)
Fixpoint replace_fuel (fuel : nat) (p r s : string) : string :=
  match fuel with
  | 0 => s
  | S f =>
      match strip_prefix p s with
      | Some rest => String.append r (replace_fuel f p r rest)
      | None => match s with
                | String c s' => String c (replace_fuel f p r s')
                | "" => ""
                end
      end
  end%string.

Definition str_replace (p r s : string) : string := replace_fuel (S (String.length s)) p r s.

(** [slice::join] on strings. *)
Definition str_join (sep : string) (l : list string) : string := String.concat sep l.

(** The hexadecimal digits of a number below 256, without leading zeros. *)
Definition hex_digits (n : nat) : string :=
  let digit d := match String.get d "0123456789abcdef" with Some c => String c "" | None => "" end in
  (if decide (n < 16) then "" else digit (n / 16)) +:+ digit (n mod 16).

(** [{:?}] on a string: quoted, with escapes.  Characters outside ASCII are taken
    to be printable. *)
Definition debug_char (c : Ascii.ascii) : string :=
  let n := Ascii.nat_of_ascii c in
  let quoted := String (Ascii.ascii_of_nat 92) (String c "") in
  let escaped s := String (Ascii.ascii_of_nat 92) s in
  if decide (n = 34) then quoted
  else if decide (n = 92) then quoted
  else if decide (n = 0) then escaped "0"
  else if decide (n = 9) then escaped "t"
  else if decide (n = 10) then escaped "n"
  else if decide (n = 13) then escaped "r"
  else if decide (n < 32 ∨ n = 127) then escaped ("u{" +:+ hex_digits n +:+ "}")
  else String c "".

Definition debug_str (s : string) : string :=
  let quote := String (Ascii.ascii_of_nat 34) "" in
  quote +:+ String.concat "" (map debug_char (String.list_ascii_of_string s)) +:+ quote.

(** ** 64-bit floats

    An [f64] is the Standard Library's [spec_float], compared by [SFcompare]. *)
Definition f64_of_Z (z : Z) : spec_float := binary_normalize 53 1024 z 0 false.

Definition f64_zero : spec_float := S754_zero false.

Definition f64_is_nan (f : spec_float) : bool := match f with S754_nan => true | _ => false end.

Definition f64_is_finite (f : spec_float) : bool :=
  match f with S754_zero _ | S754_finite _ _ _ => true | _ => false end.

(** [f64::partial_cmp], and [>] on [f64]. *)
Definition f64_partial_cmp (a b : spec_float) : option comparison := SFcompare a b.

Definition f64_gt (a b : spec_float) : bool :=
  match f64_partial_cmp a b with Some Gt => true | _ => false end.

(** The conversion from an integer never yields a NaN: its mantissa stays non-negative. *)
Lemma iter_pos_ind {A} (f : A → A) (P : A → Prop) n x : (∀ y, P y → P (f y)) → P x → P (iter_pos f n x).
Proof. intros Hf. revert x. induction n; simpl; auto. Qed.

Lemma shr_fexp_nonneg prec emax m e l : (0 ≤ m)%Z → (0 ≤ shr_m (shr_fexp prec emax m e l).1)%Z.
Proof.
  intros Hm. unfold shr_fexp, shr. assert (0 ≤ shr_m (shr_record_of_loc m l))%Z as H0 by by destruct l as [|[]].
  case_match; simpl; auto. apply (iter_pos_ind _ (λ r, 0 ≤ shr_m r)%Z); [|done].
  intros [[|[]|] r s]; simpl; lia.
Qed.

Lemma f64_of_Z_not_nan z : f64_is_nan (f64_of_Z z) = false.
Proof.
  assert (∀ s m e l, (0 ≤ m)%Z → f64_is_nan (binary_round_aux 53 1024 s m e l) = false) as Ha.
  { intros s m e l Hm. unfold binary_round_aux. pose proof (shr_fexp_nonneg 53 1024 m e l Hm) as H1.
    destruct (shr_fexp 53 1024 m e l) as [mrs e1]. simpl in H1.
    assert (0 ≤ round_nearest_even (shr_m mrs) (loc_of_shr_record mrs))%Z as H2.
    { unfold round_nearest_even. destruct (loc_of_shr_record mrs) as [|[]]; try case_match; lia. }
    pose proof (shr_fexp_nonneg 53 1024 _ e1 loc_Exact H2) as H3.
    destruct (shr_fexp _ _ _ e1 loc_Exact) as [mrs2 e2]. simpl in H3. destruct (shr_m mrs2); [done|by case_match|lia]. }
  unfold f64_of_Z, binary_normalize, binary_round. destruct z; [done|..]; case_match; by apply Ha.
Qed.

(** ** Lists *)

Lemma filter_split {A} (f : A → bool) (l : list A) :
  l ≡ₚ filter (λ x, f x = false) l ++ filter (λ x, f x = true) l.
Proof.
  induction l as [|x l IH]; [done|]. destruct (f x) eqn:Hx.
  - rewrite (filter_cons_False _ x), (filter_cons_True _ x) by congruence. rewrite <- Permutation_middle. by constructor.
  - rewrite (filter_cons_True _ x), (filter_cons_False _ x) by congruence. simpl. by constructor.
Qed.

(** ** Runs of a step relation *)

Lemma rtc_invariant {S} (step : S → S → Prop) (P : S → Prop) init s :
  P init → (∀ s1 s2, step s1 s2 → P s1 → P s2) → rtc step init s → P s.
Proof. intros Hi Hs Hr. revert Hi. induction Hr; eauto. Qed.

(** ** Tactics *)

(** Opens every existential hypothesis. *)
Ltac destruct_exists := repeat match goal with H : ∃ _, _ |- _ => destruct H end.

Lemma insert_Permutation {A} (l : list A) i x y : l !! i = Some x → <[i := y]> l ≡ₚ y :: delete i l.
Proof.
  intros Hi. rewrite (delete_Permutation (<[i := y]> l) i y) by (apply list_lookup_insert_eq; by eapply lookup_lt_Some).
  by rewrite !delete_take_drop, take_insert_ge, drop_insert_lt by lia.
Qed.

(** Permutations of the same lists joined in another order: the first list on
    the left is brought to the front on the right, and dropped. *)
Ltac perm_app :=
  rewrite <- ?app_assoc;
  repeat first
    [ reflexivity
    | apply Permutation_app_head
    | match goal with
      | |- ?a ++ _ ≡ₚ _ => rewrite (Permutation_app_swap_app _ a _)
      | |- ?a ++ _ ≡ₚ _ => rewrite (Permutation_app_comm _ a)
      | |- ?a ≡ₚ ?b ++ ?c => rewrite (Permutation_app_comm b c)
      end;
      rewrite <- ?app_assoc ].
