(* ===== verification/Json.v ===== *)
(** * JSON values

    [serde_json::Value] as the sources use it: the public enum, the accessors
    [get], [as_str], [as_bool], [as_u64], [as_f64], [as_array], [as_object] and
    indexing, and the maps.  The repository builds serde_json with
    [preserve_order] (src/Cargo.toml), so a [Map] keeps insertion order: it is
    an association list.  Serialisation is not here: it is a parameter of the
    wire codec (Wire.v). *)

From Stdlib Require Import ZArith.
From stdpp Require Import base sets list strings.
From S2P Require Import Prelude.
From Corelib.Floats Require Import SpecFloat.

(** A JSON number is an unsigned integer, a negative integer or a float, the
    three classes [is_u64], [is_i64] and [is_f64] tell apart. *)
Inductive Number :=
| PosInt (n : Z)
| NegInt (n : Z)
| Float (f : spec_float).

#[warnings="-register-all"] Inductive Value :=
| Null
| Bool (b : bool)
| Num (n : Number)
| Str (s : string)
| Arr (l : list Value)
| Obj (m : list (string * Value)).

Abbreviation Map := (list (string * Value)).

(** ** Maps *)

Fixpoint map_get (m : Map) (k : string) : option Value :=
  match m with
  | [] => None
  | (k', v) :: m' => if decide (k' = k) then Some v else map_get m' k
  end.

(** [Map::insert]: in place when the key is there, else at the end. *)
Fixpoint map_insert (m : Map) (k : string) (v : Value) : Map :=
  match m with
  | [] => [(k, v)]
  | (k', v') :: m' => if decide (k' = k) then (k', v) :: m' else (k', v') :: map_insert m' k v
  end.

(** [Map::extend]. *)
Definition map_extend (m m' : Map) : Map := foldl (λ acc kv, map_insert acc kv.1 kv.2) m m'.

(** ** Accessors *)

Definition as_object (v : Value) : option Map := match v with Obj m => Some m | _ => None end.
Definition as_str (v : Value) : option string := match v with Str s => Some s | _ => None end.
Definition as_bool (v : Value) : option bool := match v with Bool b => Some b | _ => None end.
Definition as_array (v : Value) : option (list Value) := match v with Arr l => Some l | _ => None end.
Definition as_u64 (v : Value) : option Z := match v with Num (PosInt n) => Some n | _ => None end.
Definition as_f64 (v : Value) : option spec_float :=
  match v with
  | Num (PosInt n) | Num (NegInt n) => Some (f64_of_Z n)
  | Num (Float f) => Some f
  | _ => None
  end.
Definition is_null (v : Value) : bool := match v with Null => true | _ => false end.

(** [Value::get] with a string index, and [value[key]]. *)
Definition value_get (v : Value) (k : string) : option Value := as_object v ≫= λ m, map_get m k.
Definition value_index (v : Value) (k : string) : Value := unwrap_or (value_get v k) Null.

(** [value[key] = x]: the assignment every [error_content] branch uses, on a
    value that is an object. *)
Definition set_key (v : Value) (k : string) (x : Value) : Value :=
  match v with Obj m => Obj (map_insert m k x) | _ => v end.

Definition get_str (v : Value) (k : string) : option string := value_get v k ≫= as_str.
Definition get_bool (v : Value) (k : string) : option bool := value_get v k ≫= as_bool.
Definition get_u64 (v : Value) (k : string) : option Z := value_get v k ≫= as_u64.

Definition mget_str (m : Map) (k : string) : option string := map_get m k ≫= as_str.
Definition mget_bool (m : Map) (k : string) : option bool := map_get m k ≫= as_bool.

(** [json!] on an unsigned integer. *)
Definition jnat (n : Z) : Value := Num (PosInt n).

(** ** Well-formed numbers

    What the JSON parser can produce: integers at their widths and finite
    floats (JSON text has no spelling for a NaN or an infinity). *)
Definition wf_number (n : Number) : bool :=
  match n with
  | PosInt n => is_u64 n
  | NegInt n => (- 2 ^ 63 <=? n)%Z && (n <? 0)%Z
  | Float f => f64_is_finite f
  end.

Fixpoint wf_value (v : Value) : bool :=
  match v with
  | Num n => wf_number n
  | Arr l => forallb wf_value l
  | Obj m => forallb (λ kv, wf_value kv.2) m
  | _ => true
  end.

(** ** Lemmas *)

Lemma map_get_insert_eq m k v : map_get (map_insert m k v) k = Some v.
Proof.
  induction m as [|[k' v'] m IH]; simpl; [by case_decide|].
  destruct (decide (k' = k)); simpl; by case_decide.
Qed.

Lemma map_get_insert_ne m k k' v : k ≠ k' → map_get (map_insert m k v) k' = map_get m k'.
Proof.
  intros Hne. induction m as [|[j w] m IH]; simpl; [by case_decide|].
  destruct (decide (j = k)); simpl; case_decide; congruence.
Qed.

Lemma map_get_insert m k k' v :
  map_get (map_insert m k v) k' = if decide (k = k') then Some v else map_get m k'.
Proof. case_decide; subst; auto using map_get_insert_eq, map_get_insert_ne. Qed.

Lemma map_insert_keys m k v :
  (map_insert m k v).*1 = if decide (k ∈ m.*1) then m.*1 else m.*1 ++ [k].
Proof.
  induction m as [|[j w] m IH]; csimpl.
  { done. }
  destruct (decide (j = k)) as [->|Hne]; csimpl.
  - rewrite decide_True; [done | left].
  - rewrite IH. destruct (decide (k ∈ m.*1)) as [Hin|Hin].
    + rewrite decide_True; [done | by right].
    + rewrite decide_False; [done|]. rewrite elem_of_cons. by intros [->|?].
Qed.

Lemma map_insert_nodup m k v : NoDup m.*1 → NoDup (map_insert m k v).*1.
Proof.
  intros H. rewrite map_insert_keys. case_decide as E; [done|].
  apply NoDup_app. split; [done|]. split; [set_solver | apply NoDup_singleton].
Qed.

Lemma map_get_wf m k v : forallb (λ kv, wf_value kv.2) m = true → map_get m k = Some v → wf_value v = true.
Proof.
  induction m as [|[j w] m IH]; simpl; [done|].
  rewrite andb_true_iff. intros [??]. case_decide; naive_solver.
Qed.

Lemma map_extend_get m m' k :
  NoDup m'.*1 → map_get (map_extend m m') k = match map_get m' k with Some v => Some v | None => map_get m k end.
Proof.
  unfold map_extend. revert m. induction m' as [|[j w] m' IH]; intros m Hnd; simpl in *; [done|].
  apply NoDup_cons in Hnd as [Hj Hnd]. rewrite IH by done. rewrite map_get_insert.
  case_decide as E; [subst|done].
  assert (map_get m' k = None) as ->; [|done].
  clear -Hj. induction m' as [|[a b] m' IH]; simpl in *; [done|]. case_decide; set_solver.
Qed.

#[export] Hint Resolve map_get_insert_eq map_insert_nodup map_get_wf : kern.
#[export] Hint Rewrite map_get_insert_eq : kern.

(** A well-formed number is never a NaN as an [f64]. *)
Lemma as_f64_not_nan v f : wf_value v = true → as_f64 v = Some f → f64_is_nan f = false.
Proof. destruct v as [| |[n|n|g]| | |]; simpl; intros Hw [= <-]; [apply f64_of_Z_not_nan..|by destruct g]. Qed.
