(* ===== verification/Errors.v ===== *)
(** * Operational errors (src/src/error.rs)

    The error type every fallible operation returns, its classification, its
    source chain, its [Display] and the [From] conversions that [?] applies. *)

From Stdlib Require Import ZArith.
From stdpp Require Import base strings.
From S2P Require Import Prelude.

Inductive ErrorKind :=
| Interrupted | Closed | TimedOut | Unavailable | InvalidInput | Io | Protocol | Adapter.

Global Instance ErrorKind_eq_dec : EqDecision ErrorKind.
Proof. solve_decision. Defined.

(** Errors of other crates and of the standard library that end up in a source
    chain: what [downcast_ref] can tell about them. *)
Inductive Foreign :=
| IoError (raw_os_error : option Z)
| SerdeError
| WireErrorSource
| ZmtpError
| RecvError
| JoinError
| PyError
| OtherError.

(** [Error { kind, message, source }], with [dyn StdError] sources: another
    [Error], or a foreign error with its own [Display] and source. *)
Inductive Error :=
| MkError (kind : ErrorKind) (message : string) (source : option StdError)
with StdError :=
| KernError (e : Error)
| ForeignError (f : Foreign) (display : string) (source : option StdError).

Abbreviation Result := (result Error).

Definition error_kind (e : Error) : ErrorKind := let 'MkError k _ _ := e in k.
Definition error_message (e : Error) : string := let 'MkError _ m _ := e in m.
Definition error_source (e : Error) : option StdError := let 'MkError _ _ s := e in s.

Definition error_new (k : ErrorKind) (m : string) : Error := MkError k m None.
Definition error_caused_by (e : Error) (s : StdError) : Error := MkError (error_kind e) (error_message e) (Some s).
Definition error_context (e : Error) (m : string) : Error := error_caused_by (error_new (error_kind e) m) (KernError e).
Definition error_adapter (s : StdError) : Error := error_caused_by (error_new Adapter "language adapter failed") s.
Definition error_interrupted : Error := error_new Interrupted "execution interrupted".
Definition error_closed (resource : string) : Error := error_new Closed (resource +:+ " closed").

(** [Display]: the message, then the source's own [Display]. *)
Fixpoint to_string (e : Error) : string :=
  match e with
  | MkError _ m None => m
  | MkError _ m (Some s) => m +:+ ": " +:+ std_to_string s
  end
with std_to_string (s : StdError) : string :=
  match s with
  | KernError e => to_string e
  | ForeignError _ d _ => d
  end.

(** [StdError::source] of a source. *)
Definition std_source (s : StdError) : option StdError :=
  match s with KernError e => error_source e | ForeignError _ _ c => c end.

(** The chain [source(), source().source(), ...]. *)
Fixpoint chain_of (s : StdError) : list StdError :=
  s :: match s with
       | KernError (MkError _ _ None) => []
       | KernError (MkError _ _ (Some s')) => chain_of s'
       | ForeignError _ _ None => []
       | ForeignError _ _ (Some s') => chain_of s'
       end.

Definition chain (e : Error) : list StdError :=
  match error_source e with Some s => chain_of s | None => [] end.

(** The [From] conversions. *)
Definition from_io (errno : option Z) (d : string) : Error :=
  error_caused_by (error_new Io "I/O failed") (ForeignError (IoError errno) d None).
Definition from_serde (d : string) : Error :=
  error_caused_by (error_new InvalidInput "invalid JSON") (ForeignError SerdeError d None).
Definition from_wire (d : string) (cause : option StdError) : Error :=
  error_caused_by (error_new Protocol "invalid Jupyter message") (ForeignError WireErrorSource d cause).
Definition from_send_error : Error := error_closed "kernel service".
Definition from_recv_error (d : string) : Error :=
  error_caused_by (error_closed "kernel service") (ForeignError RecvError d None).
Definition from_join_error (d : string) : Error :=
  error_caused_by (error_closed "kernel task") (ForeignError JoinError d None).

(** [zmtpmini::Error] as [From<zmtpmini::Error>] sees it. *)
Inductive Zmtp := ZmtpClosed | ZmtpIo | ZmtpOther.

Definition from_zmtp (z : Zmtp) (d : string) : Error :=
  error_caused_by
    (error_new (match z with ZmtpClosed => Closed | ZmtpIo => Io | ZmtpOther => Protocol end) "ZMTP connection failed")
    (ForeignError ZmtpError d None).

(** ** Lemmas *)

Lemma error_caused_by_kind e s : error_kind (error_caused_by e s) = error_kind e.
Proof. done. Qed.

Lemma error_context_kind e m : error_kind (error_context e m) = error_kind e.
Proof. done. Qed.

#[export] Hint Rewrite error_caused_by_kind error_context_kind : kern.
