(* ===== verification/ThreadWorker.v ===== *)
(** * The thread worker (src/src/thread_worker.rs)

    State that lives on one thread, and asynchronous calls to it: the jobs go
    through a channel, the thread runs them one at a time, and every caller
    waits on a oneshot of its own.

    The state is [T], the results of calls [V]; a closure that panics is a
    function that returns nothing.  [w_phase] is where the thread is: serving,
    past its loop with the state dropped but the channel still open, or gone.
    A caller is a number; [w_answers] is what the oneshots of accepted jobs
    were told, in order, [w_refused] the callers whose job could not be sent. *)

From Stdlib Require Import ZArith.
From stdpp Require Import base list strings relations.
From S2P Require Import Prelude Errors.

Section Worker.
Context {T V : Type}.

(** A closure: a result and the new state, or a panic. *)
Definition Closure : Type := T → option (V * T).

Inductive Job := Call (caller : nat) (call : Closure) | Stop (caller : nat).

Definition caller_of (j : Job) : nat := match j with Call c _ | Stop c => c end.

Inductive Answer := Returned (v : V) | Stopped | Lost (e : Error).

Inductive Phase := Serving (state : T) | Leaving | Gone.

Record Worker := MkWorker {
  w_phase : Phase; w_jobs : list Job; w_answers : list (nat * Answer); w_refused : list (nat * Answer) }.

(** What the receiver of a dropped oneshot reports, by [call] and [shutdown]. *)
Definition lost (j : Job) : nat * Answer :=
  match j with
  | Call c _ => (c, Lost (error_caused_by (error_closed "interpreter worker") (ForeignError RecvError "channel closed" None)))
  | Stop c => (c, Lost (error_caused_by (error_closed "interpreter worker during shutdown") (ForeignError RecvError "channel closed" None)))
  end.

(** [ThreadWorker::start]: the error of [spawn], of [create], or of a thread
    that ended before it told anything; [created] is [None] when [create]
    panics. *)
Definition start (spawn : Result unit) (created : option (Result T)) : Result Worker :=
  _ ← spawn;
  match created with
  | None => Err (error_caused_by (error_closed "interpreter worker during startup") (ForeignError RecvError "channel closed" None))
  | Some (Err e) => Err e
  | Some (Ok state) => Ok (MkWorker (Serving state) [] [] [])
  end.

Definition is_gone (w : Worker) : bool := match w_phase w with Gone => true | _ => false end.

(** [ThreadWorker::send]: fails once the thread has dropped its receiver. *)
Definition send (j : Job) (w : Worker) : Worker :=
  match w_phase w with
  | Gone => MkWorker Gone (w_jobs w) (w_answers w) (w_refused w ++ [(caller_of j, Lost (error_closed "interpreter worker"))])
  | p => MkWorker p (w_jobs w ++ [j]) (w_answers w) (w_refused w)
  end.

(** One move of the thread: a job of its loop, or the end of the thread, which
    drops the receiver with every job still in it.  [None]: it waits. *)
Definition thread_step (w : Worker) : option Worker :=
  match w_phase w, w_jobs w with
  | Serving s, Call c f :: jobs =>
      match f s with
      | Some (v, s') => Some (MkWorker (Serving s') jobs (w_answers w ++ [(c, Returned v)]) (w_refused w))
      | None => Some (MkWorker Leaving jobs (w_answers w ++ [lost (Call c f)]) (w_refused w))
      end
  | Serving s, Stop c :: jobs => Some (MkWorker Leaving jobs (w_answers w ++ [(c, Stopped)]) (w_refused w))
  | Serving s, [] => None
  | Leaving, jobs => Some (MkWorker Gone [] (w_answers w ++ map lost jobs) (w_refused w))
  | Gone, _ => None
  end.

(** When every handle is dropped and the channel is empty the loop ends too. *)
Definition hang_up (w : Worker) : option Worker :=
  match w_phase w, w_jobs w with
  | Serving s, [] => Some (MkWorker Leaving [] (w_answers w) (w_refused w))
  | _, _ => None
  end.

(** The worker, its callers and its owner interleaved.  [accepted] is the jobs
    that were sent, in order. *)
Inductive worker_run (init : T) : list Job → bool → Worker → Prop :=
| run_start : worker_run init [] true (MkWorker (Serving init) [] [] [])
| run_send accepted w j :
    worker_run init accepted true w → is_gone w = false → worker_run init (accepted ++ [j]) true (send j w)
| run_refused accepted w j : worker_run init accepted true w → is_gone w = true → worker_run init accepted true (send j w)
| run_thread accepted open w w' : worker_run init accepted open w → thread_step w = Some w' → worker_run init accepted open w'
| run_drop_handles accepted w : worker_run init accepted true w → worker_run init accepted false w
| run_hang_up accepted w w' : worker_run init accepted false w → hang_up w = Some w' → worker_run init accepted false w'.

(** ** What the worker promises

    The callers see an object that serves one job after the other: [serve]
    gives each job its answer, in the order of the jobs. *)
Fixpoint serve (s : T) (jobs : list Job) : list (nat * Answer) :=
  match jobs with
  | [] => []
  | Call c f :: jobs' =>
      match f s with
      | Some (v, s') => (c, Returned v) :: serve s' jobs'
      | None => lost (Call c f) :: map lost jobs'
      end
  | Stop c :: jobs' => (c, Stopped) :: map lost jobs'
  end.

(** The same from any phase of the thread. *)
Definition serve_from (p : Phase) (jobs : list Job) : list (nat * Answer) :=
  match p with Serving s => serve s jobs | Leaving | Gone => map lost jobs end.

Lemma lost_callers jobs : (map lost jobs).*1 = map caller_of jobs.
Proof. induction jobs as [|[] jobs IH]; [done|..]; cbn [map fmap list_fmap lost fst caller_of]; by f_equal. Qed.

Lemma serve_callers s jobs : (serve s jobs).*1 = map caller_of jobs.
Proof.
  revert s. induction jobs as [|[c f|c] jobs IH]; intros s; simpl; [done| |by rewrite lost_callers].
  destruct (f s) as [[v s']|]; simpl; [by rewrite IH | by rewrite lost_callers].
Qed.

(** A move of the thread does not change what is still to come of the jobs. *)
Lemma thread_step_serve w w' :
  thread_step w = Some w' →
  ∃ handled, w_jobs w = handled ++ w_jobs w' ∧
    ∀ rest, w_answers w ++ serve_from (w_phase w) (handled ++ rest) = w_answers w' ++ serve_from (w_phase w') rest.
Proof.
  destruct w as [[s| |] jobs ans refd]; unfold thread_step; simpl; [|intros [= <-]|done].
  - destruct jobs as [|[c f|c] jobs]; [done| |intros [= <-]].
    + destruct (f s) as [[v s']|] eqn:Ef; intros [= <-]; exists [Call c f]; (split; [done|]); intros rest; simpl; rewrite Ef;
        by rewrite <- app_assoc.
    + exists [Stop c]. split; [done|]. intros rest. simpl. by rewrite <- app_assoc.
  - exists jobs. split; [by rewrite app_nil_r|]. intros rest. simpl. by rewrite map_app, <- app_assoc.
Qed.

(** Every run: the jobs handled so far got the answers of the object, and what is
    still in the channel, or may still come, will. *)
Definition on_course (init : T) (accepted : list Job) (open : bool) (w : Worker) : Prop :=
  (is_gone w = true → w_jobs w = []) ∧
  ∃ handled, accepted = handled ++ w_jobs w ∧
    (∀ rest, open = true ∨ rest = w_jobs w → serve init (handled ++ rest) = w_answers w ++ serve_from (w_phase w) rest) ∧
    (∀ s c, w_phase w = Serving s → Stop c ∉ handled).

Lemma thread_step_serving w w' s :
  thread_step w = Some w' → w_phase w' = Serving s → ∃ c f s0, w_phase w = Serving s0 ∧ w_jobs w = Call c f :: w_jobs w'.
Proof.
  destruct w as [[s0| |] [|[c f|c] jobs] ans refd]; unfold thread_step; simpl; try (destruct (f s0) as [[v s']|]);
    intros [= <-]; naive_solver.
Qed.

Lemma on_course_thread init accepted open w w' :
  on_course init accepted open w → thread_step w = Some w' → on_course init accepted open w'.
Proof.
  intros [Hg (h & -> & IH & Hs)] Ht. destruct (thread_step_serve w w' Ht) as (k & Ej & Ek). split.
  { clear -Ht. revert Ht. unfold thread_step.
    destruct w as [[s| |] [|[c f|c] jobs] ans refd]; simpl; try (destruct (f s) as [[? ?]|]); by intros [= <-]. }
  exists (h ++ k). rewrite Ej, app_assoc. split; [done|]. split.
  - intros rest Hr. rewrite <- app_assoc, IH, Ek; [done|]. destruct Hr as [?| ->]; auto.
  - intros s c Hp Hin. destruct (thread_step_serving w w' s Ht Hp) as (c' & f & s0 & Hp0 & Hj).
    rewrite Hj in Ej. apply (app_inv_tail _ [Call c' f]) in Ej. subst k.
    apply elem_of_app in Hin as [Hin|Hin%list_elem_of_singleton]; [by eapply Hs | done].
Qed.

Lemma worker_run_on_course init accepted open w : worker_run init accepted open w → on_course init accepted open w.
Proof.
  induction 1 as [|acc w j _ [IHg (h & -> & IH & IHs)] Hg|acc w j _ [IHg (h & -> & IH & IHs)] Hg
                 |acc o w w' _ IH Ht|acc w _ [IHg (h & -> & IH & IHs)]|acc w w' _ [IHg (h & -> & IH & IHs)] Hu].
  - split; [done|]. exists []. split_and!; [done..|]. intros s c _. apply not_elem_of_nil.
  - destruct w as [[s| |] jobs ans refd]; [..|done]; unfold send; simpl in *; (split; [done|]); exists h;
      rewrite <- app_assoc; split_and!; auto.
  - destruct w as [[s| |] jobs ans refd]; try done. unfold send; simpl in *. split; [auto|]. exists h. split_and!; auto.
  - eauto using on_course_thread.
  - split; [done|]. exists h. split_and!; auto.
  - destruct w as [[s| |] [|j jobs] ans refd]; unfold hang_up in Hu; simplify_eq/=. split; [done|]. exists h. split_and!; [done| |done].
    intros rest [?| ->]; [done|]. by rewrite IH by auto.
Qed.

Lemma on_course_gone init accepted open w :
  on_course init accepted open w → is_gone w = true → w_answers w = serve init accepted ∧ w_jobs w = [].
Proof.
  intros [Hg (h & -> & IH & _)] Hgone. split; [|auto]. rewrite IH, (Hg Hgone) by auto. unfold is_gone in Hgone.
  destruct (w_phase w); try done. by rewrite app_nil_r.
Qed.

(** C36: (one job after the other) whatever callers, thread and owner do, the
    answers given so far are the first ones of an object that serves the
    accepted jobs in the order they were sent, on one state: no job is run
    twice, skipped or overtaken, no state is shared between two jobs.  Each
    accepted job is answered or still in the channel, exactly once; when the
    thread is gone every one has its answer and later callers are told that the
    worker is closed. *)
Theorem worker_serves_in_order init accepted open w :
  worker_run init accepted open w →
  w_answers w `prefix_of` serve init accepted ∧
  (w_answers w).*1 ++ map caller_of (w_jobs w) = map caller_of accepted ∧
  (is_gone w = true → w_answers w = serve init accepted ∧ w_jobs w = []).
Proof.
  intros Hoc%worker_run_on_course. pose proof Hoc as [Hg (h & -> & IH & _)]. specialize (IH (w_jobs w) (or_intror eq_refl)).
  split_and!.
  - rewrite IH. by eexists.
  - apply (f_equal (fmap fst)) in IH. rewrite serve_callers in IH. rewrite IH, fmap_app. f_equal.
    destruct (w_phase w); simpl; by rewrite ?serve_callers, ?lost_callers.
  - intros Hgone. by apply (on_course_gone _ _ open).
Qed.

(** The thread on its own, [n] moves. *)
Definition thread_moves (w w' : Worker) : Prop := thread_step w = Some w'.

Lemma thread_reaches_end w :
  w_phase w = Leaving ∨ (∃ s c, w_phase w = Serving s ∧ Stop c ∈ w_jobs w) →
  ∃ n w', n ≤ S (length (w_jobs w)) ∧ nsteps thread_moves n w w' ∧ is_gone w' = true.
Proof.
  destruct w as [p jobs ans refd]. revert p ans. induction jobs as [|j jobs IH]; intros p ans [Hp|(s & c & Hp & Hin)]; simpl in *; subst.
  - exists 1, (MkWorker Gone [] ans refd). split_and!; [lia| |done]. econstructor; [|constructor].
    unfold thread_moves, thread_step. simpl. by rewrite app_nil_r.
  - by apply elem_of_nil in Hin.
  - eexists 1, _. split_and!; [lia|econstructor; [done|constructor]|done].
  - assert (∃ w1, thread_moves (MkWorker (Serving s) (j :: jobs) ans refd) w1 ∧ w_jobs w1 = jobs ∧ w_refused w1 = refd ∧
      (w_phase w1 = Leaving ∨ ∃ s' c', w_phase w1 = Serving s' ∧ Stop c' ∈ jobs)) as ([p1 j1 a1 r1] & H1 & Hj & Hr & Hc).
    { unfold thread_moves, thread_step. simpl. apply elem_of_cons in Hin as [<-|Hin]; [by eexists; split_and!; auto|].
      destruct j as [c' f|c']; [destruct (f s) as [[v s']|]|]; eexists; split_and!; naive_solver. }
    simpl in *; subst. destruct (IH p1 a1 Hc) as (n & w' & Hn & Hs & Hg).
    exists (S n), w'. split_and!; [lia|by econstructor|done].
Qed.

(** C37: (shutting down) once a shutdown was accepted the thread ends by itself,
    within one move for each job in its channel and one more, whoever sends or
    hangs up meanwhile: the jobs before the shutdown are run, the state is
    dropped, the shutdown is answered, and the jobs behind it are told that the
    worker is closed. *)
Theorem worker_shutdown_ends init accepted open w c :
  worker_run init accepted open w → Stop c ∈ accepted →
  is_gone w = true ∨
  ∃ n w', n ≤ S (length (w_jobs w)) ∧ nsteps thread_moves n w w' ∧ is_gone w' = true ∧ w_answers w' = serve init accepted.
Proof.
  intros Hrun Hc. destruct (is_gone w) eqn:Hg; [by left|right]. unfold is_gone in Hg.
  pose proof (worker_run_on_course _ _ _ _ Hrun) as [_ (h & -> & _ & Hs)].
  destruct (thread_reaches_end w) as (n & w' & Hn & Hm & Hg').
  - destruct (w_phase w) as [s| |] eqn:Hp; [right|by left|done].
    apply elem_of_app in Hc as [Hc|Hc]; [by destruct (Hs s c eq_refl)|eauto].
  - exists n, w'. split_and!; [done..|]. apply (on_course_gone init _ open w'); [|done].
    apply worker_run_on_course in Hrun. revert Hrun. generalize (h ++ w_jobs w). clear -Hm. intros accepted.
    induction Hm; [done|]. eauto using on_course_thread.
Qed.
End Worker.

(** ** A worker that counts: two calls around a shutdown *)

Definition tick_call (s : nat) : option (nat * nat) := Some (s, S s).

Definition demo_jobs : list (@Job nat nat) := [Call 0 tick_call; Stop 1; Call 2 tick_call].

Definition demo_sent : @Worker nat nat := send (Call 2 tick_call) (send (Stop 1) (send (Call 0 tick_call) (MkWorker (Serving 5) [] [] []))).

Definition demo_ended : @Worker nat nat := MkWorker Gone [] [(0, Returned 5); (1, Stopped); lost (Call 2 tick_call)] [].

Lemma demo_sent_run : worker_run 5 demo_jobs true demo_sent.
Proof.
  apply (run_send 5 [Call 0 tick_call; Stop 1]); [|reflexivity]. apply (run_send 5 [Call 0 tick_call]); [|reflexivity].
  apply (run_send 5 []); [apply run_start | reflexivity].
Qed.

Lemma demo_ended_run : worker_run 5 demo_jobs true demo_ended.
Proof.
  pose proof (run_thread _ _ _ _ _ demo_sent_run eq_refl) as H1. pose proof (run_thread _ _ _ _ _ H1 eq_refl) as H2.
  exact (run_thread _ _ _ _ _ H2 eq_refl).
Qed.

Lemma worker_serves_in_order_witness :
  w_answers demo_ended `prefix_of` serve 5 demo_jobs ∧
  (w_answers demo_ended).*1 ++ map caller_of (w_jobs demo_ended) = map caller_of demo_jobs ∧
  (is_gone demo_ended = true → w_answers demo_ended = serve 5 demo_jobs ∧ w_jobs demo_ended = []).
Proof. exact (worker_serves_in_order 5 demo_jobs true demo_ended demo_ended_run). Defined.

Lemma worker_shutdown_ends_witness :
  is_gone demo_sent = true ∨
  ∃ n w', n ≤ S (length (w_jobs demo_sent)) ∧ nsteps thread_moves n demo_sent w' ∧ is_gone w' = true ∧ w_answers w' = serve 5 demo_jobs.
Proof. apply (worker_shutdown_ends 5 demo_jobs true demo_sent 1 demo_sent_run). right. left. Defined.
