(* ===== verification/KernelSpec.v ===== *)
(** * Installing kernelspecs (src/src/kernelspec.rs)

    Where the kernels directory is, and writing or copying a kernelspec into it.

    A path is the list of names from the root; [join] resolves [.] and [..].  The
    file system is a map from paths to directories and files, as far as
    [std::fs] shows it without symbolic links; permissions and devices that fail
    are left out, the errors of missing or misplaced files are there.  The text
    of a JSON value is a parameter: serde_json writes it. *)

From Stdlib Require Import ZArith.
From stdpp Require Import base gmap sets list strings.
From S2P Require Import Prelude Json Errors.

Abbreviation path := (list string).

(** ** Paths and the environment *)

Definition slash : Ascii.ascii := Ascii.ascii_of_nat 47.

Fixpoint split_slash (s : string) : string * list string :=
  match s with
  | EmptyString => (EmptyString, [])
  | String c s' =>
      let '(x, l) := split_slash s' in
      if decide (c = slash) then (EmptyString, x :: l) else (String c x, l)
  end.

Definition components (s : string) : list string :=
  let '(x, l) := split_slash s in filter (λ c, c ≠ EmptyString ∧ c ≠ ".") (x :: l).

Definition path_push (p : path) (c : string) : path := if decide (c = "..") then take (length p - 1) p else p ++ [c].

(** [Path::join]: an absolute argument replaces the path. *)
Definition join (p : path) (s : string) : path := foldl path_push (if starts_with "/" s then [] else p) (components s).

Inductive Platform := Linux | MacOs | Windows.

Record Env := MkEnv { env_vars : string → option string; env_cwd : path; env_platform : Platform }.

Definition var (env : Env) (name : string) : option path :=
  join (env_cwd env) <$> opt_filter (λ v, negb (bool_decide (v = EmptyString))) (env_vars env name).

Definition jupyter_data_dir (env : Env) : Result path :=
  match var env "JUPYTER_DATA_DIR" with
  | Some dir => Ok dir
  | None =>
      home ← ok_or (error_new Unavailable "no home directory")
               (var env (match env_platform env with Windows => "USERPROFILE" | _ => "HOME" end));
      Ok (match env_platform env with
          | MacOs => join (join home "Library") "Jupyter"
          | Windows => join (unwrap_or (var env "APPDATA") home) "jupyter"
          | Linux => join (unwrap_or (var env "XDG_DATA_HOME") (join (join home ".local") "share")) "jupyter"
          end)
  end.

Definition kernels_dir (env : Env) (prefix : option path) : Result path :=
  base ← (match prefix with Some p => Ok (join (join p "share") "jupyter") | None => jupyter_data_dir env end);
  Ok (join base "kernels").

(** The rest of a path below another. *)
Fixpoint strip (p q : path) : option path :=
  match p, q with
  | [], _ => Some q
  | a :: p', b :: q' => if decide (a = b) then strip p' q' else None
  | _ :: _, [] => None
  end.

(** ** The file system *)

Inductive Node := FDir | FFile (data : string).

Abbreviation FS := (gmap path Node).

Definition enoent : Error := from_io (Some 2%Z) "No such file or directory (os error 2)".
Definition eexist : Error := from_io (Some 17%Z) "File exists (os error 17)".
Definition enotdir : Error := from_io (Some 20%Z) "Not a directory (os error 20)".
Definition eisdir : Error := from_io (Some 21%Z) "Is a directory (os error 21)".

(** Operations change the file system and may fail. *)
Definition F (A : Type) : Type := FS → Result A * FS.

Global Instance F_ret : MRet F := λ A a fs, (Ok a, fs).
Global Instance F_bind : MBind F := λ A B f m fs,
  match m fs with (Ok a, fs') => f a fs' | (Err e, fs') => (Err e, fs') end.

Definition fs_lift {A} (r : Result A) : F A := λ fs, (r, fs).

Definition fs_get : F FS := λ fs, (Ok fs, fs).
Definition fs_map_err {A} (f : Error → Error) (m : F A) : F A := λ fs, let '(r, fs') := m fs in (map_err f r, fs').

Definition fs_exists (p : path) : F bool := λ fs, (Ok (bool_decide (is_Some (fs !! p))), fs).

(** [fs::remove_dir_all]. *)
Definition remove_dir_all (p : path) : F unit := λ fs,
  match fs !! p with
  | None => (Err enoent, fs)
  | Some (FFile _) => (Err enotdir, fs)
  | Some FDir => (Ok tt, filter (λ kv, strip p kv.1 = None) fs)
  end.

(** [fs::create_dir_all]: the missing directories on the way to a path. *)
Fixpoint missing_dirs (fs : FS) (base rest : path) : Result (list path) :=
  match fs !! base with
  | Some (FFile _) => Err (if decide (rest = []) then eexist else enotdir)
  | Some FDir => match rest with [] => Ok [] | c :: rest' => missing_dirs fs (base ++ [c]) rest' end
  | None => match rest with [] => Ok [base] | c :: rest' => l ← missing_dirs fs (base ++ [c]) rest'; Ok (base :: l) end
  end.

Definition create_dir_all (p : path) : F unit := λ fs,
  match missing_dirs fs [] p with
  | Err e => (Err e, fs)
  | Ok l => (Ok tt, foldr (λ q, <[q := FDir]>) fs l)
  end.

(** [fs::write] and [fs::copy] of a file. *)
Definition write (p : path) (data : string) : F unit := λ fs,
  match fs !! take (length p - 1) p, fs !! p with
  | Some FDir, Some FDir => (Err eisdir, fs)
  | Some FDir, _ => (Ok tt, <[p := FFile data]> fs)
  | Some (FFile _), _ => (Err enotdir, fs)
  | None, _ => (Err enoent, fs)
  end.

Definition copy (from to : path) : F unit := λ fs,
  match fs !! from with
  | Some (FFile data) => write to data fs
  | Some FDir => (Err eisdir, fs)
  | None => (Err enoent, fs)
  end.

Definition child_name (p q : path) : option string :=
  match strip p q with Some [c] => Some c | _ => None end.

(** [fs::read_dir]: the names in a directory, in any order. *)
Definition read_dir (p : path) : F (list string) := λ fs,
  match fs !! p with
  | None => (Err enoent, fs)
  | Some (FFile _) => (Err enotdir, fs)
  | Some FDir => (Ok (omap (λ kv, child_name p kv.1) (map_to_list fs)), fs)
  end.

Definition is_dir (p : path) : F bool := λ fs,
  match fs !! p with
  | None => (Err enoent, fs)
  | Some n => (Ok (match n with FDir => true | FFile _ => false end), fs)
  end.

(** ** Installing *)

Fixpoint for_names (f : string → F unit) (l : list string) : F unit :=
  match l with [] => mret tt | c :: l' => f c ≫= λ _, for_names f l' end.

(** [copy_dir].  Each level of the recursion is one name deeper in the source:
    with the longest path of the file system as fuel it ends, when the
    destination is not inside the source (see [install_dir_copies]); without
    that it need not end, and neither does the code. *)
Fixpoint copy_dir (fuel : nat) (src dest : path) : F unit :=
  match fuel with
  | 0 => fs_lift (Err (from_io None "path too long"))
  | S fuel' =>
      names ← read_dir src;
      for_names (λ c,
        let from := src ++ [c] in
        let to := dest ++ [c] in
        d ← is_dir from;
        if d : bool then create_dir_all to ≫= λ _, copy_dir fuel' from to else copy from to) names
  end.

Definition fs_depth (fs : FS) : nat := max_list (map (λ kv, length kv.1) (map_to_list fs)).

Section Install.
Context (env : Env) (to_string_pretty : Map → result string string).

Definition fresh (name : string) (prefix : option path) : F path :=
  dir ← fs_lift (kernels_dir env prefix);
  let dest := join dir name in
  e ← fs_exists dest;
  (if e : bool then remove_dir_all dest else mret tt) ≫= λ _,
  create_dir_all dest ≫= λ _, mret dest.

Definition kernel_json (argv : list string) (display_name language : string) (extra : Map) : Map :=
  map_extend [("argv", Arr (map Str argv)); ("display_name", Str display_name); ("language", Str language)] extra.

Definition install_kernelspec (name : string) (argv : list string) (display_name language : string) (extra : Map)
    (prefix : option path) : F path :=
  dest ← fresh name prefix;
  text ← fs_lift (map_err from_serde (to_string_pretty (kernel_json argv display_name language extra)));
  write (dest ++ ["kernel.json"]) text ≫= λ _, mret dest.

Definition copy_all (src dest : path) : F unit := fs_get ≫= λ fs, copy_dir (S (fs_depth fs)) src dest.

Definition install_kernelspec_dir (src name : string) (prefix : option path) : F path :=
  dest ← fresh name prefix;
  fs_map_err (λ e, error_context e ("copying " +:+ src)) (copy_all (join (env_cwd env) src) dest) ≫= λ _, mret dest.
End Install.

(** ** Lemmas *)

Lemma strip_app p r : strip p (p ++ r) = Some r.
Proof. induction p as [|c p IH]; simpl; [done|]. by rewrite decide_True. Qed.

Lemma strip_Some p q r : strip p q = Some r ↔ q = p ++ r.
Proof.
  split; [|by intros ->; apply strip_app]. revert q. induction p as [|c p IH]; intros q; simpl; [congruence|].
  destruct q as [|d q]; [done|]. case_decide; [|done]. subst. by intros ->%IH.
Qed.

Lemma strip_self p : strip p p = Some [].
Proof. by apply strip_Some; rewrite app_nil_r. Qed.

(** A path is below another, or its rest is empty. *)
Definition below (p q : path) : Prop := is_Some (strip p q).

Global Instance below_dec p q : Decision (below p q).
Proof. unfold below. apply _. Defined.

Lemma below_app p r : below p (p ++ r).
Proof. unfold below. by rewrite strip_app. Qed.

Lemma not_below_deeper p c r : ¬ below (p ++ c :: r) p.
Proof. intros [k Hk%strip_Some]. apply (f_equal length) in Hk. rewrite !length_app in Hk. simpl in Hk. lia. Qed.

#[export] Hint Resolve below_app not_below_deeper : kern.

(** The directory of everything that exists is a directory; so is the root. *)
Definition fs_ok (fs : FS) : Prop := fs !! [] = Some FDir ∧ ∀ p c, is_Some (fs !! (p ++ [c])) → fs !! p = Some FDir.

Lemma fs_ok_above fs p r : fs_ok fs → is_Some (fs !! (p ++ r)) → r ≠ [] → fs !! p = Some FDir.
Proof.
  intros [_ Hok]. induction r as [|c r IH] using rev_ind; [done|]. intros Hs _. rewrite app_assoc in Hs. apply Hok in Hs.
  destruct (decide (r = [])) as [->|Hr]; [by rewrite app_nil_r in Hs|]. apply IH; [by rewrite Hs|done].
Qed.

(** No file is in the way of creating a directory. *)
Definition no_file (fs : FS) (p : path) : Prop := ∀ q d, below q p → fs !! q ≠ Some (FFile d).

Lemma missing_dirs_spec fs base rest :
  (∀ r r' d, rest = r ++ r' → fs !! (base ++ r) ≠ Some (FFile d)) →
  ∃ l, missing_dirs fs base rest = Ok l ∧ ∀ q, q ∈ l ↔ fs !! q = None ∧ ∃ r r', rest = r ++ r' ∧ q = base ++ r.
Proof.
  revert base. induction rest as [|c rest IH]; intros base Hno.
  - assert (∀ d, fs !! base ≠ Some (FFile d)) as Hn by (intros d; rewrite <- (app_nil_r base); by apply (Hno [] [])). simpl. destruct (fs !! base) as [[|d]|] eqn:E; [..|].
    + exists []. split; [done|]. intros q. split; [by intros ?%elem_of_nil|]. intros (Hq & r & r' & Er & ->).
      symmetry in Er. apply app_nil in Er as [-> _]. rewrite app_nil_r in Hq. congruence.
    + by destruct (Hn d).
    + exists [base]. split; [done|]. intros q. rewrite list_elem_of_singleton. split.
      * intros ->. split; [done|]. exists [], []. by rewrite !app_nil_r.
      * intros (_ & r & r' & Er & ->). symmetry in Er. apply app_nil in Er as [-> _]. by rewrite app_nil_r.
  - destruct (IH (base ++ [c])) as (l & El & Hl).
    { intros r r' d ->. rewrite <- app_assoc. by apply (Hno (c :: r) r'). }
    assert (∀ q, (∃ r r', c :: rest = r ++ r' ∧ q = base ++ r) ↔ q = base ∨ ∃ r r', rest = r ++ r' ∧ q = (base ++ [c]) ++ r) as Hsplit.
    { intros q. split.
      - intros (r & r' & Er & ->). destruct r as [|d r]; simplify_eq/=; [left; by rewrite app_nil_r|].
        right. exists r, r'. by rewrite <- app_assoc.
      - intros [->|(r & r' & -> & ->)]; [exists [], (c :: rest); by rewrite app_nil_r|]. exists (c :: r), r'. by rewrite <- app_assoc. }
    assert (∀ d, fs !! base ≠ Some (FFile d)) as Hn by (intros d; rewrite <- (app_nil_r base); by apply (Hno [] (c :: rest))). cbn [missing_dirs]. destruct (fs !! base) as [[|d]|] eqn:E.
    + exists l. split; [done|]. intros q. rewrite Hl, Hsplit. naive_solver congruence.
    + by destruct (Hn d).
    + exists (base :: l). rewrite El. split; [done|]. intros q. rewrite elem_of_cons, Hl, Hsplit. naive_solver congruence.
Qed.

Lemma foldr_insert_dirs (l : list path) (fs : FS) q :
  foldr (λ q, <[q := FDir]>) fs l !! q = if decide (q ∈ l) then Some FDir else fs !! q.
Proof.
  induction l as [|p l IH]; cbn [foldr]; [by rewrite decide_False by apply not_elem_of_nil|].
  destruct (decide (p = q)) as [->|Hne]; [rewrite lookup_insert_eq, decide_True; [done|left]|].
  rewrite lookup_insert_ne, IH by done. do 2 case_decide; set_solver.
Qed.

Lemma create_dir_all_spec fs p :
  no_file fs p →
  ∃ fs', create_dir_all p fs = (Ok tt, fs') ∧ ∀ q, fs' !! q = if decide (below q p) then Some FDir else fs !! q.
Proof.
  intros Hno. destruct (missing_dirs_spec fs [] p) as (l & El & Hl).
  { intros r r' d ->. apply Hno, below_app. }
  unfold create_dir_all. rewrite El. eexists. split; [done|]. intros q. rewrite foldr_insert_dirs.
  assert (below q p ↔ ∃ r r', p = r ++ r' ∧ q = [] ++ r) as Hb.
  { unfold below. split; [intros [r Hr%strip_Some]; by exists q, r|]. intros (r & r' & -> & ->). apply below_app. }
  destruct (decide (below q p)) as [Hq|Hq].
  - case_decide as Hin; [done|]. destruct (fs !! q) as [[|d]|] eqn:E; [done|by destruct (Hno q d Hq)|].
    destruct Hin. apply Hl. split; [done|]. by apply Hb.
  - rewrite decide_False; [done|]. intros Hin%Hl. naive_solver.
Qed.

(** ** Copying a directory *)

(** [graft fs a b done]: below [b], what is below [a] under the names [done];
    elsewhere the file system [fs]. *)
Definition graft (fs : FS) (a b : path) (names : list string) (q : path) : option Node :=
  match strip b q with
  | Some [] => Some FDir
  | Some (c :: r) => if decide (c ∈ names) then fs !! (a ++ c :: r) else None
  | None => fs !! q
  end.

Definition apart (a b : path) : Prop := ¬ below a b ∧ ¬ below b a.

Lemma apart_below a b r : apart a b → strip b (a ++ r) = None.
Proof.
  intros [H1 H2]. destruct (strip b (a ++ r)) as [r'|] eqn:E; [|done]. apply strip_Some in E.
  destruct (app_eq_inv a r b r' E) as [(k & -> & _)|(k & -> & _)]; [destruct H2 | destruct H1]; apply below_app.
Qed.

Lemma apart_app a b r r' : apart a b → apart (a ++ r) (b ++ r').
Proof.
  intros Hab. split; intros [k Hk%strip_Some]; rewrite <- app_assoc in Hk.
  - destruct Hab as [H1 H2]. destruct (app_eq_inv _ _ _ _ Hk) as [(m & -> & _)|(m & -> & _)]; [destruct H1 | destruct H2]; apply below_app.
  - destruct Hab as [H1 H2]. destruct (app_eq_inv _ _ _ _ Hk) as [(m & -> & _)|(m & -> & _)]; [destruct H2 | destruct H1]; apply below_app.
Qed.

Lemma graft_source (fs fs' : FS) a b names r : apart a b → (∀ q : path, fs' !! q = graft fs a b names q) → fs' !! (a ++ r) = fs !! (a ++ r).
Proof. intros Hab E. rewrite E. unfold graft. by rewrite (apart_below a b r Hab). Qed.

Lemma graft_ok (fs fs' : FS) a b names : fs_ok fs → fs !! b = Some FDir → (∀ q : path, fs' !! q = graft fs a b names q) → fs_ok fs'.
Proof.
  intros Hok Hb E. split.
  - rewrite E. unfold graft. destruct (strip b []) as [[|c r]|] eqn:Es; [done| |apply Hok]. apply strip_Some in Es. by destruct b.
  - intros p c Hs. rewrite E in Hs |- *. unfold graft in *. destruct (strip b p) as [r|] eqn:Ep.
    + apply strip_Some in Ep as ->. destruct r as [|d r]; [done|]. rewrite <- app_assoc, strip_app in Hs. simpl in Hs.
      case_decide; [|by destruct Hs]. apply (fs_ok_above fs (a ++ d :: r) [c] Hok); [|done]. rewrite <- app_assoc. exact Hs.
    + destruct (strip b (p ++ [c])) as [r|] eqn:Eq; [|by apply Hok in Hs].
      apply strip_Some in Eq. destruct r as [|d r _] using rev_ind.
      * rewrite app_nil_r in Eq. apply (fs_ok_above fs p [c] Hok); [|done]. by rewrite Eq, Hb.
      * rewrite app_assoc in Eq. apply app_inj_tail in Eq as [-> _]. by rewrite strip_app in Ep.
Qed.

Lemma child_name_Some p q c : child_name p q = Some c ↔ q = p ++ [c].
Proof.
  unfold child_name. split; [|by intros ->; rewrite strip_app].
  destruct (strip p q) as [[|d [|]]|] eqn:E; try done. intros [= ->]. by apply strip_Some in E.
Qed.

Lemma read_dir_spec fs p :
  fs !! p = Some FDir →
  ∃ names, read_dir p fs = (Ok names, fs) ∧ NoDup names ∧ ∀ c, c ∈ names ↔ is_Some (fs !! (p ++ [c])).
Proof.
  intros Hp. unfold read_dir. rewrite Hp. eexists. split; [done|]. split.
  - pose proof (NoDup_fst_map_to_list fs) as Hnd. revert Hnd. generalize (map_to_list fs). intros l.
    induction l as [|[q n] l IH]; cbn [omap list_omap]; [constructor|]. intros [Hq Hl]%NoDup_cons. simpl.
    destruct (child_name p q) as [c|] eqn:Ec; [|auto]. constructor; [|auto]. intros ([q' n'] & Hin & Hc)%list_elem_of_omap.
    simpl in Hc. apply child_name_Some in Hc, Ec. subst. destruct Hq. apply list_elem_of_fmap. by exists (p ++ [c], n').
  - intros c. rewrite list_elem_of_omap. split.
    + intros ([q n] & Hin & Hc). simpl in Hc. apply child_name_Some in Hc. subst. apply elem_of_map_to_list in Hin. by rewrite Hin.
    + intros [n Hn]. exists (p ++ [c], n). split; [by apply elem_of_map_to_list | by apply child_name_Some].
Qed.

(** One entry of the loop, and the recursion of [copy_dir] it needs. *)
Definition copies (rec : path → path → F unit) (fs : FS) (a b : path) : Prop :=
  ∃ fs', rec a b fs = (Ok tt, fs') ∧ ∀ q, fs' !! q = match strip b q with Some r => fs !! (a ++ r) | None => fs !! q end.

Definition can_copy (fuel : nat) (fs : FS) (a b : path) : Prop :=
  fs_ok fs ∧ fs !! a = Some FDir ∧ fs !! b = Some FDir ∧ apart a b ∧ (∀ c r, fs !! (b ++ c :: r) = None) ∧
  (∀ r, is_Some (fs !! (a ++ r)) → length r < fuel).

Definition copy_entry (rec : path → path → F unit) (src dest : path) (c : string) : F unit :=
  let from := src ++ [c] in
  let to := dest ++ [c] in
  d ← is_dir from;
  if d : bool then create_dir_all to ≫= λ _, rec from to else copy from to.

Lemma fs_ok_insert fs p c n : fs_ok fs → fs !! p = Some FDir → fs !! (p ++ [c]) = None → fs_ok (<[p ++ [c] := n]> fs).
Proof.
  intros Hok Hp Hn. split; [rewrite lookup_insert_ne; [apply Hok|by destruct p]|]. intros q d Hs.
  destruct (decide (q = p ++ [c])) as [->|Hne].
  - rewrite lookup_insert_ne in Hs by (intros E; apply (f_equal length) in E; rewrite !length_app in E; simpl in E; lia).
    apply (proj2 Hok) in Hs. congruence.
  - rewrite lookup_insert_ne by done. destruct (decide (q ++ [d] = p ++ [c])) as [E|E].
    + by apply app_inj_tail in E as [-> _].
    + rewrite lookup_insert_ne in Hs by done. by apply Hok in Hs.
Qed.

Lemma create_child_dir fs p c :
  fs_ok fs → fs !! p = Some FDir → fs !! (p ++ [c]) = None → create_dir_all (p ++ [c]) fs = (Ok tt, <[p ++ [c] := FDir]> fs).
Proof.
  intros Hok Hp Hn. assert (∀ q, below q (p ++ [c]) → q = p ++ [c] ∨ fs !! q = Some FDir) as Hup.
  { intros q [r Hr%strip_Some]. destruct r as [|d r _] using rev_ind; [left; by rewrite app_nil_r in Hr|]. right.
    rewrite app_assoc in Hr. apply app_inj_tail in Hr as [-> _].
    destruct (decide (r = [])) as [->|Hne]; [by rewrite app_nil_r in Hp|]. by apply (fs_ok_above fs q r Hok). }
  destruct (create_dir_all_spec fs (p ++ [c])) as (fs' & -> & Hfs').
  { intros q d Hq. destruct (Hup q Hq) as [->|E]; congruence. }
  f_equal. apply map_eq. intros q. rewrite Hfs'. destruct (decide (q = p ++ [c])) as [->|Hne].
  - rewrite lookup_insert_eq, decide_True; [done|]. unfold below. by rewrite strip_self.
  - rewrite lookup_insert_ne by done. case_decide as Hq; [|done]. by destruct (Hup q Hq).
Qed.

Lemma not_below_child b c q :
  strip (b ++ [c]) q = None → strip b q = None ∨ (∃ d r, strip b q = Some (d :: r) ∧ d ≠ c) ∨ q = b.
Proof.
  intros Hq. destruct (strip b q) as [[|d r]|] eqn:E; [|..|by left]; apply strip_Some in E as ->.
  - right; right. by rewrite app_nil_r.
  - right; left. exists d, r. split; [done|]. intros ->. change (c :: r) with ([c] ++ r) in Hq. by rewrite app_assoc, strip_app in Hq.
Qed.

Lemma copy_entry_spec rec fuel fs a b names fs1 c :
  can_copy (S fuel) fs a b → (∀ fs a b, can_copy fuel fs a b → copies rec fs a b) →
  (∀ q : path, fs1 !! q = graft fs a b names q) → c ∉ names → is_Some (fs !! (a ++ [c])) →
  ∃ fs2, copy_entry rec a b c fs1 = (Ok tt, fs2) ∧ ∀ q : path, fs2 !! q = graft fs a b (c :: names) q.
Proof.
  intros (Hok & Ha & Hb & Hab & Hemp & Hfuel) Hrec E1 Hc [n Hn].
  pose proof (graft_ok fs fs1 a b names Hok Hb E1) as Hok1.
  assert (∀ r, fs1 !! (a ++ r) = fs !! (a ++ r)) as Esrc by (intros r; by apply (graft_source fs fs1 a b names)).
  assert (fs1 !! b = Some FDir) as Hb1 by (rewrite E1; unfold graft; by rewrite strip_self).
  assert (∀ r, fs1 !! (b ++ c :: r) = None) as Hc1.
  { intros r. rewrite E1. unfold graft. rewrite strip_app. by rewrite decide_False. }
  assert (∀ q, strip b q = None ∨ (∃ d r, strip b q = Some (d :: r) ∧ d ≠ c) ∨ q = b → fs1 !! q = graft fs a b (c :: names) q) as Hother.
  { intros q Hq. rewrite E1. unfold graft. destruct Hq as [->|[(d & r & -> & Hd)| ->]]; [done| |by rewrite strip_self].
    do 2 case_decide; set_solver. }
  unfold copy_entry, is_dir. unfold mbind, F_bind. rewrite Esrc, Hn. destruct n as [|data].
  - rewrite (create_child_dir fs1 b c Hok1 Hb1 (Hc1 [])). set (fs2 := <[b ++ [c] := FDir]> fs1).
    assert (∀ r, fs2 !! ((a ++ [c]) ++ r) = fs !! (a ++ c :: r)) as Esrc2.
    { intros r. rewrite <- app_assoc. unfold fs2. rewrite lookup_insert_ne; [apply Esrc|]. intros Eq.
      pose proof (apart_below a b (c :: r) Hab) as Hs. simpl in Eq. rewrite <- Eq, strip_app in Hs. done. }
    destruct (Hrec fs2 (a ++ [c]) (b ++ [c])) as (fs3 & E3 & Hfs3).
    { split_and!.
      - by apply fs_ok_insert.
      - pose proof (Esrc2 []) as E. rewrite app_nil_r in E. by rewrite E.
      - apply lookup_insert_eq.
      - by apply apart_app.
      - intros d r. unfold fs2. rewrite <- app_assoc. rewrite lookup_insert_ne; [apply Hc1|]. intros Eq%app_inv_head. done.
      - intros r Hr. rewrite Esrc2 in Hr. apply (Hfuel (c :: r)) in Hr. simpl in Hr. lia. }
    exists fs3. split; [exact E3|]. intros q. rewrite Hfs3. destruct (strip (b ++ [c]) q) as [r|] eqn:Eq.
    + apply strip_Some in Eq as ->. rewrite Esrc2, <- app_assoc. change ([c] ++ r) with (c :: r).
      unfold graft. rewrite strip_app. by rewrite decide_True by left.
    + unfold fs2. rewrite lookup_insert_ne by (intros <-; by rewrite strip_self in Eq). by apply Hother, not_below_child.
  - unfold copy, write. rewrite Esrc, Hn, length_app, Nat.add_sub, take_app_length, Hb1, (Hc1 []).
    eexists. split; [done|]. intros q. destruct (strip (b ++ [c]) q) as [r|] eqn:Eq.
    + apply strip_Some in Eq as ->. rewrite <- app_assoc. change ([c] ++ r) with (c :: r). unfold graft. rewrite strip_app, decide_True by left.
      destruct r as [|d r]; [by rewrite lookup_insert_eq|]. rewrite lookup_insert_ne by (intros ?%app_inv_head; done).
      rewrite Hc1. destruct (fs !! (a ++ c :: d :: r)) as [n|] eqn:En; [|done].
      rewrite (fs_ok_above fs (a ++ [c]) (d :: r) Hok) in Hn; [done| |done]. rewrite <- app_assoc. simpl. by rewrite En.
    + rewrite lookup_insert_ne by (intros <-; by rewrite strip_self in Eq). by apply Hother, not_below_child.
Qed.

Lemma for_names_spec rec fuel fs a b names done fs1 :
  can_copy (S fuel) fs a b → (∀ fs a b, can_copy fuel fs a b → copies rec fs a b) →
  (∀ q : path, fs1 !! q = graft fs a b done q) → NoDup names → (∀ c, c ∈ names → c ∉ done ∧ is_Some (fs !! (a ++ [c]))) →
  ∃ fs2 all, for_names (copy_entry rec a b) names fs1 = (Ok tt, fs2) ∧ (∀ c, c ∈ all ↔ c ∈ names ∨ c ∈ done) ∧
    ∀ q : path, fs2 !! q = graft fs a b all q.
Proof.
  intros Hcan Hrec. revert done fs1. induction names as [|c names IH]; intros done fs1 E1 Hnd Hin.
  - exists fs1, done. split_and!; [done|set_solver|done].
  - apply NoDup_cons in Hnd as [Hc Hnd]. destruct (Hin c ltac:(left)) as [Hcd Hcs].
    destruct (copy_entry_spec rec fuel fs a b done fs1 c Hcan Hrec E1 Hcd Hcs) as (fs2 & E2 & Hfs2).
    destruct (IH (c :: done) fs2 Hfs2 Hnd) as (fs3 & all & E3 & Hall & Hfs3).
    { intros d Hd. destruct (Hin d ltac:(by right)). split; [|done]. intros [->|?]%elem_of_cons; done. }
    exists fs3, all. split_and!; [|set_solver|done]. cbn [for_names]. unfold mbind, F_bind. by rewrite E2.
Qed.

Lemma copy_dir_spec fuel fs a b : can_copy fuel fs a b → copies (copy_dir fuel) fs a b.
Proof.
  revert fs a b. induction fuel as [|fuel IH]; intros fs a b Hcan; pose proof Hcan as (Hok & Ha & Hb & Hab & Hemp & Hfuel).
  { specialize (Hfuel []). rewrite app_nil_r, Ha in Hfuel. pose proof (Hfuel ltac:(by eexists)). lia. }
  destruct (read_dir_spec fs a Ha) as (names & Er & Hnd & Hnames).
  destruct (for_names_spec (copy_dir fuel) fuel fs a b names [] fs Hcan IH) as (fs2 & all & E2 & Hall & Hfs2); [|done|set_solver|].
  { intros q. unfold graft. destruct (strip b q) as [[|c r]|] eqn:Eq; [|..|done]; apply strip_Some in Eq as ->.
    - by rewrite app_nil_r.
    - rewrite decide_False by apply not_elem_of_nil. apply Hemp. }
  exists fs2. split.
  - cbn [copy_dir]. unfold mbind at 1, F_bind at 1. rewrite Er. exact E2.
  - intros q. rewrite Hfs2. unfold graft. destruct (strip b q) as [[|c r]|]; [by rewrite app_nil_r| |done].
    case_decide as Hc; [done|]. destruct (fs !! (a ++ c :: r)) eqn:E; [|done]. destruct Hc. apply Hall. left. apply Hnames.
    destruct r as [|d r]; [by rewrite E|]. rewrite (fs_ok_above fs (a ++ [c]) (d :: r) Hok); [done| |done].
    rewrite <- app_assoc. simpl. by rewrite E.
Qed.

(** ** What installing does *)

Section Effects.
Context (env : Env) (to_string_pretty : Map → result string string).

Lemma filter_below (fs : FS) p q : filter (λ kv, strip p kv.1 = None) fs !! q = if decide (below p q) then None else fs !! q.
Proof.
  case_decide as Hb.
  - apply map_lookup_filter_None. right. intros n _ Hs. simpl in Hs. unfold below in Hb. rewrite Hs in Hb. by destruct Hb.
  - destruct (fs !! q) as [n|] eqn:E; [|apply map_lookup_filter_None; by left]. apply map_lookup_filter_Some. split; [done|]. simpl.
    unfold below in Hb. destruct (strip p q) eqn:Es; [|done]. by destruct Hb.
Qed.

Lemma fresh_spec fs name prefix dir :
  kernels_dir env prefix = Ok dir → fs_ok fs → no_file fs (join dir name) →
  ∃ fs', fresh env name prefix fs = (Ok (join dir name), fs') ∧
    ∀ q, fs' !! q = if decide (below q (join dir name)) then Some FDir else if decide (below (join dir name) q) then None else fs !! q.
Proof.
  intros Hdir Hok Hno. unfold fresh, fs_lift, fs_exists, mbind, F_bind. rewrite Hdir. set (dest := join dir name) in *.
  assert (∃ fs1, (if bool_decide (is_Some (fs !! dest)) then remove_dir_all dest else mret tt) fs = (Ok tt, fs1) ∧
    ∀ q, fs1 !! q = if decide (below dest q) then None else fs !! q) as (fs1 & E1 & Hfs1).
  { case_bool_decide as Hex.
    - unfold remove_dir_all. destruct (fs !! dest) as [[|d]|] eqn:Ed; [eexists; split; [done|apply filter_below]| |by destruct Hex].
      destruct (Hno dest d); [unfold below; by rewrite strip_self | done].
    - exists fs. split; [done|]. intros q. case_decide as Hb; [|done]. destruct Hb as [r Hr%strip_Some]. subst.
      destruct (fs !! (dest ++ r)) eqn:Eq; [|done]. destruct Hex. destruct (decide (r = [])) as [->|Hr]; [by rewrite app_nil_r in Eq; eexists|].
      rewrite (fs_ok_above fs dest r Hok); [by eexists|by eexists|done]. }
  rewrite E1. destruct (create_dir_all_spec fs1 dest) as (fs2 & E2 & Hfs2).
  { intros q d Hq. rewrite Hfs1. case_decide; [done|]. by apply Hno. }
  rewrite E2. exists fs2. split; [done|]. intros q. rewrite Hfs2. case_decide; [done|]. apply Hfs1.
Qed.

Lemma replaced_ok (fs fs1 : FS) dest :
  fs_ok fs → (∀ q, fs1 !! q = if decide (below q dest) then Some FDir else if decide (below dest q) then None else fs !! q) → fs_ok fs1.
Proof.
  intros [_ Hok] E. split; [rewrite E, decide_True; [done|by eexists]|]. intros p c Hs. rewrite E in Hs |- *.
  destruct (decide (below p dest)) as [|Hp]; [done|].
  rewrite decide_False in Hs by (intros [r Hr%strip_Some]; destruct Hp; rewrite Hr, <- app_assoc; apply below_app).
  destruct (decide (below dest (p ++ [c]))) as [|Hd]; [by destruct Hs|]. apply Hok in Hs. rewrite decide_False; [done|].
  intros [r ->%strip_Some]. destruct Hd. rewrite <- app_assoc. apply below_app.
Qed.

Lemma fs_depth_bound (fs : FS) q : is_Some (fs !! q) → length q ≤ fs_depth fs.
Proof.
  intros [n Hn]. apply max_list_elem_of_le. apply list_elem_of_fmap. exists (q, n). split; [done|]. by apply elem_of_map_to_list.
Qed.

(** (copying a kernelspec) installing a directory that is apart from its
    destination ends and succeeds: the destination then has exactly the
    source's files and directories, whatever was there before; its parent
    directories exist; nothing else on the disk changes, the source included. *)
Theorem install_dir_copies fs src name prefix dir :
  let a := join (env_cwd env) src in
  let dest := join dir name in
  kernels_dir env prefix = Ok dir → fs_ok fs → fs !! a = Some FDir → apart a dest → no_file fs dest →
  ∃ fs', install_kernelspec_dir env src name prefix fs = (Ok dest, fs') ∧
    (∀ r, fs' !! (dest ++ r) = fs !! (a ++ r)) ∧
    (∀ q, ¬ below dest q → fs' !! q = if decide (below q dest) then Some FDir else fs !! q).
Proof.
  cbv zeta. set (a := join (env_cwd env) src). set (dest := join dir name). intros Hdir Hok Ha Hap Hno.
  destruct (fresh_spec fs name prefix dir Hdir Hok Hno) as (fs1 & E1 & Hfs1). fold dest in E1, Hfs1.
  assert (∀ r, fs1 !! (a ++ r) = fs !! (a ++ r)) as Esrc.
  { intros r. rewrite Hfs1, decide_False, decide_False; [done|..].
    - unfold below. rewrite (apart_below a dest r Hap). by intros [].
    - intros [k Hk%strip_Some]. destruct Hap as [[] _]. rewrite Hk, <- app_assoc. apply below_app. }
  assert (can_copy (S (fs_depth fs1)) fs1 a dest) as Hcan.
  { split_and!; [by eapply replaced_ok | by rewrite <- (app_nil_r a), Esrc, app_nil_r | | done | |].
    - rewrite Hfs1, decide_True; [done|]. unfold below. by rewrite strip_self.
    - intros c r. rewrite Hfs1, decide_False, decide_True; [done|auto with kern|auto with kern].
    - intros r Hr%fs_depth_bound. rewrite length_app in Hr. lia. }
  destruct (copy_dir_spec _ fs1 a dest Hcan) as (fs2 & E2 & Hfs2).
  exists fs2. split_and!.
  - unfold install_kernelspec_dir, mbind, F_bind, fs_map_err, copy_all, fs_get. rewrite E1. fold a. unfold mbind, F_bind. by rewrite E2.
  - intros r. by rewrite Hfs2, strip_app.
  - intros q Hq. rewrite Hfs2. unfold below in Hq. destruct (strip dest q) eqn:Es; [by destruct Hq|]. rewrite Hfs1. case_decide; [done|].
    rewrite decide_False; [done|]. unfold below. rewrite Es. by intros [].
Qed.

(** (writing a kernelspec) the destination then holds [kernel.json] and
    nothing else; its fields are the three given, except where [extra] has the
    same key, and all those of [extra]; the rest of the disk is as it was, with
    the parent directories created. *)
Theorem install_kernelspec_writes fs name argv display_name language extra prefix dir text :
  let dest := join dir name in
  let spec := kernel_json argv display_name language extra in
  kernels_dir env prefix = Ok dir → fs_ok fs → no_file fs dest → to_string_pretty spec = Ok text → NoDup extra.*1 →
  (∃ fs', install_kernelspec env to_string_pretty name argv display_name language extra prefix fs = (Ok dest, fs') ∧
    fs' !! dest = Some FDir ∧ (∀ c r, fs' !! (dest ++ c :: r) = if decide (c = "kernel.json" ∧ r = []) then Some (FFile text) else None) ∧
    (∀ q, ¬ below dest q → fs' !! q = if decide (below q dest) then Some FDir else fs !! q)) ∧
  ∀ k, map_get spec k = match map_get extra k with
                        | Some v => Some v
                        | None => map_get [("argv", Arr (map Str argv)); ("display_name", Str display_name); ("language", Str language)] k
                        end.
Proof.
  cbv zeta. set (dest := join dir name). intros Hdir Hok Hno Ht Hnd. split; [|intros k; by apply map_extend_get].
  destruct (fresh_spec fs name prefix dir Hdir Hok Hno) as (fs1 & E1 & Hfs1). fold dest in E1, Hfs1.
  assert (fs1 !! dest = Some FDir) as Hd by (rewrite Hfs1, decide_True; [done|unfold below; by rewrite strip_self]).
  exists (<[dest ++ ["kernel.json"] := FFile text]> fs1). split_and!.
  - unfold install_kernelspec, mbind, F_bind, fs_lift. rewrite E1, Ht. simpl. unfold write.
    rewrite length_app, Nat.add_sub, take_app_length, Hd. rewrite Hfs1, decide_False, decide_True; [done|auto with kern|auto with kern].
  - rewrite lookup_insert_ne; [done|]. intros E%(f_equal length). rewrite length_app in E. simpl in E. lia.
  - intros c r. case_decide as Hc; [destruct Hc as [-> ->]; by rewrite lookup_insert_eq|].
    rewrite lookup_insert_ne by (intros [= <- <-]%app_inv_head; by destruct Hc).
    rewrite Hfs1, decide_False, decide_True; [done|auto with kern|auto with kern].
  - intros q Hq. rewrite lookup_insert_ne by (intros <-; destruct Hq; apply below_app).
    rewrite Hfs1. case_decide; [done|]. by rewrite decide_False.
Qed.

(** (installing a kernelspec onto itself) when the source is the very
    directory it is to be installed as, the source is removed before it is
    copied: the call succeeds and the kernelspec is empty. *)
Theorem install_dir_onto_itself fs src name prefix dir :
  let dest := join dir name in
  kernels_dir env prefix = Ok dir → fs_ok fs → fs !! dest = Some FDir → join (env_cwd env) src = dest →
  ∃ fs', install_kernelspec_dir env src name prefix fs = (Ok dest, fs') ∧ ∀ c r, fs' !! (dest ++ c :: r) = None.
Proof.
  cbv zeta. set (dest := join dir name). intros Hdir Hok Hd Hsrc.
  destruct (fresh_spec fs name prefix dir Hdir Hok) as (fs1 & E1 & Hfs1); [|fold dest in E1, Hfs1].
  { intros q d [r Hr%strip_Some]. destruct (decide (r = [])) as [->|Hne].
    - rewrite app_nil_r in Hr. fold dest in Hr. congruence.
    - rewrite (fs_ok_above fs q r Hok); [done| |done]. fold dest in Hr. rewrite <- Hr, Hd. by eexists. }
  assert (∀ c r, fs1 !! (dest ++ c :: r) = None) as Hemp.
  { intros c r. rewrite Hfs1, decide_False, decide_True; [done|auto with kern|auto with kern]. }
  destruct (read_dir_spec fs1 dest) as (names & Er & _ & Hn).
  { rewrite Hfs1, decide_True; [done|]. unfold below. by rewrite strip_self. }
  assert (names = []) as ->.
  { destruct names as [|c names]; [done|]. destruct (proj1 (Hn c) ltac:(left)) as [? Hc]. by rewrite Hemp in Hc. }
  exists fs1. split; [|done]. unfold install_kernelspec_dir, mbind, F_bind, fs_map_err, copy_all, fs_get. rewrite E1, Hsrc.
  cbn [copy_dir]. unfold mbind, F_bind. by rewrite Er.
Qed.

(** An empty name is the kernels directory itself: every kernelspec in it is
    removed. *)
Theorem empty_name_removes_every_kernelspec fs prefix dir :
  kernels_dir env prefix = Ok dir → fs_ok fs → no_file fs dir →
  ∃ fs', fresh env "" prefix fs = (Ok dir, fs') ∧ ∀ c r, fs' !! (dir ++ c :: r) = None.
Proof.
  intros Hdir Hok Hno. destruct (fresh_spec fs "" prefix dir Hdir Hok Hno) as (fs1 & E1 & Hfs1).
  change (join dir "") with dir in *. exists fs1. split; [done|]. intros c r.
  rewrite Hfs1, decide_False, decide_True; [done|auto with kern|auto with kern].
Qed.
End Effects.

(** ** A user's disk, checked by evaluation *)

Global Instance Node_eq_dec : EqDecision Node.
Proof. solve_decision. Defined.

Lemma fs_ok_check (fs : FS) :
  bool_decide (fs !! [] = Some FDir ∧ map_Forall (λ q _, q = [] ∨ fs !! take (length q - 1) q = Some FDir) fs) = true → fs_ok fs.
Proof.
  intros [Hr Hall]%bool_decide_eq_true. split; [done|]. intros p c [n Hn].
  destruct (Hall _ _ Hn) as [E|E]; [by destruct p|]. by rewrite length_app, Nat.add_sub, take_app_length in E.
Qed.

Lemma no_file_check (fs : FS) p :
  forallb (λ n, match fs !! take n p with Some (FFile _) => false | _ => true end) (seq 0 (S (length p))) = true → no_file fs p.
Proof.
  intros Hall q d [r ->%strip_Some] Hq. rewrite forallb_forall in Hall. specialize (Hall (length q)).
  rewrite take_app_length, Hq in Hall. assert (false = true); [|done]. apply Hall. apply in_seq. rewrite length_app. lia.
Qed.

Definition demo_env : Env := MkEnv (λ k, if decide (k = "HOME") then Some "/home/u" else None) [] Linux.

Definition demo_kernels : path := ["home"; "u"; ".local"; "share"; "jupyter"; "kernels"].

Definition demo_fs : FS :=
  list_to_map ([([], FDir); (["spec"], FDir); (["spec"; "kernel.json"], FFile "{}"); (["spec"; "img"], FDir);
                (["spec"; "img"; "logo"], FFile "x")] ++
               map (λ n, (take n (demo_kernels ++ ["py"]), FDir)) (seq 1 7) ++ [(demo_kernels ++ ["py"; "old"], FFile "o")]).

Lemma install_dir_copies_witness :
  let dest := demo_kernels ++ ["py"] in
  ∃ fs', install_kernelspec_dir demo_env "spec" "py" None demo_fs = (Ok dest, fs') ∧
    (∀ r, fs' !! (dest ++ r) = demo_fs !! (["spec"] ++ r)) ∧
    (∀ q, ¬ below dest q → fs' !! q = if decide (below q dest) then Some FDir else demo_fs !! q).
Proof.
  apply (install_dir_copies demo_env demo_fs "spec" "py" None demo_kernels); [reflexivity|apply fs_ok_check; vm_compute; reflexivity|reflexivity| |].
  - split; intros [r Hr]; discriminate Hr.
  - apply no_file_check. vm_compute. reflexivity.
Defined.

Lemma install_kernelspec_writes_witness :
  let dest := demo_kernels ++ ["py"] in
  let extra := [("interrupt_mode", Str "message"); ("language", Str "py")] in
  let spec := kernel_json ["k"; "{connection_file}"] "K" "python" extra in
  (∃ fs', install_kernelspec demo_env (λ _, Ok "text") "py" ["k"; "{connection_file}"] "K" "python" extra None demo_fs = (Ok dest, fs') ∧
    fs' !! dest = Some FDir ∧ (∀ c r, fs' !! (dest ++ c :: r) = if decide (c = "kernel.json" ∧ r = []) then Some (FFile "text") else None) ∧
    (∀ q, ¬ below dest q → fs' !! q = if decide (below q dest) then Some FDir else demo_fs !! q)) ∧
  ∀ k, map_get spec k = match map_get extra k with
                        | Some v => Some v
                        | None => map_get [("argv", Arr [Str "k"; Str "{connection_file}"]); ("display_name", Str "K"); ("language", Str "python")] k
                        end.
Proof.
  apply (install_kernelspec_writes demo_env (λ _, Ok "text") demo_fs "py" ["k"; "{connection_file}"] "K" "python" _ None demo_kernels "text");
    [reflexivity|apply fs_ok_check; vm_compute; reflexivity| |reflexivity|].
  - apply no_file_check. vm_compute. reflexivity.
  - apply (bool_decide_unpack _). vm_compute. reflexivity.
Defined.

Lemma install_dir_onto_itself_witness :
  let dest := demo_kernels ++ ["py"] in
  ∃ fs', install_kernelspec_dir demo_env "/home/u/.local/share/jupyter/kernels/py" "py" None demo_fs = (Ok dest, fs') ∧
    ∀ c r, fs' !! (dest ++ c :: r) = None.
Proof.
  apply (install_dir_onto_itself demo_env demo_fs "/home/u/.local/share/jupyter/kernels/py" "py" None demo_kernels);
    [reflexivity|apply fs_ok_check; vm_compute; reflexivity|reflexivity|reflexivity].
Defined.
