(* ===== verification/Wire.v ===== *)
(** * Signed Jupyter messages (src/src/wire.rs)

    [Message], [Session], the multipart codec [encode]/[decode] with its HMAC
    signature and its replay set, and the construction of new messages.

    The MAC, the hex encoding, the JSON serialiser, the UUID generator and the
    clock come from other crates: they are the fields of [WireExt].  The n-th
    draw of a UUID or of the clock is [uuid_v4 n] or [rfc3339_now n]. *)

From Stdlib Require Import ZArith Strings.Byte.
From stdpp Require Import base gmap sets list strings pretty.
From S2P Require Import Prelude Json Errors.

(** ** What the codec uses of other crates *)

Class WireExt := {
  mac_state : Type;
  mac_new : bytes → mac_state;
  mac_update : mac_state → bytes → mac_state;
  mac_finalize : mac_state → bytes;
  hex_encode : bytes → bytes;
  to_vec_map : Map → result string bytes;
  to_vec : Value → result string bytes;
  from_slice_map : bytes → result string Map;
  from_slice : bytes → result string Value;
  uuid_v4 : nat → string;
  rfc3339_now : nat → string;
}.

Definition DELIMITER : bytes := as_bytes "<IDS|MSG>".

Inductive WireError :=
| MissingDelimiter | MissingParts | BadSignature | DuplicateSignature | JsonError (display : string).

(** [impl Display for WireError]. *)
Definition wire_error_display (e : WireError) : string :=
  match e with
  | MissingDelimiter => "missing <IDS|MSG> delimiter"
  | MissingParts => "insufficient Jupyter message parts"
  | BadSignature => "invalid message signature"
  | DuplicateSignature => "duplicate message signature"
  | JsonError d => "invalid message JSON: " +:+ d
  end.

(** [impl std::error::Error for WireError]. *)
Definition wire_error_source (e : WireError) : option StdError :=
  match e with JsonError d => Some (ForeignError SerdeError d None) | _ => None end.

(** [From<WireError> for Error]. *)
Definition error_from_wire (e : WireError) : Error := from_wire (wire_error_display e) (wire_error_source e).

Record Message := MkMessage {
  identities : list bytes;
  header : Map;
  parent_header : Map;
  metadata : Map;
  content : Value;
  buffers : list bytes;
}.

(** [Message::default()]: the derived [Default], with [Value::Null] as content. *)
Definition message_default : Message := MkMessage [] [] [] [] Null [].

Definition msg_type (m : Message) : string := unwrap_or (mget_str (header m) "msg_type") "".
Definition msg_id (m : Message) : string := unwrap_or (mget_str (header m) "msg_id") "".

(** The fields of [Session] that never change.  The replay set [seen], shared
    behind a mutex, is the state [decode] threads. *)
Record Session := MkSession { key : bytes; session_id : string; username : string }.

Section Codec.
Context `{WireExt}.

(** [Session::new]: [uuid_v4 n] is the session id drawn. *)
Definition session_new (k : bytes) (user : string) (n : nat) : Session * gset bytes :=
  (MkSession k (uuid_v4 n) user, ∅).

Definition signature (s : Session) (json_parts : list bytes) : bytes :=
  match key s with
  | [] => []
  | _ => hex_encode (mac_finalize (foldl mac_update (mac_new (key s)) json_parts))
  end.

(** [frames.iter().position(|part| part == DELIMITER)]. *)
Fixpoint delimiter_position (frames : list bytes) : option nat :=
  match frames with
  | [] => None
  | f :: fs => if decide (f = DELIMITER) then Some 0 else S <$> delimiter_position fs
  end.

Definition json_err {A} (r : result string A) : result WireError A := map_err JsonError r.

(** The [Ok(Message { .. })] at the end of [decode]; fields are evaluated in
    order, and [?] stops at the first part that does not parse. *)
Definition decode_parts (frames : list bytes) (delimiter : nat) : result WireError Message :=
  let part i := frames !!! (delimiter + 2 + i) in
  h ← json_err (from_slice_map (part 0));
  p ← json_err (from_slice_map (part 1));
  md ← json_err (from_slice_map (part 2));
  c ← json_err (from_slice (part 3));
  Ok (MkMessage (take delimiter frames) h p md c (drop (delimiter + 6) frames)).

Definition decode (s : Session) (seen : gset bytes) (frames : list bytes) :
    result WireError Message * gset bytes :=
  match delimiter_position frames with
  | None => (Err MissingDelimiter, seen)
  | Some delimiter =>
      if decide (length frames < delimiter + 6) then (Err MissingParts, seen) else
      let sig := frames !!! (delimiter + 1) in
      let json_parts := take 4 (drop (delimiter + 2) frames) in
      if decide (key s = []) then (decode_parts frames delimiter, seen) else
      if decide (signature s json_parts ≠ sig) then (Err BadSignature, seen) else
      if decide (sig ∈ seen) then (Err DuplicateSignature, seen) else
      (decode_parts frames delimiter, {[sig]} ∪ seen)
  end.

Definition encode_parts (m : Message) : result WireError (list bytes) :=
  h ← json_err (to_vec_map (header m));
  p ← json_err (to_vec_map (parent_header m));
  md ← json_err (to_vec_map (metadata m));
  c ← json_err (to_vec (content m));
  Ok [h; p; md; c].

Definition encode (s : Session) (m : Message) : result WireError (list bytes) :=
  json_parts ← encode_parts m;
  Ok (identities m ++ [DELIMITER] ++ [signature s json_parts] ++ json_parts ++ buffers m).

(** [Session::message]: [n] indexes the draws of the UUID and of the clock. *)
Definition session_message (s : Session) (n : nat) (mt : string) (c : Value) (parent : option Message) : Message :=
  MkMessage []
    [("msg_id", Str (uuid_v4 n)); ("session", Str (session_id s)); ("username", Str (username s));
     ("date", Str (rfc3339_now n)); ("msg_type", Str mt); ("version", Str "5.3")]
    (match parent with Some p => header p | None => [] end) [] c [].

Definition session_reply (s : Session) (n : nat) (request : Message) (mt : string) (c : Value) : Message :=
  session_message s n mt c (Some request).

(** Decoding a sequence of multipart messages on one session, as the router
    peers that share it do. *)
Fixpoint decode_all (s : Session) (seen : gset bytes) (l : list (list bytes)) :
    list (result WireError Message) * gset bytes :=
  match l with
  | [] => ([], seen)
  | frames :: l' =>
      let '(r, seen') := decode s seen frames in
      let '(rs, seen'') := decode_all s seen' l' in
      (r :: rs, seen'')
  end.

(** The signature frame of a multipart message that has one. *)
Definition signature_frame (frames : list bytes) : option bytes :=
  d ← delimiter_position frames; frames !! (d + 1).

(** The parts of [m] survive serialisation and parsing. *)
Definition parses_back (m : Message) : Prop :=
  ∃ h p md c,
    to_vec_map (header m) = Ok h ∧ from_slice_map h = Ok (header m) ∧
    to_vec_map (parent_header m) = Ok p ∧ from_slice_map p = Ok (parent_header m) ∧
    to_vec_map (metadata m) = Ok md ∧ from_slice_map md = Ok (metadata m) ∧
    to_vec (content m) = Ok c ∧ from_slice c = Ok (content m).

(** ** Lemmas *)

Lemma delimiter_position_app ids rest :
  DELIMITER ∉ ids → delimiter_position (ids ++ DELIMITER :: rest) = Some (length ids).
Proof.
  induction ids as [|f ids IH]; cbn [delimiter_position app length]; intros Hni.
  - by rewrite decide_True.
  - rewrite decide_False by set_solver. by rewrite IH by set_solver.
Qed.

Lemma delimiter_position_spec frames d :
  delimiter_position frames = Some d →
  frames !! d = Some DELIMITER ∧ DELIMITER ∉ take d frames.
Proof.
  revert d. induction frames as [|f fs IH]; simpl; intros d Hd; [done|].
  destruct (decide (f = DELIMITER)) as [->|Hne]; simplify_eq.
  - split; [done | apply not_elem_of_nil].
  - destruct (delimiter_position fs) as [d'|]; simplify_eq/=.
    destruct (IH d' eq_refl). split; [done|]. rewrite elem_of_cons. naive_solver.
Qed.

Lemma decode_parts_app ids sig h p md c bufs (frames := ids ++ DELIMITER :: sig :: [h; p; md; c] ++ bufs) :
  decode_parts frames (length ids) =
    (h' ← json_err (from_slice_map h); p' ← json_err (from_slice_map p);
     md' ← json_err (from_slice_map md); c' ← json_err (from_slice c);
     Ok (MkMessage ids h' p' md' c' bufs)).
Proof.
  subst frames. unfold decode_parts.
  assert (∀ i, (ids ++ DELIMITER :: sig :: [h; p; md; c] ++ bufs) !!! (length ids + 2 + i)
          = ([h; p; md; c] ++ bufs) !!! i) as E.
  { intros i. rewrite lookup_total_app_r by lia. by replace (length ids + 2 + i - length ids) with (2 + i) by lia. }
  rewrite !E, take_app_length, drop_app_ge by lia.
  by replace (length ids + 6 - length ids) with 6 by lia.
Qed.

Lemma decode_unfold s seen ids sig h p md c bufs (frames := ids ++ DELIMITER :: sig :: [h; p; md; c] ++ bufs) :
  DELIMITER ∉ ids →
  decode s seen frames =
    if decide (key s = []) then (decode_parts frames (length ids), seen) else
    if decide (signature s [h; p; md; c] ≠ sig) then (Err BadSignature, seen) else
    if decide (sig ∈ seen) then (Err DuplicateSignature, seen) else
    (decode_parts frames (length ids), {[sig]} ∪ seen).
Proof.
  intros Hni. unfold decode. subst frames. rewrite delimiter_position_app by done.
  rewrite decide_False by (rewrite length_app; simpl; lia).
  rewrite lookup_total_app_r, drop_app_ge by lia.
  replace (length ids + 1 - length ids) with 1 by lia.
  by replace (length ids + 2 - length ids) with 2 by lia.
Qed.

Lemma encode_Ok s m frames :
  encode s m = Ok frames →
  ∃ h p md c, encode_parts m = Ok [h; p; md; c] ∧
    frames = identities m ++ DELIMITER :: signature s [h; p; md; c] :: [h; p; md; c] ++ buffers m.
Proof.
  unfold encode, encode_parts. intros E.
  destruct (to_vec_map (header m)) as [h|]; simplify_eq/=.
  destruct (to_vec_map (parent_header m)) as [p|]; simplify_eq/=.
  destruct (to_vec_map (metadata m)) as [md|]; simplify_eq/=.
  destruct (to_vec (content m)) as [c|]; simplify_eq/=.
  naive_solver.
Qed.

Lemma drop_cons_total (l : list bytes) i : i < length l → drop i l = l !!! i :: drop (S i) l.
Proof.
  intros Hi. destruct (lookup_lt_is_Some_2 l i Hi) as [x Hx].
  rewrite (drop_S l x i Hx). f_equal. symmetry. by apply list_lookup_total_correct.
Qed.

(** A multipart message with a delimiter and at least six frames from it on
    splits into its identities, signature, four JSON parts and buffers. *)
Lemma frames_split frames d :
  delimiter_position frames = Some d → d + 6 ≤ length frames →
  ∃ h p md c, DELIMITER ∉ take d frames ∧ length (take d frames) = d ∧
    frames = take d frames ++ DELIMITER :: frames !!! (d + 1) :: [h; p; md; c] ++ drop (d + 6) frames ∧
    take 4 (drop (d + 2) frames) = [h; p; md; c].
Proof.
  intros Hd Hlen. destruct (delimiter_position_spec frames d Hd) as [Hat Hni].
  exists (frames !!! (d + 2)), (frames !!! (d + 3)), (frames !!! (d + 4)), (frames !!! (d + 5)).
  assert (drop (d + 2) frames = frames !!! (d + 2) :: frames !!! (d + 3) :: frames !!! (d + 4)
            :: frames !!! (d + 5) :: drop (d + 6) frames) as E.
  { rewrite drop_cons_total by lia. replace (S (d + 2)) with (d + 3) by lia.
    rewrite drop_cons_total by lia. replace (S (d + 3)) with (d + 4) by lia.
    rewrite drop_cons_total by lia. replace (S (d + 4)) with (d + 5) by lia.
    rewrite drop_cons_total by lia. by replace (S (d + 5)) with (d + 6) by lia. }
  split_and!; [done | rewrite length_take; lia | | by rewrite E].
  rewrite <- (take_drop d frames) at 1. f_equal.
  rewrite (drop_S frames DELIMITER d Hat). f_equal.
  replace (S d) with (d + 1) by lia. rewrite drop_cons_total by lia.
  replace (S (d + 1)) with (d + 2) by lia. by rewrite E.
Qed.

(** What an accepted message is, on a session with a key. *)
Lemma decode_signed_inv s seen frames r seen' :
  key s ≠ [] → decode s seen frames = (r, seen') →
  (seen' = seen ∧ ∃ e, r = Err e) ∨
  ∃ ids sig h p md c bufs,
    frames = ids ++ DELIMITER :: sig :: [h; p; md; c] ++ bufs ∧ DELIMITER ∉ ids ∧
    signature s [h; p; md; c] = sig ∧ sig ∉ seen ∧ seen' = {[sig]} ∪ seen ∧
    r = decode_parts frames (length ids).
Proof.
  intros Hkey. unfold decode at 1. destruct (delimiter_position frames) as [d|] eqn:Hd; [|naive_solver].
  case_decide as Hlen; [naive_solver|]. rewrite decide_False by done.
  destruct (frames_split frames d Hd ltac:(lia)) as (h & p & md & c & Hni & Hl & Hsplit & Hparts).
  rewrite Hparts. case_decide as Hsig; [naive_solver|]. case_decide as Hseen; [naive_solver|].
  intros [= <- <-]. right. eexists (take d frames), _, h, p, md, c, _.
  rewrite Hl. by split_and!.
Qed.

Lemma signature_frame_app ids sig rest :
  DELIMITER ∉ ids → signature_frame (ids ++ DELIMITER :: sig :: rest) = Some sig.
Proof.
  intros Hni. unfold signature_frame. rewrite delimiter_position_app by done. simpl.
  rewrite lookup_app_r by lia. by replace (length ids + 1 - length ids) with 1 by lia.
Qed.

Lemma decode_all_cons s seen f l :
  (decode_all s seen (f :: l)).1 = (decode s seen f).1 :: (decode_all s (decode s seen f).2 l).1.
Proof. simpl. destruct (decode s seen f) as [r seen']. simpl. by destruct (decode_all s seen' l). Qed.

(** The signature frames of the messages a session accepted. *)
Definition accepted_signatures (l : list (list bytes)) (rs : list (result WireError Message)) : list bytes :=
  omap (λ fr, if is_ok fr.2 then signature_frame fr.1 else None) (zip l rs).

Lemma accepted_signatures_fresh s seen l :
  key s ≠ [] →
  NoDup (accepted_signatures l (decode_all s seen l).1) ∧
  ∀ sig, sig ∈ accepted_signatures l (decode_all s seen l).1 → sig ∉ seen.
Proof.
  intros Hkey. revert seen. induction l as [|f l IH]; intros seen.
  { split; [constructor | by intros ? ?%elem_of_nil]. }
  rewrite decode_all_cons. unfold accepted_signatures. simpl.
  destruct (decode s seen f) as [r seen'] eqn:E. simpl.
  destruct (IH seen') as [Hnd Hfresh]. fold (accepted_signatures l (decode_all s seen' l).1).
  destruct (decode_signed_inv _ _ _ _ _ Hkey E)
    as [(-> & e & ->) | (ids & sig & h & p & md & c & bufs & -> & Hni & _ & Hsig & -> & _)]; [done|].
  destruct r; simpl.
  - rewrite signature_frame_app by done. split.
    + constructor; [|done]. intros Hin%Hfresh. set_solver.
    + intros sig' [->|Hin%Hfresh]%elem_of_cons; set_solver.
  - split; [done|]. intros sig' Hin%Hfresh. set_solver.
Qed.

Lemma decode_parts_err frames d e : decode_parts frames d = Err e → ∃ t, e = JsonError t.
Proof.
  unfold decode_parts. intros E.
  all: repeat match type of E with context [json_err ?r] => destruct r; simplify_eq/=; try naive_solver end.
Qed.

Lemma delimiter_position_None frames : delimiter_position frames = None ↔ DELIMITER ∉ frames.
Proof.
  induction frames as [|f fs IH]; cbn [delimiter_position]; [set_solver|].
  rewrite not_elem_of_cons. case_decide; [naive_solver|].
  destruct (delimiter_position fs); naive_solver.
Qed.

(** The five ways a multipart message can look. *)
Lemma frames_cases frames :
  (DELIMITER ∉ frames) ∨
  (∃ ids rest, frames = ids ++ DELIMITER :: rest ∧ DELIMITER ∉ ids ∧ length rest < 5) ∨
  (∃ ids sig h p md c bufs, frames = ids ++ DELIMITER :: sig :: [h; p; md; c] ++ bufs ∧ DELIMITER ∉ ids).
Proof.
  destruct (delimiter_position frames) as [d|] eqn:Hd; [|left; by apply delimiter_position_None].
  right. destruct (decide (length frames < d + 6)).
  - left. destruct (delimiter_position_spec _ _ Hd) as [Hat Hni].
    exists (take d frames), (drop (S d) frames). rewrite length_drop.
    split_and!; [|done|lia]. by rewrite <- (drop_S frames DELIMITER d Hat), take_drop.
  - right. destruct (frames_split frames d Hd ltac:(lia)) as (h & p & md & c & ? & _ & ? & _).
    eexists (take d frames), _, h, p, md, c, _. done.
Qed.

Lemma decode_signed_result s seen ids sig h p md c bufs (r := (decode s seen (ids ++ DELIMITER :: sig :: [h; p; md; c] ++ bufs)).1) :
  DELIMITER ∉ ids →
  r ≠ Err MissingDelimiter ∧ r ≠ Err MissingParts ∧
  (r = Err BadSignature ↔ key s ≠ [] ∧ signature s [h; p; md; c] ≠ sig) ∧
  (r = Err DuplicateSignature ↔ key s ≠ [] ∧ signature s [h; p; md; c] = sig ∧ sig ∈ seen).
Proof.
  intros Hni. subst r. rewrite decode_unfold by done.
  pose proof (decode_parts_err (ids ++ DELIMITER :: sig :: [h; p; md; c] ++ bufs) (length ids)) as Hjson.
  destruct (decode_parts _ _) as [m|e]; [clear Hjson|destruct (Hjson e eq_refl) as [t ->]].
  all: repeat case_decide; simpl; split_and!; try done; split; intros; destruct_and?; done.
Qed.

Lemma decode_short s seen ids rest :
  DELIMITER ∉ ids → length rest < 5 → decode s seen (ids ++ DELIMITER :: rest) = (Err MissingParts, seen).
Proof.
  intros Hni Hlen. unfold decode. rewrite delimiter_position_app by done.
  rewrite decide_True; [done|]. rewrite length_app. simpl. lia.
Qed.

Lemma app_delimiter_inj ids rest ids' rest' :
  DELIMITER ∉ ids → DELIMITER ∉ ids' → ids ++ DELIMITER :: rest = ids' ++ DELIMITER :: rest' →
  ids = ids' ∧ rest = rest'.
Proof.
  intros H1 H2 E. pose proof (delimiter_position_app ids rest H1) as P1.
  rewrite E, delimiter_position_app in P1 by done.
  apply app_inj_1 in E as [??]; [|congruence]. by simplify_eq.
Qed.

Lemma decode_signed_ok s seen frames m seen' :
  key s ≠ [] → decode s seen frames = (Ok m, seen') →
  ∃ sig h p md c,
    frames = identities m ++ DELIMITER :: sig :: [h; p; md; c] ++ buffers m ∧
    sig = hex_encode (mac_finalize (foldl mac_update (mac_new (key s)) [h; p; md; c])) ∧
    sig ∉ seen ∧ seen' = {[sig]} ∪ seen ∧
    from_slice_map h = Ok (header m) ∧ from_slice_map p = Ok (parent_header m) ∧
    from_slice_map md = Ok (metadata m) ∧ from_slice c = Ok (content m).
Proof.
  intros Hkey E. destruct (decode_signed_inv _ _ _ _ _ Hkey E)
    as [(_ & e & ?) | (ids & sig & h & p & md & c & bufs & -> & Hni & Hsig & Hseen & -> & Hr)]; [done|].
  rewrite decode_parts_app in Hr.
  destruct (from_slice_map h) eqn:?; simplify_eq/=. destruct (from_slice_map p) eqn:?; simplify_eq/=.
  destruct (from_slice_map md) eqn:?; simplify_eq/=. destruct (from_slice c) eqn:?; simplify_eq/=.
  exists (signature s [h; p; md; c]), h, p, md, c. split_and!; try done.
  unfold signature. by destruct (key s).
Qed.

(** ** Properties *)

(** C15: (round trip) a message whose parts survive JSON serialisation and
    whose identities do not contain the delimiter is encoded, and decoding the
    frames gives the message back: on a session without a key always, and on a
    session with a key exactly when its signature was not seen before, which
    then is recorded. *)
Theorem encode_decode_roundtrip s m :
  parses_back m → DELIMITER ∉ identities m →
  ∃ frames sig, encode s m = Ok frames ∧ signature_frame frames = Some sig ∧
    ∀ seen, decode s seen frames =
      if decide (key s = []) then (Ok m, seen)
      else if decide (sig ∈ seen) then (Err DuplicateSignature, seen)
      else (Ok m, {[sig]} ∪ seen).
Proof.
  intros (h & p & md & c & E1 & E2 & E3 & E4 & E5 & E6 & E7 & E8) Hni.
  set (sig := signature s [h; p; md; c]).
  exists (identities m ++ DELIMITER :: sig :: [h; p; md; c] ++ buffers m), sig.
  unfold encode, encode_parts. rewrite E1, E3, E5, E7. split; [done|].
  split; [by apply signature_frame_app|]. intros seen.
  rewrite decode_unfold, decode_parts_app by done. rewrite E2, E4, E6, E8. simpl.
  destruct m; simpl. repeat case_decide; done.
Qed.

(** C16: (authenticity) a session with a key accepts a message only if its
    signature frame is the MAC of its four JSON parts under that key and was
    never accepted before; the message is what those parts and the frames
    around them say, and the signature is recorded.  Any other outcome is an
    error that leaves the replay set as it was, or a signed message whose JSON
    does not parse. *)
Theorem decode_authentic s seen frames m seen' :
  key s ≠ [] → decode s seen frames = (Ok m, seen') →
  ∃ sig h p md c,
    frames = identities m ++ DELIMITER :: sig :: [h; p; md; c] ++ buffers m ∧
    sig = hex_encode (mac_finalize (foldl mac_update (mac_new (key s)) [h; p; md; c])) ∧
    sig ∉ seen ∧ seen' = {[sig]} ∪ seen ∧
    from_slice_map h = Ok (header m) ∧ from_slice_map p = Ok (parent_header m) ∧
    from_slice_map md = Ok (metadata m) ∧ from_slice c = Ok (content m).
Proof.
  intros Hkey E. exact (decode_signed_ok _ _ _ _ _ Hkey E).
Qed.

(** (error paths) the four rejections of [decode] that are not JSON errors,
    each exactly on its condition: no delimiter frame; fewer than five frames
    after the first delimiter; on a keyed session, a signature frame that is not
    the signature of the parts; on a keyed session, a right signature that was
    seen before. *)
Theorem decode_rejections s seen frames :
  let signed P := ∃ ids sig h p md c bufs,
    frames = ids ++ DELIMITER :: sig :: [h; p; md; c] ++ bufs ∧ DELIMITER ∉ ids ∧
    P sig (signature s [h; p; md; c]) in
  ((decode s seen frames).1 = Err MissingDelimiter ↔ DELIMITER ∉ frames) ∧
  ((decode s seen frames).1 = Err MissingParts ↔
     ∃ ids rest, frames = ids ++ DELIMITER :: rest ∧ DELIMITER ∉ ids ∧ length rest < 5) ∧
  ((decode s seen frames).1 = Err BadSignature ↔ key s ≠ [] ∧ signed (λ sig mac, mac ≠ sig)) ∧
  ((decode s seen frames).1 = Err DuplicateSignature ↔ key s ≠ [] ∧ signed (λ sig mac, mac = sig ∧ sig ∈ seen)).
Proof.
  cbv zeta. destruct (frames_cases frames)
    as [Hno | [(ids & rest & -> & Hni & Hlen) | (ids & sig & h & p & md & c & bufs & -> & Hni)]].
  - assert (decode s seen frames = (Err MissingDelimiter, seen)) as ->.
    { unfold decode. by rewrite (proj2 (delimiter_position_None frames) Hno). }
    assert (∀ ids rest, frames ≠ ids ++ DELIMITER :: rest) as Hsplit.
    { intros ids rest ->. apply Hno. set_solver. }
    split_and!; split; try done.
    all: intros; exfalso; destruct_and?; destruct_exists; destruct_and?; by eapply Hsplit.
  - rewrite decode_short by done. split_and!; split; try done.
    + intros []. set_solver.
    + intros _. by exists ids, rest.
    + intros (_ & ids' & sig & h & p & md & c & bufs & E & Hni' & _).
      apply app_delimiter_inj in E as [_ ->]; simpl in Hlen; [lia|done..].
    + intros (_ & ids' & sig & h & p & md & c & bufs & E & Hni' & _).
      apply app_delimiter_inj in E as [_ ->]; simpl in Hlen; [lia|done..].
  - destruct (decode_signed_result s seen ids sig h p md c bufs Hni) as (Hmd & Hmp & Hbad & Hdup).
    split_and!; split; try done.
    + intros []. set_solver.
    + intros (ids' & rest & E & Hni' & Hlen). exfalso.
      apply app_delimiter_inj in E as [_ <-]; [simpl in Hlen; lia | done..].
    + intros [Hk Hs]%Hbad. split; [done|]. by exists ids, sig, h, p, md, c, bufs.
    + intros (Hk & ids' & sig' & h' & p' & md' & c' & bufs' & E & Hni' & Hs).
      apply app_delimiter_inj in E as [_ E]; [|done..]. simplify_eq/=. by apply Hbad.
    + intros (Hk & Hs & Hseen)%Hdup. split; [done|]. by exists ids, sig, h, p, md, c, bufs.
    + intros (Hk & ids' & sig' & h' & p' & md' & c' & bufs' & E & Hni' & Hs).
      apply app_delimiter_inj in E as [_ E]; [|done..]. simplify_eq/=. by apply Hdup.
Qed.

(** (replay protection) whatever sequence of multipart messages arrives
    on a session with a key, the messages it accepts carry pairwise different
    signatures: no signed message is ever processed twice. *)
Theorem decode_no_replay s l :
  key s ≠ [] → NoDup (accepted_signatures l (decode_all s ∅ l).1).
Proof. intros Hkey. by apply accepted_signatures_fresh. Qed.
End Codec.

(** ** A concrete instance

    A toy MAC and a toy serialiser that parses back the parts of one message:
    the inputs of the witnesses. *)
Module WireDemo.

Fixpoint print (v : Value) : string :=
  match v with
  | Null => "null"
  | Bool b => if b then "true" else "false"
  | Num _ => "0"
  | Str s => "'" +:+ s +:+ "'"
  | Arr l => "[" +:+ String.concat "," (map print l) +:+ "]"
  | Obj m => "{" +:+ String.concat "," (map (λ kv, kv.1 +:+ ":" +:+ print kv.2) m) +:+ "}"
  end.

Definition hdr : Map := [("msg_id", Str "m-1"); ("msg_type", Str "execute_request")].
Definition body : Value := Obj [("code", Str "1+1")].

Definition parse (bs : bytes) : result string Value :=
  match list_find (λ v, as_bytes (print v) = bs) [Obj hdr; Obj []; body] with
  | Some (_, v) => Ok v
  | None => Err "unknown"
  end.

Definition parse_map (bs : bytes) : result string Map :=
  v ← parse bs; ok_or "not a map" (as_object v).

Definition lenN (l : bytes) : N := N.of_nat (length l).

Definition ext : WireExt := {|
  mac_state := N; mac_new k := lenN k; mac_update n part := (n + lenN part)%N;
  mac_finalize n := [unwrap_or (Byte.of_N (n mod 256)) x00]; hex_encode := id;
  to_vec_map m := Ok (as_bytes (print (Obj m))); to_vec v := Ok (as_bytes (print v));
  from_slice_map := parse_map; from_slice := parse;
  uuid_v4 n := "uuid-" +:+ pretty n; rfc3339_now n := "t" +:+ pretty n;
|}.

Definition session : Session := MkSession (as_bytes "secret") "s" "kernel".
Definition msg : Message := MkMessage [as_bytes "peer"] hdr [] [] body [as_bytes "buf"].
Definition frames : list bytes := match @encode ext session msg with Ok f => f | Err _ => [] end.
End WireDemo.

Lemma encode_decode_roundtrip_witness :
  ∃ frames sig, @encode WireDemo.ext WireDemo.session WireDemo.msg = Ok frames ∧
    signature_frame frames = Some sig ∧
    ∀ seen, @decode WireDemo.ext WireDemo.session seen frames =
      if decide (key WireDemo.session = []) then (Ok WireDemo.msg, seen)
      else if decide (sig ∈ seen) then (Err DuplicateSignature, seen)
      else (Ok WireDemo.msg, {[sig]} ∪ seen).
Proof.
  apply (@encode_decode_roundtrip WireDemo.ext).
  - do 4 eexists. repeat (split; [vm_compute; reflexivity|]). vm_compute. reflexivity.
  - vm_compute. by intros ?%list_elem_of_singleton.
Defined.

Lemma decode_authentic_witness :
  ∃ sig h p md c,
    WireDemo.frames = identities WireDemo.msg ++ DELIMITER :: sig :: [h; p; md; c] ++ buffers WireDemo.msg ∧
    sig ∉ (∅ : gset bytes).
Proof.
  destruct (@decode_authentic WireDemo.ext WireDemo.session ∅ WireDemo.frames WireDemo.msg
      (@decode WireDemo.ext WireDemo.session ∅ WireDemo.frames).2)
    as (sig & h & p & md & c & E & _ & Hn & _); [done | vm_compute; reflexivity |].
  by exists sig, h, p, md, c.
Defined.

Lemma decode_no_replay_witness :
  NoDup (accepted_signatures [WireDemo.frames; WireDemo.frames]
    (@decode_all WireDemo.ext WireDemo.session ∅ [WireDemo.frames; WireDemo.frames]).1) ∧
  length (accepted_signatures [WireDemo.frames; WireDemo.frames]
    (@decode_all WireDemo.ext WireDemo.session ∅ [WireDemo.frames; WireDemo.frames]).1) = 1.
Proof. split; [apply (@decode_no_replay WireDemo.ext); done | vm_compute; reflexivity]. Defined.
