(* ===== verification/Language.v ===== *)
(** * The language boundary (src/src/language.rs)

    The data a language exchanges with the engine, the default replies, the
    interrupt of one execution, and the [LanguageSession] trait as a class.

    A language implementation is code outside the engine: its methods are the
    fields of [LanguageSession], indexed by the moment of the call so that two
    calls with the same arguments may answer differently. *)

From Stdlib Require Import ZArith.
From stdpp Require Import base list strings.
From S2P Require Import Prelude Json Errors.

Record KernelInfo := MkKernelInfo {
  implementation : string; implementation_version : string; banner : string; language_info : Value }.

Record ExecuteRequest := MkExecuteRequest {
  ex_code : string; ex_silent : bool; ex_store_history : bool; ex_user_expressions : Value; ex_allow_stdin : bool }.

Record CompleteRequest := MkCompleteRequest { co_code : string; co_cursor_pos : Z }.

Record InspectRequest := MkInspectRequest { in_code : string; in_cursor_pos : Z; in_detail_level : Z }.

Record LanguageMessage := MkLanguageMessage { lm_msg_type : string; lm_content : Value; lm_buffers : list bytes }.

Record LanguageError := MkLanguageError { ename : string; evalue : string; traceback : list string }.

Record ExecuteOutcome := MkExecuteOutcome {
  oc_result : option Value; oc_result_metadata : Value; oc_error : option LanguageError;
  oc_user_expressions : Value; oc_payload : Value }.

(** [impl Default for ExecuteOutcome]. *)
Definition execute_outcome_default : ExecuteOutcome := MkExecuteOutcome None (Obj []) None (Obj []) (Arr []).

Inductive LanguageEvent :=
| Stream (name text : string)
| Display (event : Value) (buffers : list bytes)
| EvMessage (msg_type : string) (content metadata : Value) (identity : option bytes) (buffers : list bytes).

(** How the wait for one [input] ends: cancelled by the execution's interrupt,
    the stdin peer closed, the prompt could not be written, a reply came, or the
    reply channel was dropped.  [sent] says whether the prompt was written first. *)
Inductive InputEnd :=
| InputCancelled (sent : bool)
| InputPeerClosed (sent : bool) (e : Error)
| InputSendFailed (e : Error)
| InputReplied (value : string)
| InputDropped.

(** A [Flush] carries the sender that [flush] waits on: handling it lets the
    caller go on. *)
Inductive ContextMessage :=
| Event (e : LanguageEvent)
| Flush
| Input (prompt : string) (password : bool) (ends : InputEnd).

(** What a language sees of an execution: [ExecutionContext] less its channels. *)
Record ExecutionContext := MkExecutionContext {
  ctx_subshells : option string; ctx_parent : Value; ctx_allow_stdin : bool; ctx_execution_count : Z }.

(** One call of a language method that emits output: what it emitted, in the
    batches the output pump received it, and what it returned. *)
Record LanguageRun (A : Type) := MkLanguageRun { run_batches : list (list ContextMessage); run_outcome : Result A }.

Arguments MkLanguageRun {A} run_batches run_outcome.
Arguments run_batches {A} l.
Arguments run_outcome {A} l.

(** ** [reply_defaults] *)

Definition default_complete (cursor_pos : Z) : Value :=
  Obj [("status", Str "ok"); ("matches", Arr []); ("cursor_start", jnat cursor_pos);
       ("cursor_end", jnat cursor_pos); ("metadata", Obj [])].
Definition default_inspect : Value :=
  Obj [("status", Str "ok"); ("found", Bool false); ("data", Obj []); ("metadata", Obj [])].
Definition default_is_complete : Value := Obj [("status", Str "unknown")].
Definition default_history : Value := Obj [("status", Str "ok"); ("history", Arr [])].
Definition default_comm_info : Value := Obj [("status", Str "ok"); ("comms", Obj [])].
Definition default_debug : Value :=
  Obj [("response", Obj [("success", Bool false); ("message", Str "debugger not supported")]); ("events", Arr [])].

(** ** The traits [LanguageSession] and [Language] *)

Class LanguageSession (L : Type) := {
  kernel_info : L → nat → Result KernelInfo;
  supports_debugger : L → nat → bool;
  supported_features : L → nat → list string;
  (** How taking the sender of debug events, and the kernel's context, goes. *)
  set_debug_sender : L → nat → Result unit;
  set_kernel_context : L → nat → ExecutionContext → Result unit;
  (** What an execution emits and returns if it comes to its end; whether it does,
      and what it emits if it does not, is up to the task that runs it. *)
  lang_execute : L → nat → ExecuteRequest → ExecutionContext → LanguageRun ExecuteOutcome;
  lang_complete : L → nat → CompleteRequest → Result Value;
  lang_inspect : L → nat → InspectRequest → Result Value;
  lang_is_complete : L → nat → string → Result Value;
  lang_history : L → nat → Value → Result Value;
  lang_comm_info : L → nat → Value → Result Value;
  lang_debug : L → nat → Value → Result Value;
  lang_message : L → nat → LanguageMessage → ExecutionContext → LanguageRun unit;
  lang_shutdown : L → nat → Result unit;
  (** What the interrupt handler registered by the current execution returns. *)
  lang_on_interrupt : L → nat → Result unit;
}.

(** A session that implements only the two required methods: every other one is
    the trait's default. *)
Definition session_with_defaults {L} (info : L → nat → Result KernelInfo)
    (exec : L → nat → ExecuteRequest → ExecutionContext → LanguageRun ExecuteOutcome) : LanguageSession L := {|
  kernel_info := info;
  supports_debugger _ _ := false;
  supported_features _ _ := [];
  set_debug_sender _ _ := Ok tt;
  set_kernel_context _ _ _ := Ok tt;
  lang_execute := exec;
  lang_complete _ _ r := Ok (default_complete (co_cursor_pos r));
  lang_inspect _ _ _ := Ok default_inspect;
  lang_is_complete _ _ _ := Ok default_is_complete;
  lang_history _ _ _ := Ok default_history;
  lang_comm_info _ _ _ := Ok default_comm_info;
  lang_debug _ _ _ := Ok default_debug;
  lang_message _ _ _ _ := MkLanguageRun [] (Ok tt);
  lang_shutdown _ _ := Ok tt;
  lang_on_interrupt _ _ := Ok tt;
|}.

Class Language (L S : Type) := {
  parent : L → S;
  supports_children : L → bool;
  create_child : L → nat → Result S;
}.

(** [impl<S: LanguageSession> Language for S]. *)
Definition session_language {S} : Language S S := {|
  parent s := s;
  supports_children _ := false;
  create_child _ _ := Err (error_new Unavailable "subshells are not supported");
|}.

(** ** [ExecutionInterrupt]

    [H] is the type of handlers, [call] what running one returns, and the log
    [calls] the handlers run so far.  [request] and [set_handler] read and write
    the flag and the handler in one critical section of the same mutex, so a
    concurrent history is a sequence of these operations. *)
Section Interrupt.
Context {H : Type} (call : H → Result unit).

Record ExecutionInterrupt := MkInterrupt { requested : bool; handler : option H; calls : list H }.

Definition interrupt_default : ExecutionInterrupt := MkInterrupt false None [].

Definition run_handler (i : ExecutionInterrupt) (h : H) : Result unit * ExecutionInterrupt :=
  (call h, MkInterrupt (requested i) (handler i) (calls i ++ [h])).

Definition request (i : ExecutionInterrupt) : Result bool * ExecutionInterrupt :=
  let first := negb (requested i) in
  let i := MkInterrupt true (handler i) (calls i) in
  match handler i with
  | None => (Ok first, i)
  | Some h =>
      match run_handler i h with
      | (Ok _, i) => (Ok first, i)
      | (Err e, i) => (Err e, i)
      end
  end.

Definition set_handler (i : ExecutionInterrupt) (h : H) : Result unit * ExecutionInterrupt :=
  match handler i with
  | Some _ => (Err (error_new InvalidInput "execution interrupt handler already registered"), i)
  | None =>
      let i := MkInterrupt (requested i) (Some h) (calls i) in
      if requested i then run_handler i h else (Ok tt, i)
  end.

(** [cancelled] is ready as soon as an interrupt was requested: the flag is read
    after the waiter is enabled, so a request between the two is not missed. *)
Definition cancelled_ready (i : ExecutionInterrupt) : bool := requested i.

Inductive InterruptOp := OpRequest | OpSetHandler (h : H).

Definition interrupt_op (i : ExecutionInterrupt) (o : InterruptOp) : ExecutionInterrupt :=
  match o with OpRequest => (request i).2 | OpSetHandler h => (set_handler i h).2 end.

Definition run_interrupts (i : ExecutionInterrupt) (ops : list InterruptOp) : ExecutionInterrupt :=
  foldl interrupt_op i ops.

Definition is_request (o : InterruptOp) : bool := match o with OpRequest => true | _ => false end.
Definition count_requests (ops : list InterruptOp) : nat := length (filter is_request ops).

Lemma count_requests_cons o ops : count_requests (o :: ops) = (if is_request o then 1 else 0) + count_requests ops.
Proof. unfold count_requests. by destruct o. Qed.

Lemma run_interrupts_registered i h ops :
  handler i = Some h →
  run_interrupts i ops =
    MkInterrupt (requested i || bool_decide (count_requests ops ≠ 0)) (Some h)
      (calls i ++ replicate (count_requests ops) h).
Proof.
  revert i. induction ops as [|o ops IH]; intros [r hd c] Hh; simpl in *; subst.
  { by rewrite orb_false_r, app_nil_r. }
  rewrite count_requests_cons. destruct o as [|h']; simpl; [|by rewrite IH].
  unfold request, run_handler; simpl.
  destruct (call h); simpl; rewrite IH by done; simpl; rewrite <- app_assoc, orb_true_r; done.
Qed.

Lemma run_interrupts_unregistered i ops :
  handler i = None → Forall is_request ops →
  run_interrupts i ops = MkInterrupt (requested i || bool_decide (count_requests ops ≠ 0)) None (calls i).
Proof.
  intros Hh Hops. revert i Hh. induction Hops as [|o ops Ho _ IH]; intros [r hd c] Hh; simpl in *; subst.
  { by rewrite orb_false_r. }
  rewrite count_requests_cons. destruct o; [|done]. rewrite IH by done. simpl. by rewrite orb_true_r.
Qed.

(** C29: (no lost interrupt) in any history of an execution's interrupt, a
    handler registered after [before] requests and followed by [after] is run
    once on registration if any request preceded it and once for every request
    after it, not just the first; a second registration is refused and runs
    nothing. *)
Theorem interrupt_every_request_delivered before h after :
  Forall is_request before →
  calls (run_interrupts interrupt_default (before ++ OpSetHandler h :: after)) =
    replicate ((if bool_decide (before = []) then 0 else 1) + count_requests after) h.
Proof.
  intros Hb. unfold run_interrupts. rewrite foldl_app. simpl.
  fold (run_interrupts interrupt_default before). rewrite (run_interrupts_unregistered interrupt_default before) by done. simpl.
  assert (bool_decide (count_requests before ≠ 0) = negb (bool_decide (before = []))) as ->.
  { destruct Hb as [|[] ? ?]; [done | by rewrite count_requests_cons | done]. }
  unfold set_handler. simpl. destruct (bool_decide (before = [])); simpl.
  - fold (run_interrupts (MkInterrupt false (Some h) []) after). by rewrite (run_interrupts_registered _ h).
  - unfold run_handler. simpl.
    fold (run_interrupts (MkInterrupt true (Some h) [h]) after). by rewrite (run_interrupts_registered _ h).
Qed.
End Interrupt.

Lemma interrupt_every_request_delivered_witness :
  calls (run_interrupts (λ _ : nat, Ok tt) interrupt_default [OpRequest; OpSetHandler 7; OpRequest; OpSetHandler 8; OpRequest])
  = [7; 7; 7].
Proof.
  apply (interrupt_every_request_delivered (λ _ : nat, Ok tt) [OpRequest] 7 [OpRequest; OpSetHandler 8; OpRequest]).
  repeat constructor.
Defined.
