(* ===== verification/PyInterrupt.v ===== *)
(** * Interrupting Python code (src/py/src/python.rs, [UserCode] to [SignalRouter])

    How the Python adapter delivers an interrupt to one session.  The engine
    calls [Delivery::request] on its own thread; a thread of its own calls
    [Delivery::deliver]; the session's event loop calls [DeferredCancel]; the
    threads that run user code enter and leave [user_code()] blocks; and the
    main thread runs the handler of SIGINT.  They share a [UserCode] under a
    mutex.

    Each operation is a function on [UserCode]: one critical section of the
    source.  [py_step] interleaves them.  Of the interpreter it has what the
    adapter relies on: SIGINT is recorded by the operating system and its handler
    runs later on the main thread, several signals in between counting as one;
    [PyThreadState_SetAsyncExc] sets the exception a thread raises next, or
    clears it; [call_soon_threadsafe] queues a call that the loop makes when it
    runs, which it does not while its thread is inside synchronous user code.
    [deliver] and [__exit__] hold the interpreter's lock from their critical
    section to their call of [SetAsyncExc], so that pair is one step.  These
    calls may also fail ([fault_step]): the operating system refuses the signal,
    the exception matches more than one thread and is withdrawn, or the loop
    takes no more calls. *)

From Stdlib Require Import ZArith.
From stdpp Require Import base gmap sets list relations.
From S2P Require Import Prelude Errors Language.

(** ** [UserCode] and the operations on it *)

(** A thread is its identifier.  [uc_depth] is a [u32]. *)
Record UserCode := MkUserCode { uc_thread : option Z; uc_depth : Z; uc_pending : bool; uc_woken : bool }.

Definition user_code_default : UserCode := MkUserCode None 0 false false.

Definition u32_add (a b : Z) : Z := (a + b) `mod` 2 ^ 32.

Definition set_pending (b : bool) (c : UserCode) : UserCode := MkUserCode (uc_thread c) (uc_depth c) b (uc_woken c).
Definition set_woken (b : bool) (c : UserCode) : UserCode := MkUserCode (uc_thread c) (uc_depth c) (uc_pending c) b.

Section Delivery.
(** [cfg!(unix)], [MAIN_THREAD], the thread of the session's event loop, and
    whether the session's shell has an [interrupt()] hook.  [faults]: whether the
    calls of the operating system and the interpreter may fail. *)
Context (unix : bool) (main : option Z) (loop : Z) (hook faults : bool).

Definition signals (thread : Z) : bool := unix && bool_decide (main = Some thread).

(** [Delivery::request]: the critical section, and the thread to signal. *)
Definition request_code (c : UserCode) : UserCode * option Z :=
  let m := opt_filter signals (uc_thread c) in
  (MkUserCode (uc_thread c) (uc_depth c) true (uc_woken c || bool_decide (is_Some m)), m).

(** [Delivery::deliver]: the critical section, and the thread to inject into. *)
Definition deliver_code (c : UserCode) : UserCode * option Z :=
  match uc_thread c with
  | Some thread => if uc_pending c && negb (signals thread) then (set_pending false c, Some thread) else (c, None)
  | None => (c, None)
  end.

(** [DeferredCancel::__call__]: whether the task is cancelled. *)
Definition cancel_code (c : UserCode) : UserCode * bool :=
  match uc_thread c with None => (set_pending false c, uc_pending c) | Some _ => (c, false) end.

(** [ExecutionSink::__enter__]: whether it raises [KeyboardInterrupt]. *)
Definition enter_code (thread : Z) (c : UserCode) : UserCode * bool :=
  if uc_pending c then (set_pending false c, true)
  else (MkUserCode (if (uc_depth c =? 0)%Z then Some thread else uc_thread c) (u32_add (uc_depth c) 1) (uc_pending c) (uc_woken c), false).

(** [ExecutionSink::__exit__]: the thread whose injected exception is cleared. *)
Definition exit_code (c : UserCode) : UserCode * option Z :=
  let depth := u32_add (uc_depth c) (-1) in
  if (0 <? depth)%Z then (MkUserCode (uc_thread c) depth (uc_pending c) (uc_woken c), None)
  else (MkUserCode None depth (uc_pending c) (uc_woken c), uc_thread c).

(** [SignalRouter::__call__]: [None] for a SIGINT of someone else's, which
    interrupts the kernel; else whether it raises. *)
Definition signal_code (c : UserCode) : UserCode * option bool :=
  if uc_woken c then
    match uc_thread c with
    | Some _ => (set_woken false (set_pending false c), Some (uc_pending c))
    | None => (set_woken false c, Some false)
    end
  else (c, None).

(** ** The session *)

(** Where the delivery of one request is: about to call [pthread_kill], to spawn
    its thread, to run [deliver], to call [call_soon_threadsafe]. *)
Inductive Flight := ToKill | ToSpawn | ToDeliver | ToPost.

Global Instance Flight_eq_dec : EqDecision Flight.
Proof. solve_decision. Defined.

(** What became of interrupts. *)
Inductive Event :=
| Requested | Merged            (* a request; one made while another is pending *)
| RaisedOnEntry | RaisedBySignal | TaskCancelled | HookCalled
| Injected | Fired              (* set with [SetAsyncExc]; raised *)
| Replaced | ClearedAtExit      (* an injected exception set again, cleared *)
| Withdrawn                     (* cleared because it matched several threads *)
| Discarded                     (* still pending when the next execution starts *)
| OtherSigint | KernelInterrupted.

Global Instance Event_eq_dec : EqDecision Event.
Proof. solve_decision. Defined.

(** [s_task] numbers the executions of the session, [s_done] is whether the
    current one's task has finished, [s_blocks] counts the open [user_code()]
    blocks.  Deliveries and queued calls carry the number of their execution. *)
Record PySession := MkPySession {
  s_code : UserCode; s_task : nat; s_done : bool; s_interrupted : bool; s_blocks : nat;
  s_flights : list (nat * Flight); s_calls : list nat; s_tripped : bool; s_async : gset Z; s_log : list Event }.

Definition session_init : PySession := MkPySession user_code_default 0 true false 0 [] [] false ∅ [].

Definition with_code (c : UserCode) (evs : list Event) (s : PySession) : PySession :=
  MkPySession c (s_task s) (s_done s) (s_interrupted s) (s_blocks s) (s_flights s) (s_calls s) (s_tripped s) (s_async s) (s_log s ++ evs).
Definition with_flights (l : list (nat * Flight)) (s : PySession) : PySession :=
  MkPySession (s_code s) (s_task s) (s_done s) (s_interrupted s) (s_blocks s) l (s_calls s) (s_tripped s) (s_async s) (s_log s).
Definition with_calls (l : list nat) (s : PySession) : PySession :=
  MkPySession (s_code s) (s_task s) (s_done s) (s_interrupted s) (s_blocks s) (s_flights s) l (s_tripped s) (s_async s) (s_log s).
Definition with_tripped (b : bool) (s : PySession) : PySession :=
  MkPySession (s_code s) (s_task s) (s_done s) (s_interrupted s) (s_blocks s) (s_flights s) (s_calls s) b (s_async s) (s_log s).
Definition with_blocks (n : nat) (s : PySession) : PySession :=
  MkPySession (s_code s) (s_task s) (s_done s) (s_interrupted s) n (s_flights s) (s_calls s) (s_tripped s) (s_async s) (s_log s).
Definition with_async (a : gset Z) (evs : list Event) (s : PySession) : PySession :=
  MkPySession (s_code s) (s_task s) (s_done s) (s_interrupted s) (s_blocks s) (s_flights s) (s_calls s) (s_tripped s) a (s_log s ++ evs).
Definition with_interrupted (s : PySession) : PySession :=
  MkPySession (s_code s) (s_task s) (s_done s) true (s_blocks s) (s_flights s) (s_calls s) (s_tripped s) (s_async s) (s_log s).
Definition with_done (s : PySession) : PySession :=
  MkPySession (s_code s) (s_task s) true (s_interrupted s) (s_blocks s) (s_flights s) (s_calls s) (s_tripped s) (s_async s) (s_log s).

(** [Delivery::request] up to its first call outside the critical section. *)
Definition delivery_request (s : PySession) : PySession :=
  let s := with_interrupted s in
  if hook then with_flights (s_flights s ++ [(s_task s, ToSpawn)]) (with_code (s_code s) [Requested] s)
  else
    let '(c, m) := request_code (s_code s) in
    with_flights (s_flights s ++ [(s_task s, match m with Some _ => ToKill | None => ToSpawn end)])
      (with_code c (if uc_pending (s_code s) then [Requested; Merged] else [Requested]) s).

(** [Delivery::deliver] up to [call_soon_threadsafe], for delivery [i]. *)
Definition delivery_deliver (i : nat) (task : nat) (s : PySession) : PySession :=
  if hook then with_flights (delete i (s_flights s)) (with_code (s_code s) [HookCalled] s)
  else
    let s := with_flights (<[i := (task, ToPost)]> (s_flights s)) s in
    match deliver_code (s_code s) with
    | (c, Some t) =>
        with_async ({[t]} ∪ s_async s) (if decide (t ∈ s_async s) then [Injected; Replaced] else [Injected]) (with_code c [] s)
    | (c, None) => with_code c [] s
    end.

(** [Delivery::deliver] when the exception it sets matches several threads: it
    is withdrawn and the delivery ends with an error. *)
Definition delivery_withdraw (i : nat) (s : PySession) : PySession :=
  let s := with_flights (delete i (s_flights s)) s in
  match deliver_code (s_code s) with
  | (c, Some t) =>
      with_async (s_async s ∖ {[t]}) (if decide (t ∈ s_async s) then [Injected; Replaced; Withdrawn] else [Injected; Withdrawn]) (with_code c [] s)
  | (c, None) => with_code c [] s
  end.

(** [DeferredCancel::__call__] for a task: a finished task is left alone. *)
Definition deferred_cancel (task : nat) (s : PySession) : PySession :=
  if bool_decide (task = s_task s) && negb (s_done s) then
    let '(c, cancel) := cancel_code (s_code s) in with_code c (if cancel then [TaskCancelled] else []) s
  else s.

(** [ExecutionSink::started]: the next execution's task.  [early] is whether the
    engine asked to interrupt it before: registering the handler then calls it. *)
Definition sink_started (early : bool) (s : PySession) : PySession :=
  let c := set_pending false (s_code s) in
  let s := MkPySession c (S (s_task s)) false false (s_blocks s) (s_flights s) (s_calls s) (s_tripped s) (s_async s)
             (s_log s ++ if uc_pending (s_code s) then [Discarded] else []) in
  if early then delivery_request s else s.

Definition sink_enter (thread : Z) (s : PySession) : PySession :=
  match enter_code thread (s_code s) with
  | (c, true) => with_code c [RaisedOnEntry] s
  | (c, false) => with_blocks (S (s_blocks s)) (with_code c [] s)
  end.

Definition sink_exit (s : PySession) : PySession :=
  let s := with_blocks (s_blocks s - 1) s in
  match exit_code (s_code s) with
  | (c, Some t) => with_async (s_async s ∖ {[t]}) (if decide (t ∈ s_async s) then [ClearedAtExit] else []) (with_code c [] s)
  | (c, None) => with_code c [] s
  end.

(** The handler of SIGINT, when the main thread gets to it. *)
Definition signal_router (s : PySession) : PySession :=
  let '(c, raise) := signal_code (s_code s) in
  with_tripped false (with_code c (match raise with None => [KernelInterrupted] | Some true => [RaisedBySignal] | Some false => [] end) s).

(** What the adapter does by itself: its deliveries, the loop's calls, the
    handler of SIGINT. *)
Inductive own_step : PySession → PySession → Prop :=
| step_kill s i task : s_flights s !! i = Some (task, ToKill) →
    own_step s (with_tripped true (with_flights (<[i := (task, ToSpawn)]> (s_flights s)) s))
| step_spawn s i task : s_flights s !! i = Some (task, ToSpawn) → own_step s (with_flights (<[i := (task, ToDeliver)]> (s_flights s)) s)
| step_deliver s i task : s_flights s !! i = Some (task, ToDeliver) → own_step s (delivery_deliver i task s)
| step_post s i task : s_flights s !! i = Some (task, ToPost) →
    own_step s (with_calls (s_calls s ++ [task]) (with_flights (delete i (s_flights s)) s))
| step_loop s task calls : s_calls s = task :: calls → uc_thread (s_code s) ≠ Some loop → own_step s (deferred_cancel task (with_calls calls s))
| step_handler s : s_tripped s = true → own_step s (signal_router s).

(** What the engine, the shell and its user code, and the operating system do.
    An execution starts when the one before is done (a shell runs one at a
    time); the main thread runs the parent session's loop, so no other
    session's user code is on it; blocks do not nest deeper than a [u32]
    counts. *)
Inductive env_step : PySession → PySession → Prop :=
| step_request s : s_task s ≠ 0 → env_step s (delivery_request s)
| step_started s early : s_done s = true → env_step s (sink_started early s)
| step_finish s : env_step s (with_done s)
| step_enter s thread : (signals thread = true → thread = loop) → (Z.of_nat (s_blocks s) + 1 < 2 ^ 32)%Z → env_step s (sink_enter thread s)
| step_exit s : s_blocks s ≠ 0 → env_step s (sink_exit s)
| step_fire s t : t ∈ s_async s → env_step s (with_async (s_async s ∖ {[t]}) [Fired] s)
| step_sigint s : env_step s (with_tripped true (with_code (s_code s) [OtherSigint] s)).

(** A call fails: the request returns the error of [pthread_kill] before its
    thread is spawned, or the delivery's thread reports its own and ends. *)
Inductive fault_step : PySession → PySession → Prop :=
| step_kill_fails s i task : s_flights s !! i = Some (task, ToKill) → fault_step s (with_flights (delete i (s_flights s)) s)
| step_deliver_fails s i task : hook = false → s_flights s !! i = Some (task, ToDeliver) → fault_step s (delivery_withdraw i s)
| step_post_fails s i task : s_flights s !! i = Some (task, ToPost) → fault_step s (with_flights (delete i (s_flights s)) s).

Definition py_step (s s' : PySession) : Prop := own_step s s' ∨ env_step s s' ∨ faults = true ∧ fault_step s s'.

Definition py_reach (s : PySession) : Prop := rtc py_step session_init s.

(** ** Blocks and injected exceptions *)

Definition blocks_ok (s : PySession) : Prop :=
  uc_depth (s_code s) = Z.of_nat (s_blocks s) ∧ (Z.of_nat (s_blocks s) < 2 ^ 32)%Z ∧ (uc_thread (s_code s) = None ↔ s_blocks s = 0).

Definition threads_ok (s : PySession) : Prop :=
  (∀ t, t ∈ s_async s → uc_thread (s_code s) = Some t) ∧ (∀ t, uc_thread (s_code s) = Some t → signals t = true → t = loop).

Lemma u32_add_small a b : (0 ≤ a + b < 2 ^ 32)%Z → u32_add a b = (a + b)%Z.
Proof. apply Z.mod_small. Qed.

(** The operations other than entering and leaving keep thread, depth and blocks. *)
Definition same_blocks (s s' : PySession) : Prop :=
  uc_thread (s_code s') = uc_thread (s_code s) ∧ uc_depth (s_code s') = uc_depth (s_code s) ∧ s_blocks s' = s_blocks s.

Ltac py_cases := repeat (case_match || case_decide); simplify_eq/=.

Lemma delivery_request_blocks s : same_blocks s (delivery_request s) ∧ s_async (delivery_request s) = s_async s.
Proof. unfold delivery_request. by destruct hook. Qed.

Lemma delivery_deliver_blocks i task s :
  same_blocks s (delivery_deliver i task s) ∧
  ∀ t, t ∈ s_async (delivery_deliver i task s) → t ∈ s_async s ∨ uc_thread (s_code s) = Some t.
Proof.
  unfold delivery_deliver, deliver_code. destruct hook; [split; [done|auto]|]. simpl. unfold same_blocks.
  py_cases; (split; [done|]); set_solver.
Qed.

Lemma delivery_withdraw_blocks i s :
  same_blocks s (delivery_withdraw i s) ∧ ∀ t, t ∈ s_async (delivery_withdraw i s) → t ∈ s_async s ∨ uc_thread (s_code s) = Some t.
Proof. unfold delivery_withdraw, deliver_code, same_blocks. simpl. py_cases; (split; [done|]); set_solver. Qed.

Lemma deferred_cancel_blocks task s : same_blocks s (deferred_cancel task s) ∧ s_async (deferred_cancel task s) = s_async s.
Proof. unfold deferred_cancel, cancel_code, same_blocks. by py_cases. Qed.

Lemma sink_started_blocks early s : same_blocks s (sink_started early s) ∧ s_async (sink_started early s) = s_async s.
Proof. unfold sink_started, delivery_request. destruct early, hook; done. Qed.

Lemma signal_router_blocks s : same_blocks s (signal_router s) ∧ s_async (signal_router s) = s_async s.
Proof. unfold signal_router, signal_code, same_blocks. by py_cases. Qed.

Lemma same_blocks_ok s s' :
  same_blocks s s' → (∀ t, t ∈ s_async s' → t ∈ s_async s ∨ uc_thread (s_code s) = Some t) →
  blocks_ok s ∧ threads_ok s → blocks_ok s' ∧ threads_ok s'.
Proof.
  intros (Et & Ed & Eb) Ha [Hb [H1 H2]]. unfold blocks_ok, threads_ok. rewrite Et, Ed, Eb. split; [done|]. split; [|done].
  intros t [?|?]%Ha; auto.
Qed.

Lemma sink_enter_ok thread s :
  (signals thread = true → thread = loop) → (Z.of_nat (s_blocks s) + 1 < 2 ^ 32)%Z →
  blocks_ok s ∧ threads_ok s → blocks_ok (sink_enter thread s) ∧ threads_ok (sink_enter thread s).
Proof.
  intros Hloop Hn. unfold sink_enter, enter_code. destruct (uc_pending (s_code s)); simpl.
  { apply same_blocks_ok; [done|]. simpl. auto. }
  intros [(Hd & Hb & Ht) [H1 H2]]. unfold blocks_ok, threads_ok. simpl. rewrite Hd, u32_add_small by lia.
  destruct (Z.eqb_spec (Z.of_nat (s_blocks s)) 0) as [E|E]; split_and!; try lia; naive_solver lia.
Qed.

Lemma sink_exit_ok s : s_blocks s ≠ 0 → blocks_ok s ∧ threads_ok s → blocks_ok (sink_exit s) ∧ threads_ok (sink_exit s).
Proof.
  intros Hn [(Hd & Hb & Ht) [H1 H2]]. unfold sink_exit, exit_code. simpl. rewrite Hd, u32_add_small by lia.
  destruct (Z.ltb_spec 0 (Z.of_nat (s_blocks s) + -1)).
  { unfold blocks_ok, threads_ok. simpl. split_and!; try lia; naive_solver lia. }
  destruct (uc_thread (s_code s)) as [t|] eqn:Et; [|by destruct Hn; apply Ht].
  unfold blocks_ok, threads_ok. simpl. split_and!; try lia; try done.
  - split; [lia|done].
  - intros t' [Hin Hne]%elem_of_difference. apply H1 in Hin. set_solver.
Qed.

Lemma py_reach_ok s : py_reach s → blocks_ok s ∧ threads_ok s.
Proof.
  apply (rtc_invariant py_step (λ s, blocks_ok s ∧ threads_ok s)); [by unfold blocks_ok, threads_ok; simpl; split_and!; set_solver|].
  intros s1 s2 [[]|[[]|[Hf []]]] Hok; try (eapply same_blocks_ok; [done| |done]; simpl; set_solver).
  - destruct (delivery_deliver_blocks i task s0). by eapply same_blocks_ok.
  - destruct (deferred_cancel_blocks task (with_calls calls s0)) as [Hb Ha]. eapply same_blocks_ok; [done| |done]. rewrite Ha. auto.
  - destruct (signal_router_blocks s0) as [Hb Ha]. eapply same_blocks_ok; [done| |done]. rewrite Ha. auto.
  - destruct (delivery_request_blocks s0) as [Hb Ha]. eapply same_blocks_ok; [done| |done]. rewrite Ha. auto.
  - destruct (sink_started_blocks early s0) as [Hb Ha]. eapply same_blocks_ok; [done| |done]. rewrite Ha. auto.
  - by apply sink_enter_ok.
  - by apply sink_exit_ok.
  - apply (same_blocks_ok s0); [done| |done]. simpl. intros t' [? _]%elem_of_difference. auto.
  - destruct (delivery_withdraw_blocks i s0). by eapply same_blocks_ok.
Qed.

(** C30: (only in user code) at every moment the depth counts the open blocks
    without overflow and a thread is recorded exactly while a block is open; an
    injected [KeyboardInterrupt] that has not been raised yet waits on exactly
    that thread, so one raised by injection is raised inside user code, and
    none is left behind when a block ends. *)
Theorem interrupts_stay_in_user_code s :
  py_reach s →
  uc_depth (s_code s) = Z.of_nat (s_blocks s) ∧ (uc_thread (s_code s) = None ↔ s_blocks s = 0) ∧
  (∀ t, t ∈ s_async s → uc_thread (s_code s) = Some t) ∧ (s_blocks s = 0 → s_async s = ∅).
Proof.
  intros [(Hd & Hb & Ht) [H1 H2]]%py_reach_ok. split_and!; [done..|]. intros Hz. apply Ht in Hz.
  apply set_eq. intros t. split; [|set_solver]. intros Hin%H1. congruence.
Qed.

(** ** No interrupt is forgotten *)

Lemma elem_of_snoc {A} (l : list A) x : x ∈ l ++ [x].
Proof. set_solver. Qed.


(** A delivery or a queued cancellation of execution [k] is on its way. *)
Definition on_its_way (k : nat) (s : PySession) : Prop := (∃ f, (k, f) ∈ s_flights s) ∨ k ∈ s_calls s.

Definition undelivered (k : nat) (s : PySession) : Prop := ∃ f, (k, f) ∈ s_flights s ∧ f ≠ ToPost.

Definition signal_coming (s : PySession) : Prop := s_tripped s = true ∨ ∃ k, (k, ToKill) ∈ s_flights s.

(** What will deliver a pending interrupt, by where user code is. *)
Definition tracked (s : PySession) : Prop :=
  hook = false → uc_pending (s_code s) = true → s_done s = false →
  on_its_way (s_task s) s ∧
  ∀ t, uc_thread (s_code s) = Some t →
    if signals t then uc_woken (s_code s) = true ∧ signal_coming s else undelivered (s_task s) s.

Lemma flight_moves (l : list (nat * Flight)) i task g g' k f :
  l !! i = Some (task, g) → (k, f) ∈ l → (k, f) ∈ <[i := (task, g')]> l ∨ (k = task ∧ f = g ∧ (k, g') ∈ <[i := (task, g')]> l).
Proof.
  intros Hi [j Hj]%list_elem_of_lookup. destruct (decide (i = j)) as [<-|Hne].
  - right. rewrite Hi in Hj. simplify_eq. split_and!; [done..|]. apply list_elem_of_lookup. exists i.
    apply list_lookup_insert_eq. by eapply lookup_lt_Some.
  - left. apply list_elem_of_lookup. exists j. by rewrite list_lookup_insert_ne.
Qed.

Lemma flight_ends (l : list (nat * Flight)) i task g k f :
  l !! i = Some (task, g) → (k, f) ∈ l → (k, f) ∈ delete i l ∨ (k = task ∧ f = g).
Proof.
  intros Hi Hin. rewrite (delete_Permutation l i (task, g) Hi) in Hin. apply elem_of_cons in Hin as [[= -> ->]|?]; auto.
Qed.

(** The steps that do not make an interrupt pending keep what was on its way,
    or take the interrupt. *)
Lemma tracked_keep s s' :
  s_task s' = s_task s → (s_done s' = false → s_done s = false) → (uc_pending (s_code s') = true → uc_pending (s_code s) = true) →
  (hook = false → uc_pending (s_code s') = true → tracked s → s_done s' = false → on_its_way (s_task s) s → on_its_way (s_task s) s') →
  (∀ t, uc_pending (s_code s') = true → uc_thread (s_code s') = Some t →
     uc_thread (s_code s) = Some t ∧
     (signals t = true → uc_woken (s_code s) = true → signal_coming s → uc_woken (s_code s') = true ∧ signal_coming s') ∧
     (signals t = false → undelivered (s_task s) s → undelivered (s_task s) s')) →
  tracked s → tracked s'.
Proof.
  intros Et Ed Ep How Hth Ht Hh Hp Hd. destruct (Ht Hh (Ep Hp) (Ed Hd)) as [Hw H1]. rewrite Et. split; [auto|].
  intros t Hs. destruct (Hth t Hp Hs) as (Hs0 & Ha & Hb). specialize (H1 t Hs0). destruct (signals t); [|auto].
  destruct H1. auto.
Qed.

(** A delivery moves one stage on, or to its last one if user code is not on a
    thread it had to reach. *)
Lemma tracked_advance s s' i task g g' :
  s_flights s !! i = Some (task, g) → s_flights s' = <[i := (task, g')]> (s_flights s) →
  s_task s' = s_task s → s_done s' = s_done s → s_calls s' = s_calls s → uc_thread (s_code s') = uc_thread (s_code s) →
  uc_woken (s_code s') = uc_woken (s_code s) → (uc_pending (s_code s') = true → uc_pending (s_code s) = true) →
  (s_tripped s' = true ∨ (s_tripped s' = s_tripped s ∧ g ≠ ToKill)) →
  (g' = ToPost → ∀ t, uc_thread (s_code s) = Some t → uc_pending (s_code s') = true → signals t = true) →
  tracked s → tracked s'.
Proof.
  intros Hi El Et Ed Ec Eth Ew Ep Hk Hg. apply tracked_keep; [done|congruence|done|..].
  - intros _ _ _ _ [[f Hf]|Hc]; [|right; congruence]. left. rewrite El.
    destruct (flight_moves _ _ _ _ g' _ _ Hi Hf) as [?|(_ & _ & ?)]; [exists f | exists g']; done.
  - intros t Hp Hth. rewrite Eth in Hth. rewrite Ew. split_and!; [done|..].
    + intros _ Hw Hs. split; [done|]. unfold signal_coming in *. destruct Hk as [->|[-> Hk]]; [by left|].
      destruct Hs as [?|[k Hin]]; [by left|]. rewrite El.
      destruct (flight_moves _ _ _ _ g' _ _ Hi Hin) as [?|(_ & E & _)]; [right; by exists k | done].
    + intros Hs (f & Hin & Hf). unfold undelivered. rewrite El.
      destruct (flight_moves _ _ _ _ g' _ _ Hi Hin) as [?|(_ & _ & ?)]; [exists f; done | exists g'; split; [done|]].
      intros ->. specialize (Hg eq_refl t Hth Hp). congruence.
Qed.

Lemma tracked_request s : tracked (delivery_request s).
Proof.
  intros Hh _ _. unfold delivery_request. rewrite Hh. simpl. split; [left; eexists; apply elem_of_snoc|].
  intros t ->. simpl. destruct (signals t) eqn:Es; simpl.
  - split; [by rewrite orb_true_r|]. right. exists (s_task s). apply elem_of_snoc.
  - exists ToSpawn. split; [apply elem_of_snoc | done].
Qed.

Lemma tracked_deliver s i task : s_flights s !! i = Some (task, ToDeliver) → tracked s → tracked (delivery_deliver i task s).
Proof.
  intros Hi. unfold delivery_deliver. destruct hook eqn:Hh; [by intros _ ?; congruence|]. simpl. unfold deliver_code.
  destruct (uc_thread (s_code s)) as [t|] eqn:Et; [|by apply (tracked_advance s _ i task ToDeliver ToPost); auto; simpl; congruence].
  destruct (uc_pending (s_code s)) eqn:Ep; simpl.
  2: { intros _ _ Hp. simpl in Hp. congruence. }
  destruct (signals t) eqn:Es; simpl; [|by intros _ _ Hp].
  apply (tracked_advance s _ i task ToDeliver ToPost); auto. simpl. intros _ ? ? _. congruence.
Qed.

Lemma tracked_post s i task :
  s_flights s !! i = Some (task, ToPost) → tracked s →
  tracked (with_calls (s_calls s ++ [task]) (with_flights (delete i (s_flights s)) s)).
Proof.
  intros Hi. apply tracked_keep; [done..| |].
  - intros _ _ _ _ [[f Hf]|Hc]; [|right; simpl; set_solver].
    destruct (flight_ends _ _ _ _ _ _ Hi Hf) as [?|[-> _]]; [left; by exists f | right; apply elem_of_snoc].
  - intros t Hp Hth. split_and!; [done|..].
    + intros _ Hw [?|[k Hk]]; (split; [done|]); [by left|]. right. exists k. by destruct (flight_ends _ _ _ _ _ _ Hi Hk) as [?|[_ ?]].
    + intros _ (f & Hf & Hne). exists f. split; [|done]. by destruct (flight_ends _ _ _ _ _ _ Hi Hf) as [?|[_ ?]].
Qed.

Lemma tracked_loop s task calls :
  threads_ok s → s_calls s = task :: calls → uc_thread (s_code s) ≠ Some loop → tracked s →
  tracked (deferred_cancel task (with_calls calls s)).
Proof.
  intros [_ Hloop] Hc Hth Ht. unfold deferred_cancel. simpl.
  assert (∀ k, k ≠ task → on_its_way k s → on_its_way k (with_calls calls s)) as Hold.
  { intros k Hne [?|Hin]; [by left|]. right. simpl. rewrite Hc in Hin. set_solver. }
  assert (∀ t, uc_thread (s_code s) = Some t → signals t = false) as Hns.
  { intros t Et. destruct (signals t) eqn:Es; [|done]. apply (Hloop t Et) in Es. congruence. }
  case_bool_decide as Hk; simpl.
  - destruct (s_done s) eqn:Hd; simpl; [by intros _ _ ?; simpl in *; congruence|]. unfold cancel_code.
    destruct (uc_thread (s_code s)) as [t|] eqn:Et; [|by intros _ ?].
    revert Ht. apply tracked_keep; [done..| |].
    + simpl. intros Hh Hp Ht _ _. left.
      destruct (Ht Hh Hp Hd) as [_ Hu]. specialize (Hu t Et). rewrite (Hns t eq_refl) in Hu. destruct Hu as (f & ? & _). by exists f.
    + intros t' _ Et'. simpl in *. split_and!; [congruence|done|done].
  - revert Ht. apply tracked_keep; [done..| |].
    + simpl. intros _ _ _ _. apply Hold. congruence.
    + intros t' _ Et'. simpl in *. split_and!; [congruence|done|done].
Qed.

Lemma tracked_handler s : tracked s → tracked (signal_router s).
Proof.
  unfold signal_router, signal_code. destruct (uc_woken (s_code s)) eqn:Ew.
  - destruct (uc_thread (s_code s)) as [t|] eqn:Et; [by intros _ _ ?|].
    apply tracked_keep; try done. intros t _ Et'. simpl in Et'. congruence.
  - apply tracked_keep; try done. intros t _ Et'. simpl in *. split_and!; [done|congruence|done].
Qed.

Lemma tracked_exit s : tracked s → tracked (sink_exit s).
Proof.
  unfold sink_exit, exit_code. simpl. destruct (0 <? _)%Z; [by apply tracked_keep|].
  destruct (uc_thread (s_code s)) eqn:Et; (apply tracked_keep; try done; intros t _ Et'; simpl in Et'; congruence).
Qed.

Lemma py_reach_tracked s : faults = false → py_reach s → tracked s.
Proof.
  intros Hnf Hr. assert (py_reach s ∧ tracked s) as [_ ?]; [|done]. revert Hr.
  apply (rtc_invariant py_step (λ s, py_reach s ∧ tracked s)); [split; [apply rtc_refl | by intros _ ?]|].
  intros s1 s2 Hs [Hr Ht]. split; [by eapply rtc_r|]. pose proof (py_reach_ok s1 Hr) as [_ Hth].
  clear Hr. revert Ht Hth. destruct Hs as [[]|[[]|[? _]]]; intros Ht Hth; [..|congruence].
  - apply (tracked_advance s0 _ i task ToKill ToSpawn); auto; done.
  - apply (tracked_advance s0 _ i task ToSpawn ToDeliver); auto; done.
  - by apply tracked_deliver.
  - by apply tracked_post.
  - by apply tracked_loop.
  - by apply tracked_handler.
  - apply tracked_request.
  - unfold sink_started. destruct early; [apply tracked_request | by intros _ ?].
  - by intros _ _ ?.
  - unfold sink_enter, enter_code. destruct (uc_pending (s_code s0)) eqn:Ep; intros _ Hp; simpl in Hp; congruence.
  - by apply tracked_exit.
  - by apply (tracked_keep s0).
  - apply (tracked_keep s0); try done. intros t _ Et'. split_and!; [done| |done]. intros _ ? _. split; [done|]. by left.
Qed.

(** What the adapter's steps towards a delivery leave alone. *)
Definition agree (s s' : PySession) : Prop :=
  s_code s' = s_code s ∧ s_task s' = s_task s ∧ s_done s' = s_done s ∧ s_async s' = s_async s ∧ s_log s' = s_log s.

Lemma flight_updated s i (k : nat) f f' : s_flights s !! i = Some (k, f) → <[i := (k, f')]> (s_flights s) !! i = Some (k, f').
Proof. intros Hi. apply list_lookup_insert_eq. by eapply lookup_lt_Some. Qed.

(** A delivery reaches its thread. *)
Lemma flight_reaches_deliver s i k f :
  s_flights s !! i = Some (k, f) → f ≠ ToPost →
  ∃ s', rtc own_step s s' ∧ agree s s' ∧ s_calls s' = s_calls s ∧ s_flights s' !! i = Some (k, ToDeliver).
Proof.
  assert (∀ s, s_flights s !! i = Some (k, ToSpawn) →
    ∃ s', rtc own_step s s' ∧ agree s s' ∧ s_calls s' = s_calls s ∧ s_flights s' !! i = Some (k, ToDeliver)) as Hspawn.
  { intros s0 Hi. eexists. split_and!; [apply rtc_once, (step_spawn s0 i k Hi)|done|done|]. simpl. by eapply flight_updated. }
  intros Hi Hf. destruct f; [|by apply Hspawn| |done].
  - destruct (Hspawn (with_tripped true (with_flights (<[i := (k, ToSpawn)]> (s_flights s)) s))) as (s' & ? & ? & ? & ?).
    { simpl. by eapply flight_updated. }
    exists s'. split_and!; [|done..]. eapply rtc_l; [by apply step_kill|done].
  - exists s. done.
Qed.

Lemma loop_cancels calls s :
  s_calls s = calls → s_task s ∈ calls → uc_thread (s_code s) = None → uc_pending (s_code s) = true → s_done s = false →
  ∃ s', rtc own_step s s' ∧ s_log s' = s_log s ++ [TaskCancelled] ∧ uc_pending (s_code s') = false.
Proof.
  revert s. induction calls as [|k calls IH]; intros s Hc Hin Ht Hp Hd; [by apply elem_of_nil in Hin|].
  pose proof (step_loop s k calls Hc ltac:(congruence)) as Hs. unfold deferred_cancel in Hs. simpl in Hs. rewrite Hd in Hs.
  case_bool_decide as Hk; simpl in Hs.
  - unfold cancel_code in Hs. rewrite Ht, Hp in Hs. eexists. split; [by apply rtc_once|]. done.
  - apply elem_of_cons in Hin as [?|Hin]; [done|]. destruct (IH (with_calls calls s) eq_refl Hin Ht Hp Hd) as (s' & ? & ? & ?).
    exists s'. split_and!; [|done..]. by eapply rtc_l.
Qed.

Lemma on_its_way_cancels s :
  hook = false → on_its_way (s_task s) s → uc_thread (s_code s) = None → uc_pending (s_code s) = true → s_done s = false →
  ∃ s', rtc own_step s s' ∧ s_log s' = s_log s ++ [TaskCancelled] ∧ uc_pending (s_code s') = false.
Proof.
  intros Hh How Ht Hp Hd. destruct How as [[f [i Hi]%list_elem_of_lookup]|Hc]; [|by eapply loop_cancels].
  assert (∃ s1, rtc own_step s s1 ∧ agree s s1 ∧ s_flights s1 !! i = Some (s_task s, ToPost)) as (s1 & H1 & (Ec & Ek & Ed & _ & El) & Hi1).
  { destruct (decide (f = ToPost)) as [->|Hf]; [by exists s|].
    destruct (flight_reaches_deliver s i _ f Hi Hf) as (s1 & H1 & (Ec & Ek & Ed & Ea & El) & _ & Hi1).
    exists (delivery_deliver i (s_task s) s1). split; [by eapply rtc_r; eauto using step_deliver|].
    unfold delivery_deliver, deliver_code. rewrite Hh. simpl. rewrite Ec, Ht. split; [|simpl; by eapply flight_updated].
    unfold agree. simpl. by rewrite app_nil_r. }
  destruct (loop_cancels (s_calls s1 ++ [s_task s]) (with_calls (s_calls s1 ++ [s_task s]) (with_flights (delete i (s_flights s1)) s1)))
    as (s2 & H2 & E2 & Hp2); simpl; try congruence.
  { rewrite Ek. apply elem_of_snoc. }
  exists s2. split_and!; [|by rewrite E2; simpl; rewrite El|done].
  etrans; [exact H1|]. eapply rtc_l; [by apply step_post|done].
Qed.

(** C31: (every request is on its way) an interrupt that has been requested and
    not delivered is never forgotten: at every moment while its execution runs,
    what the adapter already has under way delivers it, with nothing more from
    the engine or the shell.  Outside user code the task is cancelled; in user
    code on the main thread the handler of SIGINT raises it; in user code on
    another thread it is injected there.  This holds for one requested before
    the execution started, too, and wherever the calls of the operating system
    and the interpreter do not fail. *)
Theorem pending_interrupt_delivered s :
  faults = false → hook = false → py_reach s → uc_pending (s_code s) = true → s_done s = false →
  ∃ s', rtc own_step s s' ∧ uc_pending (s_code s') = false ∧
    match uc_thread (s_code s) with
    | None => s_log s' = s_log s ++ [TaskCancelled]
    | Some t =>
        if signals t then s_log s' = s_log s ++ [RaisedBySignal]
        else ∃ evs, s_log s' = s_log s ++ Injected :: evs ∧ t ∈ s_async s'
    end.
Proof.
  intros Hnf Hh Hr Hp Hd. destruct (py_reach_tracked s Hnf Hr Hh Hp Hd) as [How Hth].
  destruct (uc_thread (s_code s)) as [t|] eqn:Et.
  2: { destruct (on_its_way_cancels s Hh How Et Hp Hd) as (s' & ? & ? & ?). eauto. }
  specialize (Hth t eq_refl). destruct (signals t) eqn:Es.
  - destruct Hth as [Hw Hs]. assert (∃ s1, rtc own_step s s1 ∧ agree s s1 ∧ s_tripped s1 = true) as (s1 & H1 & (Ec & _ & _ & _ & El) & Htr).
    { destruct Hs as [?|[k [i Hi]%list_elem_of_lookup]]; [by exists s|]. eexists. split; [apply rtc_once, (step_kill s i k Hi)|done]. }
    exists (signal_router s1). split; [eapply rtc_r; [done|by apply step_handler]|].
    unfold signal_router, signal_code. rewrite Ec, Hw, Et. simpl. rewrite Hp, El. done.
  - destruct Hth as (f & [i Hi]%list_elem_of_lookup & Hf).
    destruct (flight_reaches_deliver s i _ f Hi Hf) as (s1 & H1 & (Ec & _ & _ & _ & El) & _ & Hi1).
    exists (delivery_deliver i (s_task s) s1). split; [eapply rtc_r; [done|by apply step_deliver]|].
    unfold delivery_deliver, deliver_code. rewrite Hh. simpl. rewrite Ec, Et, Hp, Es. simpl. split; [done|].
    rewrite El, app_nil_r. destruct (decide _); eexists; (split; [done|set_solver]).
Qed.

(** ** What becomes of the requests *)

Fixpoint count (e : Event) (l : list Event) : nat :=
  match l with [] => 0 | e' :: l' => (if decide (e' = e) then 1 else 0) + count e l' end.

Lemma count_app e l1 l2 : count e (l1 ++ l2) = count e l1 + count e l2.
Proof. induction l1 as [|e' l1 IH]; simpl; [done|]. rewrite IH. lia. Qed.

(** The balance of requests, and that of injected exceptions. *)
Definition requests_balance (s : PySession) : Prop :=
  count Requested (s_log s) =
    count Merged (s_log s) + count RaisedOnEntry (s_log s) + count RaisedBySignal (s_log s) + count Injected (s_log s) +
    count TaskCancelled (s_log s) + count Discarded (s_log s) + (if uc_pending (s_code s) then 1 else 0) +
    count HookCalled (s_log s) + (if hook then length (s_flights s) else 0).

Definition injections_balance (s : PySession) : Prop :=
  count Injected (s_log s) =
    count Fired (s_log s) + count Replaced (s_log s) + count ClearedAtExit (s_log s) + count Withdrawn (s_log s) + size (s_async s).

Definition hook_stages (s : PySession) : Prop :=
  hook = true → uc_pending (s_code s) = false ∧ Forall (λ kf, kf.2 = ToSpawn ∨ kf.2 = ToDeliver) (s_flights s).

Ltac balance := first [congruence | rewrite ?app_nil_r, ?count_app; simpl; lia].

Lemma balance_request s : requests_balance s → hook_stages s → requests_balance (delivery_request s).
Proof.
  unfold requests_balance, delivery_request. intros Hb Hs. revert Hb. destruct hook eqn:Eh; intros Hb.
  - destruct (Hs Eh) as [Hp _]. simpl. rewrite Hp in *. rewrite length_app. balance.
  - simpl. destruct (uc_pending (s_code s)); balance.
Qed.

Lemma balance_deliver s i task :
  s_flights s !! i = Some (task, ToDeliver) → requests_balance s → hook_stages s → requests_balance (delivery_deliver i task s).
Proof.
  intros Hi. unfold requests_balance, delivery_deliver. intros Hb Hs. revert Hb. destruct hook eqn:Eh; intros Hb.
  - simpl. apply delete_Permutation in Hi. rewrite Hi in Hb. simpl in Hb. balance.
  - simpl. unfold deliver_code. destruct (uc_thread (s_code s)) as [t|]; [|simpl; balance].
    destruct (uc_pending (s_code s)) eqn:Ep, (signals t); simpl; try case_decide; simpl; rewrite ?Ep; balance.
Qed.

Lemma balance_withdraw s i : hook = false → requests_balance s → requests_balance (delivery_withdraw i s).
Proof.
  intros Eh. unfold requests_balance, delivery_withdraw. rewrite Eh. intros Hb. simpl. unfold deliver_code.
  destruct (uc_thread (s_code s)) as [t|]; [|simpl; balance].
  destruct (uc_pending (s_code s)) eqn:Ep, (signals t); simpl; try case_decide; simpl; rewrite ?Ep; balance.
Qed.

Lemma size_remove (a : gset Z) t : t ∈ a → size a = S (size (a ∖ {[t]})).
Proof.
  intros Hin. rewrite size_difference, size_singleton by set_solver.
  assert (size a ≠ 0) by (apply size_non_empty_iff; set_solver). lia.
Qed.

Lemma injections_withdraw s i : injections_balance s → injections_balance (delivery_withdraw i s).
Proof.
  unfold injections_balance, delivery_withdraw. intros Hb. simpl. unfold deliver_code.
  destruct (uc_thread (s_code s)) as [t|]; [|simpl; balance].
  destruct (uc_pending (s_code s) && negb (signals t)); [|simpl; balance]. simpl. case_decide as Hin.
  - rewrite (size_remove _ t Hin) in Hb. balance.
  - replace (s_async s ∖ {[t]}) with (s_async s) by set_solver. balance.
Qed.

Lemma injections_deliver s i task : threads_ok s → injections_balance s → injections_balance (delivery_deliver i task s).
Proof.
  intros [Ha _]. unfold injections_balance, delivery_deliver. intros Hb. destruct hook; [simpl; balance|].
  simpl. unfold deliver_code. destruct (uc_thread (s_code s)) as [t|] eqn:Et; [|simpl; balance].
  destruct (uc_pending (s_code s) && negb (signals t)); [|simpl; balance]. simpl. case_decide as Hin.
  - rewrite (subseteq_union_1_L {[t]} (s_async s)) by set_solver. balance.
  - rewrite size_union, size_singleton by set_solver. balance.
Qed.

Lemma hook_stages_step s s' : py_step s s' → hook_stages s → hook_stages s'.
Proof.
  intros Hs H Hh. destruct (H Hh) as [Hp Hf]. clear H. revert Hp Hf. destruct Hs as [[]|[[]|[_ []]]]; intros Hp Hf; simpl; try done.
  - split; [done|]. apply Forall_insert; auto.
  - split; [done|]. apply Forall_insert; auto.
  - unfold delivery_deliver. rewrite Hh. simpl. split; [done|]. by apply Forall_delete.
  - split; [done|]. by apply Forall_delete.
  - unfold deferred_cancel, cancel_code. repeat case_match; simplify_eq/=; done.
  - unfold signal_router, signal_code. repeat case_match; simplify_eq/=; done.
  - unfold delivery_request. rewrite Hh. simpl. split; [done|]. apply Forall_app. auto.
  - unfold sink_started, delivery_request. rewrite Hh. destruct early; simpl; (split; [done|]); [apply Forall_app; auto | done].
  - unfold sink_enter, enter_code. rewrite Hp. done.
  - unfold sink_exit, exit_code. repeat case_match; simplify_eq/=; done.
  - split; [done|]. by apply Forall_delete.
  - congruence.
  - split; [done|]. by apply Forall_delete.
Qed.

Lemma balance_ends s i task f calls :
  s_flights s !! i = Some (task, f) → f = ToKill ∨ f = ToPost → hook_stages s → requests_balance s →
  requests_balance (with_calls calls (with_flights (delete i (s_flights s)) s)).
Proof.
  intros Hi Hf Hh Hb. unfold requests_balance in *. destruct hook eqn:Eh; [|done]. exfalso. destruct (Hh Eh) as [_ Hs].
  apply (Forall_lookup_1 _ _ _ _ Hs) in Hi. naive_solver.
Qed.

Lemma requests_balance_step s s' : py_step s s' → hook_stages s → requests_balance s → requests_balance s'.
Proof.
  intros Hs Hh Hb. revert Hh Hb. destruct Hs as [[]|[[]|[_ []]]]; intros Hh Hb.
  - revert Hb. unfold requests_balance. simpl. by rewrite length_insert.
  - revert Hb. unfold requests_balance. simpl. by rewrite length_insert.
  - by apply balance_deliver.
  - apply (balance_ends s0 i task ToPost); auto.
  - unfold requests_balance, deferred_cancel, cancel_code in *. repeat case_match; simplify_eq/=; balance.
  - unfold requests_balance, signal_router, signal_code in *. repeat case_match; simplify_eq/=; balance.
  - by apply balance_request.
  - assert (requests_balance (sink_started false s0) ∧ hook_stages (sink_started false s0)) as [Hb1 Hh1].
    { split; [|intros Hk; by destruct (Hh Hk)]. unfold requests_balance in *. simpl. destruct (uc_pending (s_code s0)); balance. }
    destruct early; [by apply (balance_request (sink_started false s0)) | done].
  - done.
  - unfold requests_balance, sink_enter, enter_code in *. repeat case_match; simplify_eq/=; balance.
  - unfold requests_balance, sink_exit, exit_code in *. repeat case_match; simplify_eq/=; balance.
  - unfold requests_balance in *. simpl. balance.
  - unfold requests_balance in *. simpl. balance.
  - apply (balance_ends s0 i task ToKill (s_calls s0)); auto.
  - by apply balance_withdraw.
  - apply (balance_ends s0 i task ToPost (s_calls s0)); auto.
Qed.

Lemma injections_balance_step s s' : py_step s s' → threads_ok s → injections_balance s → injections_balance s'.
Proof.
  intros Hs Ht Hb. revert Ht Hb. destruct Hs as [[]|[[]|[_ []]]]; intros Ht Hb; try done.
  - by apply injections_deliver.
  - unfold injections_balance, deferred_cancel, cancel_code in *. repeat case_match; simplify_eq/=; balance.
  - unfold injections_balance, signal_router, signal_code in *. repeat case_match; simplify_eq/=; balance.
  - unfold injections_balance, delivery_request in *. repeat case_match; simplify_eq/=; balance.
  - unfold injections_balance, sink_started, delivery_request in *. repeat case_match; simplify_eq/=; balance.
  - unfold injections_balance, sink_enter, enter_code in *. repeat case_match; simplify_eq/=; balance.
  - unfold injections_balance, sink_exit, exit_code in *. simpl. destruct (0 <? _)%Z; [simpl; balance|].
    destruct (uc_thread (s_code s0)) as [t|] eqn:Et; [|simpl; balance]. simpl. case_decide as Hin.
    + rewrite (size_remove _ t Hin) in Hb. balance.
    + replace (s_async s0 ∖ {[t]}) with (s_async s0) by set_solver. balance.
  - unfold injections_balance in *. rewrite (size_remove (s_async s0) t) in Hb by done. simpl. balance.
  - unfold injections_balance in *. simpl. balance.
  - by apply injections_withdraw.
Qed.

Lemma withdrawn_step s s' : py_step s s' → faults = false → count Withdrawn (s_log s') = count Withdrawn (s_log s).
Proof.
  intros Hs Hf. destruct Hs as [[]|[[]|[? _]]]; try done; [..|congruence].
  - unfold delivery_deliver, deliver_code. py_cases; balance.
  - unfold deferred_cancel, cancel_code. py_cases; balance.
  - unfold signal_router, signal_code. py_cases; balance.
  - unfold delivery_request. py_cases; balance.
  - unfold sink_started, delivery_request. py_cases; balance.
  - unfold sink_enter, enter_code. py_cases; balance.
  - unfold sink_exit, exit_code. py_cases; balance.
  - simpl. balance.
  - simpl. balance.
Qed.

Lemma py_reach_withdrawn s : faults = false → py_reach s → count Withdrawn (s_log s) = 0.
Proof.
  intros Hf. apply (rtc_invariant py_step (λ s, count Withdrawn (s_log s) = 0)); [done|].
  intros s1 s2 Hs E. by rewrite (withdrawn_step _ _ Hs Hf).
Qed.

Lemma py_reach_balance s : py_reach s → hook_stages s ∧ requests_balance s ∧ injections_balance s.
Proof.
  intros Hr. assert (py_reach s ∧ hook_stages s ∧ requests_balance s ∧ injections_balance s) as [_ ?]; [|done]. revert Hr.
  apply (rtc_invariant py_step (λ s, py_reach s ∧ hook_stages s ∧ requests_balance s ∧ injections_balance s)).
  - split; [apply rtc_refl|]. split; [done|]. unfold requests_balance, injections_balance. simpl. by destruct hook.
  - intros s1 s2 Hs (Hr & Hh & Hb & Hi). pose proof (py_reach_ok s1 Hr) as [_ Ht].
    split_and!; [by eapply rtc_r | by eapply hook_stages_step | by eapply requests_balance_step | by eapply injections_balance_step].
Qed.

(** C32: (every request accounted for) in any interleaving of the engine, the
    deliveries, the loop, the signal handler and user code, each request has
    exactly one fate: it came while another was pending and counts with it; it
    was raised on entry, raised by the signal handler, injected, or cancelled
    the task; it was still pending when the next execution started; it is
    pending now; or, in a shell with a hook of its own, the hook was called for
    it or is about to be.  And each injected exception was raised, replaced by
    a later one, cleared because its block ended first, or waits; one was
    withdrawn only if the interpreter said that it matched several threads. *)
Theorem interrupt_requests_accounted s :
  py_reach s →
  (count Requested (s_log s) =
     count Merged (s_log s) + count RaisedOnEntry (s_log s) + count RaisedBySignal (s_log s) + count Injected (s_log s) +
     count TaskCancelled (s_log s) + count Discarded (s_log s) + (if uc_pending (s_code s) then 1 else 0) +
     count HookCalled (s_log s) + (if hook then length (s_flights s) else 0)) ∧
  count Injected (s_log s) =
    count Fired (s_log s) + count Replaced (s_log s) + count ClearedAtExit (s_log s) + count Withdrawn (s_log s) + size (s_async s) ∧
  (faults = false → count Withdrawn (s_log s) = 0).
Proof. intros Hr. destruct (py_reach_balance s Hr) as (_ & Hb & Hi). split_and!; [done..|]. eauto using py_reach_withdrawn. Qed.
End Delivery.

(** ** Runs

    The parent session's loop is on the main thread, 1; a subshell's on thread 2. *)
Ltac side := first [intros _; reflexivity | vm_compute; reflexivity | intros E; vm_compute in E; discriminate E].
Tactic Notation "own_move" uconstr(c) := eapply rtc_l; [left; eapply c; side|].
Tactic Notation "env_move" uconstr(c) := eapply rtc_l; [right; left; eapply c; side|].

Definition parent_reach : PySession → Prop := py_reach true (Some 1%Z) 1 false false.
Definition child_reach : PySession → Prop := py_reach true (Some 1%Z) 2 false false.

(** (a second interrupt taken for Ctrl-C) the flag that tells kernmini's own
    SIGINT from others is set before the signal is sent and cleared by whichever
    handler runs first.  When the handler of a first request runs between the
    two in a second one, the second signal finds the flag cleared: kernmini's
    own SIGINT then interrupts the whole kernel, although two requests for one
    execution are all that happened. *)
Theorem own_signal_interrupts_kernel :
  ∃ s, parent_reach s ∧ s_log s = [Requested; Requested; Merged; RaisedBySignal; KernelInterrupted].
Proof.
  eexists. split.
  - unfold parent_reach, py_reach.
    env_move (step_started true (Some 1%Z) 1%Z false session_init false).
    env_move (step_enter true (Some 1%Z) 1%Z false _ 1%Z).
    env_move step_request. own_move (step_kill true (Some 1%Z) 1%Z false _ 0). own_move (step_spawn true (Some 1%Z) 1%Z false _ 0).
    env_move step_request. own_move step_handler.
    own_move (step_kill true (Some 1%Z) 1%Z false _ 1). own_move step_handler. apply rtc_refl.
  - vm_compute. reflexivity.
Qed.

(** (an interrupt lost as a block ends) on a subshell's thread, an injected
    [KeyboardInterrupt] whose block ends before it is raised is cleared, and the
    request no longer counts as pending: the execution goes on as if it had not
    been interrupted, with nothing under way. *)
Theorem interrupt_lost_at_block_end :
  ∃ s, child_reach s ∧ s_log s = [Requested; Injected; ClearedAtExit] ∧ s_done s = false ∧
    uc_pending (s_code s) = false ∧ s_flights s = [] ∧ s_calls s = [] ∧ s_async s = ∅.
Proof.
  eexists. split.
  - unfold child_reach, py_reach.
    env_move (step_started true (Some 1%Z) 2%Z false session_init false).
    env_move (step_enter true (Some 1%Z) 2%Z false _ 2%Z).
    env_move step_request. own_move (step_spawn true (Some 1%Z) 2%Z false _ 0). own_move (step_deliver true (Some 1%Z) 2%Z false _ 0).
    env_move step_exit. own_move (step_post true (Some 1%Z) 2%Z false _ 0). own_move step_loop. apply rtc_refl.
  - split_and!; vm_compute; reflexivity.
Qed.

(** A subshell interrupted while its thread is in user code. *)
Definition interrupted_child : PySession :=
  delivery_request true (Some 1%Z) false (sink_enter 2 (sink_started true (Some 1%Z) false false session_init)).

Lemma interrupted_child_reach : child_reach interrupted_child.
Proof.
  unfold child_reach, py_reach, interrupted_child.
  env_move (step_started true (Some 1%Z) 2%Z false session_init false). env_move (step_enter true (Some 1%Z) 2%Z false _ 2%Z).
  env_move step_request. apply rtc_refl.
Qed.

Lemma interrupts_stay_in_user_code_witness :
  uc_depth (s_code interrupted_child) = Z.of_nat (s_blocks interrupted_child) ∧
  (uc_thread (s_code interrupted_child) = None ↔ s_blocks interrupted_child = 0) ∧
  (∀ t, t ∈ s_async interrupted_child → uc_thread (s_code interrupted_child) = Some t) ∧
  (s_blocks interrupted_child = 0 → s_async interrupted_child = ∅).
Proof. exact (interrupts_stay_in_user_code true (Some 1%Z) 2 false false interrupted_child interrupted_child_reach). Defined.

Lemma pending_interrupt_delivered_witness :
  ∃ s', rtc (own_step true (Some 1%Z) 2 false) interrupted_child s' ∧ uc_pending (s_code s') = false ∧
    ∃ evs, s_log s' = s_log interrupted_child ++ Injected :: evs ∧ 2%Z ∈ s_async s'.
Proof. exact (pending_interrupt_delivered true (Some 1%Z) 2 false false interrupted_child eq_refl eq_refl interrupted_child_reach eq_refl eq_refl). Defined.

Lemma interrupt_requests_accounted_witness : count Requested (s_log interrupted_child) = 1.
Proof.
  destruct (interrupt_requests_accounted true (Some 1%Z) 2 false false interrupted_child interrupted_child_reach) as [E _].
  rewrite E. vm_compute. reflexivity.
Defined.
