(* ===== verification/Services.v ===== *)
(** * Engine services: effects, replies, output (src/src/engine.rs, first half)

    The effects of the engine as a state and error monad over [World], and the
    functions every request handler is built from: publishing on IOPub, replying,
    status, the error replies, the stdin request and the output pump.

    [trace] is what the engine sent, in order.  [tick] counts the draws of fresh
    data (UUIDs, dates) and the language calls; [now] is the monotonic clock.  [closed_sinks] holds the
    peers whose connection ended and why: a reply to them fails, and
    [send_reply] swallows the failure.  [pending] is the table of the stdin
    requests in flight.  [failures] is the channel to the kernel's main loop. *)

From Stdlib Require Import ZArith.
From stdpp Require Import base gmap list strings.
From S2P Require Import Prelude Json Errors Wire Language.

(** ** The world and its monad *)

Inductive Output :=
| Published (m : Message)
| Replied (sink : nat) (m : Message) (sent : Result unit)
| Prompted (identity : bytes) (m : Message)
| Stderr (line : string).

Record World := MkWorld {
  tick : nat; now : Z; closed_sinks : gmap nat Error; pending : gmap string bytes;
  failures : list Error; trace : list Output }.

Definition M (A : Type) : Type := World → Result A * World.

Global Instance M_ret : MRet M := λ A a w, (Ok a, w).
Global Instance M_bind : MBind M := λ A B f m w,
  match m w with (Ok a, w') => f a w' | (Err e, w') => (Err e, w') end.

Notation "m ;;; k" := (mbind (λ _, k) m) (at level 100, right associativity) : kern_scope.
Open Scope kern_scope.

Definition lift {A} (r : Result A) : M A := λ w, (r, w).
Definition throw {A} (e : Error) : M A := lift (Err e).
(** [match f().await { Ok(..) => .., Err(..) => .. }]: the result as a value. *)
Definition catch {A} (m : M A) : M (Result A) := λ w, let '(r, w') := m w in (Ok r, w').
Definition gets {A} (f : World → A) : M A := λ w, (Ok (f w), w).
Definition when (b : bool) (m : M unit) : M unit := if b then m else mret tt.

Definition next_tick : M nat := λ w,
  (Ok (tick w), MkWorld (S (tick w)) (now w) (closed_sinks w) (pending w) (failures w) (trace w)).
Definition emit (o : Output) : M unit := λ w,
  (Ok tt, MkWorld (tick w) (now w) (closed_sinks w) (pending w) (failures w) (trace w ++ [o])).
Definition pending_insert (id : string) (identity : bytes) : M unit := λ w,
  (Ok tt, MkWorld (tick w) (now w) (closed_sinks w) (<[id := identity]> (pending w)) (failures w) (trace w)).
Definition pending_remove (id : string) : M unit := λ w,
  (Ok tt, MkWorld (tick w) (now w) (closed_sinks w) (delete id (pending w)) (failures w) (trace w)).
Definition report_to_kernel (e : Error) : M unit := λ w,
  (Ok tt, MkWorld (tick w) (now w) (closed_sinks w) (pending w) (failures w ++ [e]) (trace w)).

Fixpoint for_each {A} (f : A → M unit) (l : list A) : M unit :=
  match l with [] => mret tt | a :: l' => f a ;;; for_each f l' end.

Lemma bind_inv {A B} (m : M A) (f : A → M B) w b w' :
  (m ≫= f) w = (Ok b, w') → ∃ a w1, m w = (Ok a, w1) ∧ f a w1 = (Ok b, w').
Proof. unfold mbind, M_bind. destruct (m w) as [[a|e] w1]; naive_solver. Qed.

(** Opens a successful run of a sequence of operations. *)
Ltac run_inv := repeat match goal with
  | E : (_ ≫= _) _ = (Ok _, _) |- _ => let a := fresh "a" in let w := fresh "w" in let E' := fresh "E" in
      apply bind_inv in E as (a & w & E' & E)
  | E : mret _ _ = (Ok _, _) |- _ => injection E as ?; subst
  | E : throw _ _ = (Ok _, _) |- _ => discriminate E
  end.

(** ** Requests as the engine reads them *)

(** [Inbound { message, reply, identity }]; a [ReplySink] is named by a number. *)
Record Inbound := MkInbound { in_message : Message; in_reply : nat; in_identity : bytes }.

Record KernelServices := MkServices {
  ks_session : Session; ks_connection : Value; ks_supports_subshells : bool; ks_hold_timeout : Z }.

Definition missing_fields (request : Message) : list string :=
  let required :=
    if decide (msg_type request = "execute_request") then ["code"]
    else if decide (msg_type request = "is_complete_request") then ["code"]
    else if decide (msg_type request = "complete_request") then ["code"; "cursor_pos"]
    else if decide (msg_type request = "inspect_request") then ["code"; "cursor_pos"]
    else if decide (msg_type request = "history_request") then ["hist_access_type"]
    else [] in
  filter (λ k, value_get (content request) k = None) required.

(** [execute_request]: the protocol's defaults for missing fields. *)
Definition execute_request (c : Value) : ExecuteRequest :=
  MkExecuteRequest (unwrap_or (get_str c "code") "") (unwrap_or (get_bool c "silent") false)
    (unwrap_or (get_bool c "store_history") true) (unwrap_or (value_get c "user_expressions") (Obj []))
    (unwrap_or (get_bool c "allow_stdin") true).

Definition error_content (request : Message) (execution_count : Z) (ename evalue : string) : Value :=
  let content := Obj [("status", Str "error"); ("ename", Str ename); ("evalue", Str evalue); ("traceback", Arr [])] in
  if decide (msg_type request = "execute_request") then
    set_key (set_key (set_key content "execution_count" (jnat execution_count)) "user_expressions" (Obj [])) "payload" (Arr [])
  else if decide (msg_type request = "complete_request") then
    set_key (set_key (set_key (set_key content "matches" (Arr [])) "cursor_start" (jnat 0)) "cursor_end" (jnat 0)) "metadata" (Obj [])
  else if decide (msg_type request = "inspect_request") then
    set_key (set_key (set_key content "found" (Bool false)) "data" (Obj [])) "metadata" (Obj [])
  else if decide (msg_type request = "history_request") then set_key content "history" (Arr [])
  else if decide (msg_type request = "is_complete_request") then set_key content "indent" (Str "")
  else content.

(** [msg_type.replace("_request", "_reply")]. *)
Definition reply_type (mt : string) : string := str_replace "_request" "_reply" mt.

Section Services.
Context `{WireExt} (ks : KernelServices).

(** ** Sending *)

Definition new_message (mt : string) (c : Value) (parent : option Message) : M Message :=
  n ← next_tick; mret (session_message (ks_session ks) n mt c parent).

(** [Session::encode] with [?] into [Error]. *)
Definition encode_message (m : Message) : M (list bytes) := lift (map_err error_from_wire (encode (ks_session ks) m)).

(** [Iopub::publish], as its caller sees it. *)
Definition publish (m : Message) : M unit := encode_message m ;;; emit (Published m).

Definition send_iopub (parent : Message) (mt : string) (c : Value) : M unit :=
  m ← new_message mt c (Some parent); publish m.

(** [ReplySink::send], as its caller sees it: the peer takes the frames, or the
    connection ended and the error says why. *)
Definition sink_send (sink : nat) (m : Message) : M (Result unit) :=
  closed ← gets closed_sinks;
  let sent := match closed !! sink with None => Ok tt | Some e => Err e end in
  emit (Replied sink m sent) ;;; mret sent.

Definition send_reply (reply : nat) (request : Message) (mt : string) (c : Value) : M unit :=
  n ← next_tick;
  let m := session_reply (ks_session ks) n request mt c in
  encode_message m ;;;
  sent ← sink_send reply m;
  match sent with
  | Ok _ => mret tt
  | Err e => when (bool_decide (error_kind e ≠ Closed))
               (emit (Stderr ("reply to disconnected client failed: " +:+ to_string e)))
  end.

Definition status (parent : Message) (state : string) : M unit :=
  send_iopub parent "status" (Obj [("execution_state", Str state)]).

(** ** Error replies *)

Definition reply_error (request : Message) (reply : nat) (c : Value) : M unit :=
  when (bool_decide (msg_type request = "execute_request"))
    (status request "busy" ;;; send_iopub request "error" c) ;;;
  send_reply reply request (reply_type (msg_type request)) c ;;;
  when (bool_decide (msg_type request = "execute_request")) (status request "idle").

Definition reply_missing (execution_count : Z) (request : Message) (reply : nat) (missing : list string) : M unit :=
  reply_error request reply
    (error_content request execution_count "MissingField" ("missing required fields: " +:+ str_join ", " missing)).

(** ** Stdin (the asking side, [Stdin::request])

    The [select!]s poll the interrupt first, then the peer's end, then the send
    and the reply; [ends] is the branch that completes.  The entry in [pending]
    is removed whichever it is. *)
Definition stdin_request (identity : bytes) (parent : Message) (prompt : string) (password : bool) (ends : InputEnd) : M string :=
  m ← new_message "input_request" (Obj [("prompt", Str prompt); ("password", Bool password)]) (Some parent);
  pending_insert (msg_id m) identity ;;;
  result ← catch
    (match ends with
     | InputCancelled sent =>
         when sent (encode_message m ;;; emit (Prompted identity m)) ;;; throw error_interrupted
     | InputPeerClosed sent e =>
         when sent (encode_message m ;;; emit (Prompted identity m)) ;;; throw (error_context e "waiting for stdin")
     | InputSendFailed e => encode_message m ;;; throw e
     | InputReplied value => encode_message m ;;; emit (Prompted identity m) ;;; mret value
     | InputDropped => encode_message m ;;; emit (Prompted identity m) ;;; throw (from_recv_error "channel closed")
     end);
  pending_remove (msg_id m) ;;;
  lift result.

(** ** The output pump *)

(** The type and content of a display event's message. *)
Definition display_message (event : Value) : string * Value :=
  if decide (get_str event "type" = Some "clear_output") then
    ("clear_output", Obj [("wait", Bool (unwrap_or (get_bool event "wait") false))])
  else
    (if unwrap_or (get_bool event "update") false then "update_display_data" else "display_data",
     Obj [("data", unwrap_or (value_get event "data") (Obj []));
          ("metadata", unwrap_or (value_get event "metadata") (Obj []));
          ("transient", unwrap_or (value_get event "transient") (Obj []))]).

Definition publish_event (request : Message) (event : LanguageEvent) (silent : bool) : M unit :=
  if silent then mret tt else
  match event with
  | Stream name text => send_iopub request "stream" (Obj [("name", Str name); ("text", Str text)])
  | Display event bufs =>
      m ← new_message (display_message event).1 (display_message event).2 (Some request);
      publish (MkMessage (identities m) (header m) (parent_header m) (metadata m) (content m) bufs)
  | EvMessage mt c md identity bufs =>
      m ← new_message mt c (Some request);
      publish (MkMessage (match identity with Some i => identities m ++ [i] | None => identities m end)
                 (header m) (parent_header m) (unwrap_or (as_object md) []) (content m) bufs)
  end.

(** The inner [while matches!(messages.peek(), ..)] loop: joins the following
    stream events of the same name to [msg]. *)
Fixpoint absorb (msg : ContextMessage) (rest : list ContextMessage) : ContextMessage * list ContextMessage :=
  match msg, rest with
  | Event (Stream name text), Event (Stream next t) :: rest' =>
      if decide (next = name) then absorb (Event (Stream name (text +:+ t))) rest' else (msg, rest)
  | _, _ => (msg, rest)
  end.

(** One message of a batch.  [stdin] is the client that may be asked for input:
    [None] outside an execution.  The result of an [Input] goes back to the
    waiting language through its own channel, so it never stops the pump. *)
Definition handle_context_message (request : Message) (silent : bool) (stdin : option bytes) (msg : ContextMessage) : M unit :=
  match msg with
  | Event e => publish_event request e silent
  | Flush => mret tt
  | Input prompt password ends =>
      match stdin with
      | Some identity => catch (stdin_request identity request prompt password ends) ;;; mret tt
      | None => mret tt
      end
  end.

(** A batch: each round takes one message and what it absorbs, so the length of
    the batch is enough fuel. *)
Fixpoint pump_batch (fuel : nat) (request : Message) (silent : bool) (stdin : option bytes) (batch : list ContextMessage) : M unit :=
  match fuel, batch with
  | S f, msg :: rest =>
      let '(msg, rest) := absorb msg rest in
      handle_context_message request silent stdin msg ;;; pump_batch f request silent stdin rest
  | _, _ => mret tt
  end.

Definition pump (request : Message) (silent : bool) (stdin : option bytes) (batches : list (list ContextMessage)) : M unit :=
  for_each (λ batch, pump_batch (length batch) request silent stdin batch) batches.

(** The task [output_context] spawns: a pump that fails reports to the kernel. *)
Definition pump_task (request : Message) (silent : bool) (stdin : option bytes) (batches : list (list ContextMessage)) : M (Result unit) :=
  result ← catch (pump request silent stdin batches);
  match result with Ok _ => mret tt | Err e => report_to_kernel e end ;;;
  mret result.

(** [flush] sends [Flush] after everything the run emitted and waits until the
    pump handles it, so the events of the run are published in order before it
    returns.  A pump that fails drops its queue, so [flush] finds the channel
    closed (on sending or on waiting: both give the same kind of error). *)
Definition pump_and_flush (request : Message) (silent : bool) (stdin : option bytes) (batches : list (list ContextMessage)) : M (Result unit) :=
  result ← pump_task request silent stdin (batches ++ [[Flush]]);
  mret (map_err (λ _, from_send_error) result).

(** The context [output_context] hands to the language. *)
Definition output_context (request : Message) (execution : bool) (execution_count : Z) : ExecutionContext :=
  MkExecutionContext
    (if execution then Some (unwrap_or (mget_str (header request) "session") "") else None)
    (Obj [("header", Obj (header request)); ("parent_header", Obj (parent_header request));
          ("metadata", Obj (metadata request)); ("content", content request)])
    (execution && unwrap_or (get_bool (content request) "allow_stdin") true)
    execution_count.
End Services.

(** ** What the engine shows

    Messages up to the fresh id and date in their headers. *)
Inductive Obs :=
| OPub (parent : Map) (mt : string) (c : Value)
| ORep (sink : nat) (parent : Map) (mt : string) (c : Value)
| OPrompt (identity : bytes) (parent : Map) (c : Value)
| OLine (line : string).

Definition obs_of (o : Output) : Obs :=
  match o with
  | Published m => OPub (parent_header m) (msg_type m) (content m)
  | Replied sink m _ => ORep sink (parent_header m) (msg_type m) (content m)
  | Prompted identity m => OPrompt identity (parent_header m) (content m)
  | Stderr line => OLine line
  end.

Definition obs (w : World) : list Obs := map obs_of (trace w).

(** Lines on the standard error stream are not part of the protocol. *)
Definition is_line (o : Obs) : bool := match o with OLine _ => true | _ => false end.
Definition protocol (l : list Obs) : list Obs := filter (λ o, is_line o = false) l.

(** The replies: who they go to and the header of the request they answer. *)
Definition answer_of (o : Output) : option (nat * Map) :=
  match o with Replied sink m _ => Some (sink, parent_header m) | _ => None end.

Definition answers (l : list Output) : list (nat * Map) := omap answer_of l.

(** serde_json serialises every [Value] and every [Map] with string keys. *)
Class JsonTotal `{WireExt} := {
  to_vec_map_total : ∀ m, ∃ b, to_vec_map m = Ok b;
  to_vec_total : ∀ v, ∃ b, to_vec v = Ok b;
}.

(** [emits_at w m r l w']: from [w], [m] ends in [w'] with result [r] and sends
    exactly [l]; [emits m l a]: it does so from any world, and returns [a]. *)
Definition emits_at {A} (w : World) (m : M A) (r : Result A) (l : list Obs) (w' : World) : Prop :=
  m w = (r, w') ∧ protocol (obs w') = protocol (obs w) ++ protocol l ∧
  closed_sinks w' = closed_sinks w ∧ now w' = now w.

Definition emits {A} (m : M A) (l : list Obs) (a : A) : Prop := ∀ w, ∃ w', emits_at w m (Ok a) l w'.

(** [quiet m]: [m] answers no request; [answers_one m k]: it answers exactly [k],
    once; [answers_if_ok m l]: it answers [l] if it succeeds and nothing if it
    fails; [total m]: it does not fail. *)
Definition quiet {A} (m : M A) : Prop := ∀ w, answers (trace (m w).2) = answers (trace w).
Definition answers_one {A} (m : M A) (k : nat * Map) : Prop := ∀ w, answers (trace (m w).2) = answers (trace w) ++ [k].
Definition answers_if_ok {A} (m : M A) (l : list (nat * Map)) : Prop :=
  ∀ w, answers (trace (m w).2) = answers (trace w) ++ (if is_ok (m w).1 then l else []).
Definition total {A} (m : M A) : Prop := ∀ w, ∃ a w', m w = (Ok a, w').

Section EmitLemmas.
Context `{JsonTotal} (ks : KernelServices).

Lemma protocol_app l l' : protocol (l ++ l') = protocol l ++ protocol l'.
Proof. apply filter_app. Qed.

Lemma encode_total (s : Session) m : ∃ f, encode s m = Ok f.
Proof.
  unfold encode, encode_parts.
  destruct (to_vec_map_total (header m)) as [? ->]. destruct (to_vec_map_total (parent_header m)) as [? ->].
  destruct (to_vec_map_total (metadata m)) as [? ->]. destruct (to_vec_total (content m)) as [? ->].
  simpl. eauto.
Qed.

Lemma emits_at_ret {A} w (r : Result A) : emits_at w (lift r) r [] w.
Proof. split; [done|]. by rewrite app_nil_r. Qed.

Lemma emits_at_bind {A B} w (m : M A) (f : A → M B) a l1 w1 r l2 w2 :
  emits_at w m (Ok a) l1 w1 → emits_at w1 (f a) r l2 w2 → emits_at w (m ≫= f) r (l1 ++ l2) w2.
Proof.
  intros (E1 & O1 & C1 & N1) (E2 & O2 & C2 & N2). unfold emits_at, mbind, M_bind.
  rewrite E1, E2, O2, O1, !protocol_app, app_assoc. split_and!; congruence.
Qed.

Lemma emits_at_bind_err {A B} w (m : M A) (f : A → M B) e l w' :
  emits_at w m (Err e) l w' → emits_at w (m ≫= f) (Err e) l w'.
Proof. intros (E & H1). unfold emits_at, mbind, M_bind. by rewrite E. Qed.

Lemma emits_at_catch {A} w (m : M A) r l w' : emits_at w m r l w' → emits_at w (catch m) (Ok r) l w'.
Proof. intros (E & H1). unfold emits_at, catch. by rewrite E. Qed.

Lemma emits_at_list {A} w (m : M A) r l l' w' :
  protocol l = protocol l' → emits_at w m r l w' → emits_at w m r l' w'.
Proof. unfold emits_at. by intros ->. Qed.

Lemma emits_ret {A} (a : A) : emits (mret a) [] a.
Proof. intros w. eexists. apply (emits_at_ret w (Ok a)). Qed.

Lemma emits_bind {A B} (m : M A) (f : A → M B) l1 a l2 b :
  emits m l1 a → emits (f a) l2 b → emits (m ≫= f) (l1 ++ l2) b.
Proof. intros H1 H2 w. destruct (H1 w) as [w1 ?], (H2 w1) as [w2 ?]. eauto using emits_at_bind. Qed.

Lemma emits_bind_nil {A B} (m : M A) (f : A → M B) a l b :
  emits m [] a → emits (f a) l b → emits (m ≫= f) l b.
Proof. apply emits_bind. Qed.

Lemma emits_when (b : bool) m l : emits m l tt → emits (when b m) (if b then l else []) tt.
Proof. destruct b; simpl; auto using emits_ret. Qed.

Lemma emits_catch {A} (m : M A) l a : emits m l a → emits (catch m) l (Ok a).
Proof. intros H1 w. destruct (H1 w) as [w1 ?]. eauto using emits_at_catch. Qed.

Lemma emits_send_iopub p mt c : emits (send_iopub ks p mt c) [OPub (header p) mt c] tt.
Proof.
  intros w. unfold send_iopub, new_message, publish, encode_message, lift, emit, next_tick, mbind, M_bind, mret, M_ret.
  simpl. unfold emits_at. edestruct (encode_total (ks_session ks)) as [f ->]. simpl. eexists. split; [done|].
  unfold obs. simpl. by rewrite map_app, protocol_app.
Qed.

Lemma emits_send_reply sink req mt c : emits (send_reply ks sink req mt c) [ORep sink (header req) mt c] tt.
Proof.
  intros w. unfold send_reply, sink_send, encode_message, gets, lift, next_tick, mbind, M_bind, mret, M_ret.
  unfold emits_at. simpl. edestruct (encode_total (ks_session ks)) as [f ->]. simpl. unfold emit. simpl.
  destruct (closed_sinks w !! sink) as [e|]; simpl; [unfold when; case_bool_decide|];
    (eexists; split; [done|]); unfold obs; simpl; by rewrite !map_app, !protocol_app, ?app_nil_r.
Qed.

Lemma emits_status p st : emits (status ks p st) [OPub (header p) "status" (Obj [("execution_state", Str st)])] tt.
Proof. apply emits_send_iopub. Qed.
End EmitLemmas.

Lemma answers_app l l' : answers (l ++ l') = answers l ++ answers l'.
Proof. apply omap_app. Qed.

(** ** Which code answers requests

    [quiet] is closed under the monad's operations, and everything that only
    publishes is quiet: [auto with kern] proves it from the code. *)
Section Quiet.
Context `{WireExt} (ks : KernelServices).

Lemma quiet_ret {A} (a : A) : quiet (mret a).
Proof. done. Qed.

Lemma quiet_lift {A} (r : Result A) : quiet (lift r).
Proof. done. Qed.

Lemma quiet_throw {A} e : quiet (@throw A e).
Proof. done. Qed.

Lemma quiet_bind {A B} (m : M A) (f : A → M B) : quiet m → (∀ a, quiet (f a)) → quiet (m ≫= f).
Proof.
  intros H1 H2 w. unfold mbind, M_bind. specialize (H1 w). destruct (m w) as [[a|e] w1]; simpl in *; [|done].
  by rewrite H2.
Qed.

Lemma quiet_catch {A} (m : M A) : quiet m → quiet (catch m).
Proof. intros H1 w. unfold catch. specialize (H1 w). by destruct (m w). Qed.

Lemma quiet_when b m : quiet m → quiet (when b m).
Proof. by destruct b. Qed.

Lemma quiet_next_tick : quiet next_tick.
Proof. done. Qed.

Lemma quiet_gets {A} (f : World → A) : quiet (gets f).
Proof. done. Qed.

Lemma quiet_emit o : answer_of o = None → quiet (emit o).
Proof. intros Ho w. simpl. rewrite answers_app. simpl. by rewrite Ho, app_nil_r. Qed.

Lemma quiet_for_each {A} (f : A → M unit) l : (∀ a, quiet (f a)) → quiet (for_each f l).
Proof. intros Hf. induction l; simpl; [done|]. apply quiet_bind; auto. Qed.

Lemma quiet_pending_insert k i : quiet (pending_insert k i).
Proof. done. Qed.

Lemma quiet_pending_remove k : quiet (pending_remove k).
Proof. done. Qed.

Lemma quiet_report_to_kernel e : quiet (report_to_kernel e).
Proof. done. Qed.

Lemma quiet_emit_published m : quiet (emit (Published m)).
Proof. by apply quiet_emit. Qed.

Lemma quiet_emit_prompted i m : quiet (emit (Prompted i m)).
Proof. by apply quiet_emit. Qed.

Lemma quiet_emit_stderr l : quiet (emit (Stderr l)).
Proof. by apply quiet_emit. Qed.

Lemma quiet_if {A} (b : bool) (m m' : M A) : quiet m → quiet m' → quiet (if b then m else m').
Proof. by destruct b. Qed.
End Quiet.

#[export] Hint Resolve quiet_ret quiet_lift quiet_throw quiet_bind quiet_catch quiet_when quiet_next_tick quiet_gets
  quiet_for_each quiet_pending_insert quiet_pending_remove quiet_report_to_kernel quiet_emit_published
  quiet_emit_prompted quiet_emit_stderr quiet_if : kern.

Ltac quiet := repeat first
  [ lazymatch goal with |- quiet _ => fail | |- _ => intro end
  | progress unfold new_message, encode_message, publish, send_iopub, status
  | solve [auto with kern]
  | apply quiet_bind | case_match | apply quiet_catch | apply quiet_when | apply quiet_for_each ].

Section QuietServices.
Context `{WireExt} (ks : KernelServices).

Lemma quiet_send_iopub p mt c : quiet (send_iopub ks p mt c).
Proof. quiet. Qed.

Lemma quiet_status p st : quiet (status ks p st).
Proof. apply quiet_send_iopub. Qed.

Lemma quiet_publish_event req e silent : quiet (publish_event ks req e silent).
Proof. unfold publish_event. quiet. Qed.

Lemma quiet_stdin_request i p pr pw ends : quiet (stdin_request ks i p pr pw ends).
Proof. unfold stdin_request. quiet. Qed.

Lemma quiet_pump req silent stdin batches : quiet (pump ks req silent stdin batches).
Proof.
  apply quiet_for_each. intros batch. generalize (length batch) as fuel. intros fuel. revert batch.
  induction fuel as [|f IH]; intros [|m rest]; simpl; try apply quiet_ret.
  destruct (absorb m rest). apply quiet_bind; [|auto].
  unfold handle_context_message. quiet; auto using quiet_publish_event, quiet_stdin_request.
Qed.

Lemma quiet_pump_task req silent stdin batches : quiet (pump_task ks req silent stdin batches).
Proof. apply quiet_bind; [apply quiet_catch, quiet_pump | quiet]. Qed.

Lemma quiet_pump_and_flush req silent stdin batches : quiet (pump_and_flush ks req silent stdin batches).
Proof. apply quiet_bind; [apply quiet_pump_task | quiet]. Qed.

End QuietServices.

#[export] Hint Resolve quiet_send_iopub quiet_status quiet_publish_event quiet_stdin_request quiet_pump
  quiet_pump_task quiet_pump_and_flush : kern.

Section Answers.
Context `{JsonTotal} (ks : KernelServices).

Lemma emits_total {A} (m : M A) l a : emits m l a → total m.
Proof. intros H1 w. destruct (H1 w) as (w' & ? & _). eauto. Qed.

Lemma total_bind {A B} (m : M A) (f : A → M B) : total m → (∀ a, total (f a)) → total (m ≫= f).
Proof.
  intros H1 H2 w. unfold mbind, M_bind. destruct (H1 w) as (a & w1 & ->). apply H2.
Qed.

Lemma total_catch {A} (m : M A) : total (catch m).
Proof. intros w. unfold catch. destruct (m w). eauto. Qed.

Lemma total_ret {A} (a : A) : total (mret a).
Proof. intros w. by eexists _, w. Qed.

Lemma total_when b m : total m → total (when b m).
Proof. destruct b; [done | intros _; apply total_ret]. Qed.

Lemma total_for_each {A} (f : A → M unit) l : (∀ a, total (f a)) → total (for_each f l).
Proof. intros Hf. induction l as [|a l IH]; simpl; [apply total_ret | by apply total_bind]. Qed.

Lemma total_send_iopub p mt c : total (send_iopub ks p mt c).
Proof. eapply emits_total, emits_send_iopub. Qed.

Lemma total_status p st : total (status ks p st).
Proof. apply total_send_iopub. Qed.

Lemma total_send_reply sink req mt c : total (send_reply ks sink req mt c).
Proof. eapply emits_total, emits_send_reply. Qed.

Lemma answers_one_after {A B} (m : M A) (f : A → M B) k :
  quiet m → total m → (∀ a, answers_one (f a) k) → answers_one (m ≫= f) k.
Proof.
  intros Hq Ht Hf w. unfold mbind, M_bind. specialize (Hq w). destruct (Ht w) as (a & w1 & E).
  rewrite E in *. simpl in *. rewrite Hf. by rewrite Hq.
Qed.

Lemma answers_one_before {A B} (m : M A) (f : A → M B) k :
  answers_one m k → (∀ a, quiet (f a)) → answers_one (m ≫= f) k.
Proof.
  intros Hm Hf w. unfold mbind, M_bind. specialize (Hm w). destruct (m w) as [[a|e] w1]; simpl in *; [|done].
  by rewrite Hf.
Qed.

Lemma answers_one_send_reply sink req mt c : answers_one (send_reply ks sink req mt c) (sink, header req).
Proof.
  intros w. unfold send_reply, sink_send, encode_message, gets, lift, next_tick, mbind, M_bind, mret, M_ret.
  simpl. edestruct (encode_total (ks_session ks)) as [f ->]. simpl. unfold emit. simpl.
  destruct (closed_sinks w !! sink) as [e|]; simpl; [unfold when; case_bool_decide; simpl|];
    rewrite ?answers_app; simpl; by rewrite ?app_nil_r.
Qed.

Lemma answers_one_ok {A} (m : M A) k : total m → answers_one m k → answers_if_ok m [k].
Proof. intros Ht Ho w. rewrite Ho. destruct (Ht w) as (a & w' & ->). done. Qed.

Lemma answers_if_ok_quiet {A} (m : M A) : quiet m → answers_if_ok m [].
Proof. intros Hq w. rewrite Hq. by destruct (is_ok _); rewrite app_nil_r. Qed.

Lemma answers_if_ok_bind {A B} (m : M A) (f : A → M B) l :
  quiet m → (∀ a, answers_if_ok (f a) l) → answers_if_ok (m ≫= f) l.
Proof.
  intros Hq Hf w. unfold mbind, M_bind. specialize (Hq w). destruct (m w) as [[a|e] w1]; simpl in *.
  - rewrite Hf. by rewrite Hq.
  - by rewrite app_nil_r.
Qed.
End Answers.

#[export] Hint Resolve total_bind total_catch total_ret total_when total_send_iopub total_status total_send_reply
  answers_one_send_reply : kern.

(** ** The pump joins adjacent stream events

    [coalesce] is the reference: neighbouring stream events of the same name
    become one. *)
Definition join_stream (m : ContextMessage) (l : list ContextMessage) : list ContextMessage :=
  match m, l with
  | Event (Stream n t), Event (Stream n' t') :: l' =>
      if decide (n' = n) then Event (Stream n (t +:+ t')) :: l' else m :: l
  | _, _ => m :: l
  end.

Definition coalesce (l : list ContextMessage) : list ContextMessage := foldr join_stream [] l.

Lemma string_app_assoc (a b c : string) : (a +:+ b) +:+ c = a +:+ (b +:+ c).
Proof. induction a as [|x a IH]; [done|]. exact (f_equal (String x) IH). Qed.

Lemma join_stream_assoc n t t' l :
  join_stream (Event (Stream n t)) (join_stream (Event (Stream n t')) l) = join_stream (Event (Stream n (t +:+ t'))) l.
Proof.
  destruct l as [|[[n'' t''| |]| |] l]; simpl; repeat (case_decide; simpl; subst; try done).
  by rewrite string_app_assoc.
Qed.

Lemma absorb_coalesce m rest m' rest' :
  absorb m rest = (m', rest') → coalesce (m :: rest) = m' :: coalesce rest' ∧ length rest' ≤ length rest.
Proof.
  revert m. induction rest as [|x rest IH]; intros m; simpl.
  { destruct m as [[]| |]; intros; simplify_eq/=; auto. }
  destruct m as [[n t| |]| |]; intros E; simplify_eq/=; [|auto..].
  destruct x as [[n' t'| |]| |]; simplify_eq/=; [|auto..].
  case_decide; simplify_eq/=.
  - destruct (IH _ E) as [E' ?]. split; [|lia]. rewrite <- E'. simpl. apply join_stream_assoc.
  - split; [|done]. destruct (coalesce rest) as [|[[]| |] ?]; simpl;
      repeat (case_decide; simplify_eq/=; try done).
Qed.

Lemma coalesce_join_app m k l : coalesce (join_stream m k ++ l) = join_stream m (coalesce (k ++ l)).
Proof.
  destruct m as [[n t| |]| |]; try done. destruct k as [|[[n' t'| |]| |] k]; try done. simpl.
  case_decide; subst; [|done]. exact (eq_sym (join_stream_assoc n t t' (coalesce (k ++ l)))).
Qed.

Lemma coalesce_coalesce_app l l' : coalesce (coalesce l ++ l') = coalesce (l ++ l').
Proof.
  induction l as [|m l IH]; simpl; [done|]. fold (coalesce l). rewrite coalesce_join_app.
  unfold coalesce in *. simpl. by rewrite IH.
Qed.

Lemma coalesce_app_r l k k' : coalesce k = coalesce k' → coalesce (l ++ k) = coalesce (l ++ k').
Proof. unfold coalesce. rewrite !foldr_app. by intros ->. Qed.

Lemma coalesce_batches batches : coalesce (concat (map coalesce batches)) = coalesce (concat batches).
Proof.
  induction batches as [|b bs IH]; simpl; [done|].
  rewrite coalesce_coalesce_app. by apply coalesce_app_r.
Qed.

Section Pump.
Context `{WireExt} (ks : KernelServices).

Lemma for_each_app {A} (f : A → M unit) l l' w : for_each f (l ++ l') w = (for_each f l ;;; for_each f l') w.
Proof.
  revert w. induction l as [|a l IH]; intros w; simpl; [done|].
  unfold mbind, M_bind in *. destruct (f a w) as [[[]|e] w']; [|done]. by rewrite IH.
Qed.

Lemma pump_batch_spec req silent stdin fuel batch w :
  length batch ≤ fuel →
  pump_batch ks fuel req silent stdin batch w = for_each (handle_context_message ks req silent stdin) (coalesce batch) w.
Proof.
  revert batch w. induction fuel as [|f IH]; intros [|m rest] w Hlen; cbn [length pump_batch] in *; try done; try lia.
  destruct (absorb m rest) as [m' rest'] eqn:E. destruct (absorb_coalesce _ _ _ _ E) as [Ec Hl].
  rewrite Ec. cbn [for_each].
  unfold mbind, M_bind. destruct (handle_context_message _ _ _ _ m' w) as [[[]|e] w']; [|done].
  apply IH. lia.
Qed.

Lemma pump_spec req silent stdin batches w :
  pump ks req silent stdin batches w =
    for_each (handle_context_message ks req silent stdin) (concat (map coalesce batches)) w.
Proof.
  unfold pump. revert w. induction batches as [|b bs IH]; intros w; simpl; [done|].
  rewrite for_each_app. unfold mbind, M_bind. rewrite pump_batch_spec by done.
  destruct (for_each _ (coalesce b) w) as [[[]|e] w']; [apply IH|done].
Qed.

(** What handling one message shows. *)
Definition prompt_sent (ends : InputEnd) : bool :=
  match ends with
  | InputCancelled sent | InputPeerClosed sent _ => sent
  | InputSendFailed _ => false
  | InputReplied _ | InputDropped => true
  end.

Definition event_obs (req : Message) (silent : bool) (stdin : option bytes) (m : ContextMessage) : list Obs :=
  match m with
  | Event (Stream n t) => if silent then [] else [OPub (header req) "stream" (Obj [("name", Str n); ("text", Str t)])]
  | Event (Display e _) => if silent then [] else [OPub (header req) (display_message e).1 (display_message e).2]
  | Event (EvMessage mt c _ _ _) => if silent then [] else [OPub (header req) mt c]
  | Flush => []
  | Input prompt password ends =>
      match stdin with
      | Some i => if prompt_sent ends then [OPrompt i (header req) (Obj [("prompt", Str prompt); ("password", Bool password)])] else []
      | None => []
      end
  end.

(** How [Stdin::request] ends. *)
Definition input_result (ends : InputEnd) : Result string :=
  match ends with
  | InputCancelled _ => Err error_interrupted
  | InputPeerClosed _ e => Err (error_context e "waiting for stdin")
  | InputSendFailed e => Err e
  | InputReplied value => Ok value
  | InputDropped => Err (from_recv_error "channel closed")
  end.

Lemma stdin_request_run `{!JsonTotal} i p prompt password ends w :
  ∃ w', emits_at w (stdin_request ks i p prompt password ends) (input_result ends)
          (event_obs p false (Some i) (Input prompt password ends)) w' ∧
    pending w' = delete (uuid_v4 (tick w)) (pending w) ∧ failures w' = failures w.
Proof.
  unfold stdin_request, new_message, encode_message, pending_insert, pending_remove, next_tick, when, emit, throw, lift, catch,
    emits_at, mbind, M_bind, mret, M_ret. simpl.
  destruct (encode_total (ks_session ks) (session_message (ks_session ks) (tick w) "input_request"
    (Obj [("prompt", Str prompt); ("password", Bool password)]) (Some p))) as [f Ef].
  destruct ends as [[]|[]| | |]; simpl; rewrite ?Ef; simpl; (eexists; split; [split; [reflexivity|]|]);
    unfold obs; simpl; rewrite ?map_app, ?protocol_app, ?app_nil_r; split_and!; try done;
    by rewrite delete_insert_eq.
Qed.

Lemma emits_publish_event `{!JsonTotal} req e silent stdin :
  emits (publish_event ks req e silent) (event_obs req silent stdin (Event e)) tt.
Proof.
  unfold publish_event. destruct silent; [destruct e; apply emits_ret|].
  destruct e as [n t|ev bufs|mt c md i bufs]; simpl; [apply emits_send_iopub| |].
  all: intros w; unfold new_message, publish, encode_message, lift, emit, next_tick, emits_at, mbind, M_bind, mret, M_ret; simpl.
  all: edestruct (encode_total (ks_session ks)) as [f ->]; simpl; eexists; (split; [done|]);
    unfold obs; simpl; by rewrite map_app, protocol_app.
Qed.

Lemma emits_handle_context_message `{!JsonTotal} req silent stdin m :
  emits (handle_context_message ks req silent stdin m) (event_obs req silent stdin m) tt.
Proof.
  destruct m as [e| |prompt password ends]; [apply emits_publish_event|apply emits_ret|].
  destruct stdin as [i|]; [|apply emits_ret]. intros w.
  destruct (stdin_request_run i req prompt password ends w) as (w' & Hw & _).
  exists w'. simpl. eapply emits_at_list; [|eapply emits_at_bind; [by apply emits_at_catch | apply (emits_at_ret _ (Ok tt))]].
  by rewrite app_nil_r.
Qed.

Lemma emits_for_each {A} (f : A → M unit) (o : A → list Obs) l :
  (∀ a, emits (f a) (o a) tt) → emits (for_each f l) (concat (map o l)) tt.
Proof.
  intros Hf. induction l as [|a l IH]; simpl; [apply emits_ret|]. eapply emits_bind; [apply Hf|done].
Qed.

(** The output of a run, as the pump shows it. *)
Definition run_obs (req : Message) (silent : bool) (stdin : option bytes) (batches : list (list ContextMessage)) : list Obs :=
  concat (map (event_obs req silent stdin) (concat (map coalesce batches))).

Lemma emits_pump `{!JsonTotal} req silent stdin batches :
  emits (pump ks req silent stdin batches) (run_obs req silent stdin batches) tt.
Proof.
  intros w. destruct (emits_for_each (handle_context_message ks req silent stdin) _ (concat (map coalesce batches))
    (emits_handle_context_message req silent stdin) w) as [w' Hw].
  exists w'. unfold emits_at in *. by rewrite pump_spec.
Qed.

Lemma emits_pump_task `{!JsonTotal} req silent stdin batches :
  emits (pump_task ks req silent stdin batches) (run_obs req silent stdin batches) (Ok tt).
Proof.
  rewrite <- (app_nil_r (run_obs _ _ _ _)).
  eapply emits_bind; [apply emits_catch, emits_pump|]. apply (emits_bind_nil (mret tt) _ tt); apply emits_ret.
Qed.

Lemma run_obs_flush req silent stdin batches : run_obs req silent stdin (batches ++ [[Flush]]) = run_obs req silent stdin batches.
Proof. unfold run_obs. rewrite map_app, concat_app, map_app, concat_app. apply app_nil_r. Qed.

Lemma emits_pump_and_flush `{!JsonTotal} req silent stdin batches :
  emits (pump_and_flush ks req silent stdin batches) (run_obs req silent stdin batches) (Ok tt).
Proof.
  rewrite <- run_obs_flush, <- (app_nil_r (run_obs _ _ _ _)).
  eapply emits_bind; [apply emits_pump_task | apply emits_ret].
Qed.

(** (stdin) an input request ends as its wait does: interrupted when the
    execution is cancelled first, with the peer's own error kind when the peer
    is lost, and with exactly the value of the reply otherwise; the client is
    prompted at most once, and the entry in the table of pending inputs is gone
    however the wait ended. *)
Theorem stdin_request_ends `{!JsonTotal} i p prompt password ends w :
  ∃ w', stdin_request ks i p prompt password ends w = (input_result ends, w') ∧
    pending w' = delete (uuid_v4 (tick w)) (pending w) ∧
    protocol (obs w') = protocol (obs w) ++
      (if prompt_sent ends then [OPrompt i (header p) (Obj [("prompt", Str prompt); ("password", Bool password)])] else []).
Proof.
  destruct (stdin_request_run i p prompt password ends w) as (w' & (Er & Eo & _) & Ep & _).
  exists w'. split_and!; [done..|]. rewrite Eo. f_equal. simpl. by destruct (prompt_sent ends).
Qed.

(** C28: (output order) whatever batches the pump receives a run's events in,
    it handles a sequence of messages that has the same joined form as the
    events themselves: batching never drops, duplicates or reorders output, and
    joins only neighbouring stream events of one name (never across a display, a
    message, an input or another stream). *)
Theorem pump_order req silent stdin batches w :
  ∃ handled, pump ks req silent stdin batches w = for_each (handle_context_message ks req silent stdin) handled w ∧
    coalesce handled = coalesce (concat batches).
Proof. eexists. split; [apply pump_spec | apply coalesce_batches]. Qed.
End Pump.
