(* ===== verification/Startup.v ===== *)
(** * Starting a kernel (src/src/connection.rs, src/src/engine.rs)

    The configuration from the environment, the connection file, and the start
    of [run_kernel_with_interrupter] up to its services.

    Reading a file, binding a socket and the decimal conversion of [f64] are
    arguments.  A connection file whose object repeats a key is not modelled:
    its value has the key once. *)

From Stdlib Require Import ZArith.
From stdpp Require Import base gmap sets list strings pretty.
From Corelib.Floats Require Import SpecFloat.
From S2P Require Import Prelude Json Errors Wire Language Services.

(** ** Numbers from text *)

Definition digit_of (c : Ascii.ascii) : option Z :=
  let n := Z.of_nat (Ascii.nat_of_ascii c) in if (48 <=? n)%Z && (n <=? 57)%Z then Some (n - 48)%Z else None.

Fixpoint parse_decimal (acc : Z) (s : string) : option Z :=
  match s with
  | EmptyString => Some acc
  | String c s' => digit_of c ≫= λ d, parse_decimal (10 * acc + d) s'
  end.

(** [str::parse::<usize>]. *)
Definition parse_usize (s : string) : option Z :=
  let digits := match s with String c s' => if decide (c = Ascii.ascii_of_nat 43) then s' else s | _ => s end in
  if decide (digits = EmptyString) then None
  else opt_filter is_u64 (parse_decimal 0 digits).

(** [Duration::from_secs_f64], in nanoseconds, rounded to the nearest, ties to
    even; [None]: it panics, as it does for negative numbers, numbers that are
    not finite and those that round to 2^64 seconds or more. *)
Definition round_div (n d : Z) : Z :=
  let q := (n / d)%Z in let r := (n `mod` d)%Z in
  if (2 * r <? d)%Z then q else if (2 * r =? d)%Z then (if Z.even q then q else q + 1)%Z else (q + 1)%Z.

Definition duration_from_secs_f64 (f : spec_float) : option Z :=
  match f with
  | S754_zero _ => Some 0%Z
  | S754_finite false m e =>
      let nanos := (if 0 <=? e then Z.pos m * 10 ^ 9 * 2 ^ e else round_div (Z.pos m * 10 ^ 9) (2 ^ (- e)))%Z in
      if (nanos <? u64_mod * 10 ^ 9)%Z then Some nanos else None
  | _ => None
  end.

Definition f64_ge_zero (f : spec_float) : bool :=
  match f64_partial_cmp f f64_zero with Some Gt | Some Eq => true | _ => false end.

(** ** [KernelConfig] *)

Record KernelConfig := MkConfig { iopub_capacity : Z; hold_timeout : Z }.

Section Config.
Context (parse_f64 : string → option spec_float) (env : string → option string).

Definition config_capacity : Z := (Z.max (unwrap_or (env "KERNMINI_IOPUB_QMAX" ≫= parse_usize) 10000) 1)%Z.

Definition config_hold_seconds : spec_float :=
  unwrap_or (opt_filter (λ f, f64_is_finite f && f64_ge_zero f) (env "KERNMINI_HOLD_TIMEOUT" ≫= parse_f64)) (f64_of_Z 3600).

Definition from_env : option KernelConfig :=
  timeout ← duration_from_secs_f64 config_hold_seconds; Some (MkConfig config_capacity timeout).
End Config.

Lemma parse_decimal_nonneg acc s n : (0 ≤ acc)%Z → parse_decimal acc s = Some n → (0 ≤ n)%Z.
Proof.
  revert acc. induction s as [|c s IH]; intros acc Ha; simpl; [by intros [= <-]|].
  unfold digit_of. case_match eqn:Hd; [|done]. simpl. apply IH. apply andb_prop in Hd as [H1%Z.leb_le _]. lia.
Qed.

Lemma round_div_nearest n d : (0 < d)%Z → (2 * Z.abs (round_div n d * d - n) ≤ d)%Z.
Proof.
  intros Hd. pose proof (Z.div_mod n d ltac:(lia)). pose proof (Z.mod_pos_bound n d Hd). unfold round_div. repeat case_match; nia.
Qed.

Lemma round_div_reaches n d t : (0 < d)%Z → Z.even t = true → (t ≤ round_div n d)%Z ↔ ((2 * t - 1) * d ≤ 2 * n)%Z.
Proof.
  intros Hd Ht. pose proof (Z.div_mod n d ltac:(lia)) as En. pose proof (Z.mod_pos_bound n d Hd). unfold round_div.
  set (q := (n / d)%Z) in *. set (r := (n `mod` d)%Z) in *.
  destruct (Z.ltb_spec (2 * r) d); [|destruct (Z.eqb_spec (2 * r) d); [destruct (Z.even q) eqn:Eq|]].
  - split; [nia|]. intros. assert (q ≠ t - 1)%Z by nia. nia.
  - assert (q ≠ t - 1)%Z. { intros ->. rewrite Z.even_sub, Ht in Eq. done. } split; nia.
  - split; nia.
  - split; nia.
Qed.

(** ** What a timeout in seconds means

    [m * 2 ^ e] seconds in nanoseconds is [num / den]. *)
Definition num (m : positive) (e : Z) : Z := (Z.pos m * 10 ^ 9 * 2 ^ Z.max 0 e)%Z.
Definition den (e : Z) : Z := (2 ^ Z.max 0 (- e))%Z.

(** [t] nanoseconds are at most half a nanosecond from [m * 2 ^ e] seconds. *)
Definition nearest (m : positive) (e t : Z) : Prop := (2 * Z.abs (t * den e - num m e) ≤ den e)%Z.

(** [m * 2 ^ e] seconds are at least 2^64 seconds less half a nanosecond, so that
    they round to more than a [Duration] holds. *)
Definition too_long (m : positive) (e : Z) : Prop := ((2 * (u64_mod * 10 ^ 9) - 1) * den e ≤ 2 * num m e)%Z.

(** The hold timeout, from the number the environment gives. *)
Definition timeout_for (given : option spec_float) (t : Z) : Prop :=
  match given with
  | Some (S754_zero _) => t = 0%Z
  | Some (S754_finite false m e) => nearest m e t
  | _ => t = (3600 * 10 ^ 9)%Z
  end.

Lemma duration_cases m e :
  match duration_from_secs_f64 (S754_finite false m e) with
  | Some t => (0 ≤ t < u64_mod * 10 ^ 9)%Z ∧ nearest m e t ∧ ¬ too_long m e
  | None => too_long m e
  end.
Proof.
  cbn [duration_from_secs_f64]. unfold nearest, too_long, num, den. destruct (Z.leb_spec 0 e) as [He|He].
  - pose proof (Z.pow_pos_nonneg 2 e ltac:(lia) He). rewrite (Z.max_r 0 e), (Z.max_l 0 (- e)) by lia.
    destruct (Z.ltb_spec (Z.pos m * 10 ^ 9 * 2 ^ e) (u64_mod * 10 ^ 9)); lia.
  - pose proof (Z.pow_pos_nonneg 2 (- e) ltac:(lia) ltac:(lia)). rewrite (Z.max_l 0 e), (Z.max_r 0 (- e)) by lia.
    change (2 ^ 0)%Z with 1%Z. rewrite Z.mul_1_r.
    pose proof (round_div_nearest (Z.pos m * 10 ^ 9) (2 ^ - e)). pose proof (round_div_reaches (Z.pos m * 10 ^ 9) (2 ^ - e) (u64_mod * 10 ^ 9)) as Hr.
    destruct (Z.ltb_spec (round_div (Z.pos m * 10 ^ 9) (2 ^ - e)) (u64_mod * 10 ^ 9)); [|tauto].
    split_and!; [|done|tauto|intros ?; apply Hr in H2; [lia|done..]].
    destruct (Z.le_gt_cases 0 (round_div (Z.pos m * 10 ^ 9) (2 ^ - e))); [done|nia].
Qed.

Lemma duration_default : duration_from_secs_f64 (f64_of_Z 3600) = Some (3600 * 10 ^ 9)%Z.
Proof. by vm_compute. Qed.

Lemma config_capacity_bounds env : (1 ≤ config_capacity env < u64_mod)%Z.
Proof.
  unfold config_capacity. destruct (env "KERNMINI_IOPUB_QMAX") as [s|]; simpl; [|done]. unfold parse_usize.
  case_decide; simpl; [done|]. destruct (parse_decimal 0 _) as [n|]; simpl; [|done].
  destruct (is_u64 n) eqn:En; simpl; [|done]. unfold is_u64 in En. apply andb_prop in En as [_ ?%Z.ltb_lt]. unfold u64_mod in *. lia.
Qed.

(** C40: (the configuration) the output channel has the capacity the environment
    gives, at least 1, or 10,000, and it fits a [usize].  The hold timeout is the
    number of seconds the environment gives, to the nearest nanosecond, or one
    hour when it gives none that is finite and not negative, and it fits a
    [Duration].  Reading the configuration panics, and the kernel does not
    start, exactly when the timeout given rounds to 2^64 seconds or more. *)
Theorem config_bounds (parse_f64 : string → option spec_float) (env : string → option string) :
  let given := env "KERNMINI_HOLD_TIMEOUT" ≫= parse_f64 in
  match from_env parse_f64 env with
  | Some c =>
      iopub_capacity c = match env "KERNMINI_IOPUB_QMAX" ≫= parse_usize with Some n => Z.max n 1 | None => 10000%Z end ∧
      (1 ≤ iopub_capacity c < u64_mod ∧ 0 ≤ hold_timeout c < u64_mod * 10 ^ 9)%Z ∧ timeout_for given (hold_timeout c) ∧
      (∀ m e, given = Some (S754_finite false m e) → ¬ too_long m e)
  | None => ∃ m e, given = Some (S754_finite false m e) ∧ too_long m e
  end.
Proof.
  cbv zeta. pose proof (config_capacity_bounds env) as Hcap.
  assert (config_capacity env = match env "KERNMINI_IOPUB_QMAX" ≫= parse_usize with Some n => Z.max n 1 | None => 10000 end)%Z as Ec.
  { unfold config_capacity. by destruct (env "KERNMINI_IOPUB_QMAX" ≫= parse_usize). }
  assert (∀ t, 0 ≤ t < u64_mod * 10 ^ 9 → 1 ≤ config_capacity env < u64_mod ∧ 0 ≤ t < u64_mod * 10 ^ 9)%Z as Hb by done.
  unfold from_env, config_hold_seconds. destruct (env "KERNMINI_HOLD_TIMEOUT" ≫= parse_f64) as [f|]; cbn [opt_filter].
  2: { cbn [unwrap_or]; rewrite duration_default. refine (conj Ec (conj (Hb _ _) (conj _ _))); [done|done|done]. }
  destruct f as [z|z| |[] m e]; cbn [f64_is_finite andb unwrap_or].
  1: change (f64_ge_zero (S754_zero z)) with true; refine (conj Ec (conj (Hb _ _) (conj _ _))); [done|done|done].
  1-3: cbn [f64_ge_zero f64_partial_cmp f64_zero SFcompare unwrap_or]; rewrite duration_default; refine (conj Ec (conj (Hb _ _) (conj _ _))); [done|done|done].
  change (f64_ge_zero (S754_finite false m e)) with true. cbn [unwrap_or].
  pose proof (duration_cases m e) as Hd. destruct (duration_from_secs_f64 (S754_finite false m e)) as [t|].
  - destruct Hd as (Ht & Hn & Hl). refine (conj Ec (conj (Hb _ _) (conj _ _))); [done|done|intros ?? [= <- <-]; done].
  - by exists m, e.
Qed.

(** ** [ConnectionInfo] *)

Record ConnectionInfo := MkConnection {
  transport : string; ip : string; shell_port : Z; iopub_port : Z; stdin_port : Z; control_port : Z; hb_port : Z;
  conn_key : string; signature_scheme : string }.

Definition as_u16 (v : Value) : option Z := opt_filter (λ n, (n <? 2 ^ 16)%Z) (as_u64 v).

(** The derived [Deserialize]: an object with the fields, [key] optional, or the
    array of the nine values. *)
Definition deserialize_connection (v : Value) : option ConnectionInfo :=
  let fields :=
    match v with
    | Obj m => Some (λ k (_ : nat), map_get m k)
    | Arr l => if decide (length l = 9) then Some (λ _ i, l !! i) else None
    | _ => None
    end in
  get ← fields;
  let str k i := get k i ≫= as_str in
  let port k i := get k i ≫= as_u16 in
  t ← str "transport" 0; a ← str "ip" 1;
  p1 ← port "shell_port" 2; p2 ← port "iopub_port" 3; p3 ← port "stdin_port" 4; p4 ← port "control_port" 5; p5 ← port "hb_port" 6;
  k ← (match get "key" 7 with None => Some EmptyString | Some v => as_str v end);
  s ← str "signature_scheme" 8;
  Some (MkConnection t a p1 p2 p3 p4 p5 k s).

Section Connection.
Context `{WireExt}.
(** [std::fs::read], what serde's error says of a value of another shape, and
    [TcpListener::bind]. *)
Context (read_file : string → Result bytes) (shape_error : Value → string) (bind : string → Result unit).

(** [ConnectionInfo::read]. *)
Definition connection_read (file : string) : Result ConnectionInfo :=
  data ← map_err (λ e, error_context e ("reading " +:+ file)) (read_file file);
  map_err (λ e, error_context e ("parsing " +:+ file))
    (match from_slice data with
     | Err e => Err (from_serde e)
     | Ok v => ok_or (from_serde (shape_error v)) (deserialize_connection v)
     end).

(** [ConnectionInfo::address]. *)
Definition address (c : ConnectionInfo) (port : Z) : Result string :=
  if negb (bool_decide (transport c = "tcp")) then Err (error_new Unavailable "only TCP connection files are supported")
  else if negb (bool_decide (signature_scheme c = "hmac-sha256")) then
    Err (error_new Unavailable ("unsupported signature scheme " +:+ signature_scheme c))
  else Ok (ip c +:+ ":" +:+ pretty (Z.to_N port)).

(** [TcpListener::bind(connection.address(port)?).await?], for one port after the
    other; with the addresses bound so far. *)
Fixpoint bind_ports (c : ConnectionInfo) (ports : list Z) (bound : list string) : Result unit * list string :=
  match ports with
  | [] => (Ok tt, bound)
  | p :: ports' =>
      match address c p with
      | Err e => (Err e, bound)
      | Ok a => match bind a with Err e => (Err e, bound) | Ok _ => bind_ports c ports' (bound ++ [a]) end
      end
  end.

Definition connection_content (c : ConnectionInfo) : Value :=
  Obj [("shell_port", jnat (shell_port c)); ("iopub_port", jnat (iopub_port c)); ("stdin_port", jnat (stdin_port c));
       ("control_port", jnat (control_port c)); ("hb_port", jnat (hb_port c))].

(** The start of [run_kernel_with_interrupter]: the services of the kernel, the
    signatures seen (none), and the addresses bound.  [n] is the draw of the
    session's id. *)
Definition start_kernel (config : KernelConfig) (file : string) (supports_children : bool) (n : nat) :
    Result (KernelServices * gset bytes) * list string :=
  match connection_read file with
  | Err e => (Err e, [])
  | Ok c =>
      let '(session, seen) := session_new (as_bytes (conn_key c)) "kernel" n in
      match bind_ports c [shell_port c; control_port c; iopub_port c; hb_port c; stdin_port c] [] with
      | (Err e, bound) => (Err e, bound)
      | (Ok _, bound) => (Ok (MkServices session (connection_content c) supports_children (hold_timeout config), seen), bound)
      end
  end.

Lemma as_u16_range v p : wf_value v = true → as_u16 v = Some p → (0 ≤ p < 2 ^ 16)%Z.
Proof.
  destruct v as [| |[n|n|f]| | |]; try done. unfold as_u16. simpl. unfold is_u64. intros [Hn%Z.leb_le _]%andb_prop.
  destruct (Z.ltb_spec n (2 ^ 16)); [|done]. intros [= <-]. lia.
Qed.

Lemma wf_array_get l i v : wf_value (Arr l) = true → l !! i = Some v → wf_value v = true.
Proof. simpl. rewrite forallb_forall. intros Hl Hi. apply Hl, list_elem_of_In. by eapply list_elem_of_lookup_2. Qed.

(** The fields of a connection, wherever its value has them. *)
Lemma deserialize_ports v c :
  wf_value v = true → deserialize_connection v = Some c →
  Forall (λ p, 0 ≤ p < 2 ^ 16)%Z [shell_port c; control_port c; iopub_port c; hb_port c; stdin_port c].
Proof.
  intros Hwf. unfold deserialize_connection. intros Hd.
  assert (∃ get : string → nat → option Value, (∀ k i x, get k i = Some x → wf_value x = true) ∧
    (let port k i := get k i ≫= as_u16 in
     port "shell_port" 2 = Some (shell_port c) ∧ port "control_port" 5 = Some (control_port c) ∧ port "iopub_port" 3 = Some (iopub_port c) ∧
     port "hb_port" 6 = Some (hb_port c) ∧ port "stdin_port" 4 = Some (stdin_port c))) as (get & Hget & Hp).
  { destruct v as [| | | |l|m]; try done.
    - case_decide; [|done]. exists (λ _ i, l !! i). split; [by intros; eapply wf_array_get|].
      repeat (apply bind_Some in Hd as (? & ? & Hd)). simplify_eq. done.
    - exists (λ k _, map_get m k). split; [intros k _ x; by apply map_get_wf|].
      repeat (apply bind_Some in Hd as (? & ? & Hd)). simplify_eq. done. }
  cbv zeta in Hp. destruct Hp as (H1 & H2 & H3 & H4 & H5).
  repeat constructor; match goal with Hx : get _ _ ≫= _ = Some ?p |- context [?p] =>
    apply bind_Some in Hx as (x & Hg%Hget & Hx); eapply as_u16_range in Hx; eauto; lia end.
Qed.

Definition supported (c : ConnectionInfo) : Prop := transport c = "tcp" ∧ signature_scheme c = "hmac-sha256".

Definition endpoint (c : ConnectionInfo) (port : Z) : string := ip c +:+ ":" +:+ pretty (Z.to_N port).

Lemma address_spec c port : match address c port with Ok a => supported c ∧ a = endpoint c port | Err e => ¬ supported c ∧ error_kind e = Unavailable end.
Proof. unfold address, supported. repeat case_bool_decide; simpl; naive_solver. Qed.

Lemma bind_ports_spec c ports bound :
  match bind_ports c ports bound with
  | (Ok _, b) => b = bound ++ map (endpoint c) ports ∧ (ports ≠ [] → supported c)
  | (Err e, b) => ∃ k, k < length ports ∧ b = bound ++ map (endpoint c) (take k ports) ∧ (¬ supported c → k = 0 ∧ error_kind e = Unavailable)
  end.
Proof.
  revert bound. induction ports as [|p ports IH]; intros bound; simpl; [by rewrite app_nil_r|].
  pose proof (address_spec c p) as Ha. destruct (address c p) as [a|e].
  - destruct Ha as [Hs ->]. destruct (bind (endpoint c p)) as [[]|e].
    + specialize (IH (bound ++ [endpoint c p])). destruct (bind_ports c ports _) as [[[]|e] b].
      * destruct IH as [-> _]. rewrite <- app_assoc. done.
      * destruct IH as (k & Hk & -> & Hn). exists (S k). split_and!; [lia|by rewrite <- app_assoc|done].
    + exists 0. split_and!; [lia|by rewrite app_nil_r|done].
  - destruct Ha as [Hs Hk]. exists 0. split_and!; [lia|by rewrite app_nil_r|done].
Qed.

(** (starting) a kernel starts only from a connection file that can be read
    and has all its fields, over TCP with HMAC-SHA256; it then listens for
    shell, control, IOPub, heartbeat and stdin at the file's address and
    16-bit ports, in this order, signs with the file's key, has seen no
    signature, and reports the file's ports.  Otherwise it fails before the
    last of them is bound, and binds none if the transport or the signature
    scheme is another. *)
Theorem start_kernel_listens config file supports n :
  (∀ data v, from_slice data = Ok v → wf_value v = true) →
  match start_kernel config file supports n with
  | (Ok (ks, seen), bound) =>
      ∃ c, connection_read file = Ok c ∧ supported c ∧
        bound = map (endpoint c) [shell_port c; control_port c; iopub_port c; hb_port c; stdin_port c] ∧
        Forall (λ p, 0 ≤ p < 2 ^ 16)%Z [shell_port c; control_port c; iopub_port c; hb_port c; stdin_port c] ∧
        key (ks_session ks) = as_bytes (conn_key c) ∧ seen = ∅ ∧ ks_connection ks = connection_content c
  | (Err e, bound) =>
      (connection_read file = Err e ∧ bound = []) ∨
      ∃ c, connection_read file = Ok c ∧ length bound < 5 ∧ (¬ supported c → bound = [] ∧ error_kind e = Unavailable)
  end.
Proof.
  intros Hjson. unfold start_kernel. destruct (connection_read file) as [c|e] eqn:Er; [|by left].
  pose proof (bind_ports_spec c [shell_port c; control_port c; iopub_port c; hb_port c; stdin_port c] []) as Hb.
  unfold session_new. destruct (bind_ports c _ []) as [[[]|e] bound].
  - destruct Hb as [-> Hs]. exists c. split_and!; try done; [by apply Hs|].
    unfold connection_read in Er. destruct (read_file file) as [data|]; [|done]. simpl in Er.
    destruct (from_slice data) as [v|] eqn:Ev; [|done]. destruct (deserialize_connection v) as [c'|] eqn:Ed; [|done].
    simpl in Er. simplify_eq. by eapply deserialize_ports; [eapply Hjson|].
  - destruct Hb as (k & Hk & -> & Hn). right. exists c. split_and!; [done| |].
    + rewrite app_nil_l, length_map, length_take. simpl in *. lia.
    + intros Hs. destruct (Hn Hs) as [-> ?]. done.
Qed.
End Connection.

(** A connection file, and a JSON reader that knows only it. *)
Definition demo_connection : Value :=
  Obj [("transport", Str "tcp"); ("ip", Str "127.0.0.1"); ("shell_port", jnat 5001); ("iopub_port", jnat 5002); ("stdin_port", jnat 5003);
       ("control_port", jnat 5004); ("hb_port", jnat 5005); ("key", Str "k"); ("signature_scheme", Str "hmac-sha256")].

Definition demo_file_ext : WireExt := {|
  mac_state := @mac_state WireDemo.ext; mac_new := @mac_new WireDemo.ext; mac_update := @mac_update WireDemo.ext;
  mac_finalize := @mac_finalize WireDemo.ext; hex_encode := @hex_encode WireDemo.ext; to_vec_map := @to_vec_map WireDemo.ext;
  to_vec := @to_vec WireDemo.ext; from_slice_map := @from_slice_map WireDemo.ext; from_slice _ := Ok demo_connection;
  uuid_v4 := @uuid_v4 WireDemo.ext; rfc3339_now := @rfc3339_now WireDemo.ext |}.

Definition demo_start : Result (KernelServices * gset bytes) * list string :=
  @start_kernel demo_file_ext (λ _, Ok []) (λ _, "shape") (λ _, Ok tt) (MkConfig 1 1) "c.json" true 0.

Lemma start_kernel_listens_witness :
  is_ok demo_start.1 = true ∧
  ∃ c, supported c ∧ demo_start.2 = map (endpoint c) [shell_port c; control_port c; iopub_port c; hb_port c; stdin_port c].
Proof.
  assert (is_ok demo_start.1 = true) as Hok by (vm_compute; reflexivity). split; [exact Hok|].
  pose proof (@start_kernel_listens demo_file_ext (λ _, Ok []) (λ _, "shape") (λ _, Ok tt) (MkConfig 1 1) "c.json" true 0) as Hs.
  fold demo_start in Hs. destruct demo_start as [[[ks seen]|e] bound]; [|discriminate Hok].
  destruct Hs as (c & _ & Hc & Eb & _); [intros _ v [= <-]; vm_compute; reflexivity|].
  exists c. split; [exact Hc | exact Eb].
Defined.
