(* ===== verification/Queue.v ===== *)
(** * The execution queue (src/src/engine.rs, [QueueItem] and [pop_runnable])

    Queued requests ordered by priority, then by arrival.  The queue is a
    [std::collections::BinaryHeap]; its contract is [heap_pop], which takes a
    greatest element out of the list of its elements.  [heap_pop_perm] shows
    that the layout of that list does not matter, so heaps are compared up to
    permutation. *)

From Stdlib Require Import ZArith.
From stdpp Require Import base sets list strings sorting.
From Corelib.Floats Require Import SpecFloat.
From S2P Require Import Prelude Json Errors Wire Language Services.

Record QueueItem := MkItem { priority : spec_float; order : Z; inbound : Inbound }.

Record Held := MkHeld { held_item : QueueItem; deadline : Z }.

(** [Ord::cmp]: the greater priority, then the smaller arrival number. *)
Definition item_cmp (a b : QueueItem) : comparison :=
  match unwrap_or (f64_partial_cmp (priority a) (priority b)) Eq with
  | Eq => Z.compare (order b) (order a)
  | c => c
  end.

Definition is_execute (i : Inbound) : bool := bool_decide (msg_type (in_message i) = "execute_request").

(** ** The heap *)

Fixpoint heap_pop (l : list QueueItem) : option (QueueItem * list QueueItem) :=
  match l with
  | [] => None
  | x :: l' =>
      match heap_pop l' with
      | None => Some (x, [])
      | Some (y, r) => match item_cmp y x with Gt => Some (y, x :: r) | _ => Some (x, l') end
      end
  end.

(** ** [pop_runnable] *)

Definition above_hold (held : option Held) (item : QueueItem) : bool :=
  match held with None => true | Some hold => f64_gt (priority item) (priority (held_item hold)) end.

Definition runnable (execution_active : bool) (held : option Held) (item : QueueItem) : bool :=
  negb (is_execute (inbound item)) || (negb execution_active && above_hold held item).

(** The loop: each round pops one item, so the size of the queue is enough fuel. *)
Fixpoint pop_loop (fuel : nat) (execution_active : bool) (held : option Held) (queue parked : list QueueItem) :
    option QueueItem * list QueueItem :=
  match fuel with
  | 0 => (None, queue ++ parked)
  | S f =>
      match heap_pop queue with
      | None => (None, queue ++ parked)
      | Some (item, queue') =>
          if runnable execution_active held item then (Some item, queue' ++ parked)
          else pop_loop f execution_active held queue' (parked ++ [item])
      end
  end.

Definition pop_runnable (queue : list QueueItem) (execution_active : bool) (held : option Held) :
    option QueueItem * list QueueItem :=
  pop_loop (length queue) execution_active held queue [].

(** [while let Some(item) = queue.pop()]. *)
Fixpoint drain_loop (fuel : nat) (queue : list QueueItem) : list QueueItem :=
  match fuel with
  | 0 => []
  | S f => match heap_pop queue with None => [] | Some (x, q) => x :: drain_loop f q end
  end.

Definition drain (queue : list QueueItem) : list QueueItem := drain_loop (length queue) queue.

(** ** The order

    On priorities that are not NaN the comparison is lexicographic on integers. *)
Definition f64_rank (f : spec_float) : Z * Z * Z :=
  match f with
  | S754_infinity true => (-2, 0, 0)
  | S754_finite true m e => (-1, -e, Zneg m)
  | S754_zero _ => (0, 0, 0)
  | S754_finite false m e => (1, e, Zpos m)
  | S754_infinity false => (2, 0, 0)
  | S754_nan => (0, 0, 0)
  end%Z.

Definition rank_lt (a b : Z * Z * Z) : Prop :=
  let '(a1, a2, a3) := a in let '(b1, b2, b3) := b in
  (a1 < b1 ∨ a1 = b1 ∧ (a2 < b2 ∨ a2 = b2 ∧ a3 < b3))%Z.

(** [a] comes out of the queue after [b]. *)
Definition item_lt (a b : QueueItem) : Prop :=
  rank_lt (f64_rank (priority a)) (f64_rank (priority b)) ∨
  f64_rank (priority a) = f64_rank (priority b) ∧ (order b < order a)%Z.

Definition wf_item (i : QueueItem) : Prop := f64_is_nan (priority i) = false.

Definition wf_queue (q : list QueueItem) : Prop := Forall wf_item q ∧ NoDup (map order q).

Lemma rank_lt_irrefl a : ¬ rank_lt a a.
Proof. destruct a as [[]]. simpl. lia. Qed.

Lemma rank_lt_trans a b c : rank_lt a b → rank_lt b c → rank_lt a c.
Proof. destruct a as [[]], b as [[]], c as [[]]. simpl. lia. Qed.

Lemma rank_total a b : rank_lt a b ∨ a = b ∨ rank_lt b a.
Proof.
  destruct a as [[a1 a2] a3], b as [[b1 b2] b3]. simpl.
  destruct (decide (a1 = b1)), (decide (a2 = b2)), (decide (a3 = b3)); subst; auto; lia.
Qed.

Lemma f64_partial_cmp_spec a b :
  f64_is_nan a = false → f64_is_nan b = false →
  ∃ c, f64_partial_cmp a b = Some c ∧
    match c with
    | Lt => rank_lt (f64_rank a) (f64_rank b)
    | Eq => f64_rank a = f64_rank b
    | Gt => rank_lt (f64_rank b) (f64_rank a)
    end.
Proof.
  intros Ha Hb. unfold f64_partial_cmp.
  destruct a as [[]|[]| |[] m e], b as [[]|[]| |[] m' e']; try done; simpl.
  all: try (eexists; split; [reflexivity|]; simpl; by (lia || auto)).
  all: change (Pos.compare_cont Eq m m') with (Pos.compare m m').
  all: destruct (Z.compare_spec e e'), (Pos.compare_spec m m'); subst; simpl; eexists; (split; [reflexivity|]); simpl.
  all: try lia; try done.
Qed.

Lemma f64_gt_spec a b :
  f64_is_nan a = false → f64_is_nan b = false →
  f64_gt a b = true ↔ rank_lt (f64_rank b) (f64_rank a).
Proof.
  intros Ha Hb. unfold f64_gt. destruct (f64_partial_cmp_spec a b Ha Hb) as (c & -> & Hc).
  destruct c; split; intros; try done.
  - rewrite Hc in *. by destruct (rank_lt_irrefl (f64_rank b)).
  - exfalso. eapply rank_lt_irrefl, rank_lt_trans; eauto.
Qed.

Lemma item_cmp_spec a b :
  wf_item a → wf_item b →
  match item_cmp a b with
  | Lt => item_lt a b
  | Eq => f64_rank (priority a) = f64_rank (priority b) ∧ order a = order b
  | Gt => item_lt b a
  end.
Proof.
  intros Ha Hb. unfold item_cmp, item_lt.
  destruct (f64_partial_cmp_spec _ _ Ha Hb) as (c & -> & Hc). simpl.
  destruct c; auto. destruct (Z.compare_spec (order b) (order a)); auto.
Qed.

Lemma item_lt_irrefl a : ¬ item_lt a a.
Proof. intros [?%rank_lt_irrefl|[_ ?]]; [done|lia]. Qed.

Lemma item_lt_trans a b c : item_lt a b → item_lt b c → item_lt a c.
Proof.
  unfold item_lt. intros [H1|[E1 H1]] [H2|[E2 H2]].
  - left. by eapply rank_lt_trans.
  - left. by rewrite <- E2.
  - left. by rewrite E1.
  - right. split; [congruence|lia].
Qed.

Lemma item_lt_total a b : order a ≠ order b → item_lt a b ∨ item_lt b a.
Proof.
  intros Ho. unfold item_lt. destruct (rank_total (f64_rank (priority a)) (f64_rank (priority b))) as [|[E|]]; auto.
  rewrite E. destruct (Z.lt_total (order a) (order b)) as [|[|]]; [right|done|left]; auto.
Qed.

Lemma item_cmp_Gt a b : wf_item a → wf_item b → item_cmp a b = Gt ↔ item_lt b a.
Proof.
  intros Ha Hb. pose proof (item_cmp_spec a b Ha Hb) as Hc. destruct (item_cmp a b); split; intros; try done.
  - destruct Hc as [E1 E2], H as [H|[_ H]]; [|lia]. rewrite E1 in H. by destruct (rank_lt_irrefl (f64_rank (priority b))).
  - exfalso. eapply item_lt_irrefl, item_lt_trans; eauto.
Qed.

#[export] Instance item_lt_dec a b : Decision (item_lt a b).
Proof.
  unfold item_lt. destruct (f64_rank (priority a)) as [[a1 a2] a3], (f64_rank (priority b)) as [[b1 b2] b3].
  unfold rank_lt. apply _.
Defined.

(** ** Lemmas on the heap *)

Lemma wf_queue_perm q q' : q ≡ₚ q' → wf_queue q → wf_queue q'.
Proof. intros E [H1 H2]. split; [by rewrite <- E | by rewrite <- E]. Qed.

#[export] Instance wf_queue_proper : Proper ((≡ₚ) ==> iff) wf_queue.
Proof. intros q q' E. split; [by apply wf_queue_perm | by apply wf_queue_perm]. Qed.

Lemma wf_queue_cons x q : wf_queue (x :: q) ↔ wf_item x ∧ order x ∉ map order q ∧ wf_queue q.
Proof. unfold wf_queue. simpl. rewrite Forall_cons, NoDup_cons. naive_solver. Qed.

Lemma wf_queue_app q q' : wf_queue (q ++ q') → wf_queue q ∧ wf_queue q'.
Proof. unfold wf_queue. rewrite map_app, Forall_app, NoDup_app. naive_solver. Qed.

Lemma wf_queue_ne x y q : wf_queue (x :: q) → y ∈ q → order x ≠ order y.
Proof.
  intros (_ & Hni & _)%wf_queue_cons Hy E. apply Hni. rewrite E. by apply list_elem_of_fmap_2.
Qed.

(** [heap_pop] takes out the greatest item and keeps the others. *)
Lemma heap_pop_spec q :
  wf_queue q →
  match heap_pop q with
  | None => q = []
  | Some (y, r) => q ≡ₚ y :: r ∧ ∀ z, z ∈ r → item_lt z y
  end.
Proof.
  induction q as [|x q IH]; simpl; intros Hwf; [done|].
  pose proof (proj1 (wf_queue_cons x q) Hwf) as (Hx & _ & Hq). specialize (IH Hq).
  destruct (heap_pop q) as [[y r]|]; simpl; [|subst; split; [done|set_solver]].
  destruct IH as [E Hmax]. assert (y ∈ q) as Hy by (rewrite E; left).
  assert (wf_item y) as Hwy by (destruct Hq as [Hq _]; rewrite Forall_forall in Hq; auto).
  pose proof (item_cmp_Gt y x Hwy Hx) as Hcmp. destruct (decide (item_lt x y)) as [Hlt|Hge].
  - rewrite (proj2 Hcmp Hlt). split; [rewrite E; constructor|].
    intros z [->|Hz]%elem_of_cons; auto.
  - assert (item_lt y x) as Hyx.
    { destruct (item_lt_total x y (wf_queue_ne x y q Hwf Hy)); done. }
    assert (∀ z, z ∈ q → item_lt z x) as Hall.
    { intros z. rewrite E. intros [->|Hz]%elem_of_cons; eauto using item_lt_trans. }
    destruct (item_cmp y x); [done..|]. destruct Hge. by apply Hcmp.
Qed.

Lemma heap_pop_None q : heap_pop q = None ↔ q = [].
Proof.
  destruct q as [|x q]; [done|]. simpl. destruct (heap_pop q) as [[y r]|]; [destruct (item_cmp y x)|]; done.
Qed.

Lemma heap_pop_length q y r : heap_pop q = Some (y, r) → length q = S (length r).
Proof.
  revert y r. induction q as [|x q IH]; simpl; intros y r E; [done|].
  destruct (heap_pop q) as [[y' r']|] eqn:Eq.
  - specialize (IH _ _ eq_refl). destruct (item_cmp y' x); simplify_eq/=; lia.
  - apply heap_pop_None in Eq as ->. by simplify_eq/=.
Qed.

(** The greatest item of a well-formed queue is unique, so the layout of the
    heap does not matter. *)
Lemma heap_pop_perm q q' y r :
  wf_queue q → q ≡ₚ q' → heap_pop q = Some (y, r) → ∃ r', heap_pop q' = Some (y, r') ∧ r ≡ₚ r'.
Proof.
  intros Hwf E Ep. pose proof (heap_pop_spec q Hwf) as H1. rewrite Ep in H1. destruct H1 as [E1 Hm1].
  pose proof (heap_pop_spec q' (wf_queue_perm _ _ E Hwf)) as H2.
  destruct (heap_pop q') as [[y' r']|] eqn:Ep'.
  - destruct H2 as [E2 Hm2]. assert (y = y') as <-.
    { assert (y ∈ y' :: r') as [?|Hy]%elem_of_cons by (rewrite <- E2, <- E, E1; left); [done|].
      assert (y' ∈ y :: r) as [?|Hy']%elem_of_cons by (rewrite <- E1, E, E2; left); [done|].
      exfalso. eapply item_lt_irrefl, item_lt_trans; eauto. }
    exists r'. split; [done|]. rewrite E1, E2 in E. by apply Permutation_cons_inv in E.
  - subst q'. apply Permutation_nil_r in E. by subst.
Qed.

Lemma wf_queue_pop q y r : wf_queue q → heap_pop q = Some (y, r) → wf_item y ∧ wf_queue r.
Proof.
  intros Hwf E. pose proof (heap_pop_spec q Hwf) as H1. rewrite E in H1. destruct H1 as [E1 _].
  rewrite E1, wf_queue_cons in Hwf. naive_solver.
Qed.

(** The loop of [pop_runnable], with the items parked so far. *)
Lemma pop_loop_spec fuel act held q parked :
  wf_queue q → length q ≤ fuel →
  (∀ p, p ∈ parked → runnable act held p = false) →
  match pop_loop fuel act held q parked with
  | (None, q') => q' ≡ₚ q ++ parked ∧ ∀ i, i ∈ q ++ parked → runnable act held i = false
  | (Some i, q') => q ++ parked ≡ₚ i :: q' ∧ runnable act held i = true ∧
      ∀ j, j ∈ q' → runnable act held j = true → item_lt j i
  end.
Proof.
  revert q parked. induction fuel as [|f IH]; intros q parked Hwf Hlen Hpark; simpl.
  { destruct q; simpl in *; [|lia]. auto. }
  pose proof (heap_pop_spec q Hwf) as Hspec.
  destruct (heap_pop q) as [[i q1]|] eqn:Ep; [|subst; auto].
  destruct Hspec as [E Hmax]. destruct (runnable act held i) eqn:Hr.
  - split_and!; [by rewrite E | done|]. intros j [Hj|Hj]%elem_of_app Hjr; [auto|].
    by rewrite Hpark in Hjr.
  - pose proof (heap_pop_length _ _ _ Ep).
    assert (q1 ++ parked ++ [i] ≡ₚ q ++ parked) as E'.
    { rewrite E. simpl. rewrite (Permutation_app_comm parked [i]). simpl. by rewrite <- Permutation_middle. }
    assert (∀ p, p ∈ parked ++ [i] → runnable act held p = false) as Hpark'.
    { intros p [?|?%list_elem_of_singleton]%elem_of_app; subst; auto. }
    specialize (IH q1 (parked ++ [i]) (proj2 (wf_queue_pop _ _ _ Hwf Ep)) ltac:(lia) Hpark').
    destruct (pop_loop f act held q1 (parked ++ [i])) as [[j|] q']; rewrite E' in IH; [done|].
    destruct IH as [E2 Hno]. split; [done|]. intros k Hk. apply Hno. by rewrite E'.
Qed.

Lemma pop_runnable_spec q act held :
  wf_queue q →
  match pop_runnable q act held with
  | (None, q') => q' ≡ₚ q ∧ ∀ i, i ∈ q → runnable act held i = false
  | (Some i, q') => q ≡ₚ i :: q' ∧ runnable act held i = true ∧
      ∀ j, j ∈ q' → runnable act held j = true → item_lt j i
  end.
Proof.
  intros Hwf. pose proof (pop_loop_spec (length q) act held q [] Hwf) as Hs. unfold pop_runnable.
  rewrite app_nil_r in Hs. apply Hs; [done | by intros ? ?%elem_of_nil].
Qed.

Lemma drain_loop_spec fuel q :
  wf_queue q → length q ≤ fuel → drain_loop fuel q ≡ₚ q ∧ StronglySorted (λ a b, item_lt b a) (drain_loop fuel q).
Proof.
  revert q. induction fuel as [|f IH]; intros q Hwf Hlen; simpl.
  { destruct q; simpl in *; [|lia]. split; [done|constructor]. }
  pose proof (heap_pop_spec q Hwf) as Hs. destruct (heap_pop q) as [[x r]|] eqn:Ep; [|subst; split; [done|constructor]].
  destruct Hs as [E Hmax]. pose proof (heap_pop_length _ _ _ Ep).
  destruct (IH r) as [Er Hsort]; [by eapply wf_queue_pop | lia|].
  split; [by rewrite E, Er|]. constructor; [done|]. rewrite Er. by apply Forall_forall.
Qed.

Lemma drain_spec q : wf_queue q → drain q ≡ₚ q ∧ StronglySorted (λ a b, item_lt b a) (drain q).
Proof. intros Hwf. by apply drain_loop_spec. Qed.

(** On any queue, well-formed or not, the heap operations neither lose nor
    duplicate items. *)
Lemma heap_pop_items q y r : heap_pop q = Some (y, r) → q ≡ₚ y :: r.
Proof.
  revert y r. induction q as [|x q IH]; simpl; intros y r E; [done|].
  destruct (heap_pop q) as [[y' r']|] eqn:Eq.
  - specialize (IH _ _ eq_refl). destruct (item_cmp y' x); simplify_eq/=; [done..|]. rewrite IH. constructor.
  - apply heap_pop_None in Eq as ->. by simplify_eq/=.
Qed.

Lemma pop_loop_items fuel act held q parked :
  match pop_loop fuel act held q parked with
  | (None, q') => q' ≡ₚ q ++ parked
  | (Some i, q') => q ++ parked ≡ₚ i :: q' ∧ runnable act held i = true
  end.
Proof.
  revert q parked. induction fuel as [|f IH]; intros q parked; simpl; [done|].
  destruct (heap_pop q) as [[i q1]|] eqn:Ep; [|done]. apply heap_pop_items in Ep.
  destruct (runnable act held i) eqn:Hr; [split; [by rewrite Ep | done]|].
  specialize (IH q1 (parked ++ [i])).
  assert (q1 ++ parked ++ [i] ≡ₚ q ++ parked) as E'.
  { rewrite Ep. simpl. rewrite (Permutation_app_comm parked [i]). simpl. by rewrite <- Permutation_middle. }
  by destruct (pop_loop f act held q1 (parked ++ [i])) as [[j|] q']; rewrite E' in IH.
Qed.

Lemma pop_runnable_items q act held :
  match pop_runnable q act held with
  | (None, q') => q' ≡ₚ q
  | (Some i, q') => q ≡ₚ i :: q' ∧ runnable act held i = true
  end.
Proof.
  pose proof (pop_loop_items (length q) act held q []) as Hs. unfold pop_runnable. by rewrite app_nil_r in Hs.
Qed.

Lemma pop_loop_none fuel act held q parked q' :
  length q ≤ fuel → (∀ p, p ∈ parked → runnable act held p = false) →
  pop_loop fuel act held q parked = (None, q') → ∀ i, i ∈ q ++ parked → runnable act held i = false.
Proof.
  revert q parked. induction fuel as [|f IH]; intros q parked Hlen Hpark; simpl.
  { destruct q; simpl in *; [auto|lia]. }
  destruct (heap_pop q) as [[i q1]|] eqn:Ep; [|by apply heap_pop_None in Ep as ->].
  destruct (runnable act held i) eqn:Hr; [done|]. intros E k Hk.
  pose proof (heap_pop_length _ _ _ Ep). apply heap_pop_items in Ep.
  eapply (IH q1 (parked ++ [i])); [lia | | exact E | rewrite Ep in Hk; set_solver].
  intros p [?|?%list_elem_of_singleton]%elem_of_app; subst; auto.
Qed.

(** If nothing is taken out, nothing may run. *)
Lemma pop_runnable_none q act held q' :
  pop_runnable q act held = (None, q') → ∀ i, i ∈ q → runnable act held i = false.
Proof.
  intros E i Hi. eapply (pop_loop_none (length q) act held q []); [done | by intros ? ?%elem_of_nil | exact E|].
  by rewrite app_nil_r.
Qed.

Lemma drain_items q : drain q ≡ₚ q.
Proof.
  unfold drain. assert (∀ n q, length q ≤ n → drain_loop n q ≡ₚ q) as Hd; [|by apply Hd].
  clear q. induction n as [|n IH]; intros q Hn; simpl; [destruct q; simpl in *; [done|lia]|].
  destruct (heap_pop q) as [[x r]|] eqn:Ep; [|by apply heap_pop_None in Ep as ->].
  pose proof (heap_pop_length _ _ _ Ep). rewrite (heap_pop_items _ _ _ Ep). constructor. apply IH. lia.
Qed.

(** ** Properties *)

(** C10: (scheduling) [pop_runnable] takes out exactly the request that should
    run next: among the queued requests that may run now (any request that is
    not an execute; an execute only if none is active and it is strictly above
    the hold, if there is one), the one of highest priority, and among equal
    priorities the one that arrived first.  Every other request stays queued;
    if none may run, the queue keeps them all. *)
Theorem pop_runnable_selects q act held :
  Forall wf_item q → NoDup (map order q) →
  match pop_runnable q act held with
  | (None, q') => q' ≡ₚ q ∧ ∀ i, i ∈ q → runnable act held i = false
  | (Some i, q') => q ≡ₚ i :: q' ∧ runnable act held i = true ∧
      ∀ j, j ∈ q' → runnable act held j = true →
        f64_gt (priority i) (priority j) = true ∨
        (f64_partial_cmp (priority i) (priority j) = Some Eq ∧ (order i < order j)%Z)
  end.
Proof.
  intros Hw Hn. pose proof (pop_runnable_spec q act held (conj Hw Hn)) as Hs.
  destruct (pop_runnable q act held) as [[i|] q']; [|done].
  destruct Hs as (E & Hi & Hmax). split_and!; [done..|]. intros j Hj Hr.
  rewrite E in Hw. apply Forall_cons in Hw as [Hwi Hwq]. rewrite Forall_forall in Hwq.
  destruct (Hmax j Hj Hr) as [H1|[E1 H1]].
  - left. apply f64_gt_spec; auto. by apply Hwq.
  - right. split; [|done]. destruct (f64_partial_cmp_spec (priority i) (priority j)) as (c & -> & Hc); auto; [by apply Hwq|].
    destruct c; [done| |]; rewrite E1 in Hc; by apply rank_lt_irrefl in Hc.
Qed.

(** (representation independence) the request [pop_runnable] returns does
    not depend on how the heap lays its elements out, and neither does the
    queue it leaves, up to layout. *)
Theorem pop_runnable_layout q q' act held :
  Forall wf_item q → NoDup (map order q) → q ≡ₚ q' →
  (pop_runnable q act held).1 = (pop_runnable q' act held).1 ∧
  (pop_runnable q act held).2 ≡ₚ (pop_runnable q' act held).2.
Proof.
  intros Hw Hn E. pose proof (conj Hw Hn : wf_queue q) as Hwf.
  pose proof (pop_runnable_spec q act held Hwf) as H1.
  pose proof (pop_runnable_spec q' act held (wf_queue_perm _ _ E Hwf)) as H2.
  destruct (pop_runnable q act held) as [[i|] r], (pop_runnable q' act held) as [[i'|] r']; simpl.
  - destruct H1 as (E1 & R1 & M1), H2 as (E2 & R2 & M2). assert (i = i') as <-.
    { assert (i ∈ i' :: r') as [?|Hi]%elem_of_cons by (rewrite <- E2, <- E, E1; left); [done|].
      assert (i' ∈ i :: r) as [?|Hi']%elem_of_cons by (rewrite <- E1, E, E2; left); [done|].
      exfalso. eapply item_lt_irrefl, item_lt_trans; eauto. }
    split; [done|]. rewrite E1, E2 in E. by apply Permutation_cons_inv in E.
  - destruct H1 as (E1 & R1 & _), H2 as [_ H2]. rewrite H2 in R1; [done|]. rewrite <- E, E1. left.
  - destruct H2 as (E2 & R2 & _), H1 as [_ H1]. rewrite H1 in R2; [done|]. rewrite E, E2. left.
  - split; [done|]. destruct H1 as [-> _], H2 as [-> _]. done.
Qed.
