(* ===== verification/Requests.v ===== *)
(** * Request handlers (src/src/engine.rs, [execute] to [finish_hold])

    What a shell does with one request: running an execution, serving the other
    shell requests, and the replies of executions that never run (aborted,
    interrupted, held). *)

From Stdlib Require Import ZArith.
From stdpp Require Import base gmap list strings.
From S2P Require Import Prelude Json Errors Wire Language Services Queue.

Inductive ShellOutcome := Continue | Shutdown.

Record ExecutionDone := MkDone { failed : bool; stop_on_error : bool }.

(** [json!({"ename": .., "evalue": .., "traceback": ..})]. *)
Definition error_object (en ev : string) (tb : list string) : Value :=
  Obj [("ename", Str en); ("evalue", Str ev); ("traceback", Arr (map Str tb))].

Section Requests.
Context `{WireExt} `{LanguageSession L} (ks : KernelServices) (lang : L).

(** A call of a language method: the method sees the moment of the call. *)
Definition call {A} (f : nat → A) : M A := n ← next_tick; mret (f n).

(** The end of [execute]: the error or the result, and the reply's content. *)
Definition conclude (request : Message) (ex : ExecuteRequest) (execution_count : Z) (outcome : ExecuteOutcome) : M (Value * bool) :=
  match oc_error outcome with
  | Some error =>
      let error := error_object (ename error) (evalue error) (traceback error) in
      send_iopub ks request "error" error ;;;
      mret (Obj [("status", Str "error"); ("execution_count", jnat execution_count);
                 ("ename", value_index error "ename"); ("evalue", value_index error "evalue");
                 ("traceback", value_index error "traceback")], true)
  | None =>
      match oc_result outcome with
      | Some result =>
          when (negb (ex_silent ex))
            (send_iopub ks request "execute_result"
              (Obj [("execution_count", jnat execution_count); ("data", result); ("metadata", oc_result_metadata outcome)]))
      | None => mret tt
      end ;;;
      mret (Obj [("status", Str "ok"); ("execution_count", jnat execution_count);
                 ("user_expressions", oc_user_expressions outcome); ("payload", oc_payload outcome)], false)
  end.

(** [execute]: busy, the echo of the input, the run with its output, then the
    error or the result.  The language's own failure ([outcome?]) is looked at
    only after its output has been flushed. *)
Definition execute (identity : bytes) (request : Message) (ex : ExecuteRequest) (execution_count : Z) : M (Value * bool) :=
  status ks request "busy" ;;;
  when (negb (ex_silent ex))
    (send_iopub ks request "execute_input" (Obj [("code", Str (ex_code ex)); ("execution_count", jnat execution_count)])) ;;;
  run ← call (λ n, lang_execute lang n ex (output_context request true execution_count));
  flushed ← pump_and_flush ks request (ex_silent ex) (Some identity) (run_batches run);
  outcome ← lift (run_outcome run);
  lift flushed ;;;
  conclude request ex execution_count outcome.

Definition report_failure (request : Message) (reply : nat) (error : Error) (execution_count : Z) : M unit :=
  let ename := if decide (error_kind error = Interrupted) then "KeyboardInterrupt" else "KernelError" in
  let c := error_content request execution_count ename (to_string error) in
  when (bool_decide (msg_type request = "execute_request")) (send_iopub ks request "error" c) ;;;
  (if ends_with "_request" (msg_type request)
   then send_reply ks reply request (reply_type (msg_type request)) c
   else emit (Stderr (msg_type request +:+ " failed: " +:+ to_string error))) ;;;
  status ks request "idle".

Definition run_execution (inb : Inbound) (execution : ExecuteRequest) (execution_count : Z) : M ExecutionDone :=
  let request := in_message inb in
  let stop := unwrap_or (get_bool (content request) "stop_on_error") true in
  result ← catch (execute (in_identity inb) request execution execution_count);
  match result with
  | Ok (c, did_fail) =>
      send_reply ks (in_reply inb) request "execute_reply" c ;;;
      status ks request "idle" ;;;
      mret (MkDone did_fail stop)
  | Err error =>
      report_failure request (in_reply inb) error execution_count ;;;
      if decide (error_kind error = Closed) then throw error else mret (MkDone true stop)
  end.

Definition abort_execute (execution_count : Z) (inb : Inbound) : M unit :=
  let request := in_message inb in
  status ks request "busy" ;;;
  send_reply ks (in_reply inb) request "execute_reply"
    (Obj [("status", Str "aborted"); ("execution_count", jnat execution_count); ("user_expressions", Obj []); ("payload", Arr [])]) ;;;
  status ks request "idle".

Definition interrupt_execute (execution_count : Z) (inb : Inbound) : M unit :=
  let request := in_message inb in
  status ks request "busy" ;;;
  send_iopub ks request "error" (error_object "KeyboardInterrupt" "" []) ;;;
  send_reply ks (in_reply inb) request "execute_reply"
    (Obj [("status", Str "error"); ("execution_count", jnat execution_count);
          ("ename", Str "KeyboardInterrupt"); ("evalue", Str ""); ("traceback", Arr []);
          ("user_expressions", Obj []); ("payload", Arr [])]) ;;;
  status ks request "idle".

Definition begin_hold (execution_count : Z) (item : QueueItem) : M unit :=
  let request := in_message (inbound item) in
  status ks request "busy" ;;;
  when (negb (unwrap_or (get_bool (content request) "silent") false))
    (send_iopub ks request "execute_input"
      (Obj [("code", Str (unwrap_or (get_str (content request) "code") "")); ("execution_count", jnat execution_count)])).

(** The error a hold is released with, if its release status names one. *)
Definition hold_error (release_status : string) : option Value :=
  if decide (release_status = "error") then Some (error_object "HoldError" "released with status error" [])
  else if decide (release_status = "interrupt") then Some (error_object "KeyboardInterrupt" "" [])
  else if decide (release_status = "timeout") then Some (error_object "HoldTimeout" "held execution timed out" [])
  else None.

Definition finish_hold (execution_count : Z) (item : QueueItem) (release_status : string) : M bool :=
  let request := in_message (inbound item) in
  c ← match hold_error release_status with
      | Some error =>
          send_iopub ks request "error" error ;;;
          mret (Obj [("status", Str "error"); ("execution_count", jnat execution_count);
                     ("ename", value_index error "ename"); ("evalue", value_index error "evalue");
                     ("traceback", value_index error "traceback");
                     ("user_expressions", Obj []); ("payload", Arr [])])
      | None => mret (Obj [("status", Str "ok"); ("execution_count", Null); ("user_expressions", Obj []); ("payload", Arr [])])
      end;
  send_reply ks (in_reply (inbound item)) request "execute_reply" c ;;;
  status ks request "idle" ;;;
  mret (bool_decide (is_Some (hold_error release_status))).

(** The content of the five replies a language service provides. *)
Definition service_content (request : Message) : M Value :=
  let code := unwrap_or (get_str (content request) "code") "" in
  let cursor_pos := unwrap_or (get_u64 (content request) "cursor_pos") 0%Z in
  if decide (msg_type request = "kernel_info_request") then
    (r ← call (kernel_info lang); lift r) ≫= λ info : KernelInfo,
    debugger ← call (supports_debugger lang);
    features ← call (supported_features lang);
    let features : list string := (features ++ (if ks_supports_subshells ks then ["kernel subshells"] else [])
                             ++ (if debugger : bool then ["debugger"] else []))%list in
    mret (Obj [("status", Str "ok"); ("protocol_version", Str "5.3"); ("implementation", Str (implementation info));
               ("implementation_version", Str (implementation_version info)); ("banner", Str (banner info));
               ("language_info", language_info info); ("help_links", Arr []); ("debugger", Bool debugger);
               ("supported_features", Arr (map Str features))])
  else if decide (msg_type request = "complete_request") then
    r ← call (λ n, lang_complete lang n (MkCompleteRequest code cursor_pos)); lift r
  else if decide (msg_type request = "inspect_request") then
    r ← call (λ n, lang_inspect lang n
           (MkInspectRequest code cursor_pos (unwrap_or (get_u64 (content request) "detail_level") 0%Z))); lift r
  else if decide (msg_type request = "is_complete_request") then
    r ← call (λ n, lang_is_complete lang n code); lift r
  else r ← call (λ n, lang_history lang n (content request)); lift r.

(** The request types [service_content] serves. *)
Definition service_types : list string :=
  ["kernel_info_request"; "complete_request"; "inspect_request"; "is_complete_request"; "history_request"].

Definition comm_types : list string := ["comm_open"; "comm_msg"; "comm_close"].

(** [handle_shell].  A comm message the language refuses ([?] on [message]) is
    reported without waiting for the pump: the batches of a failing run are the
    ones the pump has handled by then, and what it publishes later is an output
    of the world around the shell. *)
Definition handle_shell (inb : Inbound) (execution_count : Z) : M ShellOutcome :=
  let request := in_message inb in
  let reply := in_reply inb in
  let mt := msg_type request in
  let missing := missing_fields request in
  if negb (bool_decide (missing = [])) then
    reply_missing ks execution_count request reply missing ;;; mret Continue
  else if decide (mt = "shutdown_request") then
    send_reply ks reply request "shutdown_reply"
      (Obj [("status", Str "ok"); ("restart", Bool (unwrap_or (get_bool (content request) "restart") false))]) ;;;
    mret Shutdown
  else if decide (mt ∈ service_types) then
    status ks request "busy" ;;;
    c ← service_content request;
    send_reply ks reply request (reply_type mt) c ;;;
    status ks request "idle" ;;;
    mret Continue
  else if decide (mt = "comm_info_request") then
    c ← (r ← call (λ n, lang_comm_info lang n (content request)); lift r);
    send_reply ks reply request "comm_info_reply" c ;;;
    mret Continue
  else if decide (mt = "connect_request") then
    send_reply ks reply request "connect_reply" (ks_connection ks) ;;; mret Continue
  else if decide (mt ∈ comm_types) then
    run ← call (λ n, lang_message lang n (MkLanguageMessage mt (content request) (buffers request))
                       (output_context request false execution_count));
    match run_outcome run with
    | Err e => pump_task ks request false None (run_batches run) ;;; throw e
    | Ok _ => flushed ← pump_and_flush ks request false None (run_batches run); lift flushed ;;; mret Continue
    end
  else if ends_with "_request" mt then
    send_reply ks reply request (reply_type mt) (Obj [("status", Str "ok")]) ;;; mret Continue
  else mret Continue.
End Requests.

(** ** Which handlers answer their request *)

Definition request_key (inb : Inbound) : nat * Map := (in_reply inb, header (in_message inb)).

(** The messages a client expects a reply to. *)
Definition is_request_message (inb : Inbound) : bool := ends_with "_request" (msg_type (in_message inb)).

Section Answering.
Context `{WireExt} `{LanguageSession L} (ks : KernelServices) (lang : L).

Lemma quiet_call {A} (f : nat → A) : quiet (call f).
Proof. unfold call. quiet. Qed.

Lemma quiet_conclude req ex n oc : quiet (conclude ks req ex n oc).
Proof. unfold conclude. quiet. Qed.

Lemma quiet_execute identity req ex n : quiet (execute ks lang identity req ex n).
Proof. unfold execute. quiet. all: auto using quiet_call, quiet_conclude with kern. Qed.

Lemma quiet_begin_hold n item : quiet (begin_hold ks n item).
Proof. unfold begin_hold. quiet. Qed.

Lemma quiet_service_content req : quiet (service_content ks lang req).
Proof. unfold service_content. quiet. all: auto using quiet_call with kern. Qed.

Section Json.
Context `{!JsonTotal}.

Lemma total_emit o : total (emit o).
Proof. intros w. do 2 eexists. reflexivity. Qed.

Lemma total_report_failure req reply e n : total (report_failure ks req reply e n).
Proof.
  unfold report_failure. apply total_bind; [auto with kern|intros _].
  apply total_bind; [destruct (ends_with _ _); auto using total_emit with kern | auto with kern].
Qed.

Lemma total_abort_execute n inb : total (abort_execute ks n inb).
Proof. unfold abort_execute. auto with kern. Qed.

Lemma total_interrupt_execute n inb : total (interrupt_execute ks n inb).
Proof. unfold interrupt_execute. auto with kern. Qed.

Lemma total_begin_hold n item : total (begin_hold ks n item).
Proof. unfold begin_hold. auto with kern. Qed.

Lemma total_finish_hold n item st : total (finish_hold ks n item st).
Proof. unfold finish_hold. apply total_bind; [destruct (hold_error st)|intros ?]; auto 10 with kern. Qed.

Lemma total_reply_missing n req reply missing : total (reply_missing ks n req reply missing).
Proof. unfold reply_missing, reply_error. auto 10 with kern. Qed.

Lemma answers_one_report_failure req reply e n :
  ends_with "_request" (msg_type req) = true → answers_one (report_failure ks req reply e n) (reply, header req).
Proof.
  intros Hr. unfold report_failure. rewrite Hr.
  apply answers_one_after; [quiet | auto with kern | intros _].
  apply answers_one_before; [auto with kern | quiet].
Qed.

Lemma quiet_report_failure req reply e n :
  ends_with "_request" (msg_type req) = false → quiet (report_failure ks req reply e n).
Proof. intros Hr. unfold report_failure. rewrite Hr. quiet. Qed.

Lemma answers_one_run_execution inb ex n :
  is_request_message inb = true → answers_one (run_execution ks lang inb ex n) (request_key inb).
Proof.
  intros Hr. unfold run_execution. apply answers_one_after;
    [apply quiet_catch, quiet_execute | apply total_catch | intros [[c f]|e]].
  - apply answers_one_before; [auto with kern | quiet].
  - apply answers_one_before; [by apply answers_one_report_failure | quiet].
Qed.

Lemma answers_one_abort_execute n inb : answers_one (abort_execute ks n inb) (request_key inb).
Proof.
  unfold abort_execute. apply answers_one_after; [quiet | auto with kern | intros _].
  apply answers_one_before; [auto with kern | quiet].
Qed.

Lemma answers_one_interrupt_execute n inb : answers_one (interrupt_execute ks n inb) (request_key inb).
Proof.
  unfold interrupt_execute. do 2 (apply answers_one_after; [quiet | auto with kern | intros _]).
  apply answers_one_before; [auto with kern | quiet].
Qed.

Lemma answers_one_finish_hold n item st : answers_one (finish_hold ks n item st) (request_key (inbound item)).
Proof.
  unfold finish_hold. apply answers_one_after.
  - quiet.
  - destruct (hold_error st); auto with kern.
  - intros c. apply answers_one_before; [auto with kern | quiet].
Qed.

Lemma answers_one_reply_missing n req reply missing : answers_one (reply_missing ks n req reply missing) (reply, header req).
Proof.
  unfold reply_missing, reply_error. apply answers_one_after; [quiet | auto with kern | intros _].
  apply answers_one_before; [auto with kern | quiet].
Qed.

Lemma missing_fields_request req : missing_fields req ≠ [] → ends_with "_request" (msg_type req) = true.
Proof.
  unfold missing_fields. cbv zeta. intros Hne.
  repeat (case_decide; [match goal with E : msg_type _ = _ |- _ => by rewrite E end|]). by destruct Hne.
Qed.

Lemma service_types_request mt : mt ∈ service_types → ends_with "_request" mt = true.
Proof. revert mt. apply Forall_forall. repeat constructor. Qed.

Lemma comm_types_request mt : mt ∈ comm_types → ends_with "_request" mt = false.
Proof. revert mt. apply Forall_forall. repeat constructor. Qed.

Lemma answers_reply_then {A} sink req mt c (f : unit → M A) :
  (∀ u, quiet (f u)) → (∀ u, total (f u)) →
  answers_if_ok (send_reply ks sink req mt c ≫= f) [(sink, header req)].
Proof.
  intros Hq Ht. apply answers_one_ok; [auto with kern|]. apply answers_one_before; auto with kern.
Qed.

(** [handle_shell] answers a request exactly once if it succeeds, and not at all
    if it fails; it never answers a message that is not a request. *)
Lemma answers_handle_shell inb n :
  msg_type (in_message inb) ≠ "execute_request" →
  answers_if_ok (handle_shell ks lang inb n) (if is_request_message inb then [request_key inb] else []).
Proof.
  intros Hne. unfold handle_shell, is_request_message. cbv zeta.
  case_bool_decide as Hm; simpl.
  2: { rewrite missing_fields_request by done.
       apply answers_one_ok; [|apply answers_one_before; [apply answers_one_reply_missing|quiet]].
       apply total_bind; auto using total_reply_missing with kern. }
  case_decide as E; [rewrite E; apply answers_reply_then; [quiet | auto with kern]|].
  case_decide as Es.
  { assert (ends_with "_request" (msg_type (in_message inb)) = true) as ->.
    { by apply service_types_request. }
    apply answers_if_ok_bind; [quiet|intros _]. apply answers_if_ok_bind; [apply quiet_service_content|intros c].
    apply answers_reply_then; [quiet | auto with kern]. }
  case_decide as Ei; [rewrite Ei; apply answers_if_ok_bind; [quiet; apply quiet_call | intros c];
    apply answers_reply_then; [quiet | auto with kern]|].
  case_decide as Ec; [rewrite Ec; apply answers_reply_then; [quiet | auto with kern]|].
  case_decide as Em.
  { assert (ends_with "_request" (msg_type (in_message inb)) = false) as ->.
    { by apply comm_types_request. }
    apply answers_if_ok_quiet. quiet. all: auto using quiet_call with kern. }
  destruct (ends_with _ _); [apply answers_reply_then; [quiet | auto with kern] | apply answers_if_ok_quiet; quiet].
Qed.
End Json.
End Answering.

#[export] Hint Resolve quiet_conclude quiet_call quiet_execute quiet_begin_hold quiet_report_failure
  quiet_service_content answers_one_report_failure answers_one_run_execution answers_one_abort_execute
  answers_one_interrupt_execute answers_one_finish_hold answers_one_reply_missing total_emit total_abort_execute
  total_interrupt_execute total_begin_hold total_finish_hold total_reply_missing total_report_failure : kern.

(** ** What one execution shows *)

Section Protocol.
Context `{JsonTotal} `{LanguageSession L} (ks : KernelServices) (lang : L).

Definition status_obs (req : Message) (state : string) : Obs :=
  OPub (header req) "status" (Obj [("execution_state", Str state)]).

(** What follows the run's own output: on success the result, if there is one
    and the request is not silent; otherwise the error. *)
Definition verdict_obs (req : Message) (ex : ExecuteRequest) (n : Z) (r : Result ExecuteOutcome) : list Obs :=
  match r with
  | Err e => [OPub (header req) "error"
                (error_content req n (if decide (error_kind e = Interrupted) then "KeyboardInterrupt" else "KernelError") (to_string e))]
  | Ok oc =>
      match oc_error oc, oc_result oc with
      | Some er, _ => [OPub (header req) "error" (error_object (ename er) (evalue er) (traceback er))]
      | None, Some res =>
          if ex_silent ex then [] else
          [OPub (header req) "execute_result" (Obj [("execution_count", jnat n); ("data", res); ("metadata", oc_result_metadata oc)])]
      | None, None => []
      end
  end.

Definition verdict_content (req : Message) (n : Z) (r : Result ExecuteOutcome) : Value :=
  match r with
  | Err e => error_content req n (if decide (error_kind e = Interrupted) then "KeyboardInterrupt" else "KernelError") (to_string e)
  | Ok oc =>
      match oc_error oc with
      | Some er => Obj [("status", Str "error"); ("execution_count", jnat n); ("ename", Str (ename er));
                        ("evalue", Str (evalue er)); ("traceback", Arr (map Str (traceback er)))]
      | None => Obj [("status", Str "ok"); ("execution_count", jnat n);
                     ("user_expressions", oc_user_expressions oc); ("payload", oc_payload oc)]
      end
  end.

Lemma emits_at_call {A} w (f : nat → A) : ∃ w', emits_at w (call f) (Ok (f (tick w))) [] w'.
Proof. eexists. split; [reflexivity|]. unfold obs. simpl. by rewrite app_nil_r. Qed.

Lemma emits_conclude req ex n oc :
  emits (conclude ks req ex n oc) (verdict_obs req ex n (Ok oc))
    (verdict_content req n (Ok oc), bool_decide (is_Some (oc_error oc))).
Proof.
  unfold conclude, verdict_obs, verdict_content. destruct (oc_error oc) as [er|].
  - eapply (emits_bind _ _ [_] tt []); [apply emits_send_iopub | apply emits_ret].
  - destruct (oc_result oc) as [res|]; [|eapply emits_bind_nil; [apply emits_ret | apply emits_ret]].
    rewrite <- (app_nil_r (if ex_silent ex then [] else _)).
    eapply emits_bind; [|apply emits_ret]. destruct (ex_silent ex); [apply emits_ret | apply emits_send_iopub].
Qed.

Lemma emits_report_failure req reply e n :
  msg_type req = "execute_request" →
  emits (report_failure ks req reply e n)
    (verdict_obs req (execute_request Null) n (Err e) ++
     [ORep reply (header req) "execute_reply" (verdict_content req n (Err e)); status_obs req "idle"]) tt.
Proof.
  intros Hex. unfold report_failure. rewrite Hex.
  change (ends_with "_request" "execute_request") with true. change (reply_type "execute_request") with "execute_reply".
  eapply (emits_bind _ _ [_] tt); [exact (emits_when true _ [_] (emits_send_iopub ks req "error" _))|].
  eapply (emits_bind _ _ [_] tt [_]); [apply emits_send_reply | apply emits_status].
Qed.

Lemma execute_run identity req ex n w :
  ∃ t w', let run := lang_execute lang t ex (output_context req true n) in
    emits_at w (execute ks lang identity req ex n)
      (match run_outcome run with
       | Err e => Err e
       | Ok oc => Ok (verdict_content req n (Ok oc), bool_decide (is_Some (oc_error oc)))
       end)
      ([status_obs req "busy"] ++
       (if ex_silent ex then [] else
         [OPub (header req) "execute_input" (Obj [("code", Str (ex_code ex)); ("execution_count", jnat n)])]) ++
       run_obs req (ex_silent ex) (Some identity) (run_batches run) ++
       match run_outcome run with Ok oc => verdict_obs req ex n (Ok oc) | Err _ => [] end) w'.
Proof.
  destruct (emits_status ks req "busy" w) as [w1 E1].
  destruct (emits_when (negb (ex_silent ex)) _ _ (emits_send_iopub ks req "execute_input"
    (Obj [("code", Str (ex_code ex)); ("execution_count", jnat n)])) w1) as [w2 E2].
  destruct (emits_at_call w2 (λ t, lang_execute lang t ex (output_context req true n))) as [w3 E3].
  set (run := lang_execute lang (tick w2) ex (output_context req true n)) in *.
  destruct (emits_pump_and_flush ks req (ex_silent ex) (Some identity) (run_batches run) w3) as [w4 E4].
  assert (∃ w5, emits_at w4
    (outcome ← lift (run_outcome run); lift (Ok tt) ;;; conclude ks req ex n outcome)
    (match run_outcome run with
     | Err e => Err e
     | Ok oc => Ok (verdict_content req n (Ok oc), bool_decide (is_Some (oc_error oc)))
     end) (match run_outcome run with Ok oc => verdict_obs req ex n (Ok oc) | Err _ => [] end) w5) as [w5 E5].
  { destruct (run_outcome run) as [oc|e].
    - destruct (emits_conclude req ex n oc w4) as [w5 E5]. exists w5.
      eapply (emits_at_bind _ _ _ oc []); [apply emits_at_ret|].
      eapply (emits_at_bind _ _ _ tt []); [apply emits_at_ret|exact E5].
    - exists w4. apply emits_at_bind_err, emits_at_ret. }
  exists (tick w2), w5. unfold execute. eapply emits_at_bind; [exact E1|].
  eapply emits_at_bind; [destruct (ex_silent ex); exact E2|].
  eapply (emits_at_bind _ _ _ run []); [exact E3|]. eapply emits_at_bind; [exact E4|exact E5].
Qed.

Lemma run_execution_run inb ex n w :
  msg_type (in_message inb) = "execute_request" →
  ∃ t w', let req := in_message inb in
    let run := lang_execute lang t ex (output_context req true n) in
    let stop := unwrap_or (get_bool (content req) "stop_on_error") true in
    emits_at w (run_execution ks lang inb ex n)
      (match run_outcome run with
       | Ok oc => Ok (MkDone (bool_decide (is_Some (oc_error oc))) stop)
       | Err e => if decide (error_kind e = Closed) then Err e else Ok (MkDone true stop)
       end)
      ([status_obs req "busy"] ++
       (if ex_silent ex then [] else
         [OPub (header req) "execute_input" (Obj [("code", Str (ex_code ex)); ("execution_count", jnat n)])]) ++
       run_obs req (ex_silent ex) (Some (in_identity inb)) (run_batches run) ++
       verdict_obs req ex n (run_outcome run) ++
       [ORep (in_reply inb) (header req) "execute_reply" (verdict_content req n (run_outcome run)); status_obs req "idle"]) w'.
Proof.
  intros Hex. destruct (execute_run (in_identity inb) (in_message inb) ex n w) as (t & w1 & E1). exists t.
  cbv zeta in *. set (run := lang_execute lang t ex (output_context (in_message inb) true n)) in *.
  apply emits_at_catch in E1. rewrite !app_assoc. rewrite !app_assoc in E1.
  destruct (run_outcome run) as [oc|e].
  - destruct (emits_send_reply ks (in_reply inb) (in_message inb) "execute_reply" (verdict_content (in_message inb) n (Ok oc)) w1) as [w2 E2].
    destruct (emits_status ks (in_message inb) "idle" w2) as [w3 E3]. exists w3.
    unfold run_execution. eapply emits_at_bind; [exact E1|]. simpl.
    eapply (emits_at_bind _ _ _ tt [_]); [exact E2|].
    eapply (emits_at_bind _ _ _ tt [_]); [exact E3|apply (emits_at_ret _ (Ok _))].
  - destruct (emits_report_failure (in_message inb) (in_reply inb) e n Hex w1) as [w2 E2]. exists w2.
    unfold run_execution. rewrite app_nil_r in E1. rewrite <- app_assoc.
    eapply emits_at_bind; [exact E1|]. simpl.
    eapply emits_at_list; [|eapply emits_at_bind; [exact E2|]].
    2: { instantiate (1 := []). case_decide; [apply (emits_at_ret _ (Err e)) | apply (emits_at_ret _ (Ok _))]. }
    by rewrite app_nil_r.
Qed.

(** C11: (execution protocol) an execution shows, in this order and nothing
    else: busy; the echo of the input, unless silent; the output of the run,
    joined by the pump; the error or the result; exactly one execute_reply to
    the requester, ok or error as the run went; idle.  All of it is parented to
    the request.  An operational failure is reported as KeyboardInterrupt if the
    execution was interrupted and as KernelError otherwise; only a closed
    language service is fatal to the shell. *)
Theorem run_execution_protocol inb ex n w :
  msg_type (in_message inb) = "execute_request" →
  ∃ t w', let req := in_message inb in
    let run := lang_execute lang t ex (output_context req true n) in
    let stop := unwrap_or (get_bool (content req) "stop_on_error") true in
    emits_at w (run_execution ks lang inb ex n)
      (match run_outcome run with
       | Ok oc => Ok (MkDone (bool_decide (is_Some (oc_error oc))) stop)
       | Err e => if decide (error_kind e = Closed) then Err e else Ok (MkDone true stop)
       end)
      ([status_obs req "busy"] ++
       (if ex_silent ex then [] else
         [OPub (header req) "execute_input" (Obj [("code", Str (ex_code ex)); ("execution_count", jnat n)])]) ++
       run_obs req (ex_silent ex) (Some (in_identity inb)) (run_batches run) ++
       verdict_obs req ex n (run_outcome run) ++
       [ORep (in_reply inb) (header req) "execute_reply" (verdict_content req n (run_outcome run)); status_obs req "idle"]) w'.
Proof. apply run_execution_run. Qed.
End Protocol.
