(* ===== verification/PyAdapter.v ===== *)
(** * The Python adapter (src/py/src/python.rs)

    [PyLanguageSession], the language session of a Python shell: how a Python
    value or exception becomes an outcome the engine understands, and how an
    engine error becomes a Python exception.

    The interpreter, the shell object and [kernmini._bridge] are code outside
    this crate: the fields of [PyShell], indexed by the moment of the call.  A
    call that runs on a blocking thread ([attach]) can also fail to be joined:
    then it is [None]. *)

From Stdlib Require Import ZArith.
From stdpp Require Import base list strings.
From S2P Require Import Prelude Json Errors Wire Language Services Requests.

(** ** Python exceptions *)

(** A raised exception, as far as the adapter looks at it. *)
Record PyErr := MkPyErr { pe_cancelled : bool; pe_keyboard : bool; pe_display : string }.

Abbreviation PyResult := (result PyErr).

Definition py_source (e : PyErr) : StdError := ForeignError PyError (pe_display e) None.

Inductive PyClass := PyKeyboardInterrupt | PyTimeoutError | PyValueError | PyOSError (errno : option Z) | KernelError.

(** An exception [py_error] makes: its class, message, [kind] attribute and cause. *)
Record PyExc := MkPyExc { px_class : PyClass; px_message : string; px_kind : string; px_cause : option StdError }.

(** [{:?}] of an [ErrorKind]. *)
Definition kind_name (k : ErrorKind) : string :=
  match k with
  | Interrupted => "Interrupted" | Closed => "Closed" | TimedOut => "TimedOut" | Unavailable => "Unavailable"
  | InvalidInput => "InvalidInput" | Io => "Io" | Protocol => "Protocol" | Adapter => "Adapter"
  end.

(** The first loop of [py_error]: every I/O error of the chain sets the number. *)
Fixpoint chain_errno (errno : option Z) (chain : list StdError) : option Z :=
  match chain with
  | [] => errno
  | ForeignError (IoError raw) _ _ :: chain' => chain_errno raw chain'
  | _ :: chain' => chain_errno errno chain'
  end.

(** The second loop: the first Python exception of the chain. *)
Fixpoint chain_cause (chain : list StdError) : option StdError :=
  match chain with
  | [] => None
  | ForeignError PyError d s :: _ => Some (ForeignError PyError d s)
  | _ :: chain' => chain_cause chain'
  end.

Definition py_error (e : Error) : PyExc :=
  let class :=
    match error_kind e with
    | Interrupted => PyKeyboardInterrupt
    | TimedOut => PyTimeoutError
    | InvalidInput => PyValueError
    | Io => PyOSError (chain_errno None (chain e))
    | _ => KernelError
    end in
  MkPyExc class (to_string e) (kind_name (error_kind e)) (chain_cause (chain e)).

Lemma context_chain e m :
  error_kind (error_context e m) = error_kind e ∧ chain_errno None (chain (error_context e m)) = chain_errno None (chain e) ∧
  chain_cause (chain (error_context e m)) = chain_cause (chain e).
Proof. by destruct e as [k m0 [s|]]. Qed.

Lemma py_error_context_class e m : px_class (py_error (error_context e m)) = px_class (py_error e).
Proof. destruct (context_chain e m) as (Hk & Hc & _). unfold py_error, px_class. by rewrite Hk, Hc. Qed.

(** (errors in Python) an engine error reaches Python as the exception class
    of its kind, with the kind's name, the number of the operating system's
    error for I/O, and the Python exception it wraps as its cause; adding
    context on the way, however often, changes only the message. *)
Theorem py_error_context e contexts :
  let x := py_error (foldl error_context e contexts) in
  px_class x = px_class (py_error e) ∧ px_kind x = kind_name (error_kind e) ∧ px_cause x = px_cause (py_error e) ∧
  (∀ n d, e = from_io (Some n) d → px_class x = PyOSError (Some n)) ∧
  (∀ p, e = error_adapter (py_source p) → px_class x = KernelError ∧ px_cause x = Some (py_source p)).
Proof.
  assert (error_kind (foldl error_context e contexts) = error_kind e ∧
    chain_errno None (chain (foldl error_context e contexts)) = chain_errno None (chain e) ∧
    chain_cause (chain (foldl error_context e contexts)) = chain_cause (chain e)) as (Hk & He & Hc).
  { revert e. induction contexts as [|m l IH]; intros e; [done|]. simpl. destruct (IH (error_context e m)) as (-> & -> & ->). apply context_chain. }
  cbv zeta. unfold py_error. simpl. rewrite Hk, He, Hc. split_and!; [done..|intros n d ->; done|intros p ->; done].
Qed.

(** [Error::adapter] of a Python exception. *)
Definition adapter_error (e : PyErr) : Error := error_adapter (py_source e).

(** [attach]: the closure's result, or that it could not be joined. *)
Definition attach {A} (r : option (PyResult A)) : Result A :=
  match r with
  | None => Err (from_join_error "task panicked")
  | Some (Ok a) => Ok a
  | Some (Err e) => Err (adapter_error e)
  end.

(** [attach_blocking]. *)
Definition attach_blocking {A} (r : PyResult A) : Result A := map_err adapter_error r.

(** ** The shell object *)

(** One execution in the interpreter: how starting it went, what it emitted
    through its sink, whether its interrupt handler was called, how its task
    ended, whether the call that reads its value could be joined, and how many
    of the events in the value the output pump still took ([None]: all). *)
Record PyRun (O : Type) := MkPyRun {
  pr_start : option (PyResult unit); pr_batches : list (list ContextMessage); pr_interrupted : bool; pr_result : PyResult O;
  pr_read : bool; pr_taken : option nat }.

Arguments MkPyRun {O} pr_start pr_batches pr_interrupted pr_result pr_read pr_taken.
Arguments pr_start {O} p.
Arguments pr_batches {O} p.
Arguments pr_interrupted {O} p.
Arguments pr_result {O} p.
Arguments pr_read {O} p.
Arguments pr_taken {O} p.

(** How a child session's thread comes up: the factory or the loop raises before
    the session is ready, the session is ready, or the thread dies silently. *)
Inductive ChildStart (L : Type) := ChildRaised (e : PyErr) | ChildReady (session : L) | ChildDied.

Arguments ChildRaised {L} e.
Arguments ChildReady {L} session.
Arguments ChildDied {L}.

Class PyShell (L : Type) := {
  PyObj : Type;
  (** [json.dumps] with fastcore's default and its text with U+FFFD for lone
      surrogates, [json.loads], and [serde_json]'s reader and printer. *)
  py_dumps : PyObj → PyResult string;
  py_loads : string → PyResult PyObj;
  json_from_str : string → result string Value;
  json_text : Value → string;
  is_none : PyObj → bool;
  py_hasattr : L → nat → string → PyResult bool;
  (** Setting [debugger.event_callback], and the bridge's [set_kernel_sink]. *)
  py_set_event_callback : L → nat → PyResult unit;
  py_set_kernel_sink : L → nat → ExecutionContext → PyResult unit;
  py_kernel_info : L → nat → PyResult PyObj;
  py_execute : L → nat → ExecuteRequest → ExecutionContext → PyRun PyObj;
  (** How the events emitted after the task ended fall into the pump's batches. *)
  py_split : L → nat → list ContextMessage → list (list ContextMessage);
  py_request : L → nat → string → PyObj → option (PyResult unit) * PyResult PyObj;
  py_debug : L → nat → PyObj → PyResult PyObj;
  py_message : L → nat → LanguageMessage → PyObj → option (PyResult unit) * (list (list ContextMessage) * PyResult unit);
  py_shutdown : L → nat → option (PyResult unit) * PyResult unit;
  py_on_interrupt : L → nat → Result unit;
  (** Whether the session runs on a thread of its own, and how joining it goes. *)
  has_child_loop : L → bool;
  py_join : L → nat → option bool;
  py_child : L → nat → ChildStart L;
}.

Section Session.
Context `{PyShell L}.

(** ** Conversions *)

(** An engine error raised in Python, as the adapter sees the exception. *)
Definition raised (x : PyExc) : PyErr :=
  let keyboard := match px_class x with PyKeyboardInterrupt => true | _ => false end in
  let name := match px_class x with
              | PyKeyboardInterrupt => "KeyboardInterrupt" | PyTimeoutError => "TimeoutError" | PyValueError => "ValueError"
              | PyOSError _ => "OSError" | KernelError => "KernelError"
              end in
  MkPyErr false keyboard (name +:+ ": " +:+ px_message x).

Definition py_to_json (o : PyObj) : PyResult Value :=
  text ← py_dumps o; map_err (λ d, raised (py_error (from_serde d))) (json_from_str text).

Definition json_to_py (v : Value) : PyResult PyObj := py_loads (json_text v).

(** ** Outcomes of an execution *)

(** The value of the task, or what its exception means: an interrupted execution
    that ends in [CancelledError] or [KeyboardInterrupt] was interrupted. *)
Definition task_value (joined interrupted : bool) (r : PyResult PyObj) : Result Value :=
  let read :=
    match r with
    | Err e => if interrupted && (pe_cancelled e || pe_keyboard e) then Ok None else Err e
    | Ok o => v ← py_to_json o; Ok (Some v)
    end in
  v ← attach (if joined then Some read else None);
  match v with Some v => Ok v | None => Err (error_new Interrupted "execution interrupted") end.

Definition str_or (v : Value) (k d : string) : string := unwrap_or (as_str (value_index v k)) d.

(** The events in the value, emitted after the task's own. *)
Definition value_events (v : Value) : list ContextMessage :=
  map (λ s, Event (Stream (str_or s "name" "stdout") (str_or s "text" ""))) (unwrap_or (value_get v "streams" ≫= as_array) []) ++
  map (λ d, Event (Display d [])) (unwrap_or (value_get v "display" ≫= as_array) []).

(** The loops of [context.emit(..).await?]: what the pump took, and the error of
    the first event it was gone for. *)
Fixpoint emit_all (taken : option nat) (events : list ContextMessage) : Result unit * list ContextMessage :=
  match events, taken with
  | [], _ => (Ok tt, [])
  | _ :: _, Some O => (Err from_send_error, [])
  | e :: events', _ => let '(r, sent) := emit_all (pred <$> taken) events' in (r, e :: sent)
  end.

Definition non_null (o : option Value) : option Value := opt_filter (λ v, negb (is_null v)) o.

Definition value_error (interrupted : bool) (v : Value) : option LanguageError :=
  match non_null (value_get v "error") with
  | None => None
  | Some e =>
      let le := MkLanguageError (str_or e "ename" "Error") (str_or e "evalue" "")
                  (omap as_str (unwrap_or (as_array (value_index e "traceback")) [])) in
      if interrupted && bool_decide (ename le = "CancelledError") then Some (MkLanguageError "KeyboardInterrupt" "" []) else Some le
  end.

Definition value_outcome (interrupted : bool) (v : Value) : ExecuteOutcome :=
  MkExecuteOutcome (non_null (value_get v "result")) (unwrap_or (value_get v "result_metadata") (Obj [])) (value_error interrupted v)
    (unwrap_or (value_get v "user_expressions") (Obj [])) (unwrap_or (value_get v "payload") (Arr [])).

Definition session_execute (s : L) (n : nat) (ex : ExecuteRequest) (ctx : ExecutionContext) : LanguageRun ExecuteOutcome :=
  let run := py_execute s n ex ctx in
  match attach (pr_start run) with
  | Err e => MkLanguageRun [] (Err e)
  | Ok _ =>
      match task_value (pr_read run) (pr_interrupted run) (pr_result run) with
      | Err e => MkLanguageRun (pr_batches run) (Err e)
      | Ok v =>
          let '(emitted, sent) := emit_all (pr_taken run) (value_events v) in
          MkLanguageRun (pr_batches run ++ py_split s n sent) (_ ← emitted; Ok (value_outcome (pr_interrupted run) v))
      end
  end.

(** ** The other methods *)

Definition session_kernel_info (s : L) (n : nat) : Result KernelInfo :=
  attach_blocking (
    o ← py_kernel_info s n; v ← py_to_json o;
    Ok (MkKernelInfo (str_or v "implementation" "python") (str_or v "implementation_version" "0") (str_or v "banner" "")
          (unwrap_or (value_get v "language_info") (Obj [])))).

(** [serde_json::from_value::<Vec<String>>]. *)
Definition string_list (v : Value) : option (list string) := as_array v ≫= mapM as_str.

Definition session_supported_features (s : L) (n : nat) : list string :=
  match attach_blocking (o ← py_kernel_info s n; py_to_json o) with
  | Ok v => unwrap_or (string_list (value_index v "supported_features")) []
  | Err _ => []
  end.

Definition session_supports_debugger (s : L) (n : nat) : bool :=
  match attach_blocking (py_hasattr s n "debug_request") with Ok b => b | Err _ => false end.

(** [PyLanguageSession::request]: [None] when the shell has no such method. *)
Definition session_request (s : L) (n : nat) (method : string) (content : Value) : Result (option Value) :=
  o ← attach (Some (json_to_py content));
  let '(start, result) := py_request s n method o in
  _ ← attach start;
  r ← map_err adapter_error result;
  if is_none r then Ok None else v ← attach (Some (py_to_json r)); Ok (Some v).

Definition request_or (s : L) (n : nat) (method : string) (content default : Value) : Result Value :=
  o ← session_request s n method content; Ok (unwrap_or o default).

Definition session_debug (s : L) (n : nat) (request : Value) : Result Value :=
  if session_supports_debugger s n then
    attach (Some (o ← json_to_py request; r ← py_debug s n o; py_to_json r))
  else Ok default_debug.

Definition session_message (s : L) (n : nat) (m : LanguageMessage) (ctx : ExecutionContext) : LanguageRun unit :=
  match attach (Some (json_to_py (lm_content m))) with
  | Err e => MkLanguageRun [] (Err e)
  | Ok c =>
      let '(start, (batches, result)) := py_message s n m c in
      match attach start with
      | Err e => MkLanguageRun [] (Err e)
      | Ok _ => MkLanguageRun batches (map_err adapter_error result)
      end
  end.

(** [ChildLoop::shutdown]: stops the loop and joins its thread. *)
Definition child_loop_shutdown (s : L) (n : nat) : Result unit :=
  match py_join s n with
  | None => Err (from_join_error "task panicked")
  | Some false => Err (error_closed "child Python session during shutdown")
  | Some true => Ok tt
  end.

(** The child's thread is stopped and joined even when its shell failed to shut
    down; an error of the join is reported first. *)
Definition session_shutdown (s : L) (n : nat) : Result unit :=
  let '(start, result) := py_shutdown s n in
  _ ← attach start;
  _ ← (if has_child_loop s then child_loop_shutdown s n else Ok tt);
  map_err adapter_error result.

(** [create_child]. *)
Definition session_create_child (s : L) (n : nat) : Result L :=
  match py_child s n with
  | ChildRaised e => Err (adapter_error e)
  | ChildReady c => Ok c
  | ChildDied => Err (error_caused_by (error_closed "child Python session during startup") (ForeignError RecvError "channel closed" None))
  end.

(** [set_debug_sender]: only a shell with a debugger gets the router. *)
Definition session_set_debug_sender (s : L) (n : nat) : Result unit :=
  attach_blocking (has ← py_hasattr s n "debugger"; if has : bool then py_set_event_callback s n else Ok tt).

Definition session_set_kernel_context (s : L) (n : nat) (context : ExecutionContext) : Result unit :=
  attach_blocking (py_set_kernel_sink s n context).

Global Instance py_language_session : LanguageSession L := {|
  kernel_info := session_kernel_info;
  supports_debugger := session_supports_debugger;
  supported_features := session_supported_features;
  set_debug_sender := session_set_debug_sender;
  set_kernel_context := session_set_kernel_context;
  lang_execute := session_execute;
  lang_complete s n r :=
    request_or s n "complete" (Obj [("code", Str (co_code r)); ("cursor_pos", jnat (co_cursor_pos r))]) (default_complete (co_cursor_pos r));
  lang_inspect s n r :=
    request_or s n "inspect" (Obj [("code", Str (in_code r)); ("cursor_pos", jnat (in_cursor_pos r)); ("detail_level", jnat (in_detail_level r))])
      default_inspect;
  lang_is_complete s n code := request_or s n "is_complete" (Obj [("code", Str code)]) default_is_complete;
  lang_history s n r := request_or s n "history" r default_history;
  lang_comm_info s n r := request_or s n "comm_info" r default_comm_info;
  lang_debug := session_debug;
  lang_message := session_message;
  lang_shutdown := session_shutdown;
  lang_on_interrupt := py_on_interrupt;
|}.

Global Instance py_language : Language L L := {|
  parent s := s;
  supports_children _ := true;
  create_child := session_create_child;
|}.
End Session.

(** ** What a client sees of a Python execution *)

Section Replies.
Context `{JsonTotal} `{PyShell L} (ks : KernelServices) (s : L).

(** The exception an execution ends with, for the client; [None] if it succeeds. *)
Definition reported (run : PyRun PyObj) : option string :=
  match pr_start run, pr_result run with
  | Some (Ok _), Err e => Some (if pr_interrupted run && (pe_cancelled e || pe_keyboard e) then "KeyboardInterrupt" else "KernelError")
  | Some (Ok _), Ok o =>
      match py_to_json o with
      | Ok v =>
          match non_null (value_get v "error") with
          | Some e => let en := str_or e "ename" "Error" in
                      Some (if pr_interrupted run && bool_decide (en = "CancelledError") then "KeyboardInterrupt" else en)
          | None => None
          end
      | Err _ => Some "KernelError"
      end
  | _, _ => Some "KernelError"
  end.

Lemma error_content_status req n en ev :
  msg_type req = "execute_request" → value_index (error_content req n en ev) "status" = Str "error".
Proof. intros Hex. unfold error_content. by rewrite decide_True by done. Qed.

Lemma error_content_ename req n en ev :
  msg_type req = "execute_request" → value_index (error_content req n en ev) "ename" = Str en.
Proof. intros Hex. unfold error_content. by rewrite decide_True by done. Qed.

(** The calls on blocking threads were joined and the pump took every event. *)
Definition undisturbed (run : PyRun PyObj) : Prop := pr_start run ≠ None ∧ pr_read run = true ∧ pr_taken run = None.

Lemma emit_all_taken events : emit_all None events = (Ok tt, events).
Proof. induction events as [|e l IH]; simpl; [done|by rewrite IH]. Qed.

Definition is_reply (o : Obs) : bool := match o with ORep _ _ _ _ => true | _ => false end.

Lemma run_obs_no_reply req silent stdin batches : Forall (λ o, is_reply o = false) (run_obs req silent stdin batches).
Proof.
  apply Forall_concat, Forall_fmap, Forall_true. intros m. unfold compose.
  destruct m as [[]| |]; simpl; repeat case_match; by repeat constructor.
Qed.

Lemma verdict_obs_no_reply req ex n r : Forall (λ o, is_reply o = false) (verdict_obs req ex n r).
Proof. unfold verdict_obs. repeat case_match; by repeat constructor. Qed.

Lemma session_execute_verdict t req ex ctx n :
  msg_type req = "execute_request" → undisturbed (py_execute s t ex ctx) →
  let run := py_execute s t ex ctx in
  let r := run_outcome (lang_execute s t ex ctx) in
  value_index (verdict_content req n r) "status" = Str (if bool_decide (is_Some (reported run)) then "error" else "ok") ∧
  (∀ en, reported run = Some en → value_index (verdict_content req n r) "ename" = Str en) ∧
  match r with Ok oc => is_Some (oc_error oc) ↔ is_Some (reported run) | Err e => error_kind e ≠ Closed ∧ is_Some (reported run) end.
Proof.
  intros Hex (Hstart & Hread & Htaken). cbv zeta. cbn [lang_execute py_language_session]. unfold session_execute, reported.
  rewrite Hread, Htaken. destruct (pr_start (py_execute s t ex ctx)) as [[[]|e]|] eqn:Es; [| |done]; cbn [attach run_outcome].
  2: { unfold verdict_content. rewrite error_content_status, error_content_ename by done. naive_solver. }
  unfold task_value. destruct (pr_result (py_execute s t ex ctx)) as [o|e].
  - destruct (py_to_json o) as [v|e]; simpl.
    + rewrite emit_all_taken. simpl. unfold verdict_content, value_outcome, value_error. cbn [oc_error].
      destruct (non_null (value_get v "error")) as [er|]; [|naive_solver].
      cbn [ename]. destruct (pr_interrupted _ && _); naive_solver.
    + unfold verdict_content. rewrite error_content_status, error_content_ename by done. naive_solver.
  - destruct (pr_interrupted _ && _); simpl; unfold verdict_content;
      rewrite error_content_status, error_content_ename by done; naive_solver.
Qed.

(** C33: (Python executions) an execution of a Python shell whose calls on
    blocking threads are joined and whose events the pump takes shows busy
    first, ends in exactly one reply, an [execute_reply], followed by idle, and
    never ends the shell; nothing shown before is a reply.  The reply is an error with the name [reported]: an interrupted
    execution that ends in [CancelledError], raised or reported, or in a
    [KeyboardInterrupt] the shell did not catch is a [KeyboardInterrupt]; an
    error the shell reports keeps its name; any other exception, and a value
    that is not JSON, is a [KernelError]; everything else succeeds. *)
Theorem python_execution_replies inb ex n w :
  msg_type (in_message inb) = "execute_request" → (∀ t ctx, undisturbed (py_execute s t ex ctx)) →
  ∃ t w' shown c,
    let req := in_message inb in
    let run := py_execute s t ex (output_context req true n) in
    let failed := bool_decide (is_Some (reported run)) in
    emits_at w (run_execution ks s inb ex n) (Ok (MkDone failed (unwrap_or (get_bool (content req) "stop_on_error") true)))
      (status_obs req "busy" :: shown ++ [ORep (in_reply inb) (header req) "execute_reply" c; status_obs req "idle"]) w' ∧
    Forall (λ o, is_reply o = false) shown ∧
    value_index c "status" = Str (if failed then "error" else "ok") ∧
    (∀ en, reported run = Some en → value_index c "ename" = Str en).
Proof.
  intros Hex Hstart. destruct (run_execution_run ks s inb ex n w Hex) as (t & w' & E). cbv zeta in E.
  set (ctx := output_context (in_message inb) true n) in *.
  destruct (session_execute_verdict t (in_message inb) ex ctx n Hex (Hstart t ctx)) as (Hst & Hen & Hfail). cbv zeta in Hst, Hen, Hfail.
  set (r := run_outcome (lang_execute s t ex ctx)) in *.
  match type of E with emits_at _ _ ?x _ _ =>
    assert (x = Ok (MkDone (bool_decide (is_Some (reported (py_execute s t ex ctx)))) (unwrap_or (get_bool (content (in_message inb)) "stop_on_error") true))) as Hr
  end.
  { destruct r as [oc|e]; [do 2 f_equal; apply bool_decide_ext; tauto|]. destruct Hfail. by rewrite decide_False, bool_decide_true. }
  rewrite Hr in E. clear Hr. match type of E with emits_at _ _ _ (_ ++ ?input ++ ?output ++ ?verdict ++ _) _ =>
    exists t, w', (input ++ output ++ verdict), (verdict_content (in_message inb) n r) end.
  cbv zeta. split_and!; [|repeat apply Forall_app_2; auto using run_obs_no_reply, verdict_obs_no_reply|done|done].
  - eapply emits_at_list; [|exact E]. cbn [app]. by rewrite <- !app_assoc.
  - destruct (ex_silent ex); by repeat constructor.
Qed.
End Replies.
