(* ===== verification/PyBindings.v ===== *)
(** * The classes of the Python module (src/py/src)

    What Python code sees of the adapter: [ExecutionSink], through which an
    execution shows its output, [ThreadWorker] (python_worker.rs), the task that
    hands a debug connection's events to Python (python_dap.rs), and the
    functions that install kernelspecs. *)

From Stdlib Require Import ZArith.
From stdpp Require Import base gmap list strings relations.
From S2P Require Import Prelude Json Errors ThreadWorker KernelSpec Wire Language Services Requests PyAdapter.

(** ** [ExecutionSink]

    The casts and iterations Python values allow: [cast::<PyBytes>], [try_iter]
    with what each step gives, [cast::<PyDict>] and the dict with those items. *)
Class PyValues (L : Type) `{PyShell L} := {
  cast_bytes : PyObj → PyResult bytes;
  try_iter : PyObj → PyResult (list (PyResult PyObj));
  cast_dict : PyObj → PyResult (list (string * PyObj));
  of_dict : list (string * PyObj) → PyObj;
}.

(** An exception: one of Python's, or one made by [py_error]. *)
Inductive Raised := FromPython (e : PyErr) | FromKernel (x : PyExc).

Section Sink.
Context `{PyValues L}.

(** [collect] on an iterator of results: the first error ends it. *)
Fixpoint collect {A B} (f : A → PyResult B) (l : list (PyResult A)) : PyResult (list B) :=
  match l with
  | [] => Ok []
  | r :: l' => a ← r; b ← f a; bs ← collect f l'; Ok (b :: bs)
  end.

Definition py_buffers (value : PyObj) : PyResult (list bytes) :=
  if is_none value then Ok [] else items ← try_iter value; collect cast_bytes items.

(** The event each method emits. *)
Definition sink_publish (msg_type : string) (content metadata identity buffers : PyObj) : PyResult LanguageEvent :=
  identity ← (if is_none identity then Ok None else b ← cast_bytes identity; Ok (Some b));
  content ← py_to_json content; metadata ← py_to_json metadata; buffers ← py_buffers buffers;
  Ok (EvMessage msg_type content metadata identity buffers).

(** [to_string_lossy] was applied to [text]. *)
Definition sink_stream (name text : string) : PyResult LanguageEvent := Ok (Stream name text).

Definition dict_get (d : list (string * PyObj)) (k : string) : option PyObj := snd <$> List.find (λ kv, bool_decide (kv.1 = k)) d.

Definition sink_display (event : PyObj) : PyResult LanguageEvent :=
  d ← cast_dict event;
  buffers ← match dict_get d "buffers" with Some v => py_buffers v | None => Ok [] end;
  let clean := filter (λ kv, kv.1 ≠ "buffers") d in
  v ← py_to_json (of_dict clean);
  Ok (Display v buffers).

(** [emit_blocking]: the channel's receiver is the output pump. *)
Definition emit_blocking (pump_open : bool) (event : LanguageEvent) : Result unit * list ContextMessage :=
  if pump_open then (Ok tt, [Event event]) else (Err from_send_error, []).

(** A method of the sink: the event is made, and emitted without the GIL. *)
Definition sink_emit (pump_open : bool) (event : PyResult LanguageEvent) : (Raised + unit) * list ContextMessage :=
  match event with
  | Err e => (inl (FromPython e), [])
  | Ok ev => match emit_blocking pump_open ev with
             | (Ok _, out) => (inr tt, out)
             | (Err e, out) => (inl (FromKernel (py_error e)), out)
             end
  end.

Lemma collect_spec {A B} (f : A → PyResult B) l bs :
  collect f l = Ok bs ↔ Forall2 (λ r b, ∃ a, r = Ok a ∧ f a = Ok b) l bs.
Proof.
  revert bs. induction l as [|[a|e] l IH]; intros bs; simpl.
  - split; [intros [= <-]; constructor | by intros ->%Forall2_nil_inv_l].
  - destruct (f a) as [b|e] eqn:Ef; simpl; [|split; [done|intros (b & bs' & (a' & [= <-] & ?) & _)%Forall2_cons_inv_l; congruence]].
    destruct (collect f l) as [bs'|e]; simpl; split.
    + intros [= <-]. constructor; [eauto|by apply IH].
    + intros (b' & bs2 & (a' & [= <-] & ?) & Hl & ->)%Forall2_cons_inv_l. apply IH in Hl. simplify_eq. congruence.
    + done.
    + intros (b' & bs2 & _ & Hl & ->)%Forall2_cons_inv_l. by apply IH in Hl.
  - split; [done|by intros (b & bs' & (a & ? & _) & _)%Forall2_cons_inv_l].
Qed.

(** (the sink) a call either emits its one event or raises and emits nothing. *)
Lemma sink_emits_once pump_open event :
  let '(r, out) := sink_emit pump_open event in
  (r = inr tt ∧ ∃ ev, event = Ok ev ∧ out = [Event ev]) ∨ ((∃ x, r = inl x) ∧ out = []).
Proof. unfold sink_emit, emit_blocking. destruct event as [ev|e]; [destruct pump_open|]; simpl; [left; eauto|right; eauto..]. Qed.
End Sink.

(** ** The session's callbacks into the engine

    [DebugRouter::__call__] hands an event of the shell's debugger to the engine's
    sender, if it is JSON. *)
Definition debug_router `{PyShell L} (event : PyObj) : PyResult Value := py_to_json event.

(** ** [ThreadWorker] in Python

    The state is an interpreter object [Obj], the callbacks' results [V]; a
    callback gets the object and leaves it in a new state, and a callback that
    raises still returns to the worker's thread. *)
Section PyWorker.
Context {Obj V : Type}.

(** [PythonState]: empty only while it is dropped. *)
Definition PythonState : Type := option Obj.

(** The closure of [call]: [unwrap] panics on an empty state. *)
Definition py_closure (callback : Obj → PyResult V * Obj) : @Closure PythonState (PyResult V) :=
  λ state, match state with Some o => let '(r, o') := callback o in Some (r, Some o') | None => None end.

(** [PyThreadWorker::start]; [created] is how the factory ends, in the caller's
    context. *)
Definition py_worker_start (spawn : Result unit) (created : option (PyResult Obj)) : result PyExc (@Worker PythonState (PyResult V)) :=
  map_err py_error (start spawn (match created with Some r => Some (map_err adapter_error (o ← r; Ok (Some o))) | None => None end)).

Definition py_worker_call (caller : nat) (callback : Obj → PyResult V * Obj) (w : @Worker PythonState (PyResult V)) : @Worker PythonState (PyResult V) :=
  send (Call caller (py_closure callback)) w.

Definition py_worker_shutdown (caller : nat) (w : @Worker PythonState (PyResult V)) : @Worker PythonState (PyResult V) := send (Stop caller) w.

(** What awaiting [call] or [shutdown] gives: [None] for the latter's success. *)
Definition py_worker_result (a : @Answer (PyResult V)) : Raised + option V :=
  match a with
  | Returned (Ok v) => inr (Some v)
  | Returned (Err e) => inl (FromPython e)
  | Stopped => inr None
  | Lost e => inl (FromKernel (py_error e))
  end.

(** The callbacks one after the other on one object. *)
Fixpoint run_callbacks (o : Obj) (calls : list (nat * (Obj → PyResult V * Obj))) : list (nat * PyResult V) :=
  match calls with
  | [] => []
  | (c, f) :: calls' => let '(r, o') := f o in (c, r) :: run_callbacks o' calls'
  end.

Definition py_jobs (calls : list (nat * (Obj → PyResult V * Obj))) : list (@Job PythonState (PyResult V)) :=
  map (λ cf, Call cf.1 (py_closure cf.2)) calls.

Lemma serve_py o calls c later :
  serve (Some o) (py_jobs calls ++ Stop c :: later) =
    map (λ cr, (cr.1, Returned cr.2)) (run_callbacks o calls) ++ (c, Stopped) :: map lost later.
Proof.
  revert o. induction calls as [|[c' f] calls IH]; intros o; simpl; [done|]. destruct (f o) as [r o']. simpl. by rewrite IH.
Qed.

(** (a Python worker) a callback that raises does not harm the worker: the
    callbacks sent before a shutdown all run, in the order sent, on the one object,
    each from the state the one before left, and each caller gets what its own
    callback returned or raised; the shutdown succeeds; and callers behind it are
    told that the worker is closed. *)
Theorem py_worker_calls o calls c later open w :
  worker_run (Some o) (py_jobs calls ++ Stop c :: later) open w →
  let expected := map (λ cr, (cr.1, match cr.2 with Ok v => inr (Some v) | Err e => inl (FromPython e) end)) (run_callbacks o calls) ++
                  (c, inr None) :: map (λ j, (caller_of j, inl (FromKernel (py_error (match (lost j).2 with Lost e => e | _ => error_closed "" end))))) later in
  map (λ a, (a.1, py_worker_result a.2)) (w_answers w) `prefix_of` expected ∧
  (is_gone w = true → map (λ a, (a.1, py_worker_result a.2)) (w_answers w) = expected).
Proof.
  intros Hoc%worker_run_on_course expected. pose proof Hoc as [_ (h & Eh & IH & _)]. specialize (IH (w_jobs w) (or_intror eq_refl)).
  rewrite <- Eh, serve_py in IH.
  assert (∀ l, map (λ a, (a.1, py_worker_result a.2)) (map lost l) =
    map (λ j, (caller_of j, inl (FromKernel (py_error (match (@lost PythonState (PyResult V) j).2 with Lost e => e | _ => error_closed "" end))))) l) as Hlost.
  { intros l. rewrite map_map. apply map_ext. by intros []. }
  apply (f_equal (map (λ a, (a.1, py_worker_result a.2)))) in IH. rewrite !map_app, map_map in IH. cbn [map] in IH. rewrite Hlost in IH.
  assert (map (λ x : nat * PyResult V, ((x.1, Returned x.2).1, py_worker_result (x.1, Returned x.2).2)) (run_callbacks o calls) =
    map (λ cr, (cr.1, match cr.2 with Ok v => inr (Some v) | Err e => inl (FromPython e) end)) (run_callbacks o calls)) as Hc.
  { apply map_ext. by intros [? []]. }
  rewrite Hc in IH. cbn [fst snd py_worker_result] in IH. fold expected in IH. split; [rewrite IH; by eexists|].
  intros Hg. rewrite IH. destruct Hoc as [Hj _]. rewrite (Hj Hg). unfold is_gone in Hg. destruct (w_phase w); [done..|]. simpl. by rewrite app_nil_r.
Qed.
End PyWorker.

(** ** Debug events for Python

    The task that [connect] of the Python client spawns: the lines it prints. *)
Definition dap_event_task (json_to_py : Value → PyResult unit) (callback : Value → PyResult unit) (events : list Value) : list string :=
  omap (λ event, match (_ ← json_to_py event; callback event) with
                 | Ok _ => None
                 | Err e => Some ("DAP event callback failed: " +:+ pe_display e)
                 end) events.

(** ** Installing kernelspecs

    [install_kernelspec]'s keyword arguments become the spec's extra fields, if
    they are a JSON object; [user] is not looked at. *)
Definition py_extra (spec_kw : option (PyResult Value)) : PyResult Map :=
  match spec_kw with
  | None => Ok []
  | Some r => v ← r; Ok (unwrap_or (as_object v) [])
  end.

Definition py_install_kernelspec (env : Env) (to_string_pretty : Map → result string string) (name : string) (argv : list string)
    (display_name language : string) (user : bool) (prefix : option path) (spec_kw : option (PyResult Value)) (fs : FS) : (Raised + path) * FS :=
  match py_extra spec_kw with
  | Err e => (inl (FromPython e), fs)
  | Ok extra =>
      match install_kernelspec env to_string_pretty name argv display_name language extra prefix fs with
      | (Ok dest, fs') => (inr dest, fs')
      | (Err e, fs') => (inl (FromKernel (py_error e)), fs')
      end
  end.

Definition py_install_kernelspec_dir (env : Env) (src_dir name : string) (user : bool) (prefix : option path) (fs : FS) : (Raised + path) * FS :=
  match install_kernelspec_dir env src_dir name prefix fs with
  | (Ok dest, fs') => (inr dest, fs')
  | (Err e, fs') => (inl (FromKernel (py_error e)), fs')
  end.

(** ** Witness *)

(** A counter that raises on its second call, and is shut down. *)
Definition demo_callback (n : nat) : PyResult nat * nat := (if decide (n = 1) then Err (MkPyErr false false "boom") else Ok n, S n).

Definition demo_calls : list (nat * (nat → PyResult nat * nat)) := [(0, demo_callback); (1, demo_callback); (2, demo_callback)].

Definition demo_worker : @Worker (@PythonState nat) (PyResult nat) :=
  py_worker_shutdown 3 (py_worker_call 2 demo_callback (py_worker_call 1 demo_callback (py_worker_call 0 demo_callback (MkWorker (Serving (Some 0)) [] [] [])))).

Lemma demo_worker_run : worker_run (Some 0) (py_jobs demo_calls ++ Stop 3 :: []) true demo_worker.
Proof.
  apply (run_send _ (py_jobs demo_calls) _ (Stop 3)); [|done].
  apply (run_send _ [_; _] _ (Call 2 (py_closure demo_callback))); [|done].
  apply (run_send _ [_] _ (Call 1 (py_closure demo_callback))); [|done].
  apply (run_send _ [] _ (Call 0 (py_closure demo_callback))); [|done]. apply run_start.
Qed.

Definition demo_worker_gone : @Worker (@PythonState nat) (PyResult nat) :=
  MkWorker Gone [] [(0, Returned (Ok 0)); (1, Returned (Err (MkPyErr false false "boom"))); (2, Returned (Ok 2)); (3, Stopped)] [].

Lemma py_worker_calls_witness :
  map (λ a, (a.1, py_worker_result a.2)) (w_answers demo_worker_gone) =
    [(0, inr (Some 0)); (1, inl (FromPython (MkPyErr false false "boom"))); (2, inr (Some 2)); (3, inr None)].
Proof.
  apply (py_worker_calls 0 demo_calls 3 [] true); [|reflexivity].
  pose proof demo_worker_run as R. do 5 (eapply run_thread in R; [|reflexivity]). exact R.
Defined.
