(* ===== verification/PyChild.v ===== *)
(** * Child sessions of the Python adapter (src/py/src/python.rs)

    [PyLanguage::create_child] starts a thread that creates a shell, tells the
    waiting creator through a oneshot, and runs an event loop until it is asked
    to stop.  The creator may be dropped at any moment, the shell may fail at any
    point of its start, and the sessions made may be shut down or just dropped.

    The event loop is Python's: [call_soon_threadsafe(stop)] ends the loop when it
    runs, also when it is called before the loop does. *)

From Stdlib Require Import ZArith.
From stdpp Require Import base list strings relations.
From S2P Require Import Prelude Errors PyAdapter.

(** Where the thread is: creating the loop and the shell; about to call
    [ChildReady]; in that call, past the upgrade of its weak reference; in the
    loop; past [run_child_loop]; ended. *)
Inductive ChildThread := CCreating | CCalling | CBinding | CLooping | COver (outcome : option PyErr) | CEnded.

(** The future of [create_child]: waiting, completed, or dropped. *)
Inductive Creator := CrWaiting | CrDone (r : Result unit) | CrDropped.

(** The thread's [JoinHandle]: in its slot, joined by [shutdown] or by a thread of
    its own, or given up by the thread itself. *)
Inductive Handle := InSlot | Joining | Detached.

(** [c_sender]: the oneshot's sender is still in [created]; [c_told] what it was
    told.  [c_session]: a session, in the oneshot or with its owner, holds the
    [ChildLoop]; so do a waiting creator and the call of [ChildReady].  [c_slot]:
    [event_loop] is set; [c_stop]: the loop was asked to stop. *)
Record Child := MkChild {
  c_thread : ChildThread; c_creator : Creator; c_sender : bool; c_told : option (Result unit);
  c_session : bool; c_slot : bool; c_stop : bool; c_handle : Handle }.

(** [create_child] up to its await. *)
Definition child_init : Child := MkChild CCreating CrWaiting true None false false false InSlot.

Definition to_thread (t : ChildThread) (c : Child) : Child :=
  MkChild t (c_creator c) (c_sender c) (c_told c) (c_session c) (c_slot c) (c_stop c) (c_handle c).
Definition to_creator (cr : Creator) (c : Child) : Child :=
  MkChild (c_thread c) cr (c_sender c) (c_told c) (c_session c) (c_slot c) (c_stop c) (c_handle c).
Definition tell (r : Result unit) (c : Child) : Child :=
  MkChild (c_thread c) (c_creator c) false (Some r) (c_session c) (c_slot c) (c_stop c) (c_handle c).
Definition drop_sender (c : Child) : Child :=
  MkChild (c_thread c) (c_creator c) false (c_told c) (c_session c) (c_slot c) (c_stop c) (c_handle c).
Definition hold_session (b : bool) (c : Child) : Child :=
  MkChild (c_thread c) (c_creator c) (c_sender c) (c_told c) b (c_slot c) (c_stop c) (c_handle c).
Definition fill_slot (c : Child) : Child :=
  MkChild (c_thread c) (c_creator c) (c_sender c) (c_told c) (c_session c) true (c_stop c) (c_handle c).
Definition ask_stop (c : Child) : Child :=
  MkChild (c_thread c) (c_creator c) (c_sender c) (c_told c) (c_session c) (c_slot c) true (c_handle c).
Definition to_handle (h : Handle) (c : Child) : Child :=
  MkChild (c_thread c) (c_creator c) (c_sender c) (c_told c) (c_session c) (c_slot c) (c_stop c) h.

(** The strong references to the [ChildLoop]. *)
Definition is_waiting (c : Child) : bool := match c_creator c with CrWaiting => true | _ => false end.
Definition is_binding (c : Child) : bool := match c_thread c with CBinding => true | _ => false end.
Definition referenced (c : Child) : bool := is_waiting c || is_binding c || c_session c.

(** [ChildLoop::stop]. *)
Definition child_stop (c : Child) : Child :=
  if c_slot c then MkChild (c_thread c) (c_creator c) (c_sender c) (c_told c) (c_session c) false true (c_handle c) else c.

(** [Drop for ChildLoop]: a thread does not join itself. *)
Definition child_drop (own_thread : bool) (c : Child) : Child :=
  let c := child_stop c in
  match c_handle c with InSlot => to_handle (if own_thread then Detached else Joining) c | _ => c end.

(** After a reference went: the last one drops the [ChildLoop]. *)
Definition release (own_thread : bool) (c : Child) : Child := if referenced c then c else child_drop own_thread c.

(** ** The thread *)

Definition closed_during_startup : PyErr := MkPyErr false false "child Python session during startup closed".

(** The loop and the shell are created, or that raises. *)
Definition child_created (r : PyResult unit) (c : Child) : option Child :=
  match c_thread c with
  | CCreating => Some (to_thread (match r with Ok _ => CCalling | Err e => COver (Some e) end) c)
  | _ => None
  end.

(** [ChildReady::__call__] up to [with_locals]: fails if nobody holds the
    [ChildLoop] any more. *)
Definition ready_upgrade (c : Child) : option Child :=
  match c_thread c with
  | CCalling => Some (if referenced c then fill_slot (to_thread CBinding c) else to_thread (COver (Some closed_during_startup)) c)
  | _ => None
  end.

(** The rest of it: [bound] is how [copy_context] and [with_locals] went.  A session
    nobody waits for is dropped, and the loop is stopped: [stopped] is how that
    went. *)
Definition ready_bound (bound stopped : PyResult unit) (c : Child) : option Child :=
  match c_thread c with
  | CBinding =>
      Some (match bound with
            | Err e => release true (to_thread (COver (Some e)) c)
            | Ok _ =>
                if is_waiting c then hold_session true (tell (Ok tt) (to_thread CLooping c))
                else
                  let c := release true (drop_sender (to_thread CLooping c)) in
                  match stopped with Ok _ => ask_stop c | Err e => to_thread (COver (Some e)) c end
            end)
  | _ => None
  end.

(** The loop ends: it was stopped, or something escapes it. *)
Definition loop_ends (escaped : option PyErr) (c : Child) : option Child :=
  match c_thread c, escaped with
  | CLooping, Some e => Some (to_thread (COver (Some e)) c)
  | CLooping, None => if c_stop c then Some (to_thread (COver None) c) else None
  | _, _ => None
  end.

(** The end of the thread's closure: an error goes to a creator not told yet. *)
Definition thread_ends (c : Child) : option Child :=
  match c_thread c with
  | COver outcome =>
      Some (to_thread CEnded
              (match outcome, c_sender c with
               | Some e, true => if is_waiting c then tell (Err (adapter_error e)) c else drop_sender c
               | _, _ => drop_sender c
               end))
  | _ => None
  end.

(** ** The creator and the owner of the session *)

(** A poll of [create_child]: what the oneshot says, or that its sender is gone. *)
Definition creator_poll (c : Child) : option Child :=
  match c_creator c, c_told c, c_sender c with
  | CrWaiting, Some r, _ => Some (release false (to_creator (CrDone r) c))
  | CrWaiting, None, false =>
      let e := error_caused_by (error_closed "child Python session during startup") (ForeignError RecvError "channel closed" None) in
      Some (release false (to_creator (CrDone (Err e)) c))
  | _, _, _ => None
  end.

(** The future is dropped, and with it a session it was told of. *)
Definition creator_dropped (c : Child) : option Child :=
  match c_creator c with CrWaiting => Some (release false (hold_session false (to_creator CrDropped c))) | _ => None end.

(** The last clone of the session is dropped. *)
Definition session_dropped (c : Child) : option Child :=
  match c_creator c, c_session c with CrDone (Ok _), true => Some (release false (hold_session false c)) | _, _ => None end.

(** [ChildLoop::shutdown], up to the join. *)
Definition child_shutdown (c : Child) : option Child :=
  match c_creator c, c_session c with
  | CrDone (Ok _), true => Some (let c := child_stop c in match c_handle c with InSlot => to_handle Joining c | _ => c end)
  | _, _ => None
  end.

Inductive child_thread_step : Child → Child → Prop :=
| ct_created r c c' : child_created r c = Some c' → child_thread_step c c'
| ct_upgrade c c' : ready_upgrade c = Some c' → child_thread_step c c'
| ct_bound bound stopped c c' : ready_bound bound stopped c = Some c' → child_thread_step c c'
| ct_loop escaped c c' : loop_ends escaped c = Some c' → child_thread_step c c'
| ct_ends c c' : thread_ends c = Some c' → child_thread_step c c'.

Inductive child_step : Child → Child → Prop :=
| ch_thread c c' : child_thread_step c c' → child_step c c'
| ch_poll c c' : creator_poll c = Some c' → child_step c c'
| ch_creator_dropped c c' : creator_dropped c = Some c' → child_step c c'
| ch_session_dropped c c' : session_dropped c = Some c' → child_step c c'
| ch_shutdown c c' : child_shutdown c = Some c' → child_step c c'.

Definition child_reach (c : Child) : Prop := rtc child_step child_init c.

(** ** What holds of every state *)

Definition past_loop (c : Child) : bool := match c_thread c with COver _ | CEnded => true | _ => false end.

Record child_inv (c : Child) : Prop := {
  (** The sender waits for one answer. *)
  cv_sender : c_sender c = true → c_told c = None;
  (** Before the loop nobody was told, and there is no session. *)
  cv_before : match c_thread c with CCreating | CCalling | CBinding => c_sender c = true ∧ c_session c = false | _ => True end;
  (** An ended thread has told, or dropped its sender. *)
  cv_ended : match c_thread c with CEnded | CLooping => c_sender c = false | _ => True end;
  (** A session is somebody's: of a creator that was told of it, or will be. *)
  cv_session : c_session c = true → c_told c = Some (Ok tt) ∧ (c_creator c = CrWaiting ∨ ∃ u, c_creator c = CrDone (Ok u));
  cv_told_ok : c_told c = Some (Ok tt) → is_waiting c = true → c_session c = true;
  (** A loop can be stopped by whoever holds it, or was asked to stop. *)
  cv_loop : match c_thread c with
            | CBinding => c_slot c = true
            | CLooping => (c_slot c = true ∧ referenced c = true) ∨ c_stop c = true
            | _ => True
            end;
  cv_done : ∀ r, c_creator c = CrDone r → match c_told c with Some r' => r = r' | None => is_ok r = false end;
  cv_looping : c_thread c = CLooping → is_waiting c = true → c_session c = true;
}.

(** Every field of the child that a move looks at, taken apart; then what is left is
    propositional. *)
Ltac child_cases :=
  repeat match goal with
         | H : Some _ = Some _ |- _ => injection H as <-
         | H : context [if ?b then _ else _] |- _ => is_var b; destruct b; simpl in *; try discriminate
         | |- context [if ?b then _ else _] => is_var b; destruct b; simpl in *
         | H : context [match ?x with _ => _ end] |- _ => is_var x; destruct x; simpl in *; try discriminate
         | |- context [match ?x with _ => _ end] => is_var x; destruct x; simpl in *
         | |- context [?b || _] => is_var b; destruct b; simpl in *
         | |- context [_ || ?b] => is_var b; destruct b; simpl in *
         end.

Ltac child_unfold :=
  unfold release, child_drop, child_stop, referenced, is_waiting, is_binding, to_thread, to_creator, tell, drop_sender, hold_session, fill_slot,
    ask_stop, to_handle in *; simpl in *.

Ltac child_solve c E f :=
  destruct c as [th cr snd tld ses slt stp hdl]; intros [I1 I2 I3 I4 I5 I6 I7 I8]; unfold f in E; child_unfold;
  destruct th as [| | | |o|]; try discriminate E; destruct cr as [|r0|]; simpl in *; try discriminate E; child_cases;
  split; simpl; child_cases; naive_solver.

Lemma child_inv_created r c c' : child_created r c = Some c' → child_inv c → child_inv c'.
Proof. intros E. child_solve c E child_created. Qed.

Lemma child_inv_upgrade c c' : ready_upgrade c = Some c' → child_inv c → child_inv c'.
Proof. intros E. child_solve c E ready_upgrade. Qed.

Lemma child_inv_bound bound stopped c c' : ready_bound bound stopped c = Some c' → child_inv c → child_inv c'.
Proof. intros E. child_solve c E ready_bound. Qed.

Lemma child_inv_loop escaped c c' : loop_ends escaped c = Some c' → child_inv c → child_inv c'.
Proof. intros E. child_solve c E loop_ends. Qed.

Lemma child_inv_ends c c' : thread_ends c = Some c' → child_inv c → child_inv c'.
Proof. intros E. child_solve c E thread_ends. Qed.

Lemma child_inv_poll c c' : creator_poll c = Some c' → child_inv c → child_inv c'.
Proof. intros E. child_solve c E creator_poll. Qed.

Lemma child_inv_creator_dropped c c' : creator_dropped c = Some c' → child_inv c → child_inv c'.
Proof. intros E. child_solve c E creator_dropped. Qed.

Lemma child_inv_session_dropped c c' : session_dropped c = Some c' → child_inv c → child_inv c'.
Proof. intros E. child_solve c E session_dropped. Qed.

Lemma child_inv_shutdown c c' : child_shutdown c = Some c' → child_inv c → child_inv c'.
Proof. intros E. child_solve c E child_shutdown. Qed.

Lemma child_reach_inv c : child_reach c → child_inv c.
Proof.
  apply (rtc_invariant child_step child_inv); [by split|]. intros c1 c2 [d d' [r e e' E|e e' E|bound stopped e e' E|escaped e e' E|e e' E]|d d' E|d d' E|d d' E|d d' E].
  - by eapply child_inv_created.
  - by eapply child_inv_upgrade.
  - by eapply child_inv_bound.
  - by eapply child_inv_loop.
  - by eapply child_inv_ends.
  - by eapply child_inv_poll.
  - by eapply child_inv_creator_dropped.
  - by eapply child_inv_session_dropped.
  - by eapply child_inv_shutdown.
Qed.

(** A shutdown reaches the loop. *)
Lemma shutdown_stops c c' : child_shutdown c = Some c' → child_inv c → c_stop c' = true ∨ past_loop c' = true.
Proof.
  intros E. destruct c as [th cr snd tld ses slt stp hdl]. intros [I1 I2 I3 I4 I5 I6 I7 I8]. unfold child_shutdown, past_loop in *. child_unfold.
  destruct cr as [|[]|]; try discriminate E. destruct ses, slt, hdl; try discriminate E; injection E as <-; destruct th; simpl in *; naive_solver.
Qed.

(** The thread's moves when nothing raises: nothing but a stop ends its loop. *)
Inductive calm_step : Child → Child → Prop :=
| calm_created c c' : child_created (Ok tt) c = Some c' → calm_step c c'
| calm_upgrade c c' : ready_upgrade c = Some c' → calm_step c c'
| calm_bound c c' : ready_bound (Ok tt) (Ok tt) c = Some c' → calm_step c c'
| calm_loop c c' : loop_ends None c = Some c' → calm_step c c'
| calm_ends c c' : thread_ends c = Some c' → calm_step c c'.

Definition comes_to_end (c : Child) : Prop := ∃ c', rtc calm_step c c' ∧ c_thread c' = CEnded.

Lemma comes_l c c' : calm_step c c' → comes_to_end c' → comes_to_end c.
Proof. intros Hs (c'' & Hr & He). exists c''. split; [by eapply rtc_l|done]. Qed.

Lemma over_ends c o : c_thread c = COver o → comes_to_end c.
Proof.
  intros Ht. eapply comes_l; [apply calm_ends; unfold thread_ends; by rewrite Ht|]. eexists. split; [apply rtc_refl|done].
Qed.

Lemma looping_ends c : c_thread c = CLooping → c_stop c = true → comes_to_end c.
Proof.
  intros Ht Hs. eapply comes_l; [apply calm_loop; unfold loop_ends; by rewrite Ht, Hs|]. by eapply over_ends.
Qed.

Lemma binding_ends c : c_thread c = CBinding → is_waiting c = false ∨ c_stop c = true → comes_to_end c.
Proof.
  intros Ht Hw. eapply comes_l; [apply calm_bound; unfold ready_bound; by rewrite Ht|].
  destruct (is_waiting c) eqn:Ew; [|by apply looping_ends; [unfold release, child_drop, child_stop; simpl; repeat case_match|]].
  destruct Hw as [|Hs]; [done|]. by apply looping_ends.
Qed.

Lemma calling_ends c : c_thread c = CCalling → is_waiting c = false ∨ c_stop c = true → comes_to_end c.
Proof.
  intros Ht Hw. eapply comes_l; [apply calm_upgrade; unfold ready_upgrade; by rewrite Ht|].
  destruct (referenced c); [by apply binding_ends | by eapply over_ends].
Qed.

Lemma stopped_child_ends c : child_inv c → referenced c = false ∨ c_stop c = true → comes_to_end c.
Proof.
  intros Hi Hs.
  assert (is_waiting c = false ∨ c_stop c = true) as Hw.
  { destruct Hs as [Hr|]; [left|by right]. unfold referenced in Hr. by destruct (is_waiting c). }
  pose proof (cv_loop c Hi) as Hloop. destruct (c_thread c) as [| | | |o|] eqn:Ht.
  - eapply comes_l; [apply calm_created; unfold child_created; by rewrite Ht|]. by apply calling_ends.
  - by apply calling_ends.
  - by apply binding_ends.
  - apply looping_ends; [done|]. destruct Hs as [Hr|]; [|done]. destruct Hloop as [[_ ?]|]; congruence.
  - by eapply over_ends.
  - by exists c.
Qed.

(** C34: (child sessions) however the start of a child's thread, the future that
    waits for it, the session's owner and its shutdown interleave: the thread
    answers its creator once or drops the sender, so a creator never waits for a
    thread that ended; a session its creator was given is what the thread told; a
    child nobody holds any more, because its creation was cancelled before or
    after it was ready or because its session was dropped, ends its thread by
    itself; and so does a child that was shut down.  No child's thread stays
    behind. *)
Theorem child_lifecycle c :
  child_reach c →
  (c_thread c = CEnded → c_creator c = CrWaiting → is_Some (creator_poll c)) ∧
  (∀ u, c_creator c = CrDone (Ok u) → c_told c = Some (Ok u)) ∧
  (referenced c = false → comes_to_end c) ∧
  (∀ c', child_shutdown c = Some c' → comes_to_end c').
Proof.
  intros Hi%child_reach_inv. split_and!.
  - intros Ht Hc. pose proof (cv_ended c Hi) as He. rewrite Ht in He. unfold creator_poll. rewrite Hc, He. destruct (c_told c); by eexists.
  - intros u Hc. pose proof (cv_done c Hi (Ok u) Hc) as Hd. destruct (c_told c); [by f_equal|done].
  - intros Hr. apply stopped_child_ends; auto.
  - intros c' E. pose proof (child_inv_shutdown c c' E Hi) as Hi'. destruct (shutdown_stops c c' E Hi) as [Hs|Hp]; [apply stopped_child_ends; auto|].
    unfold past_loop in Hp. destruct (c_thread c') eqn:Ht; try discriminate Hp; [by eapply over_ends | by exists c'].
Qed.

(** ** Witness *)

(** A child that is ready, whose session its creator takes and then drops. *)
Definition child_run (c : Child) : option Child :=
  c1 ← child_created (Ok tt) c; c2 ← ready_upgrade c1; c3 ← ready_bound (Ok tt) (Ok tt) c2; c4 ← creator_poll c3; session_dropped c4.

Definition demo_child : Child := unwrap_or (child_run child_init) child_init.

Lemma demo_child_reach : child_reach demo_child.
Proof.
  eapply rtc_l; [apply ch_thread, (ct_created (Ok tt)); reflexivity|]. eapply rtc_l; [apply ch_thread, ct_upgrade; reflexivity|].
  eapply rtc_l; [apply ch_thread, (ct_bound (Ok tt) (Ok tt)); reflexivity|]. eapply rtc_l; [apply ch_poll; reflexivity|].
  apply rtc_once, ch_session_dropped. reflexivity.
Qed.

Lemma child_lifecycle_witness : c_thread demo_child = CLooping ∧ comes_to_end demo_child.
Proof. split; [reflexivity|]. destruct (child_lifecycle demo_child demo_child_reach) as (_ & _ & Hr & _). apply Hr. reflexivity. Defined.
