(* ===== verification/Hosts.v ===== *)
(** * The programs that run a kernel

    [KernelInterrupter] and [run_kernel] of src/src/engine.rs, [run_kernel] of
    the Python module (src/py/src/python.rs), and the echo kernel
    (src/src/bin/kernmini-echo.rs). *)

From Stdlib Require Import ZArith Floats.SpecFloat.
From stdpp Require Import base gmap list strings.
From S2P Require Import Prelude Json Errors Wire Language Startup Services Requests PyAdapter.

(** ** [KernelInterrupter]

    A [Notify]: [notify_one] leaves a permit if nobody waits, and a waiter that is
    dropped before it saw its notification passes it on, so the state is whether
    there is a permit.  [notified] completes when it takes the permit. *)
Record KernelInterrupter := MkInterrupter { permit : bool }.

Definition interrupter_default : KernelInterrupter := MkInterrupter false.
Definition interrupter_interrupt (_ : KernelInterrupter) : KernelInterrupter := MkInterrupter true.

(** A poll of [notified]: whether it completes. *)
Definition interrupter_notified (i : KernelInterrupter) : bool * KernelInterrupter := (permit i, interrupter_default).

Inductive InterrupterOp := DoInterrupt | DoPoll.

(** The polls that complete, among all polls, in order. *)
Fixpoint interrupter_polls (i : KernelInterrupter) (ops : list InterrupterOp) : list bool :=
  match ops with
  | [] => []
  | DoInterrupt :: ops' => interrupter_polls (interrupter_interrupt i) ops'
  | DoPoll :: ops' => let '(b, i') := interrupter_notified i in b :: interrupter_polls i' ops'
  end.

(** A poll completes exactly when there was an interrupt since the poll before it:
    none is lost, and several together interrupt once. *)
Lemma interrupter_polls_spec i n ops :
  interrupter_polls i (repeat DoInterrupt n ++ DoPoll :: ops) = (permit i || bool_decide (0 < n)) :: interrupter_polls interrupter_default ops.
Proof.
  revert i. induction n as [|n IH]; intros i; simpl; [by rewrite orb_false_r|]. rewrite IH. simpl.
  f_equal. destruct (permit i), (bool_decide (0 < n)); done.
Qed.

(** [run_kernel]: the task that turns Ctrl-C into interrupts, until waiting for
    one fails; [signals] is how each wait ends. *)
Fixpoint signal_task (signals : list (Result unit)) (i : KernelInterrupter) : KernelInterrupter :=
  match signals with
  | Ok _ :: signals' => signal_task signals' (interrupter_interrupt i)
  | _ => i
  end.

(** ** [run_kernel] of the Python module

    [ended] is when the engine ends and how, [orphaned] when a look at the parent
    process, one every 100 ms, finds another one. *)
Fixpoint orphaned_at (parent_pid : Z) (time : Z) (looks : list Z) : option Z :=
  match looks with
  | [] => None
  | pid :: looks' => if decide (pid = parent_pid) then orphaned_at parent_pid (time + 100) looks' else Some (time + 100)%Z
  end.

(** The select: which branch is polled first when both are ready is [kernel_first]. *)
Definition kernel_result (owns_process_group kernel_first : bool) (ended : option (Z * Result unit)) (orphaned : option Z) : option (Z * Result unit) :=
  match owns_process_group, ended, orphaned with
  | false, _, _ => ended
  | true, Some (t, r), Some o =>
      if (t <? o)%Z || ((t =? o)%Z && kernel_first) then Some (t, r) else Some (o, Ok tt)
  | true, Some (t, r), None => Some (t, r)
  | true, None, Some o => Some (o, Ok tt)
  | true, None, None => None
  end.

(** Before that, [run_kernel] prepares the main thread.  How its calls of Python go:
    the locals of the running task, the bridge's [bind_shell], the module
    [signal], making the router of SIGINT, installing it, and [get_ident]. *)
Record PythonStart := MkPythonStart {
  ps_locals : PyResult unit; ps_bind_shell : PyResult unit; ps_signal : PyResult unit; ps_router : PyResult unit;
  ps_install : PyResult unit; ps_ident : PyResult Z }.

(** [PyLanguageSession::with_locals] and [PyLanguageSession::new]. *)
Definition session_with_locals (ps : PythonStart) : PyResult unit := ps_bind_shell ps.
Definition py_session_new (ps : PythonStart) : PyResult unit := _ ← ps_locals ps; session_with_locals ps.

(** The first lines of [run_kernel], on [MAIN_THREAD], a [OnceLock] that keeps its
    first value. *)
Definition python_prepare (ps : PythonStart) (main : option Z) : PyResult unit * option Z :=
  match (_ ← py_session_new ps; _ ← ps_signal ps; _ ← ps_router ps; _ ← ps_install ps; ps_ident ps) with
  | Ok ident => (Ok tt, Some (unwrap_or main ident))
  | Err e => (Err e, main)
  end.

(** Interrupts are sent as SIGINT only once the router is installed for it, and to
    the thread of the first kernel. *)
Lemma python_prepare_main ps main r main' :
  python_prepare ps main = (r, main') →
  (r = Ok tt ↔ is_ok (ps_locals ps) && is_ok (ps_bind_shell ps) && is_ok (ps_signal ps) && is_ok (ps_router ps) && is_ok (ps_install ps) && is_ok (ps_ident ps) = true) ∧
  (main' ≠ main → main = None ∧ is_ok (ps_install ps) = true) ∧ (∀ t, main = Some t → main' = Some t) ∧ (r = Ok tt → is_Some main').
Proof.
  unfold python_prepare, py_session_new, session_with_locals.
  destruct (ps_locals ps) as [[]|e1], (ps_bind_shell ps) as [[]|e2], (ps_signal ps) as [[]|e3], (ps_router ps) as [[]|e4], (ps_install ps) as [[]|e5], (ps_ident ps) as [ident|e6];
    simpl; intros [= <- <-]; destruct main; simpl; naive_solver.
Qed.

(** What it then does to its process group. *)
Inductive GroupAction := Eprintln (line : string) | Killpg (signal : string) | SleepMs (ms : Z).

Definition end_process_group (owns_process_group : bool) (result : Result unit) : list GroupAction :=
  if owns_process_group then
    match result with Err e => [Eprintln ("kernel failed: " +:+ to_string e)] | Ok _ => [] end ++ [Killpg "SIGTERM"; SleepMs 60; Killpg "SIGKILL"]
  else [].

Definition python_run_kernel (owns_process_group kernel_first : bool) (ended : option (Z * Result unit)) (parent_pid : Z) (looks : list Z) :
    option (list GroupAction * result PyExc unit) :=
  match kernel_result owns_process_group kernel_first ended (orphaned_at parent_pid 0 looks) with
  | Some (_, result) => Some (end_process_group owns_process_group result, map_err py_error result)
  | None => None
  end.

Lemma orphaned_at_spec parent time looks pid k :
  looks !! k = Some pid → pid ≠ parent → (∀ j p, j < k → looks !! j = Some p → p = parent) →
  orphaned_at parent time looks = Some (time + 100 * (Z.of_nat k + 1))%Z.
Proof.
  revert time k. induction looks as [|p looks IH]; intros time k Hk Hne Hbefore; [done|]. cbn [orphaned_at].
  destruct k as [|k].
  - simpl in Hk. injection Hk as ->. rewrite decide_False by done. done.
  - rewrite decide_True by (apply (Hbefore 0); [lia|done]). rewrite (IH (time + 100)%Z k Hk Hne); [f_equal; lia|].
    intros j p' Hj Hp. apply (Hbefore (S j)); [lia|done].
Qed.

(** (orphans) a kernel that owns its process group and whose parent process went
    away stops within a look, even if the engine would go on for ever, and
    whatever ends it takes its whole group with it: asked first, and killed 60 ms
    later; without a group of its own it does neither. *)
Theorem orphan_takes_its_group kernel_first parent_pid looks pid k :
  looks !! k = Some pid → pid ≠ parent_pid → (∀ j p, j < k → looks !! j = Some p → p = parent_pid) →
  python_run_kernel true kernel_first None parent_pid looks = Some ([Killpg "SIGTERM"; SleepMs 60; Killpg "SIGKILL"], Ok tt) ∧
  (∀ ended r, ∃ before, python_run_kernel true kernel_first (Some (ended, r)) parent_pid [] =
     Some (before ++ [Killpg "SIGTERM"; SleepMs 60; Killpg "SIGKILL"], map_err py_error r)) ∧
  (∀ ended r, python_run_kernel false kernel_first (Some (ended, r)) parent_pid looks = Some ([], map_err py_error r)).
Proof.
  intros Hk Hne Hb. unfold python_run_kernel. rewrite (orphaned_at_spec _ _ _ _ _ Hk Hne Hb). split_and!; [done| |done].
  intros ended r. destruct r; [by exists [] | by eexists [_]].
Qed.

(** ** The echo kernel *)

Section Echo.
(** [str::parse::<f64>], its error's [Display], and [str::to_uppercase]. *)
Context (parse_f64 : string → result string spec_float) (to_uppercase : string → string).

Definition echo_kernel_info : KernelInfo :=
  MkKernelInfo "echokernel" "0.0.1" "echo"
    (Obj [("name", Str "echo"); ("version", Str "1.0"); ("mimetype", Str "text/plain"); ("file_extension", Str ".txt")]).

Definition newline : string := String (Ascii.ascii_of_nat 10) "".

Definition echo_line (code : string) : ContextMessage := Event (Stream "stdout" ("echo: " +:+ code +:+ newline)).

Definition echo_outcome (code : string) : ExecuteOutcome :=
  let error := if decide (code = "boom") then Some (MkLanguageError "EchoError" code []) else None in
  MkExecuteOutcome (if error then None else Some (Obj [("text/plain", Str (to_uppercase code))])) (Obj []) error (Obj []) (Arr []).

(** [EchoSession::execute]: the nanoseconds it sleeps and how it ends; [None] if
    it panics, in [Duration::from_secs_f64]. *)
Definition echo_execute (code : string) : option (Z * LanguageRun ExecuteOutcome) :=
  if decide (code = "adapter-error") then
    Some (0%Z, MkLanguageRun [] (Err (error_adapter (ForeignError OtherError "echo adapter failed" None))))
  else
    match strip_prefix "sleep:" code with
    | None => Some (0%Z, MkLanguageRun [[echo_line code]] (Ok (echo_outcome code)))
    | Some seconds =>
        match parse_f64 seconds with
        | Err d => Some (0%Z, MkLanguageRun [[echo_line code]]
                      (Err (error_caused_by (error_new InvalidInput "invalid sleep duration") (ForeignError OtherError d None))))
        | Ok f =>
            match duration_from_secs_f64 f with
            | Some nanos => Some (nanos, MkLanguageRun [[echo_line code]] (Ok (echo_outcome code)))
            | None => None
            end
        end
    end.

(** The session; [panicked] is what the engine gets of a call that panics. *)
Definition echo_session (panicked : LanguageRun ExecuteOutcome) : LanguageSession unit :=
  session_with_defaults (λ _ _, Ok echo_kernel_info) (λ _ _ ex _, unwrap_or (snd <$> echo_execute (ex_code ex)) panicked).

(** [main], before it runs the kernel. *)
Definition echo_main (args : list string) : Result string :=
  match args !! 1 with Some file => Ok file | None => Err (error_new InvalidInput "usage: kernmini-echo CONNECTION_FILE") end.
End Echo.

(** The panics are exactly the sleeps that parse as a number that is no duration. *)
Lemma echo_panics parse_f64 to_uppercase code :
  echo_execute parse_f64 to_uppercase code = None ↔
    ∃ s f, strip_prefix "sleep:" code = Some s ∧ parse_f64 s = Ok f ∧ duration_from_secs_f64 f = None.
Proof.
  unfold echo_execute. destruct (decide (code = "adapter-error")) as [->|]; [split; [done|by intros (s & f & ? & _)]|].
  destruct (strip_prefix "sleep:" code) as [s|]; [|split; [done|by intros (s & f & ? & _)]].
  destruct (parse_f64 s) as [f|d] eqn:Ef; [|split; [done|by intros (s' & f & [= <-] & ? & _); congruence]].
  destruct (duration_from_secs_f64 f) eqn:Ed; split; try done; [intros (s' & f' & [= <-] & ? & ?); congruence|eauto].
Qed.

Lemma echo_execute_run parse_f64 to_uppercase code slept run :
  echo_execute parse_f64 to_uppercase code = Some (slept, run) →
  run_batches run = (if decide (code = "adapter-error") then [] else [[echo_line code]]) ∧
  (run_outcome run = Ok (echo_outcome to_uppercase code) ∨
   ∃ e, run_outcome run = Err e ∧ error_kind e ≠ Closed ∧ error_kind e ≠ Interrupted).
Proof.
  unfold echo_execute. destruct (decide (code = "adapter-error")); [intros [= <- <-]; split; [done|right; by eexists]|].
  destruct (strip_prefix "sleep:" code) as [s|]; [|intros [= <- <-]; by split; [|left]].
  destruct (parse_f64 s) as [f|d]; [|intros [= <- <-]; split; [done|right; by eexists]].
  destruct (duration_from_secs_f64 f); [|done]. intros [= <- <-]. by split; [|left].
Qed.

Section EchoReplies.
Context `{JsonTotal} (ks : KernelServices) (parse_f64 : string → result string spec_float) (to_uppercase : string → string).
Context (panicked : LanguageRun ExecuteOutcome).
#[local] Instance echo_instance : LanguageSession unit := echo_session parse_f64 to_uppercase panicked.

(** (the echo kernel) an execution of the echo language that does not panic
    shows its client, in this order: busy; unless it is silent, the input and
    one line of output, the code echoed; then the code in upper case as the
    result, or for [boom] an [EchoError], or for a sleep that is no number or for
    [adapter-error] a [KernelError]; exactly one reply with that verdict; and
    idle. *)
Theorem echo_execution inb ex n w slept run :
  msg_type (in_message inb) = "execute_request" → echo_execute parse_f64 to_uppercase (ex_code ex) = Some (slept, run) → ex_silent ex = false →
  let req := in_message inb in
  let code := ex_code ex in
  let echoed := if decide (code = "adapter-error") then []
                else [OPub (header req) "stream" (Obj [("name", Str "stdout"); ("text", Str ("echo: " +:+ code +:+ newline))])] in
  ∃ w' verdict c,
    emits_at w (run_execution ks tt inb ex n)
      (Ok (MkDone (bool_decide (code = "boom" ∨ is_ok (run_outcome run) = false)) (unwrap_or (get_bool (content req) "stop_on_error") true)))
      ([status_obs req "busy"; OPub (header req) "execute_input" (Obj [("code", Str code); ("execution_count", jnat n)])] ++ echoed ++
       [verdict; ORep (in_reply inb) (header req) "execute_reply" c; status_obs req "idle"]) w' ∧
    match run_outcome run with
    | Err _ => value_index c "ename" = Str "KernelError"
    | Ok _ => if decide (code = "boom") then value_index c "ename" = Str "EchoError"
              else value_index c "status" = Str "ok" ∧
                   verdict = OPub (header req) "execute_result"
                     (Obj [("execution_count", jnat n); ("data", Obj [("text/plain", Str (to_uppercase code))]); ("metadata", Obj [])])
    end.
Proof.
  intros Hex Hrun Hsilent. cbv zeta. destruct (run_execution_run ks tt inb ex n w Hex) as (t & w' & E). cbv zeta in E.
  change (lang_execute tt t ex (output_context (in_message inb) true n)) with (unwrap_or (snd <$> echo_execute parse_f64 to_uppercase (ex_code ex)) panicked) in E.
  rewrite Hrun in E. cbn [fmap option_fmap option_map unwrap_or snd] in E. rewrite Hsilent in E.
  destruct (echo_execute_run _ _ _ _ _ Hrun) as [Hb Hout]. rewrite Hb in E.
  assert (run_obs (in_message inb) false (Some (in_identity inb)) (if decide (ex_code ex = "adapter-error") then [] else [[echo_line (ex_code ex)]]) =
    if decide (ex_code ex = "adapter-error") then []
    else [OPub (header (in_message inb)) "stream" (Obj [("name", Str "stdout"); ("text", Str ("echo: " +:+ ex_code ex +:+ newline))])]) as Ho.
  { case_decide; reflexivity. }
  rewrite Ho in E. exists w'. destruct Hout as [Hok|(e & Herr & Hc & Hi)].
  - rewrite Hok in *. unfold verdict_obs, verdict_content, echo_outcome in *. cbn [oc_error oc_result is_ok oc_result_metadata] in *.
    destruct (decide (ex_code ex = "boom")) as [Hboom|Hboom]; cbn [oc_error oc_result oc_result_metadata oc_user_expressions oc_payload] in *.
    + eexists _, _. split; [|shelve]. rewrite (bool_decide_true (_ ∨ _)) by by left. rewrite bool_decide_true in E by by eexists. exact E.
      Unshelve. reflexivity.
    + rewrite Hsilent in E. eexists _, _. split; [|shelve]. rewrite (bool_decide_false (_ ∨ _)) by naive_solver.
      rewrite bool_decide_false in E by by intros []. exact E.
      Unshelve. by split.
  - rewrite Herr in *. rewrite decide_False in E by done. eexists _, _. split.
    + rewrite bool_decide_true by by right. exact E.
    + unfold verdict_content. rewrite (decide_False (P := error_kind e = Interrupted)) by done. by rewrite error_content_ename.
Qed.
End EchoReplies.

(** A negative sleep is one: the engine then loses the execution's task, instead of
    the error the code has for a sleep that is no duration. *)
Theorem echo_negative_sleep_panics parse_f64 to_uppercase :
  parse_f64 "-1" = Ok (f64_of_Z (-1)) → echo_execute parse_f64 to_uppercase "sleep:-1" = None.
Proof. intros Hp. apply echo_panics. exists "-1", (f64_of_Z (-1)). split_and!; [done..|]. vm_compute. reflexivity. Qed.
