(* ===== verification/Shell.v ===== *)
(** * The shell scheduler (src/src/engine.rs, [Shell])

    One scheduler per language session: it owns the queue of requests, the
    active execution, the held request, and the stop and interrupt flags.

    [run] is a loop that shares its channels with other tasks.  Its states are
    the record [Shell]; [phase] is the point of the loop it is at; [shell_step]
    is what it does from there up to the next point.  Between two steps the
    environment may act: messages and controls arrive, the spawned execution
    makes progress, the rest of the kernel goes on ([Label], [sys_step]).

    A spawned execution is a task of its own.  [spawn_execution] runs
    [run_execution] on a world of its own and keeps the outputs it will send in
    [a_todo]; [LProgress] sends the next one between two steps of the shell.  The
    language is an arbitrary function of the moment of the call, so it may have
    answered to the interrupts it is sent.  The task is finished when none is
    left; dropping it aborts it.

    Code need not end.  Nothing makes the next [LProgress] happen: code that never
    returns, or ignores its interrupt, is an execution whose next one never comes,
    and [LOutput] is what such code sends meanwhile, without limit.  A task may
    also panic ([LPanic]): then it is finished, what it had still to send is lost,
    and joining it gives a [JoinError]. *)

From Stdlib Require Import ZArith.
From stdpp Require Import base gmap sets list strings.
From Corelib.Floats Require Import SpecFloat.
From S2P Require Import Prelude Json Errors Wire Language Services Queue Requests.

(** [a_panicked] is the [Display] of the [JoinError] of a task that panicked. *)
Record ActiveExecution := MkActive { a_todo : list Output; a_result : Result ExecutionDone; a_interrupted : bool; a_panicked : option string }.

(** What joining the task gives. *)
Definition joined (a : ActiveExecution) : Result ExecutionDone :=
  match a_panicked a with Some d => Err (from_join_error d) | None => a_result a end.

(** [Release] carries the number of the oneshot its answer goes to. *)
Inductive ShellControl :=
| Release (msg_id status : string) (complete : nat)
| Interrupt
| Stop.

Inductive Phase := PIncoming | PControls | PReap | PPop | PSelect | PDone (r : Result unit).

Record Shell := MkShell {
  incoming : list Inbound;
  controls : list ShellControl;
  queue : list QueueItem;
  next_order : Z;
  held : option Held;
  active : option ActiveExecution;
  stopping : bool;
  interrupting : bool;
  execution_count : Z;
  released : list (nat * bool);
  phase : Phase;
}.

(** Field updates. *)
Definition set_incoming (s : Shell) x := MkShell x (controls s) (queue s) (next_order s) (held s) (active s) (stopping s) (interrupting s) (execution_count s) (released s) (phase s).
Definition set_controls (s : Shell) x := MkShell (incoming s) x (queue s) (next_order s) (held s) (active s) (stopping s) (interrupting s) (execution_count s) (released s) (phase s).
Definition set_queue (s : Shell) x := MkShell (incoming s) (controls s) x (next_order s) (held s) (active s) (stopping s) (interrupting s) (execution_count s) (released s) (phase s).
Definition set_held (s : Shell) x := MkShell (incoming s) (controls s) (queue s) (next_order s) x (active s) (stopping s) (interrupting s) (execution_count s) (released s) (phase s).
Definition set_active (s : Shell) x := MkShell (incoming s) (controls s) (queue s) (next_order s) (held s) x (stopping s) (interrupting s) (execution_count s) (released s) (phase s).
Definition set_stopping (s : Shell) x := MkShell (incoming s) (controls s) (queue s) (next_order s) (held s) (active s) x (interrupting s) (execution_count s) (released s) (phase s).
Definition set_interrupting (s : Shell) x := MkShell (incoming s) (controls s) (queue s) (next_order s) (held s) (active s) (stopping s) x (execution_count s) (released s) (phase s).
Definition set_count (s : Shell) x := MkShell (incoming s) (controls s) (queue s) (next_order s) (held s) (active s) (stopping s) (interrupting s) x (released s) (phase s).
Definition set_phase (s : Shell) x := MkShell (incoming s) (controls s) (queue s) (next_order s) (held s) (active s) (stopping s) (interrupting s) (execution_count s) (released s) x.
Definition add_released (s : Shell) k b := MkShell (incoming s) (controls s) (queue s) (next_order s) (held s) (active s) (stopping s) (interrupting s) (execution_count s) (released s ++ [(k, b)]) (phase s).

(** [spawn_shell]: the state [run] starts in. *)
Definition shell_init : Shell := MkShell [] [] [] 0 None None false false 0 [] PIncoming.

Definition priority_of (inb : Inbound) : spec_float :=
  unwrap_or (map_get (metadata (in_message inb)) "priority" ≫= as_f64) f64_zero.

Definition is_hold (inb : Inbound) : bool := unwrap_or (mget_bool (metadata (in_message inb)) "hold") false.

Definition enqueue (s : Shell) (inb : Inbound) : Shell :=
  MkShell (incoming s) (controls s) (queue s ++ [MkItem (priority_of inb) (next_order s) inb]) (u64_add (next_order s) 1)
    (held s) (active s) (stopping s) (interrupting s) (execution_count s) (released s) (phase s).

(** [while let Ok(inbound) = self.incoming.try_recv() { self.enqueue(inbound) }]. *)
Definition drain_incoming (s : Shell) : Shell := foldl enqueue (set_incoming s []) (incoming s).

Definition count_execution (s : Shell) (ex : ExecuteRequest) : Z * Shell :=
  let s := if ex_store_history ex && negb (ex_silent ex) then set_count s (u64_add (execution_count s) 1) else s in
  (execution_count s, s).

Section Shell.
Context `{WireExt} `{LanguageSession L} (ks : KernelServices) (lang : L).

(** The loop of [abort_pending] over the popped items. *)
Fixpoint abort_loop (n : Z) (items keep : list QueueItem) : M (list QueueItem) :=
  match items with
  | [] => mret keep
  | item :: items' =>
      if is_execute (inbound item) then abort_execute ks n (inbound item) ;;; abort_loop n items' keep
      else abort_loop n items' (keep ++ [item])
  end.

Definition abort_pending (s : Shell) : M Shell :=
  let s := drain_incoming s in
  keep ← abort_loop (execution_count s) (drain (queue s)) [];
  mret (set_queue s keep).

Definition apply_control (s : Shell) (c : ShellControl) : M Shell :=
  match c with
  | Release id release_status complete =>
      match held s with
      | Some h =>
          if decide (msg_id (in_message (inbound (held_item h))) = id) then
            did_fail ← finish_hold ks (execution_count s) (held_item h) release_status;
            let s := set_held s None in
            s ← (if did_fail : bool then abort_pending s else mret s);
            mret (add_released s complete true)
          else mret (add_released s complete false)
      | None => mret (add_released s complete false)
      end
  | Interrupt =>
      let s := set_interrupting s true in
      s ← match active s with
          | Some a =>
              (r ← call (lang_on_interrupt lang); lift r) ;;;
              mret (set_active s (Some (MkActive (a_todo a) (a_result a) true (a_panicked a))))
          | None => mret s
          end;
      s ← match held s with
          | Some h => finish_hold ks (execution_count s) (held_item h) "interrupt" ;;; mret (set_held s None)
          | None => mret s
          end;
      abort_pending s
  | Stop => mret (set_stopping s true)
  end.

Definition execution_done (s : Shell) (done : ExecutionDone) : M Shell :=
  let s := set_active s None in
  if failed done && stop_on_error done && negb (interrupting s) then abort_pending s else mret s.

(** [tokio::spawn(run_execution(..))]: what the task will send, and its result if
    it gets there. *)
Definition spawn_execution (inb : Inbound) (ex : ExecuteRequest) (n : Z) : M ActiveExecution := λ w,
  let '(r, w') := run_execution ks lang inb ex n (MkWorld (tick w) (now w) (closed_sinks w) (pending w) (failures w) []) in
  (Ok (MkActive (trace w') r false None), MkWorld (tick w') (now w) (closed_sinks w) (pending w) (failures w') (trace w)).

(** The first branch of [handle_item]: a request that is not an execute. *)
Definition handle_other (s : Shell) (inb : Inbound) : M bool :=
  r ← catch (handle_shell ks lang inb (execution_count s));
  match r with
  | Ok outcome => mret (match outcome with Shutdown => true | Continue => false end)
  | Err error =>
      report_failure ks (in_message inb) (in_reply inb) error (execution_count s) ;;;
      if decide (error_kind error = Closed) then throw error else mret false
  end.

Definition handle_item (s : Shell) (item : QueueItem) : M (Shell * bool) :=
  let inb := inbound item in
  if negb (is_execute inb) then shutdown ← handle_other s inb; mret (s, shutdown)
  else if interrupting s then interrupt_execute ks (execution_count s) inb ;;; mret (s, false)
  else
    let missing := missing_fields (in_message inb) in
    if negb (bool_decide (missing = [])) then
      reply_missing ks (execution_count s) (in_message inb) (in_reply inb) missing ;;;
      s ← abort_pending s;
      mret (s, false)
    else if is_hold inb then
      begin_hold ks (execution_count s) item ;;;
      t ← gets now;
      mret (set_held s (Some (MkHeld item (t + ks_hold_timeout ks))), false)
    else
      let execution := execute_request (content (in_message inb)) in
      let '(n, s) := count_execution s execution in
      a ← spawn_execution inb execution n;
      mret (set_active s (Some a), false).

(** [task.is_finished()]. *)
Definition finished (a : ActiveExecution) : bool := bool_decide (is_Some (a_panicked a)) || bool_decide (length (a_todo a) = 0).

(** [language.shutdown().await], ending the loop with its result. *)
Definition shutdown_language (s : Shell) : M Shell :=
  r ← call (lang_shutdown lang); mret (set_phase s (PDone r)).

(** The branch of [select!] that completes. *)
Inductive Choice := SelIncoming | SelControl | SelExecution | SelHold | SelIncomingClosed | SelControlClosed.

(** [wait_hold]: whether the wait is over; without a deadline it never is. *)
Definition wait_hold (deadline : option Z) (now : Z) : bool := match deadline with Some d => (d <=? now)%Z | None => false end.

(** Which branches can complete. *)
Definition ready (s : Shell) (w : World) (c : Choice) : bool :=
  match c with
  | SelIncoming => negb (bool_decide (length (incoming s) = 0))
  | SelControl => negb (bool_decide (length (controls s) = 0))
  | SelExecution => match active s with Some a => finished a | None => false end
  | SelHold => wait_hold (deadline <$> held s) (now w)
  | SelIncomingClosed => bool_decide (length (incoming s) = 0)
  | SelControlClosed => bool_decide (length (controls s) = 0)
  end.

Definition select_step (c : Choice) (s : Shell) : M Shell :=
  match c with
  | SelIncoming =>
      match incoming s with i :: rest => mret (enqueue (set_incoming s rest) i) | [] => mret s end
  | SelControl =>
      match controls s with k :: rest => apply_control (set_controls s rest) k | [] => mret s end
  | SelExecution =>
      match active s with Some a => done ← lift (joined a); execution_done s done | None => mret s end
  | SelHold =>
      match held s with
      | Some h => finish_hold ks (execution_count s) (held_item h) "timeout" ;;; abort_pending (set_held s None)
      | None => mret s
      end
  | SelIncomingClosed => throw (error_closed "shell service")
  | SelControlClosed => throw (error_closed "shell control")
  end.

Definition reap (s : Shell) : M Shell :=
  match active s with
  | Some a => if finished a then done ← lift (joined a); execution_done s done else mret s
  | None => mret s
  end.

Definition shell_step (c : Choice) (s : Shell) : M Shell :=
  match phase s with
  | PIncoming =>
      match incoming s with
      | i :: rest => mret (enqueue (set_incoming s rest) i)
      | [] => mret (set_phase s PControls)
      end
  | PControls =>
      match controls s with
      | k :: rest => apply_control (set_controls s rest) k
      | [] => mret (set_phase s PReap)
      end
  | PReap =>
      s ← reap s;
      let s := if interrupting s && bool_decide (active s = None) then set_interrupting s false else s in
      if stopping s && bool_decide (queue s = []) && bool_decide (active s = None) && bool_decide (held s = None)
      then shutdown_language s
      else mret (set_phase s PPop)
  | PPop =>
      match pop_runnable (queue s) (bool_decide (is_Some (active s))) (held s) with
      | (Some item, q) =>
          r ← handle_item (set_queue s q) item;
          let '(s, stop) := r in
          if stop : bool then shutdown_language s else mret (set_phase s PIncoming)
      | (None, q) => mret (set_phase (set_queue s q) PSelect)
      end
  | PSelect => s ← select_step c s; mret (set_phase s PIncoming)
  | PDone _ => mret s
  end.
End Shell.

(** ** The shell in its environment *)

Inductive Label :=
| LArrive (inb : Inbound)
| LControl (c : ShellControl)
| LProgress
| LOutput (o : Output)
| LPanic (display : string)
| LWorld (w' : World) (outs : list Output)
| LStep (c : Choice).

Definition running (s : Shell) : bool := match phase s with PDone _ => false | _ => true end.

Definition set_world_trace (w : World) (l : list Output) : World :=
  MkWorld (tick w) (now w) (closed_sinks w) (pending w) (failures w) l.

Section System.
Context `{WireExt} `{LanguageSession L} (ks : KernelServices) (lang : L).

(** One move of the shell or of its environment.  [LWorld] is what the rest of
    the kernel does meanwhile: time passes, peers close, other tasks send their
    own outputs.  [LOutput] is an output of the running code, which is no reply.
    A step that fails ends the shell task with the error. *)
Inductive sys_step : Label → Shell * World → Shell * World → Prop :=
| step_arrive s w inb :
    running s = true → sys_step (LArrive inb) (s, w) (set_incoming s (incoming s ++ [inb]), w)
| step_control s w c :
    running s = true → sys_step (LControl c) (s, w) (set_controls s (controls s ++ [c]), w)
| step_progress s w a o rest :
    running s = true → active s = Some a → a_panicked a = None → a_todo a = o :: rest →
    sys_step LProgress (s, w)
      (set_active s (Some (MkActive rest (a_result a) (a_interrupted a) None)), set_world_trace w (trace w ++ [o]))
| step_output s w a o :
    running s = true → active s = Some a → finished a = false → answers [o] = [] →
    sys_step (LOutput o) (s, w) (s, set_world_trace w (trace w ++ [o]))
| step_panic s w a d :
    running s = true → active s = Some a → finished a = false →
    sys_step (LPanic d) (s, w) (set_active s (Some (MkActive [] (a_result a) (a_interrupted a) (Some d))), w)
| step_world s w w' outs :
    (now w ≤ now w')%Z → trace w' = trace w ++ outs → sys_step (LWorld w' outs) (s, w) (s, w')
| step_shell s w c s' w' :
    running s = true → (phase s = PSelect → ready s w c = true) →
    shell_step ks lang c s w = (Ok s', w') → sys_step (LStep c) (s, w) (s', w')
| step_shell_err s w c e w' :
    running s = true → (phase s = PSelect → ready s w c = true) →
    shell_step ks lang c s w = (Err e, w') → sys_step (LStep c) (s, w) (set_phase s (PDone (Err e)), w').

(** Runs, with the labels of their moves. *)
Inductive run_from (c0 : Shell * World) : list Label → Shell * World → Prop :=
| run_nil : run_from c0 [] c0
| run_snoc ls c l c' : run_from c0 ls c → sys_step l c c' → run_from c0 (ls ++ [l]) c'.
End System.

Definition arrival (l : Label) : option Inbound := match l with LArrive inb => Some inb | _ => None end.
Definition received (ls : list Label) : list Inbound := omap arrival ls.

(** What the rest of the kernel sent. *)
Definition foreign_output (l : Label) : list Output := match l with LWorld _ outs => outs | _ => [] end.
Definition foreign (ls : list Label) : list Output := concat (map foreign_output ls).
