(* ===== verification/Ledger.v ===== *)
(** * Every request is accounted for (src/src/engine.rs, [Shell])

    The ledger of a shell: the replies it sent, the reply its active execution
    will still send, and the requests in its hands.  No step of the shell or of
    its environment changes the ledger except the arrival of a request, which
    adds it. *)

From Stdlib Require Import ZArith.
From stdpp Require Import base gmap sets list strings.
From S2P Require Import Prelude Json Errors Wire Language Services Queue Requests Shell.

(** The requests in the shell's hands. *)
Definition outstanding (s : Shell) : list Inbound :=
  incoming s ++ map inbound (queue s) ++ match held s with Some h => [inbound (held_item h)] | None => [] end.

Definition todo (s : Shell) : list Output := match active s with Some a => a_todo a | None => [] end.

Definition keys (l : list Inbound) : list (nat * Map) := map request_key (filter is_request_message l).

Definition ledger (s : Shell) (w : World) : list (nat * Map) :=
  answers (trace w) ++ answers (todo s) ++ keys (outstanding s).

Lemma keys_app l l' : keys (l ++ l') = keys l ++ keys l'.
Proof. unfold keys. by rewrite filter_app, map_app. Qed.

#[export] Instance keys_proper : Proper ((≡ₚ) ==> (≡ₚ)) keys.
Proof. intros l l' E. unfold keys. by rewrite E. Qed.

Lemma keys_one inb : is_request_message inb = true → keys [inb] = [request_key inb].
Proof. intros E. unfold keys. rewrite filter_cons_True; [done|]. by rewrite E. Qed.

Lemma keys_none inb : is_request_message inb = false → keys [inb] = [].
Proof. intros E. unfold keys. rewrite filter_cons_False; [done|]. rewrite E. intros []. Qed.

Lemma is_execute_request inb : is_execute inb = true → is_request_message inb = true.
Proof. unfold is_execute, is_request_message. intros ->%bool_decide_eq_true. done. Qed.

Lemma quiet_run {A} (m : M A) w r w' : quiet m → m w = (r, w') → answers (trace w') = answers (trace w).
Proof. intros Hq E. specialize (Hq w). by rewrite E in Hq. Qed.

Lemma answers_one_run {A} (m : M A) k w r w' :
  answers_one m k → m w = (r, w') → answers (trace w') = answers (trace w) ++ [k].
Proof. intros Ho E. specialize (Ho w). by rewrite E in Ho. Qed.

(** Closes a goal on the answers of a run from the lemma on its operation. *)
Ltac by_answer lem := match goal with E : _ = (Ok _, _) |- _ => exact (answers_one_run _ _ _ _ _ (lem _ _) E)
  | E : _ = (Ok _, _) |- _ => exact (answers_one_run _ _ _ _ _ (lem _ _ _ _) E) end.

(** Queued and held items carry the priority of their request; the held one is
    an execute request that asks to be held. *)
Definition good (s : Shell) : Prop :=
  (∀ q, q ∈ queue s → priority q = priority_of (inbound q)) ∧
  (∀ h, held s = Some h → priority (held_item h) = priority_of (inbound (held_item h)) ∧
     is_execute (inbound (held_item h)) = true ∧ is_hold (inbound (held_item h)) = true).

(** No request is lost, made up or answered twice from [(s, w)] to [(s', w')]. *)
Definition conserves (s : Shell) (w : World) (s' : Shell) (w' : World) : Prop :=
  ledger s' w' ≡ₚ ledger s w ∧ (∀ i, i ∈ outstanding s' → i ∈ outstanding s) ∧ (good s → good s').

Lemma conserves_refl s w : conserves s w s w.
Proof. split_and!; auto. Qed.

Lemma conserves_trans s1 w1 s2 w2 s3 w3 :
  conserves s1 w1 s2 w2 → conserves s2 w2 s3 w3 → conserves s1 w1 s3 w3.
Proof. intros (A1 & A2 & A3) (B1 & B2 & B3). split_and!; [by rewrite B1 | auto | auto]. Qed.

(** The fields the ledger reads. *)
Lemma conserves_same s w s' w' :
  answers (trace w') = answers (trace w) → incoming s' = incoming s → queue s' = queue s →
  held s' = held s → answers (todo s') = answers (todo s) → conserves s w s' w'.
Proof.
  intros Ew Ei Eq Eh Et. unfold conserves, ledger, good, outstanding. rewrite Ew, Ei, Eq, Eh, Et. auto.
Qed.

(** A change of the requests in the shell's hands, balanced by answers [l]. *)
Lemma conserves_ledger s w s' w' l :
  answers (trace w') = answers (trace w) ++ l → answers (todo s') = answers (todo s) →
  keys (outstanding s) ≡ₚ l ++ keys (outstanding s') →
  (∀ i, i ∈ outstanding s' → i ∈ outstanding s) → (good s → good s') → conserves s w s' w'.
Proof.
  intros Ew Et Ek Ho Hg. split_and!; [|done..]. unfold ledger. rewrite Ew, Et, Ek.
  rewrite <- !app_assoc. apply Permutation_app_head. by rewrite (Permutation_app_comm l), <- !app_assoc, (Permutation_app_comm l).
Qed.

Lemma enqueue_conserves s w i rest :
  incoming s = i :: rest → conserves s w (enqueue (set_incoming s rest) i) w.
Proof.
  intros Ei.
  assert (outstanding (enqueue (set_incoming s rest) i) ≡ₚ outstanding s) as Ho.
  { unfold outstanding. rewrite Ei. simpl. rewrite map_app. simpl. rewrite <- !app_assoc. simpl.
    by rewrite <- !Permutation_middle. }
  apply (conserves_ledger _ _ _ _ []); simpl; [by rewrite app_nil_r | done | by rewrite Ho | by intros j; rewrite Ho |].
  intros [Hq Hh]. split; [|done]. simpl. intros q [?|Eq%list_elem_of_singleton]%elem_of_app; subst; auto.
Qed.

Definition same_rest (s s' : Shell) : Prop :=
  active s' = active s ∧ held s' = held s ∧ phase s' = phase s ∧ interrupting s' = interrupting s ∧
  stopping s' = stopping s ∧ execution_count s' = execution_count s ∧ controls s' = controls s ∧ released s' = released s.

Lemma drain_incoming_spec s w : conserves s w (drain_incoming s) w ∧ same_rest s (drain_incoming s) ∧ incoming (drain_incoming s) = [].
Proof.
  unfold drain_incoming. remember (incoming s) as l eqn:El. revert s El.
  induction l as [|i l IH]; intros s El; simpl.
  { split_and!; try done. by apply conserves_same. }
  destruct (IH (enqueue (set_incoming s l) i) eq_refl) as (Hc & Hr & Hi).
  change (enqueue (set_incoming s []) i) with (set_incoming (enqueue (set_incoming s l) i) []).
  split_and!; [|exact Hr|exact Hi]. eapply conserves_trans; [by apply enqueue_conserves | exact Hc].
Qed.

Section Conservation.
Context `{JsonTotal} `{LanguageSession L} (ks : KernelServices) (lang : L).

Lemma abort_loop_spec n items keep w keep' w' :
  abort_loop ks n items keep w = (Ok keep', w') →
  ∃ aborted, items ≡ₚ aborted ++ filter (λ q, is_execute (inbound q) = false) items ∧
    Forall (λ q, is_execute (inbound q) = true) aborted ∧
    keep' = keep ++ filter (λ q, is_execute (inbound q) = false) items ∧
    answers (trace w') = answers (trace w) ++ map (request_key ∘ inbound) aborted.
Proof.
  revert keep w. induction items as [|q items IH]; intros keep w E; simpl in E.
  { injection E as <- <-. exists []. rewrite !app_nil_r. auto. }
  destruct (is_execute (inbound q)) eqn:Hx.
  - apply bind_inv in E as (u & w1 & E1 & E). destruct (IH _ _ E) as (ab & P1 & F1 & K1 & A1).
    apply (answers_one_run _ _ _ _ _ (answers_one_abort_execute ks n (inbound q))) in E1.
    exists (q :: ab). rewrite filter_cons_False by congruence. split_and!; [by simpl; rewrite <- P1 | by constructor | done|].
    rewrite A1, E1, <- app_assoc. done.
  - destruct (IH _ _ E) as (ab & P1 & F1 & K1 & A1). exists ab. rewrite filter_cons_True by done.
    split_and!; [by rewrite <- Permutation_middle, <- P1 | done | by rewrite K1, <- app_assoc | done].
Qed.

Lemma keys_executes (l : list QueueItem) :
  Forall (λ q, is_execute (inbound q) = true) l → keys (map inbound l) = map (request_key ∘ inbound) l.
Proof.
  induction 1 as [|q l Hq _ IH]; [done|]. simpl. rewrite <- IH. unfold keys.
  rewrite filter_cons_True; [done|]. by rewrite is_execute_request.
Qed.

(** [abort_pending] answers every queued execute request, in queue order, and
    keeps the other requests. *)
Lemma abort_pending_spec s w s' w' :
  abort_pending ks s w = (Ok s', w') →
  conserves s w s' w' ∧ same_rest s s' ∧ incoming s' = [] ∧
  (∀ q, q ∈ queue s' → is_execute (inbound q) = false).
Proof.
  unfold abort_pending. intros E. destruct (drain_incoming_spec s w) as (Hc & Hr & Hi).
  set (s1 := drain_incoming s) in *. apply bind_inv in E as (keep & w1 & E & E'). injection E' as <- <-.
  apply abort_loop_spec in E as (ab & P & F & K & A). simpl in K.
  assert (queue s1 ≡ₚ ab ++ keep) as Pq.
  { rewrite K. etransitivity; [symmetry; apply drain_items | exact P]. }
  split_and!; [|done|done|].
  - eapply conserves_trans; [exact Hc|]. apply (conserves_ledger _ _ _ _ _ A); [done| | |].
    + unfold outstanding. simpl. rewrite Hi. simpl. rewrite !keys_app, Pq, map_app, keys_app, keys_executes by done.
      by rewrite <- app_assoc.
    + intros i. unfold outstanding. simpl. rewrite Hi. simpl. rewrite Pq, map_app. set_solver.
    + intros [Hq Hh]. split; [|done]. simpl. intros q Hin. apply Hq. rewrite Pq. set_solver.
  - simpl. rewrite K. intros q Hq%list_elem_of_filter. naive_solver.
Qed.
Lemma finish_hold_conserves s w h st b w1 :
  good s → held s = Some h → finish_hold ks (execution_count s) (held_item h) st w = (Ok b, w1) →
  conserves s w (set_held s None) w1.
Proof.
  intros [Hq Hh] Eh E. destruct (Hh h Eh) as (_ & Hx & _).
  apply (answers_one_run _ _ _ _ _ (answers_one_finish_hold ks _ _ _)) in E.
  apply (conserves_ledger _ _ _ _ _ E); [done | | |].
  - unfold outstanding. rewrite Eh. simpl. rewrite !keys_app, keys_one by by apply is_execute_request.
    rewrite app_nil_r. by rewrite !(Permutation_app_comm _ [request_key _]), app_assoc, (Permutation_app_comm _ [request_key _]).
  - intros i. unfold outstanding. rewrite Eh. simpl. set_solver.
  - intros _. split; [done|]. done.
Qed.

Lemma apply_control_conserves s w c s' w' :
  good s → apply_control ks lang s c w = (Ok s', w') → conserves s w s' w' ∧ phase s' = phase s.
Proof.
  intros Hg E. destruct c as [id st k| |]; simpl in E.
  - destruct (held s) as [h|] eqn:Eh; [|injection E as <- <-; split; [by apply conserves_same | done]].
    case_decide as Hid; [|injection E as <- <-; split; [by apply conserves_same | done]].
    apply bind_inv in E as (b & w1 & E1 & E). apply bind_inv in E as (s2 & w2 & E2 & E). injection E as <- <-.
    pose proof (finish_hold_conserves _ _ _ _ _ _ Hg Eh E1) as C1.
    assert (conserves (set_held s None) w1 s2 w2 ∧ phase s2 = phase s) as [C2 Hp].
    { destruct b; [|injection E2 as <- <-; auto using conserves_refl].
      apply abort_pending_spec in E2 as (C2 & (_ & _ & Hp & _) & _). auto. }
    split; [|done]. eapply conserves_trans; [exact C1|]. eapply conserves_trans; [exact C2 | by apply conserves_same].
  - apply bind_inv in E as (s1 & w1 & E1 & E). apply bind_inv in E as (s2 & w2 & E2 & E).
    assert (conserves s w s1 w1 ∧ phase s1 = phase s) as [C1 Hp1].
    { destruct (active s) as [a|] eqn:Ea; [|injection E1 as <- <-; split; [by apply conserves_same | done]].
      apply bind_inv in E1 as (u & w1' & Eq & E1). injection E1 as <- <-.
      split; [|done]. apply conserves_same; try done; [|unfold todo; by rewrite Ea].
      eapply quiet_run; [|exact Eq]. quiet. }
    assert (conserves s1 w1 s2 w2 ∧ phase s2 = phase s1) as [C2 Hp2].
    { destruct (held s1) as [h|] eqn:Eh; [|injection E2 as <- <-; auto using conserves_refl].
      apply bind_inv in E2 as (b & w2' & Eq & E2). injection E2 as <- <-.
      split; [|done]. eapply finish_hold_conserves; [by apply C1 | done | exact Eq]. }
    apply abort_pending_spec in E as (C3 & (_ & _ & Hp3 & _) & _).
    split; [eauto using conserves_trans | congruence].
  - injection E as <- <-. split; [by apply conserves_same | done].
Qed.

Lemma execution_done_conserves s w a done s' w' :
  active s = Some a → answers (a_todo a) = [] → execution_done ks s done w = (Ok s', w') →
  conserves s w s' w' ∧ phase s' = phase s ∧ active s' = None.
Proof.
  intros Ea Et. unfold execution_done. intros E.
  assert (conserves s w (set_active s None) w) as C1 by (apply conserves_same; try done; unfold todo; by rewrite Ea, Et).
  case_match.
  - apply abort_pending_spec in E as (C2 & (Ha & _ & Hp & _) & _). split_and!; [eauto using conserves_trans | done..].
  - injection E as <- <-. auto.
Qed.

(** A task that was joined with a result has sent all it had to. *)
Lemma finished_joined a d : finished a = true → joined a = Ok d → a_todo a = [].
Proof.
  unfold finished, joined. destruct (a_panicked a); [done|]. rewrite bool_decide_false by (by intros [? ?]). simpl.
  by intros ?%bool_decide_eq_true%nil_length_inv.
Qed.

Lemma reap_conserves s w s' w' :
  reap ks s w = (Ok s', w') → conserves s w s' w' ∧ phase s' = phase s ∧ (∀ a, active s' = Some a → active s = Some a).
Proof.
  unfold reap. destruct (active s) as [a|] eqn:Ea; [|intros [= <- <-]; rewrite Ea; auto using conserves_refl].
  destruct (finished a) eqn:Hf; [|intros [= <- <-]; rewrite Ea; auto using conserves_refl].
  intros E. apply bind_inv in E as (done & w1 & E1 & E). injection E1 as Hj <-. pose proof (finished_joined _ _ Hf Hj) as Ht.
  destruct (execution_done_conserves _ _ _ _ _ _ Ea ltac:(by rewrite Ht) E) as (? & ? & ->). by split_and!.
Qed.

Lemma handle_other_answers s inb w b w' :
  is_execute inb = false → handle_other ks lang s inb w = (Ok b, w') →
  answers (trace w') = answers (trace w) ++ keys [inb].
Proof.
  intros Hx E. unfold handle_other in E.
  assert (msg_type (in_message inb) ≠ "execute_request") as Hne by by apply bool_decide_eq_false in Hx.
  assert (keys [inb] = if is_request_message inb then [request_key inb] else []) as ->.
  { destruct (is_request_message inb) eqn:?; auto using keys_one, keys_none. }
  pose proof (answers_handle_shell ks lang inb (execution_count s) Hne w) as Ha.
  apply bind_inv in E as (r & w1 & E1 & E). unfold catch in E1.
  destruct (handle_shell ks lang inb (execution_count s) w) as [r' w1']. simpl in Ha. injection E1 as <- <-.
  destruct r' as [o|e]; simpl in Ha; [by injection E as _ <-|]. rewrite app_nil_r in Ha.
  apply bind_inv in E as (u & w2 & E2 & E). assert (w' = w2) as -> by (case_decide; by injection E).
  rewrite <- Ha. unfold is_request_message.
  destruct (ends_with "_request" (msg_type (in_message inb))) eqn:Hr.
  - by apply (answers_one_run _ _ _ _ _ (answers_one_report_failure ks _ _ _ _ Hr)) in E2.
  - apply (quiet_run _ _ _ _ (quiet_report_failure ks _ _ _ _ Hr)) in E2. by rewrite app_nil_r.
Qed.

Lemma spawn_execution_answers inb ex n w a w' :
  is_execute inb = true → spawn_execution ks lang inb ex n w = (Ok a, w') →
  answers (trace w') = answers (trace w) ∧ answers (a_todo a) = [request_key inb].
Proof.
  intros Hx E. unfold spawn_execution in E.
  pose proof (answers_one_run_execution ks lang inb ex n (is_execute_request _ Hx)
    (MkWorld (tick w) (now w) (closed_sinks w) (pending w) (failures w) [])) as Ha.
  destruct (run_execution ks lang inb ex n _) as [r w1]. simpl in Ha. by injection E as <- <-.
Qed.
Lemma outstanding_take s q item :
  queue s ≡ₚ item :: q → outstanding s ≡ₚ inbound item :: outstanding (set_queue s q).
Proof.
  intros E. unfold outstanding. rewrite E. simpl. by rewrite <- Permutation_middle.
Qed.

(** An item taken from the queue and answered. *)
Lemma take_conserves s q item w w' :
  queue s ≡ₚ item :: q → answers (trace w') = answers (trace w) ++ keys [inbound item] →
  conserves s w (set_queue s q) w'.
Proof.
  intros E A. pose proof (outstanding_take s q item E) as Ho. apply (conserves_ledger _ _ _ _ _ A); [done| | |].
  - rewrite Ho. change (inbound item :: ?l) with ([inbound item] ++ l). by rewrite keys_app.
  - intros i. rewrite Ho. by right.
  - intros [Hq Hh]. split; [|done]. simpl. intros x Hx. apply Hq. rewrite E. by right.
Qed.

Lemma runnable_execute act hd item :
  is_execute (inbound item) = true → runnable act hd item = true → act = false ∧ above_hold hd item = true.
Proof. unfold runnable. intros ->. simpl. destruct act; [done|]. auto. Qed.

Lemma handle_item_conserves s q item w s' b w' :
  good s → queue s ≡ₚ item :: q →
  runnable (bool_decide (is_Some (active s))) (held s) item = true →
  (∀ h, held s = Some h → is_hold (inbound item) = true → f64_gt (priority item) (priority (held_item h)) = false) →
  handle_item ks lang (set_queue s q) item w = (Ok (s', b), w') →
  conserves s w s' w' ∧ phase s' = phase s.
Proof.
  intros Hg Eq Hr Hno E. unfold handle_item in E. set (inb := inbound item) in *.
  assert (is_execute inb = true → keys [inb] = [request_key inb]) as Hk.
  { intros. by apply keys_one, is_execute_request. }
  destruct (is_execute inb) eqn:Hx; cbn [negb] in E.
  2: { run_inv. split; [|done]. eapply take_conserves; [done|].
       match goal with E : handle_other _ _ _ _ _ = _ |- _ => exact (handle_other_answers _ _ _ _ _ Hx E) end. }
  specialize (Hk eq_refl). destruct (runnable_execute _ _ _ Hx Hr) as [Hact Hab].
  destruct (interrupting (set_queue s q)).
  { run_inv. split; [|done]. eapply take_conserves; [done|]. fold inb. rewrite Hk.
    by_answer (answers_one_interrupt_execute ks). }
  destruct (bool_decide (missing_fields (in_message inb) = [])); cbn [negb] in E.
  2: { run_inv. match goal with E : abort_pending _ _ _ = _ |- _ => apply abort_pending_spec in E as (C2 & (_ & _ & Hp & _) & _) end.
       split; [|done]. eapply conserves_trans; [|exact C2]. eapply take_conserves; [done|]. fold inb. rewrite Hk.
       by_answer (answers_one_reply_missing ks). }
  pose proof (outstanding_take s q item Eq) as Ho. fold inb in Ho.
  assert (priority item = priority_of inb ∧ ∀ x, x ∈ q → priority x = priority_of (inbound x)) as [Hpi Hpq].
  { destruct Hg as [Hq _]. split; [apply Hq; rewrite Eq; left|]. intros x ?. apply Hq. rewrite Eq. by right. }
  destruct (is_hold inb) eqn:Hhold.
  - assert (held s = None) as Eh.
    { destruct (held s) as [h|] eqn:Eh; [|done]. simpl in Hab. rewrite (Hno h) in Hab; done. }
    run_inv. split; [|done]. match goal with E : begin_hold _ _ _ _ = _ |- _ => apply (quiet_run _ _ _ _ (quiet_begin_hold ks _ _)) in E end.
    match goal with E : gets now _ = _ |- _ => injection E as _ <- end.
    match goal with |- conserves s w (set_held _ (Some ?hd)) _ =>
      assert (outstanding (set_held (set_queue s q) (Some hd)) ≡ₚ outstanding s) as Ho' end.
    { rewrite Ho. unfold outstanding. simpl. rewrite Eh. simpl. by rewrite !app_assoc, app_nil_r, Permutation_app_comm. }
    apply (conserves_ledger _ _ _ _ []); [by rewrite app_nil_r | done | by rewrite Ho' | intros i; by rewrite Ho' |].
    intros _. split; [done|]. by intros h [= <-].
  - assert (active s = None) as Ea by by destruct (active s).
    destruct (count_execution (set_queue s q) (execute_request (content (in_message inb)))) as [n s1] eqn:Ec.
    assert (incoming s1 = incoming s ∧ queue s1 = q ∧ held s1 = held s ∧ phase s1 = phase s) as (Hi1 & Hq1 & Hh1 & Hp1).
    { unfold count_execution in Ec. injection Ec as _ <-. by case_match. }
    run_inv. split; [|done]. match goal with E : spawn_execution _ _ _ _ _ _ = _ |- _ =>
      apply spawn_execution_answers in E as [Aw At]; [|done] end.
    split_and!.
    + unfold ledger, todo. rewrite Aw, Ea, Ho. simpl. rewrite At. change (inb :: ?l) with ([inb] ++ l). rewrite keys_app, Hk.
      unfold outstanding. simpl. by rewrite Hi1, Hh1.
    + intros i Hin. rewrite Ho. right. unfold outstanding in *. simpl in *. by rewrite Hi1, Hh1 in Hin.
    + intros [_ Hh]. split; simpl; [|by rewrite Hh1]. intros x Hxq. by apply Hpq.
Qed.
(** No queued hold request is strictly above the held one. *)
Definition no_overtake (s : Shell) : Prop :=
  ∀ h q, held s = Some h → q ∈ queue s → is_hold (inbound q) = true → f64_gt (priority q) (priority (held_item h)) = false.

Lemma shutdown_language_conserves s w s' w' :
  shutdown_language lang s w = (Ok s', w') → conserves s w s' w'.
Proof.
  unfold shutdown_language. intros E. apply bind_inv in E as (r & w1 & E1 & E). injection E as <- <-.
  apply conserves_same; try done. eapply quiet_run; [apply quiet_call | exact E1].
Qed.

Lemma select_step_conserves c s w s' w' :
  good s → ready s w c = true → select_step ks lang c s w = (Ok s', w') → conserves s w s' w'.
Proof.
  intros Hg Hr E. destruct c; simpl in E; try done.
  - destruct (incoming s) as [|i rest] eqn:Ei; injection E as <- <-; [apply conserves_refl | by apply enqueue_conserves].
  - destruct (controls s) as [|k rest]; [injection E as <- <-; apply conserves_refl|].
    apply apply_control_conserves in E as [C _]; [|done]. eapply conserves_trans; [|exact C]. by apply conserves_same.
  - destruct (active s) as [a|] eqn:Ea; [|injection E as <- <-; apply conserves_refl]. simpl in Hr. rewrite Ea in Hr.
    apply bind_inv in E as (done & w1 & E1 & E). injection E1 as Hj <-. pose proof (finished_joined _ _ Hr Hj) as Ht.
    by destruct (execution_done_conserves _ _ _ _ _ _ Ea ltac:(by rewrite Ht) E).
  - destruct (held s) as [h|] eqn:Eh; [|injection E as <- <-; apply conserves_refl].
    apply bind_inv in E as (b & w1 & E1 & E). apply abort_pending_spec in E as [C2 _].
    eapply conserves_trans; [|exact C2]. by eapply finish_hold_conserves.
Qed.

Lemma shell_step_conserves c s w s' w' :
  good s → no_overtake s → (phase s = PSelect → ready s w c = true) →
  shell_step ks lang c s w = (Ok s', w') → conserves s w s' w'.
Proof.
  intros Hg Hno Hready E. unfold shell_step in E. destruct (phase s) eqn:Hp.
  - destruct (incoming s) as [|i rest] eqn:Ei; injection E as <- <-; [by apply conserves_same | by apply enqueue_conserves].
  - destruct (controls s) as [|k rest]; [injection E as <- <-; by apply conserves_same|].
    apply apply_control_conserves in E as [C _]; [|done]. eapply conserves_trans; [|exact C]. by apply conserves_same.
  - apply bind_inv in E as (s1 & w1 & E1 & E). apply reap_conserves in E1 as [C1 _].
    eapply conserves_trans; [exact C1|].
    destruct (interrupting s1 && bool_decide (active s1 = None)).
    all: case_match; [apply shutdown_language_conserves in E; eapply conserves_trans; [|exact E]; by apply conserves_same
                     |injection E as <- <-; by apply conserves_same].
  - pose proof (pop_runnable_items (queue s) (bool_decide (is_Some (active s))) (held s)) as Hpop.
    destruct (pop_runnable _ _ _) as [[item|] q].
    + destruct Hpop as [Eq Hr]. apply bind_inv in E as ([s1 stop] & w1 & E1 & E).
      apply handle_item_conserves in E1 as [C1 _]; [|done..|].
      * destruct stop; [apply shutdown_language_conserves in E; by eapply conserves_trans|].
        injection E as <- <-. eapply conserves_trans; [exact C1 | by apply conserves_same].
      * intros h Eh Hh. apply (Hno h); [done | rewrite Eq; left | done].
    + injection E as <- <-. apply (conserves_ledger _ _ _ _ []); [by rewrite app_nil_r | done | | |]; simpl.
      * unfold outstanding. simpl. by rewrite Hpop.
      * intros i. unfold outstanding. simpl. by rewrite Hpop.
      * intros [Hq Hh]. split; [|done]. simpl. intros x. rewrite Hpop. auto.
  - apply bind_inv in E as (s1 & w1 & E1 & E). injection E as <- <-.
    apply select_step_conserves in E1; [|done|auto]. eapply conserves_trans; [exact E1 | by apply conserves_same].
  - injection E as <- <-. apply conserves_refl.
Qed.

(** An output of the execution: its reply is taken off what is still to come. *)
Lemma progress_conserves s w a o rest :
  active s = Some a → a_todo a = o :: rest →
  conserves s w (set_active s (Some (MkActive rest (a_result a) (a_interrupted a) None))) (set_world_trace w (trace w ++ [o])).
Proof.
  intros Ha Ht. split_and!; [|done..]. unfold ledger, todo. simpl. rewrite Ha, Ht.
  change (o :: rest) with ([o] ++ rest). by rewrite !answers_app, <- !app_assoc.
Qed.

Lemma output_conserves s w o : answers [o] = [] → conserves s w s (set_world_trace w (trace w ++ [o])).
Proof. intros E. apply conserves_same; try done. simpl. by rewrite answers_app, E, app_nil_r. Qed.

Lemma received_snoc ls l : received (ls ++ [l]) = received ls ++ match arrival l with Some i => [i] | None => [] end.
Proof. unfold received. rewrite omap_app. simpl. by destruct (arrival l). Qed.

(** No hold request in [l] is strictly above another. *)
Definition holds_level (l : list Inbound) : Prop :=
  ∀ i j, i ∈ l → j ∈ l → is_hold i = true → is_hold j = true → f64_gt (priority_of i) (priority_of j) = false.

(** The shell task has failed, or its execution has panicked, by which it will. *)
Definition panicked (s : Shell) : bool := match active s with Some a => bool_decide (is_Some (a_panicked a)) | None => false end.

Definition failed_shell (s : Shell) : bool := match phase s with PDone (Err _) => true | _ => panicked s end.

Lemma panicked_some s : panicked s = true → ∃ a, active s = Some a ∧ is_Some (a_panicked a).
Proof. unfold panicked. destruct (active s); [|done]. intros ?%bool_decide_eq_true. eauto. Qed.

Lemma panicked_active s s' : active s' = active s → panicked s' = panicked s.
Proof. unfold panicked. by intros ->. Qed.

(** The shell goes on with a panicked execution only until it joins it. *)
Lemma panicked_apply_control s c w s' w' : apply_control ks lang s c w = (Ok s', w') → panicked s = true → panicked s' = true.
Proof.
  assert (∀ s w s' w', abort_pending ks s w = (Ok s', w') → active s' = active s) as Hab.
  { intros s0 w0 s0' w0' (_ & (? & _) & _)%abort_pending_spec. done. }
  intros E Hp. destruct c as [id st n| |]; simpl in E; [| |by run_inv].
  - destruct (held s) as [h|]; [case_decide|]; run_inv; try done.
    match goal with E : (if ?b then _ else _) _ = _ |- _ => destruct b; [apply Hab in E|]; run_inv end; [|done].
    by rewrite (panicked_active s) by done.
  - apply bind_inv in E as (s1 & w1 & E1 & E). apply bind_inv in E as (s2 & w2 & E2 & E). apply Hab in E.
    destruct (panicked_some _ Hp) as (a & Ea & Ha). rewrite Ea in E1. apply bind_inv in E1 as (u & w1' & _ & E1). injection E1 as <- <-.
    assert (active s2 = Some (MkActive (a_todo a) (a_result a) true (a_panicked a))) as E3 by (simpl in E2; destruct (held s); by run_inv).
    unfold panicked. rewrite E, E3. simpl. by apply bool_decide_eq_true.
Qed.

Lemma panicked_step c s w s' w' :
  (phase s = PSelect → ready s w c = true) → shell_step ks lang c s w = (Ok s', w') → panicked s = true → panicked s' = true.
Proof.
  intros Hr E Hp. destruct (panicked_some _ Hp) as (a & Ea & [d Hd]). unfold shell_step in E. destruct (phase s) eqn:Eph.
  - destruct (incoming s); by run_inv.
  - destruct (controls s); [by run_inv|]. apply panicked_apply_control in E; [done|]. exact Hp.
  - apply bind_inv in E as (s1 & w1 & E1 & E). unfold reap in E1. rewrite Ea in E1. unfold finished, joined in E1. rewrite Hd in E1. done.
  - destruct (pop_runnable _ _ _) as [[item|] q] eqn:Epop; [|by run_inv].
    pose proof (pop_runnable_items (queue s) (bool_decide (is_Some (active s))) (held s)) as Hi. rewrite Epop in Hi. destruct Hi as [_ Hi].
    apply bind_inv in E as ([s1 b] & w1 & E1 & E). assert (active s1 = active s) as Ea1.
    { unfold handle_item in E1. destruct (is_execute (inbound item)) eqn:Hx; cbn [negb] in E1; [|by run_inv].
      unfold runnable in Hi. rewrite Hx, (bool_decide_true (is_Some (active s))) in Hi by (rewrite Ea; by eexists). done. }
    unfold shutdown_language in E. destruct b; run_inv; unfold panicked in *; simpl; by rewrite Ea1.
  - apply bind_inv in E as (s1 & w1 & E1 & E). run_inv. change (panicked s1 = true). destruct c; simpl in E1; try done.
    + destruct (incoming s); by run_inv.
    + destruct (controls s); [by run_inv|]. by apply panicked_apply_control in E1.
    + rewrite Ea in E1. unfold joined in E1. by rewrite Hd in E1.
    + destruct (held s); [|by run_inv]. apply bind_inv in E1 as (b & w2 & _ & E1). apply abort_pending_spec in E1 as (_ & (Ea1 & _) & _).
      by rewrite (panicked_active s) by done.
  - by run_inv.
Qed.

Lemma failed_step c s w s' w' :
  running s = true → (phase s = PSelect → ready s w c = true) → shell_step ks lang c s w = (Ok s', w') →
  failed_shell s' = false → failed_shell s = false.
Proof.
  intros Hrun Hr E Hf. assert (panicked s = true → panicked s' = true) as Hp by by eapply panicked_step.
  unfold failed_shell, running in *. destruct (panicked s); [rewrite Hp in Hf by done; by destruct (phase s') as [| | | | |[]]|].
  by destruct (phase s) as [| | | | |[]].
Qed.

Lemma foreign_snoc ls l : foreign (ls ++ [l]) = foreign ls ++ foreign_output l.
Proof. unfold foreign. rewrite map_app, concat_app. simpl. by rewrite app_nil_r. Qed.

(** What the ledger of a run adds up to. *)
Definition entries (w0 : World) (ls : list Label) : list (nat * Map) :=
  answers (trace w0) ++ answers (foreign ls) ++ keys (received ls).

Lemma run_conserves w0 ls s w :
  run_from ks lang (shell_init, w0) ls (s, w) → holds_level (received ls) → failed_shell s = false →
  ledger s w ≡ₚ entries w0 ls ∧ (∀ i, i ∈ outstanding s → i ∈ received ls) ∧ good s.
Proof.
  intros Hrun. remember (s, w) as c eqn:Ec. revert s w Ec.
  induction Hrun as [|ls [s1 w1] l c Hrun IH Hstep]; intros s w Ec Hlev Hf.
  { injection Ec as <- <-. split_and!; [done..|]. split; [intros ? []%elem_of_nil | done]. }
  subst c. unfold entries. rewrite received_snoc, foreign_snoc in *.
  assert (holds_level (received ls)) as Hlev1.
  { intros i j Hi Hj. apply Hlev; set_solver. }
  specialize (IH _ _ eq_refl Hlev1). unfold entries in IH.
  assert (∀ s2 w2, conserves s1 w1 s2 w2 → failed_shell s1 = false → arrival l = None → foreign_output l = [] →
    ledger s2 w2 ≡ₚ answers (trace w0) ++ answers (foreign ls ++ foreign_output l) ++
      keys (received ls ++ match arrival l with Some i => [i] | None => [] end) ∧
    (∀ i, i ∈ outstanding s2 → i ∈ received ls ++ match arrival l with Some i => [i] | None => [] end) ∧ good s2) as Hc.
  { intros s2 w2 (C1 & C2 & C3) Hf1 -> ->. destruct (IH Hf1) as (I1 & I2 & I3). rewrite !app_nil_r.
    split_and!; [by rewrite C1 | auto | auto]. }
  inversion Hstep; subst; simpl in *.
  - destruct (IH Hf) as (I1 & I2 & I3). split_and!; [| |done].
    + rewrite app_nil_r, keys_app, !app_assoc, <- (app_assoc (answers (trace w0))), <- I1.
      unfold ledger, outstanding, todo. simpl. rewrite <- !app_assoc, !keys_app, <- !app_assoc.
      do 3 apply Permutation_app_head. by rewrite (Permutation_app_comm (keys [inb])), <- !app_assoc.
    + intros i. unfold outstanding in *. simpl in *. set_solver.
  - apply Hc; [by apply conserves_same | done..].
  - apply Hc; [by eapply progress_conserves | | done..]. unfold failed_shell, panicked in *. simpl in *.
    match goal with Ha : active s1 = _, Hn : a_panicked _ = None |- _ => by rewrite Ha, Hn end.
  - apply Hc; [by apply output_conserves | done..].
  - unfold failed_shell, panicked in Hf. simpl in Hf. by destruct (phase s1) as [| | | | |[]].
  - destruct (IH Hf) as (I1 & I2 & I3). rewrite app_nil_r. split_and!; [|done..].
    unfold ledger in *. match goal with E : trace w = _ |- _ => rewrite E end.
    rewrite !answers_app, <- !app_assoc, (Permutation_app_comm (answers outs)), !app_assoc, <- (app_assoc (answers (trace w1))).
    rewrite I1. rewrite <- !app_assoc. do 2 apply Permutation_app_head. apply Permutation_app_comm.
  - assert (failed_shell s1 = false) as Hf1 by by eapply failed_step.
    destruct (IH Hf1) as (I1 & I2 & I3). apply Hc; [|done..].
    eapply shell_step_conserves; [done | | done | eassumption].
    intros h q Hh Hq Hhold. destruct I3 as [Gq Gh]. destruct (Gh h Hh) as (Ph & _ & Hhh). rewrite Ph, (Gq q Hq).
    apply Hlev1; try done; apply I2; unfold outstanding; rewrite ?Hh; set_solver.
  - done.
Qed.

(** C7: (no request is lost or answered twice) in every run of a shell, with
    any interleaving of arrivals, controls, execution progress, timeouts and the
    rest of the kernel: the replies sent, the reply the active execution will
    still send, and the requests in the shell's hands are together exactly the
    requests it received (as multisets of reply sink and request header), next
    to the replies that others sent, as long as the shell task has not failed and
    no execution has panicked.  The premise [holds_level] is needed: no held
    request may be overtaken by another hold of strictly higher priority. *)
Theorem every_request_accounted w0 ls s w :
  run_from ks lang (shell_init, w0) ls (s, w) → holds_level (received ls) → failed_shell s = false →
  answers (trace w) ++ answers (todo s) ++ keys (outstanding s) ≡ₚ
  answers (trace w0) ++ answers (foreign ls) ++ keys (received ls).
Proof. intros Hrun Hlev Hf. by destruct (run_conserves w0 ls s w Hrun Hlev Hf). Qed.
End Conservation.
