(* ===== verification/Controls.v ===== *)
(** * What controls and failures do to the queue (src/src/engine.rs, [Shell])

    The exact behaviour of [abort_pending] and of what calls it: a failed
    execution, an interrupt, a release, a hold that times out. *)

From Stdlib Require Import ZArith.
From stdpp Require Import base gmap sets list strings sorting.
From S2P Require Import Prelude Json Errors Wire Language Services Queue Requests Shell.

(** ** What a client sees *)

Definition aborted_obs (n : Z) (inb : Inbound) : list Obs :=
  let req := in_message inb in
  [status_obs req "busy";
   ORep (in_reply inb) (header req) "execute_reply"
     (Obj [("status", Str "aborted"); ("execution_count", jnat n); ("user_expressions", Obj []); ("payload", Arr [])]);
   status_obs req "idle"].

Definition hold_content (n : Z) (st : string) : Value :=
  match hold_error st with
  | Some er => Obj [("status", Str "error"); ("execution_count", jnat n); ("ename", value_index er "ename");
                    ("evalue", value_index er "evalue"); ("traceback", value_index er "traceback");
                    ("user_expressions", Obj []); ("payload", Arr [])]
  | None => Obj [("status", Str "ok"); ("execution_count", Null); ("user_expressions", Obj []); ("payload", Arr [])]
  end.

(** The end of a hold: the error it is released with, if any, the reply, idle. *)
Definition hold_obs (n : Z) (inb : Inbound) (st : string) : list Obs :=
  let req := in_message inb in
  match hold_error st with Some er => [OPub (header req) "error" er] | None => [] end ++
  [ORep (in_reply inb) (header req) "execute_reply" (hold_content n st); status_obs req "idle"].

Definition executes (l : list QueueItem) : list QueueItem := filter (λ q, is_execute (inbound q) = true) l.
Definition others (l : list QueueItem) : list QueueItem := filter (λ q, is_execute (inbound q) = false) l.

Definition aborts_obs (n : Z) (l : list QueueItem) : list Obs := concat (map (λ q, aborted_obs n (inbound q)) (executes l)).

(** What [abort_pending] leaves: everything received, less the execute requests. *)
Definition aborted_shell (s : Shell) : Shell :=
  set_queue (drain_incoming s) (others (drain (queue (drain_incoming s)))).

(** What [abort_pending] shows. *)
Definition abort_pending_obs (s : Shell) : list Obs :=
  aborts_obs (execution_count s) (drain (queue (drain_incoming s))).

Lemma drain_incoming_fields s :
  incoming (drain_incoming s) = [] ∧ held (drain_incoming s) = held s ∧ active (drain_incoming s) = active s ∧
  interrupting (drain_incoming s) = interrupting s ∧ execution_count (drain_incoming s) = execution_count s ∧
  phase (drain_incoming s) = phase s ∧ stopping (drain_incoming s) = stopping s.
Proof.
  assert (∀ l s0, let s1 := foldl enqueue s0 l in
    incoming s1 = incoming s0 ∧ held s1 = held s0 ∧ active s1 = active s0 ∧ interrupting s1 = interrupting s0 ∧
    execution_count s1 = execution_count s0 ∧ phase s1 = phase s0 ∧ stopping s1 = stopping s0) as Hf.
  { induction l as [|i l IH]; intros s0; simpl; [done|]. apply (IH (enqueue s0 i)). }
  apply (Hf (incoming s) (set_incoming s [])).
Qed.

Section Effects.
Context `{JsonTotal} `{LanguageSession L} (ks : KernelServices) (lang : L).

Lemma emits_abort_execute n inb : emits (abort_execute ks n inb) (aborted_obs n inb) tt.
Proof.
  unfold abort_execute, aborted_obs. eapply (emits_bind _ _ [_] tt [_; _]); [apply emits_status|].
  eapply (emits_bind _ _ [_] tt [_]); [apply emits_send_reply | apply emits_status].
Qed.

Lemma emits_finish_hold n item st :
  emits (finish_hold ks n item st) (hold_obs n (inbound item) st) (bool_decide (is_Some (hold_error st))).
Proof.
  unfold finish_hold, hold_obs, hold_content.
  eapply emits_bind with (a := hold_content n st); unfold hold_content.
  - destruct (hold_error st); [|apply emits_ret]. eapply (emits_bind _ _ [_] tt []); [apply emits_send_iopub | apply emits_ret].
  - eapply (emits_bind _ _ [_] tt [_]); [apply emits_send_reply|].
    eapply (emits_bind _ _ [_] tt []); [apply emits_status | apply emits_ret].
Qed.

Lemma emits_abort_loop n items keep :
  emits (abort_loop ks n items keep) (aborts_obs n items) (keep ++ others items).
Proof.
  revert keep. induction items as [|q items IH]; intros keep; simpl.
  { rewrite app_nil_r. apply emits_ret. }
  unfold aborts_obs, executes, others. destruct (is_execute (inbound q)) eqn:Hx.
  - rewrite filter_cons_True, filter_cons_False by congruence. cbn [map concat].
    eapply emits_bind; [apply emits_abort_execute | apply IH].
  - rewrite filter_cons_False, filter_cons_True by congruence.
    specialize (IH (keep ++ [q])). rewrite <- app_assoc in IH. exact IH.
Qed.

Lemma emits_abort_pending s : emits (abort_pending ks s) (abort_pending_obs s) (aborted_shell s).
Proof.
  unfold abort_pending, abort_pending_obs, aborted_shell. destruct (drain_incoming_fields s) as (_ & _ & _ & _ & <- & _).
  rewrite <- (app_nil_r (aborts_obs _ _)). eapply emits_bind; [apply emits_abort_loop | apply emits_ret].
Qed.

(** (aborting) [abort_pending] always succeeds.  It takes in every request
    that has arrived, answers exactly the queued execute requests, each with
    busy, one aborted reply and idle, from the highest priority to the lowest
    and first come first within a priority, and keeps every other request
    queued, in that order.  The active execution and the held request are not
    touched. *)
Theorem abort_pending_effect s w :
  wf_queue (queue (drain_incoming s)) →
  ∃ sorted w', sorted ≡ₚ queue (drain_incoming s) ∧ StronglySorted (λ a b, item_lt b a) sorted ∧
    emits_at w (abort_pending ks s) (Ok (set_queue (drain_incoming s) (others sorted)))
      (aborts_obs (execution_count s) sorted) w' ∧
    incoming (drain_incoming s) = [] ∧ active (drain_incoming s) = active s ∧ held (drain_incoming s) = held s.
Proof.
  intros Hwf. destruct (drain_spec _ Hwf) as [Hp Hs]. destruct (emits_abort_pending s w) as [w' E].
  destruct (drain_incoming_fields s) as (Hi & Hh & Ha & _). by exists (drain (queue (drain_incoming s))), w'.
Qed.

(** (a failed execution) when an execution ends, [active] is freed, and the
    queue is aborted exactly if the execution failed, its request stops on
    errors, and no interrupt is being handled (the interrupt has already
    aborted the queue). *)
Theorem execution_done_effect s done w :
  ∃ w', emits_at w (execution_done ks s done)
    (Ok (if failed done && stop_on_error done && negb (interrupting s) then aborted_shell (set_active s None) else set_active s None))
    (if failed done && stop_on_error done && negb (interrupting s) then abort_pending_obs (set_active s None) else []) w'.
Proof.
  unfold execution_done. simpl. destruct (_ && _); [apply emits_abort_pending|]. exists w. apply (emits_at_ret _ (Ok _)).
Qed.

(** (releasing a hold) a release finds the held request by its message id.
    If it does, the request is answered (ok, or the error its status names), the
    hold ends, pending executions are aborted exactly if the status was an
    error, and the requester is told [true]; otherwise nothing is shown, the
    hold stands, and the requester is told [false].  It never fails. *)
Theorem release_effect s id st k w :
  let hit := match held s with Some h => bool_decide (msg_id (in_message (inbound (held_item h))) = id) | None => false end in
  let erring := bool_decide (is_Some (hold_error st)) in
  ∃ w', emits_at w (apply_control ks lang s (Release id st k))
    (Ok (if hit then add_released (if erring then aborted_shell (set_held s None) else set_held s None) k true
         else add_released s k false))
    (match held s with
     | Some h => if hit then hold_obs (execution_count s) (inbound (held_item h)) st ++
                   (if erring then abort_pending_obs (set_held s None) else [])
                 else []
     | None => []
     end) w'.
Proof.
  cbv zeta. unfold apply_control. destruct (held s) as [h|] eqn:Eh; [|exists w; apply (emits_at_ret _ (Ok _))].
  case_bool_decide as Hid; [rewrite decide_True by done | rewrite decide_False by done; exists w; apply (emits_at_ret _ (Ok _))].
  set (erring := bool_decide (is_Some (hold_error st))).
  eapply emits_bind; [apply emits_finish_hold|]. fold erring. rewrite <- (app_nil_r (if erring then _ else _)).
  eapply emits_bind with (a := if erring then aborted_shell (set_held s None) else set_held s None); [|apply emits_ret].
  destruct erring; [apply emits_abort_pending | apply emits_ret].
Qed.

(** (a hold that times out) the hold's timer completes only at its deadline
    or after; then the held request is answered with a HoldTimeout error and
    the pending executions are aborted. *)
Theorem hold_timeout_effect s h w :
  held s = Some h → ready s w SelHold = true →
  (deadline h ≤ now w)%Z ∧
  ∃ w', emits_at w (select_step ks lang SelHold s) (Ok (aborted_shell (set_held s None)))
    (hold_obs (execution_count s) (inbound (held_item h)) "timeout" ++ abort_pending_obs (set_held s None)) w'.
Proof.
  intros Eh Hr. unfold ready, select_step in *. rewrite Eh in *. split; [by apply Z.leb_le|].
  clear Hr. revert w. eapply emits_bind; [apply emits_finish_hold | apply emits_abort_pending].
Qed.

Definition mark_interrupted (s : Shell) : Shell :=
  set_active s (match active s with Some a => Some (MkActive (a_todo a) (a_result a) true (a_panicked a)) | None => None end).

Lemma set_active_same s : active s = None → set_active s None = s.
Proof. destruct s. by intros [= ->]. Qed.

Lemma abort_pending_obs_held s : abort_pending_obs (set_held s None) = abort_pending_obs s.
Proof.
  assert (∀ l a, queue (foldl enqueue (set_held a None) l) = queue (foldl enqueue a l)) as Hq.
  { induction l as [|i l IH]; intros a; simpl; [done|]. apply (IH (enqueue a i)). }
  unfold abort_pending_obs. do 2 f_equal. apply (Hq _ (set_incoming s [])).
Qed.

Lemma emits_pass_interrupt s w :
  match active s with Some _ => lang_on_interrupt lang (tick w) | None => Ok tt end = Ok tt →
  ∃ w', emits_at w
    (match active s with
     | Some a => (r ← call (lang_on_interrupt lang); lift r) ;;; mret (set_active s (Some (MkActive (a_todo a) (a_result a) true (a_panicked a))))
     | None => mret s
     end) (Ok (mark_interrupted s)) [] w'.
Proof.
  intros Hok. unfold mark_interrupted. destruct (active s) as [a|] eqn:Ea.
  - destruct (emits_at_call w (lang_on_interrupt lang)) as [w1 E1]. rewrite Hok in E1. exists w1.
    eapply (emits_at_bind _ _ _ tt []); [|apply (emits_at_ret _ (Ok _))].
    eapply (emits_at_bind _ _ _ (Ok tt) []); [exact E1 | apply emits_at_ret].
  - rewrite set_active_same by done. exists w. apply (emits_at_ret _ (Ok _)).
Qed.

Lemma emits_end_hold s st :
  emits
    (match held s with
     | Some h => finish_hold ks (execution_count s) (held_item h) st ;;; mret (set_held s None)
     | None => mret s
     end)
    (match held s with Some h => hold_obs (execution_count s) (inbound (held_item h)) st | None => [] end) (set_held s None).
Proof.
  destruct (held s) as [h|] eqn:Eh.
  - rewrite <- (app_nil_r (hold_obs _ _ _)). eapply emits_bind; [apply emits_finish_hold | apply emits_ret].
  - assert (set_held s None = s) as ->; [|apply emits_ret]. unfold set_held. rewrite <- Eh. by destruct s.
Qed.

(** What the interrupt handler of the active execution says. *)
Definition handler_result (s : Shell) (w : World) : Result unit :=
  match active s with Some _ => lang_on_interrupt lang (tick w) | None => Ok tt end.

Lemma emits_failed_interrupt s w e :
  handler_result s w = Err e → ∃ w', emits_at w (apply_control ks lang s Interrupt) (Err e) [] w'.
Proof.
  unfold handler_result. intros Hh. simpl. destruct (active s) as [a|]; [|done].
  destruct (emits_at_call w (lang_on_interrupt lang)) as [w1 E1]. rewrite Hh in E1. exists w1.
  do 2 apply emits_at_bind_err. eapply (emits_at_bind _ _ _ (Err e) []); [exact E1 | apply emits_at_ret].
Qed.

(** C23: (interrupting) an interrupt is passed to the active execution, if any.
    If its handler fails, the control fails with that error at once: nothing is
    shown, and neither the hold nor the queue is touched.  Otherwise the held
    request is answered with a KeyboardInterrupt error and every queued execute
    request is aborted; afterwards nothing is held, every arrival has been read,
    no execute request is queued, and the execution is marked. *)
Theorem interrupt_effect s w :
  match handler_result s w with
  | Err e => ∃ w', emits_at w (apply_control ks lang s Interrupt) (Err e) [] w'
  | Ok _ =>
      let s1 := mark_interrupted (set_interrupting s true) in
      ∃ w' s', emits_at w (apply_control ks lang s Interrupt) (Ok s')
        (match held s with Some h => hold_obs (execution_count s) (inbound (held_item h)) "interrupt" | None => [] end ++
         abort_pending_obs s1) w' ∧
        s' = aborted_shell (set_held s1 None) ∧ held s' = None ∧ incoming s' = [] ∧ interrupting s' = true ∧
        (∀ a, active s' = Some a → a_interrupted a = true) ∧ ∀ q, q ∈ queue s' → is_execute (inbound q) = false
  end.
Proof.
  destruct (handler_result s w) as [[]|e] eqn:Hok; [|by apply emits_failed_interrupt]. intros s1.
  destruct (emits_pass_interrupt (set_interrupting s true) w Hok) as [w1 E1]. fold s1 in E1.
  destruct (emits_end_hold s1 "interrupt" w1) as [w2 E2].
  destruct (emits_abort_pending (set_held s1 None) w2) as [w3 E3]. rewrite abort_pending_obs_held in E3.
  exists w3, (aborted_shell (set_held s1 None)). destruct (drain_incoming_fields (set_held s1 None)) as (Hi & Hh & Ha & Ht & _).
  split_and!; [|done..| |by intros q [Hq _]%list_elem_of_filter].
  - eapply (emits_at_bind _ _ _ s1 []); [exact E1|]. eapply emits_at_bind; [exact E2 | exact E3].
  - intros a Ea. unfold aborted_shell in Ea. simpl in Ea, Ha. rewrite Ha in Ea. destruct (active s); by simplify_eq.
Qed.
End Effects.
