(* ===== verification/Schedule.v ===== *)
(** * Scheduling (src/src/engine.rs, [Shell::run])

    Which requests run, when, and in what order: one execution at a time, the
    most urgent request first, nothing idle that could run. *)

From Stdlib Require Import ZArith.
From stdpp Require Import base gmap sets list strings sorting.
From S2P Require Import Prelude Json Errors Wire Language Services Queue Requests Shell Controls.

(** ** Numbering

    [number n l]: the items [enqueue] makes of the requests [l] from number [n]
    on.  [all_items s] is the queue once what has arrived is taken in. *)
Fixpoint number (n : Z) (l : list Inbound) : list QueueItem :=
  match l with [] => [] | i :: l' => MkItem (priority_of i) n i :: number (u64_add n 1) l' end.

Definition all_items (s : Shell) : list QueueItem := queue s ++ number (next_order s) (incoming s).

Definition end_order (s : Shell) : Z := next_order (drain_incoming s).

Lemma foldl_enqueue l s : queue (foldl enqueue s l) = queue s ++ number (next_order s) l.
Proof.
  revert s. induction l as [|i l IH]; intros s; simpl; [by rewrite app_nil_r|]. rewrite IH. simpl. by rewrite <- app_assoc.
Qed.

Lemma drain_incoming_queue s : queue (drain_incoming s) = all_items s.
Proof. apply foldl_enqueue. Qed.

(** Only the queue, the arrivals and their number matter. *)
Lemma foldl_enqueue_order l s s' : next_order s = next_order s' → next_order (foldl enqueue s l) = next_order (foldl enqueue s' l).
Proof. revert s s'. induction l as [|i l IH]; intros s s' E; simpl; [done|]. apply IH. simpl. by rewrite E. Qed.

Lemma end_order_same s s' : next_order s' = next_order s → incoming s' = incoming s → end_order s' = end_order s.
Proof. intros En Ei. unfold end_order, drain_incoming. rewrite Ei. by apply foldl_enqueue_order. Qed.

Lemma number_app n l l' s :
  next_order s = n → number n (l ++ l') = number n l ++ number (next_order (foldl enqueue s l)) l'.
Proof.
  revert n s. induction l as [|i l IH]; intros n s E; simpl; [by rewrite E|].
  f_equal. apply IH. simpl. by rewrite E.
Qed.

(** ** What a step keeps

    [evolves s s']: from [s] to [s'] requests only leave the queue, the
    execution count stands, and the active execution, if there is still one, is
    the one that was. *)
Definition same_execution (a a' : ActiveExecution) : Prop :=
  a_result a' = a_result a ∧ a_todo a' `suffix_of` a_todo a ∧ (a_interrupted a = true → a_interrupted a' = true).

Definition evolves (s s' : Shell) : Prop :=
  (∃ gone, all_items s ≡ₚ all_items s' ++ gone) ∧ end_order s' = end_order s ∧ execution_count s' = execution_count s ∧
  ∀ a', active s' = Some a' → ∃ a, active s = Some a ∧ same_execution a a'.

Lemma same_execution_refl a : same_execution a a.
Proof. done. Qed.

Lemma same_execution_trans a b c : same_execution a b → same_execution b c → same_execution a c.
Proof. intros (H1 & H2 & H3) (H4 & H5 & H6). split_and!; [congruence | by etransitivity | auto]. Qed.

Lemma evolves_trans s1 s2 s3 : evolves s1 s2 → evolves s2 s3 → evolves s1 s3.
Proof.
  intros ((g1 & P1) & O1 & C1 & A1) ((g2 & P2) & O2 & C2 & A2). split_and!; [|congruence..|].
  - exists (g2 ++ g1). by rewrite P1, P2, app_assoc.
  - intros a3 E3. destruct (A2 _ E3) as (a2 & E2 & S2). destruct (A1 _ E2) as (a1 & E1 & S1).
    eauto using same_execution_trans.
Qed.

Lemma evolves_same s s' :
  queue s' = queue s → incoming s' = incoming s → next_order s' = next_order s → execution_count s' = execution_count s →
  (∀ a', active s' = Some a' → ∃ a, active s = Some a ∧ same_execution a a') → evolves s s'.
Proof.
  intros Eq Ei Eo Ec Ea. split_and!; [|by apply end_order_same|done|done].
  exists []. unfold all_items. by rewrite Eq, Ei, Eo, app_nil_r.
Qed.

Lemma active_refl s : ∀ a', active s = Some a' → ∃ a, active s = Some a ∧ same_execution a a'.
Proof. eauto using same_execution_refl. Qed.

Lemma evolves_refl s : evolves s s.
Proof. apply evolves_same; auto using active_refl. Qed.

(** [simpl]s the updated record and closes the equal fields. *)
Ltac evolve := apply evolves_same; simpl; try done; eauto using active_refl, same_execution_refl.

Lemma evolves_drain s : evolves s (drain_incoming s).
Proof.
  destruct (drain_incoming_fields s) as (Ei & Eh & Ea & _ & Ec & _). split_and!; [| |done|].
  - exists []. unfold all_items at 2. by rewrite drain_incoming_queue, Ei, !app_nil_r.
  - unfold end_order. unfold drain_incoming at 1. rewrite Ei. done.
  - rewrite Ea. apply active_refl.
Qed.

Lemma evolves_enqueue s i rest : incoming s = i :: rest → evolves s (enqueue (set_incoming s rest) i).
Proof.
  intros Ei. split_and!; [| |done|exact (active_refl s)].
  - exists []. unfold all_items. rewrite Ei. simpl. by rewrite app_nil_r, <- app_assoc.
  - unfold end_order, drain_incoming. rewrite Ei. simpl. by apply foldl_enqueue_order.
Qed.

Lemma evolves_queue s q gone : queue s ≡ₚ q ++ gone → evolves s (set_queue s q).
Proof.
  intros E. split_and!; [|by apply end_order_same|done|exact (active_refl s)].
  exists gone. unfold all_items. simpl. rewrite E, <- !app_assoc. apply Permutation_app_head, Permutation_app_comm.
Qed.

Lemma evolves_aborted s : evolves s (aborted_shell s).
Proof.
  unfold aborted_shell. eapply evolves_trans; [apply evolves_drain|].
  apply (evolves_queue _ _ (executes (drain (queue (drain_incoming s))))).
  rewrite <- drain_items at 1. apply (filter_split (λ q, is_execute (inbound q))).
Qed.

Section Schedule.
Context `{JsonTotal} `{LanguageSession L} (ks : KernelServices) (lang : L).

Lemma abort_pending_run s w s' w' : abort_pending ks s w = (Ok s', w') → s' = aborted_shell s.
Proof. intros E. destruct (emits_abort_pending ks s w) as (w1 & E1 & _). congruence. Qed.

Lemma evolves_apply_control s c w s' w' :
  apply_control ks lang s c w = (Ok s', w') → evolves s s' ∧ phase s' = phase s.
Proof.
  assert (∀ s w s' w', abort_pending ks s w = (Ok s', w') → evolves s s' ∧ phase s' = phase s) as Hab.
  { intros s0 w0 s0' w0' ->%abort_pending_run. split; [apply evolves_aborted|]. simpl. apply (drain_incoming_fields s0). }
  intros E. destruct c as [id st k| |]; simpl in E.
  - destruct (held s) as [h|]; [|run_inv; split; [evolve|done]].
    case_decide; [|run_inv; split; [evolve|done]].
    apply bind_inv in E as (b & w1 & _ & E). apply bind_inv in E as (s1 & w2 & E1 & E). run_inv.
    assert (evolves (set_held s None) s1 ∧ phase s1 = phase s) as [V1 P1].
    { destruct b; [exact (Hab _ _ _ _ E1) | run_inv; split; [apply evolves_refl | done]]. }
    split; [|done]. eapply evolves_trans; [|eapply evolves_trans; [exact V1 | evolve]]. evolve.
  - apply bind_inv in E as (s1 & w1 & E1 & E). apply bind_inv in E as (s2 & w2 & E2 & E).
    assert (evolves s s1 ∧ phase s1 = phase s) as [V1 P1].
    { simpl in E1. destruct (active s) as [a|] eqn:Ea; run_inv; (split; [|done]); [|evolve].
      apply evolves_same; try done. simpl. rewrite Ea. intros ? [= <-]. by exists a. }
    assert (evolves s1 s2 ∧ phase s2 = phase s1) as [V2 P2].
    { destruct (held s1); run_inv; (split; [|done]); evolve. }
    apply Hab in E as [V3 P3]. split; [eauto using evolves_trans | congruence].
  - run_inv. split; [evolve|done].
Qed.

Lemma evolves_execution_done s done w s' w' :
  execution_done ks s done w = (Ok s', w') → evolves s s' ∧ phase s' = phase s ∧ active s' = None.
Proof.
  unfold execution_done. intros E. assert (evolves s (set_active s None)) as V by evolve. case_match.
  - apply abort_pending_run in E as ->. destruct (drain_incoming_fields (set_active s None)) as (_ & _ & Ea & _ & _ & Ep & _).
    split_and!; [eauto using evolves_trans, evolves_aborted | done..].
  - run_inv. done.
Qed.

Lemma evolves_reap s w s' w' :
  reap ks s w = (Ok s', w') → evolves s s' ∧ phase s' = phase s.
Proof.
  unfold reap. intros E. destruct (active s); [|run_inv; auto using evolves_refl].
  destruct (finished a); [|run_inv; auto using evolves_refl]. run_inv.
  match goal with E : execution_done _ _ _ _ = _ |- _ => apply evolves_execution_done in E as (? & ? & ?) end. done.
Qed.

Lemma evolves_select_step c s w s' w' :
  select_step ks lang c s w = (Ok s', w') → evolves s s'.
Proof.
  intros E. destruct c; simpl in E.
  - destruct (incoming s) eqn:Ei; run_inv; [apply evolves_refl | by apply evolves_enqueue].
  - destruct (controls s); [run_inv; apply evolves_refl|]. apply evolves_apply_control in E as [V _].
    eapply evolves_trans; [|exact V]. evolve.
  - destruct (active s); [|run_inv; apply evolves_refl]. run_inv.
    match goal with E : execution_done _ _ _ _ = _ |- _ => apply evolves_execution_done in E as (? & ? & ?) end. done.
  - destruct (held s); [|run_inv; apply evolves_refl]. run_inv.
    match goal with E : abort_pending _ _ _ = _ |- _ => apply abort_pending_run in E as -> end.
    eapply evolves_trans; [|apply evolves_aborted]. evolve.
  - discriminate E.
  - discriminate E.
Qed.

(** Starting the execution of [item]: what is left is the rest of the queue, the
    count the execution reports, and its task. *)
Definition starts (s : Shell) (w : World) (item : QueueItem) (q : list QueueItem) (s' : Shell) (w' : World) : Prop :=
  let ex := execute_request (content (in_message (inbound item))) in
  is_execute (inbound item) = true ∧ interrupting s = false ∧ missing_fields (in_message (inbound item)) = [] ∧
  is_hold (inbound item) = false ∧ queue s' = q ∧ next_order s' = next_order s ∧ incoming s' = incoming s ∧
  held s' = held s ∧
  execution_count s' = (if ex_store_history ex && negb (ex_silent ex) then u64_add (execution_count s) 1 else execution_count s) ∧
  ∃ a, active s' = Some a ∧ spawn_execution ks lang (inbound item) ex (execution_count s') w = (Ok a, w').

Lemma handle_item_run s item w s' b w' :
  handle_item ks lang s item w = (Ok (s', b), w') →
  phase s' = phase s ∧ (evolves s s' ∨ starts s w item (queue s) s' w' ∧ b = false).
Proof.
  unfold handle_item. intros E. destruct (is_execute (inbound item)) eqn:Hx; cbn [negb] in E.
  2: { run_inv. auto using evolves_refl. }
  destruct (interrupting s) eqn:Hi; [run_inv; auto using evolves_refl|].
  case_bool_decide as Hm; cbn [negb] in E.
  2: { run_inv. match goal with E : abort_pending _ _ _ = _ |- _ => apply abort_pending_run in E as -> end.
       split; [apply (drain_incoming_fields s) | auto using evolves_aborted]. }
  destruct (is_hold (inbound item)) eqn:Hh; [run_inv; split; [done|]; left; evolve|].
  unfold count_execution in E. cbv zeta in E.
  match type of E with context [if ?b then set_count _ _ else _] => destruct b eqn:Hc end.
  all: apply bind_inv in E as (a & w1 & E1 & E); injection E as <- <- <-; split; [done|right].
  all: unfold starts; cbv zeta; rewrite Hc; split; [|done]; split_and!; try done; by exists a.
Qed.

Lemma shell_step_run c s w s' w' :
  shell_step ks lang c s w = (Ok s', w') →
  evolves s s' ∨ ∃ item q, phase s = PPop ∧
    pop_runnable (queue s) (bool_decide (is_Some (active s))) (held s) = (Some item, q) ∧
    starts s w item q s' w'.
Proof.
  unfold shell_step. intros E. destruct (phase s) eqn:Hp.
  - left. destruct (incoming s) eqn:Ei; run_inv; [evolve | by apply evolves_enqueue].
  - left. destruct (controls s); [run_inv; evolve|]. apply evolves_apply_control in E as [V _].
    eapply evolves_trans; [|exact V]. evolve.
  - left. apply bind_inv in E as (s1 & w1 & E1 & E). apply evolves_reap in E1 as [V _]. eapply evolves_trans; [exact V|].
    destruct (interrupting s1 && _); case_match; unfold shutdown_language in E; run_inv; evolve.
  - destruct (pop_runnable _ _ _) as [[item|] q] eqn:Epop.
    + apply bind_inv in E as ([s1 stop] & w1 & E1 & E). apply handle_item_run in E1 as [_ [V|[St ->]]].
      * left. pose proof (pop_runnable_items (queue s) (bool_decide (is_Some (active s))) (held s)) as Hi.
        rewrite Epop in Hi. destruct Hi as [Hi _]. eapply evolves_trans; [|eapply evolves_trans; [exact V|]].
        { apply (evolves_queue _ _ [item]). by rewrite Hi, Permutation_app_comm. }
        destruct stop; unfold shutdown_language in E; run_inv; evolve.
      * right. exists item, q. run_inv. done.
    + left. run_inv. pose proof (pop_runnable_items (queue s) (bool_decide (is_Some (active s))) (held s)) as Hi.
      rewrite Epop in Hi. eapply evolves_trans; [apply (evolves_queue _ q []); by rewrite Hi, app_nil_r|]. evolve.
  - left. run_inv. match goal with E : select_step _ _ _ _ _ = _ |- _ => apply evolves_select_step in E end.
    eapply evolves_trans; [eassumption|]. evolve.
  - left. run_inv. apply evolves_refl.
Qed.

(** ** Invariants of runs *)

Definition wf_inbound (i : Inbound) : Prop := wf_value (Obj (metadata (in_message i))) = true.

(** Every request in the queue or on its way to it has a number of its own,
    below [n], the number of requests received. *)
Definition numbered (n : nat) (s : Shell) : Prop :=
  wf_queue (all_items s) ∧ (∀ q, q ∈ all_items s → 0 ≤ order q < Z.of_nat n)%Z ∧ end_order s = Z.of_nat n.

(** The loop looks for work only with its interrupt flag settled, and waits only
    when it found nothing to do. *)
Definition phase_ok (s : Shell) : Prop :=
  match phase s with
  | PPop => interrupting s = true → is_Some (active s)
  | PSelect => ∀ q, q ∈ queue s → runnable (bool_decide (is_Some (active s))) (held s) q = false
  | _ => True
  end.

Lemma priority_not_nan i : wf_inbound i → f64_is_nan (priority_of i) = false.
Proof.
  unfold wf_inbound, priority_of. simpl. intros Hwf. destruct (map_get _ "priority") as [v|] eqn:Ev; [|done]. simpl.
  destruct (as_f64 v) as [f|] eqn:Ef; [|done]. simpl. eapply as_f64_not_nan; [|exact Ef]. by eapply map_get_wf.
Qed.

Lemma numbered_evolves n s s' : evolves s s' → numbered n s → numbered n s'.
Proof.
  intros ((gone & E) & Eo & _) (Hw & Ho & Hn). split_and!; [|intros q Hq; apply Ho; rewrite E; apply elem_of_app; auto|congruence].
  rewrite E in Hw. by apply wf_queue_app in Hw as [? _].
Qed.

Lemma numbered_starts n s w item q s' w' :
  queue s ≡ₚ item :: q → starts s w item q s' w' → numbered n s → numbered n s'.
Proof.
  intros Eq (_ & _ & _ & _ & Eq' & Eo & Ei & _) (Hw & Ho & Hn).
  assert (all_items s ≡ₚ item :: all_items s') as E by (unfold all_items; by rewrite Eq, Eq', Eo, Ei).
  split_and!; [|intros x Hx; apply Ho; rewrite E; by right|by rewrite (end_order_same s)]. rewrite E, wf_queue_cons in Hw. naive_solver.
Qed.

Lemma numbered_arrive n s i :
  wf_inbound i → (Z.of_nat (S n) < u64_mod)%Z → numbered n s → numbered (S n) (set_incoming s (incoming s ++ [i])).
Proof.
  intros Hi Hb (Hw & Ho & Hn).
  assert (all_items (set_incoming s (incoming s ++ [i])) = all_items s ++ [MkItem (priority_of i) (end_order s) i]) as E.
  { unfold all_items. simpl. rewrite (number_app _ _ _ (set_incoming s [])) by done. simpl. by rewrite app_assoc. }
  assert (end_order (set_incoming s (incoming s ++ [i])) = u64_add (end_order s) 1) as Eo.
  { unfold end_order, drain_incoming. simpl. rewrite foldl_app. done. }
  split_and!.
  - rewrite E, Permutation_app_comm. simpl. apply wf_queue_cons. split_and!; [by apply priority_not_nan | | done].
    simpl. rewrite Hn. intros (q & Eq & Hq)%list_elem_of_fmap. apply Ho in Hq. lia.
  - rewrite E. intros q [Hq|Hq%list_elem_of_singleton]%elem_of_app; [apply Ho in Hq; lia | subst; simpl; lia].
  - rewrite Eo, Hn, u64_add_small; lia.
Qed.

Lemma phase_ok_env s s' :
  phase s' = phase s → queue s' = queue s → held s' = held s → interrupting s' = interrupting s →
  bool_decide (is_Some (active s')) = bool_decide (is_Some (active s)) → phase_ok s → phase_ok s'.
Proof.
  intros Hp Hq Hh Hi Ha. unfold phase_ok. rewrite Hp, Hq, Hh, Hi, Ha. destruct (phase s); try done.
  intros Hok Hint. specialize (Hok Hint). rewrite (bool_decide_true _ Hok) in Ha. by apply bool_decide_eq_true in Ha.
Qed.

Lemma phase_ok_step c s w s' w' : shell_step ks lang c s w = (Ok s', w') → phase_ok s'.
Proof.
  unfold shell_step, phase_ok. intros E. destruct (phase s) eqn:Hp.
  - destruct (incoming s); run_inv; simpl; [done | by rewrite Hp].
  - destruct (controls s); [run_inv; done|]. apply evolves_apply_control in E as [_ ->]. simpl. by rewrite Hp.
  - run_inv. match goal with E : reap _ _ _ = (Ok ?s2, _) |- _ => apply evolves_reap in E as [_ P1]; rename s2 into s1 end.
    destruct (interrupting s1) eqn:Hi, (bool_decide (active s1 = None)) eqn:Ha; simpl in E;
      case_match; unfold shutdown_language in E; run_inv; simpl; try done; try congruence.
    intros _. apply bool_decide_eq_false in Ha. by destruct (active s1).
  - destruct (pop_runnable _ _ _) as [[item|] q] eqn:Epop.
    + apply bind_inv in E as ([s1 stop] & w1 & E1 & E). destruct stop; unfold shutdown_language in E; by run_inv.
    + run_inv. simpl. intros x Hx. pose proof (pop_runnable_none _ _ _ _ Epop) as Hn. apply Hn.
      pose proof (pop_runnable_items (queue s) (bool_decide (is_Some (active s))) (held s)) as Hi.
      rewrite Epop in Hi. by rewrite <- Hi.
  - run_inv. done.
  - run_inv. by rewrite Hp.
Qed.

(** One move of the system: an arrival, the start of an execution, or neither. *)
Lemma evolves_progress s a o rest i p :
  active s = Some a → a_todo a = o :: rest → (a_interrupted a = true → i = true) →
  evolves s (set_active s (Some (MkActive rest (a_result a) i p))).
Proof.
  intros Ha Ht Hi. apply evolves_same; try done. simpl. intros ? [= <-]. exists a. split; [done|]. split_and!; [done| |done]. simpl.
  rewrite Ht. by apply suffix_cons_r.
Qed.

Lemma evolves_panic s a p : active s = Some a → evolves s (set_active s (Some (MkActive [] (a_result a) (a_interrupted a) p))).
Proof. intros Ha. apply evolves_same; try done. simpl. intros ? [= <-]. exists a. split; [done|]. split_and!; [done|apply suffix_nil|done]. Qed.

Lemma sys_step_run l s w s' w' :
  sys_step ks lang l (s, w) (s', w') →
  (∃ i, l = LArrive i ∧ s' = set_incoming s (incoming s ++ [i])) ∨
  (arrival l = None ∧ evolves s s') ∨
  (∃ item q, arrival l = None ∧ phase s = PPop ∧
     pop_runnable (queue s) (bool_decide (is_Some (active s))) (held s) = (Some item, q) ∧ starts s w item q s' w').
Proof.
  intros Hs. inversion Hs; subst; eauto; right; try (left; split; [done|]; by evolve).
  - left. split; [done|]. by eapply evolves_progress.
  - left. split; [done|]. by apply evolves_panic.
  - match goal with E : shell_step _ _ _ _ _ = _ |- _ => apply shell_step_run in E as [V|(item & q & ? & ? & ?)] end; [by left|].
    right. by exists item, q.
Qed.

Lemma phase_ok_sys l s w s' w' : sys_step ks lang l (s, w) (s', w') → phase_ok s → phase_ok s'.
Proof.
  intros Hs Hok. inversion Hs; subst; try done; try (by eapply phase_ok_env; [..|exact Hok]).
  - eapply phase_ok_env; [..|exact Hok]; try done. simpl. match goal with E : active _ = _ |- _ => by rewrite E end.
  - eapply phase_ok_env; [..|exact Hok]; try done. simpl. match goal with E : active _ = _ |- _ => by rewrite E end.
  - by eapply phase_ok_step.
Qed.

Lemma run_phase_ok w0 ls s w : run_from ks lang (shell_init, w0) ls (s, w) → phase_ok s.
Proof.
  intros Hrun. remember (s, w) as c eqn:Ec. revert s w Ec.
  induction Hrun as [|ls [s1 w1] l c Hrun IH Hstep]; intros s w Ec; subst; [by injection Ec as <- <-|].
  eapply phase_ok_sys; [exact Hstep | by eapply IH].
Qed.

Lemma run_numbered w0 ls s w :
  run_from ks lang (shell_init, w0) ls (s, w) → Forall wf_inbound (received ls) →
  (Z.of_nat (length (received ls)) < u64_mod)%Z → numbered (length (received ls)) s.
Proof.
  intros Hrun. remember (s, w) as c eqn:Ec. revert s w Ec.
  induction Hrun as [|ls [s1 w1] l c Hrun IH Hstep]; intros s w Ec; subst.
  { injection Ec as <- <-. intros _ _. split_and!; [by split; constructor | by intros q ?%elem_of_nil | done]. }
  unfold received. rewrite omap_app. fold (received ls). rewrite Forall_app, length_app. intros [Hwf Hwl] Hb.
  specialize (IH _ _ eq_refl Hwf ltac:(lia)).
  apply sys_step_run in Hstep as [(i & -> & ->)|[(Hl & V)|(item & q & Hl & _ & Ep & St)]].
  - simpl in *. rewrite Nat.add_1_r in *. apply numbered_arrive; [by inversion Hwl | done | done].
  - simpl. rewrite Hl. simpl. rewrite Nat.add_0_r. by eapply numbered_evolves.
  - simpl. rewrite Hl. simpl. rewrite Nat.add_0_r. eapply numbered_starts; [|done..].
    pose proof (pop_runnable_items (queue s1) (bool_decide (is_Some (active s1))) (held s1)) as Hi.
    rewrite Ep in Hi. by destruct Hi.
Qed.

(** ** Properties *)

(** C9: (one execution at a time, the right one next) in every run, one move
    either leaves the active execution and the execution count alone (the
    execution may advance or end, and is never replaced), or starts an
    execution.  It starts one only when none is active and no interrupt is
    being handled, for a well-formed execute request that is not a hold and is
    strictly above the held request, if there is one; that request is the most
    urgent of those that may run, by priority and then arrival.  The count
    advances exactly if the request stores history and is not silent. *)
Theorem execution_lifecycle w0 ls s w l s' w' :
  run_from ks lang (shell_init, w0) ls (s, w) → sys_step ks lang l (s, w) (s', w') →
  Forall wf_inbound (received ls) → (Z.of_nat (length (received ls)) < u64_mod)%Z →
  (execution_count s' = execution_count s ∧ ∀ a', active s' = Some a' → ∃ a, active s = Some a ∧ same_execution a a') ∨
  (∃ item, active s = None ∧ queue s ≡ₚ item :: queue s' ∧ above_hold (held s) item = true ∧
     starts s w item (queue s') s' w' ∧
     ∀ j, j ∈ queue s' → runnable false (held s) j = true → item_lt j item).
Proof.
  intros Hrun Hstep Hwf Hb. destruct (run_numbered _ _ _ _ Hrun Hwf Hb) as ((Hw & _)%wf_queue_app & _).
  apply sys_step_run in Hstep as [(i & -> & ->)|[(_ & V)|(item & q & _ & Hp & Ep & St)]].
  - left. eauto using same_execution_refl.
  - left. destruct V as (_ & _ & ? & ?). auto.
  - right. exists item. pose proof (pop_runnable_spec (queue s) (bool_decide (is_Some (active s))) (held s) Hw) as Hspec.
    rewrite Ep in Hspec. destruct Hspec as (E & Hr & Hmax). pose proof St as (Hx & _ & _ & _ & <- & _).
    unfold runnable in Hr. rewrite Hx in Hr. simpl in Hr. apply andb_true_iff in Hr as [Ha Hab].
    destruct (active s); [done|]. auto.
Qed.

(** (work conserving) the shell waits only when there is nothing it may do:
    whenever it sleeps in [select!], every queued request is an execute request,
    and either an execution is active or the request is not above the hold.  Any
    other request is served even while an execution runs or a request is held. *)
Theorem idle_means_blocked w0 ls s w q :
  run_from ks lang (shell_init, w0) ls (s, w) → phase s = PSelect → q ∈ queue s →
  is_execute (inbound q) = true ∧
  (is_Some (active s) ∨ ∃ h, held s = Some h ∧ f64_gt (priority q) (priority (held_item h)) = false).
Proof.
  intros Hrun%run_phase_ok Hp Hq. unfold phase_ok in Hrun. rewrite Hp in Hrun. apply Hrun in Hq. unfold runnable in Hq.
  apply orb_false_iff in Hq as [Hx%negb_false_iff Ha]. split; [done|].
  destruct (active s); [eauto|]. simpl in Ha. right. unfold above_hold in Ha. destruct (held s); [eauto|done].
Qed.

(** (a dead branch) when the shell takes an execute request out of its
    queue, no interrupt is being handled: the branch of [handle_item] that
    answers with [interrupt_execute] is never taken. *)
Theorem interrupt_branch_dead w0 ls s w item q :
  run_from ks lang (shell_init, w0) ls (s, w) → phase s = PPop →
  pop_runnable (queue s) (bool_decide (is_Some (active s))) (held s) = (Some item, q) →
  is_execute (inbound item) = true → interrupting s = false.
Proof.
  intros Hrun%run_phase_ok Hp Ep Hx. unfold phase_ok in Hrun. rewrite Hp in Hrun.
  pose proof (pop_runnable_items (queue s) (bool_decide (is_Some (active s))) (held s)) as Hi. rewrite Ep in Hi.
  destruct Hi as [_ Hr]. unfold runnable in Hr. rewrite Hx in Hr.
  destruct (interrupting s); [|done]. by rewrite (bool_decide_true _ (Hrun eq_refl)) in Hr.
Qed.
End Schedule.

(** ** Numbering executions *)

Definition stores (ex : ExecuteRequest) : bool := ex_store_history ex && negb (ex_silent ex).

Definition counted (l : list ExecuteRequest) (s : Shell) : Shell := foldl (λ s ex, (count_execution s ex).2) s l.

Definition stored (l : list ExecuteRequest) : nat := length (filter (λ ex, stores ex = true) l).

Lemma stored_cons ex l : stored (ex :: l) = (if stores ex then 1 else 0) + stored l.
Proof.
  unfold stored. destruct (stores ex) eqn:Hs; [by rewrite filter_cons_True | by rewrite filter_cons_False by congruence].
Qed.

Lemma stored_le l : stored l ≤ length l.
Proof. unfold stored. apply length_filter. Qed.

Lemma count_execution_run s ex :
  (count_execution s ex).1 = (if stores ex then u64_add (execution_count s) 1 else execution_count s) ∧
  execution_count (count_execution s ex).2 = (count_execution s ex).1.
Proof. unfold count_execution, stores. by destruct (_ && _). Qed.

Lemma counted_run l s :
  (0 ≤ execution_count s)%Z → (execution_count s + Z.of_nat (length l) < u64_mod)%Z →
  execution_count (counted l s) = (execution_count s + Z.of_nat (stored l))%Z.
Proof.
  revert s. induction l as [|ex l IH]; intros s H0 Hb; [change (stored []) with 0; simpl; lia|]. change (counted (ex :: l) s) with (counted l (count_execution s ex).2).
  destruct (count_execution_run s ex) as [E1 E2]. rewrite stored_cons. simpl in Hb.
  destruct (stores ex); [rewrite u64_add_small in E1 by lia|]; rewrite IH; rewrite E2, E1; lia.
Qed.

(** (numbering) a session's executions are numbered from 1: after any
    sequence of executions, one that stores history and is not silent reports
    the number of such executions so far, itself included; every other one
    reports the number of the last that did, and 0 if there was none. *)
Theorem execution_numbering l ex :
  (Z.of_nat (length l) + 1 < u64_mod)%Z →
  (count_execution (counted l shell_init) ex).1 = (Z.of_nat (stored l) + if stores ex then 1 else 0)%Z.
Proof.
  intros Hb. destruct (count_execution_run (counted l shell_init) ex) as [-> _].
  pose proof (stored_le l). rewrite counted_run by (simpl; lia). simpl. destruct (stores ex); [|lia].
  rewrite u64_add_small; lia.
Qed.
