(* ===== verification/Lifetime.v ===== *)
(** * How a shell ends (src/src/engine.rs, [Shell::run])

    What can end a shell task, and what it leaves behind. *)

From Stdlib Require Import ZArith.
From stdpp Require Import base gmap sets list strings.
From S2P Require Import Prelude Json Errors Wire Language Services Queue Requests Shell Ledger Controls Schedule.

(** A language that is not gone: its methods may fail, but not because its
    service is closed, and its interrupt handler succeeds. *)
Class Steadfast `{LanguageSession L} (lang : L) := {
  steady_execute n ex ctx e : run_outcome (lang_execute lang n ex ctx) = Err e → error_kind e ≠ Closed;
  steady_message n m ctx e : run_outcome (lang_message lang n m ctx) = Err e → error_kind e ≠ Closed;
  steady_kernel_info n e : kernel_info lang n = Err e → error_kind e ≠ Closed;
  steady_complete n r e : lang_complete lang n r = Err e → error_kind e ≠ Closed;
  steady_inspect n r e : lang_inspect lang n r = Err e → error_kind e ≠ Closed;
  steady_is_complete n r e : lang_is_complete lang n r = Err e → error_kind e ≠ Closed;
  steady_history n r e : lang_history lang n r = Err e → error_kind e ≠ Closed;
  steady_comm_info n r e : lang_comm_info lang n r = Err e → error_kind e ≠ Closed;
  steady_interrupt n : lang_on_interrupt lang n = Ok tt;
}.

(** ** Operations that never fail with [Closed] *)

Definition never_closed {A} (m : M A) : Prop := ∀ w e w', m w = (Err e, w') → error_kind e ≠ Closed.

Lemma never_closed_total {A} (m : M A) : total m → never_closed m.
Proof. intros Ht w e w' E. destruct (Ht w) as (a & w1 & E1). congruence. Qed.

Lemma never_closed_lift {A} (r : Result A) : (∀ e, r = Err e → error_kind e ≠ Closed) → never_closed (lift r).
Proof. intros Hr w e w' [= E _]. eauto. Qed.

Lemma never_closed_bind {A B} (m : M A) (f : A → M B) :
  never_closed m → (∀ w a w', m w = (Ok a, w') → never_closed (f a)) → never_closed (m ≫= f).
Proof.
  intros Hm Hf w e w'. unfold mbind, M_bind. destruct (m w) as [[a|e1] w1] eqn:Em; [by eapply Hf | intros [= <- <-]; by eapply Hm].
Qed.

Lemma never_closed_call {A} (f : nat → Result A) :
  (∀ n e, f n = Err e → error_kind e ≠ Closed) → never_closed (r ← call f; lift r).
Proof.
  intros Hf w e w' E. unfold call, mbind, M_bind in E. simpl in E. injection E as E _. eauto.
Qed.

Section Lifetime.
Context `{JsonTotal} `{LanguageSession L} (ks : KernelServices) (lang : L) `{!Steadfast lang}.

Lemma total_call {A} (f : nat → A) : total (call f).
Proof. intros w. do 2 eexists. reflexivity. Qed.

Lemma never_closed_service_content req : never_closed (service_content ks lang req).
Proof.
  unfold service_content. cbv zeta. repeat case_decide.
  all: try (apply never_closed_call; eauto using steady_complete, steady_inspect, steady_is_complete, steady_history).
  apply never_closed_bind; [apply never_closed_call; eauto using steady_kernel_info|]. intros _ info _ _.
  apply never_closed_total. eauto using total_call with kern.
Qed.

Lemma total_pump_and_flush req silent stdin batches : total (pump_and_flush ks req silent stdin batches).
Proof. apply (emits_total _ _ _ (emits_pump_and_flush ks _ _ _ _)). Qed.

Lemma flushed_ok req silent stdin batches w r w' :
  pump_and_flush ks req silent stdin batches w = (Ok r, w') → r = Ok tt.
Proof.
  destruct (emits_pump_and_flush ks req silent stdin batches w) as (w1 & E & _). congruence.
Qed.

Lemma never_closed_handle_shell inb n : never_closed (handle_shell ks lang inb n).
Proof.
  unfold handle_shell. cbv zeta. case_match; [apply never_closed_total; auto 10 with kern|].
  repeat case_decide; try (apply never_closed_total; solve [auto 10 with kern]).
  - apply never_closed_bind; [apply never_closed_total; auto with kern|intros _ _ _ _].
    apply never_closed_bind; [apply never_closed_service_content | intros _ c _ _].
    apply never_closed_total. auto 10 with kern.
  - apply never_closed_bind; [apply never_closed_call; eauto using steady_comm_info | intros _ c _ _].
    apply never_closed_total. auto 10 with kern.
  - apply never_closed_bind; [apply never_closed_total, total_call|]. intros w run w' [= <- _].
    destruct (run_outcome _) as [[]|e] eqn:Eo.
    + apply never_closed_bind; [apply never_closed_total, total_pump_and_flush|]. intros w1 r w2 ->%flushed_ok.
      apply never_closed_total. intros w3. do 2 eexists. reflexivity.
    + apply never_closed_bind; [apply never_closed_total, (emits_total _ _ _ (emits_pump_task ks _ _ _ _))|]. intros _ _ _ _.
      apply never_closed_lift. intros e' [= <-]. by eapply steady_message.
  - case_match; apply never_closed_total; auto 10 with kern.
Qed.

Lemma run_execution_ok inb ex n w r w' :
  is_execute inb = true → run_execution ks lang inb ex n w = (r, w') → is_ok r = true.
Proof.
  intros _ E. unfold run_execution in E. cbv zeta in E.
  destruct (execute_run ks lang (in_identity inb) (in_message inb) ex n w) as (t & w1 & E1 & _). cbv zeta in E1.
  unfold catch, mbind, M_bind in E. rewrite E1 in E.
  destruct (run_outcome _) as [oc|e] eqn:Eo.
  - destruct (total_send_reply ks (in_reply inb) (in_message inb) "execute_reply" (verdict_content (in_message inb) n (Ok oc)) w1) as (u & w2 & E2).
    rewrite E2 in E. destruct (total_status ks (in_message inb) "idle" w2) as (u' & w3 & E3). rewrite E3 in E.
    by injection E as <- _.
  - destruct (total_report_failure ks (in_message inb) (in_reply inb) e n w1) as (u & w2 & E2). rewrite E2 in E.
    rewrite decide_False in E by (by eapply steady_execute). by injection E as <- _.
Qed.

(** The active execution will not end the shell. *)
Definition active_ok (s : Shell) : Prop := ∀ a, active s = Some a → is_ok (a_result a) = true.

Lemma active_ok_evolves s s' : evolves s s' → active_ok s → active_ok s'.
Proof. intros (_ & _ & _ & Ha) Hok a' E. destruct (Ha _ E) as (a & Ea & Er & _). rewrite Er. eauto. Qed.

Lemma active_ok_starts s w item q s' w' : starts ks lang s w item q s' w' → active_ok s'.
Proof.
  intros (Hx & _ & _ & _ & _ & _ & _ & _ & _ & a & Ea & Es) a' E. rewrite Ea in E. injection E as <-.
  unfold spawn_execution in Es. destruct (run_execution _ _ _ _ _ _) as [r w1] eqn:Er. injection Es as <- _.
  simpl. by eapply run_execution_ok.
Qed.

Lemma run_active_ok w0 ls s w : run_from ks lang (shell_init, w0) ls (s, w) → active_ok s.
Proof.
  intros Hrun. remember (s, w) as c eqn:Ec. revert s w Ec.
  induction Hrun as [|ls [s1 w1] l c Hrun IH Hstep]; intros s w Ec; subst; [by injection Ec as <- <-|].
  specialize (IH _ _ eq_refl). apply sys_step_run in Hstep as [(i & -> & ->)|[(_ & V)|(item & q & _ & _ & _ & St)]].
  - exact IH.
  - by eapply active_ok_evolves.
  - by eapply active_ok_starts.
Qed.

Lemma total_abort_pending s : total (abort_pending ks s).
Proof. apply (emits_total _ _ _ (emits_abort_pending ks _)). Qed.

Lemma total_apply_control s c : total (apply_control ks lang s c).
Proof.
  destruct c as [id st k| |]; simpl.
  - destruct (held s); [case_decide|]; eauto using total_abort_pending with kern.
    apply total_bind; [auto with kern|intros b]. apply total_bind; [destruct b; auto using total_abort_pending with kern | auto with kern].
  - apply total_bind; [|intros s1; apply total_bind; [destruct (held s1); auto with kern | auto using total_abort_pending]].
    destruct (active s); [|auto with kern]. apply total_bind; [|auto with kern].
    intros w. do 2 eexists. unfold call, mbind, M_bind. simpl. by rewrite steady_interrupt.
  - auto with kern.
Qed.

Lemma total_execution_done s done : total (execution_done ks s done).
Proof. unfold execution_done. case_match; auto using total_abort_pending with kern. Qed.

Lemma total_active s a (f : ExecutionDone → M Shell) :
  active_ok s → panicked s = false → active s = Some a → (∀ d, total (f d)) → total (done ← lift (joined a); f done).
Proof.
  intros Hok Hnp Ea Hf. specialize (Hok _ Ea). unfold panicked in Hnp. rewrite Ea in Hnp. unfold joined.
  destruct (a_panicked a); [by rewrite bool_decide_true in Hnp by (by eexists)|]. destruct (a_result a) as [d|]; [|done].
  intros w. exact (Hf d w).
Qed.

Lemma total_reap s : active_ok s → panicked s = false → total (reap ks s).
Proof.
  intros Hok Hnp. unfold reap. destruct (active s) eqn:Ea; [|auto with kern].
  case_match; [|auto with kern]. eapply total_active; eauto using total_execution_done.
Qed.

Lemma total_handle_other s inb : total (handle_other ks lang s inb).
Proof.
  intros w. unfold handle_other, catch, mbind at 1, M_bind.
  destruct (handle_shell ks lang inb (execution_count s) w) as [[o|e] w1] eqn:Eh; [do 2 eexists; reflexivity|].
  apply total_bind; [auto with kern|intros _]. rewrite decide_False; [auto with kern|].
  by eapply never_closed_handle_shell.
Qed.

Lemma total_handle_item s item : total (handle_item ks lang s item).
Proof.
  unfold handle_item. cbv zeta. case_match; [eauto using total_handle_other with kern|].
  case_match; [auto with kern|]. case_match; [auto 10 using total_abort_pending with kern|].
  case_match.
  - apply total_bind; [auto with kern|intros _]. apply total_bind; [|auto with kern]. intros w. do 2 eexists. reflexivity.
  - destruct (count_execution _ _). apply total_bind; [|auto with kern]. intros w. unfold spawn_execution.
    destruct (run_execution _ _ _ _ _ _). eauto.
Qed.

Lemma total_shell_step c s :
  active_ok s → panicked s = false → c ≠ SelIncomingClosed → c ≠ SelControlClosed → total (shell_step ks lang c s).
Proof.
  intros Hok Hnp Hc1 Hc2. unfold shell_step.
  assert (∀ s1, total (shutdown_language lang s1)) as Hsd.
  { intros s1. unfold shutdown_language. auto using total_call with kern. }
  destruct (phase s); try (case_match; auto using total_apply_control with kern).
  - apply total_bind; [by apply total_reap | intros s1]. case_match; auto with kern.
  - case_match; [|auto with kern]. apply total_bind; [apply total_handle_item | intros [s1 []]; auto with kern].
  - apply total_bind; [|auto with kern]. destruct c; simpl; try done.
    + case_match; auto with kern.
    + case_match; auto using total_apply_control with kern.
    + destruct (active s) eqn:Ea; [|auto with kern]. eapply total_active; eauto using total_execution_done.
    + case_match; auto using total_abort_pending with kern.
  - auto with kern.
Qed.
End Lifetime.

(** ** What a stopped shell leaves *)

Section Stopped.
Context `{JsonTotal} `{LanguageSession L} (ks : KernelServices) (lang : L).

Definition is_shutdown (i : Inbound) : bool := bool_decide (msg_type (in_message i) = "shutdown_request").

Lemma handle_shell_shutdown inb n w w' :
  handle_shell ks lang inb n w = (Ok Shutdown, w') → is_shutdown inb = true.
Proof.
  unfold handle_shell, is_shutdown. cbv zeta. intros E.
  case_match; [by run_inv|]. case_decide; [by rewrite bool_decide_true|].
  repeat case_decide; try (by run_inv); [|case_match; by run_inv].
  apply bind_inv in E as (run & w1 & _ & E). destruct (run_outcome run); by run_inv.
Qed.

Lemma handle_item_shutdown s item w s' w' :
  handle_item ks lang s item w = (Ok (s', true), w') → is_shutdown (inbound item) = true.
Proof.
  unfold handle_item. intros E. destruct (is_execute (inbound item)) eqn:Hx; simpl in E.
  - repeat (case_match; try done); by run_inv.
  - apply bind_inv in E as (b & w1 & E1 & E). run_inv. unfold handle_other in E1.
    apply bind_inv in E1 as (r & w2 & E2 & E1). unfold catch in E2.
    destruct (handle_shell ks lang (inbound item) (execution_count s') w) as [r' w3] eqn:Eh. injection E2 as <- <-.
    destruct r' as [[|]|e]; [by run_inv | by eapply handle_shell_shutdown|].
    run_inv. case_decide; by run_inv.
Qed.

(** A shell that ended well was stopped with nothing in its hands, or was shut down. *)
Definition ended_well (rec : list Inbound) (s : Shell) : Prop :=
  match phase s with
  | PDone (Ok _) => (queue s = [] ∧ active s = None ∧ held s = None) ∨ Exists (λ i, is_shutdown i = true) rec
  | _ => True
  end.

(** The loop ends by itself in two ways: a stop finds nothing left to do, or a
    shutdown request was just handled.  Its result is then that of the language's
    own shutdown. *)
Definition may_end (s s' : Shell) : Prop :=
  stopping s' = true ∧ queue s' = [] ∧ active s' = None ∧ held s' = None ∨
  ∃ item, phase s = PPop ∧ pop_runnable (queue s) (bool_decide (is_Some (active s))) (held s) = (Some item, queue s') ∧
    is_shutdown (inbound item) = true.

Lemma shell_step_end c s w s' w' r :
  running s = true → shell_step ks lang c s w = (Ok s', w') → phase s' = PDone r →
  (∃ n, r = lang_shutdown lang n) ∧ may_end s s'.
Proof.
  unfold running, shell_step. intros Hr E Hd. destruct (phase s) eqn:Hp; [..|done].
  - destruct (incoming s); run_inv; simpl in *; congruence.
  - destruct (controls s); [by run_inv|]. apply evolves_apply_control in E as [_ Ep]. simpl in Ep. congruence.
  - apply bind_inv in E as (s1 & w1 & _ & E). cbv zeta in E.
    set (s2 := if _ && bool_decide (active s1 = None) then _ else s1) in E.
    destruct (stopping s2 && _ && _ && _) eqn:Hc; [|by run_inv].
    unfold shutdown_language in E. apply bind_inv in E as (r1 & w2 & E1 & E). injection E as <- <-. injection Hd as <-.
    split; [by injection E1; eexists|]. left. rewrite !andb_true_iff, !bool_decide_eq_true in Hc. simpl. naive_solver.
  - destruct (pop_runnable _ _ _) as [[item|] q] eqn:Epop; [|by run_inv].
    apply bind_inv in E as ([s1 stop] & w1 & E1 & E). destruct stop; [|by run_inv].
    unfold shutdown_language in E. apply bind_inv in E as (r1 & w2 & E2 & E). injection E as <- <-. injection Hd as <-.
    split; [by injection E2; eexists|]. right. exists item. pose proof (handle_item_shutdown _ _ _ _ _ E1) as Hs.
    assert (queue s1 = q) as Eq; [|by rewrite <- Eq in Epop].
    unfold handle_item in E1. destruct (is_execute (inbound item)) eqn:Hx; cbn [negb] in E1; [|by run_inv].
    unfold is_execute, is_shutdown in *. apply bool_decide_eq_true in Hx, Hs. congruence.
  - by run_inv.
Qed.

Lemma shell_step_ended c s w s' w' rec :
  running s = true → shell_step ks lang c s w = (Ok s', w') → (∀ q, q ∈ queue s → inbound q ∈ rec) → ended_well rec s'.
Proof.
  unfold ended_well. intros Hr E Hrec. destruct (phase s') as [| | | | |r] eqn:Hp; try done. destruct r; [|done].
  destruct (shell_step_end _ _ _ _ _ _ Hr E Hp) as [_ [(_ & ?)|(item & _ & Epop & Hs)]]; [by left|]. right.
  pose proof (pop_runnable_items (queue s) (bool_decide (is_Some (active s))) (held s)) as Hi. rewrite Epop in Hi.
  destruct Hi as [Hi _]. apply Exists_exists. exists (inbound item). split; [|done]. apply Hrec. rewrite Hi. left.
Qed.

(** What is queued arrived. *)
Lemma inbound_number n l : map inbound (number n l) = l.
Proof. revert n. induction l as [|i l IH]; intros n; simpl; [done|]. by rewrite IH. Qed.

Lemma run_items w0 ls s w : run_from ks lang (shell_init, w0) ls (s, w) → ∀ i, i ∈ map inbound (all_items s) → i ∈ received ls.
Proof.
  intros Hrun. remember (s, w) as c eqn:Ec. revert s w Ec.
  induction Hrun as [|ls [s1 w1] l c Hrun IH Hstep]; intros s w Ec i Hi; subst.
  { injection Ec as <- <-. by apply elem_of_nil in Hi. }
  specialize (IH _ _ eq_refl). rewrite received_snoc. unfold all_items in *. rewrite map_app, inbound_number in *.
  apply sys_step_run in Hstep as [(j & -> & ->)|[(-> & ((gone & E) & _))|(item & q & -> & _ & Ep & St)]]; simpl in *.
  - set_solver.
  - rewrite app_nil_r. apply IH. apply (Permutation_map inbound) in E. rewrite map_app in E. unfold all_items in E.
    rewrite !map_app, !inbound_number in E. rewrite E. set_solver.
  - rewrite app_nil_r. apply IH. destruct St as (_ & _ & _ & _ & Eq & _ & Ei & _). rewrite Eq, Ei in Hi.
    pose proof (pop_runnable_items (queue s1) (bool_decide (is_Some (active s1))) (held s1)) as Hp. rewrite Ep in Hp.
    destruct Hp as [Hp%(Permutation_map inbound) _]. rewrite Hp. set_solver.
Qed.

Lemma ended_running rec s : running s = true → ended_well rec s.
Proof. unfold running, ended_well. by destruct (phase s). Qed.

Lemma run_ended w0 ls s w : run_from ks lang (shell_init, w0) ls (s, w) → ended_well (received ls) s.
Proof.
  intros Hrun. remember (s, w) as c eqn:Ec. revert s w Ec.
  induction Hrun as [|ls [s1 w1] l c Hrun IH Hstep]; intros s w Ec; subst; [by injection Ec as <- <-|].
  specialize (IH _ _ eq_refl). rewrite received_snoc.
  inversion Hstep; subst; simpl; rewrite ?app_nil_r; try done; try (by apply ended_running).
  eapply shell_step_ended; [done | eassumption|]. intros q Hq.
  apply (run_items _ _ _ _ Hrun). apply list_elem_of_fmap_2. unfold all_items. set_solver.
Qed.

(** C12: (nothing a client sends ends the shell but a shutdown request) take any
    run of a shell whose language service is not gone and whose interrupt handler
    succeeds, at any point of its loop, with its execution not panicked and its
    channels open.  The next step succeeds, whatever was received: malformed
    requests, executions that fail, clients that disconnect, interrupts, holds
    that are released, interrupted or timed out.  And the loop goes on after it,
    unless a stop was asked for and nothing is queued, running or held, or the
    step just handled a shutdown request; the shell's result is then that of the
    language's own shutdown. *)
Theorem shell_survives `{!Steadfast lang} w0 ls s w c :
  run_from ks lang (shell_init, w0) ls (s, w) → running s = true → panicked s = false →
  c ≠ SelIncomingClosed → c ≠ SelControlClosed →
  ∃ s' w', shell_step ks lang c s w = (Ok s', w') ∧
    (running s' = true ∨ (∃ n, phase s' = PDone (lang_shutdown lang n)) ∧ may_end s s').
Proof.
  intros Hrun Hr Hnp Hc1 Hc2. pose proof (run_active_ok ks lang w0 ls s w Hrun) as Hok.
  destruct (total_shell_step ks lang c s Hok Hnp Hc1 Hc2 w) as (s' & w' & E).
  exists s', w'. split; [done|]. destruct (running s') eqn:Hr'; [by left|]. right. unfold running in Hr'.
  destruct (phase s') as [| | | | |r] eqn:Hp; try done. destruct (shell_step_end _ _ _ _ _ _ Hr E Hp) as [[n ->] ?]. eauto.
Qed.

(** C13: (a stopped shell owes nothing it took in) when a shell that received no
    shutdown request and no hold request strictly above another ends well, every
    request was answered exactly once, except those still in its channel, which it
    never read. *)
Theorem stopped_shell_answered w0 ls s w :
  run_from ks lang (shell_init, w0) ls (s, w) → holds_level (received ls) →
  Forall (λ i, is_shutdown i = false) (received ls) → phase s = PDone (Ok tt) →
  answers (trace w) ++ keys (incoming s) ≡ₚ answers (trace w0) ++ answers (foreign ls) ++ keys (received ls).
Proof.
  intros Hrun Hlev Hns Hp.
  pose proof (run_ended w0 ls s w Hrun) as He. unfold ended_well in He. rewrite Hp in He.
  destruct He as [(Hq & Ha & Hh)|He].
  - destruct (run_conserves ks lang w0 ls s w Hrun Hlev) as (Hl & _); [unfold failed_shell, panicked; by rewrite Hp, Ha|].
    unfold ledger, todo, outstanding in Hl. rewrite Hq, Ha, Hh in Hl. simpl in Hl. by rewrite app_nil_r in Hl.
  - apply Exists_exists in He as (i & Hi & Hs). rewrite Forall_forall in Hns. by rewrite Hns in Hs.
Qed.
End Stopped.
