(* ===== verification/Rest.v ===== *)
(** * A shell left alone (src/src/engine.rs, [Shell::run])

    Termination of the scheduler.  The moves a shell makes by itself are those of
    its loop and those of its running execution.  Neither the code it runs nor the
    language's own calls need ever return, so the moves are taken from two
    parameters: whether the code goes on, and whether the loop does.  While
    anything else happens, that is while time passes and code sends what it likes,
    a shell makes finitely many moves of its own; then it has nothing to do but
    wait for its hold or for its code.  A shell that was told to stop has ended
    then, but for a hold in force or code that goes on without end.

    The measure is lexicographic: the requests not yet taken up; then what the
    shell has in hand (arrivals and controls to read, the held request, the
    outputs its execution still has to send) together with the point of the loop
    it is at. *)

From Stdlib Require Import ZArith.
From stdpp Require Import base gmap sets list strings lexico well_founded.
From S2P Require Import Prelude Json Errors Wire Language Services Queue Requests Shell Controls Schedule.

Lemma prod_lexico_wf `{Lexico A, Lexico B} :
  well_founded (lexico : relation A) → well_founded (lexico : relation B) → well_founded (lexico : relation (A * B)).
Proof.
  intros HA HB [a b]. revert b. induction (HA a) as [a _ IHa]. intros b. induction (HB b) as [b _ IHb].
  constructor. intros [a' b'] [Hlt|[Heq Hlt]]; simpl in *; [by apply IHa | subst; by apply IHb].
Qed.

Lemma nat_lexico_wf : well_founded (lexico : relation nat).
Proof. exact Nat.lt_wf_0. Qed.

(** ** What a shell has to do *)

Definition execution_load (a : option ActiveExecution) : nat := match a with Some a => S (length (a_todo a)) | None => 0 end.
Definition held_load (h : option Held) : nat := match h with Some _ => 1 | None => 0 end.

Definition load (s : Shell) : nat := length (incoming s) + length (controls s) + held_load (held s) + execution_load (active s).

Definition rank (p : Phase) : nat := match p with PIncoming => 5 | PControls => 4 | PReap => 3 | PPop => 2 | PSelect => 1 | PDone _ => 0 end.

Definition weight (s : Shell) : nat * nat := (length (queue s) + length (incoming s), 8 * load s + rank (phase s)).

Definition lighter (s' s : Shell) : Prop := lexico (weight s') (weight s).

Lemma lighter_wf : well_founded lighter.
Proof. apply (wf_projected lexico weight); [done|]. apply prod_lexico_wf; apply nat_lexico_wf. Qed.

(** The labels of a shell's own moves, if its code and its loop go on: its
    channels are open as long as somebody holds its handle. *)
Definition own (code loop : bool) (l : Label) : bool :=
  match l with
  | LProgress | LPanic _ => code
  | LStep SelIncomingClosed | LStep SelControlClosed => false
  | LStep _ => loop
  | _ => false
  end.

(** What goes on besides: the running code sends outputs, and so does the rest of
    the kernel; time passes. *)
Definition meanwhile (l : Label) : bool := match l with LOutput _ | LWorld _ _ => true | _ => false end.

(** Nothing a client could wait for is in the shell's hands but what its hold
    keeps back, before the deadline, or what waits for the code it still runs. *)
Definition at_rest (s : Shell) (w : World) : Prop :=
  phase s = PSelect ∧ incoming s = [] ∧ controls s = [] ∧
  (∀ a, active s = Some a → finished a = false) ∧
  (∀ q, q ∈ queue s → is_execute (inbound q) = true ∧ (is_Some (active s) ∨ above_hold (held s) q = false)) ∧
  (∀ h, held s = Some h → (now w < deadline h)%Z).

(** The shell was told to stop, or will read that it is; and no execute request
    will be left but one that runs and was interrupted, or it will read an
    interrupt. *)
Definition cleared (s : Shell) : Prop :=
  held s = None ∧ Forall (λ q, is_execute (inbound q) = false) (all_items s) ∧ ∀ a, active s = Some a → a_interrupted a = true.
Definition stop_coming (s : Shell) : Prop := stopping s = true ∨ Stop ∈ controls s.
Definition clear_coming (s : Shell) : Prop := cleared s ∨ Interrupt ∈ controls s.

(** ** What a step keeps of the rest *)

Record lightens (s s' : Shell) : Prop := {
  lt_controls : controls s' = controls s;
  lt_incoming : length (incoming s') ≤ length (incoming s);
  lt_held : held s' = held s ∨ held s' = None;
  lt_stopping : stopping s = true → stopping s' = true;
  lt_released n : n ∈ (released s).*1 → n ∈ (released s').*1;
}.

Lemma lightens_refl s : lightens s s.
Proof. split; auto. Qed.

Lemma lightens_trans s1 s2 s3 : lightens s1 s2 → lightens s2 s3 → lightens s1 s3.
Proof. intros [] []. split; [congruence | lia | naive_solver congruence | auto..]. Qed.

Lemma lightens_same s s' :
  controls s' = controls s → incoming s' = incoming s → held s' = held s ∨ held s' = None → stopping s' = stopping s →
  released s' = released s → lightens s s'.
Proof. intros E1 E2 E3 E4 E5. split; rewrite ?E1, ?E2, ?E4, ?E5; auto. Qed.

Ltac lighten := apply lightens_same; simpl; auto.

Lemma drain_incoming_kept s : controls (drain_incoming s) = controls s ∧ released (drain_incoming s) = released s.
Proof.
  unfold drain_incoming. change (controls s) with (controls (set_incoming s [])). change (released s) with (released (set_incoming s [])).
  generalize (set_incoming s []) as s0. induction (incoming s) as [|i l IH]; intros s0; simpl; [done|]. apply (IH (enqueue s0 i)).
Qed.

Lemma lightens_aborted s : lightens s (aborted_shell s).
Proof.
  destruct (drain_incoming_fields s) as (Ei & Eh & _ & _ & _ & _ & Es), (drain_incoming_kept s) as [Ec Er].
  split; unfold aborted_shell; simpl; rewrite ?Ei, ?Eh, ?Es, ?Ec, ?Er; simpl; auto with lia.
Qed.

(** [length (all_items s)] is the first component of the measure. *)
Lemma length_all_items s : length (all_items s) = length (queue s) + length (incoming s).
Proof.
  unfold all_items. rewrite length_app. f_equal. generalize (next_order s). induction (incoming s) as [|i l IH]; intros n; simpl; auto.
Qed.

Lemma evolves_length s s' : evolves s s' → length (queue s') + length (incoming s') ≤ length (queue s) + length (incoming s).
Proof. intros ((gone & E) & _). rewrite <- !length_all_items, E, length_app. lia. Qed.

Lemma evolves_execution s s' : evolves s s' → execution_load (active s') ≤ execution_load (active s).
Proof.
  intros (_ & _ & _ & Ha). destruct (active s') as [a'|] eqn:E; [|simpl; lia]. destruct (Ha a' eq_refl) as (a & -> & _ & [l El] & _).
  simpl. rewrite El, length_app. lia.
Qed.

Lemma held_load_le s s' : held s' = held s ∨ held s' = None → held_load (held s') ≤ held_load (held s).
Proof. intros [->| ->]; simpl; lia. Qed.

Lemma load_le s s' : evolves s s' → lightens s s' → load s' ≤ load s.
Proof.
  intros ?%evolves_execution [Ec ? ?%held_load_le _]. unfold load. rewrite Ec. lia.
Qed.

(** A step that takes a request up, or puts the load down, or goes on in the loop. *)
Lemma lighter_taken s s' : length (queue s') + length (incoming s') < length (queue s) + length (incoming s) → lighter s' s.
Proof. intros ?. left. done. Qed.

Lemma lighter_load s s' :
  evolves s s' → load s' < load s → lighter s' s.
Proof.
  intros Hq%evolves_length Hl. destruct (decide (length (queue s') + length (incoming s') = length (queue s) + length (incoming s))) as [E|E].
  - right. split; [done|]. unfold lexico, nat_lexico. simpl. assert (rank (phase s') ≤ 5) by (by destruct (phase s'); simpl; lia). lia.
  - left. unfold lexico, nat_lexico. simpl. lia.
Qed.

Lemma lighter_phase s s' :
  evolves s s' → load s' ≤ load s → rank (phase s') < rank (phase s) → lighter s' s.
Proof.
  intros Hq%evolves_length Hl Hr. destruct (decide (length (queue s') + length (incoming s') = length (queue s) + length (incoming s))) as [E|E].
  - right. split; [done|]. unfold lexico, nat_lexico. simpl. lia.
  - left. unfold lexico, nat_lexico. simpl. lia.
Qed.

Lemma cleared_keep s s' : evolves s s' → lightens s s' → cleared s → cleared s'.
Proof.
  intros ((gone & E) & _ & _ & Ha) [_ _ Hh _ _] (Hn & Hc & Hi). split_and!; [destruct Hh; congruence| |].
  - rewrite E in Hc. by apply Forall_app in Hc as [? _].
  - intros a' (a & Ea & _ & _ & Hk)%Ha. auto.
Qed.

Section Rest.
Context `{JsonTotal} `{LanguageSession L} (ks : KernelServices) (lang : L).

Definition own_step (code loop : bool) (c c' : Shell * World) : Prop := ∃ l, own code loop l = true ∧ sys_step ks lang l c c'.

(** Time and outputs, in between the shell's own moves. *)
Definition mean_step (c c' : Shell * World) : Prop := ∃ l, meanwhile l = true ∧ sys_step ks lang l c c'.

Definition goes (c c' : Shell * World) : Prop := own_step true true c c' ∨ mean_step c c'.

(** The next of the shell's own moves, after whatever goes on besides. *)
Definition next_move (c c' : Shell * World) : Prop := ∃ c1, rtc mean_step c c1 ∧ own_step true true c1 c'.

(** What applying a control leaves. *)
Definition applied (c : ShellControl) (s' : Shell) : Prop :=
  match c with
  | Stop => stopping s' = true
  | Interrupt => cleared s'
  | Release _ _ n => n ∈ (released s').*1
  end.

Lemma cleared_aborted s : held s = None → (∀ a, active s = Some a → a_interrupted a = true) → cleared (aborted_shell s).
Proof.
  destruct (drain_incoming_fields s) as (Ei & Eh & Ea & _). intros Hn Hi. split_and!; [simpl; congruence| |simpl; by rewrite Ea].
  unfold all_items, aborted_shell. simpl. rewrite Ei. simpl. rewrite app_nil_r. apply Forall_forall. by intros q [? _]%list_elem_of_filter.
Qed.

Lemma apply_control_leaves s c w s' w' :
  apply_control ks lang s c w = (Ok s', w') → lightens s s' ∧ applied c s'.
Proof.
  intros E. destruct c as [id st n| |]; simpl in E.
  - assert (∀ s0 b, lightens s s0 → lightens s (add_released s0 n b) ∧ n ∈ (released (add_released s0 n b)).*1) as Hadd.
    { intros s0 b [? ? ? ? Hr]. simpl. rewrite fmap_app. split; [split; simpl; auto|set_solver].
      intros m Hm%Hr. rewrite fmap_app. set_solver. }
    destruct (held s) as [h|]; [case_decide|]; run_inv; try (apply Hadd, lightens_refl).
    apply Hadd. match goal with E : (if ?b then _ else _) _ = _ |- _ => destruct b end; [|run_inv; lighten].
    match goal with E : abort_pending _ _ _ = _ |- _ => apply abort_pending_run in E as -> end.
    eapply lightens_trans; [|apply lightens_aborted]. lighten.
  - apply bind_inv in E as (s1 & w1 & E1 & E). apply bind_inv in E as (s2 & w2 & E2 & E). apply abort_pending_run in E as ->.
    assert (lightens s s1 ∧ ∀ a, active s1 = Some a → a_interrupted a = true) as [L1 Hi].
    { simpl in E1. destruct (active s) eqn:Ea; run_inv; (split; [lighten|]); simpl; [by intros ? [= <-] | congruence]. }
    assert (lightens s1 s2 ∧ held s2 = None ∧ active s2 = active s1) as (L2 & Hn & Ha).
    { destruct (held s1) eqn:Eh; run_inv; (split_and!; [lighten|done|done]). }
    split; [eauto using lightens_trans, lightens_aborted | apply cleared_aborted; [done | by rewrite Ha]].
  - run_inv. split; [|done]. split; simpl; auto.
Qed.

Lemma lightens_execution_done s done w s' w' : execution_done ks s done w = (Ok s', w') → lightens s s'.
Proof.
  unfold execution_done. intros E. case_match.
  - apply abort_pending_run in E as ->. eapply lightens_trans; [|apply lightens_aborted]. lighten.
  - run_inv. lighten.
Qed.

Lemma lightens_reap s w s' w' : reap ks s w = (Ok s', w') → lightens s s'.
Proof.
  unfold reap. intros E. destruct (active s); [case_match|]; run_inv; auto using lightens_refl.
  match goal with E : execution_done _ _ _ _ = _ |- _ => by apply lightens_execution_done in E end.
Qed.

(** ** One step *)

(** A control read: the rest stays. *)
Lemma control_lighter s k rest w s1 w' s' :
  controls s = k :: rest → apply_control ks lang (set_controls s rest) k w = (Ok s1, w') → evolves s1 s' → load s' ≤ load s1 → lighter s' s.
Proof.
  intros Ec E V Hl. pose proof (evolves_apply_control _ _ _ _ _ _ _ E) as [V1 _]. apply apply_control_leaves in E as [L1 _].
  apply lighter_load.
  - eapply evolves_trans; [|eapply evolves_trans; [exact V1 | exact V]]. evolve.
  - pose proof (load_le _ _ V1 L1) as Hl1. unfold load in *. simpl in *. rewrite Ec. simpl. lia.
Qed.

Lemma select_lighter c s w s1 w' :
  ready s w c = true → select_step ks lang c s w = (Ok s1, w') → lighter (set_phase s1 PIncoming) s.
Proof.
  intros Hr E. destruct c; simpl in *; try discriminate E.
  - destruct (incoming s) as [|i rest] eqn:Ei; [done|]. run_inv. apply lighter_load.
    + eapply evolves_trans; [by apply evolves_enqueue|]. evolve.
    + unfold load. simpl. rewrite Ei. simpl. lia.
  - destruct (controls s) as [|k rest] eqn:Ec; [done|]. eapply control_lighter; [done | done | evolve | done].
  - destruct (active s) as [a|] eqn:Ea; [|done]. run_inv.
    match goal with E : execution_done _ _ _ _ = _ |- _ => pose proof (evolves_execution_done _ _ _ _ _ _ E) as (V & _ & En); apply lightens_execution_done in E as Li end.
    apply lighter_load; [eapply evolves_trans; [exact V|evolve]|]. destruct Li as [Ec ? ?%held_load_le _].
    unfold load. simpl. rewrite En, Ea, Ec. simpl. lia.
  - destruct (held s) as [h|] eqn:Eh; [|done]. run_inv.
    match goal with E : abort_pending _ _ _ = _ |- _ => apply abort_pending_run in E as -> end.
    assert (evolves s (set_held s None)) as V by evolve. pose proof (evolves_aborted (set_held s None)) as V1.
    pose proof (lightens_aborted (set_held s None)) as L1. pose proof (load_le _ _ V1 L1) as Hl.
    apply lighter_load; [eapply evolves_trans; [|eapply evolves_trans; [exact V1|]]; evolve|].
    unfold load in *. simpl in *. rewrite Eh. simpl. lia.
Qed.

Lemma pop_lighter s item q s1 b w w' p :
  pop_runnable (queue s) (bool_decide (is_Some (active s))) (held s) = (Some item, q) →
  handle_item ks lang (set_queue s q) item w = (Ok (s1, b), w') → lighter (set_phase s1 p) s.
Proof.
  intros Ep E. pose proof (pop_runnable_items (queue s) (bool_decide (is_Some (active s))) (held s)) as Hi. rewrite Ep in Hi.
  destruct Hi as [Hi%Permutation_length _]. simpl in Hi. apply lighter_taken. simpl.
  apply handle_item_run in E as [_ [V|[(_ & _ & _ & _ & Eq & _ & Ei & _) _]]].
  - apply evolves_length in V. simpl in V. lia.
  - rewrite Eq, Ei. simpl. lia.
Qed.

Lemma shell_step_lighter c s w s' w' :
  running s = true → (phase s = PSelect → ready s w c = true) → shell_step ks lang c s w = (Ok s', w') → lighter s' s.
Proof.
  unfold shell_step, running. intros Hrun Hr E. destruct (phase s) eqn:Hp; [..|done].
  - destruct (incoming s) as [|i rest] eqn:Ei; run_inv.
    + apply lighter_phase; [evolve | done | rewrite Hp; simpl; lia].
    + apply lighter_load; [by apply evolves_enqueue|]. unfold load. simpl. rewrite Ei. simpl. lia.
  - destruct (controls s) as [|k rest] eqn:Ec; [run_inv; apply lighter_phase; [evolve | done | rewrite Hp; simpl; lia]|].
    eapply control_lighter; [done | done | apply evolves_refl | done].
  - apply bind_inv in E as (s1 & w1 & E1 & E). pose proof (evolves_reap _ _ _ _ _ E1) as [V P1]. apply lightens_reap in E1 as L1.
    pose proof (load_le _ _ V L1) as Hl. unfold shutdown_language in E.
    destruct (interrupting s1 && _); case_match; run_inv;
      (apply lighter_phase; [eapply evolves_trans; [exact V|evolve] | exact Hl | rewrite Hp; simpl; lia]).
  - destruct (pop_runnable _ _ _) as [[item|] q] eqn:Ep.
    + apply bind_inv in E as ([s1 b] & w1 & E1 & E). destruct b; unfold shutdown_language in E; run_inv; by eapply pop_lighter.
    + run_inv. pose proof (pop_runnable_items (queue s) (bool_decide (is_Some (active s))) (held s)) as Hi. rewrite Ep in Hi.
      apply lighter_phase; [|done|rewrite Hp; simpl; lia]. eapply evolves_trans; [apply (evolves_queue _ q []); by rewrite Hi, app_nil_r|evolve].
  - apply bind_inv in E as (s1 & w1 & E1 & E). run_inv. by eapply select_lighter; [apply Hr|].
Qed.

Lemma execution_lighter s a a' :
  active s = Some a → evolves s (set_active s (Some a')) → length (a_todo a') < length (a_todo a) → lighter (set_active s (Some a')) s.
Proof. intros Ha V Hl. apply lighter_load; [done|]. unfold load. simpl. rewrite Ha. simpl. lia. Qed.

Lemma own_step_lighter code loop c c' : own_step code loop c c' → lighter c'.1 c.1.
Proof.
  intros (l & Hl & Hs). inversion Hs; subst; try done; simpl.
  - eapply execution_lighter; [eassumption | by eapply evolves_progress|]. match goal with Et : a_todo _ = _ |- _ => rewrite Et end. simpl. lia.
  - eapply execution_lighter; [eassumption | by apply evolves_panic|]. match goal with Hf : finished a = false |- _ => unfold finished in Hf;
      apply orb_false_iff in Hf as [_ Hf%bool_decide_eq_false] end. simpl. lia.
  - by eapply shell_step_lighter.
  - apply lighter_phase; [evolve | done|]. unfold running in *. by destruct (phase s); simpl; try lia.
Qed.

Lemma mean_steps_same c c' : rtc mean_step c c' → c'.1 = c.1.
Proof. induction 1 as [|c c1 c2 (l & Hl & Hs) _ IH]; [done|]. rewrite IH. by inversion Hs; subst. Qed.

(** The moves a shell makes by itself end, in whatever order its loop and its
    execution take turns, and whatever goes on besides. *)
Lemma next_move_sn c : sn next_move c.
Proof.
  destruct c as [s w]. revert w. induction (lighter_wf s) as [s _ IH]. intros w.
  constructor. intros [s' w'] ([s1 w1] & Hm%mean_steps_same & Hs%own_step_lighter). simpl in *. subst. by apply IH.
Qed.

(** ** What a move keeps *)

Definition coming_kept (s s' : Shell) : Prop :=
  running s' = false ∨
  ((stop_coming s → stop_coming s') ∧ (clear_coming s → clear_coming s') ∧
   ∀ id st n, Release id st n ∈ controls s ∨ n ∈ (released s).*1 → Release id st n ∈ controls s' ∨ n ∈ (released s').*1).

Lemma coming_light s s' : evolves s s' → lightens s s' → coming_kept s s'.
Proof.
  intros V Li. pose proof (cleared_keep _ _ V Li) as Hc. destruct Li as [Ec _ _ Hs Hr]. right. unfold stop_coming, clear_coming.
  rewrite Ec. naive_solver.
Qed.

Lemma coming_control s k rest w s1 w' s' :
  controls s = k :: rest → apply_control ks lang (set_controls s rest) k w = (Ok s1, w') →
  evolves s1 s' → lightens s1 s' → coming_kept s s'.
Proof.
  intros Ek E V Li. pose proof (evolves_apply_control _ _ _ _ _ _ _ E) as [V1 _]. apply apply_control_leaves in E as [L1 Ha].
  assert (evolves (set_controls s rest) s') as V2 by eauto using evolves_trans. pose proof (lightens_trans _ _ _ L1 Li) as L2.
  pose proof (cleared_keep _ _ V2 L2) as Hc. pose proof (cleared_keep _ _ V Li) as Hc1.
  destruct L2 as [Ec _ _ Hs Hr], Li as [_ _ _ Hs1 Hr1]. simpl in *. right. unfold stop_coming, clear_coming.
  rewrite Ec, Ek. split_and!.
  - intros [?|[<-|?]%elem_of_cons]; simpl in Ha; auto.
  - intros [Hcl|[<-|?]%elem_of_cons]; simpl in Ha; auto.
  - intros id st n [[<-|?]%elem_of_cons|?]; simpl in Ha; auto.
Qed.

Lemma handle_item_kept s item w s' b w' :
  handle_item ks lang s item w = (Ok (s', b), w') →
  controls s' = controls s ∧ stopping s' = stopping s ∧ released s' = released s ∧ (is_execute (inbound item) = false → s' = s).
Proof.
  unfold handle_item. intros E. destruct (is_execute (inbound item)) eqn:Hx; cbn [negb] in E; [|by run_inv].
  destruct (interrupting s); [by run_inv|]. case_match.
  - run_inv. match goal with E : abort_pending _ _ _ = _ |- _ => apply abort_pending_run in E as -> end.
    destruct (drain_incoming_fields s) as (_ & _ & _ & _ & _ & _ & Es), (drain_incoming_kept s) as [Ec Er]. done.
  - destruct (is_hold (inbound item)); [by run_inv|]. unfold count_execution in E. cbv zeta in E.
    match type of E with context [if ?b then set_count _ _ else _] => destruct b end; by run_inv.
Qed.

Lemma coming_pop s item q s1 b w w' p :
  pop_runnable (queue s) (bool_decide (is_Some (active s))) (held s) = (Some item, q) →
  handle_item ks lang (set_queue s q) item w = (Ok (s1, b), w') → coming_kept s (set_phase s1 p).
Proof.
  intros Ep E. apply handle_item_kept in E as (Ec & Es & Er & Hn). right. unfold stop_coming, clear_coming. simpl in *.
  rewrite Ec, Es, Er. split_and!; [done | | done]. intros [[Hh Hc]|?]; [left|by right].
  pose proof (pop_runnable_items (queue s) (bool_decide (is_Some (active s))) (held s)) as Hi. rewrite Ep in Hi. destruct Hi as [Hi _].
  destruct Hc as [Hc Ha]. unfold all_items in Hc. rewrite Hi in Hc. simpl in Hc. apply Forall_cons in Hc as [Hx Hc]. rewrite (Hn Hx). by split_and!.
Qed.

Lemma shell_step_coming c s w s' w' : shell_step ks lang c s w = (Ok s', w') → coming_kept s s'.
Proof.
  unfold shell_step. intros E. destruct (phase s) eqn:Hp.
  - destruct (incoming s) as [|i rest] eqn:Ei; run_inv; [apply coming_light; [evolve|lighten]|].
    apply coming_light; [by apply evolves_enqueue|]. split; simpl; auto. rewrite Ei. simpl. lia.
  - destruct (controls s) as [|k rest] eqn:Ec; [run_inv; apply coming_light; [evolve|lighten]|].
    eapply coming_control; [done | done | apply evolves_refl | apply lightens_refl].
  - apply bind_inv in E as (s1 & w1 & E1 & E). pose proof (evolves_reap _ _ _ _ _ E1) as [V P1]. apply lightens_reap in E1 as L1.
    unfold shutdown_language in E. destruct (interrupting s1 && _); case_match; run_inv; try (by left);
      (apply coming_light; [eapply evolves_trans; [exact V|evolve] | eapply lightens_trans; [exact L1|lighten]]).
  - destruct (pop_runnable _ _ _) as [[item|] q] eqn:Ep.
    + apply bind_inv in E as ([s1 b] & w1 & E1 & E). destruct b; unfold shutdown_language in E; run_inv; by eapply coming_pop.
    + run_inv. pose proof (pop_runnable_items (queue s) (bool_decide (is_Some (active s))) (held s)) as Hi. rewrite Ep in Hi.
      apply coming_light; [|lighten]. eapply evolves_trans; [apply (evolves_queue _ q []); by rewrite Hi, app_nil_r|evolve].
  - apply bind_inv in E as (s1 & w1 & E1 & E). run_inv. destruct c; simpl in E1; try discriminate E1.
    + destruct (incoming s) as [|i rest] eqn:Ei; run_inv; [apply coming_light; [evolve|lighten]|].
      apply coming_light; [eapply evolves_trans; [by apply evolves_enqueue|evolve]|]. split; simpl; auto. rewrite Ei. simpl. lia.
    + destruct (controls s) as [|k rest] eqn:Ec; [run_inv; apply coming_light; [evolve|lighten]|].
      eapply coming_control; [done | done | evolve | lighten].
    + destruct (active s) as [a|] eqn:Ea; run_inv; [|apply coming_light; [evolve|lighten]].
      match goal with E : execution_done _ _ _ _ = _ |- _ => pose proof (evolves_execution_done _ _ _ _ _ _ E) as (V & _); apply lightens_execution_done in E end.
      apply coming_light; [eapply evolves_trans; [exact V|evolve] | eapply lightens_trans; [eassumption|lighten]].
    + destruct (held s) as [h|] eqn:Eh; run_inv; [|apply coming_light; [evolve|lighten]].
      match goal with E : abort_pending _ _ _ = _ |- _ => apply abort_pending_run in E as -> end.
      apply coming_light.
      * eapply evolves_trans; [|eapply evolves_trans; [apply evolves_aborted|evolve]]. evolve.
      * eapply lightens_trans; [|eapply lightens_trans; [apply lightens_aborted|lighten]]. lighten.
  - run_inv. apply coming_light; [apply evolves_refl | apply lightens_refl].
Qed.

(** Every move keeps what is coming; the environment only adds to it. *)
Lemma sys_step_coming l s w s' w' :
  match l with LArrive _ => False | _ => True end → sys_step ks lang l (s, w) (s', w') → coming_kept s s'.
Proof.
  intros Hl Hs. inversion Hs; subst; try done.
  - right. unfold stop_coming, clear_coming. simpl. split_and!; set_solver.
  - apply coming_light; [by eapply evolves_progress | lighten].
  - apply coming_light; [apply evolves_refl | apply lightens_refl].
  - apply coming_light; [by apply evolves_panic | lighten].
  - apply coming_light; [apply evolves_refl | apply lightens_refl].
  - by eapply shell_step_coming.
  - by left.
Qed.

(** ** At rest *)

(** A stop that finds nothing left to do is noticed before the loop waits. *)
Definition stop_seen (s : Shell) : Prop :=
  match phase s with
  | PPop | PSelect => stopping s = true → queue s = [] → active s = None → held s ≠ None
  | _ => True
  end.

Lemma stop_seen_step c s w s' w' : shell_step ks lang c s w = (Ok s', w') → stop_seen s → stop_seen s'.
Proof.
  unfold shell_step, stop_seen. intros E Hs. destruct (phase s) eqn:Hp.
  - destruct (incoming s); run_inv; simpl; by rewrite ?Hp.
  - destruct (controls s); [by run_inv|]. apply evolves_apply_control in E as [_ ->]. simpl. by rewrite Hp.
  - apply bind_inv in E as (s1 & w1 & _ & E). cbv zeta in E. set (s2 := if _ && bool_decide (active s1 = None) then _ else s1) in E.
    destruct (stopping s2 && _ && _ && _) eqn:Hc; unfold shutdown_language in E; run_inv; [done|]. simpl. intros E1 E2 E3 E4.
    rewrite E1, E2, E3, E4 in Hc. by rewrite !bool_decide_true in Hc.
  - destruct (pop_runnable _ _ _) as [[item|] q] eqn:Ep.
    + apply bind_inv in E as ([s1 b] & w1 & E1 & E). destruct b; unfold shutdown_language in E; by run_inv.
    + run_inv. pose proof (pop_runnable_items (queue s) (bool_decide (is_Some (active s))) (held s)) as Hi. rewrite Ep in Hi.
      simpl. intros ? ->. apply Permutation_nil in Hi. by apply Hs.
  - apply bind_inv in E as (s1 & w1 & E1 & E). by run_inv.
  - run_inv. by rewrite Hp.
Qed.

Lemma stop_seen_sys l s w s' w' : sys_step ks lang l (s, w) (s', w') → stop_seen s → stop_seen s'.
Proof.
  intros Hs Hk. inversion Hs; subst; try done.
  - unfold stop_seen in *. simpl. by destruct (phase s).
  - unfold stop_seen in *. simpl. by destruct (phase s).
  - by eapply stop_seen_step.
Qed.

Lemma run_stop_seen w0 ls s w : run_from ks lang (shell_init, w0) ls (s, w) → stop_seen s.
Proof.
  intros Hrun. remember (s, w) as c eqn:Ec. revert s w Ec.
  induction Hrun as [|ls [s1 w1] l c Hrun IH Hstep]; intros s w Ec; subst; [by injection Ec as <- <-|].
  eapply stop_seen_sys; [exact Hstep | by eapply IH].
Qed.

Lemma own_can_step code c s w :
  running s = true → (phase s = PSelect → ready s w c = true) → own code true (LStep c) = true → red (own_step code true) (s, w).
Proof.
  intros Hrun Hr Hc. destruct (shell_step ks lang c s w) as [[s'|e] w'] eqn:E; eexists; exists (LStep c); (split; [done|]);
    [by eapply step_shell | by eapply step_shell_err].
Qed.

(** A shell whose loop goes on and that has no move left is at rest. *)
Lemma own_nf code s w : nf (own_step code true) (s, w) → phase_ok s → stop_seen s → running s = true →
  at_rest s w ∧ (code = true → active s = None) ∧ (stopping s = true → held s ≠ None ∨ active s ≠ None).
Proof.
  intros Hnf Hok Hseen Hrun.
  assert (phase s = PSelect) as Hp.
  { destruct (phase s) eqn:Hp; [..|done|by unfold running in Hrun; rewrite Hp in Hrun]; (destruct Hnf; apply (own_can_step code SelIncoming); [done | congruence | done]). }
  assert (∀ c, own code true (LStep c) = true → ready s w c = false) as Hno.
  { intros c Hc. destruct (ready s w c) eqn:Hr; [|done]. destruct Hnf. by apply (own_can_step code c). }
  assert (∀ a, active s = Some a → finished a = false) as Ha.
  { intros a Ea. pose proof (Hno SelExecution eq_refl) as Hx. simpl in Hx. by rewrite Ea in Hx. }
  pose proof (Hno SelIncoming eq_refl) as Hi. pose proof (Hno SelControl eq_refl) as Hc. pose proof (Hno SelHold eq_refl) as Hh. simpl in Hi, Hc, Hh.
  apply negb_false_iff, bool_decide_eq_true, nil_length_inv in Hi, Hc. unfold phase_ok in Hok. rewrite Hp in Hok.
  unfold at_rest. split_and!; try done.
  - intros q Hq%Hok. unfold runnable in Hq. apply orb_false_iff in Hq as [?%negb_false_iff Hq]. split; [done|].
    apply andb_false_iff in Hq as [Hq|?]; [left; by apply negb_false_iff, bool_decide_eq_true in Hq | by right].
  - intros h Eh. rewrite Eh in Hh. by apply Z.leb_gt in Hh.
  - intros ->. destruct (active s) as [a|] eqn:Ea; [|done]. specialize (Ha a eq_refl). unfold finished in Ha.
    apply orb_false_iff in Ha as [Hpn%bool_decide_eq_false Ht%bool_decide_eq_false]. destruct Hnf.
    destruct (a_todo a) as [|o rest] eqn:Et; [done|]. eexists. exists LProgress. split; [done|]. eapply step_progress; try done.
    destruct (a_panicked a); [by destruct Hpn|done].
  - intros Hst. destruct (held s) eqn:Hn; [by left|]. destruct (active s) eqn:Ea; [by right|].
    unfold stop_seen in Hseen. rewrite Hp, Hn in Hseen. exfalso. apply Hseen; try done.
    destruct (queue s) as [|q l]; [done|]. specialize (Hok q ltac:(left)). unfold runnable in Hok. simpl in Hok.
    by rewrite orb_true_r in Hok.
Qed.

Lemma goes_step c c' : goes c c' → ∃ l, sys_step ks lang l c c' ∧ match l with LArrive _ => False | _ => True end.
Proof. intros [(l & Hl & Hs)|(l & Hl & Hs)]; exists l; (split; [done|]); by destruct l. Qed.

Lemma run_goes w0 ls c c' : run_from ks lang (shell_init, w0) ls c → rtc goes c c' → ∃ ls', run_from ks lang (shell_init, w0) ls' c'.
Proof.
  intros Hrun Hs. revert ls Hrun. induction Hs as [|c c1 c2 (l & Hl & _)%goes_step _ IH]; intros ls Hrun; [eauto|]. eapply IH. by eapply run_snoc.
Qed.

Lemma goes_dead c c' : rtc goes c c' → running c.1 = false → running c'.1 = false.
Proof.
  induction 1 as [|c c1 c2 (l & Hs & _)%goes_step _ IH]; [done|]. intros Hr. apply IH. clear IH. by inversion Hs; subst; simpl in *; try done; try congruence.
Qed.

Lemma goes_coming c c' : rtc goes c c' → coming_kept c.1 c'.1.
Proof.
  induction 1 as [c|[s w] [s1 w1] c2 (l & Hs & Hl)%goes_step Hsteps IH]; [apply coming_light; [apply evolves_refl | apply lightens_refl]|].
  assert (coming_kept s s1) as [Hd|(K1 & K2 & K3)] by (by eapply sys_step_coming).
  - left. by eapply goes_dead.
  - destruct IH as [?|(I1 & I2 & I3)]; [by left|]. right. simpl in *. split_and!; eauto.
Qed.

End Rest.
