(* ===== verification/Kernel.v ===== *)
(** * The kernel's main loop (src/src/engine.rs, [run_kernel_with_interrupter])

    The loop owns the table of shells and the routes of client sessions.  It
    routes shell requests, serves control requests and the session commands of
    running code, and watches its tasks.

    A shell handle is the number of its task; [tasks] holds the state of every
    task ever spawned (the language session and the [Shell]), since a handle
    that left the table may still be stopping.  The channels are unbounded here:
    a full channel in the source only delays the sender.  [run_loop] is the
    loop's body for the branch of [select!] that completes; [kernel_step] goes
    through [kphase], which adds the places where the loop waits for a shell
    (a release, and the final shutdown). *)

From Stdlib Require Import ZArith.
From stdpp Require Import base gmap sets list strings pretty.
From S2P Require Import Prelude Json Errors Wire Language Services Queue Requests Shell.

(** [Option::filter] on the header field: an empty id is no id. *)
Definition subshell_id (request : Message) : string :=
  unwrap_or (opt_filter (λ id, negb (bool_decide (id = ""))) (mget_str (header request) "subshell_id")) "".

Definition client_session_of (request : Message) : string := unwrap_or (mget_str (header request) "session") "".

(** Who asked for a background stop, and what they are told when it is done. *)
Inductive StopDone :=
| AnswerClose (complete : nat)
| AnswerDelete (reply : nat) (request : Message).

Record BackgroundStop := MkStop { st_task : nat; st_interrupt : bool; st_sent : bool; st_done : StopDone }.

Inductive SessionCommand :=
| Open (client_session : string) (id : option string) (complete : nat)
| Close (client_session id : string) (delete : bool) (complete : nat).

(** What a [complete] channel is sent. *)
Inductive Completion := RouteOpened (r : Result string) | RouteClosed (r : Result unit).

Inductive KPhase :=
| KLoop
| KReleasing (waiting : option (nat * nat)) (todo : list nat) (id st : string) (found : bool) (reply : nat) (request : Message)
| KStopping (waiting : option nat) (todo : list nat) (r : Result unit)
| KExit (r : Result unit).

Record Kernel (Ses : Type) := MkKernel {
  shells : gmap string nat;
  route_overrides : gmap string string;
  tasks : gmap nat (Ses * Shell);
  next_oneshot : nat;
  completed : list (nat * Completion);
  stops : list BackgroundStop;
  shell_queue : list Inbound;
  control_queue : list Inbound;
  commands : list SessionCommand;
  kphase : KPhase;
}.

Arguments MkKernel {Ses}.
Arguments shells {Ses}. Arguments route_overrides {Ses}. Arguments tasks {Ses}. Arguments next_oneshot {Ses}.
Arguments completed {Ses}. Arguments stops {Ses}. Arguments shell_queue {Ses}. Arguments control_queue {Ses}.
Arguments commands {Ses}. Arguments kphase {Ses}.

(** ** The kernel's monad: the kernel's state over the engine's effects *)

Section Monad.
Context {Ses : Type}.

Definition K (A : Type) : Type := Kernel Ses → World → Result A * Kernel Ses * World.

#[global] Instance K_ret : MRet K := λ A a k w, (Ok a, k, w).
#[global] Instance K_bind : MBind K := λ A B f m k w,
  match m k w with (Ok a, k', w') => f a k' w' | (Err e, k', w') => (Err e, k', w') end.

Definition io {A} (m : M A) : K A := λ k w, let '(r, w') := m w in (r, k, w').
Definition kthrow {A} (e : Error) : K A := io (throw e).
Definition kget {A} (f : Kernel Ses → A) : K A := λ k w, (Ok (f k), k, w).
Definition kmodify (f : Kernel Ses → Kernel Ses) : K unit := λ k w, (Ok tt, f k, w).
(** [match f().await { Ok(..) => .., Err(..) => .. }]: the result as a value. *)
Definition kcatch {A} (m : K A) : K (Result A) := λ k w, let '(r, k', w') := m k w in (Ok r, k', w').

Fixpoint kfor_each {A} (f : A → K unit) (l : list A) : K unit :=
  match l with [] => mret tt | a :: l' => f a ;;; kfor_each f l' end.

(** Field updates. *)
Definition with_shells (f : gmap string nat → gmap string nat) (k : Kernel Ses) : Kernel Ses :=
  MkKernel (f (shells k)) (route_overrides k) (tasks k) (next_oneshot k) (completed k) (stops k) (shell_queue k) (control_queue k) (commands k) (kphase k).
Definition with_routes (f : gmap string string → gmap string string) (k : Kernel Ses) : Kernel Ses :=
  MkKernel (shells k) (f (route_overrides k)) (tasks k) (next_oneshot k) (completed k) (stops k) (shell_queue k) (control_queue k) (commands k) (kphase k).
Definition with_tasks (f : gmap nat (Ses * Shell) → gmap nat (Ses * Shell)) (k : Kernel Ses) : Kernel Ses :=
  MkKernel (shells k) (route_overrides k) (f (tasks k)) (next_oneshot k) (completed k) (stops k) (shell_queue k) (control_queue k) (commands k) (kphase k).
Definition with_oneshot (n : nat) (k : Kernel Ses) : Kernel Ses :=
  MkKernel (shells k) (route_overrides k) (tasks k) n (completed k) (stops k) (shell_queue k) (control_queue k) (commands k) (kphase k).
Definition with_completed (c : nat * Completion) (k : Kernel Ses) : Kernel Ses :=
  MkKernel (shells k) (route_overrides k) (tasks k) (next_oneshot k) (completed k ++ [c]) (stops k) (shell_queue k) (control_queue k) (commands k) (kphase k).
Definition with_stops (f : list BackgroundStop → list BackgroundStop) (k : Kernel Ses) : Kernel Ses :=
  MkKernel (shells k) (route_overrides k) (tasks k) (next_oneshot k) (completed k) (f (stops k)) (shell_queue k) (control_queue k) (commands k) (kphase k).
Definition with_shell_queue (q : list Inbound) (k : Kernel Ses) : Kernel Ses :=
  MkKernel (shells k) (route_overrides k) (tasks k) (next_oneshot k) (completed k) (stops k) q (control_queue k) (commands k) (kphase k).
Definition with_control_queue (q : list Inbound) (k : Kernel Ses) : Kernel Ses :=
  MkKernel (shells k) (route_overrides k) (tasks k) (next_oneshot k) (completed k) (stops k) (shell_queue k) q (commands k) (kphase k).
Definition with_commands (q : list SessionCommand) (k : Kernel Ses) : Kernel Ses :=
  MkKernel (shells k) (route_overrides k) (tasks k) (next_oneshot k) (completed k) (stops k) (shell_queue k) (control_queue k) q (kphase k).
Definition with_kphase (p : KPhase) (k : Kernel Ses) : Kernel Ses :=
  MkKernel (shells k) (route_overrides k) (tasks k) (next_oneshot k) (completed k) (stops k) (shell_queue k) (control_queue k) (commands k) p.

(** [task_shell k t]: the state of task [t]; [live k t]: it still runs, so its
    channels are open. *)
Definition task_shell (k : Kernel Ses) (t : nat) : option Shell := snd <$> tasks k !! t.
Definition live (k : Kernel Ses) (t : nat) : bool := match task_shell k t with Some s => running s | None => false end.

Definition update_shell (t : nat) (f : Shell → Shell) (k : Kernel Ses) : Kernel Ses :=
  with_tasks (alter (λ p, (p.1, f p.2)) t) k.

(** [incoming.send(inbound)] and [controls.send(control)]: [false] if the task has ended. *)
Definition send_inbound (t : nat) (inb : Inbound) : K bool :=
  ok ← kget (λ k, live k t);
  if ok : bool then kmodify (update_shell t (λ s, set_incoming s (incoming s ++ [inb]))) ;;; mret true else mret false.

Definition send_control (t : nat) (c : ShellControl) : K bool :=
  ok ← kget (λ k, live k t);
  if ok : bool then kmodify (update_shell t (λ s, set_controls s (controls s ++ [c]))) ;;; mret true else mret false.

(** [controls.send(control).await?]. *)
Definition send_control_or_fail (t : nat) (c : ShellControl) : K unit :=
  ok ← send_control t c; if ok : bool then mret tt else kthrow from_send_error.

(** [shells.values()] and [shells.keys()]; a [HashMap] lists them in no fixed order. *)
Definition shell_tasks (k : Kernel Ses) : list nat := (map_to_list (shells k)).*2.
Definition shell_ids (k : Kernel Ses) : list string := (map_to_list (shells k)).*1.

(** [spawn_shell]: a new task in its initial state. *)
Definition spawn_shell (session : Ses) : K nat :=
  t ← kget (λ k, fresh (dom (tasks k)));
  kmodify (with_tasks (<[t := (session, shell_init)]>)) ;;; mret t.

Definition stop_in_background (t : nat) (interrupt : bool) (done : StopDone) : K unit :=
  kmodify (with_stops (λ l, l ++ [MkStop t interrupt false done])).

(** [route_overrides.retain(|_, routed| routed != &id)]. *)
Definition drop_routes (id : string) (k : Kernel Ses) : Kernel Ses :=
  with_routes (filter (λ kv, kv.2 ≠ id)) k.

Definition interrupt_shells : K unit :=
  ts ← kget shell_tasks; kfor_each (λ t, send_control_or_fail t Interrupt) ts.
End Monad.

Section Kernel.
Context `{WireExt} {Ses : Type} `{LanguageSession Ses} {L : Type} `{Language L Ses} (ks : KernelServices) (language : L).

#[local] Notation KS := (@K Ses).

(** ** Routing *)

Definition reply_subshell_error (inb : Inbound) (en ev : string) : M unit :=
  let request := in_message inb in
  if negb (ends_with "_request" (msg_type request)) then mret tt
  else reply_error ks request (in_reply inb) (error_content request 0 en ev).

Definition unknown_subshell (id : string) : string := "Unknown subshell_id " +:+ debug_str id.

Definition reply_subshell_not_found (inb : Inbound) : M unit :=
  reply_subshell_error inb "SubshellNotFound" (unknown_subshell (subshell_id (in_message inb))).

Definition create_subshell (requested_id : option string) : KS string :=
  id ← match requested_id with Some id => mret id | None => n ← io next_tick; mret (uuid_v4 n) end;
  if decide (id = "") then kthrow (error_new InvalidInput "subshell_id cannot be empty")
  else if negb (supports_children language) then kthrow (error_new Unavailable "subshells are not supported")
  else
    exists_ ← kget (λ k, bool_decide (is_Some (shells k !! id)));
    if exists_ : bool then mret id
    else
      child ← io (r ← call (create_child language); lift r);
      t ← spawn_shell child;
      kmodify (with_shells (<[id := t]>)) ;;;
      mret id.

(** The shell a request is for: the one its header names; for an execute request
    without one, the route of its client session; otherwise the parent. *)
Definition target_id (inb : Inbound) (routes : gmap string string) : string :=
  let explicit := subshell_id (in_message inb) in
  if negb (bool_decide (explicit = "")) then explicit
  else if is_execute inb then unwrap_or (routes !! client_session_of (in_message inb)) ""
  else "".

(** The end of [route_shell]. *)
Definition deliver (id : string) (inb : Inbound) : KS unit :=
  target ← kget (λ k, shells k !! id);
  match target with
  | Some t => sent ← send_inbound t inb; if sent : bool then mret tt else io (reply_subshell_not_found inb)
  | None => io (reply_subshell_not_found inb)
  end.

Definition route_shell (inb : Inbound) : KS unit :=
  id ← kget (λ k, target_id inb (route_overrides k));
  known ← kget (λ k, bool_decide (is_Some (shells k !! id)));
  if negb (bool_decide (subshell_id (in_message inb) = "")) && negb known then
    created ← kcatch (create_subshell (Some id));
    match created with
    | Err error => io (reply_subshell_error inb "SubshellCreationError" (to_string error))
    | Ok _ => deliver id inb
    end
  else deliver id inb.

(** [while let Ok(inbound) = shell.try_recv()]: each round takes one request out
    of the channel, so its length is enough fuel. *)
Fixpoint route_pending (fuel : nat) : KS unit :=
  match fuel with
  | 0 => mret tt
  | S f =>
      q ← kget shell_queue;
      match q with
      | [] => mret tt
      | i :: q' => kmodify (with_shell_queue q') ;;; route_shell i ;;; route_pending f
      end
  end.

Definition route_pending_shells : KS unit := n ← kget (λ k, length (shell_queue k)); route_pending n.

(** ** Session commands *)

Definition session_command (c : SessionCommand) : KS unit :=
  match c with
  | Open client id complete =>
      routed ← kget (λ k, bool_decide (is_Some (route_overrides k !! client)));
      result ← (if routed : bool
        then mret (Err (error_new InvalidInput "this client session already has a subshell route"))
        else
          created ← kcatch (create_subshell id);
          match created with
          | Ok id => kmodify (with_routes (<[client := id]>)) ;;; mret (Ok id)
          | Err e => mret (Err e)
          end);
      kmodify (with_completed (complete, RouteOpened result))
  | Close client id delete_it complete =>
      active ← kget (λ k, bool_decide (route_overrides k !! client = Some id));
      if negb active then
        kmodify (with_completed (complete, RouteClosed (Err (error_new InvalidInput "subshell route is not active"))))
      else
        kmodify (with_routes (delete client)) ;;;
        target ← kget (λ k, if delete_it then shells k !! id else None);
        match target with
        | Some t => kmodify (with_shells (delete id)) ;;; stop_in_background t false (AnswerClose complete)
        | None => kmodify (with_completed (complete, RouteClosed (Ok tt)))
        end
  end.

(** ** Control requests *)

Definition subshell_error_content (en ev : string) : Value :=
  Obj [("status", Str "error"); ("ename", Str en); ("evalue", Str ev); ("traceback", Arr [])].

(** The content of the debug reply and its events, from the parent session. *)
Definition debug_result (request : Message) : M Value :=
  r ← call (λ n, lang_debug (parent language) n (content request));
  mret (match r with
        | Ok v => v
        | Err error =>
            Obj [("response", Obj [("type", Str "response"); ("request_seq", value_index (content request) "seq");
                                   ("command", value_index (content request) "command"); ("success", Bool false);
                                   ("message", Str (to_string error))])]
        end).

Definition debug_control (request : Message) (reply : nat) : M unit :=
  status ks request "busy" ;;;
  result ← debug_result request;
  send_reply ks reply request "debug_reply" (unwrap_or (value_get result "response") (Obj [])) ;;;
  match value_get result "events" ≫= as_array with
  | Some events => for_each (λ event, send_iopub ks request "debug_event" event) events
  | None => mret tt
  end ;;;
  status ks request "idle".

(** One control request; [true] ends the loop ([return Ok(())]). *)
Definition handle_control (inb : Inbound) : KS bool :=
  let request := in_message inb in
  let reply := in_reply inb in
  let mt := msg_type request in
  if decide (mt = "shutdown_request") then
    io (send_reply ks reply request "shutdown_reply"
      (Obj [("status", Str "ok"); ("restart", Bool (unwrap_or (get_bool (content request) "restart") false))])) ;;;
    mret true
  else if decide (mt = "interrupt_request") then
    route_pending_shells ;;;
    interrupt_shells ;;;
    io (send_reply ks reply request "interrupt_reply" (Obj [("status", Str "ok")])) ;;;
    mret false
  else if decide (mt = "create_subshell_request") then
    if negb (supports_children language) then
      io (send_reply ks reply request "create_subshell_reply"
        (subshell_error_content "SubshellsNotSupported" "kernel subshells are not supported")) ;;;
      mret false
    else
      created ← kcatch (create_subshell (get_str (content request) "subshell_id"));
      io (send_reply ks reply request "create_subshell_reply"
        (match created with
         | Ok id => Obj [("status", Str "ok"); ("subshell_id", Str id)]
         | Err error => subshell_error_content "SubshellCreationError" (to_string error)
         end)) ;;;
      mret false
  else if decide (mt = "list_subshell_request") then
    ids ← kget (λ k, filter (λ id, id ≠ "") (shell_ids k));
    io (send_reply ks reply request "list_subshell_reply"
      (Obj [("status", Str "ok"); ("subshell_id", Arr (map Str ids))])) ;;;
    mret false
  else if decide (mt = "delete_subshell_request") then
    let id := unwrap_or (get_str (content request) "subshell_id") "" in
    target ← kget (λ k, shells k !! id);
    match target with
    | Some t =>
        kmodify (with_shells (delete id)) ;;;
        kmodify (drop_routes id) ;;;
        stop_in_background t true (AnswerDelete reply request)
    | None => io (send_reply ks reply request "delete_subshell_reply"
        (subshell_error_content "SubshellNotFound" (unknown_subshell id)))
    end ;;;
    mret false
  else if decide (mt = "release_request") then
    route_pending_shells ;;;
    let id := unwrap_or (get_str (content request) "msg_id") "" in
    let st := unwrap_or (get_str (content request) "status") "ok" in
    ts ← kget shell_tasks;
    kmodify (with_kphase (KReleasing None ts id st false reply request)) ;;;
    mret false
  else if decide (mt = "debug_request") then io (debug_control request reply) ;;; mret false
  else if ends_with "_request" mt then
    io (send_reply ks reply request (reply_type mt) (Obj [("status", Str "ok")])) ;;; mret false
  else mret false.

(** ** The loop *)

(** The branch of [select!] that completes.  [KService] is the end of one of the
    transport tasks, with its result. *)
Inductive KChoice :=
| KService (r : Result unit)
| KFailed
| KShellEnded (id : string)
| KTerminate
| KInterrupted
| KShellMessage
| KCommand
| KControl
| KChannelClosed (what : string).

(** The result of a task that has ended. *)
Definition task_result (k : Kernel Ses) (t : nat) : option (Result unit) :=
  task_shell k t ≫= λ s, match phase s with PDone r => Some r | _ => None end.

Definition ended_shell (k : Kernel Ses) (id : string) : option (Result unit) := shells k !! id ≫= task_result k.

Definition kready (k : Kernel Ses) (w : World) (c : KChoice) : bool :=
  match c with
  | KFailed => negb (bool_decide (length (failures w) = 0))
  | KShellEnded id => bool_decide (is_Some (ended_shell k id))
  | KShellMessage => negb (bool_decide (length (shell_queue k) = 0))
  | KCommand => negb (bool_decide (length (commands k) = 0))
  | KControl => negb (bool_decide (length (control_queue k) = 0))
  | _ => true
  end.

Definition run_loop (c : KChoice) : KS bool :=
  match c with
  | KService r => io (lift r) ;;; kthrow (error_closed "kernel service")
  | KFailed => fs ← io (gets failures); match fs with e :: _ => kthrow e | [] => mret false end
  | KShellEnded id =>
      ended ← kget (λ k, ended_shell k id);
      match ended with
      | Some r =>
          kmodify (with_shells (delete id)) ;;;
          io (lift r) ;;;
          if decide (id = "") then mret true else kmodify (drop_routes id) ;;; mret false
      | None => mret false
      end
  | KTerminate => mret true
  | KInterrupted => interrupt_shells ;;; mret false
  | KShellMessage =>
      q ← kget shell_queue;
      match q with i :: q' => kmodify (with_shell_queue q') ;;; route_shell i ;;; mret false | [] => mret false end
  | KCommand =>
      q ← kget commands;
      match q with c :: q' => kmodify (with_commands q') ;;; session_command c ;;; mret false | [] => mret false end
  | KControl =>
      q ← kget control_queue;
      match q with i :: q' => kmodify (with_control_queue q') ;;; handle_control i | [] => mret false end
  | KChannelClosed what => kthrow (error_closed what)
  end.

(** The [for] loop of a release, one shell after the other: send, then wait for
    the shell's answer. *)
Definition release_step (waiting : option (nat * nat)) (todo : list nat) (id st : string) (found : bool)
    (reply : nat) (request : Message) : KS unit :=
  match waiting, todo with
  | None, [] =>
      io (send_reply ks reply request "release_reply" (Obj [("status", Str "ok"); ("found", Bool found)])) ;;;
      kmodify (with_kphase KLoop)
  | None, t :: todo' =>
      n ← kget next_oneshot;
      kmodify (with_oneshot (n + 1)) ;;;
      send_control_or_fail t (Release id st n) ;;;
      kmodify (with_kphase (KReleasing (Some (t, n)) todo' id st found reply request))
  | Some (t, n), _ =>
      answer ← kget (λ k, task_shell k t ≫= λ s, snd <$> List.find (λ a, bool_decide (a.1 = n)) (released s));
      match answer with
      | Some b => kmodify (with_kphase (KReleasing None todo id st (found || b) reply request))
      | None =>
          alive ← kget (λ k, live k t);
          if alive : bool then mret tt else kthrow (from_recv_error "channel closed")
      end
  end.

(** [stop_shell] up to its wait for the task, whose result is [task_result]; the
    results of the sends are dropped. *)
Definition stop_shell (t : nat) (interrupt : bool) : KS unit :=
  (if interrupt then send_control t Interrupt ;;; mret tt else mret tt) ;;; send_control t Stop ;;; mret tt.

(** [stop_shell(shell, true)] on every shell, keeping the first error. *)
Definition shutdown_step (waiting : option nat) (todo : list nat) (r : Result unit) : KS unit :=
  match waiting, todo with
  | None, [] => kmodify (with_kphase (KExit r))
  | None, t :: todo' =>
      stop_shell t true ;;; kmodify (with_kphase (KStopping (Some t) todo' r))
  | Some t, _ =>
      ended ← kget (λ k, task_result k t);
      match ended with
      | Some (Err e) =>
          (if is_ok r then kmodify (with_kphase (KStopping None todo (Err e)))
           else io (emit (Stderr ("kernel shutdown failed: " +:+ to_string e))) ;;; kmodify (with_kphase (KStopping None todo r)))
      | Some (Ok _) => kmodify (with_kphase (KStopping None todo r))
      | None => mret tt
      end
  end.

(** Leaving the loop: [shells.drain()]. *)
Definition leave_loop (r : Result unit) (k : Kernel Ses) : Kernel Ses :=
  with_kphase (KStopping None (shell_tasks k) r) (with_shells (λ _, ∅) k).

Definition kernel_step (c : KChoice) (k : Kernel Ses) (w : World) : Kernel Ses * World :=
  match kphase k with
  | KLoop =>
      match run_loop c k w with
      | (Ok false, k', w') => (k', w')
      | (Ok true, k', w') => (leave_loop (Ok tt) k', w')
      | (Err e, k', w') => (leave_loop (Err e) k', w')
      end
  | KReleasing waiting todo id st found reply request =>
      match release_step waiting todo id st found reply request k w with
      | (Ok _, k', w') => (k', w')
      | (Err e, k', w') => (leave_loop (Err e) k', w')
      end
  | KStopping waiting todo r => let '(_, k', w') := shutdown_step waiting todo r k w in (k', w')
  | KExit _ => (k, w)
  end.

(** [stop_in_background]'s task: send the controls, wait for the shell, tell
    whoever asked. *)
Definition stop_step (st : BackgroundStop) : KS (option BackgroundStop) :=
  if negb (st_sent st) then
    stop_shell (st_task st) (st_interrupt st) ;;;
    mret (Some (MkStop (st_task st) (st_interrupt st) true (st_done st)))
  else
    ended ← kget (λ k, task_result k (st_task st));
    match ended with
    | None => mret (Some st)
    | Some (Err e) => io (report_to_kernel e) ;;; mret None
    | Some (Ok _) =>
        r ← kcatch (match st_done st with
                    | AnswerClose complete => kmodify (with_completed (complete, RouteClosed (Ok tt)))
                    | AnswerDelete reply request =>
                        io (send_reply ks reply request "delete_subshell_reply" (Obj [("status", Str "ok")]))
                    end);
        match r with Ok _ => mret None | Err e => io (report_to_kernel e) ;;; mret None end
    end.

(** The state the loop starts in: the parent's shell, named by the empty id. *)
Definition kernel_init : Kernel Ses :=
  MkKernel {["" := 0]} ∅ {[0 := (parent language, shell_init)]} 0 [] [] [] [] [] KLoop.
End Kernel.
