(* ===== verification/System.v ===== *)
(** * The kernel as a system (src/src/engine.rs)

    The main loop, its shell tasks and its background stops, interleaved.  Every
    shell task in the system is a run of the shell of [Shell]: what was proved
    of a shell on its own holds of each shell of the kernel. *)

From Stdlib Require Import ZArith.
From stdpp Require Import base gmap sets list strings.
From S2P Require Import Prelude Json Errors Wire Language Services Queue Requests Shell Kernel.

(** ** Moves *)

(** The moves a shell task makes on its own. *)
Definition internal (l : Label) : bool := match l with LProgress | LOutput _ | LPanic _ | LStep _ => true | _ => false end.

Section System.
Context `{WireExt} {Ses : Type} `{LanguageSession Ses} {L : Type} `{Language L Ses} (ks : KernelServices) (language : L).

Definition replace_stop (i : nat) (st : option BackgroundStop) (l : list BackgroundStop) : list BackgroundStop :=
  match st with Some st => <[i := st]> l | None => delete i l end.

Inductive ksys_step : Kernel Ses * World → Kernel Ses * World → Prop :=
| k_shell_message k w i : ksys_step (k, w) (with_shell_queue (shell_queue k ++ [i]) k, w)
| k_control_message k w i : ksys_step (k, w) (with_control_queue (control_queue k ++ [i]) k, w)
| k_command k w c : ksys_step (k, w) (with_commands (commands k ++ [c]) k, w)
| k_world k w w' : (now w ≤ now w')%Z → trace w' = trace w → ksys_step (k, w) (k, w')
| k_loop k w c : (kphase k = KLoop → kready k w c = true) → ksys_step (k, w) (kernel_step ks language c k w)
| k_stop k w i st r k' w' :
    stops k !! i = Some st → stop_step ks st k w = (Ok r, k', w') →
    ksys_step (k, w) (with_stops (replace_stop i r) k', w')
| k_task k w t ses s l s' w' :
    tasks k !! t = Some (ses, s) → internal l = true → sys_step ks ses l (s, w) (s', w') →
    ksys_step (k, w) (with_tasks (<[t := (ses, s')]>) k, w').

Inductive reachable (w0 : World) : Kernel Ses * World → Prop :=
| reach_init : reachable w0 (kernel_init language, w0)
| reach_step c c' : reachable w0 c → ksys_step c c' → reachable w0 c'.
End System.

(** ** What operations do to the world: they add outputs *)

Definition later (w w' : World) : Prop := (∃ outs, trace w' = trace w ++ outs) ∧ (now w ≤ now w')%Z.

Definition appends {A} (m : M A) : Prop := ∀ w, later w (m w).2.

Lemma later_refl w : later w w.
Proof. split; [exists []; by rewrite app_nil_r | lia]. Qed.

Lemma later_trans w1 w2 w3 : later w1 w2 → later w2 w3 → later w1 w3.
Proof. intros [[o1 E1] ?] [[o2 E2] ?]. split; [exists (o1 ++ o2); by rewrite E2, E1, app_assoc | lia]. Qed.

Lemma appends_bind {A B} (m : M A) (f : A → M B) : appends m → (∀ a, appends (f a)) → appends (m ≫= f).
Proof.
  intros Hm Hf w. specialize (Hm w). unfold mbind, M_bind. destruct (m w) as [[a|e] w1]; [|done].
  eapply later_trans; [exact Hm | apply Hf].
Qed.

Lemma appends_lift {A} (r : Result A) : appends (lift r).
Proof. intros w. apply later_refl. Qed.

Lemma appends_ret {A} (a : A) : appends (mret a).
Proof. intros w. apply later_refl. Qed.

Lemma appends_catch {A} (m : M A) : appends m → appends (catch m).
Proof. intros Hm w. specialize (Hm w). unfold catch. by destruct (m w). Qed.

Lemma appends_gets {A} (f : World → A) : appends (gets f).
Proof. intros w. apply later_refl. Qed.

Lemma appends_next_tick : appends next_tick.
Proof. intros w. split; [exists []; by rewrite app_nil_r | simpl; lia]. Qed.

Lemma appends_emit o : appends (emit o).
Proof. intros w. split; [by exists [o] | simpl; lia]. Qed.

Lemma appends_report e : appends (report_to_kernel e).
Proof. intros w. split; [exists []; by rewrite app_nil_r | simpl; lia]. Qed.

Lemma appends_when b m : appends m → appends (when b m).
Proof. destruct b; [done|]. intros _. apply appends_ret. Qed.

Lemma appends_for_each {A} (f : A → M unit) l : (∀ a, appends (f a)) → appends (for_each f l).
Proof. intros Hf. induction l as [|a l IH]; simpl; [apply appends_ret | by apply appends_bind]. Qed.

Lemma appends_throw {A} e : appends (@throw A e).
Proof. apply appends_lift. Qed.

Lemma appends_call {A} (f : nat → A) : appends (call f).
Proof. apply appends_bind; [apply appends_next_tick | intros; apply appends_ret]. Qed.

#[export] Hint Resolve appends_bind appends_lift appends_ret appends_catch appends_gets appends_next_tick appends_emit
  appends_report appends_when appends_for_each appends_throw appends_call : kern.

Section Appends.
Context `{WireExt} (ks : KernelServices).

Lemma appends_send_iopub p mt c : appends (send_iopub ks p mt c).
Proof. unfold send_iopub, new_message, publish, encode_message. auto 10 with kern. Qed.

Lemma appends_send_reply sink req mt c : appends (send_reply ks sink req mt c).
Proof.
  unfold send_reply, encode_message, sink_send. apply appends_bind; [auto with kern|intros n].
  apply appends_bind; [auto with kern|intros _]. apply appends_bind; [auto 10 with kern|intros [|]]; auto with kern.
Qed.

Lemma appends_status p st : appends (status ks p st).
Proof. apply appends_send_iopub. Qed.
#[local] Hint Resolve appends_send_iopub appends_send_reply appends_status : kern.

Lemma appends_reply_error req sink c : appends (reply_error ks req sink c).
Proof. unfold reply_error. auto 10 with kern. Qed.

Lemma appends_reply_subshell_error inb en ev : appends (reply_subshell_error ks inb en ev).
Proof. unfold reply_subshell_error. case_match; auto using appends_reply_error with kern. Qed.
End Appends.

#[export] Hint Resolve appends_send_iopub appends_send_reply appends_status appends_reply_error
  appends_reply_subshell_error : kern.

(** Decomposes an operation into its parts. *)
Ltac appends := repeat first
  [ solve [auto with kern nocore]
  | match goal with
    | |- appends (mbind _ _) => apply appends_bind; [|intros ?]
    | |- appends (catch _) => apply appends_catch
    | |- appends (when _ _) => apply appends_when
    | |- appends (for_each _ _) => apply appends_for_each; intros ?
    | |- appends (match ?x with _ => _ end) => destruct x
    end ].

Lemma appends_pending_insert id i : appends (pending_insert id i).
Proof. intros w. split; [exists []; by rewrite app_nil_r | simpl; lia]. Qed.

Lemma appends_pending_remove id : appends (pending_remove id).
Proof. intros w. split; [exists []; by rewrite app_nil_r | simpl; lia]. Qed.
#[export] Hint Resolve appends_pending_insert appends_pending_remove : kern.

Section ShellAppends.
Context `{WireExt} `{LanguageSession Lang} (ks : KernelServices) (lang : Lang).

Lemma appends_pump_task req silent stdin batches : appends (pump_task ks req silent stdin batches).
Proof.
  assert (∀ fuel batch, appends (pump_batch ks fuel req silent stdin batch)) as Hb.
  { induction fuel as [|f IH]; intros batch; simpl; [auto with kern|]. destruct batch as [|m rest]; [auto with kern|].
    destruct (absorb m rest) as [m' rest']. apply appends_bind; [|auto].
    unfold handle_context_message, publish_event, stdin_request, new_message, publish, encode_message. appends. }
  unfold pump_task, pump. appends; auto.
Qed.
#[local] Hint Resolve appends_pump_task : kern.

Lemma appends_pump_and_flush req silent stdin batches : appends (pump_and_flush ks req silent stdin batches).
Proof. unfold pump_and_flush. appends. Qed.
#[local] Hint Resolve appends_pump_and_flush : kern.

Lemma appends_execute identity req ex n : appends (execute ks lang identity req ex n).
Proof. unfold execute, conclude. appends. Qed.

Lemma appends_report_failure req reply e n : appends (report_failure ks req reply e n).
Proof. unfold report_failure. cbv zeta. appends. Qed.
#[local] Hint Resolve appends_execute appends_report_failure : kern.

Lemma appends_handle_shell inb n : appends (handle_shell ks lang inb n).
Proof. unfold handle_shell, service_content, reply_missing. cbv zeta. appends. Qed.
#[local] Hint Resolve appends_handle_shell : kern.

Lemma appends_abort_pending s : appends (abort_pending ks s).
Proof.
  unfold abort_pending. cbv zeta. apply appends_bind; [|auto with kern].
  generalize (@nil QueueItem). induction (drain _) as [|q l IH]; intros keep; simpl; [auto with kern|].
  case_match; [|auto]. apply appends_bind; [unfold abort_execute; appends | auto].
Qed.

Lemma appends_finish_hold n item st : appends (finish_hold ks n item st).
Proof. unfold finish_hold. appends. Qed.
#[local] Hint Resolve appends_abort_pending appends_finish_hold : kern.

Lemma appends_apply_control s c : appends (apply_control ks lang s c).
Proof. destruct c; simpl; appends. Qed.

Lemma appends_execution_done s d : appends (execution_done ks s d).
Proof. unfold execution_done. cbv zeta. appends. Qed.
#[local] Hint Resolve appends_apply_control appends_execution_done : kern.

Lemma appends_spawn inb ex n : appends (spawn_execution ks lang inb ex n).
Proof.
  intros w. unfold spawn_execution. destruct (run_execution _ _ _ _ _ _).
  split; [exists []; by rewrite app_nil_r | simpl; lia].
Qed.
#[local] Hint Resolve appends_spawn : kern.

Lemma appends_handle_item s item : appends (handle_item ks lang s item).
Proof. unfold handle_item, handle_other, interrupt_execute, reply_missing, begin_hold. cbv zeta. appends. Qed.
#[local] Hint Resolve appends_handle_item : kern.

Lemma appends_shell_step c s : appends (shell_step ks lang c s).
Proof. unfold shell_step, reap, select_step, shutdown_language. cbv zeta. appends. Qed.

Lemma sys_step_later l s w s' w' : sys_step ks lang l (s, w) (s', w') → later w w'.
Proof.
  intros Hs. inversion Hs; subst; auto using later_refl.
  - split; [by eexists | simpl; lia].
  - split; [by eexists | simpl; lia].
  - split; [by eexists | done].
  - pose proof (appends_shell_step c s w) as Ha. match goal with E : shell_step _ _ _ _ _ = _ |- _ => by rewrite E in Ha end.
  - pose proof (appends_shell_step c s w) as Ha. match goal with E : shell_step _ _ _ _ _ = _ |- _ => by rewrite E in Ha end.
Qed.
End ShellAppends.

(** ** What operations do to the tasks: they feed the channels of running tasks
    and start new ones *)

Definition fed (s : Shell) (arr : list Inbound) (ctl : list ShellControl) : Shell :=
  set_controls (set_incoming s (incoming s ++ arr)) (controls s ++ ctl).

Lemma fed_nil s : fed s [] [] = s.
Proof. unfold fed. destruct s. simpl. by rewrite !app_nil_r. Qed.

Lemma fed_fed s a c a' c' : fed (fed s a c) a' c' = fed s (a ++ a') (c ++ c').
Proof. unfold fed. simpl. by rewrite !app_assoc. Qed.

Definition feeds (s s' : Shell) : Prop :=
  ∃ arr ctl, s' = fed s arr ctl ∧ (running s = true ∨ (arr = [] ∧ ctl = [])).

Lemma feeds_refl s : feeds s s.
Proof. exists [], []. by rewrite fed_nil; auto. Qed.

Lemma feeds_trans s1 s2 s3 : feeds s1 s2 → feeds s2 s3 → feeds s1 s3.
Proof.
  intros (a & c & -> & H1) (a' & c' & -> & H2). exists (a ++ a'), (c ++ c'). rewrite fed_fed. split; [done|].
  destruct H1 as [?|[-> ->]]; [auto|]. destruct H2 as [H2|[-> ->]]; auto.
Qed.

Definition task_grows {Ses} (o o' : option (Ses * Shell)) : Prop :=
  match o, o' with
  | Some (ses, s), Some (ses', s') => ses' = ses ∧ feeds s s'
  | None, Some (_, s') => feeds shell_init s'
  | None, None => True
  | Some _, None => False
  end.

Lemma task_grows_refl {Ses} (o : option (Ses * Shell)) : task_grows o o.
Proof. destruct o as [[]|]; simpl; auto using feeds_refl. Qed.

Lemma task_grows_trans {Ses} (o1 o2 o3 : option (Ses * Shell)) : task_grows o1 o2 → task_grows o2 o3 → task_grows o1 o3.
Proof.
  destruct o1 as [[]|], o2 as [[]|], o3 as [[]|]; simpl; try done.
  - intros [-> ?] [-> ?]. eauto using feeds_trans.
  - intros ? [-> ?]. eauto using feeds_trans.
Qed.

Definition kgrows {Ses} (k k' : Kernel Ses) : Prop := ∀ t, task_grows (tasks k !! t) (tasks k' !! t).

(** [grows m]: [m] feeds channels and starts tasks, and adds outputs. *)
Definition grows {Ses A} (m : @K Ses A) : Prop :=
  ∀ k w, let '(_, k', w') := m k w in kgrows k k' ∧ later w w'.

Section Grows.
Context {Ses : Type}.
#[local] Notation KS := (@K Ses).

Lemma kgrows_refl (k : Kernel Ses) : kgrows k k.
Proof. intros t. apply task_grows_refl. Qed.

Lemma grows_bind {A B} (m : KS A) (f : A → KS B) : grows m → (∀ a, grows (f a)) → grows (m ≫= f).
Proof.
  intros Hm Hf k w. specialize (Hm k w). unfold mbind, K_bind. destruct (m k w) as [[[a|e] k1] w1]; [|done].
  specialize (Hf a k1 w1). destruct (f a k1 w1) as [[r k2] w2]. destruct Hm as [H1 H2], Hf as [H3 H4].
  split; [|by eapply later_trans]. intros t. by eapply task_grows_trans.
Qed.

Lemma grows_ret {A} (a : A) : grows (mret a : KS A).
Proof. intros k w. split; [apply kgrows_refl | apply later_refl]. Qed.

Lemma grows_io {A} (m : M A) : appends m → grows (io m : KS A).
Proof. intros Hm k w. specialize (Hm w). unfold io. destruct (m w). split; [apply kgrows_refl | done]. Qed.

Lemma grows_kthrow {A} e : grows (kthrow e : KS A).
Proof. apply grows_io, appends_throw. Qed.

Lemma grows_kget {A} (f : Kernel Ses → A) : grows (kget f).
Proof. intros k w. split; [apply kgrows_refl | apply later_refl]. Qed.

Lemma grows_kcatch {A} (m : KS A) : grows m → grows (kcatch m).
Proof. intros Hm k w. specialize (Hm k w). unfold kcatch. by destruct (m k w) as [[] ?]. Qed.

(** An update that leaves the tasks alone. *)
Lemma grows_kmodify (f : Kernel Ses → Kernel Ses) : (∀ k, tasks (f k) = tasks k) → grows (kmodify f).
Proof. intros Hf k w. split; [|apply later_refl]. intros t. rewrite Hf. apply task_grows_refl. Qed.

Lemma grows_kfor_each {A} (f : A → KS unit) l : (∀ a, grows (f a)) → grows (kfor_each f l).
Proof. intros Hf. induction l as [|a l IH]; simpl; [apply grows_ret | by apply grows_bind]. Qed.

Lemma update_shell_grows t f (k : Kernel Ses) :
  (∀ s, task_shell k t = Some s → feeds s (f s)) → kgrows k (update_shell t f k).
Proof.
  intros Hf t'. unfold update_shell. simpl. destruct (decide (t' = t)) as [->|Hne].
  - rewrite lookup_alter_eq. unfold task_shell in Hf. destruct (tasks k !! t) as [[ses s]|]; simpl; auto.
  - rewrite lookup_alter_ne by done. apply task_grows_refl.
Qed.

Lemma grows_send_inbound t inb : grows (send_inbound t inb : KS bool).
Proof.
  intros k w. unfold send_inbound. cbv [mbind K_bind kget]. destruct (live k t) eqn:Hl; simpl; [|split; [apply kgrows_refl | apply later_refl]].
  split; [|apply later_refl]. apply update_shell_grows. intros s Hs. unfold live in Hl. rewrite Hs in Hl.
  exists [inb], []. split; [|auto]. unfold fed. destruct s. simpl. by rewrite app_nil_r.
Qed.

Lemma grows_send_control t c : grows (send_control t c : KS bool).
Proof.
  intros k w. unfold send_control. cbv [mbind K_bind kget]. destruct (live k t) eqn:Hl; simpl; [|split; [apply kgrows_refl | apply later_refl]].
  split; [|apply later_refl]. apply update_shell_grows. intros s Hs. unfold live in Hl. rewrite Hs in Hl.
  exists [], [c]. split; [|auto]. unfold fed. destruct s. simpl. by rewrite app_nil_r.
Qed.

Lemma grows_spawn_shell (session : Ses) : grows (spawn_shell session).
Proof.
  intros k w. unfold spawn_shell. cbv [mbind K_bind kget kmodify mret K_ret]. split; [|apply later_refl].
  intros t. simpl. set (t0 := fresh (dom (tasks k))). destruct (decide (t = t0)) as [->|Hne].
  - rewrite lookup_insert_eq. assert (tasks k !! t0 = None) as ->.
    { apply not_elem_of_dom. apply is_fresh. }
    apply feeds_refl.
  - rewrite lookup_insert_ne by done. apply task_grows_refl.
Qed.
End Grows.

#[export] Hint Resolve grows_bind grows_ret grows_io grows_kthrow grows_kget grows_kcatch grows_kfor_each
  grows_send_inbound grows_send_control grows_spawn_shell : kern.
#[export] Hint Extern 1 (grows (kmodify _)) => (apply grows_kmodify; intros; reflexivity) : kern.

Section Refinement.
Context `{WireExt} {Ses : Type} `{LanguageSession Ses} {L : Type} `{Language L Ses} (ks : KernelServices) (language : L).

(** Decomposes an operation of the kernel. *)
Ltac grows := repeat first
  [ solve [auto with kern nocore]
  | match goal with |- grows (mbind _ _) => apply grows_bind; [|intros ?] end
  | match goal with |- grows (io _) => apply grows_io end
  | match goal with |- grows (kcatch _) => apply grows_kcatch end
  | match goal with |- grows (match ?x with _ => _ end) => destruct x end
  | match goal with |- appends (match ?x with _ => _ end) => destruct x end
  | progress (auto 10 with kern) ].

Lemma grows_create_subshell id : grows (create_subshell language id).
Proof. unfold create_subshell. grows. Qed.

#[local] Hint Resolve grows_create_subshell : kern.

Lemma grows_deliver id inb : grows (deliver ks id inb : @K Ses unit).
Proof. unfold deliver, reply_subshell_not_found. grows. Qed.

#[local] Hint Resolve grows_deliver : kern.

Lemma grows_route_shell inb : grows (route_shell ks language inb).
Proof. unfold route_shell. grows. Qed.
#[local] Hint Resolve grows_route_shell : kern.

Lemma grows_route_pending n : grows (route_pending ks language n).
Proof. induction n; simpl; grows. Qed.

Lemma grows_interrupt_shells : grows (interrupt_shells : @K Ses unit).
Proof. unfold interrupt_shells, send_control_or_fail. grows. apply grows_kfor_each. intros t. grows. Qed.

Lemma grows_session_command c : grows (session_command language c).
Proof. destruct c; simpl; unfold stop_in_background; grows. Qed.

Lemma appends_debug_control req reply : appends (debug_control ks language req reply).
Proof. unfold debug_control, debug_result. repeat (apply appends_bind; [auto 10 with kern|intros ?]); [|auto with kern]. case_match; auto with kern. Qed.

#[local] Hint Resolve grows_route_pending grows_interrupt_shells grows_session_command appends_debug_control : kern.

Lemma grows_handle_control inb : grows (handle_control ks language inb).
Proof.
  unfold handle_control, route_pending_shells, stop_in_background. cbv zeta.
  grows.
Qed.
#[local] Hint Resolve grows_handle_control : kern.

Lemma grows_run_loop c : grows (run_loop ks language c).
Proof.
  destruct c; simpl; unfold drop_routes; grows.
Qed.

Lemma grows_release_step wt todo id st found reply req : grows (release_step ks wt todo id st found reply req : @K Ses unit).
Proof. unfold release_step, send_control_or_fail. grows. Qed.

Lemma grows_shutdown_step wt todo r : grows (shutdown_step wt todo r : @K Ses unit).
Proof. unfold shutdown_step, stop_shell. grows. Qed.

Lemma grows_stop_step st : grows (stop_step ks st : @K Ses _).
Proof. unfold stop_step, stop_shell. grows. Qed.

Lemma kernel_step_grows c k w k' w' : kernel_step ks language c k w = (k', w') → kgrows k k' ∧ later w w'.
Proof.
  unfold kernel_step. destruct (kphase k) as [|wt todo id st found reply req|wt todo r|r]; intros E.
  - pose proof (grows_run_loop c k w) as Hg. by destruct (run_loop ks language c k w) as [[[[]|e] k1] w1]; injection E as <- <-.
  - pose proof (grows_release_step wt todo id st found reply req k w) as Hg.
    by destruct (release_step _ _ _ _ _ _ _ _ k w) as [[[|e] k1] w1]; injection E as <- <-.
  - pose proof (grows_shutdown_step wt todo r k w) as Hg. by destruct (shutdown_step wt todo r k w) as [[r1 k1] w1]; injection E as <- <-.
  - injection E as <- <-. split; [apply kgrows_refl | apply later_refl].
Qed.

(** ** Every task is a run of a shell *)

Lemma run_trans lang c0 ls c l c' : run_from ks (lang : Ses) c0 ls c → sys_step ks lang l c c' → run_from ks lang c0 (ls ++ [l]) c'.
Proof. apply run_snoc. Qed.

Lemma run_feeds (ses : Ses) c0 ls s w s' w' :
  run_from ks ses c0 ls (s, w) → feeds s s' → later w w' → ∃ ls', run_from ks ses c0 ls' (s', w').
Proof.
  intros Hrun (arr & ctl & -> & Hr) [[outs Et] Hn].
  assert (∃ ls', run_from ks ses c0 ls' (s, w')) as [ls1 Hrun1] by (eexists; by eapply run_snoc, step_world).
  destruct Hr as [Hr|[-> ->]]; [|rewrite fed_nil; eauto].
  assert (∃ ls', run_from ks ses c0 ls' (fed s arr [], w')) as [ls2 Hrun2].
  { clear -Hrun1 Hr. induction arr as [|i arr IH] using rev_ind; [rewrite fed_nil; eauto|].
    destruct IH as [ls2 IH]. eexists. eapply run_snoc; [exact IH|].
    assert (fed s (arr ++ [i]) [] = set_incoming (fed s arr []) (incoming (fed s arr []) ++ [i])) as ->.
    { unfold fed. simpl. by rewrite app_assoc. }
    by apply step_arrive. }
  clear -Hrun2 Hr. induction ctl as [|c ctl IH] using rev_ind; [eauto|].
  destruct IH as [ls3 IH]. eexists. eapply run_snoc; [exact IH|].
  assert (fed s arr (ctl ++ [c]) = set_controls (fed s arr ctl) (controls (fed s arr ctl) ++ [c])) as ->.
  { unfold fed. simpl. by rewrite app_assoc. }
  by apply step_control.
Qed.

Definition tasks_run (k : Kernel Ses) (w : World) : Prop :=
  ∀ t ses s, tasks k !! t = Some (ses, s) → ∃ wt ls, run_from ks ses (shell_init, wt) ls (s, w).

Lemma tasks_run_grows k w k' w' : tasks_run k w → kgrows k k' → later w w' → tasks_run k' w'.
Proof.
  intros Hk Hg Hl t ses s' Et. specialize (Hg t). rewrite Et in Hg. destruct (tasks k !! t) as [[ses0 s]|] eqn:E0; simpl in Hg.
  - destruct Hg as [-> Hf]. destruct (Hk _ _ _ E0) as (wt & ls & Hrun).
    destruct (run_feeds _ _ _ _ _ _ _ Hrun Hf Hl) as [ls' ?]. eauto.
  - destruct (run_feeds ses (shell_init, w) [] shell_init w s' w' (run_nil _ _ _) Hg Hl) as [ls' ?]. eauto.
Qed.

Lemma tasks_run_step k w k' w' : ksys_step ks language (k, w) (k', w') → tasks_run k w → tasks_run k' w'.
Proof.
  intros Hs Hk. inversion Hs; subst; try exact Hk.
  - eapply tasks_run_grows; [exact Hk | apply kgrows_refl | split; [exists []; by rewrite app_nil_r | done]].
  - match goal with E : _ = (k', w') |- _ => apply kernel_step_grows in E as [? ?]; by eapply tasks_run_grows end.
  - match goal with E : stop_step _ _ _ _ = (_, ?k1, _) |- _ =>
      pose proof (grows_stop_step st k w) as Hg; rewrite E in Hg; destruct Hg; by apply (tasks_run_grows k w k1) end.
  - match goal with E : sys_step _ _ _ _ _ |- _ => rename E into Ht end. pose proof (sys_step_later _ _ _ _ _ _ _ Ht) as Hl.
    intros t' ses' s1 E. simpl in E. destruct (decide (t = t')) as [<-|Hne].
    + rewrite lookup_insert_eq in E. injection E as <- <-. destruct (Hk t ses s) as (wt & ls & Hrun); [done|].
      exists wt, (ls ++ [l]). by eapply run_snoc.
    + rewrite lookup_insert_ne in E by done. destruct (Hk _ _ _ E) as (wt & ls & Hrun).
      destruct (run_feeds _ _ _ _ _ _ _ Hrun (feeds_refl _) Hl) as [ls' ?]. eauto.
Qed.

Lemma reachable_tasks_run w0 k w : reachable ks language w0 (k, w) → tasks_run k w.
Proof.
  intros Hr. remember (k, w) as c eqn:Ec. revert k w Ec.
  induction Hr as [|[k1 w1] c Hr IH Hstep]; intros k w Ec; subst.
  - injection Ec as <- <-. intros t ses s E. simpl in E. apply lookup_singleton_Some in E as [_ [= <- <-]].
    exists w0, []. constructor.
  - eapply tasks_run_step; [exact Hstep | by apply IH].
Qed.

(** (refinement) every shell task of the running kernel, the parent's as
    well as the subshells', is at every moment a state of a run of the shell
    scheduler on its own session, in an environment made of the main loop, the
    other shells and the background stops.  So what is proved of all runs of a
    shell holds of every shell of the kernel. *)
Theorem kernel_tasks_refine_shell w0 k w t ses s :
  reachable ks language w0 (k, w) → tasks k !! t = Some (ses, s) →
  ∃ wt ls, run_from ks ses (shell_init, wt) ls (s, w).
Proof. intros Hr Et. by eapply reachable_tasks_run. Qed.
End Refinement.
