(* ===== verification/Routing.v ===== *)
(** * Subshells and routing (src/src/engine.rs, the main loop's tables)

    The tables of the main loop ([shells], [route_overrides]) and what the
    requests that read and write them do. *)

From Stdlib Require Import ZArith.
From stdpp Require Import base gmap sets list strings.
From S2P Require Import Prelude Json Errors Wire Language Services Queue Requests Shell Kernel System.

(** ** Lemmas on the kernel's monad *)

Section KLemmas.
Context {Ses : Type}.
#[local] Notation KS := (@K Ses).

Lemma kbind_ok {A B} (m : KS A) (f : A → KS B) k w a k1 w1 : m k w = (Ok a, k1, w1) → (m ≫= f) k w = f a k1 w1.
Proof. intros E. unfold mbind, K_bind. by rewrite E. Qed.

Lemma kbind_err {A B} (m : KS A) (f : A → KS B) k w e k1 w1 : m k w = (Err e, k1, w1) → (m ≫= f) k w = (Err e, k1, w1).
Proof. intros E. unfold mbind, K_bind. by rewrite E. Qed.

Lemma io_run {A} (m : M A) (k : Kernel Ses) w r w' : m w = (r, w') → io m k w = (r, k, w').
Proof. intros E. unfold io. by rewrite E. Qed.

(** [keeps P m]: [m] preserves [P], whether it succeeds or fails. *)
Definition keeps {A} (P : Kernel Ses → Prop) (m : KS A) : Prop := ∀ k w, P k → P (m k w).1.2.

Lemma keeps_bind {A B} P (m : KS A) (f : A → KS B) : keeps P m → (∀ a, keeps P (f a)) → keeps P (m ≫= f).
Proof.
  intros Hm Hf k w Hk. specialize (Hm k w Hk). unfold mbind, K_bind. destruct (m k w) as [[[a|e] k1] w1]; [by apply Hf | done].
Qed.

Lemma keeps_ret {A} P (a : A) : keeps P (mret a : KS A).
Proof. by intros k w. Qed.

Lemma keeps_io {A} P (m : M A) : keeps P (io m : KS A).
Proof. intros k w Hk. unfold io. by destruct (m w). Qed.

Lemma keeps_kthrow {A} P e : keeps P (kthrow e : KS A).
Proof. apply keeps_io. Qed.

Lemma keeps_kget {A} P (f : Kernel Ses → A) : keeps P (kget f).
Proof. by intros k w. Qed.

Lemma keeps_kcatch {A} P (m : KS A) : keeps P m → keeps P (kcatch m).
Proof. intros Hm k w Hk. specialize (Hm k w Hk). unfold kcatch. by destruct (m k w) as [[] ?]. Qed.

Lemma keeps_kmodify (P : Kernel Ses → Prop) f : (∀ k, P k → P (f k)) → keeps P (kmodify f).
Proof. intros Hf k w Hk. by apply Hf. Qed.

Lemma keeps_kfor_each {A} P (f : A → KS unit) l : (∀ a, keeps P (f a)) → keeps P (kfor_each f l).
Proof. intros Hf. induction l as [|a l IH]; simpl; [apply keeps_ret | by apply keeps_bind]. Qed.
End KLemmas.

#[export] Hint Resolve keeps_bind keeps_ret keeps_io keeps_kthrow keeps_kget keeps_kcatch keeps_kfor_each : kern.

(** Decomposes an operation of the kernel into its parts. *)
Ltac keep_parts := repeat first
  [ solve [auto with kern nocore]
  | match goal with |- keeps _ (mbind _ _) => apply keeps_bind; [|intros ?] end
  | match goal with |- keeps _ (kcatch _) => apply keeps_kcatch end
  | match goal with |- keeps _ (kfor_each _ _) => apply keeps_kfor_each; intros ? end
  | match goal with |- keeps _ (match ?x with _ => _ end) => destruct x end
  | progress (auto 10 with kern) ].

(** ** The invariant of the tables

    Every shell in the table has a task of its own, and no client session is
    routed to the parent by name. *)
Record kernel_ok {Ses} (k : Kernel Ses) : Prop := {
  ok_tasks : ∀ id t, shells k !! id = Some t → is_Some (tasks k !! t);
  ok_inj : ∀ id id' t, shells k !! id = Some t → shells k !! id' = Some t → id = id';
  ok_routes : ∀ c id, route_overrides k !! c = Some id → id ≠ "";
}.

Section Tables.
Context {Ses : Type}.

(** Only the tables and the set of tasks matter. *)
Lemma kernel_ok_same (k k' : Kernel Ses) :
  shells k' = shells k → route_overrides k' = route_overrides k → (∀ t, is_Some (tasks k !! t) → is_Some (tasks k' !! t)) →
  kernel_ok k → kernel_ok k'.
Proof. intros Es Er Et [H1 H2 H3]. split; rewrite ?Es, ?Er; eauto. Qed.

Lemma kernel_ok_delete (k : Kernel Ses) id : kernel_ok k → kernel_ok (with_shells (delete id) k).
Proof.
  intros [H1 H2 H3]. split; simpl; [| |done].
  - intros id' t [_ E]%lookup_delete_Some. eauto.
  - intros i i' t [_ E]%lookup_delete_Some [_ E']%lookup_delete_Some. eauto.
Qed.

Lemma kernel_ok_routes (k : Kernel Ses) f :
  (∀ c id, f (route_overrides k) !! c = Some id → id = "" → False) → kernel_ok k → kernel_ok (with_routes f k).
Proof. intros Hf [H1 H2 H3]. split; simpl; eauto. Qed.

Lemma kernel_ok_update t f (k : Kernel Ses) : kernel_ok k → kernel_ok (update_shell t f k).
Proof.
  apply kernel_ok_same; try done. intros t' Ht. unfold update_shell. simpl.
  destruct (decide (t = t')) as [<-|]; [rewrite lookup_alter_eq; by apply fmap_is_Some | by rewrite lookup_alter_ne].
Qed.

(** A new shell. *)
Definition add_shell (id : string) (child : Ses) (k : Kernel Ses) : Kernel Ses :=
  let t := fresh (dom (tasks k)) in
  with_shells (<[id := t]>) (with_tasks (<[t := (child, shell_init)]>) k).

Lemma fresh_task (k : Kernel Ses) : tasks k !! fresh (dom (tasks k)) = None.
Proof. apply not_elem_of_dom, is_fresh. Qed.

Lemma kernel_ok_add id child (k : Kernel Ses) : kernel_ok k → kernel_ok (add_shell id child k).
Proof.
  intros [H1 H2 H3]. pose proof (fresh_task k) as Hf. unfold add_shell. set (t0 := fresh (dom (tasks k))) in *.
  assert (∀ i, shells k !! i ≠ Some t0) as Hnew.
  { intros i E. apply H1 in E. rewrite Hf in E. by apply is_Some_None in E. }
  split; simpl; [| |done].
  - intros i t [[_ <-]|[_ E]]%lookup_insert_Some; [by rewrite lookup_insert_eq|].
    destruct (decide (t0 = t)) as [<-|]; [by rewrite lookup_insert_eq | rewrite lookup_insert_ne by done; eauto].
  - intros i i' t [[<- <-]|[_ E]]%lookup_insert_Some [[<- Et]|[_ E']]%lookup_insert_Some; try done; subst; eauto.
    + by destruct (Hnew i').
    + by destruct (Hnew i).
Qed.

Lemma keeps_send_inbound t inb : keeps (Ses := Ses) kernel_ok (send_inbound t inb).
Proof.
  unfold send_inbound. apply keeps_bind; [auto with kern|intros []]; [|auto with kern].
  apply keeps_bind; [apply keeps_kmodify, kernel_ok_update | auto with kern].
Qed.

Lemma keeps_send_control t c : keeps (Ses := Ses) kernel_ok (send_control t c).
Proof.
  unfold send_control. apply keeps_bind; [auto with kern|intros []]; [|auto with kern].
  apply keeps_bind; [apply keeps_kmodify, kernel_ok_update | auto with kern].
Qed.

Lemma kernel_ok_delete_route (k : Kernel Ses) c : kernel_ok k → kernel_ok (with_routes (delete c) k).
Proof. intros Hk. apply kernel_ok_routes; [|done]. intros c' id [_ E]%lookup_delete_Some ->. by eapply ok_routes. Qed.

Lemma kernel_ok_drop_routes (k : Kernel Ses) id : kernel_ok k → kernel_ok (drop_routes id k).
Proof.
  intros Hk. apply kernel_ok_routes; [|done]. intros c i [E _]%map_lookup_filter_Some ->. by eapply ok_routes.
Qed.
End Tables.

#[export] Hint Resolve keeps_send_inbound keeps_send_control kernel_ok_delete kernel_ok_delete_route kernel_ok_drop_routes : kern.
#[export] Hint Extern 1 (keeps kernel_ok (kmodify _)) =>
  (apply keeps_kmodify; solve [auto with kern | intros ?; apply kernel_ok_same; auto]) : kern.

Section Routing.
Context `{WireExt} {Ses : Type} `{LanguageSession Ses} {L : Type} `{Language L Ses} (ks : KernelServices) (language : L).
#[local] Notation KS := (@K Ses).

(** Every outcome of [create_subshell]. *)
Lemma create_subshell_run req k w :
  ∃ r k' w', create_subshell language req k w = (r, k', w') ∧ trace w' = trace w ∧
    match r with
    | Ok id => id ≠ "" ∧ supports_children language = true ∧ (∀ id0, req = Some id0 → id = id0) ∧
        ((k' = k ∧ is_Some (shells k !! id)) ∨ (shells k !! id = None ∧ ∃ child, k' = add_shell id child k))
    | Err e => k' = k
    end.
Proof.
  unfold create_subshell.
  assert (∃ id w1, (match req with Some id => mret id | None => n ← io next_tick; mret (uuid_v4 n) end : KS string) k w = (Ok id, k, w1) ∧
    trace w1 = trace w ∧ ∀ id0, req = Some id0 → id = id0) as (id & w1 & E1 & Ht1 & Hid).
  { destruct req as [id|]; do 2 eexists; (split; [reflexivity|]); split; try done. by intros ? [= <-]. }
  rewrite (kbind_ok _ _ _ _ _ _ _ E1). case_decide as Hne; [by repeat eexists|].
  destruct (supports_children language) eqn:Hs; simpl; [|by repeat eexists].
  unfold kget at 1. cbv [mbind K_bind].
  case_bool_decide as Hx; [do 3 eexists; split; [reflexivity|]; split_and!; auto|].
  destruct (create_child language (tick w1)) as [child|e] eqn:Ec.
  - eexists (Ok id), (add_shell id child k), _. unfold io, call, next_tick, lift, spawn_shell, kget, kmodify, mbind, M_bind, K_bind, mret, M_ret, K_ret.
    rewrite Ec. split; [reflexivity|]. split_and!; try done. right. split; [|eauto].
    destruct (shells k !! id) eqn:E; [|done]. by destruct Hx.
  - eexists (Err e), k, _. unfold io, call, next_tick, lift, mbind, M_bind, mret, M_ret. rewrite Ec. done.
Qed.

(** ** The invariant is kept *)

Lemma keeps_create_subshell req : keeps kernel_ok (create_subshell language req).
Proof.
  intros k w Hk. destruct (create_subshell_run req k w) as (r & k' & w' & -> & _ & Hr). simpl.
  destruct r as [id|e]; [|by subst]. destruct Hr as (_ & _ & _ & [[-> _]|[_ [child ->]]]); [done | by apply kernel_ok_add].
Qed.
#[local] Hint Resolve keeps_create_subshell : kern.

Lemma keeps_route_shell inb : keeps kernel_ok (route_shell ks language inb).
Proof. unfold route_shell, deliver. keep_parts. Qed.
#[local] Hint Resolve keeps_route_shell : kern.

Lemma keeps_route_pending n : keeps kernel_ok (route_pending ks language n).
Proof. induction n; simpl; keep_parts. Qed.

Lemma keeps_interrupt_shells : keeps kernel_ok (interrupt_shells : KS unit).
Proof. unfold interrupt_shells, send_control_or_fail. keep_parts. Qed.
#[local] Hint Resolve keeps_route_pending keeps_interrupt_shells : kern.

Lemma keeps_open client req complete : keeps kernel_ok (session_command language (Open client req complete)).
Proof.
  simpl. apply keeps_bind; [auto with kern|intros []]; [keep_parts|]. apply keeps_bind; [|auto with kern].
  intros k w Hk. destruct (create_subshell_run req k w) as (r & k' & w' & E & _ & Hr).
  unfold kcatch, mbind, K_bind. rewrite E. pose proof (keeps_create_subshell req k w Hk) as Hk'. rewrite E in Hk'. simpl in Hk'.
  destruct r as [id|e]; [|done]. apply kernel_ok_routes; [|done].
  intros c i [[_ <-]|[_ E']]%lookup_insert_Some ->; [by destruct Hr | by eapply ok_routes].
Qed.

Lemma keeps_session_command c : keeps kernel_ok (session_command language c).
Proof. destruct c; [apply keeps_open|]. simpl. unfold stop_in_background. keep_parts. Qed.
#[local] Hint Resolve keeps_session_command : kern.

Lemma keeps_handle_control inb : keeps kernel_ok (handle_control ks language inb).
Proof. unfold handle_control, route_pending_shells, stop_in_background. cbv zeta. keep_parts. Qed.
#[local] Hint Resolve keeps_handle_control : kern.

Lemma keeps_run_loop c : keeps kernel_ok (run_loop ks language c).
Proof. destruct c; simpl; keep_parts. Qed.

Lemma kernel_ok_leave r (k : Kernel Ses) : kernel_ok k → kernel_ok (leave_loop r k).
Proof. intros [? ? Hr]. split; simpl; [intros ? ? []%lookup_empty_Some | intros ? ? ? []%lookup_empty_Some | done]. Qed.

Lemma kernel_ok_step c k w : kernel_ok k → kernel_ok (kernel_step ks language c k w).1.
Proof.
  intros Hk. unfold kernel_step. destruct (kphase k) as [|wt todo id st found reply req|wt todo r|r]; [..|done].
  - pose proof (keeps_run_loop c k w Hk) as Hk'. destruct (run_loop ks language c k w) as [[[[]|e] k1] w1]; simpl in *; auto using kernel_ok_leave.
  - assert (keeps kernel_ok (release_step ks wt todo id st found reply req : KS unit)) as Hr.
    { unfold release_step, send_control_or_fail. keep_parts. }
    specialize (Hr k w Hk). destruct (release_step _ _ _ _ _ _ _ _ k w) as [[[|e] k1] w1]; simpl in *; auto using kernel_ok_leave.
  - assert (keeps kernel_ok (shutdown_step wt todo r : KS unit)) as Hr by (unfold shutdown_step, stop_shell; keep_parts).
    specialize (Hr k w Hk). by destruct (shutdown_step wt todo r k w) as [[r1 k1] w1].
Qed.

Lemma kernel_ok_sys k w k' w' : ksys_step ks language (k, w) (k', w') → kernel_ok k → kernel_ok k'.
Proof.
  intros Hs Hk. inversion Hs; subst; try done; try (by eapply kernel_ok_same; [..|exact Hk]).
  - match goal with E : _ = (k', _) |- _ => pose proof (kernel_ok_step c k w Hk) as Hk'; by rewrite E in Hk' end.
  - assert (keeps kernel_ok (stop_step ks st : KS _)) as Hr by (unfold stop_step, stop_shell; keep_parts).
    specialize (Hr k w Hk). match goal with E : stop_step _ _ _ _ = _ |- _ => rewrite E in Hr end.
    by eapply kernel_ok_same; [..|exact Hr].
  - eapply kernel_ok_same; [..|exact Hk]; try done. intros t' Ht. simpl.
    destruct (decide (t = t')) as [<-|]; [by rewrite lookup_insert_eq | by rewrite lookup_insert_ne].
Qed.

Lemma reachable_ok w0 k w : reachable ks language w0 (k, w) → kernel_ok k.
Proof.
  intros Hr. remember (k, w) as c eqn:Ec. revert k w Ec.
  induction Hr as [|[k1 w1] c Hr IH Hstep]; intros k w Ec; subst; [|eapply kernel_ok_sys; [exact Hstep | by eapply IH]].
  injection Ec as <- <-. split; simpl.
  - intros id t [_ <-]%lookup_singleton_Some. by rewrite lookup_singleton_eq.
  - intros id id' t [<- _]%lookup_singleton_Some [<- _]%lookup_singleton_Some. done.
  - intros c id []%lookup_empty_Some.
Qed.

(** ** Delivery *)

(** [inb] is put at the end of the channel of the running task [t]; no other
    task is touched. *)
Definition delivered (k k' : Kernel Ses) (t : nat) (inb : Inbound) : Prop :=
  ∃ ses s, tasks k !! t = Some (ses, s) ∧ running s = true ∧
    tasks k' = <[t := (ses, set_incoming s (incoming s ++ [inb]))]> (tasks k) ∧
    shells k' = shells k ∧ route_overrides k' = route_overrides k ∧ shell_queue k' = shell_queue k.

Lemma send_inbound_run t inb (k : Kernel Ses) w :
  (live k t = true ∧ ∃ k', send_inbound t inb k w = (Ok true, k', w) ∧ delivered k k' t inb) ∨
  (live k t = false ∧ send_inbound t inb k w = (Ok false, k, w)).
Proof.
  unfold send_inbound, kget, kmodify, mbind, K_bind, mret, K_ret. destruct (live k t) eqn:Hl; [left|right; done].
  split; [done|]. eexists. split; [reflexivity|]. unfold live, task_shell in Hl.
  destruct (tasks k !! t) as [[ses s]|] eqn:Et; [|done]. exists ses, s. split_and!; try done.
  apply map_eq. intros j. unfold update_shell. simpl.
  destruct (decide (t = j)) as [<-|]; [by rewrite lookup_alter_eq, lookup_insert_eq, Et | by rewrite lookup_alter_ne, lookup_insert_ne].
Qed.

Definition answer_key (inb : Inbound) : list (nat * Map) := if is_request_message inb then [request_key inb] else [].

Lemma live_add_shell id child (k : Kernel Ses) :
  shells (add_shell id child k) !! id = Some (fresh (dom (tasks k))) ∧ live (add_shell id child k) (fresh (dom (tasks k))) = true.
Proof.
  unfold add_shell, live, task_shell. simpl. by rewrite !lookup_insert_eq.
Qed.

(** What a client sees of a request that was refused: an error reply, and for an
    execute request the error and the status messages around it. *)
Definition refusal_obs (inb : Inbound) (c : Value) : list Obs :=
  let req := in_message inb in
  if is_request_message inb then
    (if is_execute inb then [status_obs req "busy"; OPub (header req) "error" c] else []) ++
    [ORep (in_reply inb) (header req) (reply_type (msg_type req)) c] ++
    (if is_execute inb then [status_obs req "idle"] else [])
  else [].

(** [inb] was refused with the error [en]. *)
Definition refused (inb : Inbound) (en : string) (w w' : World) : Prop :=
  ∃ c, get_str c "status" = Some "error" ∧ get_str c "ename" = Some en ∧
    protocol (obs w') = protocol (obs w) ++ protocol (refusal_obs inb c).

Section Total.
Context `{!JsonTotal}.

Lemma error_content_fields req n en ev :
  get_str (error_content req n en ev) "status" = Some "error" ∧ get_str (error_content req n en ev) "ename" = Some en.
Proof. unfold error_content. cbv zeta. repeat case_decide; done. Qed.

Lemma emits_reply_error inb c :
  is_request_message inb = true → emits (reply_error ks (in_message inb) (in_reply inb) c) (refusal_obs inb c) tt.
Proof.
  intros Hr. unfold reply_error, refusal_obs. rewrite Hr. fold (is_execute inb).
  eapply emits_bind; [apply emits_when, (emits_bind _ _ [_] tt [_]); [apply emits_status | apply emits_send_iopub]|].
  eapply emits_bind; [apply emits_send_reply | apply emits_when, emits_status].
Qed.

Lemma subshell_error_run inb en ev w :
  ∃ w', reply_subshell_error ks inb en ev w = (Ok tt, w') ∧ answers (trace w') = answers (trace w) ++ answer_key inb ∧ refused inb en w w'.
Proof.
  unfold reply_subshell_error, answer_key. destruct (error_content_fields (in_message inb) 0 en ev) as [Hst Hen].
  destruct (is_request_message inb) eqn:Hr; unfold is_request_message in Hr; rewrite Hr; simpl.
  2: { exists w. rewrite app_nil_r. split_and!; [done..|]. eexists. split_and!; [done..|]. unfold refusal_obs, is_request_message. by rewrite Hr, app_nil_r. }
  assert (answers_one (reply_error ks (in_message inb) (in_reply inb) (error_content (in_message inb) 0 en ev)) (request_key inb)) as Ha.
  { unfold reply_error. apply answers_one_after; [quiet | auto with kern | intros _].
    apply answers_one_before; [auto with kern | quiet]. }
  destruct (emits_reply_error inb (error_content (in_message inb) 0 en ev) Hr w) as (w' & E & Hp & _).
  exists w'. split; [done|]. specialize (Ha w). rewrite E in Ha. split; [done|]. by eexists.
Qed.

Lemma deliver_run id inb (k : Kernel Ses) w :
  ∃ k' w', deliver ks id inb k w = (Ok tt, k', w') ∧
    ((∃ t, shells k !! id = Some t ∧ delivered k k' t inb ∧ w' = w) ∨
     ((∀ t, shells k !! id = Some t → live k t = false) ∧ k' = k ∧ answers (trace w') = answers (trace w) ++ answer_key inb ∧
      refused inb "SubshellNotFound" w w')).
Proof.
  destruct (subshell_error_run inb "SubshellNotFound" (unknown_subshell (subshell_id (in_message inb))) w) as (w1 & E1 & A1 & R1).
  unfold deliver, kget, mbind at 1, K_bind at 1. destruct (shells k !! id) as [t|] eqn:Es.
  - destruct (send_inbound_run t inb k w) as [(Hl & k' & E & Hd)|[Hl E]]; rewrite (kbind_ok _ _ _ _ _ _ _ E).
    + exists k', w. split; [done|]. left. eauto.
    + exists k, w1. unfold reply_subshell_not_found. rewrite (io_run _ _ _ _ _ E1). split; [done|]. right. split_and!; naive_solver.
  - exists k, w1. unfold reply_subshell_not_found. rewrite (io_run _ _ _ _ _ E1). split; [done|]. right. split_and!; naive_solver.
Qed.

(** What a request that finds no shell is told: a shell it names that is not there
    could not be created; another is not there, or has ended. *)
Definition refusal (inb : Inbound) (k : Kernel Ses) : string :=
  if negb (bool_decide (subshell_id (in_message inb) = "")) && negb (bool_decide (is_Some (shells k !! target_id inb (route_overrides k))))
  then "SubshellCreationError" else "SubshellNotFound".

(** Every outcome of [route_shell]. *)
Lemma route_shell_run inb k w :
  let id := target_id inb (route_overrides k) in
  ∃ k' w', route_shell ks language inb k w = (Ok tt, k', w') ∧
    ((∃ k1 t, (k1 = k ∨ (shells k !! id = None ∧ subshell_id (in_message inb) = id ∧ id ≠ "" ∧ ∃ child, k1 = add_shell id child k)) ∧
        shells k1 !! id = Some t ∧ delivered k1 k' t inb ∧ trace w' = trace w) ∨
     ((∀ t, shells k !! id = Some t → live k t = false) ∧ k' = k ∧ answers (trace w') = answers (trace w) ++ answer_key inb ∧
      refused inb (refusal inb k) w w')).
Proof.
  intros id. unfold route_shell. unfold kget at 1 2. cbv [mbind K_bind]. fold id.
  assert (∃ k' w', deliver ks id inb k w = (Ok tt, k', w') ∧
    ((∃ k1 t, (k1 = k ∨ (shells k !! id = None ∧ subshell_id (in_message inb) = id ∧ id ≠ "" ∧ ∃ child, k1 = add_shell id child k)) ∧
        shells k1 !! id = Some t ∧ delivered k1 k' t inb ∧ trace w' = trace w) ∨
     ((∀ t, shells k !! id = Some t → live k t = false) ∧ k' = k ∧ answers (trace w') = answers (trace w) ++ answer_key inb ∧
      refused inb "SubshellNotFound" w w'))) as Hd.
  { destruct (deliver_run id inb k w) as (k' & w' & E & [(t & Es & Hd & Ew)|Hr]); exists k', w'; (split; [done|]); [left|by right].
    exists k, t. subst w'. auto. }
  unfold refusal. fold id. destruct (_ && _) eqn:Hc; [|exact Hd]. apply andb_true_iff in Hc as [Hx Hn].
  apply negb_true_iff, bool_decide_eq_false in Hx. apply negb_true_iff, bool_decide_eq_false in Hn.
  assert (subshell_id (in_message inb) = id) as Hid by (unfold id, target_id; by rewrite bool_decide_false).
  assert (shells k !! id = None) as Hno by (destruct (shells k !! id); [destruct Hn; eauto | done]).
  destruct (create_subshell_run (Some id) k w) as (r & k1 & w1 & E & Ht & Hr). unfold kcatch. rewrite E.
  destruct r as [id'|e].
  - destruct Hr as (_ & _ & Hi & [[_ [? ?]]|[_ [child ->]]]); [rewrite (Hi id) in *; congruence|]. rewrite (Hi id eq_refl) in *.
    destruct (live_add_shell id child k) as [Hs Hl].
    destruct (deliver_run id inb (add_shell id child k) w1) as (k' & w' & E' & [(t & Es & Hd' & ->)|(Hf & _)]).
    + exists k', w1. split; [done|]. left. exists (add_shell id child k), t. rewrite Ht. split_and!; auto. right. split_and!; eauto. congruence.
    + by rewrite (Hf _ Hs) in Hl.
  - destruct (subshell_error_run inb "SubshellCreationError" (to_string e) w1) as (w2 & E2 & A2 & R2). rewrite (io_run _ _ _ _ _ E2).
    subst k1. exists k, w2. split; [done|]. right. rewrite A2, Ht. split_and!; auto; [naive_solver|].
    destruct R2 as (c & Hst & Hen & Hp). exists c. split_and!; [done..|]. rewrite Hp. unfold obs. by rewrite Ht.
Qed.
End Total.
End Routing.
