(* ===== verification/Context.v ===== *)
(** * What running code asks of the kernel (src/src/language.rs,
    [ExecutionContext]; src/py/src/python.rs, [ExecutionSink])

    The calling side of [input], [open_subshell] and [close_subshell]: their
    guards, what they send to the engine, and how the engine's answer comes
    back.  A call of [input] goes through the output pump to [Stdin::request];
    the other two send a [SessionCommand] to the main loop and wait on its
    [complete] channel, named here by a number. *)

From Stdlib Require Import ZArith.
From stdpp Require Import base gmap sets list strings.
From S2P Require Import Prelude Json Errors Wire Language Services Queue Requests PyAdapter Shell Kernel System Routing.

(** ** Input *)

Section Input.
Context `{WireExt} (ks : KernelServices).

(** [ExecutionContext::input] in the context of [request], with the pump at the
    other end: [stdin] is the client the pump may ask and [ends] how the wait
    for it ends.  [interrupted] is the interrupt flag when the call is made. *)
Definition context_input (ctx : ExecutionContext) (interrupted : bool) (request : Message) (stdin : option bytes)
    (prompt : string) (password : bool) (ends : InputEnd) : M (Result string) :=
  if negb (ctx_allow_stdin ctx) then mret (Err (error_new Unavailable "input is unavailable in this execution"))
  else if interrupted then mret (Err error_interrupted)
  else
    match stdin with
    | Some identity => catch (stdin_request ks identity request prompt password ends)
    | None => mret (Err (error_new Unavailable "input is unavailable outside execution"))
    end.

(** [ExecutionSink::input]: the same call from Python, whose errors become
    exceptions. *)
Definition sink_input (ctx : ExecutionContext) (interrupted : bool) (request : Message) (stdin : option bytes)
    (prompt : string) (password : bool) (ends : InputEnd) : M (string + PyExc) :=
  r ← context_input ctx interrupted request stdin prompt password ends;
  mret (match r with Ok v => inl v | Err e => inr (py_error e) end).

(** [raises x r]: the call [r] raised an exception with the class of [x] and
    the name of its kind. *)
Definition raises (class : PyClass) (kind : string) (r : string + PyExc) : Prop :=
  match r with inl _ => False | inr x => px_class x = class ∧ px_kind x = kind end.

Definition raises_error (e : Error) (r : string + PyExc) : Prop := raises (px_class (py_error e)) (kind_name (error_kind e)) r.

(** (input) a call of [input] from Python always comes back.  Outside an
    execution, or when the request forbids input, it fails as unavailable; when
    the execution was interrupted, before the call or while it waits, it raises
    [KeyboardInterrupt]; a lost client gives the error of its connection; a reply
    is returned as it is, empty or not.  Only a call that was let through prompts
    the client, at most once, and none leaves an entry in the table of pending
    inputs. *)
Theorem input_call_ends `{!JsonTotal} request client count interrupted prompt password ends w :
  let ctx := output_context request (bool_decide (is_Some client)) count in
  let forbidden := bool_decide (get_bool (content request) "allow_stdin" = Some false) in
  ∃ r w', sink_input ctx interrupted request client prompt password ends w = (Ok r, w') ∧
    match client with
    | None => raises KernelError "Unavailable" r ∧ w' = w
    | Some i =>
        if forbidden then raises KernelError "Unavailable" r ∧ w' = w
        else if interrupted then raises PyKeyboardInterrupt "Interrupted" r ∧ w' = w
        else
          match ends with
          | InputReplied value => r = inl value
          | InputCancelled _ => raises PyKeyboardInterrupt "Interrupted" r
          | InputPeerClosed _ e | InputSendFailed e => raises_error e r
          | InputDropped => raises KernelError "Closed" r
          end ∧
          pending w' = delete (uuid_v4 (tick w)) (pending w) ∧
          protocol (obs w') = protocol (obs w) ++
            (if prompt_sent ends then [OPrompt i (header request) (Obj [("prompt", Str prompt); ("password", Bool password)])] else [])
    end.
Proof.
  intros ctx forbidden. unfold sink_input, context_input. subst ctx forbidden. unfold output_context. simpl.
  destruct client as [i|]; simpl; [|by eexists _, _].
  destruct (get_bool (content request) "allow_stdin") as [[]|] eqn:Ha; simpl; [|by eexists _, _|];
    (destruct interrupted; [by eexists _, _|]);
    destruct (stdin_request_run ks i request prompt password ends w) as (w' & (Er & Eo & _) & Ep & _);
    unfold catch, mbind, M_bind; rewrite Er; (eexists _, w'; split; [reflexivity|]);
    (split_and!; [| done | rewrite Eo; f_equal; simpl; by destruct (prompt_sent ends)]);
    destruct ends; try done; by split; [apply py_error_context_class|].
Qed.
End Input.

(** ** Subshell commands *)

Definition unavailable : Error := error_new Unavailable "subshells are not available".

(** The command a call sends, or the error it returns at once. *)
Definition context_open_subshell (ctx : ExecutionContext) (id : option string) (complete : nat) : Result SessionCommand :=
  match ctx_subshells ctx with Some client => Ok (Open client id complete) | None => Err unavailable end.

Definition context_close_subshell (ctx : ExecutionContext) (id : string) (delete : bool) (complete : nat) : Result SessionCommand :=
  match ctx_subshells ctx with Some client => Ok (Close client id delete complete) | None => Err unavailable end.

(** How the call of a command goes on: the main loop's channel is closed, the
    command's own channel is dropped unanswered, or it is answered. *)
Inductive CommandEnd (A : Type) := CommandRefused | CommandDropped | CommandAnswered (r : Result A).
Arguments CommandRefused {A}.
Arguments CommandDropped {A}.
Arguments CommandAnswered {A} r.

Definition command_result {A} (sent : Result SessionCommand) (ends : CommandEnd A) : Result A :=
  _ ← sent;
  match ends with
  | CommandRefused => Err from_send_error
  | CommandDropped => Err (from_recv_error "receiving on a closed channel")
  | CommandAnswered r => r
  end.

(** [ExecutionSink::open_subshell] and [ExecutionSink::close_subshell]: the same
    calls from Python, and [ExecutionSink::parent]. *)
Definition sink_open_subshell (ctx : ExecutionContext) (id : option string) (complete : nat) (ends : CommandEnd string) : result PyExc string :=
  map_err py_error (command_result (context_open_subshell ctx id complete) ends).

Definition sink_close_subshell (ctx : ExecutionContext) (id : string) (delete : bool) (complete : nat) (ends : CommandEnd unit) : result PyExc unit :=
  map_err py_error (command_result (context_close_subshell ctx id delete complete) ends).

Definition sink_parent `{PyShell L} (ctx : ExecutionContext) : PyResult PyObj := json_to_py (ctx_parent ctx).

(** A command's channel, and whether it waits for the answer of an open. *)
Definition asked (c : SessionCommand) : nat * bool :=
  match c with Open _ _ n => (n, true) | Close _ _ _ n => (n, false) end.

Definition answered (a : nat * Completion) : nat * bool :=
  (a.1, match a.2 with RouteOpened _ => true | RouteClosed _ => false end).

Definition closing (st : BackgroundStop) : option (nat * bool) :=
  match st_done st with AnswerClose n => Some (n, false) | AnswerDelete _ _ => None end.

(** What [f] reads off a list of stops, when one of them goes on or ends. *)
Lemma omap_replace_stop {B} (f : BackgroundStop → option B) i st r l :
  l !! i = Some st → ∃ rest, omap f l ≡ₚ option_list (f st) ++ rest ∧ omap f (replace_stop i r l) ≡ₚ option_list (r ≫= f) ++ rest.
Proof.
  intros Hi. exists (omap f (delete i l)).
  assert (∀ st' l', l' ≡ₚ st' :: delete i l → omap f l' ≡ₚ option_list (f st') ++ omap f (delete i l)) as Hcons.
  { intros st' l' ->. simpl. by destruct (f st'). }
  split; [by apply Hcons, delete_Permutation|]. destruct r as [st'|]; simpl; [|done]. by eapply Hcons, insert_Permutation.
Qed.

(** Every command the kernel knows of: answered, waiting for its subshell to
    stop, or not yet read. *)
Definition command_book {Ses} (k : Kernel Ses) : list (nat * bool) :=
  map answered (completed k) ++ omap closing (stops k) ++ map asked (commands k).

Definition some_shell_failed {Ses} (k : Kernel Ses) : Prop := ∃ t e, task_result k t = Some (Err e).

Section Commands.
Context `{WireExt} {Ses : Type} `{LanguageSession Ses} {L : Type} `{Language L Ses} (ks : KernelServices) (language : L).

#[local] Notation KS := (@K Ses).

(** Runs of the kernel, with the commands sent to it: a step that does not
    lengthen the queue of commands sends none. *)
Inductive commands_run (w0 : World) : list SessionCommand → Kernel Ses * World → Prop :=
| cr_init : commands_run w0 [] (kernel_init language, w0)
| cr_send sent k w c : commands_run w0 sent (k, w) → commands_run w0 (sent ++ [c]) (with_commands (commands k ++ [c]) k, w)
| cr_step sent k w k' w' :
    commands_run w0 sent (k, w) → ksys_step ks language (k, w) (k', w') → length (commands k') ≤ length (commands k) →
    commands_run w0 sent (k', w').

(** ** Operations that leave the book alone *)

Definition booked (l : list (nat * bool)) (q : list SessionCommand) (k : Kernel Ses) : Prop :=
  command_book k ≡ₚ l ∧ commands k = q.

Lemma booked_update l q t f (k : Kernel Ses) : booked l q k → booked l q (update_shell t f k).
Proof. done. Qed.

Lemma keeps_kmodify_book l q (f : Kernel Ses → Kernel Ses) :
  (∀ k, command_book (f k) = command_book k ∧ commands (f k) = commands k) → keeps (booked l q) (kmodify f).
Proof. intros Hf. apply keeps_kmodify. intros k [Hb Hq]. destruct (Hf k) as [Eb Eq]. split; [by rewrite Eb | congruence]. Qed.

#[local] Hint Extern 1 (keeps (booked _ _) (kmodify _)) => (apply keeps_kmodify_book; intros; split; reflexivity) : kern.

Lemma books_send_control l q t c : keeps (booked l q) (send_control t c : KS bool).
Proof. unfold send_control. keep_parts. Qed.
#[local] Hint Resolve books_send_control : kern.

Lemma books_create_subshell l q id : keeps (booked l q) (create_subshell language id).
Proof. unfold create_subshell, spawn_shell. keep_parts. Qed.
#[local] Hint Resolve books_create_subshell : kern.

Lemma books_route_shell l q inb : keeps (booked l q) (route_shell ks language inb).
Proof. unfold route_shell, deliver, send_inbound. keep_parts. Qed.
#[local] Hint Resolve books_route_shell : kern.

Lemma books_route_pending l q n : keeps (booked l q) (route_pending ks language n).
Proof. induction n; simpl; keep_parts. Qed.

Lemma books_interrupt_shells l q : keeps (booked l q) (interrupt_shells : KS unit).
Proof. unfold interrupt_shells, send_control_or_fail. keep_parts. Qed.
#[local] Hint Resolve books_route_pending books_interrupt_shells : kern.

Lemma books_delete l q t b reply req : keeps (booked l q) (stop_in_background t b (AnswerDelete reply req) : KS unit).
Proof.
  apply keeps_kmodify_book. intros k. split; [|done]. unfold command_book. simpl.
  by rewrite omap_app, app_nil_r.
Qed.
#[local] Hint Resolve books_delete : kern.

Lemma books_handle_control l q inb : keeps (booked l q) (handle_control ks language inb).
Proof. unfold handle_control, route_pending_shells. cbv zeta. keep_parts. Qed.
#[local] Hint Resolve books_handle_control : kern.

Lemma books_release_step l q wt todo id st found reply req : keeps (booked l q) (release_step ks wt todo id st found reply req : KS unit).
Proof. unfold release_step, send_control_or_fail. keep_parts. Qed.

Lemma books_shutdown_step l q wt todo r : keeps (booked l q) (shutdown_step wt todo r : KS unit).
Proof. unfold shutdown_step, stop_shell. keep_parts. Qed.

(** ** Commands and stops *)

(** A command that was read is answered, or waits for its subshell to stop. *)
Lemma books_session_command l q c k w :
  booked l q k → booked (asked c :: l) q (session_command language c k w).1.2.
Proof.
  intros Hk.
  assert (∀ a k', booked l q k' → answered a = asked c → booked (asked c :: l) q (with_completed a k')) as Hdone.
  { intros a k' [Hb Hq] Ha. split; [|done]. unfold command_book in *. simpl.
    rewrite map_app, <- app_assoc. simpl. rewrite Ha, <- Hb. symmetry. apply Permutation_middle. }
  destruct c as [client id n|client id del n]; simpl.
  - unfold mbind at 1, K_bind at 1, kget at 1. unfold mbind at 1, K_bind at 1.
    match goal with |- context [match ?m k w with _ => _ end] => assert (keeps (booked l q) m) as Hm by keep_parts end.
    specialize (Hm k w Hk). destruct (_ k w) as [[[r|e] k1] w1] eqn:E; simpl in *; [by apply Hdone|].
    exfalso. revert E. case_bool_decide; [done|]. unfold mbind, K_bind, kcatch, kmodify, mret, K_ret.
    by destruct (create_subshell language id k w) as [[[]] ?].
  - cbv [mbind K_bind kget]. destruct (bool_decide _); simpl; [|by apply Hdone]. unfold kmodify.
    assert (booked l q (with_routes (delete client) k)) as Hk' by done.
    destruct del; [|by apply Hdone]. destruct (shells k !! id) as [t|]; [|by apply Hdone].
    unfold stop_in_background, kmodify. simpl. destruct Hk as [Hb Hq]. split; [|done]. unfold command_book in *. simpl.
    rewrite omap_app. simpl. rewrite <- Hb. rewrite <- !app_assoc. simpl.
    rewrite (app_assoc (map _ _)), <- Permutation_middle. by rewrite <- app_assoc.
Qed.

Lemma books_run_loop l q c k w :
  booked l q k → ∃ q', booked l q' (run_loop ks language c k w).1.2 ∧ length q' ≤ length q.
Proof.
  intros Hk. assert (c = KCommand ∨ c ≠ KCommand) as [->|Hne] by (destruct c; auto).
  - simpl. cbv [mbind K_bind kget]. destruct Hk as [Hb Hq]. rewrite Hq. destruct q as [|cmd q]; [by exists []|].
    cbv [kmodify]. assert (booked (map answered (completed k) ++ omap closing (stops k) ++ map asked q) q (with_commands q k)) as Hk1 by done.
    pose proof (books_session_command _ _ cmd _ w Hk1) as [Hb2 Hq2].
    exists q. split; [|simpl; lia].
    destruct (session_command language cmd (with_commands q k) w) as [[[]] ?]; simpl in *; (split; [|done]);
      rewrite Hb2, <- Hb; unfold command_book; rewrite Hq; simpl; rewrite !app_assoc; apply Permutation_middle.
  - exists q. split; [|done]. enough (keeps (booked l q) (run_loop ks language c)) as Hc by by apply Hc.
    destruct c; simpl; try done; unfold drop_routes; keep_parts.
Qed.

Lemma books_kernel_step l q c k w :
  booked l q k → ∃ q', booked l q' (kernel_step ks language c k w).1 ∧ length q' ≤ length q.
Proof.
  intros Hk. unfold kernel_step. destruct (kphase k) as [|wt todo id st found reply req|wt todo r|r]; [| | |eauto].
  - destruct (books_run_loop l q c k w Hk) as (q' & Hb & Hq). exists q'. split; [|done].
    by destruct (run_loop ks language c k w) as [[[[]|]]].
  - pose proof (books_release_step l q wt todo id st found reply req k w Hk) as Hb. exists q. split; [|done].
    by destruct (release_step _ _ _ _ _ _ _ _ k w) as [[[]]].
  - pose proof (books_shutdown_step l q wt todo r k w Hk) as Hb. exists q. split; [|done].
    by destruct (shutdown_step wt todo r k w) as [[[]]].
Qed.

(** The three lists of the book. *)
Definition same_lists (k k' : Kernel Ses) : Prop :=
  completed k' = completed k ∧ stops k' = stops k ∧ commands k' = commands k.

Lemma same_lists_send_control k0 t c : keeps (same_lists k0) (send_control t c : KS bool).
Proof. unfold send_control. keep_parts; by apply keeps_kmodify. Qed.

(** The entry of a stop in the book. *)
Lemma book_stop i st k k' r :
  stops k !! i = Some st → same_lists k k' →
  option_list (closing st) ++ command_book (with_stops (replace_stop i r) k') ≡ₚ
  option_list (r ≫= closing) ++ command_book k.
Proof.
  intros Hi (Ec & Es & Eq). destruct (omap_replace_stop closing i st r (stops k) Hi) as (rest & E1 & E2).
  unfold command_book. simpl. rewrite Ec, Es, Eq, E1, E2. perm_app.
Qed.

(** A stop that ends answers the close that asked for it, unless the shell
    itself failed. *)
Lemma books_stop_step i st l q k w r k' w' :
  stops k !! i = Some st → stop_step ks st k w = (Ok r, k', w') → booked l q k →
  booked l q (with_stops (replace_stop i r) k') ∨
  ∃ n lost, booked lost q (with_stops (replace_stop i r) k') ∧ (n, false) :: lost ≡ₚ l ∧ some_shell_failed k'.
Proof.
  intros Hi Es [Hb Hq]. unfold stop_step, stop_shell in Es. destruct (st_sent st) eqn:Hs; simpl in Es.
  - unfold mbind, K_bind, kget in Es. destruct (task_result k (st_task st)) as [[[]|e]|] eqn:Et; simpl in Es.
    + destruct (st_done st) as [n|reply req] eqn:Ed; unfold kcatch in Es.
      * left. cbv [kmodify mret K_ret] in Es. injection Es as <- <- <-. split; [|done].
        pose proof (book_stop i st k k None Hi) as Hbk. unfold closing in Hbk. rewrite Ed in Hbk. simpl in Hbk.
        rewrite <- Hb, <- Hbk by done. unfold command_book. simpl. rewrite map_app, <- app_assoc. simpl. by rewrite <- Permutation_middle.
      * left. unfold io in Es. destruct (send_reply _ _ _ _ _ w) as [[u|e] w1]; unfold report_to_kernel in Es; simpl in Es;
          injection Es as <- <- <-; (split; [|done]); rewrite <- Hb;
          pose proof (book_stop i st k k None Hi) as Hbk; unfold closing in Hbk; rewrite Ed in Hbk; simpl in Hbk; by rewrite Hbk.
    + unfold io, report_to_kernel in Es. injection Es as <- <- <-.
      pose proof (book_stop i st k k None Hi) as Hbk. simpl in Hbk. unfold closing in Hbk. destruct (st_done st) as [n|] eqn:Ed.
      * right. exists n. eexists. split_and!; [split; [reflexivity|done]| |by eexists _, _]. simpl in Hbk. by rewrite Hbk.
      * left. split; [|done]. simpl in Hbk. by rewrite Hbk.
    + injection Es as <- <- <-. left. split; [|done]. rewrite <- Hb. pose proof (book_stop i st k k (Some st) Hi) as Hbk.
      simpl in Hbk. eapply Permutation_app_inv_l, Hbk. done.
  - left. match type of Es with ?m k w = _ => assert (keeps (same_lists k) m) as Hm end.
    { pose proof (same_lists_send_control k). keep_parts. }
    specialize (Hm k w). rewrite Es in Hm. specialize (Hm ltac:(done)). simpl in Hm.
    assert (r = Some (MkStop (st_task st) (st_interrupt st) true (st_done st))) as ->.
    { revert Es. cbv [mbind K_bind mret K_ret]. by repeat case_match; intros; simplify_eq. }
    pose proof (book_stop i st k k' (Some (MkStop (st_task st) (st_interrupt st) true (st_done st))) Hi Hm) as Hbk.
    split; [|by rewrite <- Hq; apply Hm]. rewrite <- Hb. eapply Permutation_app_inv_l, Hbk.
Qed.

(** ** The book over a run *)

Lemma some_shell_failed_grows (k k' : Kernel Ses) : kgrows k k' → some_shell_failed k → some_shell_failed k'.
Proof.
  intros Hg (t & e & E). exists t, e. specialize (Hg t). unfold task_result, task_shell in *.
  destruct (tasks k !! t) as [[ses s]|]; [|done]. destruct (tasks k' !! t) as [[ses' s']|]; [|done]. simpl in *.
  destruct Hg as [_ (arr & ctl & -> & Hr)]. unfold running in Hr. simpl. by destruct (phase s).
Qed.

Lemma some_shell_failed_step c c' : ksys_step ks language c c' → some_shell_failed c.1 → some_shell_failed c'.1.
Proof.
  intros Hs. destruct Hs as [| | | |k w c Hc|k w i st r k' w' Hi Es|k w t ses s l s' w' Ht Hl Hs]; try done.
  - intros Hf. destruct (kernel_step ks language c k w) as [k' w'] eqn:E. apply kernel_step_grows in E as [Hg _].
    by eapply some_shell_failed_grows.
  - intros Hf. pose proof (grows_stop_step ks st k w) as Hg. rewrite Es in Hg. by apply (some_shell_failed_grows k k') in Hf; [|apply Hg].
  - intros (t' & e & E). exists t', e. unfold task_result, task_shell in *. simpl in *. destruct (decide (t = t')) as [<-|];
      [|by rewrite lookup_insert_ne].
    rewrite Ht in E. simpl in E. destruct (phase s) eqn:Ep; try done. by inversion Hs; subst; unfold running in *; simplify_eq; rewrite Ep in *.
Qed.

Lemma command_book_run w0 sent c :
  commands_run w0 sent c →
  ∃ lost, map asked sent ≡ₚ command_book c.1 ++ lost ∧ Forall (λ a, a.2 = false) lost ∧ (lost ≠ [] → some_shell_failed c.1).
Proof.
  induction 1 as [|sent k w cmd Hr (lost & Hp & Hl & Hf)|sent k w k' w' Hr (lost & Hp & Hl & Hf) Hs Hq]; simpl in *.
  - by exists [].
  - exists lost. split_and!; [|done|done]. rewrite map_app, Hp. unfold command_book. simpl. rewrite map_app, !app_assoc. simpl.
    rewrite <- !app_assoc. do 3 f_equiv. simpl. apply Permutation_app_comm.
  - assert (booked (command_book k) (commands k) k) as Hk by done.
    pose proof (some_shell_failed_step _ _ Hs) as Hf'. simpl in Hf'.
    assert (booked (command_book k) (commands k') k' → ∃ lost0, map asked sent ≡ₚ command_book k' ++ lost0 ∧
      Forall (λ a, a.2 = false) lost0 ∧ (lost0 ≠ [] → some_shell_failed k')) as Hsame.
    { intros [Hb _]. exists lost. rewrite Hb. split_and!; auto. }
    inversion Hs; subst; auto.
    + simpl in Hq. rewrite length_app in Hq. simpl in Hq. lia.
    + match goal with E : _ = (k', w') |- _ => destruct (books_kernel_step _ _ c k w Hk) as (q' & Hb & _); rewrite E in Hb end.
      apply Hsame. split; [apply Hb | done].
    + match goal with E : stop_step _ _ _ _ = _, Hi : stops k !! _ = _ |- _ =>
        destruct (books_stop_step _ _ _ _ _ _ _ _ _ Hi E Hk) as [Hb|(n & l & Hb & Hn & Hfail)] end.
      * apply Hsame. split; [apply Hb | done].
      * exists ((n, false) :: lost). split_and!; [|by constructor|done].
        destruct Hb as [Hb _]. rewrite Hb, <- Permutation_middle. simpl in *. rewrite app_comm_cons. by rewrite Hn.
Qed.

Lemma commands_run_snoc w0 sent c c' :
  commands_run w0 sent c → ksys_step ks language c c' → ∃ sent', commands_run w0 sent' c'.
Proof.
  destruct c as [k w], c' as [k' w']. intros Hr Hs.
  destruct (decide (length (commands k') ≤ length (commands k))) as [Hq|Hq]; [eauto using cr_step|].
  inversion Hs; subst; simpl in *; try lia; [by eexists; apply cr_send| |].
  - match goal with E : _ = (k', w') |- _ =>
      destruct (books_kernel_step (command_book k) (commands k) c k w) as (q' & [_ Eq] & Hl); [done|]; rewrite E in Eq end.
    simpl in Eq. by rewrite Eq in Hq.
  - match goal with E : stop_step _ _ _ _ = _, Hi : stops k !! _ = _ |- _ =>
      destruct (books_stop_step _ _ (command_book k) (commands k) _ _ _ _ _ Hi E) as [[_ Eq]|(? & ? & [_ Eq] & _)]; [done| |] end;
      simpl in Eq; rewrite Eq in Hq; lia.
Qed.

Lemma reachable_commands_run w0 c : reachable ks language w0 c → ∃ sent, commands_run w0 sent c.
Proof. induction 1 as [|c c' Hr [sent IH] Hs]; [by exists []; constructor | by eapply commands_run_snoc]. Qed.

(** What a call of running code sends: nothing outside an execution. *)
Inductive subshell_call (ctx : ExecutionContext) (n : nat) : Result SessionCommand → Prop :=
| call_open id : subshell_call ctx n (context_open_subshell ctx id n)
| call_close id delete : subshell_call ctx n (context_close_subshell ctx id delete n).

(** The routes of every session but [client]. *)
Definition other_routes (client : string) (routes : gmap string string) (k : Kernel Ses) : Prop :=
  ∀ other, other ≠ client → route_overrides k !! other = routes !! other.

#[local] Hint Extern 1 (keeps (other_routes _ _) (kmodify _)) => (apply keeps_kmodify; intros ? Hr; exact Hr) : kern.

Lemma other_routes_modify client routes f :
  (∀ m other, other ≠ client → f m !! other = m !! other) → keeps (other_routes client routes) (kmodify (with_routes f) : KS unit).
Proof. intros Hf. apply keeps_kmodify. intros k Hk other Ho. simpl. rewrite Hf by done. auto. Qed.

Lemma other_routes_command client routes c :
  match c with Open c _ _ | Close c _ _ _ => c = client end → keeps (other_routes client routes) (session_command language c).
Proof.
  destruct c as [? id n|? id del n]; intros ->; simpl; unfold create_subshell, spawn_shell, stop_in_background; keep_parts;
    apply other_routes_modify; intros m other Ho; [by rewrite lookup_insert_ne | by rewrite lookup_delete_ne].
Qed.

(** (whose route) running code opens and closes routes only for the client
    session whose request it executes: the command its call sends leaves the
    route of every other session as it was.  Code that runs outside an execution
    cannot: its call fails at once, as unavailable. *)
Theorem subshell_calls_own_session request execution count n call k w :
  subshell_call (output_context request execution count) n call →
  match call with
  | Err e => execution = false ∧ error_kind e = Unavailable
  | Ok c => execution = true ∧ asked c = (n, match c with Open _ _ _ => true | Close _ _ _ _ => false end) ∧
      ∀ other, other ≠ client_session_of request →
        route_overrides (session_command language c k w).1.2 !! other = route_overrides k !! other
  end.
Proof.
  intros Hc.
  assert (∀ c, match c with Open c _ _ | Close c _ _ _ => c = client_session_of request end → ∀ other,
    other ≠ client_session_of request → route_overrides (session_command language c k w).1.2 !! other = route_overrides k !! other) as Hown.
  { intros c Hc' other Ho. by apply (other_routes_command (client_session_of request) (route_overrides k) c Hc' k w). }
  destruct Hc as [id|id del], execution; try done; (split_and!; [done..|]); by apply Hown.
Qed.

(** C35: (subshell commands) in every run of the kernel each call of
    [open_subshell] and [close_subshell] that sent its command is in exactly one
    place: answered, with the kind of answer its caller waits for; waiting for
    its subshell to stop; still in the channel; or left without an answer, which
    only a close can be, and only once a shell has failed.  With distinct
    channels, no caller is answered twice. *)
Theorem commands_accounted w0 sent k w :
  commands_run w0 sent (k, w) →
  ∃ lost, map asked sent ≡ₚ map answered (completed k) ++ omap closing (stops k) ++ map asked (commands k) ++ lost ∧
    Forall (λ a, a.2 = false) lost ∧ (lost ≠ [] → ∃ t e, task_result k t = Some (Err e)) ∧
    (NoDup (map asked sent) → NoDup (map answered (completed k))).
Proof.
  intros Hsent. destruct (command_book_run _ _ _ Hsent) as (lost & Hp & Hl & Hf). exists lost. simpl in *.
  unfold command_book in Hp. rewrite <- !app_assoc in Hp. split_and!; [done..|]. rewrite Hp. by intros [? _]%NoDup_app.
Qed.
End Commands.
