(* ===== verification/ControlRequests.v ===== *)
(** * What the main loop promises (src/src/engine.rs, control and shell requests)

    The properties of the main loop: its tables, routing, interrupts, subshells
    and the routes of client sessions. *)

From Stdlib Require Import ZArith.
From stdpp Require Import base gmap sets list strings.
From S2P Require Import Prelude Json Errors Wire Language Services Queue Requests Shell Kernel System Routing.

Section Promises.
Context `{JsonTotal} {Ses : Type} `{LanguageSession Ses} {L : Type} `{Language L Ses} (ks : KernelServices) (language : L).
#[local] Notation KS := (@K Ses).

(** C24: (the tables) at every moment of a running kernel, every shell in the
    table is a task of its own (no two ids share one), and no client session is
    routed to the empty id. *)
Theorem kernel_tables w0 (k : Kernel Ses) w :
  reachable ks language w0 (k, w) →
  (∀ id t, shells k !! id = Some t → is_Some (tasks k !! t)) ∧
  (∀ id id' t, shells k !! id = Some t → shells k !! id' = Some t → id = id') ∧
  (∀ c, route_overrides k !! c ≠ Some "").
Proof.
  intros [Ht Hi Hr]%reachable_ok. split_and!; [done..|]. intros c E. by destruct (Hr c "").
Qed.

(** ** Routing *)

(** The header of [inb] names the subshell [id]. *)
Definition names (inb : Inbound) (id : string) : Prop :=
  map_get (header (in_message inb)) "subshell_id" = Some (Str id) ∧ id ≠ "".

(** Where a shell request belongs, from its header and the routes of the client
    sessions. *)
Inductive destined (routes : gmap string string) (inb : Inbound) : string → Prop :=
| to_named id : names inb id → destined routes inb id
| to_route id :
    (∀ id', ¬ names inb id') → msg_type (in_message inb) = "execute_request" →
    routes !! unwrap_or (mget_str (header (in_message inb)) "session") "" = Some id → destined routes inb id
| to_parent :
    (∀ id', ¬ names inb id') →
    (msg_type (in_message inb) = "execute_request" → routes !! unwrap_or (mget_str (header (in_message inb)) "session") "" = None) →
    destined routes inb "".

Lemma names_subshell inb id : names inb id → subshell_id (in_message inb) = id.
Proof. intros [E Hne]. unfold subshell_id, mget_str. rewrite E. simpl. by rewrite bool_decide_false. Qed.

Lemma subshell_names inb : subshell_id (in_message inb) ≠ "" → names inb (subshell_id (in_message inb)).
Proof.
  unfold subshell_id, mget_str, names. destruct (map_get _ _) as [v|]; [|done]. destruct v; try done. simpl.
  case_bool_decide as Hs; simpl; [done|]. by intros.
Qed.

(** A request belongs to exactly one id, which is where [route_shell] looks. *)
Lemma destined_target routes inb id : destined routes inb id ↔ id = target_id inb routes.
Proof.
  assert ((∀ id', ¬ names inb id') → subshell_id (in_message inb) = "") as Hno.
  { intros Hn. destruct (decide (subshell_id (in_message inb) = "")) as [|Hne]; [done|]. by destruct (Hn _ (subshell_names inb Hne)). }
  unfold target_id, is_execute, client_session_of. split.
  - destruct 1 as [id Hn|id Hn%Hno Hx Hr|Hn%Hno Hr].
    + rewrite (names_subshell inb id Hn). by rewrite bool_decide_false by apply Hn.
    + rewrite Hn, (bool_decide_true _ Hx). simpl. by rewrite Hr.
    + rewrite Hn. simpl. case_bool_decide; [|done]. by rewrite Hr.
  - intros ->. destruct (decide (subshell_id (in_message inb) = "")) as [E|Hne].
    2: { rewrite bool_decide_false by done. by apply to_named, subshell_names. }
    assert (∀ id', ¬ names inb id') as Hn by (intros id' Hid; pose proof (names_subshell _ _ Hid); destruct Hid; congruence).
    rewrite E. simpl. case_bool_decide as Hx; [|by apply to_parent].
    destruct (routes !! _) as [id|] eqn:Er; simpl; [by apply to_route | by apply to_parent].
Qed.

(** C14: (routing) a shell request goes to exactly one place.  It is for the
    subshell its header names, which is created if it does not exist; without a
    name, an execute request goes where its client session is routed, and
    everything else to the parent.  Either it is put at the end of the channel
    of that shell, and of no other, and nothing is said; or there is no running
    shell to take it, and a request is answered exactly once with an error reply
    (SubshellCreationError if the shell it names could not be created,
    SubshellNotFound otherwise), nothing else changing.  Routing itself never
    fails. *)
Theorem route_shell_delivers inb (k : Kernel Ses) w :
  ∃ id, destined (route_overrides k) inb id ∧ (∀ id', destined (route_overrides k) inb id' → id' = id) ∧
  ∃ k' w', route_shell ks language inb k w = (Ok tt, k', w') ∧
    ((∃ k1 t, (k1 = k ∨ (shells k !! id = None ∧ names inb id ∧ ∃ child, k1 = add_shell id child k)) ∧
        shells k1 !! id = Some t ∧ delivered k1 k' t inb ∧ trace w' = trace w) ∨
     ((∀ t, shells k !! id = Some t → live k t = false) ∧ k' = k ∧ answers (trace w') = answers (trace w) ++ answer_key inb ∧
      ∃ en, refused inb en w w' ∧
        (names inb id ∧ shells k !! id = None ∧ en = "SubshellCreationError" ∨
         ¬ (names inb id ∧ shells k !! id = None) ∧ en = "SubshellNotFound"))).
Proof.
  set (id := target_id inb (route_overrides k)). assert (destined (route_overrides k) inb id) as Hd by by apply destined_target.
  exists id. split_and!; [done | by intros id' ->%destined_target|].
  destruct (route_shell_run ks language inb k w) as (k' & w' & E & Hr). exists k', w'. split; [done|]. fold id in Hr.
  destruct Hr as [(k1 & t & Hk1 & Ht & Hdel & Hw)|(Hno & -> & Ha & Hrf)].
  - left. exists k1, t. split_and!; [|done..]. destruct Hk1 as [|(Hn & Hid & Hne & Hc)]; [by left|]. right. split_and!; [done| |done].
    rewrite <- Hid. apply subshell_names. by rewrite Hid.
  - right. split_and!; [done..|]. exists (refusal inb k). split; [done|]. unfold refusal. fold id.
    destruct (decide (subshell_id (in_message inb) = "")) as [Es|Hne].
    + right. rewrite bool_decide_true by done. simpl. split; [|done]. intros [Hn _]. pose proof (names_subshell _ _ Hn). destruct Hn. congruence.
    + rewrite bool_decide_false by done. simpl. assert (names inb id) as Hn.
      { unfold id, target_id. rewrite bool_decide_false by done. by apply subshell_names. }
      destruct (shells k !! id) as [t|] eqn:Et; [right|left].
      * rewrite bool_decide_true by (by eexists). split; [|done]. by intros [_ ?].
      * by rewrite bool_decide_false by (by intros [? ?]).
Qed.

(** ** Interrupts *)

Definition all_live (k : Kernel Ses) : Prop := ∀ id t, shells k !! id = Some t → live k t = true.

(** [inb] reached a shell of the table, or was answered. *)
Definition handed (k : Kernel Ses) (w : World) (inb : Inbound) : Prop :=
  (∃ id t s, shells k !! id = Some t ∧ task_shell k t = Some s ∧ inb ∈ incoming s) ∨
  (is_request_message inb = true → request_key inb ∈ answers (trace w)).

Lemma delivered_shell (k k' : Kernel Ses) t inb t' s :
  delivered k k' t inb → task_shell k t' = Some s →
  ∃ s', task_shell k' t' = Some s' ∧ running s' = running s ∧ (∀ i, i ∈ incoming s → i ∈ incoming s') ∧ controls s' = controls s.
Proof.
  intros (ses & s0 & Et & _ & Ek & _) Es. unfold task_shell in *. rewrite Ek. destruct (decide (t = t')) as [<-|Hne].
  - rewrite lookup_insert_eq. rewrite Et in Es. injection Es as <-. eexists. split; [reflexivity|]. simpl. set_solver.
  - rewrite lookup_insert_ne by done. eauto.
Qed.

Lemma route_shell_live inb (k : Kernel Ses) w :
  all_live k → ∃ k' w', route_shell ks language inb k w = (Ok tt, k', w') ∧ all_live k' ∧ shell_queue k' = shell_queue k ∧
    handed k' w' inb ∧ ∀ i, handed k w i → handed k' w' i.
Proof.
  intros Hlive. destruct (route_shell_run ks language inb k w) as (k' & w' & E & Hr). exists k', w'. split; [done|].
  destruct Hr as [(k1 & t & Hk1 & Es & Hd & Ea)|(_ & -> & Ea & _)].
  - assert (all_live k1 ∧ shell_queue k1 = shell_queue k ∧ ∀ id0 t0 s, shells k !! id0 = Some t0 → task_shell k t0 = Some s →
      shells k1 !! id0 = Some t0 ∧ task_shell k1 t0 = Some s) as (Hl1 & Hq1 & Hext).
    { destruct Hk1 as [->|(Hno & _ & _ & child & ->)]; [done|]. unfold add_shell, all_live, live, task_shell. simpl. pose proof (fresh_task k) as Hf.
      split_and!; [|done|].
      - intros id0 t0 [[<- <-]|[_ E0]]%lookup_insert_Some; [by rewrite lookup_insert_eq|].
        destruct (decide (fresh (dom (tasks k)) = t0)) as [<-|]; [by rewrite lookup_insert_eq|].
        rewrite lookup_insert_ne by done. apply (Hlive id0 t0 E0).
      - intros id0 t0 s E0 E1. split; [rewrite lookup_insert_ne by congruence; done|].
        rewrite lookup_insert_ne; [done|]. intros <-. by rewrite Hf in E1. }
    pose proof Hd as (ses & s & Et & Hrun & Ek & Esh & _ & Eq). split_and!.
    + intros id0 t0 E0. rewrite Esh in E0. specialize (Hl1 _ _ E0). unfold live in *.
      destruct (task_shell k1 t0) as [s0|] eqn:E1; [|done].
      destruct (delivered_shell _ _ _ _ _ _ Hd E1) as (s' & -> & -> & _). done.
    + congruence.
    + left. exists (target_id inb (route_overrides k)), t. unfold task_shell. rewrite Esh, Ek, lookup_insert_eq.
      eexists. split_and!; [done | reflexivity | simpl; set_solver].
    + intros i [(id0 & t0 & s0 & E0 & E1 & Hi)|Hi]; [left|right; rewrite Ea; auto].
      destruct (Hext _ _ _ E0 E1) as [E0' E1']. destruct (delivered_shell _ _ _ _ _ _ Hd E1') as (s' & E2 & _ & Hin & _).
      exists id0, t0, s'. rewrite Esh. auto.
  - split_and!; [done..| |].
    + right. intros Hrq. rewrite Ea. unfold answer_key. rewrite Hrq. set_solver.
    + intros i [Hi|Hi]; [by left | right; intros Hrq; rewrite Ea; set_solver].
Qed.

Lemma route_pending_live n (k : Kernel Ses) w :
  all_live k → length (shell_queue k) ≤ n →
  ∃ k' w', route_pending ks language n k w = (Ok tt, k', w') ∧ all_live k' ∧ shell_queue k' = [] ∧
    (∀ i, i ∈ shell_queue k → handed k' w' i) ∧ ∀ i, handed k w i → handed k' w' i.
Proof.
  revert k w. induction n as [|n IH]; intros k w Hl Hn; simpl.
  { destruct (shell_queue k) eqn:Eq; simpl in Hn; [|lia]. exists k, w. split_and!; auto. by intros i ?%elem_of_nil. }
  unfold kget, mbind at 1, K_bind at 1. destruct (shell_queue k) as [|i q] eqn:Eq.
  { exists k, w. split_and!; auto. by intros i ?%elem_of_nil. }
  unfold kmodify, mbind at 1, K_bind at 1.
  destruct (route_shell_live i (with_shell_queue q k) w Hl) as (k1 & w1 & E1 & Hl1 & Hq1 & Hi1 & Hm1). simpl in Hq1.
  rewrite (kbind_ok _ _ _ _ _ _ _ E1).
  destruct (IH k1 w1 Hl1) as (k2 & w2 & E2 & Hl2 & Hq2 & Hi2 & Hm2); [simpl in Hn; rewrite Hq1; lia|].
  exists k2, w2. split_and!; auto. intros j [->|Hj]%elem_of_cons; auto. apply Hi2. by rewrite Hq1.
Qed.

Definition push_control (c : ShellControl) (s : Shell) : Shell := set_controls s (controls s ++ [c]).

Lemma task_shell_update t f (k : Kernel Ses) t' :
  task_shell (update_shell t f k) t' = if decide (t = t') then f <$> task_shell k t' else task_shell k t'.
Proof.
  unfold task_shell, update_shell. simpl. case_decide as Ht.
  - subst. rewrite lookup_alter_eq. by destruct (tasks k !! t').
  - by rewrite lookup_alter_ne.
Qed.

Lemma send_control_or_fail_run t c (k : Kernel Ses) w :
  send_control_or_fail t c k w =
    if live k t then (Ok tt, update_shell t (push_control c) k, w) else (Err from_send_error, k, w).
Proof. unfold send_control_or_fail, send_control, mbind, K_bind, kget. by destruct (live k t). Qed.

Lemma live_push t c (k : Kernel Ses) t' : live (update_shell t (push_control c) k) t' = live k t'.
Proof. unfold live. rewrite task_shell_update. case_decide; [|done]. by destruct (task_shell k t'). Qed.

Lemma interrupt_each ts (k : Kernel Ses) w :
  NoDup ts → (∀ t, t ∈ ts → live k t = true) →
  ∃ k', kfor_each (λ t, send_control_or_fail t Interrupt) ts k w = (Ok tt, k', w) ∧
    shells k' = shells k ∧ shell_queue k' = shell_queue k ∧
    ∀ t, task_shell k' t = if decide (t ∈ ts) then push_control Interrupt <$> task_shell k t else task_shell k t.
Proof.
  revert k. induction ts as [|t ts IH]; intros k Hnd Hl; simpl.
  { by exists k. }
  apply NoDup_cons in Hnd as [Hni Hnd].
  rewrite (kbind_ok _ _ _ _ tt (update_shell t (push_control Interrupt) k) w).
  2: { rewrite send_control_or_fail_run, Hl; [done|left]. }
  destruct (IH (update_shell t (push_control Interrupt) k)) as (k' & E & Es & Eq & Et); [done| |].
  { intros t' Ht'. rewrite live_push. apply Hl. by right. }
  exists k'. split_and!; try done. intros t'. rewrite Et, task_shell_update.
  repeat case_decide; subst; try done; set_solver.
Qed.

Lemma shell_tasks_nodup (k : Kernel Ses) : kernel_ok k → NoDup (shell_tasks k).
Proof.
  intros Hk. unfold shell_tasks. apply NoDup_fmap_2_strong; [|apply NoDup_map_to_list].
  intros [i t] [i' t'] Hi%elem_of_map_to_list Hi'%elem_of_map_to_list. simpl. intros <-. f_equal. by eapply ok_inj.
Qed.

Lemma elem_of_shell_tasks (k : Kernel Ses) t : t ∈ shell_tasks k ↔ ∃ id, shells k !! id = Some t.
Proof.
  unfold shell_tasks. rewrite list_elem_of_fmap. split.
  - intros ([i t'] & -> & Hi%elem_of_map_to_list). eauto.
  - intros [id Hi]. exists (id, t). split; [done|]. by apply elem_of_map_to_list.
Qed.

(** C22: (interrupting the kernel) in a kernel with consistent tables, as every
    running kernel has them, whose shells in the table all run, an interrupt request
    first routes every shell request that has already arrived (each reaches a
    shell or is answered), so that they are before the interrupt; then sends
    one interrupt to every shell of the table, touching no other task; then
    replies. *)
Theorem interrupt_request_effect inb (k : Kernel Ses) w :
  kernel_ok k → all_live k → msg_type (in_message inb) = "interrupt_request" →
  ∃ k1 w1 k' w',
    route_pending_shells ks language k w = (Ok tt, k1, w1) ∧ shell_queue k1 = [] ∧ (∀ i, i ∈ shell_queue k → handed k1 w1 i) ∧
    handle_control ks language inb k w = (Ok false, k', w') ∧ shells k' = shells k1 ∧ shell_queue k' = [] ∧
    (∀ id t s, shells k1 !! id = Some t → task_shell k1 t = Some s → task_shell k' t = Some (push_control Interrupt s)) ∧
    (∀ t, (∀ id, shells k1 !! id ≠ Some t) → task_shell k' t = task_shell k1 t) ∧
    protocol (obs w') = protocol (obs w1) ++ [ORep (in_reply inb) (header (in_message inb)) "interrupt_reply" (Obj [("status", Str "ok")])].
Proof.
  intros Hk Hl Hm. destruct (route_pending_live (length (shell_queue k)) k w Hl) as (k1 & w1 & E1 & Hl1 & Hq1 & Hh1 & _); [done|].
  assert (kernel_ok k1) as Hk1.
  { pose proof (keeps_route_pending ks language (length (shell_queue k)) k w Hk) as Hp. by rewrite E1 in Hp. }
  destruct (interrupt_each (shell_tasks k1) k1 w1 (shell_tasks_nodup k1 Hk1)) as (k2 & E2 & Es & Eq & Et).
  { intros t [id Hi]%elem_of_shell_tasks. by eapply Hl1. }
  destruct (emits_send_reply ks (in_reply inb) (in_message inb) "interrupt_reply" (Obj [("status", Str "ok")]) w1) as (w2 & E3 & Ho & _).
  exists k1, w1, k2, w2. split_and!; try done; [| congruence | |].
  - unfold handle_control. cbv zeta. rewrite Hm. rewrite decide_False, decide_True by done.
    rewrite (kbind_ok (route_pending_shells ks language) _ _ _ tt k1 w1) by exact E1. unfold interrupt_shells. rewrite (kbind_ok _ _ _ _ tt k2 w1) by exact E2.
    by rewrite (kbind_ok _ _ _ _ tt k2 w2) by exact (io_run _ _ _ _ _ E3).
  - intros id t s Hi Hs. rewrite Et, decide_True, Hs; [done|]. apply elem_of_shell_tasks. eauto.
  - intros t Hno. rewrite Et, decide_False; [done|]. intros [id Hi]%elem_of_shell_tasks. by eapply Hno.
Qed.

Lemma interrupt_each_ended ts (k : Kernel Ses) w t :
  t ∈ ts → live k t = false → ∃ k', kfor_each (λ t, send_control_or_fail t Interrupt) ts k w = (Err from_send_error, k', w).
Proof.
  revert k. induction ts as [|t' ts IH]; intros k Ht Hl; [by apply elem_of_nil in Ht|]. simpl.
  pose proof (send_control_or_fail_run t' Interrupt k w) as E. destruct (live k t') eqn:Hl'.
  - rewrite (kbind_ok _ _ _ _ _ _ _ E). apply elem_of_cons in Ht as [->|Ht]; [congruence|]. apply IH; [done|]. by rewrite live_push.
  - rewrite (kbind_err _ _ _ _ _ _ _ E). eauto.
Qed.

(** (a subshell that has just ended) if a shell of the table has ended and
    the main loop has not noticed yet, an interrupt ends the whole kernel: the
    send to the ended shell fails, and the loop leaves with that error.  This is
    how the code behaves; a client can bring it about with a shutdown request
    to a subshell followed by an interrupt. *)
Theorem interrupt_after_end_stops_kernel (k : Kernel Ses) w id t :
  kphase k = KLoop → shells k !! id = Some t → live k t = false →
  ∃ todo, kphase (kernel_step ks language KInterrupted k w).1 = KStopping None todo (Err (error_closed "kernel service")).
Proof.
  intros Hp Hi Hl. unfold kernel_step. rewrite Hp. simpl. unfold interrupt_shells.
  destruct (interrupt_each_ended (shell_tasks k) k w t) as [k' E]; [apply elem_of_shell_tasks; eauto | done|].
  rewrite (kbind_err _ _ _ _ from_send_error k' w); [simpl; eauto|]. exact E.
Qed.

(** ** Subshells *)

(** The types of the control requests that answer at once. *)
Definition deferred_types : list string := ["interrupt_request"; "delete_subshell_request"; "release_request"].

Definition control_reply (sink : nat) (req : Message) (mt : string) (c : Value) : Obs := ORep sink (header req) mt c.

(** (creating a subshell) on a kernel with subshells, a create request
    always gets one reply and nothing else is shown.  If the reply is ok, the id
    it names is not empty, is the requested one if one was requested, and is in
    the table; if it was not there before, a shell in its initial state was
    added under it and nothing else changed; if it was, nothing changed.  If the
    reply is an error, nothing changed. *)
Theorem create_request_effect inb (k : Kernel Ses) w :
  msg_type (in_message inb) = "create_subshell_request" → supports_children language = true →
  ∃ r k' w', handle_control ks language inb k w = (Ok false, k', w') ∧
    protocol (obs w') = protocol (obs w) ++
      [control_reply (in_reply inb) (in_message inb) "create_subshell_reply"
        (match r with
         | Ok id => Obj [("status", Str "ok"); ("subshell_id", Str id)]
         | Err e => subshell_error_content "SubshellCreationError" (to_string e)
         end)] ∧
    match r with
    | Ok id => id ≠ "" ∧ is_Some (shells k' !! id) ∧ (∀ i, get_str (content (in_message inb)) "subshell_id" = Some i → id = i) ∧
        ((k' = k ∧ is_Some (shells k !! id)) ∨ (shells k !! id = None ∧ ∃ child, k' = add_shell id child k))
    | Err _ => k' = k
    end.
Proof.
  intros Hm Hs. unfold handle_control. cbv zeta. rewrite Hm, Hs. rewrite !decide_False, decide_True by done. simpl.
  destruct (create_subshell_run language (get_str (content (in_message inb)) "subshell_id") k w) as (r & k1 & w1 & E & Ht & Hr).
  set (c := match r with Ok id => Obj [("status", Str "ok"); ("subshell_id", Str id)]
                       | Err e => subshell_error_content "SubshellCreationError" (to_string e) end).
  destruct (emits_send_reply ks (in_reply inb) (in_message inb) "create_subshell_reply" c w1) as (w2 & E2 & Ho & _).
  exists r, k1, w2. split_and!.
  - rewrite (kbind_ok _ _ _ _ r k1 w1) by (unfold kcatch; by rewrite E).
    by rewrite (kbind_ok _ _ _ _ tt k1 w2) by exact (io_run _ _ _ _ _ E2).
  - rewrite Ho. unfold obs. by rewrite Ht.
  - destruct r as [id|e]; [|done]. destruct Hr as (Hne & _ & Hi & Hk). split_and!; auto.
    destruct Hk as [[-> ?]|[_ [child ->]]]; [done|]. destruct (live_add_shell id child k) as [-> _]. eauto.
Qed.

(** The reply to a list request names exactly the subshells of
    the table, each once, without the parent. *)
Lemma list_request_effect inb (k : Kernel Ses) w :
  msg_type (in_message inb) = "list_subshell_request" →
  ∃ ids w', handle_control ks language inb k w = (Ok false, k, w') ∧
    protocol (obs w') = protocol (obs w) ++
      [control_reply (in_reply inb) (in_message inb) "list_subshell_reply" (Obj [("status", Str "ok"); ("subshell_id", Arr (map Str ids))])] ∧
    NoDup ids ∧ ∀ id, id ∈ ids ↔ id ≠ "" ∧ is_Some (shells k !! id).
Proof.
  intros Hm. unfold handle_control. cbv zeta. rewrite Hm. rewrite !decide_False, decide_True by done.
  set (ids := filter (λ id, id ≠ "") (shell_ids k)).
  destruct (emits_send_reply ks (in_reply inb) (in_message inb) "list_subshell_reply"
    (Obj [("status", Str "ok"); ("subshell_id", Arr (map Str ids))]) w) as (w2 & E2 & Ho & _).
  exists ids, w2. split_and!; [|done| |].
  - rewrite (kbind_ok _ _ _ _ ids k w) by done. by rewrite (kbind_ok _ _ _ _ tt k w2) by exact (io_run _ _ _ _ _ E2).
  - apply NoDup_filter, NoDup_fst_map_to_list.
  - intros id. unfold ids, shell_ids. rewrite list_elem_of_filter, list_elem_of_fmap. split.
    + intros (Hne & [i t] & -> & Hi%elem_of_map_to_list). simpl in *. eauto.
    + intros (Hne & t & Ht). split; [done|]. exists (id, t). split; [done|]. by apply elem_of_map_to_list.
Qed.

Lemma delete_request_run inb (k : Kernel Ses) w t :
  let id := unwrap_or (get_str (content (in_message inb)) "subshell_id") "" in
  msg_type (in_message inb) = "delete_subshell_request" → shells k !! id = Some t →
  handle_control ks language inb k w =
    (Ok false, with_stops (λ l, l ++ [MkStop t true false (AnswerDelete (in_reply inb) (in_message inb))])
      (drop_routes id (with_shells (delete id) k)), w).
Proof.
  intros id Hm Ht. unfold handle_control. cbv zeta. rewrite Hm. rewrite !decide_False, decide_True by done. fold id.
  rewrite (kbind_ok _ _ _ _ (Some t) k w); [done|]. unfold kget. by rewrite Ht.
Qed.

(** (deleting a subshell) deleting a shell takes it and every route to it
    out of the tables at once and leaves all other shells and routes; the shell
    is interrupted and stopped in the background and the reply is sent only
    when it has ended, so nothing is shown yet. *)
Theorem delete_request_effect inb (k : Kernel Ses) w t :
  let id := unwrap_or (get_str (content (in_message inb)) "subshell_id") "" in
  msg_type (in_message inb) = "delete_subshell_request" → shells k !! id = Some t →
  ∃ k', handle_control ks language inb k w = (Ok false, k', w) ∧ shells k' = delete id (shells k) ∧ tasks k' = tasks k ∧
    (∀ c i, route_overrides k' !! c = Some i ↔ route_overrides k !! c = Some i ∧ i ≠ id) ∧
    stops k' = stops k ++ [MkStop t true false (AnswerDelete (in_reply inb) (in_message inb))].
Proof.
  intros id Hm Ht. eexists. split; [by apply (delete_request_run inb k w t)|]. split_and!; try done.
  intros c i. simpl. by rewrite map_lookup_filter_Some.
Qed.

(** (a delete request without an id) removes the parent's shell: afterwards
    a shell request for the parent is refused although the kernel runs on.  This
    is how the code behaves. *)
Theorem delete_without_id_removes_parent inb (k : Kernel Ses) w t req w2 :
  msg_type (in_message inb) = "delete_subshell_request" → get_str (content (in_message inb)) "subshell_id" = None →
  shells k !! "" = Some t → route_overrides k = ∅ → subshell_id (in_message req) = "" → is_request_message req = true →
  ∃ k', handle_control ks language inb k w = (Ok false, k', w) ∧ kphase k' = kphase k ∧
    ∃ w3, route_shell ks language req k' w2 = (Ok tt, k', w3) ∧ answers (trace w3) = answers (trace w2) ++ [request_key req].
Proof.
  intros Hm Hno Ht Hr Hs Hrq. pose proof (delete_request_run inb k w t) as E. rewrite Hno in E.
  eexists. split; [by apply E|]. split; [done|]. set (k' := with_stops _ _).
  assert (target_id req (route_overrides k') = "") as Hid.
  { unfold target_id. rewrite Hs. simpl. rewrite Hr, map_filter_empty, lookup_empty. by destruct (is_execute req). }
  assert (shells k' !! "" = None) as Hn by apply lookup_delete_eq.
  destruct (route_shell_run ks language req k' w2) as (k2 & w3 & E2 & Hc). rewrite Hid in Hc.
  destruct Hc as [(k1 & t1 & Hk1 & Ht1 & Hd & _)|(_ & -> & Ha & _)].
  - destruct Hk1 as [->|(_ & _ & Hne & _)]; [congruence | done].
  - exists w3. split; [done|]. rewrite Ha. unfold answer_key. by rewrite Hrq.
Qed.

(** ** Routes of client sessions *)

Lemma close_run client id delete_it n (k : Kernel Ses) w :
  route_overrides k !! client = Some id →
  session_command language (Close client id delete_it n) k w =
    match (if delete_it then shells k !! id else None) with
    | Some t => (Ok tt, with_stops (λ l, l ++ [MkStop t false false (AnswerClose n)])
                  (with_shells (delete id) (with_routes (delete client) k)), w)
    | None => (Ok tt, with_completed (n, RouteClosed (Ok tt)) (with_routes (delete client) k), w)
    end.
Proof.
  intros Hr. simpl. rewrite (kbind_ok _ _ _ _ true k w) by (unfold kget; by rewrite bool_decide_true). simpl.
  unfold kmodify at 1. unfold mbind at 1, K_bind at 1. unfold kget, mbind, K_bind. simpl.
  by destruct delete_it; [destruct (shells k !! id)|].
Qed.

(** (opening and closing a route) running code of a client session without
    a route opens one to a subshell and closes it again, keeping the subshell:
    both are confirmed, the table of routes is as before, and the subshell is
    in the table of shells.  While the route is open a second open is refused. *)
Theorem open_close_roundtrip client id n m (k : Kernel Ses) w :
  id ≠ "" → supports_children language = true → (∀ i, is_ok (create_child language i) = true) →
  route_overrides k !! client = None →
  ∃ k1 w1 k2 w2 k3,
    session_command language (Open client (Some id) n) k w = (Ok tt, k1, w1) ∧ route_overrides k1 = <[client := id]> (route_overrides k) ∧
    session_command language (Open client (Some id) m) k1 w1 = (Ok tt, k2, w2) ∧
    completed k2 = completed k ++ [(n, RouteOpened (Ok id));
      (m, RouteOpened (Err (error_new InvalidInput "this client session already has a subshell route")))] ∧
    session_command language (Close client id false m) k2 w2 = (Ok tt, k3, w2) ∧
    route_overrides k3 = route_overrides k ∧ is_Some (shells k3 !! id) ∧
    completed k3 = completed k2 ++ [(m, RouteClosed (Ok tt))].
Proof.
  intros Hne Hs Hc Hr. destruct (create_subshell_run language (Some id) k w) as (r & k0 & w0 & E & _ & Hres).
  assert (r = Ok id) as ->.
  { revert E. unfold create_subshell. rewrite (kbind_ok _ _ _ _ id k w) by done. rewrite decide_False, Hs by done. simpl.
    destruct r as [id'|e]; [by destruct Hres as (_ & _ & Hi & _); rewrite (Hi id)|]. unfold kget, mbind, K_bind. simpl.
    case_bool_decide; [done|]. unfold io, call, next_tick, lift, mbind, M_bind, mret, M_ret. specialize (Hc (tick w)).
    by destruct (create_child language (tick w)). }
  destruct Hres as (_ & _ & _ & Hk0).
  assert (is_Some (shells k0 !! id) ∧ route_overrides k0 = route_overrides k ∧ completed k0 = completed k) as (Hs0 & Hr0 & Hc0).
  { destruct Hk0 as [[-> ?]|[_ [child ->]]]; [done|]. destruct (live_add_shell id child k) as [-> _]. done. }
  set (k1 := with_completed (n, RouteOpened (Ok id)) (with_routes (<[client := id]>) k0)).
  set (k2 := with_completed (m, RouteOpened (Err (error_new InvalidInput "this client session already has a subshell route"))) k1).
  assert (route_overrides k2 !! client = Some id) as Hr2 by apply lookup_insert_eq.
  exists k1, w0, k2, w0. eexists. split_and!.
  - simpl. unfold kget, mbind, K_bind. rewrite Hr. simpl. unfold kcatch. by rewrite E.
  - simpl. by rewrite Hr0.
  - simpl. unfold kget, mbind, K_bind. simpl. by rewrite lookup_insert_eq.
  - simpl. by rewrite Hc0, <- app_assoc.
  - rewrite (close_run client id false m k2 w0 Hr2). reflexivity.
  - simpl. by rewrite Hr0, delete_insert_id.
  - done.
  - done.
Qed.

(** (closing a shared subshell) if two client sessions are routed to one
    subshell and one of them closes its route deleting the subshell, the other
    keeps a route to a shell that is no longer in the table, so its execute
    requests are refused.  This is how the code behaves; the request to delete
    a subshell drops all routes to it. *)
Theorem close_delete_leaves_route c1 c2 id n t (k : Kernel Ses) w :
  c1 ≠ c2 → route_overrides k !! c1 = Some id → route_overrides k !! c2 = Some id → shells k !! id = Some t →
  ∃ k', session_command language (Close c1 id true n) k w = (Ok tt, k', w) ∧
    route_overrides k' !! c2 = Some id ∧ shells k' !! id = None ∧
    ∀ inb w1, is_execute inb = true → subshell_id (in_message inb) = "" → client_session_of (in_message inb) = c2 → id ≠ "" →
      ∃ w2, route_shell ks language inb k' w1 = (Ok tt, k', w2) ∧ answers (trace w2) = answers (trace w1) ++ [request_key inb].
Proof.
  intros Hne H1' H2' Ht. rewrite (close_run c1 id true n k w H1'), Ht. eexists. split; [reflexivity|].
  set (k' := with_stops _ _). assert (route_overrides k' !! c2 = Some id) as Hr by (simpl; by rewrite lookup_delete_ne).
  assert (shells k' !! id = None) as Hn by apply lookup_delete_eq. split_and!; [done..|].
  intros inb w1 Hx Hs Hc Hid.
  assert (target_id inb (route_overrides k') = id) as Htgt by (unfold target_id; by rewrite Hs, Hx, Hc, Hr).
  destruct (route_shell_run ks language inb k' w1) as (k2 & w2 & E2 & Hcase). rewrite Htgt in Hcase.
  destruct Hcase as [(k1 & t1 & [->|(_ & He & _)] & Ht1 & _)|(_ & -> & Ha & _)]; [congruence..|].
  exists w2. split; [done|]. rewrite Ha. unfold answer_key, is_request_message. apply bool_decide_eq_true in Hx. by rewrite Hx.
Qed.

(** ** Answers *)

Lemma debug_control_answers req sink w :
  ∃ w', debug_control ks language req sink w = (Ok tt, w') ∧ answers (trace w') = answers (trace w) ++ [(sink, header req)].
Proof.
  assert (total (debug_control ks language req sink)) as Ht.
  { unfold debug_control, debug_result. apply total_bind; [auto with kern|intros _].
    apply total_bind; [intros w0; do 2 eexists; reflexivity|intros r]. apply total_bind; [auto with kern|intros _].
    apply total_bind; [|auto with kern]. case_match; auto using total_for_each with kern. }
  assert (answers_one (debug_control ks language req sink) (sink, header req)) as Ha.
  { unfold debug_control, debug_result. apply answers_one_after; [quiet | auto with kern | intros _].
    apply answers_one_after; [quiet; apply quiet_call | intros w0; do 2 eexists; reflexivity | intros r].
    apply answers_one_before; [auto with kern | quiet]. }
  destruct (Ht w) as ([] & w' & E). exists w'. split; [done|]. specialize (Ha w). by rewrite E in Ha.
Qed.

(** (control requests are answered) every control request other than an
    interrupt, a delete and a release (whose replies wait for shells) is handled
    without failing and answered exactly once, to its sender. *)
Theorem control_request_answered inb (k : Kernel Ses) w :
  is_request_message inb = true → msg_type (in_message inb) ∉ deferred_types →
  ∃ b k' w', handle_control ks language inb k w = (Ok b, k', w') ∧ answers (trace w') = answers (trace w) ++ [request_key inb].
Proof.
  intros Hrq Hnd. unfold is_request_message in Hrq.
  assert (∀ mt c w0, ∃ w1, send_reply ks (in_reply inb) (in_message inb) mt c w0 = (Ok tt, w1) ∧
    answers (trace w1) = answers (trace w0) ++ [request_key inb]) as Hsend.
  { intros mt c w0. destruct (total_send_reply ks (in_reply inb) (in_message inb) mt c w0) as ([] & w1 & E). exists w1. split; [done|].
    pose proof (answers_one_send_reply ks (in_reply inb) (in_message inb) mt c w0) as Ha. by rewrite E in Ha. }
  assert (∀ mt c (b : bool) k0 w0, trace w0 = trace w → ∃ b' k' w',
    (io (send_reply ks (in_reply inb) (in_message inb) mt c) ;;; mret b : KS bool) k0 w0 = (Ok b', k', w') ∧
    answers (trace w') = answers (trace w) ++ [request_key inb]) as Hio.
  { intros mt c b k0 w0 <-. destruct (Hsend mt c w0) as (w1 & E & A). exists b, k0, w1. split; [|done].
    by rewrite (kbind_ok _ _ _ _ tt k0 w1) by exact (io_run _ _ _ _ _ E). }
  unfold handle_control. cbv zeta.
  repeat (case_decide as Hmt; [try (exfalso; apply Hnd; rewrite Hmt; first [left | right; left | right; right; left])|clear Hmt]).
  - by apply Hio.
  - destruct (supports_children language); simpl; [|by apply Hio].
    destruct (create_subshell_run language (get_str (content (in_message inb)) "subshell_id") k w) as (r & k1 & w1 & E & Ht & _).
    rewrite (kbind_ok _ _ _ _ r k1 w1) by (unfold kcatch; by rewrite E). by apply Hio.
  - rewrite (kbind_ok _ _ _ _ (filter (λ id, id ≠ "") (shell_ids k)) k w) by done. by apply Hio.
  - destruct (debug_control_answers (in_message inb) (in_reply inb) w) as (w1 & E & A). exists false, k, w1.
    by rewrite (kbind_ok _ _ _ _ tt k w1) by exact (io_run _ _ _ _ _ E).
  - rewrite Hrq. by apply Hio.
Qed.
End Promises.
