(* ===== verification/Program.v ===== *)
(** * The kernel as a program (src/src/engine.rs)

    How [run_kernel_with_interrupter] starts, what it hands to the language before
    its first shell runs, and the functions that run it. *)

From Stdlib Require Import ZArith Floats.SpecFloat.
From stdpp Require Import base gmap list strings.
From S2P Require Import Prelude Json Errors Wire Language Services Startup Requests PyAdapter Hosts Shell Kernel System Routing Context.

(** ** The kernel's own context

    [Message::default()], and the context of what the language says outside any
    execution: no client, no subshells, no input. *)
Definition message_default : Message := MkMessage [] [] [] [] Null [].
Definition kernel_context : ExecutionContext := output_context message_default false 0.

Section Program.
Context `{WireExt} {Ses : Type} `{LanguageSession Ses} {L : Type} `{Language L Ses}.

(** The task that the sender of debug events spawns for one event. *)
Definition debug_event (ks : KernelServices) (event : Value) : M unit :=
  published ← catch (m ← new_message ks "debug_event" event None; publish ks m);
  match published with Ok _ => mret tt | Err e => report_to_kernel e end.

(** ** The start

    [env] is the environment, [parse_f64] its floats; files, serde's messages and
    sockets as in [Startup]; [n] is the draw of the session's id, [t] and [t'] the
    moments of the calls of the language.  [None] if reading the configuration
    panics. *)
Context (parse_f64 : string → option spec_float) (env : string → option string).
Context (read_file : string → Result bytes) (shape_error : Value → string) (bind : string → Result unit).

Definition start_program (file : string) (language : L) (n t t' : nat) : option (Result (KernelServices * Kernel Ses)) :=
  config ← from_env parse_f64 env;
  Some (match (start_kernel read_file shape_error bind config file (supports_children language) n).1 with
        | Err e => Err e
        | Ok (ks, _) =>
            match set_debug_sender (parent language) t with
            | Err e => Err e
            | Ok _ =>
                match set_kernel_context (parent language) t' kernel_context with
                | Err e => Err e
                | Ok _ => Ok (ks, kernel_init language)
                end
            end
        end).

(** [run_kernel_with_interrupter]: it fails to start, or runs until its loop and
    its shells have ended. *)
Inductive run_kernel_with_interrupter (file : string) (language : L) : Result unit → Prop :=
| run_refused n t t' e : start_program file language n t t' = Some (Err e) → run_kernel_with_interrupter file language (Err e)
| run_ended n t t' ks k0 w0 k w r :
    start_program file language n t t' = Some (Ok (ks, k0)) → reachable ks language w0 (k, w) → kphase k = KExit r →
    run_kernel_with_interrupter file language r.

(** [run_kernel]: the task that turns Ctrl-C into interrupts ([signal_task]) runs
    beside the kernel and is aborted with it, and the kernel's result is passed
    on; what the interrupts do is a branch of the loop. *)
Definition run_kernel (file : string) (language : L) (r : Result unit) : Prop := run_kernel_with_interrupter file language r.

(** [run_kernel_blocking]: the runtime, then the language, then [run_kernel]. *)
Inductive run_kernel_blocking (file : string) (runtime : Result unit) (language : Result L) : Result unit → Prop :=
| blocking_no_runtime e : runtime = Err e → run_kernel_blocking file runtime language (Err e)
| blocking_no_language e : runtime = Ok tt → language = Err e → run_kernel_blocking file runtime language (Err e)
| blocking_runs l r : runtime = Ok tt → language = Ok l → run_kernel file l r → run_kernel_blocking file runtime language r.

(** (the start) a kernel runs only if its configuration could be read, its
    connection file was good and all five listeners are bound, and then the
    language accepted the sender of debug events and the kernel's context, in
    this order; the first of these that fails ends the program with its error,
    before any shell exists.  Its first state has one shell, the parent's. *)
Lemma start_program_spec file language n t t' :
  match start_program file language n t t' with
  | None => from_env parse_f64 env = None
  | Some (Ok (ks, k)) =>
      ∃ config seen bound, from_env parse_f64 env = Some config ∧
        start_kernel read_file shape_error bind config file (supports_children language) n = (Ok (ks, seen), bound) ∧
        length bound = 5 ∧ ks_hold_timeout ks = hold_timeout config ∧ ks_supports_subshells ks = supports_children language ∧
        set_debug_sender (parent language) t = Ok tt ∧ set_kernel_context (parent language) t' kernel_context = Ok tt ∧
        k = kernel_init language ∧ dom (shells k) = {[""]} ∧ task_shell k 0 = Some shell_init
  | Some (Err e) =>
      ∃ config r bound, from_env parse_f64 env = Some config ∧
        start_kernel read_file shape_error bind config file (supports_children language) n = (r, bound) ∧
        ((r = Err e ∧ length bound < 5) ∨
         (is_ok r = true ∧ length bound = 5 ∧
          (set_debug_sender (parent language) t = Err e ∨
           (set_debug_sender (parent language) t = Ok tt ∧ set_kernel_context (parent language) t' kernel_context = Err e))))
  end.
Proof.
  unfold start_program. destruct (from_env parse_f64 env) as [config|]; [|done]. simpl.
  destruct (start_kernel read_file shape_error bind config file (supports_children language) n) as [r bound] eqn:Es. simpl.
  assert (match r with Ok (ks, _) => length bound = 5 ∧ ks_hold_timeout ks = hold_timeout config ∧ ks_supports_subshells ks = supports_children language | Err _ => length bound < 5 end) as Hb.
  { unfold start_kernel, session_new in Es. destruct (connection_read read_file shape_error file) as [c|e]; [|injection Es as <- <-; simpl; lia].
    pose proof (bind_ports_spec bind c [shell_port c; control_port c; iopub_port c; hb_port c; stdin_port c] []) as Hp.
    destruct (bind_ports bind c _ []) as [[[]|e] b]; injection Es as <- <-.
    - destruct Hp as [-> _]. done.
    - destruct Hp as (k & Hk & -> & _). simpl in *. rewrite length_map, length_take. simpl. lia. }
  destruct r as [[ks seen]|e]; [|by exists config, (Err e), bound; split_and!; auto].
  destruct (set_debug_sender (parent language) t) as [[]|e] eqn:Ed; [|exists config, (Ok (ks, seen)), bound; naive_solver].
  destruct (set_kernel_context (parent language) t' kernel_context) as [[]|e] eqn:Ec; [|exists config, (Ok (ks, seen)), bound; naive_solver].
  destruct Hb as (? & ? & ?). exists config, seen, bound. by split_and!.
Qed.

(** (outside executions) in the kernel's own context, code can neither ask for
    input nor open or close a subshell: each call fails at once as unavailable,
    having sent nothing. *)
Lemma kernel_context_refuses ks interrupted request stdin prompt password ends id delete complete w :
  context_input ks kernel_context interrupted request stdin prompt password ends w =
    (Ok (Err (error_new Unavailable "input is unavailable in this execution")), w) ∧
  context_open_subshell kernel_context id complete = Err unavailable ∧
  (∀ id, context_close_subshell kernel_context id delete complete = Err unavailable).
Proof. done. Qed.
End Program.
