(* ===== verification/KernelLedger.v ===== *)
(** * Every request of the kernel is accounted for (src/src/engine.rs)

    The ledger of [Ledger], for the whole kernel: the main loop with its two
    channels, every shell task and the background stops.  A request is in
    exactly one place from the moment it arrives until it is answered. *)

From Stdlib Require Import ZArith.
From stdpp Require Import base gmap sets list strings.
From S2P Require Import Prelude Json Errors Wire Language Services Queue Requests Shell Ledger Kernel System Routing Context ControlRequests.

(** What a shell still owes. *)
Definition shell_book (s : Shell) : list (nat * Map) := answers (todo s) ++ keys (outstanding s).

(** What the running shells owe, and what shells that ended left unanswered:
    subshells, deleted, closed or shut down with requests in their hands. *)
Definition owed {Ses} (k : Kernel Ses) : list (nat * Map) :=
  concat (map (λ kv, if running kv.2.2 then shell_book kv.2.2 else []) (map_to_list (tasks k))).
Definition left_behind {Ses} (k : Kernel Ses) : list (nat * Map) :=
  concat (map (λ kv, if running kv.2.2 then [] else shell_book kv.2.2) (map_to_list (tasks k))).

Definition tasks_book {Ses} (m : gmap nat (Ses * Shell)) : list (nat * Map) :=
  concat (map (λ kv, shell_book kv.2.2) (map_to_list m)).

(** The replies that wait for a shell: of a delete, and of a release. *)
Definition deleting (st : BackgroundStop) : option (nat * Map) :=
  match st_done st with AnswerDelete reply request => Some (reply, header request) | AnswerClose _ => None end.

Definition releasing (p : KPhase) : list (nat * Map) :=
  match p with KReleasing _ _ _ _ _ reply request => [(reply, header request)] | _ => [] end.

Definition base_book {Ses} (k : Kernel Ses) (w : World) : list (nat * Map) :=
  answers (trace w) ++ tasks_book (tasks k) ++ keys (shell_queue k) ++ keys (control_queue k) ++ omap deleting (stops k).

Definition kernel_book {Ses} (k : Kernel Ses) (w : World) : list (nat * Map) := base_book k w ++ releasing (kphase k).

(** The main loop has not been left. *)
Definition in_loop {Ses} (k : Kernel Ses) : bool :=
  match kphase k with KLoop | KReleasing _ _ _ _ _ _ _ => true | KStopping _ _ _ | KExit _ => false end.

(** Everything in the hands of shells and in their channel is one of [sent]. *)
Record hands_ok {Ses} (sent : list Inbound) (k : Kernel Ses) : Prop := {
  hands_tasks : ∀ t ses s, tasks k !! t = Some (ses, s) → good s ∧ ∀ i, i ∈ outstanding s → i ∈ sent;
  hands_queue : ∀ i, i ∈ shell_queue k → i ∈ sent;
}.

(** ** Books of tasks *)

Section Books.
Context {Ses : Type}.
Implicit Types m : gmap nat (Ses * Shell).

Lemma tasks_book_split (k : Kernel Ses) : tasks_book (tasks k) ≡ₚ owed k ++ left_behind k.
Proof.
  unfold tasks_book, owed, left_behind. induction (map_to_list (tasks k)) as [|[t [ses s]] l IH]; simpl; [done|]. rewrite IH.
  destruct (running s); simpl; [by rewrite <- app_assoc | apply Permutation_app_swap_app].
Qed.

Lemma kernel_book_split (k : Kernel Ses) w :
  kernel_book k w ≡ₚ answers (trace w) ++ owed k ++ left_behind k ++ keys (shell_queue k) ++ keys (control_queue k) ++ omap deleting (stops k) ++ releasing (kphase k).
Proof. unfold kernel_book, base_book. rewrite tasks_book_split. by rewrite <- !app_assoc. Qed.

Lemma tasks_book_delete m t ses s : m !! t = Some (ses, s) → tasks_book m ≡ₚ shell_book s ++ tasks_book (delete t m).
Proof. intros E. unfold tasks_book. by rewrite <- (map_to_list_delete m t (ses, s) E). Qed.

Lemma tasks_book_insert m t ses s s' :
  m !! t = Some (ses, s) → shell_book s ++ tasks_book (<[t := (ses, s')]> m) ≡ₚ shell_book s' ++ tasks_book m.
Proof.
  intros E. rewrite (tasks_book_delete m t ses s E), (tasks_book_delete (<[t := (ses, s')]> m) t ses s') by apply lookup_insert_eq.
  rewrite delete_insert_eq. rewrite !app_assoc. by rewrite (Permutation_app_comm (shell_book s)).
Qed.

Lemma tasks_book_new m t ses s : m !! t = None → tasks_book (<[t := (ses, s)]> m) ≡ₚ shell_book s ++ tasks_book m.
Proof. intros E. unfold tasks_book. by rewrite map_to_list_insert. Qed.

Lemma tasks_book_same m t ses s s' :
  m !! t = Some (ses, s) → shell_book s' = shell_book s → tasks_book (<[t := (ses, s')]> m) ≡ₚ tasks_book m.
Proof.
  intros E Eb. pose proof (tasks_book_insert m t ses s s' E) as Hp. rewrite Eb in Hp. by eapply Permutation_app_inv_l.
Qed.
End Books.

Section KernelLedger.
Context `{JsonTotal} {Ses : Type} `{LanguageSession Ses} {L : Type} `{Language L Ses} (ks : KernelServices) (language : L).
#[local] Notation KS := (@K Ses).

(** A step of the book: [l] is what it gains. *)
Definition gains (sent : list Inbound) (l : list (nat * Map)) (k : Kernel Ses) (w : World) (k' : Kernel Ses) (w' : World) : Prop :=
  hands_ok sent k → base_book k' w' ≡ₚ l ++ base_book k w ∧ hands_ok sent k'.

(** [balanced sent l m]: where [m] succeeds, the book gains [l]. *)
Definition balanced {A} (sent : list Inbound) (l : list (nat * Map)) (m : KS A) : Prop :=
  ∀ k w a k' w', m k w = (Ok a, k', w') → gains sent l k w k' w'.

Lemma gains_trans sent l l' k w k1 w1 k2 w2 : gains sent l k w k1 w1 → gains sent l' k1 w1 k2 w2 → gains sent (l' ++ l) k w k2 w2.
Proof. intros H12 H23 Hk. destruct (H12 Hk) as [E1 Hk1]. destruct (H23 Hk1) as [E2 Hk2]. split; [|done]. by rewrite E2, E1, app_assoc. Qed.

Lemma balanced_bind {A B} sent l l' (m : KS A) (f : A → KS B) :
  balanced sent l m → (∀ a, balanced sent l' (f a)) → balanced sent (l' ++ l) (m ≫= f).
Proof.
  intros Hm Hf k w b k' w' E. unfold mbind, K_bind in E. destruct (m k w) as [[[a|e] k1] w1] eqn:E1; [|done].
  eapply gains_trans; [by eapply Hm | by eapply Hf].
Qed.

(** The common cases: all of the gain comes first, or last. *)
Lemma balanced_then {A B} sent l (m : KS A) (f : A → KS B) : balanced sent l m → (∀ a, balanced sent [] (f a)) → balanced sent l (m ≫= f).
Proof. intros Hm Hf. apply (balanced_bind sent l [] m f); done. Qed.

Lemma balanced_after {A B} sent l (m : KS A) (f : A → KS B) : balanced sent [] m → (∀ a, balanced sent l (f a)) → balanced sent l (m ≫= f).
Proof. intros Hm Hf. rewrite <- (app_nil_r l). by apply balanced_bind. Qed.

(** The fields the book reads. *)
Lemma gains_same sent l k w k' w' :
  answers (trace w') = answers (trace w) ++ l → tasks k' = tasks k → shell_queue k' = shell_queue k →
  control_queue k' = control_queue k → omap deleting (stops k') = omap deleting (stops k) → gains sent l k w k' w'.
Proof.
  intros Ea Et Es Ec Ed [Ht Hq]. split; [|split; rewrite ?Et, ?Es; auto]. unfold base_book. rewrite Ea, Et, Es, Ec, Ed.
  rewrite !app_assoc. do 4 f_equiv. apply Permutation_app_comm.
Qed.

Lemma balanced_ret {A} sent (a : A) : balanced sent [] (mret a : KS A).
Proof. intros k w ? ? ? [= <- <- <-]. apply gains_same; by rewrite ?app_nil_r. Qed.

Lemma balanced_kget {A} sent (f : Kernel Ses → A) : balanced sent [] (kget f).
Proof. intros k w ? ? ? [= <- <- <-]. apply gains_same; by rewrite ?app_nil_r. Qed.

Lemma balanced_kthrow {A} sent l e : balanced sent l (kthrow e : KS A).
Proof. intros k w ? ? ? E. done. Qed.

Lemma balanced_io_one {A} sent (m : M A) key : answers_one m key → balanced sent [key] (io m : KS A).
Proof.
  intros Hm k w a k' w' E. unfold io in E. destruct (m w) as [r w1] eqn:E1. injection E as _ <- <-.
  apply gains_same; try done. by eapply answers_one_run.
Qed.

Lemma balanced_io_quiet {A} sent (m : M A) : quiet m → balanced sent [] (io m : KS A).
Proof.
  intros Hm k w a k' w' E. unfold io in E. destruct (m w) as [r w1] eqn:E1. injection E as _ <- <-.
  apply gains_same; try done. rewrite app_nil_r. by eapply quiet_run.
Qed.

Lemma balanced_kmodify sent (f : Kernel Ses → Kernel Ses) :
  (∀ k, tasks (f k) = tasks k ∧ shell_queue (f k) = shell_queue k ∧ control_queue (f k) = control_queue k ∧ stops (f k) = stops k) →
  balanced sent [] (kmodify f).
Proof.
  intros Hf k w ? ? ? [= _ <- <-]. destruct (Hf k) as (? & ? & ? & Es). apply gains_same; rewrite ?app_nil_r; try done. by rewrite Es.
Qed.

Lemma balanced_kfor_each {A} sent (f : A → KS unit) l : (∀ a, balanced sent [] (f a)) → balanced sent [] (kfor_each f l).
Proof. intros Hf. induction l as [|a l IH]; simpl; [apply balanced_ret | by apply balanced_then]. Qed.

Lemma balanced_reply sent reply req mt c : balanced sent [(reply, header req)] (io (send_reply ks reply req mt c) : KS unit).
Proof. apply balanced_io_one. apply answers_one_send_reply. Qed.

(** A task whose channels or controls change. *)
Lemma gains_task sent l k w k' t ses s s' :
  tasks k !! t = Some (ses, s) → tasks k' = <[t := (ses, s')]> (tasks k) → shell_queue k' = shell_queue k →
  control_queue k' = control_queue k → stops k' = stops k →
  shell_book s' ≡ₚ l ++ shell_book s → (good s → good s') → (∀ i, i ∈ outstanding s' → i ∈ outstanding s ∨ i ∈ sent) →
  gains sent l k w k' w.
Proof.
  intros Et Et' Es Ec Ep Hb Hg Ho [Ht Hq]. split.
  - unfold base_book. rewrite Et', Es, Ec, Ep. pose proof (tasks_book_insert (tasks k) t ses s s' Et) as Hi. rewrite Hb in Hi.
    assert (tasks_book (<[t := (ses, s')]> (tasks k)) ≡ₚ l ++ tasks_book (tasks k)) as ->.
    { apply (Permutation_app_inv_l (shell_book s)). rewrite Hi, !app_assoc. by rewrite (Permutation_app_comm l). }
    rewrite !app_assoc. do 4 f_equiv. apply Permutation_app_comm.
  - destruct (Ht _ _ _ Et) as [Hs Hin]. split; rewrite ?Et', ?Es; [|done].
    intros t' ses' s0 [[<- [= <- <-]]|[_ E]]%lookup_insert_Some; [|eauto]. split; [auto|]. intros i [?|?]%Ho; auto.
Qed.

(** ** Operations of the main loop *)

Lemma balanced_send_control sent t c : balanced sent [] (send_control t c : KS bool).
Proof.
  intros k w b k' w' E. unfold send_control, kget, kmodify, mbind, K_bind, mret, K_ret in E.
  destruct (live k t) eqn:Hl; injection E as <- <- <-; [|by apply gains_same; rewrite ?app_nil_r].
  unfold live, task_shell in Hl. destruct (tasks k !! t) as [[ses s]|] eqn:Et; [|done].
  eapply (gains_task sent [] k w _ t ses s (set_controls s (controls s ++ [c]))); try done; [|by left].
  apply map_eq. intros j. unfold update_shell. simpl.
  destruct (decide (t = j)) as [<-|]; [by rewrite lookup_alter_eq, lookup_insert_eq, Et | by rewrite lookup_alter_ne, lookup_insert_ne].
Qed.

Lemma gains_add_shell sent id child k w w' : trace w' = trace w → gains sent [] k w (add_shell id child k) w'.
Proof.
  intros Etr [Ht Hq]. pose proof (fresh_task k) as Hf. unfold add_shell. split.
  - unfold base_book. simpl. rewrite Etr, tasks_book_new by done. done.
  - split; simpl; [|done]. intros t' ses' s0 [[_ [= <- <-]]|[_ E]]%lookup_insert_Some; [|eauto].
    split; [split; [by intros q ?%elem_of_nil | done] | by intros i ?%elem_of_nil].
Qed.

Lemma gains_refl sent k w w' : trace w' = trace w → gains sent [] k w k w'.
Proof. intros E. apply gains_same; by rewrite ?app_nil_r, ?E. Qed.

Lemma gains_create sent req k w r k' w' : create_subshell language req k w = (r, k', w') → gains sent [] k w k' w'.
Proof.
  intros E. destruct (create_subshell_run language req k w) as (r' & k1 & w1 & E1 & Ht & Hr).
  assert (r' = r ∧ k1 = k' ∧ w1 = w') as (-> & -> & ->) by (by rewrite E in E1; injection E1).
  destruct r as [id|e]; [|by subst; apply gains_refl].
  destruct Hr as (_ & _ & _ & [[-> _]|[_ [child ->]]]); [by apply gains_refl | by apply gains_add_shell].
Qed.

Lemma balanced_create sent req : balanced sent [] (kcatch (create_subshell language req)).
Proof.
  intros k w r k' w' E. unfold kcatch in E. destruct (create_subshell language req k w) as [[r1 k1] w1] eqn:E1.
  injection E as <- <- <-. by eapply gains_create.
Qed.

(** What routing leaves alone. *)
Definition aside (c : list Inbound) (st : list BackgroundStop) (p : KPhase) (k : Kernel Ses) : Prop :=
  control_queue k = c ∧ stops k = st ∧ kphase k = p.

#[local] Hint Extern 1 (keeps (aside _ _ _) (kmodify _)) => (apply keeps_kmodify; intros ? (? & ? & ?); split_and!; assumption) : kern.

Lemma aside_route_shell c st p inb : keeps (aside c st p) (route_shell ks language inb).
Proof. unfold route_shell, deliver, create_subshell, spawn_shell, send_inbound. keep_parts. Qed.
#[local] Hint Resolve aside_route_shell : kern.

Lemma aside_route_pending c st p n : keeps (aside c st p) (route_pending ks language n).
Proof. induction n; simpl; keep_parts. Qed.

Lemma balanced_route_shell sent inb : inb ∈ sent → balanced sent (keys [inb]) (route_shell ks language inb).
Proof.
  intros Hin k w [] k' w' E. pose proof (aside_route_shell (control_queue k) (stops k) (kphase k) inb k w ltac:(done)) as (Ec & Ep & _).
  rewrite E in Ec, Ep. simpl in Ec, Ep.
  destruct (route_shell_run ks language inb k w) as (k2 & w2 & E2 & Hcase).
  assert (k2 = k' ∧ w2 = w') as [-> ->] by (by rewrite E in E2; injection E2).
  assert (answer_key inb = keys [inb]) as Hkey.
  { unfold answer_key. destruct (is_request_message inb) eqn:Hr; [by rewrite keys_one | by rewrite keys_none]. }
  destruct Hcase as [(k1 & t & Hk1 & _ & (ses & s & Et & _ & Et' & _ & _ & Eq) & Ea)|(_ & -> & Ea & _)].
  - apply (f_equal answers) in Ea. assert (gains sent [] k w k1 w' ∧ control_queue k1 = control_queue k ∧ stops k1 = stops k) as (Hg1 & Ec1 & Ep1).
    { destruct Hk1 as [->|(_ & _ & _ & child & ->)]; [split_and!; try done; by apply gains_same; rewrite ?app_nil_r|].
      split_and!; try done. rewrite <- (app_nil_r []).
      eapply (gains_trans sent [] [] k w (add_shell _ child k) w); [by apply gains_add_shell|].
      by apply gains_same; rewrite ?app_nil_r. }
    rewrite <- (app_nil_r (keys [inb])). eapply gains_trans; [exact Hg1|].
    eapply gains_task; [exact Et | exact Et' | done | congruence | congruence | | |].
    + unfold shell_book, outstanding, todo. simpl. rewrite <- !app_assoc, !keys_app, !app_assoc.
      do 2 f_equiv. rewrite (Permutation_app_comm _ (keys [inb])). by rewrite app_assoc.
    + done.
    + intros i. unfold outstanding. simpl. rewrite !elem_of_app, list_elem_of_singleton. intros [[?| ->]|?]; auto.
  - apply gains_same; try done. by rewrite <- Hkey.
Qed.

(** Routing what is in the channel. *)
Lemma gains_pop sent k w i q l k' w' :
  shell_queue k = i :: q → gains sent (keys [i] ++ l) (with_shell_queue q k) w k' w' → gains sent l k w k' w'.
Proof.
  intros Eq Hg [Ht Hq]. destruct Hg as [E Hk]; [split; [exact Ht | simpl; intros j Hj; apply Hq; rewrite Eq; by right]|].
  split; [|done]. rewrite E. unfold base_book. simpl. rewrite Eq. change (i :: q) with ([i] ++ q). rewrite keys_app.
  perm_app.
Qed.

Lemma balanced_route_pending sent n : balanced sent [] (route_pending ks language n).
Proof.
  induction n as [|n IH]; [apply balanced_ret|]. intros k w a k' w' E. simpl in E. unfold kget, mbind at 1, K_bind at 1 in E.
  destruct (shell_queue k) as [|i q] eqn:Eq; [injection E as <- <- <-; by apply gains_refl|].
  unfold kmodify, mbind at 1, K_bind at 1 in E. unfold mbind, K_bind in E.
  destruct (route_shell ks language i (with_shell_queue q k) w) as [[[[]|e] k1] w1] eqn:E1; [|done].
  intros Hk. assert (i ∈ sent) as Hi by (apply Hk; rewrite Eq; left). revert Hk. eapply gains_pop; [exact Eq|].
  rewrite app_nil_r. eapply (gains_trans _ _ []); [by eapply balanced_route_shell | by eapply IH].
Qed.

Lemma balanced_stop sent t b done : balanced sent (option_list (deleting (MkStop t b false done))) (stop_in_background t b done : KS unit).
Proof.
  intros k w ? ? ? [= _ <- <-] [Ht Hq]. split; [|by split]. unfold base_book. simpl. rewrite omap_app. simpl.
  destruct (deleting _); simpl; [|by rewrite app_nil_r]. change (?p :: ?l) with ([p] ++ l). perm_app.
Qed.

Lemma balanced_send_or_fail sent t c : balanced sent [] (send_control_or_fail t c : KS unit).
Proof. unfold send_control_or_fail. apply balanced_then; [apply balanced_send_control|]. intros []; [apply balanced_ret | apply balanced_kthrow]. Qed.

Lemma balanced_interrupt sent : balanced sent [] (interrupt_shells : KS unit).
Proof.
  unfold interrupt_shells. apply balanced_then; [apply balanced_kget|]. intros ts. apply balanced_kfor_each. intros t. apply balanced_send_or_fail.
Qed.

#[local] Hint Resolve balanced_ret balanced_kget balanced_kthrow balanced_send_control balanced_send_or_fail balanced_interrupt
  balanced_route_pending balanced_create balanced_reply : kern.
#[local] Hint Extern 1 (balanced _ [] (kmodify _)) => (apply balanced_kmodify; intros; split_and!; reflexivity) : kern.

(** Decomposes an operation that gains nothing. *)
Ltac balance := repeat first
  [ solve [auto with kern nocore]
  | match goal with
    | |- balanced _ [] (mbind _ _) => apply balanced_then; [|intros ?]
    | |- balanced _ _ (match ?x with _ => _ end) => destruct x
    end ].

Lemma balanced_command sent c : balanced sent [] (session_command language c).
Proof.
  destruct c as [client id n|client id del n]; simpl; balance.
  apply (balanced_stop sent _ false (AnswerClose n)).
Qed.

Lemma keys_request inb : is_request_message inb = true → keys [inb] = [(in_reply inb, header (in_message inb))].
Proof. apply keys_one. Qed.

(** A control request is answered, or its reply waits in a background stop. *)
Lemma balanced_control sent inb :
  msg_type (in_message inb) ≠ "release_request" → balanced sent (keys [inb]) (handle_control ks language inb).
Proof.
  intros Hne. set (mt := msg_type (in_message inb)) in *.
  assert (∀ lit : string, mt = lit → ends_with "_request" lit = true → keys [inb] = [(in_reply inb, header (in_message inb))]) as Hk.
  { intros lit E Hl. apply keys_request. unfold is_request_message. fold mt. by rewrite E. }
  unfold handle_control. cbv zeta. fold mt.
  case_decide as E; [rewrite (Hk _ E eq_refl); apply balanced_then; balance|]. clear E.
  case_decide as E.
  { rewrite (Hk _ E eq_refl). unfold route_pending_shells. do 2 (apply balanced_after; [balance|intros ?]). apply balanced_then; balance. }
  clear E. case_decide as E.
  { rewrite (Hk _ E eq_refl). destruct (supports_children language); simpl; [apply balanced_after; [balance|intros ?]|]; apply balanced_then; balance. }
  clear E. case_decide as E; [rewrite (Hk _ E eq_refl); apply balanced_after; [balance|intros ?]; apply balanced_then; balance|].
  clear E. case_decide as E.
  { rewrite (Hk _ E eq_refl). apply balanced_after; [balance|intros [t|]]; apply balanced_then; try (intros _; balance); [|balance].
    do 2 (apply balanced_after; [balance|intros ?]). apply (balanced_stop sent t true (AnswerDelete (in_reply inb) (in_message inb))). }
  clear E. rewrite decide_False by done. case_decide as E.
  { rewrite (Hk _ E eq_refl). apply balanced_then; [|balance]. apply balanced_io_one. intros w.
    destruct (debug_control_answers ks language (in_message inb) (in_reply inb) w) as (w' & -> & Ha). done. }
  clear E. destruct (ends_with "_request" mt) eqn:Er.
  - rewrite keys_request by done. apply balanced_then; balance.
  - rewrite keys_none by done. balance.
Qed.

(** ** The phase of the loop *)

Definition phase_is (p : KPhase) (k : Kernel Ses) : Prop := kphase k = p.

#[local] Hint Extern 1 (keeps (phase_is _) (kmodify _)) => (apply keeps_kmodify; intros ? ?; assumption) : kern.

Lemma phase_send_control p t c : keeps (phase_is p) (send_control t c : KS bool).
Proof. unfold send_control. keep_parts. Qed.

Lemma phase_create p req : keeps (phase_is p) (create_subshell language req).
Proof. unfold create_subshell, spawn_shell. keep_parts. Qed.
#[local] Hint Resolve phase_send_control phase_create : kern.

Lemma phase_route_shell p inb : keeps (phase_is p) (route_shell ks language inb).
Proof. unfold route_shell, deliver, send_inbound. keep_parts. Qed.
#[local] Hint Resolve phase_route_shell : kern.

Lemma phase_route_pending p n : keeps (phase_is p) (route_pending ks language n).
Proof. induction n; simpl; keep_parts. Qed.

Lemma phase_interrupt p : keeps (phase_is p) (interrupt_shells : KS unit).
Proof. unfold interrupt_shells, send_control_or_fail. keep_parts. Qed.

Lemma phase_command p c : keeps (phase_is p) (session_command language c).
Proof. destruct c; simpl; unfold stop_in_background; keep_parts. Qed.
#[local] Hint Resolve phase_route_pending phase_interrupt phase_command : kern.

Lemma phase_control p inb : msg_type (in_message inb) ≠ "release_request" → keeps (phase_is p) (handle_control ks language inb).
Proof.
  intros Hne. unfold handle_control, route_pending_shells, stop_in_background. cbv zeta.
  rewrite (decide_False (P := msg_type (in_message inb) = "release_request")) by done. keep_parts.
Qed.

(** ** The loop *)

(** [settles sent k w k' w']: the loop goes on, and the whole book is as before. *)
Definition settles (sent : list Inbound) (k : Kernel Ses) (w : World) (k' : Kernel Ses) (w' : World) : Prop :=
  hands_ok sent k → kernel_book k' w' ≡ₚ kernel_book k w ∧ hands_ok sent k'.

Lemma gains_settles sent k w k' w' : kphase k' = kphase k → gains sent [] k w k' w' → settles sent k w k' w'.
Proof. intros Ep Hg Hk. destruct (Hg Hk) as [E Hk']. split; [|done]. unfold kernel_book. by rewrite Ep, E. Qed.

Lemma balanced_settles {A} sent p (m : KS A) k w a k' w' :
  balanced sent [] m → keeps (phase_is p) m → kphase k = p → m k w = (Ok a, k', w') → settles sent k w k' w'.
Proof.
  intros Hb Hp Ek E. apply gains_settles; [|by eapply Hb]. specialize (Hp k w Ek). rewrite E in Hp. unfold phase_is in Hp. simpl in Hp. congruence.
Qed.

Lemma release_control sent inb k w b k' w' :
  msg_type (in_message inb) = "release_request" → kphase k = KLoop → handle_control ks language inb k w = (Ok b, k', w') → hands_ok sent k →
  kernel_book k' w' ≡ₚ keys [inb] ++ base_book k w ∧ hands_ok sent k'.
Proof.
  intros Hmt Hp E Hk. unfold handle_control in E. cbv zeta in E. rewrite Hmt in E. simpl in E.
  unfold mbind at 1, K_bind at 1 in E. destruct (route_pending_shells ks language k w) as [[[[]|e] k1] w1] eqn:E1; [|done].
  unfold kget, kmodify, mbind, K_bind, mret, K_ret in E. injection E as <- <- <-.
  assert (gains sent [] k w k1 w1) as Hg.
  { unfold route_pending_shells in E1. eapply (balanced_after sent [] (kget (λ k, length (shell_queue k))) (route_pending ks language)); [..|exact E1]; auto with kern. }
  destruct (Hg Hk) as [Eb Hk1]. rewrite keys_request by (unfold is_request_message; by rewrite Hmt). split; [|by destruct Hk1; split].
  unfold kernel_book. simpl. change (base_book (with_kphase _ k1) w1) with (base_book k1 w1). rewrite Eb. apply Permutation_app_comm.
Qed.

Lemma run_loop_settles sent c k w k' w' :
  kphase k = KLoop → run_loop ks language c k w = (Ok false, k', w') → settles sent k w k' w'.
Proof.
  intros Hp E. assert (c = KShellMessage ∨ c = KControl ∨ (c ≠ KShellMessage ∧ c ≠ KControl)) as [->|[->|[H1' H2']]] by (destruct c; auto).
  - simpl in E. unfold kget, kmodify, mbind, K_bind, mret, K_ret in E.
    destruct (shell_queue k) as [|i q] eqn:Eq; [injection E as <- <-; apply gains_settles; [done | by apply gains_refl]|].
    destruct (route_shell ks language i (with_shell_queue q k) w) as [[[[]|e] k1] w1] eqn:E1; [|done]. injection E as <- <-.
    intros Hk. assert (i ∈ sent) as Hi by (apply Hk; rewrite Eq; left). revert Hk. apply gains_settles.
    + pose proof (phase_route_shell KLoop i (with_shell_queue q k) w Hp) as Hp1. rewrite E1 in Hp1. unfold phase_is in Hp1. simpl in Hp1. congruence.
    + eapply gains_pop; [exact Eq|]. rewrite app_nil_r. by eapply balanced_route_shell.
  - simpl in E. unfold kget, kmodify, mbind, K_bind in E.
    destruct (control_queue k) as [|i q] eqn:Eq; [injection E as <- <-; apply gains_settles; [done | by apply gains_refl]|].
    intros Hk. assert (hands_ok sent (with_control_queue q k)) as Hk1 by (destruct Hk; by split).
    assert (base_book k w ≡ₚ keys [i] ++ base_book (with_control_queue q k) w) as Epop.
    { unfold base_book. simpl. rewrite Eq. change (i :: q) with ([i] ++ q). rewrite keys_app. perm_app. }
    destruct (decide (msg_type (in_message i) = "release_request")) as [Hr|Hr].
    + destruct (release_control sent i (with_control_queue q k) w false k' w' Hr Hp E Hk1) as [Eb Hk']. split; [|done].
      rewrite Eb, <- Epop. unfold kernel_book. by rewrite Hp, app_nil_r.
    + destruct (balanced_control sent i Hr _ _ _ _ _ E Hk1) as [Eb Hk']. split; [|done].
      pose proof (phase_control KLoop i Hr (with_control_queue q k) w Hp) as Hp1. rewrite E in Hp1. unfold phase_is in Hp1. simpl in Hp1.
      unfold kernel_book. rewrite Hp1, Hp, Eb, <- Epop. done.
  - eapply (balanced_settles sent KLoop _ k w false k' w'); [| |exact Hp|exact E].
    + destruct c; simpl; try done; unfold drop_routes; balance; auto using balanced_io_quiet, balanced_command with kern.
    + destruct c; simpl; try done; unfold drop_routes; keep_parts.
Qed.

Lemma release_settles sent wt todo id st found reply req k w k' w' :
  kphase k = KReleasing wt todo id st found reply req → release_step ks wt todo id st found reply req k w = (Ok tt, k', w') →
  settles sent k w k' w'.
Proof.
  intros Hp E.
  assert (∀ p' k1 w1, gains sent [] k w k1 w1 → releasing p' = [(reply, header req)] → settles sent k w (with_kphase p' k1) w1) as Hstay.
  { intros p' k1 w1 Hg Hr Hk. destruct (Hg Hk) as [Eb Hk1]. split; [|by destruct Hk1; split].
    unfold kernel_book. simpl. rewrite Hp, Hr. simpl. by f_equiv. }
  unfold release_step in E. destruct wt as [[t n]|].
  - cbv [kget kmodify mbind K_bind mret K_ret] in E.
    destruct (option_bind _ _ _ _) as [b|]; [injection E as <- <-; apply Hstay; [by apply gains_refl | done]|].
    destruct (live k t); [injection E as <- <-; apply gains_settles; [done | by apply gains_refl] | done].
  - destruct todo as [|t todo].
    + cbv [kmodify mbind K_bind] in E. destruct (io _ k w) as [[[[]|e] k1] w1] eqn:E1; [|done]. injection E as <- <-.
      intros Hk. destruct (balanced_reply sent _ _ _ _ _ _ _ _ _ E1 Hk) as [Eb Hk1]. split; [|by destruct Hk1; split].
      unfold kernel_book. simpl. change (base_book (with_kphase _ k1) w1) with (base_book k1 w1).
      rewrite Eb, Hp, app_nil_r. apply Permutation_app_comm.
    + cbv [kget kmodify mbind K_bind] in E. destruct (send_control_or_fail _ _ _ w) as [[[[]|e] k1] w1] eqn:E1; [|done].
      injection E as <- <-. apply Hstay; [|done].
      eapply (gains_trans sent [] [] k w (with_oneshot (next_oneshot k + 1) k) w); [by apply gains_same; rewrite ?app_nil_r|].
      by eapply balanced_send_or_fail.
Qed.

(** Once left, the loop is not entered again. *)
Definition out (k : Kernel Ses) : Prop := in_loop k = false.

#[local] Hint Extern 1 (keeps out (kmodify _)) => (apply keeps_kmodify; intros ? ?; first [reflexivity | assumption]) : kern.

Lemma out_shutdown wt todo r : keeps out (shutdown_step wt todo r : KS unit).
Proof. unfold shutdown_step, stop_shell, send_control. keep_parts. Qed.

Lemma out_stop st : keeps out (stop_step ks st : KS _).
Proof. unfold stop_step, stop_shell, send_control. keep_parts. Qed.

Lemma out_step c c' : ksys_step ks language c c' → in_loop c'.1 = true → in_loop c.1 = true.
Proof.
  intros Hs Hl. destruct (in_loop c.1) eqn:Ho; [done|]. rewrite <- Hl. symmetry.
  destruct Hs as [| | | |k w c Hc|k w i st r k' w' Hi Es|]; try exact Ho.
  - simpl in Ho |- *. unfold kernel_step. unfold in_loop in Ho at 1. destruct (kphase k) as [|?|wt todo r|r] eqn:Hp; try done.
    + pose proof (out_shutdown wt todo r k w) as Hk. destruct (shutdown_step wt todo r k w) as [[r1 k1] w1]. apply Hk.
      unfold out, in_loop. by rewrite Hp.
    + unfold in_loop. simpl. by rewrite Hp.
  - pose proof (out_stop st k w Ho) as Hk. rewrite Es in Hk. exact Hk.
Qed.

Lemma kernel_step_settles sent c k w k' w' :
  kernel_step ks language c k w = (k', w') → in_loop k = true → in_loop k' = true → settles sent k w k' w'.
Proof.
  unfold kernel_step, in_loop at 1. intros E Hl Hl'. destruct (kphase k) as [|wt todo id st found reply req|wt todo r|r] eqn:Hp; try done.
  - destruct (run_loop ks language c k w) as [[[[]|e] k1] w1] eqn:E1; injection E as <- <-; try done. by eapply run_loop_settles.
  - destruct (release_step ks wt todo id st found reply req k w) as [[[[]|e] k1] w1] eqn:E1; injection E as <- <-; [|done].
    by eapply release_settles.
Qed.

(** ** Background stops and tasks *)

Lemma same_phase_stop st p : keeps (phase_is p) (stop_step ks st : KS _).
Proof. unfold stop_step, stop_shell. keep_parts. Qed.

(** The entry of a stop. *)
Lemma base_book_stop i st (k : Kernel Ses) w r :
  stops k !! i = Some st →
  option_list (deleting st) ++ base_book (with_stops (replace_stop i r) k) w ≡ₚ option_list (r ≫= deleting) ++ base_book k w.
Proof.
  intros Hi. destruct (omap_replace_stop deleting i st r (stops k) Hi) as (rest & E1 & E2).
  unfold base_book. simpl. rewrite E1, E2. perm_app.
Qed.

(** No shell task has failed, and no execution has panicked. *)
Definition healthy (k : Kernel Ses) : Prop := ∀ t ses s, tasks k !! t = Some (ses, s) → failed_shell s = false.

Lemma healthy_fed s arr ctl : failed_shell (fed s arr ctl) = failed_shell s.
Proof. done. Qed.

Lemma healthy_grows (k k' : Kernel Ses) : kgrows k k' → healthy k' → healthy k.
Proof.
  intros Hg Hh t ses s Et. specialize (Hg t). rewrite Et in Hg. destruct (tasks k' !! t) as [[ses' s']|] eqn:Et'; [|done].
  destruct Hg as [-> (arr & ctl & -> & _)]. apply Hh in Et'. by rewrite healthy_fed in Et'.
Qed.

Lemma failed_kept ses l s w s' w' :
  internal l = true → sys_step ks ses l (s, w) (s', w') → failed_shell s' = false → failed_shell s = false.
Proof.
  intros Hl Hs Hf. inversion Hs; subst; try done.
  - unfold failed_shell, panicked in *. match goal with Ha : active s = _, Hn : a_panicked _ = None |- _ => by rewrite Ha, Hn end.
  - unfold failed_shell, panicked in Hf. simpl in Hf. by destruct (phase s) as [| | | | |[]].
  - by eapply failed_step.
Qed.

Lemma healthy_step c c' : ksys_step ks language c c' → healthy c'.1 → healthy c.1.
Proof.
  intros Hs Hh. destruct Hs as [| | | |k w c Hc|k w i st r k' w' Hi Es|k w t ses s l s' w' Ht Hl Hs]; try done.
  - destruct (kernel_step ks language c k w) as [k' w'] eqn:E. apply kernel_step_grows in E as [Hg _]. by eapply healthy_grows.
  - pose proof (grows_stop_step ks st k w) as Hg. rewrite Es in Hg. by apply (healthy_grows k k'); [apply Hg|].
  - intros t' ses' s0 E. simpl in *. destruct (decide (t = t')) as [<-|Hne].
    + rewrite Ht in E. simplify_eq. eapply failed_kept; [done | exact Hs|]. apply (Hh t ses'). apply lookup_insert_eq.
    + apply (Hh t' ses'). simpl. by rewrite lookup_insert_ne.
Qed.

Lemma healthy_result (k : Kernel Ses) t e : healthy k → task_result k t ≠ Some (Err e).
Proof.
  unfold task_result, task_shell. intros Hh E. destruct (tasks k !! t) as [[ses s]|] eqn:Et; [|done]. apply Hh in Et. simpl in E.
  unfold failed_shell in Et. by destruct (phase s) as [| | | | |[]].
Qed.

(** A stop of a shell that ended well answers the delete that asked for it. *)
Lemma stop_settles sent i st k w r k' w' :
  stops k !! i = Some st → stop_step ks st k w = (Ok r, k', w') → healthy k → settles sent k w (with_stops (replace_stop i r) k') w'.
Proof.
  intros Hi Es Hh.
  assert (kphase k' = kphase k ∧ stops k' = stops k) as [Ep Est].
  { assert (keeps (aside (control_queue k) (stops k) (kphase k)) (stop_step ks st : KS _)) as Ha by (unfold stop_step, stop_shell, send_control; keep_parts).
    specialize (Ha k w ltac:(done)). rewrite Es in Ha. by destruct Ha as (_ & ? & ?). }
  assert (∃ l, gains sent l k w k' w' ∧ option_list (deleting st) ≡ₚ option_list (r ≫= deleting) ++ l) as (l & Hg & El).
  { unfold stop_step, stop_shell in Es. destruct (st_sent st) eqn:Hs; simpl in Es.
    - unfold mbind, K_bind, kget in Es. destruct (task_result k (st_task st)) as [[[]|e]|] eqn:Et; simpl in Es.
      + unfold kcatch in Es. unfold deleting. destruct (st_done st) as [n|reply req] eqn:Ed.
        * injection Es as <- <- <-. exists []. split; [by apply gains_same; rewrite ?app_nil_r | done].
        * destruct (io (send_reply _ _ _ _ _) k w) as [[[[]|e] k1] w1] eqn:E1.
          -- injection Es as <- <- <-. exists [(reply, header req)]. split; [by eapply balanced_reply | done].
          -- destruct (total_send_reply ks reply req "delete_subshell_reply" (Obj [("status", Str "ok")]) w) as ([] & w2 & E2).
             unfold io in E1. by rewrite E2 in E1.
      + by apply healthy_result in Et.
      + injection Es as <- <- <-. exists []. split; [by apply gains_refl | by rewrite app_nil_r].
    - exists []. split.
      + match type of Es with ?m k w = _ => assert (balanced sent [] m) as Hb by balance end. by eapply Hb.
      + assert (r = Some (MkStop (st_task st) (st_interrupt st) true (st_done st))) as ->; [|by rewrite app_nil_r].
        revert Es. cbv [mbind K_bind mret K_ret]. by repeat case_match; intros; simplify_eq. }
  intros Hk. destruct (Hg Hk) as [Eb Hk']. split; [|by destruct Hk'; split].
  unfold kernel_book. simpl. rewrite Ep. f_equiv.
  apply (Permutation_app_inv_l (option_list (deleting st))).
  rewrite base_book_stop by (by rewrite Est). rewrite Eb, El. perm_app.
Qed.

(** A step of a shell task. *)
Lemma task_settles sent k w t ses s l s' w' :
  holds_level sent → tasks k !! t = Some (ses, s) → internal l = true → sys_step ks ses l (s, w) (s', w') →
  failed_shell s' = false → settles sent k w (with_tasks (<[t := (ses, s')]>) k) w'.
Proof.
  intros Hlev Et Hl Hs Hf Hk. destruct (hands_tasks _ _ Hk _ _ _ Et) as [Hg Hin].
  assert (conserves s w s' w') as (Cl & Co & Cg).
  { inversion Hs; subst; try done.
    - by eapply progress_conserves.
    - by apply output_conserves.
    - unfold failed_shell, panicked in Hf. simpl in Hf. by destruct (phase s) as [| | | | |[]].
    - eapply shell_step_conserves; [done | | done | eassumption].
      intros h q Hh Hq Hhold. destruct Hg as [Gq Gh]. destruct (Gh h Hh) as (Ph & _ & Hhh). rewrite Ph, (Gq q Hq).
      apply Hlev; try done; apply Hin; unfold outstanding; rewrite ?Hh; set_solver. }
  split.
  - unfold kernel_book, base_book. simpl. f_equiv. unfold ledger in Cl. fold (shell_book s) in Cl. fold (shell_book s') in Cl.
    pose proof (tasks_book_insert (tasks k) t ses s s' Et) as Hi.
    rewrite !app_assoc. do 3 f_equiv. apply (Permutation_app_inv_l (shell_book s)).
    rewrite Permutation_app_swap_app, Hi, app_assoc, Cl. perm_app.
  - split; simpl; [|apply Hk]. intros t' ses' s0 [[<- [= <- <-]]|[_ E]]%lookup_insert_Some; [split; eauto | by eapply hands_tasks].
Qed.

(** ** The ledger of the kernel *)

(** Runs, with the shell requests and the control requests that arrived. *)
Inductive ledger_run (w0 : World) : list Inbound → list Inbound → Kernel Ses * World → Prop :=
| lr_init : ledger_run w0 [] [] (kernel_init language, w0)
| lr_shell sent ctl k w i :
    ledger_run w0 sent ctl (k, w) → ledger_run w0 (sent ++ [i]) ctl (with_shell_queue (shell_queue k ++ [i]) k, w)
| lr_control sent ctl k w i :
    ledger_run w0 sent ctl (k, w) → ledger_run w0 sent (ctl ++ [i]) (with_control_queue (control_queue k ++ [i]) k, w)
| lr_step sent ctl k w k' w' :
    ledger_run w0 sent ctl (k, w) → ksys_step ks language (k, w) (k', w') →
    length (shell_queue k') ≤ length (shell_queue k) → length (control_queue k') ≤ length (control_queue k) →
    ledger_run w0 sent ctl (k', w').

Lemma holds_level_mono l l' : holds_level l' → (∀ i, i ∈ l → i ∈ l') → holds_level l.
Proof. intros Hl Hs i j Hi Hj. apply Hl; auto. Qed.

Lemma kernel_book_run w0 sent ctl c :
  ledger_run w0 sent ctl c → holds_level sent → in_loop c.1 = true → healthy c.1 →
  kernel_book c.1 c.2 ≡ₚ answers (trace w0) ++ keys sent ++ keys ctl ∧ hands_ok sent c.1.
Proof.
  induction 1 as [|sent ctl k w i Hr IH|sent ctl k w i Hr IH|sent ctl k w k' w' Hr IH Hs Hq Hc]; intros Hlev Hl Hh; simpl in *.
  - unfold kernel_book, base_book, tasks_book. simpl. rewrite map_to_list_singleton. simpl. split; [by rewrite !app_nil_r|].
    split; simpl; [|by intros i ?%elem_of_nil]. intros t ses s [_ [= <- <-]]%lookup_singleton_Some.
    split; [split; [by intros q ?%elem_of_nil | done] | by intros i ?%elem_of_nil].
  - destruct IH as [Eb [Ht Hq]]; [eapply holds_level_mono; [exact Hlev | set_solver] | done | done |]. split.
    + rewrite keys_app. unfold kernel_book, base_book in *. simpl in *. rewrite keys_app.
      trans (keys [i] ++ answers (trace w0) ++ keys sent ++ keys ctl); [rewrite <- Eb|]; perm_app.
    + split; simpl; [intros t ses s E; destruct (Ht t ses s E); split; [done|]|]; set_solver.
  - destruct IH as [Eb Hk]; [done..|]. split; [|destruct Hk; by split].
    rewrite keys_app. unfold kernel_book, base_book in *. simpl in *. rewrite keys_app.
    trans (keys [i] ++ answers (trace w0) ++ keys sent ++ keys ctl); [rewrite <- Eb|]; perm_app.
  - assert (in_loop k = true) as Hl0 by (by apply (out_step (k, w) (k', w'))).
    assert (healthy k) as Hh0 by by apply (healthy_step (k, w) (k', w')).
    destruct IH as [Eb Hk]; [done..|]. enough (settles sent k w k' w') as Hset by (destruct (Hset Hk) as [Eb' ?]; by rewrite Eb').
    inversion Hs; subst; simpl in *.
    + rewrite length_app in Hq. simpl in Hq. lia.
    + rewrite length_app in Hc. simpl in Hc. lia.
    + apply gains_settles; [done|]. by apply gains_same; rewrite ?app_nil_r.
    + apply gains_settles; [done|]. by apply gains_refl.
    + by eapply kernel_step_settles.
    + by eapply stop_settles.
    + eapply task_settles; try done. apply (Hh t ses). apply lookup_insert_eq.
Qed.

(** Every run of the kernel is such a run: only arrivals lengthen the channels
    of the main loop. *)
Definition shorter (k k' : Kernel Ses) : Prop :=
  length (shell_queue k') ≤ length (shell_queue k) ∧ length (control_queue k') ≤ length (control_queue k).

Definition shrinks {A} (m : KS A) : Prop := ∀ k0, keeps (shorter k0) m.

Lemma shrinks_route_shell inb : shrinks (route_shell ks language inb).
Proof.
  intros k0. unfold route_shell, deliver, create_subshell, spawn_shell, send_inbound.
  keep_parts; apply keeps_kmodify; by intros k [? ?].
Qed.

Lemma shrinks_route_pending n : shrinks (route_pending ks language n).
Proof.
  induction n as [|n IH]; intros k0 k w [Hs Hc]; [done|]. simpl. unfold kget, kmodify, mbind at 1, K_bind at 1.
  destruct (shell_queue k) as [|i q] eqn:Eq; [by rewrite <- Eq in Hs|]. unfold mbind at 1, K_bind at 1.
  apply (keeps_bind (shorter k0) (route_shell ks language i)); [apply shrinks_route_shell | intros _; apply IH |].
  split; simpl in *; [lia | done].
Qed.

#[local] Hint Extern 1 (keeps (shorter _) (kmodify _)) => (apply keeps_kmodify; intros ? [? ?]; split; assumption) : kern.
#[local] Hint Extern 1 (keeps (shorter _) (route_pending _ _ _)) => apply shrinks_route_pending : kern.

Lemma shrinks_stop st : shrinks (stop_step ks st).
Proof. intros k0. unfold stop_step, stop_shell, send_control. keep_parts. Qed.

Lemma shrinks_kernel_step c k w : shorter k (kernel_step ks language c k w).1.
Proof.
  assert (shorter k k) as Hk by done.
  assert (∀ inb, shrinks (handle_control ks language inb)) as Hctl.
  { intros inb k0. unfold handle_control, route_pending_shells, interrupt_shells, send_control_or_fail, send_control, create_subshell,
      spawn_shell, stop_in_background. cbv zeta. keep_parts. }
  unfold kernel_step. destruct (kphase k) as [|wt todo id st found reply req|wt todo r|r]; [| | |done].
  - assert (shorter k (run_loop ks language c k w).1.2) as Hr; [|by destruct (run_loop ks language c k w) as [[[[]|e] k1] w1]].
    assert (c = KShellMessage ∨ c = KControl ∨ (c ≠ KShellMessage ∧ c ≠ KControl)) as [->|[->|[H1' H2']]] by (destruct c; auto).
    + simpl. unfold kget, kmodify, mbind at 1, K_bind at 1. destruct (shell_queue k) as [|i q] eqn:Eq; [done|].
      unfold mbind at 1, K_bind at 1. apply (keeps_bind (shorter k) (route_shell ks language i)); [apply shrinks_route_shell | auto with kern |].
      split; simpl; [rewrite Eq; simpl; lia | done].
    + simpl. unfold kget, kmodify, mbind at 1, K_bind at 1. destruct (control_queue k) as [|i q] eqn:Eq; [done|].
      unfold mbind at 1, K_bind at 1. apply Hctl. split; simpl; [done | rewrite Eq; simpl; lia].
    + enough (keeps (shorter k) (run_loop ks language c)) as Hc by by apply Hc.
      destruct c; simpl; try done; unfold drop_routes, interrupt_shells, send_control_or_fail, send_control; keep_parts.
      match goal with c : SessionCommand |- _ => destruct c end; simpl; unfold create_subshell, spawn_shell, stop_in_background; keep_parts.
  - assert (keeps (shorter k) (release_step ks wt todo id st found reply req : KS unit)) as Hr
      by (unfold release_step, send_control_or_fail, send_control; keep_parts).
    specialize (Hr k w Hk). by destruct (release_step _ _ _ _ _ _ _ _ k w) as [[[]]].
  - assert (keeps (shorter k) (shutdown_step wt todo r : KS unit)) as Hr by (unfold shutdown_step, stop_shell, send_control; keep_parts).
    specialize (Hr k w Hk). by destruct (shutdown_step wt todo r k w) as [[[]]].
Qed.

Lemma reachable_ledger_run w0 c : reachable ks language w0 c → ∃ sent ctl, ledger_run w0 sent ctl c.
Proof.
  induction 1 as [|c c' Hr (sent & ctl & IH) Hs]; [exists [], []; constructor|].
  destruct Hs as [k w i|k w i| | |k w c Hc|k w i st r k' w' Hi Es|k w t ses s l s' w' Ht Hl Hs].
  - exists (sent ++ [i]), ctl. by constructor.
  - exists sent, (ctl ++ [i]). by constructor.
  - exists sent, ctl. eapply lr_step; [exact IH | by constructor | done | done].
  - exists sent, ctl. eapply lr_step; [exact IH | by constructor | done | done].
  - exists sent, ctl. pose proof (shrinks_kernel_step c k w) as [? ?]. destruct (kernel_step ks language c k w) as [k' w'] eqn:E.
    eapply lr_step; [exact IH | rewrite <- E; by constructor | done | done].
  - exists sent, ctl. pose proof (shrinks_stop st k k w ltac:(done)) as Hk. rewrite Es in Hk. destruct Hk.
    eapply lr_step; [exact IH | by eapply k_stop | done | done].
  - exists sent, ctl. eapply lr_step; [exact IH | by eapply k_task | done | done].
Qed.

(** C3: (no request of the kernel is lost or answered twice) in every run of the
    whole kernel, with any interleaving of clients, main loop, shells and
    background stops, in which no shell request is a hold strictly above another
    and up to any moment at which the loop has not been left, no shell task has
    failed and no execution has panicked: the replies sent so far, what the running
    shells still owe (the reply of a running execution, and the requests in their
    hands), what shells that ended left behind unanswered, the requests in the two
    channels of the main loop, the deletes that wait for their subshell and the
    release under way are together exactly the shell and control requests that
    arrived, each once. *)
Theorem kernel_requests_accounted w0 sent ctl k w :
  ledger_run w0 sent ctl (k, w) → holds_level sent → in_loop k = true → healthy k →
  answers (trace w) ++ owed k ++ left_behind k ++ keys (shell_queue k) ++ keys (control_queue k) ++ omap deleting (stops k) ++ releasing (kphase k) ≡ₚ
  answers (trace w0) ++ keys sent ++ keys ctl.
Proof.
  intros Hr Hlev Hl Hh. destruct (kernel_book_run w0 sent ctl (k, w) Hr Hlev Hl Hh) as [Eb _]. rewrite <- Eb. by rewrite kernel_book_split.
Qed.
End KernelLedger.
