(* ===== verification/KernelRest.v ===== *)
(** * The kernel left alone (src/src/engine.rs, [run_kernel_with_interrupter])

    Termination of the whole kernel.  The moves the kernel makes by itself are
    those of its main loop on what has arrived, of its background stops and of its
    shells; a wait that is not over is no move.  Of each shell, [code t] says
    whether the code it runs goes on and [loop t] whether the language's calls in
    its loop return, so that code that never ends, ignores its interrupt, or
    blocks the shell is covered.  While time passes and code sends what it likes,
    the kernel makes finitely many moves of its own; then it has returned, or
    everything that arrived has been read and answered, but for what a hold keeps
    back and what waits for code that does not return.

    The measure is lexicographic: whether the loop was left; what arrived and was
    not read; the shells still to be asked, the stops under way and the table;
    then the work of the shells, as in [Rest]. *)

From Stdlib Require Import ZArith.
From stdpp Require Import base gmap sets list strings lexico well_founded.
From S2P Require Import Prelude Json Errors Wire Language Services Queue Requests Shell Ledger Controls.
From S2P Require Import Schedule Rest Kernel System Routing Context ControlRequests KernelLedger.

(** ** The measure *)

Section Measure.
Context {Ses : Type}.

Definition summed (f : Shell → nat) (m : gmap nat (Ses * Shell)) : nat := sum_list_with (λ kv, f kv.2.2) (map_to_list m).

Lemma summed_insert f (m : gmap nat (Ses * Shell)) t ses s s' :
  m !! t = Some (ses, s) → summed f (<[t := (ses, s')]> m) + f s = summed f m + f s'.
Proof.
  intros E. unfold summed. rewrite <- (insert_delete_eq m t (ses, s')).
  rewrite (map_to_list_insert (delete t m)) by apply lookup_delete_eq. rewrite <- (map_to_list_delete m t (ses, s) E). simpl. lia.
Qed.

Definition class (p : KPhase) : nat := match p with KLoop | KReleasing _ _ _ _ _ _ _ => 2 | KStopping _ _ _ => 1 | KExit _ => 0 end.

Definition inbox (k : Kernel Ses) : nat := length (shell_queue k) + length (control_queue k) + length (commands k).

Definition asking (p : KPhase) : nat :=
  match p with
  | KReleasing wt todo _ _ _ _ _ => 2 * length todo + match wt with Some _ => 2 | None => 1 end
  | KStopping wt todo _ => 2 * length todo + match wt with Some _ => 2 | None => 1 end
  | _ => 0
  end.

Definition stops_left (l : list BackgroundStop) : nat := sum_list_with (λ st, if st_sent st then 1 else 2) l.

Definition kweight (k : Kernel Ses) : nat * (nat * (nat * (nat * nat))) :=
  (class (kphase k), (inbox k, (asking (kphase k) + stops_left (stops k) + size (shells k),
     (summed (λ s, (weight s).1) (tasks k), summed (λ s, (weight s).2) (tasks k))))).

Definition klighter (k' k : Kernel Ses) : Prop := lexico (kweight k') (kweight k).

Lemma klighter_wf : well_founded klighter.
Proof. apply (wf_projected lexico kweight); [done|]. repeat apply prod_lexico_wf; apply nat_lexico_wf. Qed.

Lemma klighter_class (k k' : Kernel Ses) : class (kphase k') < class (kphase k) → klighter k' k.
Proof. intros ?. by left. Qed.

Lemma klighter_inbox (k k' : Kernel Ses) : class (kphase k') ≤ class (kphase k) → inbox k' < inbox k → klighter k' k.
Proof.
  intros Hc Hi. destruct (decide (class (kphase k') = class (kphase k))) as [E|E]; [|left; unfold lexico, nat_lexico; simpl; lia].
  right. split; [done|]. by left.
Qed.

Lemma klighter_asking (k k' : Kernel Ses) :
  class (kphase k') ≤ class (kphase k) → inbox k' ≤ inbox k →
  asking (kphase k') + stops_left (stops k') + size (shells k') < asking (kphase k) + stops_left (stops k) + size (shells k) → klighter k' k.
Proof.
  intros Hc Hi Ha. destruct (decide (class (kphase k') = class (kphase k))) as [E|E]; [|left; unfold lexico, nat_lexico; simpl; lia].
  destruct (decide (inbox k' = inbox k)) as [E'|E']; [|apply klighter_inbox; lia]. right. split; [done|]. right. split; [done|]. by left.
Qed.

Lemma klighter_task (k : Kernel Ses) t ses s s' :
  tasks k !! t = Some (ses, s) → lighter s' s → klighter (with_tasks (<[t := (ses, s')]>) k) k.
Proof.
  intros Et Hl. pose proof (summed_insert (λ s, (weight s).1) _ _ _ _ s' Et) as H1.
  pose proof (summed_insert (λ s, (weight s).2) _ _ _ _ s' Et) as H2.
  do 3 (right; split; [done|]). unfold lighter, lexico, prod_lexico, lexico, nat_lexico in *. cbn [kweight tasks with_tasks fst snd] in *. lia.
Qed.

Lemma stops_left_replace i st st' (l : list BackgroundStop) :
  l !! i = Some st → match st' with Some st' => st_sent st = false ∧ st_sent st' = true | None => True end →
  stops_left (replace_stop i st' l) < stops_left l.
Proof.
  intros Hi Hs. pose proof (delete_Permutation l i st Hi) as Hd.
  assert (∀ l1 l2, l1 ≡ₚ l2 → stops_left l1 = stops_left l2) as Hp.
  { intros l1 l2 Hl. unfold stops_left. by rewrite Hl. }
  rewrite (Hp _ _ Hd). destruct st' as [st'|]; simpl.
  - rewrite (Hp _ _ (insert_Permutation l i st st' Hi)). simpl. destruct Hs as [-> ->]. unfold stops_left. lia.
  - destruct (st_sent st); unfold stops_left; lia.
Qed.
End Measure.

(** ** The kernel's own moves *)

(** The branches of the loop that have what arrived or ended behind them; the
    others are signals, and the end of the transport. *)
Definition kown (c : KChoice) : bool :=
  match c with KFailed | KShellEnded _ | KShellMessage | KCommand | KControl => true | _ => false end.

Section Rest.
Context `{JsonTotal} {Ses : Type} `{LanguageSession Ses} {L : Type} `{Language L Ses} (ks : KernelServices) (language : L).
#[local] Notation KS := (@K Ses).

Definition release_answer (k : Kernel Ses) (t n : nat) : option bool :=
  task_shell k t ≫= λ s, snd <$> List.find (λ a, bool_decide (a.1 = n)) (released s).

(** The main loop awaits a shell that has not answered, or has returned. *)
Definition kwaits (k : Kernel Ses) : bool :=
  match kphase k with
  | KReleasing (Some (t, n)) _ _ _ _ _ _ => bool_decide (release_answer k t n = None) && live k t
  | KStopping (Some t) _ _ => match task_result k t with None => true | Some _ => false end
  | KExit _ => true
  | _ => false
  end.

Definition stop_waits (k : Kernel Ses) (st : BackgroundStop) : bool :=
  st_sent st && match task_result k (st_task st) with None => true | Some _ => false end.

Inductive kernel_move (code loop : nat → bool) : Kernel Ses * World → Kernel Ses * World → Prop :=
| km_loop k w c :
    (kphase k = KLoop → kready k w c = true ∧ kown c = true) → kwaits k = false →
    kernel_move code loop (k, w) (kernel_step ks language c k w)
| km_stop k w i st r k' w' :
    stops k !! i = Some st → stop_waits k st = false → stop_step ks st k w = (Ok r, k', w') →
    kernel_move code loop (k, w) (with_stops (replace_stop i r) k', w')
| km_task k w t ses s s' w' :
    tasks k !! t = Some (ses, s) → own_step ks ses (code t) (loop t) (s, w) (s', w') →
    kernel_move code loop (k, w) (with_tasks (<[t := (ses, s')]>) k, w').

(** All code ends, and every call of a shell returns. *)
Definition always (t : nat) : bool := true.

(** What goes on besides: time passes, and running code sends outputs. *)
Inductive kmean_step : Kernel Ses * World → Kernel Ses * World → Prop :=
| kmean_world k w w' : (now w ≤ now w')%Z → trace w' = trace w → kmean_step (k, w) (k, w')
| kmean_output k w t ses s o w' :
    tasks k !! t = Some (ses, s) → sys_step ks ses (LOutput o) (s, w) (s, w') → kmean_step (k, w) (k, w').

Definition kgoes (c c' : Kernel Ses * World) : Prop := kernel_move always always c c' ∨ kmean_step c c'.

(** The kernel's next own move, after whatever goes on besides. *)
Definition knext_move (c c' : Kernel Ses * World) : Prop := ∃ c1, rtc kmean_step c c1 ∧ kernel_move always always c1 c'.

Lemma kernel_move_sys code loop c c' : kernel_move code loop c c' → ksys_step ks language c c'.
Proof.
  destruct 1 as [k w c Hc _|k w i st r k' w' Hi _ Es|k w t ses s s' w' Et (l & Hl & Hs)].
  - apply k_loop. naive_solver.
  - by eapply k_stop.
  - eapply k_task; [exact Et | | exact Hs]. by destruct l.
Qed.

Lemma with_tasks_same (k : Kernel Ses) t x : tasks k !! t = Some x → with_tasks (<[t := x]>) k = k.
Proof. intros E. unfold with_tasks. rewrite insert_id by done. by destruct k. Qed.

Lemma kmean_sys c c' : kmean_step c c' → ksys_step ks language c c'.
Proof.
  destruct 1 as [k w w' Hn Ht|k w t ses s o w' Et Hs]; [by apply k_world|].
  rewrite <- (with_tasks_same k t (ses, s) Et) at 2. by eapply (k_task _ _ k w t ses s (LOutput o)).
Qed.

Lemma kgoes_sys c c' : kgoes c c' → ksys_step ks language c c'.
Proof. intros [?%kernel_move_sys|?%kmean_sys]; done. Qed.

Lemma kgoes_reachable w0 c c' : reachable ks language w0 c → rtc kgoes c c' → reachable ks language w0 c'.
Proof. intros Hr Hs. revert Hr. induction Hs as [|c c1 c2 Hs _ IH]; [done|]. intros Hr. apply IH. eapply reach_step; [exact Hr | by apply kgoes_sys]. Qed.

(** ** Every move makes the kernel lighter *)

Definition smaller (n : nat) (k : Kernel Ses) : Prop := inbox k ≤ n ∧ in_loop k = true.

#[local] Hint Extern 1 (keeps (smaller _) (kmodify _)) => (apply keeps_kmodify; intros ? [? ?]; split; first [assumption | reflexivity]) : kern.

Lemma smaller_route_shell n inb : keeps (smaller n) (route_shell ks language inb).
Proof. unfold route_shell, deliver, create_subshell, spawn_shell, send_inbound. keep_parts. Qed.
#[local] Hint Resolve smaller_route_shell : kern.

Lemma smaller_route_pending n m : keeps (smaller n) (route_pending ks language m).
Proof.
  induction m as [|m IH]; intros k w [Hn Hl]; [done|]. simpl. unfold kget, kmodify, mbind at 1, K_bind at 1.
  destruct (shell_queue k) as [|i q] eqn:Eq; [done|]. unfold mbind at 1, K_bind at 1.
  apply (keeps_bind (smaller n) (route_shell ks language i)); [auto with kern | intros _; apply IH|].
  split; [|done]. unfold inbox in *. rewrite Eq in Hn. simpl in *. lia.
Qed.
#[local] Hint Resolve smaller_route_pending : kern.

Lemma smaller_handle_control n inb : keeps (smaller n) (handle_control ks language inb).
Proof.
  unfold handle_control, route_pending_shells, interrupt_shells, send_control_or_fail, send_control, create_subshell, spawn_shell, stop_in_background.
  cbv zeta. keep_parts.
Qed.

Lemma smaller_session_command n c : keeps (smaller n) (session_command language c).
Proof. destruct c; simpl; unfold create_subshell, spawn_shell, stop_in_background; keep_parts. Qed.
#[local] Hint Resolve smaller_handle_control smaller_session_command : kern.

(** What becomes of the kernel after a branch of the loop. *)
Definition looped (r : Result bool * Kernel Ses * World) : Kernel Ses :=
  match r with (Ok false, k', _) => k' | (Ok true, k', _) => leave_loop (Ok tt) k' | (Err e, k', _) => leave_loop (Err e) k' end.

Lemma klighter_left r (k k1 : Kernel Ses) : in_loop k = true → klighter (leave_loop r k1) k.
Proof. intros Hl. apply klighter_class. unfold in_loop in Hl. destruct (kphase k); simpl; try done; lia. Qed.

Lemma loop_in (k : Kernel Ses) : kphase k = KLoop → in_loop k = true.
Proof. unfold in_loop. by intros ->. Qed.

(** A message read. *)
Lemma klighter_read (m : KS bool) k w k0 n :
  kphase k = KLoop → inbox k = S n → keeps (smaller n) m → smaller n k0 → klighter (looped (m k0 w)) k.
Proof.
  intros Hp Hi Hm [Hn Hl]%(Hm k0 w). destruct (m k0 w) as [[[[]|e] k1] w1]; simpl in *; [by apply klighter_left, loop_in| |by apply klighter_left, loop_in].
  apply klighter_inbox; [|lia]. rewrite Hp. simpl. by destruct (kphase k1); simpl; lia.
Qed.

Lemma run_loop_klighter c k w : kphase k = KLoop → kready k w c = true → kown c = true → klighter (looped (run_loop ks language c k w)) k.
Proof.
  intros Hp Hr Hc.
  destruct c; simpl in Hr, Hc; try done; simpl.
  - unfold io, gets, mbind, K_bind. destruct (failures w) as [|e l] eqn:Ef; [done|]. simpl. by apply klighter_left, loop_in.
  - apply bool_decide_eq_true in Hr as [r Hr]. unfold kget, mbind at 1, K_bind at 1. rewrite Hr. unfold kmodify, mbind at 1, K_bind at 1.
    unfold io, lift, mbind at 1, K_bind at 1. destruct r as [[]|e]; simpl; [|by apply klighter_left, loop_in].
    case_decide; simpl; [by apply klighter_left, loop_in|]. apply klighter_asking; simpl; [done | done|].
    unfold ended_shell in Hr. destruct (shells k !! id) as [t|] eqn:Et; [|done]. rewrite map_size_delete, Et.
    assert (size (shells k) ≠ 0) by (intros E0%map_size_empty_inv; by rewrite E0 in Et). lia.
  - unfold kget, mbind at 1, K_bind at 1. destruct (shell_queue k) as [|i q] eqn:Eq; [done|]. unfold kmodify, mbind at 1, K_bind at 1.
    eapply (klighter_read (route_shell ks language i ;;; mret false) k w _ (length q + length (control_queue k) + length (commands k))); [done | unfold inbox; rewrite Eq; simpl; lia | keep_parts|].
    split; [unfold inbox; simpl; lia | by apply loop_in].
  - unfold kget, mbind at 1, K_bind at 1. destruct (commands k) as [|i q] eqn:Eq; [done|]. unfold kmodify, mbind at 1, K_bind at 1.
    eapply (klighter_read (session_command language i ;;; mret false) k w _ (length (shell_queue k) + length (control_queue k) + length q)); [done | unfold inbox; rewrite Eq; simpl; lia | keep_parts|].
    split; [unfold inbox; simpl; lia | by apply loop_in].
  - unfold kget, mbind at 1, K_bind at 1. destruct (control_queue k) as [|i q] eqn:Eq; [done|]. unfold kmodify, mbind at 1, K_bind at 1.
    eapply (klighter_read (handle_control ks language i) k w _ (length (shell_queue k) + length q + length (commands k))); [done | unfold inbox; rewrite Eq; simpl; lia | keep_parts|].
    split; [unfold inbox; simpl; lia | by apply loop_in].
Qed.

(** The tables and the channels of the main loop, which controls do not touch. *)
Definition fixed (k0 k : Kernel Ses) : Prop :=
  shells k = shells k0 ∧ inbox k = inbox k0 ∧ stops k = stops k0 ∧ kphase k = kphase k0.

#[local] Hint Extern 1 (keeps (fixed _) (kmodify _)) => (apply keeps_kmodify; intros ? (? & ? & ? & ?); split_and!; assumption) : kern.

Lemma fixed_send_control k0 t c : keeps (fixed k0) (send_control t c : KS bool).
Proof. unfold send_control. keep_parts. Qed.
#[local] Hint Resolve fixed_send_control : kern.

Lemma fixed_stop_shell k0 t b : keeps (fixed k0) (stop_shell t b : KS unit).
Proof. unfold stop_shell. keep_parts. Qed.

(** A step that only changes the phase, for one with less to ask. *)
Lemma klighter_phase (k k1 : Kernel Ses) p :
  fixed k k1 → class p ≤ class (kphase k) → asking p < asking (kphase k) → klighter (with_kphase p k1) k.
Proof. intros (Es & Ei & Et & _) Hc Ha. apply klighter_asking; simpl; [done | unfold inbox in *; simpl; lia|]. rewrite Es, Et. lia. Qed.

Lemma release_klighter wt todo id st found reply req k w :
  kphase k = KReleasing wt todo id st found reply req → kwaits k = false →
  klighter (match release_step ks wt todo id st found reply req k w with (Ok _, k', _) => k' | (Err e, k', _) => leave_loop (Err e) k' end) k.
Proof.
  intros Hp Hw. unfold kwaits in Hw. rewrite Hp in Hw. assert (in_loop k = true) as Hl by (unfold in_loop; by rewrite Hp).
  assert (fixed k k) as Hk by done. unfold release_step. destruct wt as [[t n]|].
  - unfold kget, mbind at 1, K_bind at 1. fold (release_answer k t n). destruct (release_answer k t n) as [b|] eqn:Ea.
    + unfold kmodify. apply klighter_phase; [done|rewrite Hp; simpl; lia..].
    + rewrite bool_decide_true in Hw by done. simpl in Hw. unfold mbind, K_bind. rewrite Hw. by apply klighter_left.
  - destruct todo as [|t todo].
    + unfold mbind, K_bind, io. destruct (send_reply _ _ _ _ _ w) as [[u|e] w1]; [|by apply klighter_left].
      unfold kmodify. apply klighter_phase; [done|rewrite Hp; simpl; lia..].
    + unfold kget, kmodify, mbind at 1, K_bind at 1. unfold mbind at 1, K_bind at 1.
      unfold send_control_or_fail, mbind, K_bind.
      pose proof (fixed_send_control k t (Release id st (next_oneshot k)) (with_oneshot (next_oneshot k + 1) k) w Hk) as Hf.
      destruct (send_control t _ _ w) as [[[[]|e] k1] w1]; simpl in *; [|by apply klighter_left..].
      apply klighter_phase; [done|rewrite Hp; simpl; lia..].
Qed.

Lemma shutdown_klighter wt todo r k w :
  kphase k = KStopping wt todo r → kwaits k = false → klighter (shutdown_step wt todo r k w).1.2 k.
Proof.
  intros Hp Hw. unfold kwaits in Hw. rewrite Hp in Hw. assert (fixed k k) as Hk by done. unfold shutdown_step. destruct wt as [t|].
  - unfold kget, mbind at 1, K_bind at 1. destruct (task_result k t) as [[[]|e]|]; [..|done].
    + unfold kmodify. apply klighter_phase; [done|rewrite Hp; simpl; lia..].
    + destruct (is_ok r); unfold io, emit, kmodify, mbind, K_bind; simpl; (apply klighter_phase; [done|rewrite Hp; simpl; lia..]).
  - destruct todo as [|t todo]; [unfold kmodify; apply klighter_phase; [done|rewrite Hp; simpl; lia..]|].
    pose proof (fixed_stop_shell k t true k w Hk) as Hf. unfold mbind, K_bind, kmodify.
    destruct (stop_shell t true k w) as [[[[]|e] k1] w1] eqn:Es; simpl in *; [apply klighter_phase; [done|rewrite Hp; simpl; lia..]|].
    exfalso. unfold stop_shell, send_control, kget, kmodify, mbind, K_bind, mret, K_ret in Es. repeat case_match; simplify_eq.
Qed.

Lemma kernel_step_klighter c k w :
  (kphase k = KLoop → kready k w c = true ∧ kown c = true) → kwaits k = false → klighter (kernel_step ks language c k w).1 k.
Proof.
  intros Hc Hw. unfold kernel_step. destruct (kphase k) as [|wt todo id st found reply req|wt todo r|r] eqn:Hp.
  - destruct (Hc eq_refl) as [Hr Ho]. pose proof (run_loop_klighter c k w Hp Hr Ho) as Hl. by destruct (run_loop ks language c k w) as [[[[]|e] k1] w1].
  - pose proof (release_klighter _ _ _ _ _ _ _ _ w Hp Hw) as Hl. by destruct (release_step _ _ _ _ _ _ _ _ k w) as [[[]] ?].
  - pose proof (shutdown_klighter _ _ _ _ w Hp Hw) as Hl. by destruct (shutdown_step wt todo r k w) as [[]].
  - unfold kwaits in Hw. by rewrite Hp in Hw.
Qed.

#[local] Hint Resolve fixed_stop_shell : kern.

Lemma fixed_stop_step k0 st : keeps (fixed k0) (stop_step ks st : KS _).
Proof. unfold stop_step. keep_parts. Qed.

Lemma stop_step_result st k w r k' w' :
  stop_step ks st k w = (Ok r, k', w') → stop_waits k st = false →
  match r with Some st' => st_sent st = false ∧ st' = MkStop (st_task st) (st_interrupt st) true (st_done st) | None => st_sent st = true end.
Proof.
  unfold stop_step, stop_waits. intros E Hw. destruct (st_sent st) eqn:Hs; simpl in *.
  - unfold kget, mbind at 1, K_bind at 1 in E. destruct (task_result k (st_task st)) as [[[]|e]|]; [..|done].
    + unfold mbind, K_bind, kcatch, io, report_to_kernel, mret, K_ret in E. repeat case_match; by simplify_eq.
    + unfold io, report_to_kernel, mbind, K_bind, mret, K_ret in E. by simplify_eq.
  - unfold mbind, K_bind, mret, K_ret in E. destruct (stop_shell _ _ k w) as [[[u|e] k1] w1]; by simplify_eq.
Qed.

Lemma stop_klighter i st k w r k' w' :
  stops k !! i = Some st → stop_waits k st = false → stop_step ks st k w = (Ok r, k', w') → klighter (with_stops (replace_stop i r) k') k.
Proof.
  intros Hi Hw E. pose proof (fixed_stop_step k st k w ltac:(done)) as Hf. rewrite E in Hf. destruct Hf as (Es & Ei & Et & Ep). simpl in *.
  apply stop_step_result in E; [|done]. apply klighter_asking; simpl; [by rewrite Ep | unfold inbox in *; simpl; lia|].
  assert (stops_left (replace_stop i r (stops k)) < stops_left (stops k)) as Hlt.
  { eapply stops_left_replace; [exact Hi|]. destruct r; [by destruct E as [? ->] | done]. }
  rewrite Et, Es, Ep. lia.
Qed.

Lemma kernel_move_klighter code loop c c' : kernel_move code loop c c' → klighter c'.1 c.1.
Proof.
  destruct 1 as [k w c Hc Hw|k w i st r k' w' Hi Hw Es|k w t ses s s' w' Et Hs]; simpl.
  - by apply kernel_step_klighter.
  - by eapply stop_klighter.
  - eapply klighter_task; [exact Et|]. exact (own_step_lighter _ _ _ _ _ _ Hs).
Qed.

Lemma kernel_move_sn code loop c : sn (kernel_move code loop) c.
Proof.
  destruct c as [k w]. revert w. induction (klighter_wf k) as [k _ IH]. intros w.
  constructor. intros [k' w'] Hm. apply IH. exact (kernel_move_klighter _ _ _ _ Hm).
Qed.

Lemma kmean_steps_same c c' : rtc kmean_step c c' → c'.1 = c.1.
Proof. induction 1 as [|c c1 c2 Hs _ IH]; [done|]. rewrite IH. by destruct Hs. Qed.

Lemma knext_move_sn c : sn knext_move c.
Proof.
  destruct c as [k w]. revert w. induction (klighter_wf k) as [k _ IH]. intros w.
  constructor. intros [k' w'] ([k1 w1] & Hm%kmean_steps_same & Hs%kernel_move_klighter). simpl in *. subst. by apply IH.
Qed.

(** ** What the waits are for *)

(** Task [t] exists, and keeps a promise for as long as it runs. *)
Definition promised (Q : Shell → Prop) (k : Kernel Ses) (t : nat) : Prop :=
  ∃ ses s, tasks k !! t = Some (ses, s) ∧ (running s = true → Q s).

Definition will_release (n : nat) (s : Shell) : Prop := (∃ id st, Release id st n ∈ controls s) ∨ n ∈ (released s).*1.
Definition will_end (s : Shell) : Prop := stop_coming s ∧ clear_coming s.

Definition waited (p : KPhase) : list nat :=
  match p with KReleasing _ todo _ _ _ _ _ | KStopping _ todo _ => todo | _ => [] end.

Record waits_ok (k : Kernel Ses) : Prop := {
  wo_ok : kernel_ok k;
  wo_stops : ∀ st, st ∈ stops k → promised (λ s, st_sent st = true → stop_coming s) k (st_task st);
  wo_todo : ∀ t, t ∈ waited (kphase k) → is_Some (tasks k !! t);
  wo_phase : match kphase k with
             | KReleasing (Some (t, n)) _ _ _ _ _ _ => promised (will_release n) k t
             | KStopping (Some t) _ _ => promised will_end k t
             | _ => True
             end;
}.

Lemma running_fed s arr ctl : running (fed s arr ctl) = running s.
Proof. done. Qed.

Lemma promised_grows Q k k' t :
  (∀ s arr ctl, Q s → Q (fed s arr ctl)) → kgrows k k' → promised Q k t → promised Q k' t.
Proof.
  intros HQ Hg (ses & s & Et & Hs). specialize (Hg t). rewrite Et in Hg. destruct (tasks k' !! t) as [[ses' s']|] eqn:Et'; [|done].
  destruct Hg as [-> (arr & ctl & -> & _)]. eexists ses, _. split; [exact Et'|]. rewrite running_fed. auto.
Qed.

Lemma stop_coming_fed s arr ctl : stop_coming s → stop_coming (fed s arr ctl).
Proof. unfold stop_coming. simpl. set_solver. Qed.

Lemma will_release_fed n s arr ctl : will_release n s → will_release n (fed s arr ctl).
Proof. unfold will_release. simpl. set_solver. Qed.

Lemma clear_coming_controls s ctl : clear_coming s → clear_coming (fed s [] ctl).
Proof.
  intros [(Hn & Hc & Ha)|Hc]; [left|right; simpl; set_solver]. unfold cleared, all_items. simpl. by rewrite app_nil_r.
Qed.

Lemma will_end_controls s ctl : will_end s → will_end (fed s [] ctl).
Proof. intros [? ?]. split; [by apply stop_coming_fed | by apply clear_coming_controls]. Qed.

(** A move of a task keeps its promises and those of the others. *)
Lemma promised_task Q k w t0 ses s l s' w' t :
  (∀ s s', coming_kept s s' → running s' = true → Q s → Q s') →
  tasks k !! t0 = Some (ses, s) → internal l = true → sys_step ks ses l (s, w) (s', w') →
  promised Q k t → promised Q (with_tasks (<[t0 := (ses, s')]>) k) t.
Proof.
  intros HQ Et Hl Hs (ses1 & s1 & Et1 & Hs1). unfold promised. simpl. destruct (decide (t0 = t)) as [->|Hne].
  - rewrite lookup_insert_eq. rewrite Et in Et1. simplify_eq. eexists _, _. split; [done|]. intros Hr.
    eapply HQ; [eapply sys_step_coming; [|exact Hs]; by destruct l | done|]. apply Hs1. inversion Hs; subst; done.
  - rewrite lookup_insert_ne by done. eauto.
Qed.

Lemma coming_stop (b : bool) s s' : coming_kept s s' → running s' = true → (b = true → stop_coming s) → b = true → stop_coming s'.
Proof. intros [?|(Hs & _)] ?; [congruence|auto]. Qed.

Lemma coming_release n s s' : coming_kept s s' → running s' = true → will_release n s → will_release n s'.
Proof. intros [?|(_ & _ & Hr)] ?; [congruence|]. unfold will_release. intros [(id & st & Hin)|Hin]; [destruct (Hr id st n (or_introl Hin)); eauto | destruct (Hr "" "" n (or_intror Hin)); eauto]. Qed.

Lemma coming_end s s' : coming_kept s s' → running s' = true → will_end s → will_end s'.
Proof. intros [?|(Hs & Hc & _)] ?; [congruence|]. intros [? ?]. split; auto. Qed.

(** ** The waits stay sound *)

(** Stops, and shells still to be asked, are tasks. *)
Definition placed (k : Kernel Ses) : Prop :=
  kernel_ok k ∧ (∀ st, st ∈ stops k → is_Some (tasks k !! st_task st)) ∧ (∀ t, t ∈ waited (kphase k) → is_Some (tasks k !! t)).

Definition still (st : list BackgroundStop) (p : KPhase) (k : Kernel Ses) : Prop := stops k = st ∧ kphase k = p.

#[local] Hint Extern 1 (keeps (still _ _) (kmodify _)) => (apply keeps_kmodify; intros ? [? ?]; split; assumption) : kern.

Lemma still_route_shell st p inb : keeps (still st p) (route_shell ks language inb).
Proof. unfold route_shell, deliver, create_subshell, spawn_shell, send_inbound. keep_parts. Qed.
#[local] Hint Resolve still_route_shell : kern.

Lemma still_route_pending st p n : keeps (still st p) (route_pending ks language n).
Proof. induction n; simpl; keep_parts. Qed.

Lemma still_interrupt_shells st p : keeps (still st p) (interrupt_shells : KS unit).
Proof. unfold interrupt_shells, send_control_or_fail, send_control. keep_parts. Qed.

Lemma still_open st p client id n : keeps (still st p) (session_command language (Open client id n)).
Proof. simpl. unfold create_subshell, spawn_shell. keep_parts. Qed.

Lemma still_create st p id : keeps (still st p) (create_subshell language id).
Proof. unfold create_subshell, spawn_shell. keep_parts. Qed.

Lemma task_kept (k k' : Kernel Ses) t : kgrows k k' → is_Some (tasks k !! t) → is_Some (tasks k' !! t).
Proof. intros Hg [[ses s] Et]. specialize (Hg t). rewrite Et in Hg. by destruct (tasks k' !! t). Qed.

Lemma placed_of {A} (m : KS A) : keeps kernel_ok m → grows m → (∀ st p, keeps (still st p) m) → keeps placed m.
Proof.
  intros Hok Hg Hst k w (Hk & H1' & H2'). specialize (Hok k w Hk). specialize (Hg k w). specialize (Hst (stops k) (kphase k) k w ltac:(done)).
  destruct (m k w) as [[r k'] w']. destruct Hg as [Hg _], Hst as [Es Ep]. simpl in *. split_and!; [done|rewrite Es|rewrite Ep]; eauto using task_kept.
Qed.

Lemma keeps_kget_bind {A B} (P : Kernel Ses → Prop) (g : Kernel Ses → A) (f : A → KS B) :
  (∀ k w, P k → P (f (g k) k w).1.2) → keeps P (kget g ≫= f).
Proof. intros Hf k w Hk. by apply Hf. Qed.

Lemma placed_stop (k : Kernel Ses) id t b done f :
  shells k !! id = Some t → kernel_ok (f (with_shells (delete id) k)) →
  (∀ k, tasks (f k) = tasks k ∧ stops (f k) = stops k ∧ kphase (f k) = kphase k) → placed k →
  placed (with_stops (λ l, l ++ [MkStop t b false done]) (f (with_shells (delete id) k))).
Proof.
  intros Et Hf Hsame (Hk & H1' & H2'). destruct (Hsame (with_shells (delete id) k)) as (E1 & E2 & E3).
  split_and!; [by eapply kernel_ok_same; [..|exact Hf]| |simpl; by rewrite E1, E3]. simpl. rewrite E1, E2. simpl.
  intros st [?|Hst%list_elem_of_singleton]%elem_of_app; [auto|]. subst st. simpl. by eapply ok_tasks.
Qed.

Lemma placed_session_command c : keeps placed (session_command language c).
Proof.
  destruct c as [client id n|client id delete_it n].
  - apply placed_of; [apply keeps_session_command | apply grows_session_command | intros; apply still_open].
  - intros k w Hk. pose proof Hk as (Hok & H1' & H2'). simpl. unfold kget, kmodify, mbind, K_bind, stop_in_background.
    case_match; simpl; [split_and!; [by apply (kernel_ok_same k)|done|done]|].
    destruct (if delete_it then shells k !! id else None) as [t|] eqn:Et; simpl.
    + destruct delete_it; [|done]. apply (placed_stop (with_routes (delete client) k) id t false (AnswerClose n) (λ k, k)); [done| |done|].
      * by apply kernel_ok_delete, kernel_ok_delete_route.
      * split_and!; [by apply kernel_ok_delete_route|done|done].
    + split_and!; [by apply (kernel_ok_same (with_routes (delete client) k)); [..|apply kernel_ok_delete_route]|done|done].
Qed.

Lemma placed_route_shell inb : keeps placed (route_shell ks language inb).
Proof. apply placed_of; [apply keeps_route_shell | apply grows_route_shell | intros; apply still_route_shell]. Qed.

Lemma placed_route_pending n : keeps placed (route_pending ks language n).
Proof.
  induction n as [|n IH]; simpl; [auto with kern|]. apply keeps_kget_bind. intros k w Hk. destruct (shell_queue k) as [|i q]; [done|].
  apply (keeps_bind placed (kmodify (with_shell_queue q))); [|intros _; apply keeps_bind; [apply placed_route_shell | done]|done].
  apply keeps_kmodify. intros k1 (Hok & ? & ?). split_and!; [by apply (kernel_ok_same k1)|done..].
Qed.

Lemma placed_interrupt_shells : keeps placed (interrupt_shells : KS unit).
Proof. apply placed_of; [apply keeps_interrupt_shells | apply grows_interrupt_shells | intros; apply still_interrupt_shells]. Qed.

Lemma placed_create id : keeps placed (create_subshell language id).
Proof. apply placed_of; [apply keeps_create_subshell | apply grows_create_subshell | intros; apply still_create]. Qed.
#[local] Hint Resolve placed_route_shell placed_route_pending placed_interrupt_shells placed_create placed_session_command : kern.

Lemma placed_handle_control inb : keeps placed (handle_control ks language inb).
Proof.
  unfold handle_control, route_pending_shells. cbv zeta. do 4 (case_decide; [keep_parts|]). case_decide.
  - apply keeps_kget_bind. intros k w Hk. destruct (shells k !! _) as [t|] eqn:Et; [|clear Et; revert k w Hk; apply keeps_bind; auto with kern].
    unfold kmodify, stop_in_background, mbind, K_bind. apply (placed_stop k _ t true _ (drop_routes _)); [done| |done|done].
    by apply kernel_ok_drop_routes, kernel_ok_delete, Hk.
  - case_decide; [|keep_parts]. apply keeps_bind; [keep_parts|]. intros _. apply keeps_kget_bind. intros k w (Hok & Hs & _).
    unfold kmodify, mbind, K_bind. split_and!; [by apply (kernel_ok_same k)|done|]. intros t (id & Ht)%elem_of_shell_tasks. exact (ok_tasks _ Hok _ _ Ht).
Qed.
#[local] Hint Resolve placed_handle_control : kern.

Lemma placed_kmodify f :
  (∀ k, kernel_ok k → kernel_ok (f k)) → (∀ k, tasks (f k) = tasks k ∧ stops (f k) = stops k ∧ kphase (f k) = kphase k) → keeps placed (kmodify f).
Proof. intros Hok Hs. apply keeps_kmodify. intros k (Hk & H1' & H2'). destruct (Hs k) as (E1 & E2 & E3). split_and!; [auto|rewrite ?E1, ?E2, ?E3; auto..]. Qed.

Lemma placed_run_loop c : keeps placed (run_loop ks language c).
Proof.
  assert (∀ id, keeps placed (kmodify (with_shells (delete id)))) as Hd by (intros id; apply placed_kmodify; [intros k; apply kernel_ok_delete | done]).
  assert (∀ id, keeps placed (kmodify (drop_routes id))) as Hr by (intros id; apply placed_kmodify; [intros k; apply kernel_ok_drop_routes | done]).
  assert (∀ q, keeps placed (kmodify (with_shell_queue q))) as H1' by (intros q; apply placed_kmodify; [intros k; by apply kernel_ok_same | done]).
  assert (∀ q, keeps placed (kmodify (with_control_queue q))) as H2' by (intros q; apply placed_kmodify; [intros k; by apply kernel_ok_same | done]).
  assert (∀ q, keeps placed (kmodify (with_commands q))) as H3' by (intros q; apply placed_kmodify; [intros k; by apply kernel_ok_same | done]).
  destruct c; simpl; keep_parts.
Qed.

(** The loop itself waits for nobody, and its background stops send for
    themselves. *)
Definition unsent (l : list BackgroundStop) (k : Kernel Ses) : Prop :=
  filter (λ st, st_sent st = true) (stops k) = l ∧
  match kphase k with KReleasing (Some _) _ _ _ _ _ _ | KStopping _ _ _ | KExit _ => False | _ => True end.

#[local] Hint Extern 1 (keeps (unsent _) (kmodify _)) => (apply keeps_kmodify; intros ? [? ?]; split; first [assumption | exact I]) : kern.

Lemma unsent_background l t b done : keeps (unsent l) (stop_in_background t b done : KS unit).
Proof. apply keeps_kmodify. intros k [Hf Hp]. split; [|done]. simpl. by rewrite filter_app, app_nil_r. Qed.
#[local] Hint Resolve unsent_background : kern.

Lemma unsent_run_loop l c : keeps (unsent l) (run_loop ks language c).
Proof.
  assert (∀ inb, keeps (unsent l) (route_shell ks language inb)) as Hr.
  { intros inb. unfold route_shell, deliver, create_subshell, spawn_shell, send_inbound. keep_parts. }
  assert (∀ n, keeps (unsent l) (route_pending ks language n)) as Hrp by (intros n; induction n; simpl; keep_parts).
  assert (∀ inb, keeps (unsent l) (handle_control ks language inb)) as Hc.
  { intros inb. unfold handle_control, route_pending_shells, interrupt_shells, send_control_or_fail, send_control, create_subshell, spawn_shell.
    cbv zeta. keep_parts. }
  assert (∀ c, keeps (unsent l) (session_command language c)) as Hsc.
  { intros [client id n|client id d n]; simpl; unfold create_subshell, spawn_shell; keep_parts. }
  destruct c; simpl; unfold interrupt_shells, send_control_or_fail, send_control; keep_parts.
Qed.

(** Operations that only send controls. *)
Definition controlled (k0 k : Kernel Ses) : Prop :=
  ∀ t, match tasks k0 !! t, tasks k !! t with
       | Some (ses, s), Some (ses', s') => ses' = ses ∧ ∃ ctl, s' = fed s [] ctl
       | None, None => True
       | _, _ => False
       end.

Lemma controlled_refl k : controlled k k.
Proof. intros t. destruct (tasks k !! t) as [[ses s]|]; [|done]. split; [done|]. exists []. by rewrite fed_nil. Qed.

Lemma controlled_push k0 t c k : controlled k0 k → controlled k0 (update_shell t (push_control c) k).
Proof.
  intros Hc t'. specialize (Hc t'). unfold update_shell. simpl. destruct (decide (t' = t)) as [->|Hne].
  - rewrite lookup_alter_eq. destruct (tasks k0 !! t) as [[ses s]|], (tasks k !! t) as [[ses' s']|]; try done. simpl.
    destruct Hc as [-> [ctl ->]]. split; [done|]. exists (ctl ++ [c]). rewrite <- (app_nil_r []) at 2. rewrite <- fed_fed.
    unfold fed, push_control. destruct s. simpl. by rewrite !app_nil_r.
  - by rewrite lookup_alter_ne.
Qed.

#[local] Hint Extern 1 (keeps (controlled _) (kmodify (update_shell _ _))) => (apply keeps_kmodify; intros ?; apply controlled_push) : kern.
#[local] Hint Extern 2 (keeps (controlled _) (kmodify _)) => (apply keeps_kmodify; intros ? ?; assumption) : kern.

Lemma controlled_stop_step k0 st : keeps (controlled k0) (stop_step ks st : KS _).
Proof. unfold stop_step, stop_shell, send_control. keep_parts. Qed.

Lemma promised_controlled Q k k' t :
  (∀ s ctl, Q s → Q (fed s [] ctl)) → controlled k k' → promised Q k t → promised Q k' t.
Proof.
  intros HQ Hc (ses & s & Et & Hs). specialize (Hc t). rewrite Et in Hc. destruct (tasks k' !! t) as [[ses' s']|] eqn:Et'; [|done].
  destruct Hc as [-> [ctl ->]]. eexists ses, _. split; [exact Et'|]. rewrite running_fed. auto.
Qed.

Lemma send_control_run t c (k : Kernel Ses) w :
  send_control t c k w = (Ok (live k t), if live k t then update_shell t (push_control c) k else k, w).
Proof. unfold send_control, kget, kmodify, mbind, K_bind. by destruct (live k t). Qed.

Lemma push_promised c (Q : Shell → Prop) (k : Kernel Ses) t :
  is_Some (tasks k !! t) → (∀ s, c ∈ controls s → Q s) → promised Q (if live k t then update_shell t (push_control c) k else k) t.
Proof.
  intros [[ses s] Et] HQ. unfold promised. destruct (live k t) eqn:Hl.
  - unfold update_shell. simpl. rewrite lookup_alter_eq, Et. eexists _, _. split; [done|]. intros _. apply HQ. simpl. set_solver.
  - exists ses, s. split; [done|]. intros Hr. unfold live, task_shell in Hl. rewrite Et in Hl. simpl in Hl. congruence.
Qed.

Lemma stop_shell_leaves t b (k : Kernel Ses) w :
  is_Some (tasks k !! t) →
  ∃ k1, stop_shell t b k w = (Ok tt, k1, w) ∧ controlled k k1 ∧ promised (λ s, stop_coming s ∧ (b = true → clear_coming s)) k1 t.
Proof.
  intros Ht. unfold stop_shell.
  set (k0 := if b then if live k t then update_shell t (push_control Interrupt) k else k else k).
  assert ((if b then send_control t Interrupt ;;; mret tt else mret tt : KS unit) k w = (Ok tt, k0, w)) as E.
  { unfold k0. destruct b; [by rewrite (kbind_ok _ _ _ _ _ _ _ (send_control_run _ _ _ _)) | done]. }
  rewrite (kbind_ok _ _ _ _ _ _ _ E), (kbind_ok _ _ _ _ _ _ _ (send_control_run _ _ _ _)). eexists. split; [reflexivity|].
  assert (controlled k k0) as C0 by (unfold k0; destruct b, (live k t); auto using controlled_refl, controlled_push).
  assert (is_Some (tasks k0 !! t)) as Ht0 by (specialize (C0 t); destruct Ht as [[ses s] Et]; rewrite Et in C0; by destruct (tasks k0 !! t)).
  split; [destruct (live k0 t); auto using controlled_push|].
  assert (b = true → promised clear_coming k0 t) as Hb.
  { unfold k0. intros ->. apply push_promised; [done|]. intros s Hin. by right. }
  destruct (push_promised Stop stop_coming k0 t Ht0) as (ses & s & Et & Hs); [intros s Hin; by right|].
  exists ses, s. split; [done|]. intros Hr. split; [auto|]. intros Hbt.
  destruct (promised_controlled clear_coming k0 (if live k0 t then update_shell t (push_control Stop) k0 else k0) t) as (ses' & s' & Et' & Hs').
  - apply clear_coming_controls.
  - destruct (live k0 t); auto using controlled_refl, controlled_push.
  - auto.
  - rewrite Et in Et'. simplify_eq. auto.
Qed.

Definition phase_promise (p : KPhase) (k : Kernel Ses) : Prop :=
  match p with
  | KReleasing (Some (t, n)) _ _ _ _ _ _ => promised (will_release n) k t
  | KStopping (Some t) _ _ => promised will_end k t
  | _ => True
  end.

Lemma waits_controlled (k k1 : Kernel Ses) p :
  waits_ok k → controlled k k1 → kernel_ok k1 → stops k1 = stops k →
  (∀ t, t ∈ waited p → is_Some (tasks k !! t)) → phase_promise p k1 → waits_ok (with_kphase p k1).
Proof.
  intros [Hok Hst _ _] Hc Hok1 Es Ht Hp. split; [by apply (kernel_ok_same k1)| | |exact Hp]; simpl.
  - rewrite Es. intros st Hin. eapply (promised_controlled _ k k1); [|exact Hc|by apply Hst]. intros s ctl Hs ?. apply stop_coming_fed. auto.
  - intros t Hin%Ht. specialize (Hc t). destruct Hin as [[ses s] E]. rewrite E in Hc. by destruct (tasks k1 !! t).
Qed.

Lemma waits_leave r (k : Kernel Ses) : kernel_ok k → (∀ st, st ∈ stops k → promised (λ s, st_sent st = true → stop_coming s) k (st_task st)) → waits_ok (leave_loop r k).
Proof.
  intros Hok Hst. split; [by apply kernel_ok_leave | exact Hst | | done]. simpl. intros t (id & Ht)%elem_of_shell_tasks. exact (ok_tasks _ Hok _ _ Ht).
Qed.

Lemma waits_run_loop c (k : Kernel Ses) w : kphase k = KLoop → waits_ok k → waits_ok (looped (run_loop ks language c k w)).
Proof.
  intros Hp [Hok Hst Htd _].
  assert (placed k) as Hpl.
  { split_and!; [done| |by rewrite Hp; intros t ?%elem_of_nil]. intros st (ses & s & Et & _)%Hst. by eexists. }
  pose proof (placed_run_loop c k w Hpl) as Hpl1. pose proof (grows_run_loop ks language c k w) as Hg.
  pose proof (unsent_run_loop (filter (λ st, st_sent st = true) (stops k)) c k w ltac:(by split; [|rewrite Hp])) as Hun.
  destruct (run_loop ks language c k w) as [[r k1] w1]. destruct Hg as [Hg _], Hpl1 as (Hok1 & Hst1 & Htd1), Hun as [Hf Hph]. simpl in *.
  assert (∀ st, st ∈ stops k1 → promised (λ s, st_sent st = true → stop_coming s) k1 (st_task st)) as Hstops.
  { intros st Hin. destruct (st_sent st) eqn:Es.
    - assert (st ∈ stops k) as Hk by (assert (st ∈ filter (λ st, st_sent st = true) (stops k1)) as Hx by (by apply list_elem_of_filter); rewrite Hf in Hx; by apply list_elem_of_filter in Hx as [_ ?]).
      specialize (Hst st Hk). rewrite Es in Hst. eapply promised_grows; [|exact Hg|exact Hst]. intros s arr ctl Hs ?. apply stop_coming_fed. auto.
    - destruct (Hst1 st Hin) as [[ses s] Et]. by exists ses, s. }
  destruct r as [[]|e]; simpl; [by apply waits_leave| |by apply waits_leave].
  split; [done|done|done|]. by destruct (kphase k1) as [|[[]|]|[]|].
Qed.

Lemma waits_release wt todo id st found reply req (k : Kernel Ses) w :
  kphase k = KReleasing wt todo id st found reply req → waits_ok k →
  waits_ok (match release_step ks wt todo id st found reply req k w with (Ok _, k', _) => k' | (Err e, k', _) => leave_loop (Err e) k' end).
Proof.
  intros Hp Hw. pose proof Hw as [Hok Hst Htd Hph]. rewrite Hp in Htd, Hph. simpl in Htd, Hph.
  assert (∀ k1, controlled k k1 → kernel_ok k1 → stops k1 = stops k → ∀ r, waits_ok (leave_loop r k1)) as Hleave.
  { intros k1 Hc Hok1 Es r. apply waits_leave; [done|]. rewrite Es. intros s Hin.
    eapply promised_controlled; [|exact Hc|by apply Hst]. intros ? ? Hs ?. apply stop_coming_fed. auto. }
  unfold release_step. destruct wt as [[t n]|].
  - unfold kget, mbind at 1, K_bind at 1. destruct (task_shell k t ≫= _) as [b|].
    + unfold kmodify. by apply (waits_controlled k k); auto using controlled_refl.
    + unfold mbind, K_bind. destruct (live k t); [done|]. simpl. apply Hleave; auto using controlled_refl.
  - destruct todo as [|t todo].
    + unfold mbind, K_bind, io. destruct (send_reply _ _ _ _ _ w) as [[u|e] w1]; [|apply Hleave; auto using controlled_refl].
      unfold kmodify. apply (waits_controlled k k); auto using controlled_refl.
    + set (k1 := with_oneshot (next_oneshot k + 1) k). set (c := Release id st (next_oneshot k)).
      assert (is_Some (tasks k !! t)) as Ht by (apply Htd; left). assert (kernel_ok k1) as Hok1 by by apply (kernel_ok_same k).
      pose proof (push_promised c (will_release (next_oneshot k)) k1 t Ht) as Hpp.
      assert (send_control_or_fail t c k1 w =
        if live k1 t then (Ok tt, update_shell t (push_control c) k1, w) else (Err from_send_error, k1, w)) as Ec.
      { unfold send_control_or_fail. rewrite (kbind_ok _ _ _ _ _ _ _ (send_control_run _ _ _ _)). by destruct (live k1 t). }
      assert (kmodify (with_oneshot (next_oneshot k + 1)) k w = (Ok tt, k1, w)) as Em by reflexivity.
      rewrite (kbind_ok (kget next_oneshot) _ k w _ k w eq_refl), (kbind_ok _ _ _ _ _ _ _ Em). destruct (live k1 t).
      * rewrite (kbind_ok _ _ _ _ _ _ _ Ec).
        apply (waits_controlled k _); [done | apply controlled_push; exact (controlled_refl k) | by apply kernel_ok_update | done | |].
        -- intros t' Hin. apply Htd. by right.
        -- apply Hpp. intros s Hin. left. by eexists _, _.
      * rewrite (kbind_err _ _ _ _ _ _ _ Ec). apply Hleave; [exact (controlled_refl k) | done | done].
Qed.

Lemma waits_shutdown wt todo r (k : Kernel Ses) w :
  kphase k = KStopping wt todo r → waits_ok k → waits_ok (shutdown_step wt todo r k w).1.2.
Proof.
  intros Hp Hw. pose proof Hw as [Hok Hst Htd Hph]. rewrite Hp in Htd, Hph. simpl in Htd, Hph. unfold shutdown_step. destruct wt as [t|].
  - unfold kget, mbind at 1, K_bind at 1. destruct (task_result k t) as [[[]|e]|]; [| |done].
    + unfold kmodify. by apply (waits_controlled k k); auto using controlled_refl.
    + destruct (is_ok r); unfold io, emit, kmodify, mbind, K_bind; simpl; by apply (waits_controlled k k); auto using controlled_refl.
  - destruct todo as [|t todo]; [unfold kmodify; apply (waits_controlled k k); auto using controlled_refl|].
    destruct (stop_shell_leaves t true k w) as (k1 & E & Hc & Hpr); [apply Htd; left|].
    pose proof (fixed_stop_shell k t true k w ltac:(done)) as Hf. rewrite E in Hf. destruct Hf as (_ & _ & Es & _).
    assert (keeps kernel_ok (stop_shell t true : KS unit)) as Hk by (unfold stop_shell; keep_parts). specialize (Hk k w Hok). rewrite E in Hk.
    rewrite (kbind_ok _ _ _ _ _ _ _ E). apply (waits_controlled k k1); [done..| |].
    + intros t' Hin. apply Htd. by right.
    + destruct Hpr as (ses & s & Et & Hs). exists ses, s. split; [done|]. intros Hr. destruct (Hs Hr). split; auto.
Qed.

Lemma waits_stop i st (k : Kernel Ses) w r k' w' :
  stops k !! i = Some st → stop_step ks st k w = (Ok r, k', w') → waits_ok k → waits_ok (with_stops (replace_stop i r) k').
Proof.
  intros Hi E [Hok Hst Htd Hph]. pose proof (list_elem_of_lookup_2 _ _ _ Hi) as Hin.
  pose proof (controlled_stop_step k st k w (controlled_refl k)) as Hc. pose proof (fixed_stop_step k st k w ltac:(done)) as Hf.
  assert (keeps kernel_ok (stop_step ks st : KS _)) as Hk by (unfold stop_step, stop_shell; keep_parts). specialize (Hk k w Hok).
  rewrite E in Hc, Hf, Hk. destruct Hf as (_ & _ & Es & Ep). simpl in *.
  assert (∀ st, st ∈ stops k → promised (λ s, st_sent st = true → stop_coming s) k' (st_task st)) as Hold.
  { intros st0 Hin0. eapply promised_controlled; [|exact Hc|by apply Hst]. intros ? ? Hs ?. apply stop_coming_fed. auto. }
  assert (∀ st', r = Some st' → promised (λ s, st_sent st' = true → stop_coming s) k' (st_task st')) as Hnew.
  { intros st' ->. unfold stop_step in E. destruct (st_sent st) eqn:Hs; simpl in E.
    - assert (st' = st) as ->; [|by apply Hold]. unfold kget, mbind, K_bind, kcatch, io, report_to_kernel, mret, K_ret in E. repeat case_match; by simplify_eq.
    - destruct (Hst st Hin) as (ses & s & Et & _).
      destruct (stop_shell_leaves (st_task st) (st_interrupt st) k w) as (k1 & E1 & _ & Hpr); [by eexists|].
      rewrite (kbind_ok _ _ _ _ _ _ _ E1) in E. injection E as <- <- _. destruct Hpr as (ses1 & s1 & Et1 & Hs1). exists ses1, s1. naive_solver. }
  split; simpl.
  - by apply (kernel_ok_same k').
  - rewrite Es. intros st0 Hin0. destruct r as [st'|]; simpl in Hin0.
    + rewrite (insert_Permutation _ _ _ st' Hi) in Hin0. apply elem_of_cons in Hin0 as [->|Hin0]; [by apply Hnew|]. apply Hold.
      rewrite (delete_Permutation _ _ _ Hi). by right.
    + apply Hold. rewrite (delete_Permutation _ _ _ Hi). by right.
  - rewrite Ep. intros t Ht%Htd. specialize (Hc t). destruct Ht as [[ses s] Et]. rewrite Et in Hc. by destruct (tasks k' !! t).
  - rewrite Ep. destruct (kphase k) as [|[[t n]|]|[t|]|]; try done.
    + eapply promised_controlled; [|exact Hc|exact Hph]. intros s ctl. apply will_release_fed.
    + eapply promised_controlled; [|exact Hc|exact Hph]. intros s ctl. apply will_end_controls.
Qed.

Lemma waits_task (k : Kernel Ses) w t ses s l s' w' :
  tasks k !! t = Some (ses, s) → internal l = true → sys_step ks ses l (s, w) (s', w') →
  waits_ok k → waits_ok (with_tasks (<[t := (ses, s')]>) k).
Proof.
  intros Et Hl Hs [Hok Hst Htd Hph].
  assert (∀ t', is_Some (tasks k !! t') → is_Some (<[t := (ses, s')]> (tasks k) !! t')) as Hex.
  { intros t' Ht. destruct (decide (t = t')) as [<-|]; [by rewrite lookup_insert_eq | by rewrite lookup_insert_ne]. }
  split; simpl.
  - by apply (kernel_ok_same k).
  - intros st Hin%Hst. eapply promised_task; [|done..|exact Hin]. intros s0 s0'. apply coming_stop.
  - intros t' Hin%Htd. by apply Hex.
  - destruct (kphase k) as [|[[t' n]|]|[t'|]|]; try done; (eapply promised_task; [|done..|exact Hph]); intros s0 s0'; [apply coming_release | apply coming_end].
Qed.

Lemma waits_sys c c' : ksys_step ks language c c' → waits_ok c.1 → waits_ok c'.1.
Proof.
  intros Hs Hw. destruct Hs as [k w i|k w i|k w i|k w w' _ _|k w c Hc|k w i st r k' w' Hi Es|k w t ses s l s' w' Ht Hl Hs]; simpl in *.
  1-4: destruct Hw as [Hok Hst Htd Hph]; split; [by apply (kernel_ok_same k) | done..].
  - unfold kernel_step. destruct (kphase k) as [|wt todo id st found reply req|wt todo r|r] eqn:Hp; [..|done].
    + pose proof (waits_run_loop c k w Hp Hw) as Hk. by destruct (run_loop ks language c k w) as [[[[]|e] k1] w1].
    + pose proof (waits_release _ _ _ _ _ _ _ k w Hp Hw) as Hk. by destruct (release_step _ _ _ _ _ _ _ _ k w) as [[[]] ?].
    + pose proof (waits_shutdown _ _ _ k w Hp Hw) as Hk. by destruct (shutdown_step wt todo r k w) as [[]].
  - by eapply waits_stop.
  - by eapply waits_task.
Qed.

Lemma reachable_waits w0 c : reachable ks language w0 c → waits_ok c.1.
Proof.
  induction 1 as [|c c' Hr IH Hs]; [|by eapply waits_sys]. split; simpl; [|by intros st ?%elem_of_nil|by intros t ?%elem_of_nil|done].
  apply (reachable_ok ks language w0 _ w0). constructor.
Qed.

(** ** At rest *)

Lemma stop_step_ok st (k : Kernel Ses) w : ∃ r k' w', stop_step ks st k w = (Ok r, k', w').
Proof.
  unfold stop_step, stop_shell, send_control, kget, kmodify, kcatch, io, report_to_kernel, mbind, K_bind, mret, K_ret.
  repeat case_match; simplify_eq; eauto.
Qed.

Lemma task_result_running (k : Kernel Ses) t ses s : tasks k !! t = Some (ses, s) → task_result k t = None ↔ running s = true.
Proof. intros Et. unfold task_result, task_shell, running. rewrite Et. simpl. by destruct (phase s). Qed.

(** When no move is left, every running shell whose loop goes on is at rest. *)
Lemma resting_task code loop w0 k w t ses s :
  reachable ks language w0 (k, w) → nf (kernel_move code loop) (k, w) → tasks k !! t = Some (ses, s) → running s = true → loop t = true →
  at_rest s w ∧ (code t = true → active s = None) ∧ (stopping s = true → held s ≠ None ∨ active s ≠ None).
Proof.
  intros Hr Hnf Et Hrun Hlp. destruct (reachable_tasks_run ks language w0 k w Hr t ses s Et) as (wt & ls & Hls).
  apply (own_nf ks ses); [|by eapply run_phase_ok|by eapply run_stop_seen|done].
  intros [[s' w'] Hs]. apply Hnf. eexists. eapply km_task; [done|]. by rewrite Hlp.
Qed.

(** Task [t] runs, and keeps somebody waiting: its loop is stuck, or it has a hold
    in force, or it waits for code that does not return. *)
Definition delayed (code loop : nat → bool) (k : Kernel Ses) (w : World) (t : nat) : Prop :=
  ∃ s, task_shell k t = Some s ∧ running s = true ∧
    (loop t = true → at_rest s w ∧ (held s ≠ None ∨ code t = false ∧ active s ≠ None)).

Lemma resting_stop code loop w0 k w st :
  reachable ks language w0 (k, w) → nf (kernel_move code loop) (k, w) → st ∈ stops k → delayed code loop k w (st_task st).
Proof.
  intros Hr Hnf Hin. pose proof (wo_stops _ (reachable_waits _ _ Hr) st Hin) as (ses & s & Et & Hp). simpl in *.
  apply list_elem_of_lookup in Hin as [i Hi]. destruct (stop_waits k st) eqn:Hw.
  - unfold stop_waits in Hw. apply andb_true_iff in Hw as [Hsent Hw]. destruct (task_result k (st_task st)) eqn:Er; [done|].
    apply (task_result_running _ _ _ _ Et) in Er. exists s. split_and!; [by unfold task_shell; rewrite Et | done|]. intros Hlp.
    destruct (resting_task _ _ _ _ _ _ _ _ Hr Hnf Et Er Hlp) as (Hrest & Hcode & Hheld). split; [done|]. pose proof Hrest as (_ & _ & Ec & _).
    destruct (Hp Er Hsent) as [Hst|Hin]; [|rewrite Ec in Hin; by apply elem_of_nil in Hin].
    destruct (Hheld Hst) as [?|?]; [by left|]. right. split; [|done]. destruct (code (st_task st)); [|done]. by destruct (Hcode eq_refl).
  - destruct (stop_step_ok st k w) as (r & k' & w' & E). destruct Hnf. eexists. by eapply km_stop.
Qed.

Lemma find_released n (l : list (nat * bool)) : n ∈ l.*1 → List.find (λ a, bool_decide (a.1 = n)) l ≠ None.
Proof.
  intros (a & -> & Ha)%list_elem_of_fmap Hf. apply list_elem_of_In in Ha. pose proof (List.find_none _ _ Hf _ Ha) as Hx. cbv beta in Hx. by rewrite bool_decide_true in Hx.
Qed.

(** The shell whose release, or whose end, the main loop awaits. *)
Definition awaited (k : Kernel Ses) : option nat :=
  match kphase k with KReleasing (Some (t, _)) _ _ _ _ _ _ | KStopping (Some t) _ _ => Some t | _ => None end.

(** The main loop is stuck on shell [t]: its loop is, or, after the main loop was
    left, the code it runs, which was interrupted. *)
Definition stuck_on (code loop : nat → bool) (k : Kernel Ses) (t : nat) : Prop :=
  awaited k = Some t ∧ ∃ s, task_shell k t = Some s ∧ running s = true ∧
    (loop t = true → in_loop k = false ∧ code t = false ∧
       ∃ a, active s = Some a ∧ finished a = false ∧ a_interrupted a = true).

Lemma resting_phase code loop w0 k w :
  reachable ks language w0 (k, w) → nf (kernel_move code loop) (k, w) →
  kphase k = KLoop ∨ (∃ r, kphase k = KExit r) ∨ ∃ t, stuck_on code loop k t.
Proof.
  intros Hr Hnf. pose proof (wo_phase _ (reachable_waits _ _ Hr)) as Hph. simpl in Hph.
  assert (kphase k ≠ KLoop → kwaits k = true) as Hw.
  { intros Hne. destruct (kwaits k) eqn:E; [done|]. destruct Hnf. eexists. apply (km_loop _ _ k w KTerminate); [done|done]. }
  unfold kwaits in Hw. unfold stuck_on, awaited, in_loop.
  destruct (kphase k) as [|[[t n]|]|[t|]|r] eqn:Hp; [by left|..|by right; left; eexists]; [|by specialize (Hw ltac:(done))| |by specialize (Hw ltac:(done))].
  - right. right. exists t. split; [done|]. specialize (Hw ltac:(done)). apply andb_true_iff in Hw as [Ha%bool_decide_eq_true Hl].
    destruct Hph as (ses & s & Et & Hs). unfold live, release_answer, task_shell in *. rewrite Et in *. simpl in *.
    exists s. split_and!; [done..|]. intros Hlp. exfalso.
    destruct (resting_task _ _ _ _ _ _ _ _ Hr Hnf Et Hl Hlp) as [(_ & _ & Ec & _) _].
    destruct (Hs Hl) as [(id' & st' & Hin)|Hin]; [rewrite Ec in Hin; by apply elem_of_nil in Hin|].
    apply find_released in Hin. by destruct (List.find _ _).
  - right. right. exists t. split; [done|]. specialize (Hw ltac:(done)). destruct Hph as (ses & s & Et & Hs). destruct (task_result k t) eqn:Er; [done|].
    apply (task_result_running _ _ _ _ Et) in Er. exists s. split_and!; [by unfold task_shell; rewrite Et | done|]. intros Hlp. split; [done|].
    destruct (resting_task _ _ _ _ _ _ _ _ Hr Hnf Et Er Hlp) as ((_ & _ & Ec & Hf & _) & Hcode & Hheld).
    destruct (Hs Er) as [Hst Hcl]. unfold stop_coming, clear_coming in *. rewrite Ec in *.
    destruct Hst as [Hst|Hin]; [|by apply elem_of_nil in Hin]. destruct Hcl as [(Hn & _ & Hi)|Hin]; [|by apply elem_of_nil in Hin].
    destruct (Hheld Hst) as [?|Ha]; [done|]. destruct (active s) as [a|] eqn:Ea; [|done].
    split; [destruct (code t); naive_solver|]. exists a. auto.
Qed.

Lemma resting_branch code loop (k : Kernel Ses) w c :
  nf (kernel_move code loop) (k, w) → kphase k = KLoop → kown c = true → kready k w c = false.
Proof.
  intros Hnf Hp Hc. destruct (kready k w c) eqn:Hr; [|done]. destruct Hnf. eexists. apply (km_loop _ _ k w c); [done|]. unfold kwaits. by rewrite Hp.
Qed.


(** ** Shutting down *)

Lemma out_goes c c' : rtc kgoes c c' → in_loop c.1 = false → in_loop c'.1 = false.
Proof.
  induction 1 as [|c c1 c2 Hm _ IH]; [done|]. intros Ho. apply IH. destruct (in_loop c1.1) eqn:E; [|done].
  rewrite <- Ho. symmetry. by eapply out_step; [apply kgoes_sys|].
Qed.

(** The loop was left with the error [e], which nothing replaces. *)
Definition failed_with (e : Error) (k : Kernel Ses) : Prop :=
  match kphase k with KStopping _ _ r | KExit r => r = Err e | _ => False end.

#[local] Hint Extern 1 (keeps (failed_with _) (kmodify _)) => (apply keeps_kmodify; intros ? ?; first [assumption | reflexivity]) : kern.

Lemma failed_stop e st : keeps (failed_with e) (stop_step ks st : KS _).
Proof. unfold stop_step, stop_shell, send_control. keep_parts. Qed.

Lemma failed_shutdown e wt todo : keeps (failed_with e) (shutdown_step wt todo (Err e) : KS unit).
Proof. unfold shutdown_step, stop_shell, send_control. cbn [is_ok]. keep_parts. Qed.

Lemma failed_move e c c' : kernel_move always always c c' → failed_with e c.1 → failed_with e c'.1.
Proof.
  intros Hm Hf. destruct Hm as [k w c Hc _|k w i st r k' w' Hi _ Es|k w t ses s s' w' Et Hs]; [| |exact Hf]; simpl in *.
  - unfold kernel_step. unfold failed_with in Hf. destruct (kphase k) as [|?|wt todo r|r] eqn:Hp; try done; [|unfold failed_with; simpl; by rewrite Hp].
    subst r. pose proof (failed_shutdown e wt todo k w) as Hk. destruct (shutdown_step wt todo (Err e) k w) as [[u k1] w1]. apply Hk. unfold failed_with. by rewrite Hp.
  - pose proof (failed_stop e st k w Hf) as Hk. by rewrite Es in Hk.
Qed.

Lemma failed_goes e c c' : rtc kgoes c c' → failed_with e c.1 → failed_with e c'.1.
Proof. induction 1 as [|c c1 c2 [Hm|Hm] _ IH]; [done|..]; intros Hf; apply IH; [by eapply failed_move | by destruct Hm]. Qed.

(** C4: (shutting down ends, but for code that does not) once the main loop was
    left, by a shutdown request, a signal, a failure or the end of the parent
    shell, the kernel makes finitely many moves of its own, in whatever order main
    loop, shells and background stops take them, while time passes and running
    code sends what it likes.  At any moment at which nothing has a move left but
    code that does not return ([code]) and loops in a call of the language that
    does not ([loop]), the kernel has returned, or it awaits a shell whose loop is
    stuck or that runs code which was interrupted and does not return.  Holds in
    force and queued requests keep nobody waiting, and if code and calls return,
    the kernel does.  An error that ended the loop is the result. *)
Theorem kernel_shutdown_ends w0 k w :
  reachable ks language w0 (k, w) → in_loop k = false →
  sn knext_move (k, w) ∧
  ∀ code loop k' w', rtc kgoes (k, w) (k', w') → nf (kernel_move code loop) (k', w') →
    (∃ r, kphase k' = KExit r ∧ ∀ e, failed_with e k → r = Err e) ∨
    (∃ t s, awaited k' = Some t ∧ task_shell k' t = Some s ∧ running s = true ∧
       (loop t = false ∨ code t = false ∧ ∃ a, active s = Some a ∧ finished a = false ∧ a_interrupted a = true)).
Proof.
  intros Hr0 Ho. split; [apply knext_move_sn|]. intros code loop k' w' Hm Hnf. pose proof (kgoes_reachable _ _ _ Hr0 Hm) as Hr.
  pose proof (out_goes _ _ Hm Ho) as Ho'.
  destruct (resting_phase _ _ _ _ _ Hr Hnf) as [Hp|[[r Hp]|(t & Ha & s & Es & Hrun & Hs)]]; [by unfold in_loop in Ho'; simpl in Ho'; rewrite Hp in Ho'|left|right].
  - exists r. split; [done|]. intros e Hf. apply (failed_goes e _ _ Hm) in Hf. unfold failed_with in Hf. simpl in Hf. by rewrite Hp in Hf.
  - exists t, s. split_and!; [done..|]. destruct (loop t); [right|by left]. by destruct (Hs eq_refl) as (_ & ? & ?).
Qed.

(** ** Everything is answered *)

Lemma ledger_reachable w0 sent ctl c : ledger_run ks language w0 sent ctl c → reachable ks language w0 c.
Proof. induction 1; [constructor|..]; (eapply reach_step; [eassumption|]); by try constructor. Qed.

Lemma ledger_move w0 sent ctl c c' : ledger_run ks language w0 sent ctl c → kernel_move always always c c' → ledger_run ks language w0 sent ctl c'.
Proof.
  intros Hr Hm. pose proof (kernel_move_sys _ _ _ _ Hm) as Hs. destruct Hm as [k w c Hc _|k w i st r k' w' Hi _ Es|k w t ses s s' w' Et _].
  - pose proof (shrinks_kernel_step ks language c k w) as [? ?]. destruct (kernel_step ks language c k w) as [k' w'].
    by eapply lr_step.
  - pose proof (shrinks_stop ks st k k w ltac:(done)) as Hk. rewrite Es in Hk. destruct Hk. by eapply lr_step.
  - by eapply lr_step.
Qed.

Lemma ledger_goes w0 sent ctl c c' : ledger_run ks language w0 sent ctl c → rtc kgoes c c' → ledger_run ks language w0 sent ctl c'.
Proof.
  intros Hr Hm. induction Hm as [|c c1 c2 [Hm|Hm] _ IH]; [done|eauto using ledger_move|]. apply IH. pose proof (kmean_sys _ _ Hm) as Hs.
  destruct Hm; by eapply lr_step.
Qed.

(** No hold is in force, and no code runs. *)
Definition idle (k : Kernel Ses) : Prop := ∀ t ses s, tasks k !! t = Some (ses, s) → running s = true → held s = None ∧ active s = None.

Lemma at_rest_book s w : at_rest s w → held s = None → active s = None → shell_book s = [].
Proof.
  intros (_ & Ei & _ & _ & Hq & _) Hn Ea. unfold shell_book, todo, outstanding. rewrite Ea, Ei, Hn.
  assert (queue s = []) as ->; [|done]. destruct (queue s) as [|q l]; [done|]. destruct (Hq q) as [_ [Hab|Hab]]; [left|rewrite Ea in Hab; by destruct Hab|].
  by rewrite Hn in Hab.
Qed.

Lemma resting_owed code w0 k w :
  reachable ks language w0 (k, w) → nf (kernel_move code always) (k, w) → idle k → owed k = [].
Proof.
  intros Hr Hnf Hh. unfold owed. apply concat_nil_Forall, Forall_forall. intros l ([t [ses s]] & -> & Hin%elem_of_map_to_list)%list_elem_of_fmap. simpl.
  destruct (running s) eqn:Hrun; [|done]. destruct (resting_task _ _ _ _ _ _ _ _ Hr Hnf Hin Hrun eq_refl) as [Hrest _].
  destruct (Hh _ _ _ Hin Hrun). by eapply at_rest_book.
Qed.

(** C2: (every request is answered) take any run of the whole kernel, with any
    requests that have arrived but no hold request strictly above another, and let
    it go on without new ones, while time passes and code sends what it likes.
    Consider any moment at which it has come to rest, its own moves being used up
    (the calls of the language in the shells' loops return; code need not), at
    which no hold is in force and no code runs, and the kernel has neither left
    its loop nor lost a shell to a failure or a panic.  Then every shell and
    control request that arrived has been answered, exactly once, but for requests
    that were still with a shell when it ended. *)
Theorem kernel_answers_everything w0 sent ctl k w :
  ledger_run ks language w0 sent ctl (k, w) → holds_level sent →
  ∀ code k' w', rtc kgoes (k, w) (k', w') → nf (kernel_move code always) (k', w') → in_loop k' = true → healthy k' → idle k' →
    answers (trace w') ++ left_behind k' ≡ₚ answers (trace w0) ++ keys sent ++ keys ctl.
Proof.
  intros Hl0 Hlev code k' w' Hm Hnf Hin Hh Hn. pose proof (ledger_goes _ _ _ _ _ Hl0 Hm) as Hl. pose proof (ledger_reachable _ _ _ _ Hl) as Hr.
  destruct (kernel_book_run ks language w0 sent ctl (k', w') Hl Hlev Hin Hh) as [Eb _]. rewrite <- Eb. simpl. rewrite kernel_book_split.
  destruct (resting_phase _ _ _ _ _ Hr Hnf) as [Hp|[[r Hp]|(t & _ & s & _ & _ & Hs)]]; [|by unfold in_loop in Hin; rewrite Hp in Hin|by destruct (Hs eq_refl) as [? _]; congruence].
  assert (stops k' = []) as ->.
  { destruct (stops k') as [|st l] eqn:Es; [done|]. destruct (resting_stop code always w0 k' w' st Hr Hnf) as (s & Et & Hrun & Hd); [rewrite Es; left|].
    unfold task_shell in Et. destruct (tasks k' !! st_task st) as [[ses s0]|] eqn:E0; [|done]. simpl in Et. injection Et as ->.
    destruct (Hn _ _ _ E0 Hrun). by destruct (Hd eq_refl) as [_ [?|[_ ?]]]. }
  pose proof (resting_branch _ _ k' w' KShellMessage Hnf Hp eq_refl) as B1. pose proof (resting_branch _ _ k' w' KControl Hnf Hp eq_refl) as B2.
  simpl in B1, B2. apply negb_false_iff, bool_decide_eq_true, nil_length_inv in B1, B2.
  rewrite B1, B2, Hp, (resting_owed _ _ _ _ Hr Hnf Hn). simpl. by rewrite !app_nil_r.
Qed.
End Rest.
