(* ===== verification/Survival.v ===== *)
(** * What ends the kernel, and what does not (src/src/engine.rs)

    The branches of the main loop's [select!], the loop of a release request over
    the shells, and what leaves them. *)

From Stdlib Require Import ZArith.
From stdpp Require Import base gmap sets list strings.
From S2P Require Import Prelude Json Errors Wire Language Services Queue Requests Shell Kernel System Routing ControlRequests.
From S2P Require Import KernelLedger KernelRest.

Section Survival.
Context `{JsonTotal} {Ses : Type} `{LanguageSession Ses} {L : Type} `{Language L Ses} (ks : KernelServices) (language : L).
#[local] Notation KS := (@K Ses).

(** *** Operations that succeed while the shells of the table run *)

Definition succeeds {A} (m : KS A) : Prop := ∀ k w, all_live k → ∃ a k' w', m k w = (Ok a, k', w') ∧ all_live k'.

Lemma succeeds_bind {A B} (m : KS A) (f : A → KS B) : succeeds m → (∀ a, succeeds (f a)) → succeeds (m ≫= f).
Proof. intros Hm Hf k w Hk. destruct (Hm k w Hk) as (a & k1 & w1 & E & Hk1). rewrite (kbind_ok _ _ _ _ _ _ _ E). by apply Hf. Qed.

Lemma succeeds_ret {A} (a : A) : succeeds (mret a : KS A).
Proof. intros k w Hk. by exists a, k, w. Qed.

Lemma succeeds_kget {A} (f : Kernel Ses → A) : succeeds (kget f).
Proof. intros k w Hk. by exists (f k), k, w. Qed.

Lemma succeeds_io {A} (m : M A) : total m → succeeds (io m : KS A).
Proof. intros Hm k w Hk. destruct (Hm w) as (a & w' & E). exists a, k, w'. split; [by apply io_run|done]. Qed.

(** The table loses entries at most, and the tasks stay. *)
Lemma succeeds_kmodify (f : Kernel Ses → Kernel Ses) :
  (∀ k, tasks (f k) = tasks k ∧ shells (f k) ⊆ shells k) → succeeds (kmodify f).
Proof.
  intros Hf k w Hk. exists tt, (f k), w. split; [done|]. destruct (Hf k) as [Et Es]. intros id t Hid.
  unfold live, task_shell in *. rewrite Et. apply (Hk id). by eapply lookup_weaken.
Qed.

Lemma all_live_add id child (k : Kernel Ses) : all_live k → all_live (add_shell id child k).
Proof.
  intros Hk id' t. unfold add_shell. simpl. intros [[<- <-]|[_ E]]%lookup_insert_Some; unfold live, task_shell; simpl.
  - by rewrite lookup_insert_eq.
  - rewrite lookup_insert_ne; [by apply (Hk id' t)|]. intros <-. specialize (Hk _ _ E). unfold live, task_shell in Hk. by rewrite fresh_task in Hk.
Qed.

Lemma succeeds_create id : succeeds (kcatch (create_subshell language id) : KS _).
Proof.
  intros k w Hk. destruct (create_subshell_run language id k w) as (r & k' & w' & E & _ & Hr). exists r, k', w'.
  unfold kcatch. rewrite E. split; [done|]. destruct r as [i|e]; [|by subst].
  destruct Hr as (_ & _ & _ & [[-> _]|[_ [child ->]]]); [done|by apply all_live_add].
Qed.

Lemma succeeds_route_shell inb : succeeds (route_shell ks language inb : KS unit).
Proof. intros k w Hk. destruct (route_shell_live ks language inb k w Hk) as (k' & w' & E & Hl & _). eauto. Qed.

Lemma succeeds_route_pending_shells : succeeds (route_pending_shells ks language : KS unit).
Proof.
  intros k w Hk. destruct (route_pending_live ks language (length (shell_queue k)) k w Hk (le_n _)) as (k' & w' & E & Hl & _). by exists tt, k', w'.
Qed.

Lemma succeeds_interrupt_shells : succeeds (interrupt_shells : KS unit).
Proof.
  intros k w Hk. unfold interrupt_shells. rewrite (kbind_ok _ _ _ _ (shell_tasks k) k w) by done.
  assert (∀ ts (k0 : Kernel Ses), all_live k0 → (∀ t, t ∈ ts → live k0 t = true) →
    ∃ a k' w', kfor_each (λ t, send_control_or_fail t Interrupt) ts k0 w = (Ok a, k', w') ∧ all_live k') as Heach.
  { induction ts as [|t ts IH]; intros k0 Hk0 Ht; simpl; [by exists tt, k0, w|].
    rewrite (kbind_ok _ _ _ _ tt (update_shell t (push_control Interrupt) k0) w).
    - apply IH; [intros id t'; rewrite live_push; apply Hk0|]. intros t' Ht'. rewrite live_push. apply Ht. by right.
    - rewrite send_control_or_fail_run, Ht; [done|by left]. }
  apply Heach; [done|]. intros t [id Hid]%elem_of_shell_tasks. by eapply Hk.
Qed.

#[local] Hint Resolve succeeds_ret succeeds_kget succeeds_create succeeds_route_shell succeeds_route_pending_shells succeeds_interrupt_shells : kern.

Ltac succeed_parts := repeat first
  [ solve [auto with kern nocore]
  | match goal with
    | |- succeeds (mbind _ _) => apply succeeds_bind; [|intros ?]
    | |- succeeds (io _) => apply succeeds_io; auto with kern
    | |- succeeds (kmodify _) => apply succeeds_kmodify; intros ?; split; [done|first [done|apply delete_subseteq]]
    | |- succeeds (match ?x with _ => _ end) => destruct x
    end ].

Lemma succeeds_session_command c : succeeds (session_command language c : KS unit).
Proof. destruct c; simpl; unfold stop_in_background; succeed_parts. Qed.

Lemma total_debug_control req sink : total (debug_control ks language req sink).
Proof. intros w. destruct (debug_control_answers ks language req sink w) as (w' & E & _). eauto. Qed.

Lemma succeeds_handle_control inb : succeeds (handle_control ks language inb : KS bool).
Proof. unfold handle_control, stop_in_background. cbv zeta. succeed_parts. apply total_debug_control. Qed.

(** Only a shutdown request makes the loop end well. *)
Definition gives {A} (a : A) (m : KS A) : Prop := ∀ k w a' k' w', m k w = (Ok a', k', w') → a' = a.

Lemma gives_bind {A B} (b : B) (m : KS A) (f : A → KS B) : (∀ a, gives b (f a)) → gives b (m ≫= f).
Proof. intros Hf k w b' k' w'. unfold mbind, K_bind. destruct (m k w) as [[[a|e] k1] w1]; [apply Hf|done]. Qed.

Lemma gives_ret {A} (a : A) : gives a (mret a).
Proof. intros k w a' k' w' E. by injection E. Qed.

Ltac give_parts :=
  repeat first [apply gives_ret | apply gives_bind; intros ? | match goal with |- gives _ (match ?x with _ => _ end) => destruct x end].

Lemma gives_handle_control inb : gives (bool_decide (msg_type (in_message inb) = "shutdown_request")) (handle_control ks language inb).
Proof.
  unfold handle_control. cbv zeta. case_decide as Hm; [rewrite bool_decide_true by done|rewrite bool_decide_false by done]; give_parts.
Qed.

(** What a branch of the loop that is ready comes to. *)
Definition loop_outcome (c : KChoice) (k : Kernel Ses) (w : World) : Prop :=
  match c with
  | KShellEnded id =>
      ∃ r k' w', run_loop ks language c k w = (match r with Ok _ => Ok (bool_decide (id = "")) | Err e => Err e end, k', w') ∧
        ended_shell k id = Some r ∧ shells k' = delete id (shells k) ∧
        (is_ok r = true → id ≠ "" → ∀ client, route_overrides k' !! client ≠ Some id)
  | KService _ | KFailed | KChannelClosed _ => ∃ e k' w', run_loop ks language c k w = (Err e, k', w')
  | KTerminate => run_loop ks language c k w = (Ok true, k, w)
  | KInterrupted | KShellMessage | KCommand => all_live k → ∃ k' w', run_loop ks language c k w = (Ok false, k', w') ∧ all_live k'
  | KControl =>
      all_live k → ∃ inb rest k' w', control_queue k = inb :: rest ∧
        run_loop ks language c k w = (Ok (bool_decide (msg_type (in_message inb) = "shutdown_request")), k', w') ∧ all_live k'
  end.

Lemma run_loop_outcome c (k : Kernel Ses) w : kready k w c = true → loop_outcome c k w.
Proof.
  assert (∀ m : KS bool, succeeds m → gives false m → all_live k → ∃ k' w', m k w = (Ok false, k', w') ∧ all_live k') as Hstay.
  { intros m Hm Hg Hk. destruct (Hm k w Hk) as (b & k' & w' & E & Hk'). exists k', w'. by rewrite <- (Hg _ _ _ _ _ E). }
  destruct c as [r| |id| | | | | |what]; simpl; intros Hr.
  - destruct r as [[]|e]; by eexists _, k, w.
  - destruct (failures w) as [|e es] eqn:Ef; [done|]. exists e, k, w. unfold mbind, K_bind, io, gets, kthrow, throw, lift. by rewrite Ef.
  - destruct (ended_shell k id) as [r|] eqn:Ee; [|done]. unfold mbind, K_bind, kget. rewrite Ee. exists r. destruct r as [[]|e]; simpl.
    + case_decide as Hid; [rewrite bool_decide_true by done|rewrite bool_decide_false by done]; eexists _, w; (split; [reflexivity|]); split_and!; try done.
      intros _ _ client. simpl. by intros [_ Hne]%map_lookup_filter_Some.
    + eexists _, w. split_and!; [reflexivity|done..].
  - done.
  - apply Hstay; [succeed_parts|give_parts].
  - apply Hstay; [succeed_parts|give_parts].
  - apply Hstay; [succeed_parts; apply succeeds_session_command|give_parts].
  - intros Hk. unfold mbind at 1, K_bind at 1, kget. destruct (control_queue k) as [|i q]; [done|]. exists i, q.
    assert (succeeds (kmodify (with_control_queue q) ;;; handle_control ks language i)) as Hs by (succeed_parts; apply succeeds_handle_control).
    destruct (Hs k w Hk) as (b & k' & w' & E & Hk'). exists k', w'. split_and!; [done| |done]. rewrite E. repeat f_equal.
    exact (gives_bind _ _ _ (λ _, gives_handle_control i) _ _ _ _ _ E).
  - by eexists _, k, w.
Qed.

(** *** The shells a release asks are those of the table *)

Definition to_ask (k : Kernel Ses) : list nat :=
  match kphase k with KReleasing wt todo _ _ _ _ _ => match wt with Some (t, _) => [t] | None => [] end ++ todo | _ => [] end.

Definition asked_ok (k : Kernel Ses) : Prop := ∀ t, t ∈ to_ask k → t ∈ shell_tasks k.

#[local] Hint Extern 1 (keeps (phase_is _) (kmodify _)) => (apply keeps_kmodify; intros ? ?; assumption) : kern.
#[local] Hint Resolve phase_interrupt phase_route_shell phase_command : kern.

Lemma run_loop_phase c (k : Kernel Ses) w b k' w' :
  kphase k = KLoop → run_loop ks language c k w = (Ok b, k', w') →
  kphase k' = KLoop ∨ ∃ id st found reply req, kphase k' = KReleasing None (shell_tasks k') id st found reply req.
Proof.
  intros Hp E.
  assert (c = KControl ∨ keeps (phase_is KLoop) (run_loop ks language c)) as [->|Hk].
  { destruct c; [..|by left|]; right; simpl; unfold drop_routes; keep_parts. }
  - simpl in E. unfold kget, kmodify, mbind, K_bind in E. destruct (control_queue k) as [|i q]; [injection E as _ <- _; by left|].
    destruct (decide (msg_type (in_message i) = "release_request")) as [Hr|Hr].
    + right. unfold handle_control in E. cbv zeta in E. rewrite Hr in E. simpl in E. unfold mbind at 1, K_bind at 1 in E.
      destruct (route_pending_shells ks language _ w) as [[[[]|e] k1] w1]; [|done].
      unfold kget, kmodify, mbind, K_bind, mret, K_ret in E. injection E as _ <- _. by do 5 eexists.
    + left. pose proof (phase_control ks language KLoop i Hr (with_control_queue q k) w Hp) as Hp1. by rewrite E in Hp1.
  - left. specialize (Hk k w Hp). by rewrite E in Hk.
Qed.

Lemma release_asked wt todo id st found reply req (k : Kernel Ses) w k' w' :
  kphase k = KReleasing wt todo id st found reply req → release_step ks wt todo id st found reply req k w = (Ok tt, k', w') →
  shells k' = shells k ∧ ∀ t, t ∈ to_ask k' → t ∈ to_ask k.
Proof.
  intros Hp E. unfold to_ask. rewrite Hp. unfold release_step in E. destruct wt as [[t n]|].
  - unfold kget, mbind at 1, K_bind at 1 in E. destruct (task_shell k t ≫= _) as [b|]; [injection E as <- _; simpl; set_solver|].
    unfold mbind, K_bind in E. destruct (live k t); [injection E as <- _; by rewrite Hp|done].
  - destruct todo as [|t todo].
    + unfold mbind, K_bind, io, kmodify in E. destruct (send_reply _ _ _ _ _ w) as [[u|e] w1]; [|done]. injection E as <- _. simpl. set_solver.
    + unfold kget, kmodify, mbind at 1, K_bind at 1 in E. unfold mbind at 1, K_bind at 1 in E. unfold mbind, K_bind in E.
      rewrite send_control_or_fail_run in E. destruct (live _ t); [|done]. injection E as <- _. simpl. done.
Qed.

Lemma asked_same (k k' : Kernel Ses) : shells k' = shells k → kphase k' = kphase k → asked_ok k → asked_ok k'.
Proof. unfold asked_ok, to_ask, shell_tasks. by intros -> ->. Qed.

Lemma asked_loop c (k : Kernel Ses) w : asked_ok k → asked_ok (kernel_step ks language c k w).1.
Proof.
  intros Hk. unfold kernel_step. destruct (kphase k) as [|wt todo id st found reply req|wt todo r|r] eqn:Hp; [..|done].
  - destruct (run_loop ks language c k w) as [[[[]|e] k1] w1] eqn:E; try (by intros t ?%elem_of_nil).
    destruct (run_loop_phase _ _ _ _ _ _ Hp E) as [Hp1|(id & st & found & reply & req & Hp1)]; intros t Ht; unfold to_ask in Ht; simpl in *; rewrite Hp1 in Ht;
      [by apply elem_of_nil in Ht | done].
  - destruct (release_step _ _ _ _ _ _ _ _ k w) as [[[[]|e] k1] w1] eqn:E; [|by intros t ?%elem_of_nil].
    destruct (release_asked _ _ _ _ _ _ _ _ _ _ _ Hp E) as [Es Ha]. intros t Ht%Ha%Hk. unfold shell_tasks in *. simpl. by rewrite Es.
  - assert (keeps (λ k, in_loop k = false) (shutdown_step wt todo r : KS unit)) as Ho.
    { unfold shutdown_step, stop_shell, send_control. keep_parts; apply keeps_kmodify; by intros. }
    specialize (Ho k w ltac:(unfold in_loop; by rewrite Hp)). destruct (shutdown_step wt todo r k w) as [[u k1] w1]. simpl in *.
    intros t Ht. unfold to_ask, in_loop in *. by destruct (kphase k1); try (by apply elem_of_nil in Ht).
Qed.

Lemma reachable_asked w0 c : reachable ks language w0 c → asked_ok c.1.
Proof.
  induction 1 as [|c c' Hr IH Hs]; [by intros t ?%elem_of_nil|].
  destruct Hs as [| | | |k w c Hc|k w i st r k' w' Hi Es|k w t ses s l s' w' Ht Hl Hs]; try done; [by apply asked_loop|].
  pose proof (fixed_stop_step ks k st k w ltac:(done)) as Hf. rewrite Es in Hf. destruct Hf as (E1 & _ & _ & E2). by apply (asked_same k).
Qed.

(** A release goes on with the next shell, and is answered when all have been
    asked. *)
Lemma release_goes_on wt todo id st found reply req (k : Kernel Ses) w :
  kphase k = KReleasing wt todo id st found reply req → asked_ok k → all_live k →
  ∃ k' w', release_step ks wt todo id st found reply req k w = (Ok tt, k', w') ∧ all_live k' ∧ in_loop k' = true ∧
    (wt = None → todo = [] → kphase k' = KLoop ∧ answers (trace w') = answers (trace w) ++ [(reply, header req)]).
Proof.
  intros Hp Hk Hl.
  assert (∀ t, t ∈ to_ask k → live k t = true) as Ha by (intros t [id' Hid]%Hk%elem_of_shell_tasks; by apply (Hl id')).
  unfold to_ask in Ha. rewrite Hp in Ha. unfold release_step. destruct wt as [[t n]|].
  - unfold kget, mbind at 1, K_bind at 1. destruct (task_shell k t ≫= _) as [b|]; [by eexists _, w|].
    unfold mbind, K_bind. rewrite Ha by left. exists k, w. split_and!; [done|done|unfold in_loop; by rewrite Hp|done].
  - destruct todo as [|t todo].
    + destruct (total_send_reply ks reply req "release_reply" (Obj [("status", Str "ok"); ("found", Bool found)]) w) as ([] & w1 & E).
      pose proof (answers_one_send_reply ks reply req "release_reply" (Obj [("status", Str "ok"); ("found", Bool found)]) w) as Hone. rewrite E in Hone.
      unfold mbind, K_bind, io. rewrite E. unfold kmodify. by eexists _, w1.
    + unfold kget, kmodify, mbind at 1, K_bind at 1. unfold mbind at 1, K_bind at 1. unfold mbind, K_bind.
      rewrite send_control_or_fail_run. change (live (with_oneshot _ k) t) with (live k t). rewrite Ha by left.
      eexists _, w. split_and!; [reflexivity| |done|done]. intros id' t' Hid. exact (eq_trans (live_push t (Release id st (next_oneshot k)) (with_oneshot (next_oneshot k + 1) k) t') (Hl id' t' Hid)).
Qed.

(** C6: (what ends the kernel) take any run of the kernel, at a moment at which
    every shell of its table runs.  In its loop, no request of a client, no command
    of running code and no interrupt ends the kernel, or leaves a shell of the
    table that does not run, except a shutdown request on the control channel,
    which ends it well, as SIGTERM does.  While a release request asks the shells
    one after the other, the kernel goes on asking, whether or not a shell holds
    the message, and then answers the request and goes back to its loop.  The
    kernel ends with an error when one of its services or channels is gone or a
    failure was reported to it.  The end of a shell ends it if the shell failed,
    or was the parent's; the end of another removes it with every route to it. *)
Theorem kernel_survives w0 c (k : Kernel Ses) w :
  reachable ks language w0 (k, w) →
  match kphase k with
  | KReleasing wt todo _ _ _ reply req =>
      all_live k → ∃ k' w', kernel_step ks language c k w = (k', w') ∧ all_live k' ∧ in_loop k' = true ∧
        (wt = None → todo = [] → kphase k' = KLoop ∧ answers (trace w') = answers (trace w) ++ [(reply, header req)])
  | KLoop => kready k w c = true → loop_outcome c k w
  | _ => True
  end.
Proof.
  intros Hr%reachable_asked. destruct (kphase k) as [|wt todo id st found reply req| |] eqn:Hp; try done; [apply run_loop_outcome|].
  intros Hl. destruct (release_goes_on _ _ _ _ _ _ _ _ w Hp Hr Hl) as (k' & w' & E & ?). exists k', w'. unfold kernel_step. by rewrite Hp, E.
Qed.
End Survival.
