(* ===== verification/Driver.v ===== *)
(** * An executable scheduler

    One way to choose among the moves of a shell, and of the kernel left alone
    ([Rest], [KernelRest]), for any choice of the code and the loops that go on:
    the next move as a function, sound and complete for the moves, and the run it
    gives.  Enough fuel brings every state to rest. *)

From Stdlib Require Import ZArith.
From stdpp Require Import base gmap sets list strings.
From S2P Require Import Prelude Json Errors Wire Language Services Queue Requests Shell Rest Kernel System KernelRest.

Section ShellDriver.
Context `{JsonTotal} `{LanguageSession L} (ks : KernelServices) (lang : L).

Definition take_step (c : Choice) (s : Shell) (w : World) : Shell * World :=
  match shell_step ks lang c s w with (Ok s', w') => (s', w') | (Err e, w') => (set_phase s (PDone (Err e)), w') end.

(** The next step of the loop. *)
Definition loop_next (s : Shell) (w : World) (loop : bool) : option (Shell * World) :=
  if loop then
    match phase s with
    | PDone _ => None
    | PSelect => (λ c, take_step c s w) <$> List.find (ready s w) [SelExecution; SelIncoming; SelControl; SelHold]
    | _ => Some (take_step SelIncoming s w)
    end
  else None.

(** The next move of a shell: an execution first sends what it has to, if its
    code goes on; then the loop takes a step, if it does. *)
Definition shell_next (code loop : bool) (s : Shell) (w : World) : option (Shell * World) :=
  if negb (running s) then None
  else match active s with
       | Some (MkActive (o :: rest) r i None) =>
           if code then Some (set_active s (Some (MkActive rest r i None)), set_world_trace w (trace w ++ [o])) else loop_next s w loop
       | _ => loop_next s w loop
       end.

Lemma take_step_own code c s w :
  running s = true → (phase s = PSelect → ready s w c = true) → own code true (LStep c) = true → own_step ks lang code true (s, w) (take_step c s w).
Proof.
  intros Hr Hc Ho. exists (LStep c). split; [done|]. unfold take_step. destruct (shell_step ks lang c s w) as [[s'|e] w'] eqn:E;
    [by eapply step_shell | by eapply step_shell_err].
Qed.

Lemma loop_next_sound code loop s w c' : running s = true → loop_next s w loop = Some c' → own_step ks lang code loop (s, w) c'.
Proof.
  unfold loop_next. intros Hr E. destruct loop; [|done].
  destruct (phase s) eqn:Hp; try (injection E as <-; apply take_step_own; [done | congruence | done]); [|done].
  apply fmap_Some in E as (c & Hc & ->). apply List.find_some in Hc as [Hin Hready]. apply take_step_own; [done | done|].
  simpl in Hin. naive_solver.
Qed.

Lemma shell_next_sound code loop s w c' : shell_next code loop s w = Some c' → own_step ks lang code loop (s, w) c'.
Proof.
  unfold shell_next. destruct (running s) eqn:Hr; [|done]. simpl. intros E.
  destruct (active s) as [[[|o rest] r i [d|]]|] eqn:Ea; try (by apply loop_next_sound). destruct code; [|by apply loop_next_sound].
  injection E as <-. exists LProgress. split; [done|]. by eapply (step_progress ks lang s w (MkActive (o :: rest) r i None)).
Qed.

Lemma loop_next_complete s w loop : loop_next s w loop = None → ∀ code c c', running s = true →
  own code loop (LStep c) = true → ¬ sys_step ks lang (LStep c) (s, w) c'.
Proof.
  unfold loop_next. intros E code c c' Hr Hl Hs. destruct loop; [|by destruct c].
  destruct (phase s) eqn:Hp; try done; [|by unfold running in Hr; rewrite Hp in Hr].
  apply fmap_None in E. assert (ready s w c = true) as Hc by (inversion Hs; subst; auto).
  rewrite (List.find_none _ _ E c) in Hc; [done|]. destruct c; simpl in *; auto 6; done.
Qed.

Lemma shell_next_complete code loop s w : shell_next code loop s w = None → nf (own_step ks lang code loop) (s, w).
Proof.
  unfold shell_next. intros E [[s' w'] (l & Hl & Hs)].
  destruct (running s) eqn:Hr; [|by inversion Hs; subst; congruence || done]. simpl in E.
  assert (loop_next s w loop = None ∧ ∀ a, code = true → active s = Some a → finished a = true) as [El Hf].
  { unfold finished. destruct (active s) as [[[|o rest] r i [d|]]|] eqn:Ea; try (by split; [done|]; intros ? _ [= <-]).
    destruct code; [done|]. by split. }
  destruct l; try done.
  - inversion Hs; subst. specialize (Hf _ Hl ltac:(eassumption)). unfold finished in Hf.
    match goal with Hn : a_panicked _ = None, Ht : a_todo _ = _ |- _ => by rewrite Hn, Ht in Hf end.
  - inversion Hs; subst. specialize (Hf _ Hl ltac:(eassumption)). congruence.
  - by eapply loop_next_complete.
Qed.
End ShellDriver.

Section KernelDriver.
Context `{JsonTotal} {Ses : Type} `{LanguageSession Ses} {L : Type} `{Language L Ses} (ks : KernelServices) (language : L) (code loop : nat → bool).

(** The branches that may be ready, for the shells of the table. *)
Definition branches (k : Kernel Ses) : list KChoice := [KFailed; KShellMessage; KControl; KCommand] ++ map KShellEnded (shell_ids k).

Definition main_next (k : Kernel Ses) (w : World) : option (Kernel Ses * World) :=
  if kwaits k then None
  else match kphase k with
       | KLoop => (λ c, kernel_step ks language c k w) <$> List.find (kready k w) (branches k)
       | _ => Some (kernel_step ks language KTerminate k w)
       end.

Definition stops_next (k : Kernel Ses) (w : World) : option (Kernel Ses * World) :=
  '(i, st) ← list_find (λ st, stop_waits k st = false) (stops k);
  match stop_step ks st k w with (Ok r, k', w') => Some (with_stops (replace_stop i r) k', w') | _ => None end.

Definition task_next (k : Kernel Ses) (w : World) (kv : nat * (Ses * Shell)) : option (Kernel Ses * World) :=
  '(s', w') ← shell_next ks kv.2.1 (code kv.1) (loop kv.1) kv.2.2 w; Some (with_tasks (<[kv.1 := (kv.2.1, s')]>) k, w').

Definition kernel_next (c : Kernel Ses * World) : option (Kernel Ses * World) :=
  let '(k, w) := c in
  match main_next k w with
  | Some c' => Some c'
  | None =>
      match stops_next k w with
      | Some c' => Some c'
      | None => head (omap (task_next k w) (map_to_list (tasks k)))
      end
  end.

Lemma kernel_next_sound c c' : kernel_next c = Some c' → kernel_move ks language code loop c c'.
Proof.
  destruct c as [k w]. unfold kernel_next. destruct (main_next k w) as [c1|] eqn:Em; [|destruct (stops_next k w) as [c1|] eqn:Es].
  - intros [= <-]. unfold main_next in Em. destruct (kwaits k) eqn:Hw; [done|].
    destruct (kphase k) eqn:Hp; try (injection Em as <-; apply km_loop; [by rewrite Hp | done]).
    apply fmap_Some in Em as (c & Hc & ->). apply List.find_some in Hc as [Hin Hr]. apply km_loop; [|done]. intros _. split; [done|].
    apply in_app_or in Hin as [Hin|(id & <- & _)%in_map_iff]; [simpl in Hin; naive_solver | done].
  - intros [= <-]. unfold stops_next in Es. destruct (list_find _ _) as [[i st]|] eqn:Hf; [|done]. simpl in Es.
    apply list_find_Some in Hf as (Hi & Hw & _). destruct (stop_step ks st k w) as [[[r|e] k'] w'] eqn:E; [|done]. injection Es as <-. by eapply km_stop.
  - intros Hh. assert (c' ∈ omap (task_next k w) (map_to_list (tasks k))) as ([t [ses s]] & Hin & E)%list_elem_of_omap.
    { destruct (omap _ _); [done|]. injection Hh as ->. left. }
    apply elem_of_map_to_list in Hin. unfold task_next in E. simpl in E. destruct (shell_next ks ses (code t) (loop t) s w) as [[s' w']|] eqn:En; [|done].
    injection E as <-. eapply km_task; [exact Hin | by apply shell_next_sound].
Qed.

Lemma kernel_next_complete c : kernel_next c = None → nf (kernel_move ks language code loop) c.
Proof.
  destruct c as [k w]. unfold kernel_next. destruct (main_next k w) as [c1|] eqn:Em; [done|]. destruct (stops_next k w) as [c1|] eqn:Es; [done|].
  intros Hh [c' Hm]. remember (k, w) as c eqn:Ec. destruct Hm as [k0 w0 c Hc Hw|k0 w0 i st r k' w' Hi Hw E|k0 w0 t ses s s' w' Et Hs]; injection Ec as -> ->.
  - unfold main_next in Em. rewrite Hw in Em. destruct (kphase k) eqn:Hp; try done. destruct (Hc eq_refl) as [Hr Ho]. apply fmap_None in Em.
    assert (In c (branches k)) as Hin; [|by rewrite (List.find_none _ _ Em c Hin) in Hr].
    unfold branches. apply in_or_app. destruct c; simpl in *; try done; try (left; naive_solver). right. apply in_map.
    apply bool_decide_eq_true in Hr as [r Hr]. unfold ended_shell in Hr. destruct (shells k !! id) as [t|] eqn:Et; [|done].
    apply list_elem_of_In. unfold shell_ids. apply list_elem_of_fmap. exists (id, t). split; [done|]. by apply elem_of_map_to_list.
  - unfold stops_next in Es. destruct (list_find _ _) as [[j st']|] eqn:Hf; simpl in Es.
    + destruct (stop_step_ok ks st' k w) as (r1 & k1 & w1 & E1). by rewrite E1 in Es.
    + apply list_find_None in Hf. rewrite Forall_forall in Hf. apply (Hf st); [by eapply list_elem_of_lookup_2 | done].
  - destruct (shell_next ks ses (code t) (loop t) s w) as [[s1 w1]|] eqn:En; [|apply shell_next_complete in En; destruct En; by eexists].
    assert (∀ x, x ∉ omap (task_next k w) (map_to_list (tasks k))) as Hno by (destruct (omap _ _); [apply not_elem_of_nil | done]).
    eapply Hno. apply list_elem_of_omap. exists (t, (ses, s)). split; [by apply elem_of_map_to_list|]. unfold task_next. simpl. by rewrite En.
Qed.

Fixpoint drive (fuel : nat) (c : Kernel Ses * World) : Kernel Ses * World :=
  match fuel with 0 => c | S n => match kernel_next c with Some c' => drive n c' | None => c end end.

Lemma move_goes c c' : kernel_move ks language code loop c c' → kgoes ks language c c'.
Proof.
  intros Hm. left. destruct Hm as [k w c Hc Hw|k w i st r k' w' Hi Hw Es|k w t ses s s' w' Et (l & Hl & Hs)].
  - by apply km_loop.
  - by eapply km_stop.
  - eapply km_task; [exact Et|]. exists l. split; [|done]. by destruct l as [| | | | | |[]].
Qed.

Lemma drive_goes n c : rtc (kgoes ks language) c (drive n c).
Proof.
  revert c. induction n as [|n IH]; intros c; simpl; [done|]. destruct (kernel_next c) as [c'|] eqn:E; [|done].
  eapply rtc_l; [by apply move_goes, kernel_next_sound | apply IH].
Qed.

(** Enough fuel brings the kernel to rest. *)
Lemma drive_rests c : ∃ n, nf (kernel_move ks language code loop) (drive n c).
Proof.
  induction (kernel_move_sn ks language code loop c) as [c _ IH]. destruct (kernel_next c) as [c'|] eqn:E.
  - destruct (IH c') as [n Hn]; [by apply kernel_next_sound|]. exists (S n). simpl. by rewrite E.
  - exists 0. by apply kernel_next_complete.
Qed.
End KernelDriver.
