(* ===== verification/Transport.v ===== *)
(** * The transport's state (src/src/transport.rs)

    The state the transport keeps: the subscribers of IOPub, the table of
    router peers, and how a peer's events are answered.  Sockets are not
    modelled; a connection is a number, and what the library under it reports is
    an argument. *)

From Stdlib Require Import ZArith.
From stdpp Require Import base gmap sets list strings.
From S2P Require Import Prelude Json Errors Wire Services.

(** ** IOPub: [Iopub::publish] *)

(** [Vec::swap_remove]: the last element takes the place of the removed one. *)
Definition swap_remove {A} (i : nat) (l : list A) : list A :=
  match last l with Some x => take (length l - 1) (<[i := x]> l) | None => l end.

(** The loop over the subscribers.  [closed p] is whether the send to [p] fails.
    A round moves the index or takes a subscriber out, so the number of
    subscribers is enough fuel. *)
Fixpoint publish_loop (fuel : nat) (closed : nat → bool) (i : nat) (peers sent : list nat) : list nat * list nat :=
  match fuel with
  | 0 => (peers, sent)
  | S f =>
      match peers !! i with
      | None => (peers, sent)
      | Some p =>
          if closed p then publish_loop f closed i (swap_remove i peers) sent
          else publish_loop f closed (i + 1) peers (sent ++ [p])
      end
  end.

(** The frames go into the channel of every subscriber in the second list. *)
Definition iopub_publish `{WireExt} (s : Session) (m : Message) (closed : nat → bool) (peers : list nat) :
    Result (list bytes * list nat) * list nat :=
  match encode s m with
  | Err e => (Err (error_from_wire e), peers)
  | Ok frames => let '(peers', sent) := publish_loop (length peers) closed 0 peers [] in (Ok (frames, sent), peers')
  end.

Lemma swap_remove_spec {A} (l : list A) i p :
  l !! i = Some p →
  take i (swap_remove i l) = take i l ∧ drop i l ≡ₚ p :: drop i (swap_remove i l) ∧ length l = S (length (swap_remove i l)).
Proof.
  intros Hi. pose proof (lookup_lt_Some _ _ _ Hi) as Hlt. unfold swap_remove.
  destruct (last l) as [x|] eqn:Hl; [|apply last_None in Hl; subst; done].
  apply last_Some in Hl as [l' ->]. rewrite length_app in *. simpl in *. rewrite Nat.add_sub.
  destruct (decide (i = length l')) as [->|Hne].
  - rewrite lookup_app_r, Nat.sub_diag in Hi by lia. injection Hi as <-.
    rewrite insert_app_r_alt, Nat.sub_diag by lia. simpl.
    rewrite !take_app_length, !drop_app_length, firstn_all, drop_all. split_and!; [done..|lia].
  - rewrite lookup_app_l in Hi by lia.
    assert (length (take i l') = i) as Ha by (rewrite length_take; lia).
    pose proof (take_drop_middle l' i p Hi) as El. revert Ha El.
    generalize (take i l') (drop (S i) l'). intros a b <- <-. clear.
    rewrite <- !app_assoc. simpl. rewrite insert_app_r_alt, Nat.sub_diag by lia. simpl.
    change (x :: b ++ [x]) with ((x :: b) ++ [x]). rewrite (app_assoc a (x :: b)), (length_app a (p :: b)).
    replace (length a + length (p :: b)) with (length (a ++ x :: b)) by (rewrite length_app; done).
    rewrite take_app_length, !take_app_length, !drop_app_length, length_app. simpl.
    split_and!; [done | by rewrite (Permutation_app_comm b [x]) | rewrite ?length_app; simpl; lia].
Qed.

Lemma publish_loop_spec fuel closed i peers sent :
  length peers ≤ fuel + i → i ≤ length peers →
  let open := λ p, closed p = false in
  let r := publish_loop fuel closed i peers sent in
  r.1 ≡ₚ take i peers ++ filter open (drop i peers) ∧ r.2 ≡ₚ sent ++ filter open (drop i peers).
Proof.
  revert i peers sent. induction fuel as [|f IH]; intros i peers sent Hf Hi; cbv zeta; cbn [publish_loop].
  { assert (i = length peers) as -> by lia. rewrite firstn_all, drop_all, filter_nil, !app_nil_r. done. }
  destruct (peers !! i) as [p|] eqn:Hp.
  2: { apply lookup_ge_None in Hp. assert (i = length peers) as -> by lia. rewrite firstn_all, drop_all, filter_nil, !app_nil_r. done. }
  pose proof (lookup_lt_Some _ _ _ Hp) as Hlt. destruct (closed p) eqn:Hc.
  - destruct (swap_remove_spec peers i p Hp) as (Et & Ed & El).
    destruct (IH i (swap_remove i peers) sent) as [H1 H2]; [lia..|]. rewrite H1, H2, Et, Ed.
    rewrite filter_cons_False by congruence. done.
  - destruct (IH (i + 1) peers (sent ++ [p])) as [H1 H2]; [lia..|]. rewrite H1, H2, (drop_S peers p i Hp).
    rewrite filter_cons_True by done. rewrite Nat.add_1_r, (take_S_r peers i p Hp), <- !app_assoc. done.
Qed.

(** (publishing) a message is encoded once and its frames go to every
    subscriber whose connection is open, exactly once, whatever order removals
    leave the list in; subscribers whose connection has ended are dropped and
    no other.  A message that cannot be encoded reaches nobody and drops
    nobody. *)
Theorem publish_reaches_open `{WireExt} s m closed peers :
  let open := λ p, closed p = false in
  match iopub_publish s m closed peers with
  | (Ok (frames, sent), peers') => encode s m = Ok frames ∧ sent ≡ₚ filter open peers ∧ peers' ≡ₚ filter open peers
  | (Err _, peers') => peers' = peers ∧ is_ok (encode s m) = false
  end.
Proof.
  cbv zeta. unfold iopub_publish. destruct (encode s m) as [frames|e]; [|done].
  destruct (publish_loop_spec (length peers) closed 0 peers []) as [H1 H2]; [lia..|]. simpl in *.
  by destruct (publish_loop _ _ _ _ _) as [peers' sent].
Qed.

(** ** The table of router peers: [RouterPeers]

    Identities to connections.  A client that reconnects under its identity
    replaces the old connection, whose own clean-up comes later. *)
Notation RouterPeers := (gmap bytes nat).

Definition peers_insert (identity : bytes) (c : nat) (t : RouterPeers) : RouterPeers := <[identity := c]> t.

(** [same_channel]: the entry is removed only if it is this connection's. *)
Definition peers_remove (identity : bytes) (c : nat) (t : RouterPeers) : RouterPeers :=
  if decide (t !! identity = Some c) then delete identity t else t.

(** What the connections do: each is inserted once and removed once, later. *)
Inductive PeerOp := Connected (identity : bytes) (c : nat) | Ended (identity : bytes) (c : nat).

Definition peer_op (t : RouterPeers) (o : PeerOp) : RouterPeers :=
  match o with Connected i c => peers_insert i c t | Ended i c => peers_remove i c t end.

Definition peers_after (ops : list PeerOp) : RouterPeers := foldl peer_op ∅ ops.

(** The connection a client's prompts should go to: the last one that connected
    under the identity, unless it has ended since. *)
Fixpoint current (identity : bytes) (rev_ops : list PeerOp) (ended : list nat) : option nat :=
  match rev_ops with
  | [] => None
  | Connected i c :: ops => if decide (i = identity) then (if decide (c ∈ ended) then None else Some c) else current identity ops ended
  | Ended i c :: ops => current identity ops (if decide (i = identity) then c :: ended else ended)
  end.

Lemma peers_after_snoc ops o : peers_after (ops ++ [o]) = peer_op (peers_after ops) o.
Proof. unfold peers_after. by rewrite foldl_app. Qed.

Lemma current_spec identity ops ended :
  current identity (reverse ops) ended =
    match peers_after ops !! identity with Some c => if decide (c ∈ ended) then None else Some c | None => None end.
Proof.
  revert ended. induction ops as [|o ops IH] using rev_ind; intros ended; [done|].
  rewrite reverse_snoc, peers_after_snoc. destruct o as [i c|i c]; simpl.
  - unfold peers_insert. destruct (decide (i = identity)) as [->|Hne]; [by rewrite lookup_insert_eq | by rewrite IH, lookup_insert_ne].
  - rewrite IH. unfold peers_remove. destruct (decide (i = identity)) as [->|Hne].
    + destruct (peers_after ops !! identity) as [c'|] eqn:E.
      * destruct (decide (Some c' = Some c)) as [[= ->]|Hc].
        { rewrite decide_True by left. by rewrite lookup_delete_eq. }
        rewrite E. destruct (decide (c' ∈ ended)); [by rewrite decide_True by (by right)|].
        rewrite decide_False; [done|]. intros [->|?]%elem_of_cons; [by destruct Hc | done].
      * rewrite decide_False by done. by rewrite E.
    + case_decide; [by rewrite lookup_delete_ne | done].
Qed.

(** (reconnecting) whatever the order in which connections start and end,
    the table has for each identity the last connection made under it, unless
    that very connection has ended; the late clean-up of an earlier connection
    does not disconnect a client that is back. *)
Theorem peers_table_current identity ops :
  peers_after ops !! identity = current identity (reverse ops) [].
Proof. rewrite current_spec. destruct (peers_after ops !! identity); [|done]. by rewrite decide_False by apply not_elem_of_nil. Qed.

(** ** Reading a connection

    What zmtpmini reports of a peer. *)
Inductive Incoming := IMessage (frames : list bytes) | ISubscribe (topic : bytes) | ICancel (topic : bytes) | IPing (context : bytes).

(** What is written to a peer. *)
Inductive Outgoing := Frames (frames : list bytes) | Pong (context : bytes).

(** [serve_heartbeat]'s peer: everything comes back. *)
Definition heartbeat_event (ev : Incoming) : Result Outgoing :=
  match ev with
  | IMessage m => Ok (Frames m)
  | IPing context => Ok (Pong context)
  | ISubscribe _ | ICancel _ => Err (error_new Protocol "subscription command on heartbeat peer")
  end.

(** [peer_finished]: the line it prints, if any; a panicked task ends the server. *)
Definition peer_finished (result : option (Result unit)) (channel : string) : Result (option string) :=
  match result with
  | None => Err (from_join_error "task panicked")
  | Some (Err e) => Ok (if decide (error_kind e = Closed) then None else Some (channel +:+ " peer ended: " +:+ to_string e))
  | Some (Ok _) => Ok None
  end.

Section Reading.
Context `{WireExt}.

(** [Iopub::peer] for an event: a subscription is answered by a welcome message,
    addressed to the topic unless it is empty.  [lossy] is
    [String::from_utf8_lossy]; [n] the draw of the message's id. *)
Definition iopub_event (s : Session) (lossy : bytes → string) (n : nat) (ev : Incoming) : Result (list Outgoing) :=
  match ev with
  | ISubscribe topic =>
      let m := session_message s n "iopub_welcome" (Obj [("subscription", Str (lossy topic))]) None in
      let m := if decide (topic = []) then m
               else MkMessage (identities m ++ [topic]) (header m) (parent_header m) (metadata m) (content m) (buffers m) in
      match encode s m with Ok frames => Ok [Frames frames] | Err e => Err (error_from_wire e) end
  | ICancel _ => Ok []
  | IPing context => Ok [Pong context]
  | IMessage _ => Err (error_new Protocol "unexpected message on IOPub peer")
  end.
End Reading.

(** ** Replies to prompts: the stdin task of [Stdin::new] *)

(** The pending input a message completes: the one it answers, or else one of
    the same client.  [pending] maps the id of a prompt to its client. *)
Definition input_key (inb : Inbound) (pending : gmap string bytes) : option string :=
  let parent := unwrap_or (mget_str (parent_header (in_message inb)) "msg_id") "" in
  if decide (is_Some (pending !! parent)) then Some parent
  else fst <$> List.find (λ kv, bool_decide (kv.2 = in_identity inb)) (map_to_list pending).

(** The completed input with its value, and the table without it. *)
Definition input_reply (inb : Inbound) (pending : gmap string bytes) : option (string * string) * gmap string bytes :=
  if decide (msg_type (in_message inb) = "input_reply") then
    let value := unwrap_or (get_str (content (in_message inb)) "value") "" in
    match input_key inb pending with
    | Some key => (Some (key, value), delete key pending)
    | None => (None, pending)
    end
  else (None, pending).

(** (input replies) a reply completes at most one pending input and takes
    exactly that one out of the table: the prompt it names as its parent, if
    that is pending; otherwise a prompt sent to the same client; and none only
    if there is neither.  Other messages change nothing. *)
Theorem input_reply_completes inb pending :
  let parent := unwrap_or (mget_str (parent_header (in_message inb)) "msg_id") "" in
  match input_reply inb pending with
  | (Some (key, value), pending') =>
      msg_type (in_message inb) = "input_reply" ∧ value = unwrap_or (get_str (content (in_message inb)) "value") "" ∧
      pending' = delete key pending ∧ is_Some (pending !! key) ∧
      (key = parent ∨ (pending !! parent = None ∧ pending !! key = Some (in_identity inb)))
  | (None, pending') =>
      pending' = pending ∧
      (msg_type (in_message inb) = "input_reply" → pending !! parent = None ∧ ∀ key, pending !! key ≠ Some (in_identity inb))
  end.
Proof.
  cbv zeta. unfold input_reply. case_decide as Hm; [|done]. unfold input_key.
  set (parent := unwrap_or (mget_str (parent_header (in_message inb)) "msg_id") "").
  case_decide as Hp; [by split_and!; auto|].
  assert (pending !! parent = None) as Hn by (destruct (pending !! parent) eqn:E; [by destruct Hp | done]).
  destruct (List.find _ _) as [[k i]|] eqn:Ef; simpl.
  - apply find_some in Ef as [Hin Hb%bool_decide_eq_true]. simpl in Hb. subst i.
    apply list_elem_of_In, elem_of_map_to_list in Hin. split_and!; eauto.
  - split; [done|]. intros _. split; [done|]. intros key Hk.
    pose proof (find_none _ _ Ef (key, in_identity inb)) as Hf. simpl in Hf.
    rewrite bool_decide_true in Hf by done. apply elem_of_map_to_list, list_elem_of_In in Hk. by specialize (Hf Hk).
Qed.
