(* ===== verification/Connections.v ===== *)
(** * Concurrency in the transport (src/src/transport.rs)

    A router connection with its writer and the calls of [ReplySink::send] that
    wait on it, and the wait of [RouterPeers::wait] for a client to connect. *)

From Stdlib Require Import ZArith.
From stdpp Require Import base gmap sets list strings relations.
From S2P Require Import Prelude Errors Wire Services Transport.

(** ** [ReplySink::send] and the connection it sends to

    A call of [send] is a number.  [n_queue] is the connection's channel,
    [n_written] what its peer was sent, [n_complete] the oneshots the writer
    answered, [n_closed] the watch.  The connection is running; over, with its
    result, but with the watch not set yet; or gone. *)
Inductive ConnPhase := ConnRunning | ConnOver (result : Result unit) | ConnGone.

Record Conn := MkConn {
  n_phase : ConnPhase; n_queue : list (nat * list bytes); n_written : list (list bytes);
  n_complete : gmap nat (Result unit); n_closed : option Error }.

Definition conn_init : Conn := MkConn ConnRunning [] [] ∅ None.

(** The first poll of [send]: the end of the connection comes first, then the
    channel takes the frames unless its receiver is gone.  Gives the result, if
    the call is over. *)
Definition sink_submit (id : nat) (frames : list bytes) (c : Conn) : option (Result unit) * Conn :=
  match n_closed c, n_phase c with
  | Some e, _ => (Some (Err e), c)
  | None, ConnRunning => (None, MkConn ConnRunning (n_queue c ++ [(id, frames)]) (n_written c) (n_complete c) None)
  | None, _ => (Some (Err from_send_error), c)
  end.

(** A later poll of the call: [None] if it still waits.  A oneshot whose sender
    was dropped, with the channel or the writer, reports that. *)
Definition sink_poll (id : nat) (c : Conn) : option (Result unit) :=
  match n_closed c with
  | Some e => Some (Err e)
  | None =>
      match n_complete c !! id, n_phase c with
      | Some r, _ => Some r
      | None, ConnRunning => None
      | None, _ => Some (Err (from_recv_error "channel closed"))
      end
  end.

(** The writer takes one request: [sent] is how writing it goes.  An error ends
    the connection, and drops the channel with everything in it. *)
Definition writer_step (sent : Result unit) (c : Conn) : option Conn :=
  match n_phase c, n_queue c with
  | ConnRunning, (id, frames) :: queue =>
      Some (match sent with
            | Ok _ => MkConn ConnRunning queue (n_written c ++ [frames]) (<[id := Ok tt]> (n_complete c)) (n_closed c)
            | Err e => MkConn (ConnOver (Err e)) [] (n_written c) (<[id := Err e]> (n_complete c)) (n_closed c)
            end)
  | _, _ => None
  end.

(** The reader ends: it only ever does with an error. *)
Definition reader_ends (e : Error) (c : Conn) : option Conn :=
  match n_phase c with ConnRunning => Some (MkConn (ConnOver (Err e)) [] (n_written c) (n_complete c) (n_closed c)) | _ => None end.

(** [closed.send_replace(..)]. *)
Definition conn_close (c : Conn) : option Conn :=
  match n_phase c with
  | ConnOver r =>
      let e := match r with Err e => e | Ok _ => error_closed "router peer" end in
      Some (MkConn ConnGone (n_queue c) (n_written c) (n_complete c) (Some e))
  | _ => None
  end.

(** The connection with the calls made so far: [accepted] the requests its channel
    took, in order, [waiting] the calls not over, [told] the results of the others. *)
Record ConnSystem := MkConnSystem { conn : Conn; accepted : list (nat * list bytes); waiting : gset nat; told : list (nat * Result unit) }.

Inductive conn_step : ConnSystem → ConnSystem → Prop :=
| cs_submit c acc ws t id frames c' :
    id ∉ acc.*1 → id ∉ t.*1 → sink_submit id frames c = (None, c') →
    conn_step (MkConnSystem c acc ws t) (MkConnSystem c' (acc ++ [(id, frames)]) ({[id]} ∪ ws) t)
| cs_refused c acc ws t id frames r c' :
    id ∉ acc.*1 → id ∉ t.*1 → sink_submit id frames c = (Some r, c') →
    conn_step (MkConnSystem c acc ws t) (MkConnSystem c' acc ws (t ++ [(id, r)]))
| cs_poll c acc ws t id r :
    id ∈ ws → sink_poll id c = Some r → conn_step (MkConnSystem c acc ws t) (MkConnSystem c acc (ws ∖ {[id]}) (t ++ [(id, r)]))
| cs_cancel c acc ws t id : id ∈ ws → conn_step (MkConnSystem c acc ws t) (MkConnSystem c acc (ws ∖ {[id]}) t)
| cs_write c acc ws t sent c' : writer_step sent c = Some c' → conn_step (MkConnSystem c acc ws t) (MkConnSystem c' acc ws t)
| cs_read c acc ws t e c' : reader_ends e c = Some c' → conn_step (MkConnSystem c acc ws t) (MkConnSystem c' acc ws t)
| cs_close c acc ws t c' : conn_close c = Some c' → conn_step (MkConnSystem c acc ws t) (MkConnSystem c' acc ws t).

Definition conn_reach (s : ConnSystem) : Prop := rtc conn_step (MkConnSystem conn_init [] ∅ []) s.

(** The frames of a call were written, in its turn. *)
Definition was_written (id : nat) (s : ConnSystem) : Prop :=
  ∃ i frames, accepted s !! i = Some (id, frames) ∧ n_written (conn s) !! i = Some frames.

(** What holds of every state: what was written is the front of what was
    accepted, and the rest is in the channel while the connection runs; the
    writer reported success only for what it wrote; the watch is set exactly
    when the connection is gone. *)
Record conn_inv (s : ConnSystem) : Prop := {
  ci_nodup : NoDup (accepted s).*1;
  ci_done : ∃ taken rest, accepted s = taken ++ rest ∧ n_written (conn s) = taken.*2 ∧ (n_phase (conn s) = ConnRunning → rest = n_queue (conn s));
  ci_complete : ∀ id, n_complete (conn s) !! id = Some (Ok tt) → was_written id s;
  ci_closed : is_Some (n_closed (conn s)) ↔ n_phase (conn s) = ConnGone;
  ci_told : ∀ id, (id, Ok tt) ∈ told s → was_written id s;
}.

Lemma was_written_mono id s s' k l :
  accepted s' = accepted s ++ k → n_written (conn s') = n_written (conn s) ++ l → was_written id s → was_written id s'.
Proof. intros Ea Ew (i & f & Hi & Hw). exists i, f. rewrite Ea, Ew. split; by apply lookup_app_l_Some. Qed.

Lemma was_written_same id s s' : accepted s' = accepted s → n_written (conn s') = n_written (conn s) → was_written id s → was_written id s'.
Proof. intros Ea Ew. apply (was_written_mono id s s' [] []); by rewrite app_nil_r. Qed.

Lemma conn_inv_calls c acc ws ws' t t' :
  conn_inv (MkConnSystem c acc ws t) → (∀ id, (id, Ok tt) ∈ t' → (id, Ok tt) ∈ t ∨ was_written id (MkConnSystem c acc ws t)) →
  conn_inv (MkConnSystem c acc ws' t').
Proof.
  intros [H1 H2 H3 H4 H5] Ht. split; simpl in *; try done.
  intros id [Hin%H5|Hw]%Ht; [eapply was_written_same; [..|exact Hin] | eapply was_written_same; [..|exact Hw]]; done.
Qed.

Lemma conn_inv_end c c' acc ws t :
  conn_inv (MkConnSystem c acc ws t) → n_phase c' ≠ ConnRunning → n_written c' = n_written c →
  (∀ id, n_complete c' !! id = Some (Ok tt) → n_complete c !! id = Some (Ok tt)) → (is_Some (n_closed c') ↔ n_phase c' = ConnGone) →
  conn_inv (MkConnSystem c' acc ws t).
Proof.
  intros [H1 (taken & rest & Ha & Hw & _) H3 H4 H5] Hp Ew Hc Hcl. split; simpl in *; [done| |..|done|].
  - exists taken, rest. split_and!; [done|congruence|done].
  - intros id Hid%Hc%H3. eapply was_written_same; [..|exact Hid]; done.
  - intros id Hid%H5. eapply was_written_same; [..|exact Hid]; done.
Qed.

Lemma conn_inv_write c acc ws t id frames queue :
  n_phase c = ConnRunning → n_queue c = (id, frames) :: queue → conn_inv (MkConnSystem c acc ws t) →
  conn_inv (MkConnSystem (MkConn ConnRunning queue (n_written c ++ [frames]) (<[id := Ok tt]> (n_complete c)) (n_closed c)) acc ws t).
Proof.
  intros Hp Hq [H1 (taken & rest & Ha & Hw & Hr) H3 H4 H5]. simpl in *. rewrite (Hr Hp), Hq in Ha.
  set (s' := MkConnSystem _ _ _ _).
  assert (∀ k, was_written k (MkConnSystem c acc ws t) → was_written k s') as Hmono.
  { intros k. apply (was_written_mono k _ s' [] [frames]); [by rewrite app_nil_r | done]. }
  split; unfold s'; simpl; [done|..].
  - exists (taken ++ [(id, frames)]), queue. rewrite <- app_assoc, fmap_app, Hw. done.
  - intros k Hk. destruct (decide (k = id)) as [->|Hne]; [|rewrite lookup_insert_ne in Hk by done; auto].
    exists (length taken), frames. simpl. rewrite Ha, Hw. split; [by apply list_lookup_middle|].
    apply list_lookup_middle. by rewrite length_fmap.
  - rewrite H4, Hp. done.
  - intros k Hk. auto.
Qed.

Lemma conn_reach_inv s : conn_reach s → conn_inv s.
Proof.
  apply (rtc_invariant conn_step conn_inv).
  { split; simpl; [constructor|by exists [], []|set_solver|by split; [intros []|]|set_solver]. }
  intros s1 s2 Hs. destruct Hs as [c acc ws t id frames c' Ha Ht E|c acc ws t id frames r c' Ha Ht E|c acc ws t id r Hid E
    |c acc ws t id Hid|c acc ws t sent c' E|c acc ws t e c' E|c acc ws t c' E]; intros Hinv.
  - unfold sink_submit in E. destruct (n_closed c) eqn:Ecl; [done|]. destruct (n_phase c) eqn:Ep; simplify_eq.
    destruct Hinv as [H1 (taken & rest & Hacc & Hw & Hr) H3 H4 H5]. simpl in *.
    assert (∀ k, was_written k (MkConnSystem c acc ws t) →
      was_written k (MkConnSystem (MkConn ConnRunning (n_queue c ++ [(id, frames)]) (n_written c) (n_complete c) None) (acc ++ [(id, frames)]) ({[id]} ∪ ws) t)) as Hm.
    { intros k. apply (was_written_mono k _ _ [(id, frames)] []); simpl; [done|by rewrite app_nil_r]. }
    split; simpl.
    + rewrite fmap_app. apply NoDup_app. split_and!; [done| |apply NoDup_singleton]. intros x Hx ->%list_elem_of_singleton. done.
    + exists taken, (rest ++ [(id, frames)]). split_and!; [by rewrite Hacc, app_assoc|done|]. intros _. by rewrite (Hr Ep).
    + auto.
    + split; [by intros []|done].
    + auto.
  - assert (c' = c ∧ is_ok r = false) as [-> Hr].
    { unfold sink_submit in E. destruct (n_closed c), (n_phase c); simplify_eq; done. }
    eapply conn_inv_calls; [exact Hinv|]. intros k [?|[= -> <-]%list_elem_of_singleton]%elem_of_app; [by left|done].
  - eapply conn_inv_calls; [exact Hinv|]. intros k [?|[= -> <-]%list_elem_of_singleton]%elem_of_app; [by left|]. right.
    unfold sink_poll in E. destruct (n_closed c); [done|]. apply (ci_complete _ Hinv). simpl.
    destruct (n_complete c !! id); [by simplify_eq|]. by destruct (n_phase c).
  - eapply conn_inv_calls; [exact Hinv|]. auto.
  - unfold writer_step in E. destruct (n_phase c) eqn:Ep; try done. destruct (n_queue c) as [|[id frames] queue] eqn:Eq; [done|].
    destruct sent as [[]|e]; injection E as <-; [by apply conn_inv_write|].
    eapply conn_inv_end; [exact Hinv|done|done| |].
    + intros k. simpl. destruct (decide (k = id)) as [->|Hne]; [by rewrite lookup_insert_eq | by rewrite lookup_insert_ne].
    + simpl. pose proof (ci_closed _ Hinv) as Hc. simpl in Hc. rewrite Hc, Ep. done.
  - unfold reader_ends in E. destruct (n_phase c) eqn:Ep; try done. injection E as <-. eapply conn_inv_end; [exact Hinv|done..|].
    simpl. pose proof (ci_closed _ Hinv) as Hc. simpl in Hc. rewrite Hc, Ep. done.
  - unfold conn_close in E. destruct (n_phase c) eqn:Ep; try done. injection E as <-. eapply conn_inv_end; [exact Hinv|done..|].
    simpl. split; [done|by eexists].
Qed.

(** While the connection runs, a request its channel took is still in it or was
    reported sent. *)
Definition conn_reports (s : ConnSystem) : Prop :=
  n_phase (conn s) = ConnRunning →
  (∀ id, id ∈ (accepted s).*1 → id ∈ (n_queue (conn s)).*1 ∨ n_complete (conn s) !! id = Some (Ok tt)) ∧
  (∀ id r, n_complete (conn s) !! id = Some r → r = Ok tt).

Lemma conn_reach_reports s : conn_reach s → conn_reports s.
Proof.
  apply (rtc_invariant conn_step conn_reports); [by split; [intros ? ?%elem_of_nil|]|].
  intros s1 s2 Hs Hrep. destruct Hs as [c acc ws t id frames c' Ha Ht E|c acc ws t id frames r c' Ha Ht E|c acc ws t id r Hid E
    |c acc ws t id Hid|c acc ws t sent c' E|c acc ws t e c' E|c acc ws t c' E]; try exact Hrep; unfold conn_reports in *; simpl in *; intros Hp.
  - unfold sink_submit in E. destruct (n_closed c); [done|]. destruct (n_phase c); simplify_eq/=. destruct (Hrep eq_refl) as [H1 H2].
    split; [|done]. intros k. rewrite !fmap_app, !elem_of_app. intros [[?|?]%H1|?]; auto.
  - assert (c' = c) as -> by (unfold sink_submit in E; repeat case_match; by simplify_eq). by apply Hrep.
  - unfold writer_step in E. destruct (n_phase c); [|done..]. destruct (n_queue c) as [|[k frames] queue] eqn:Hq; [done|].
    destruct sent; simplify_eq/=. destruct (Hrep eq_refl) as [H1 H2]. split; intros k'; destruct (decide (k' = k)) as [->|Hne];
      rewrite ?lookup_insert_eq, ?lookup_insert_ne by done; [naive_solver| |naive_solver|apply H2].
    intros [Hin|Hin]%H1; [|by right]. apply elem_of_cons in Hin as [?|?]; [done|by left].
  - unfold reader_ends in E. destruct (n_phase c); by simplify_eq/=.
  - unfold conn_close in E. destruct (n_phase c); by simplify_eq/=.
Qed.

Lemma closed_over s e : conn_reach s → n_closed (conn s) = Some e → n_phase (conn s) ≠ ConnRunning.
Proof. intros Hi%conn_reach_inv Hc Hp. assert (n_phase (conn s) = ConnGone) as Hg by (apply Hi; by eexists). congruence. Qed.

Lemma submit_refused_over s id frames e c' :
  conn_reach s → sink_submit id frames (conn s) = (Some (Err e), c') → n_phase (conn s) ≠ ConnRunning ∧ c' = conn s.
Proof.
  intros Hr. unfold sink_submit. destruct (n_closed (conn s)) eqn:Hc; [intros; simplify_eq; eauto using closed_over|].
  destruct (n_phase (conn s)); intros; by simplify_eq.
Qed.

Lemma poll_failed_over s id e : conn_reach s → sink_poll id (conn s) = Some (Err e) → n_phase (conn s) ≠ ConnRunning.
Proof.
  intros Hr. unfold sink_poll. destruct (n_closed (conn s)) eqn:Hc; [eauto using closed_over|]. intros E Hp.
  destruct (conn_reach_reports _ Hr Hp) as [_ Hok]. rewrite Hp in E.
  destruct (n_complete (conn s) !! id) as [res|] eqn:Ec; [|done]. rewrite (Hok _ _ Ec) in E. done.
Qed.

(** C38: (replies) whatever the interleaving of senders, writer, reader and the end
    of the connection: what the peer was sent is the front of what the channel
    took, in order, nothing dropped, repeated or reordered; a call of [send] that
    reports success had its frames written; a call can always be decided once
    the connection is over, so none waits for ever on a peer that is gone, and
    then every new call is refused. *)
Theorem reply_sends_end s :
  conn_reach s →
  n_written (conn s) `prefix_of` (accepted s).*2 ∧
  (∀ id, (id, Ok tt) ∈ told s → was_written id s) ∧
  (n_phase (conn s) ≠ ConnRunning → ∀ id, is_Some (sink_poll id (conn s))) ∧
  (n_phase (conn s) = ConnGone → ∀ id frames, ∃ e, n_closed (conn s) = Some e ∧ sink_submit id frames (conn s) = (Some (Err e), conn s)).
Proof.
  intros [H1 (taken & rest & Ha & Hw & _) H3 H4 H5]%conn_reach_inv. split_and!.
  - rewrite Ha, Hw, fmap_app. by eexists.
  - done.
  - intros Hp id. unfold sink_poll. destruct (n_closed (conn s)); [by eexists|]. destruct (n_complete (conn s) !! id); [by eexists|].
    destruct (n_phase (conn s)); [done|by eexists..].
  - intros Hp id frames. destruct (proj2 H4 Hp) as [e He]. exists e. split; [done|]. unfold sink_submit. by rewrite He.
Qed.

(** ** [RouterPeers::wait]

    One call that waits for the client of an identity.  [insert] puts the sink in
    the table and then notifies; [p_notifying] counts the inserts between the
    two.  A waiter is not enabled yet, enabled, or looked in vain and waits;
    [notified] is whether [notify_waiters] reached it since it was enabled. *)
Inductive Waiter := WStart | WEnabled (notified : bool) | WWaiting (notified : bool) | WFound (c : nat).

Record PeersSystem := MkPeers { p_table : RouterPeers; p_notifying : nat; p_waiter : Waiter }.

Definition notify_waiter (w : Waiter) : Waiter :=
  match w with WEnabled _ => WEnabled true | WWaiting _ => WWaiting true | _ => w end.

(** One move of the waiting call: [None] while it sleeps, or when it is over. *)
Definition waiter_step (identity : bytes) (t : RouterPeers) (w : Waiter) : option Waiter :=
  match w with
  | WStart => Some (WEnabled false)
  | WEnabled notified => Some (match t !! identity with Some c => WFound c | None => WWaiting notified end)
  | WWaiting true => Some WStart
  | WWaiting false | WFound _ => None
  end.

Section Waiting.
Context (identity : bytes).

(** The call's own moves, and the notifications of inserts already made. *)
Inductive wake_step : PeersSystem → PeersSystem → Prop :=
| ws_waiter t n w w' : waiter_step identity t w = Some w' → wake_step (MkPeers t n w) (MkPeers t n w')
| ws_notify t n w : wake_step (MkPeers t (S n) w) (MkPeers t n (notify_waiter w)).

Inductive peers_step : PeersSystem → PeersSystem → Prop :=
| ps_wake s s' : wake_step s s' → peers_step s s'
| ps_insert t n w i c : peers_step (MkPeers t n w) (MkPeers (peers_insert i c t) (S n) w)
| ps_remove t n w i c : peers_step (MkPeers t n w) (MkPeers (peers_remove i c t) n w).

Definition peers_reach (s : PeersSystem) : Prop := rtc peers_step (MkPeers ∅ 0 WStart) s.

(** Whoever sleeps while its client is connected has a notification coming. *)
Definition wake_coming (s : PeersSystem) : Prop :=
  p_waiter s = WWaiting false → is_Some (p_table s !! identity) → p_notifying s ≠ 0.

Lemma peers_reach_wake s : peers_reach s → wake_coming s.
Proof.
  apply (rtc_invariant peers_step wake_coming); [done|]. intros s1 s2 Hs. destruct Hs as [s3 s4 Hs| |t n w i c]; [|done|].
  - destruct Hs as [t n w w' Hw|t n w]; intros H; unfold wake_coming in *; simpl in *.
    + destruct w as [|b|[]|c]; simplify_eq/=; [done| |done]. destruct (t !! identity) eqn:E; intros; [done|]. by destruct H1.
    + by destruct w.
  - unfold wake_coming. simpl. intros H Hw Hin. apply H; [done|]. unfold peers_remove in Hin. case_decide; [|done].
    destruct (decide (i = identity)) as [->|Hne]; [by rewrite lookup_delete_eq in Hin; destruct Hin|].
    by rewrite lookup_delete_ne in Hin.
Qed.

Lemma waiter_finds t n w c :
  t !! identity = Some c → w = WStart ∨ (∃ b, w = WEnabled b) ∨ w = WWaiting true →
  rtc wake_step (MkPeers t n w) (MkPeers t n (WFound c)).
Proof.
  intros Hc. assert (∀ b, rtc wake_step (MkPeers t n (WEnabled b)) (MkPeers t n (WFound c))) as He.
  { intros b. apply rtc_once, ws_waiter. simpl. by rewrite Hc. }
  assert (rtc wake_step (MkPeers t n WStart) (MkPeers t n (WFound c))) as Hs.
  { eapply rtc_l; [by apply ws_waiter|apply He]. }
  intros [->|[[b ->]| ->]]; [done|done|]. eapply rtc_l; [by apply ws_waiter|done].
Qed.

(** (waiting for a client) the wait for a client's stdin connection misses no
    wake-up: at every moment at which the client is connected and the wait is not
    over, the wait's own moves and the notifications already under way end it
    with the client's connection, however connections came and went before. *)
Theorem peer_wait_ends s c :
  peers_reach s → p_table s !! identity = Some c → (∀ c', p_waiter s ≠ WFound c') →
  ∃ n, rtc wake_step s (MkPeers (p_table s) n (WFound c)).
Proof.
  intros Hr%peers_reach_wake Hc Hw. destruct s as [t n w]. simpl in *. destruct w as [|b|[]|c']; [..|by destruct (Hw c')].
  - exists n. apply waiter_finds; auto.
  - exists n. apply waiter_finds; eauto.
  - exists n. apply waiter_finds; auto.
  - destruct n as [|n]; [by destruct (Hr eq_refl (ex_intro _ c Hc))|]. exists n. eapply rtc_l; [apply ws_notify|]. apply waiter_finds; auto.
Qed.
End Waiting.

(** ** Witnesses *)

Lemma reply_sends_end_demo :
  conn_reach (MkConnSystem (MkConn ConnRunning [] [[as_bytes "a"]] {[0 := Ok tt]} None) [(0, [as_bytes "a"])] ({[0]} ∖ {[0]}) [(0, Ok tt)]).
Proof.
  eapply rtc_l; [apply (cs_submit _ _ _ _ 0 [as_bytes "a"]); [set_solver|set_solver|reflexivity]|].
  eapply rtc_l; [apply (cs_write _ _ _ _ (Ok tt)); reflexivity|].
  eapply rtc_l; [apply (cs_poll _ _ _ _ 0 (Ok tt)); [set_solver|reflexivity]|]. apply rtc_refl.
Qed.

Lemma reply_sends_end_witness :
  was_written 0 (MkConnSystem (MkConn ConnRunning [] [[as_bytes "a"]] {[0 := Ok tt]} None) [(0, [as_bytes "a"])] ({[0]} ∖ {[0]}) [(0, Ok tt)]).
Proof. destruct (reply_sends_end _ reply_sends_end_demo) as (_ & Ht & _). apply Ht. left. Defined.

Definition demo_peers : PeersSystem := MkPeers (peers_insert (as_bytes "x") 3 ∅) 1 (WWaiting false).

Lemma demo_peers_reach : peers_reach (as_bytes "x") demo_peers.
Proof.
  eapply rtc_l; [apply ps_wake, ws_waiter; reflexivity|]. eapply rtc_l; [apply ps_wake, ws_waiter; reflexivity|].
  eapply rtc_l; [apply (ps_insert _ _ _ _ (as_bytes "x") 3)|]. apply rtc_refl.
Qed.

Lemma peer_wait_ends_witness : ∃ n, rtc (wake_step (as_bytes "x")) demo_peers (MkPeers (p_table demo_peers) n (WFound 3)).
Proof. apply (peer_wait_ends (as_bytes "x") demo_peers 3 demo_peers_reach); [reflexivity|]. intros c' E. discriminate E. Defined.
