(* ===== verification/Servers.v ===== *)
(** * The transport's servers (src/src/transport.rs)

    The accept loop that the three servers share, and the router server as a
    whole: its connections with their readers, writers and sinks, the table of
    peers, the replay set of the session and the channel to the engine. *)

From Stdlib Require Import ZArith.
From stdpp Require Import base gmap sets list strings relations.
From S2P Require Import Prelude Json Errors Wire Services Transport Connections.

(** ** The accept loop

    A server is the [JoinSet] of its connections' tasks, the lines it printed, and
    its result once it returned.  A task that panicked finished without a
    result. *)
Inductive Task (P : Type) := Running (p : P) | Finished (result : option (Result unit)).
Arguments Running {P} p.
Arguments Finished {P} result.

Record Server (P : Type) := MkServer { sv_tasks : gmap nat (Task P); sv_spawned : nat; sv_lines : list string; sv_result : option Error }.
Arguments MkServer {P} _ _ _ _.
Arguments sv_tasks {P} _.
Arguments sv_spawned {P} _.
Arguments sv_lines {P} _.
Arguments sv_result {P} _.

Section AcceptLoop.
Context {P : Type}.

Definition server_init : Server P := MkServer ∅ 0 [] None.

Definition set_task (c : nat) (t : Task P) (s : Server P) : Server P :=
  MkServer (<[c := t]> (sv_tasks s)) (sv_spawned s) (sv_lines s) (sv_result s).

(** The server returns: the [JoinSet] is dropped, and with it every task. *)
Definition server_return (e : Error) (s : Server P) : Server P := MkServer ∅ (sv_spawned s) (sv_lines s) (Some e).

(** [listener.accept()]: a connection's task is spawned; an error ends the server. *)
Definition server_accept (start : P) (stream : result (option Z * string) unit) (s : Server P) : Server P :=
  match stream with
  | Ok _ => MkServer (<[sv_spawned s := Running start]> (sv_tasks s)) (S (sv_spawned s)) (sv_lines s) (sv_result s)
  | Err (errno, d) => server_return (from_io errno d) s
  end.

(** [connections.join_next()] with a task that finished. *)
Definition server_join (channel : string) (c : nat) (s : Server P) : option (Server P) :=
  match sv_tasks s !! c with
  | Some (Finished result) =>
      Some (match peer_finished result channel with
            | Ok line => MkServer (delete c (sv_tasks s)) (sv_spawned s) (sv_lines s ++ option_list line) (sv_result s)
            | Err e => server_return e s
            end)
  | _ => None
  end.
End AcceptLoop.

(** ** The router server

    Where the task of a connection is: in the handshake; about to enter the table;
    serving, with a message the channel to the engine has not taken yet; about to
    publish its end; about to leave the table. *)
Inductive RouterPhase :=
| RHandshake
| REntering (identity : bytes)
| RServing (identity : bytes) (sending : option Message)
| RClosing (identity : bytes) (result : Result unit)
| RLeaving (identity : bytes) (result : Result unit).

(** [r_sinks] is the channel and the watch of each connection, which its sinks
    share; [r_table] the table of peers, if the server keeps one; [r_seen] the
    session's replay set; [r_open] whether the engine still receives, and
    [r_incoming] what its channel took.  History: [r_names] is the identity each
    connection gave, and [r_reads] every multipart message the session decoded,
    with the connection it came on, in that order ([None]: on another server,
    as the servers share the session). *)
Record Router := MkRouter {
  r_server : Server RouterPhase;
  r_sinks : gmap nat ConnSystem;
  r_table : option RouterPeers;
  r_seen : gset bytes;
  r_open : bool;
  r_incoming : list Inbound;
  r_names : gmap nat bytes;
  r_reads : list (option nat * list bytes);
}.

Definition router_init (keeps_peers : bool) : Router :=
  MkRouter server_init ∅ (if keeps_peers then Some ∅ else None) ∅ true [] ∅ [].

Definition with_server (s : Server RouterPhase) (r : Router) : Router :=
  MkRouter s (r_sinks r) (r_table r) (r_seen r) (r_open r) (r_incoming r) (r_names r) (r_reads r).
Definition goto (c : nat) (p : RouterPhase) (r : Router) : Router := with_server (set_task c (Running p) (r_server r)) r.
Definition finish (c : nat) (result : option (Result unit)) (r : Router) : Router := with_server (set_task c (Finished result) (r_server r)) r.
Definition with_sinks (f : gmap nat ConnSystem → gmap nat ConnSystem) (r : Router) : Router :=
  MkRouter (r_server r) (f (r_sinks r)) (r_table r) (r_seen r) (r_open r) (r_incoming r) (r_names r) (r_reads r).
Definition with_table (f : RouterPeers → RouterPeers) (r : Router) : Router :=
  MkRouter (r_server r) (r_sinks r) (f <$> r_table r) (r_seen r) (r_open r) (r_incoming r) (r_names r) (r_reads r).
Definition with_incoming (inb : Inbound) (r : Router) : Router :=
  MkRouter (r_server r) (r_sinks r) (r_table r) (r_seen r) (r_open r) (r_incoming r ++ [inb]) (r_names r) (r_reads r).
Definition named (c : nat) (identity : bytes) (r : Router) : Router :=
  MkRouter (r_server r) (r_sinks r) (r_table r) (r_seen r) (r_open r) (r_incoming r) (<[c := identity]> (r_names r)) (r_reads r).
Definition decoded_on (c : option nat) (frames : list bytes) (seen : gset bytes) (r : Router) : Router :=
  MkRouter (r_server r) (r_sinks r) (r_table r) seen (r_open r) (r_incoming r) (r_names r) (r_reads r ++ [(c, frames)]).

Definition set_conn (c : Conn) (s : ConnSystem) : ConnSystem := MkConnSystem c (accepted s) (waiting s) (told s).

(** A task that is dropped, by a panic or with the server: the channel goes, and
    the watch with its sender, which [ReplySink::closed] reports. *)
Definition abort_conn (c : Conn) : Conn :=
  match n_phase c with
  | ConnRunning => MkConn ConnGone [] (n_written c) (n_complete c) (Some (error_closed "router peer"))
  | ConnOver _ => unwrap_or (conn_close c) c
  | ConnGone => c
  end.
Definition abort_sink (s : ConnSystem) : ConnSystem := set_conn (abort_conn (conn s)) s.

(** The select of [router_peer] ends with the reader's error. *)
Definition reading_ends (c : nat) (identity : bytes) (e : Error) (r : Router) : Router :=
  goto c (RClosing identity (Err e))
    (with_sinks (alter (λ s, set_conn (unwrap_or (reader_ends e (conn s)) (conn s)) s) c) r).

(** A server that returned drops its tasks. *)
Definition settle (r : Router) : Router := if sv_result (r_server r) then with_sinks (fmap abort_sink) r else r.

(** What happens to the server and its connections: what the sockets report, or
    which task moves. *)
Inductive RouterEvent :=
| EAccept (stream : result (option Z * string) unit)
| EHandshake (c : nat) (peer : result (Zmtp * string) (option bytes))
| EEnter (c : nat)
| ERecv (c : nat) (event : result (Zmtp * string) Incoming)
| EForward (c : nat)
| EWriteFails (c : nat) (e : Zmtp * string)
| EClose (c : nat)
| ELeave (c : nat)
| EPanic (c : nat)
| EJoin (c : nat)
| EOther (frames : list bytes)
| EEngineGone.

Section RouterServer.
Context `{WireExt} (s : Session).

(** [router_peer], for the task of a connection that is running. *)
Definition router_peer (ev : RouterEvent) (c : nat) (p : RouterPhase) (r : Router) : option Router :=
  match ev, p with
  | EHandshake _ (Err (z, d)), RHandshake => Some (finish c (Some (Err (from_zmtp z d))) r)
  | EHandshake _ (Ok name), RHandshake =>
      let identity := unwrap_or name [] in
      Some (goto c (REntering identity) (named c identity (with_sinks (insert c (MkConnSystem conn_init [] ∅ [])) r)))
  | EEnter _, REntering identity => Some (goto c (RServing identity None) (with_table (peers_insert identity c) r))
  | ERecv _ event, RServing identity None =>
      Some (match event with
            | Err (z, d) => reading_ends c identity (from_zmtp z d) r
            | Ok (IMessage frames) =>
                let '(res, seen) := decode s (r_seen r) frames in
                let r := decoded_on (Some c) frames seen r in
                match res with
                | Ok m => goto c (RServing identity (Some m)) r
                | Err DuplicateSignature => r
                | Err e => reading_ends c identity (error_from_wire e) r
                end
            | Ok _ => reading_ends c identity (error_new Protocol "unexpected command on ROUTER peer") r
            end)
  | EForward _, RServing identity (Some m) =>
      Some (if r_open r then goto c (RServing identity None) (with_incoming (MkInbound m c identity) r)
            else reading_ends c identity from_send_error r)
  | EWriteFails _ (z, d), RServing identity _ =>
      match r_sinks r !! c ≫= (λ sink, writer_step (Err (from_zmtp z d)) (conn sink)) with
      | Some conn' => Some (goto c (RClosing identity (Err (from_zmtp z d))) (with_sinks (alter (set_conn conn') c) r))
      | None => None
      end
  | EClose _, RClosing identity result =>
      Some (goto c (RLeaving identity result) (with_sinks (alter (λ s, set_conn (unwrap_or (conn_close (conn s)) (conn s)) s) c) r))
  | ELeave _, RLeaving identity result => Some (finish c (Some result) (with_table (peers_remove identity c) r))
  | EPanic _, _ => Some (finish c None (with_sinks (alter abort_sink c) r))
  | _, _ => None
  end.

(** [serve_router]: [None] when the event cannot happen. *)
Definition serve_router (ev : RouterEvent) (r : Router) : option Router :=
  match sv_result (r_server r), ev with
  | Some _, _ => None
  | None, EAccept stream => Some (settle (with_server (server_accept RHandshake stream (r_server r)) r))
  | None, EJoin c => (λ sv, settle (with_server sv r)) <$> server_join "router" c (r_server r)
  | None, EOther frames => Some (decoded_on None frames (decode s (r_seen r) frames).2 r)
  | None, EEngineGone => Some (MkRouter (r_server r) (r_sinks r) (r_table r) (r_seen r) false (r_incoming r) (r_names r) (r_reads r))
  | None, EHandshake c _ | None, EEnter c | None, ERecv c _ | None, EForward c | None, EWriteFails c _
  | None, EClose c | None, ELeave c | None, EPanic c =>
      match sv_tasks (r_server r) !! c with Some (Running p) => router_peer ev c p r | _ => None end
  end.
End RouterServer.

(** The moves of the server, and those of the senders and the writer of one of its
    connections that leave it as it is. *)
Inductive router_step `{WireExt} (s : Session) : Router → Router → Prop :=
| rs_event ev r r' : serve_router s ev r = Some r' → router_step s r r'
| rs_sink r c cs cs' :
    r_sinks r !! c = Some cs → conn_step cs cs' → n_phase (conn cs') = n_phase (conn cs) →
    router_step s r (with_sinks (insert c cs') r).

Definition router_reach `{WireExt} (s : Session) (keeps_peers : bool) (r : Router) : Prop := rtc (router_step s) (router_init keeps_peers) r.

(** ** What one connection sees *)

Section RouterProofs.
Context `{WireExt} (s : Session).

(** The messages that decoding everything in order accepts from one connection. *)
Definition decoded (c : nat) (reads : list (option nat * list bytes)) : list Message :=
  omap (λ x, match x with (Some c', Ok m) => if decide (c' = c) then Some m else None | _ => None end)
    (zip reads.*1 (decode_all s ∅ reads.*2).1).

(** The messages of one connection that reached the engine. *)
Definition delivered (c : nat) (incoming : list Inbound) : list Message := in_message <$> filter (λ inb, in_reply inb = c) incoming.

Record View := MkView { v_task : option (Task RouterPhase); v_sink : option ConnSystem; v_name : option bytes; v_got : list Message; v_said : list Message }.

Definition view (r : Router) (c : nat) : View :=
  MkView (sv_tasks (r_server r) !! c) (r_sinks r !! c) (r_names r !! c) (delivered c (r_incoming r)) (decoded c (r_reads r)).

Definition sink_in (phase : ConnPhase) (v : View) : Prop := ∃ cs, v_sink v = Some cs ∧ n_phase (conn cs) = phase ∧ conn_reach cs.

(** All that was said was delivered, but for [rest]. *)
Definition undelivered (rest : list Message) (v : View) : Prop := v_said v = v_got v ++ rest.

Definition view_ok (v : View) : Prop :=
  match v_task v with
  | Some (Running RHandshake) => v = MkView (v_task v) None None [] []
  | Some (Running (REntering i)) => sink_in ConnRunning v ∧ v_name v = Some i ∧ undelivered [] v
  | Some (Running (RServing i sending)) => sink_in ConnRunning v ∧ v_name v = Some i ∧ undelivered (option_list sending) v
  | Some (Running (RClosing i result)) =>
      sink_in (ConnOver result) v ∧ v_name v = Some i ∧ ∃ rest, length rest ≤ 1 ∧ undelivered rest v
  | Some (Running (RLeaving i _)) => sink_in ConnGone v ∧ v_name v = Some i ∧ ∃ rest, length rest ≤ 1 ∧ undelivered rest v
  | Some (Finished _) | None => (v_sink v = None ∨ sink_in ConnGone v) ∧ ∃ rest, length rest ≤ 1 ∧ undelivered rest v
  end.

Definition event_conn (ev : RouterEvent) : option nat :=
  match ev with
  | EHandshake c _ | EEnter c | ERecv c _ | EForward c | EWriteFails c _ | EClose c | ELeave c | EPanic c | EJoin c => Some c
  | EAccept _ | EOther _ | EEngineGone => None
  end.

Lemma decode_all_app l1 l2 seen :
  decode_all s seen (l1 ++ l2) =
    let '(rs1, seen1) := decode_all s seen l1 in let '(rs2, seen2) := decode_all s seen1 l2 in (rs1 ++ rs2, seen2).
Proof.
  revert seen. induction l1 as [|f l1 IH]; intros seen; simpl; [by destruct (decode_all s seen l2)|].
  destruct (decode s seen f) as [res seen']. rewrite IH. destruct (decode_all s seen' l1) as [rs1 seen1]. by destruct (decode_all s seen1 l2).
Qed.

Lemma decode_all_length l seen : length (decode_all s seen l).1 = length l.
Proof.
  revert seen. induction l as [|f l IH]; intros seen; [done|]. simpl. destruct (decode s seen f) as [res seen'].
  specialize (IH seen'). destruct (decode_all s seen' l). simpl in *. by rewrite IH.
Qed.

Lemma decode_all_snoc l f seen rs1 seen1 :
  decode_all s seen l = (rs1, seen1) → decode_all s seen (l ++ [f]) = (rs1 ++ [(decode s seen1 f).1], (decode s seen1 f).2).
Proof. intros E. rewrite decode_all_app, E. simpl. by destruct (decode s seen1 f). Qed.

Lemma decoded_snoc c reads c' frames :
  decoded c (reads ++ [(c', frames)]) =
    decoded c reads ++
    match (decode s (decode_all s ∅ reads.*2).2 frames).1 with Ok m => if decide (c' = Some c) then [m] else [] | Err _ => [] end.
Proof.
  unfold decoded. rewrite !fmap_app. simpl. destruct (decode_all s ∅ reads.*2) as [rs seen] eqn:E.
  rewrite (decode_all_snoc _ _ _ _ _ E). simpl. rewrite zip_with_app, omap_app.
  2: { rewrite length_fmap. pose proof (decode_all_length reads.*2 ∅) as Hl. rewrite E, length_fmap in Hl. done. }
  f_equal. simpl. destruct c' as [c'|], (decode s seen frames).1; simpl; repeat case_decide; naive_solver.
Qed.

Lemma delivered_snoc c incoming inb :
  delivered c (incoming ++ [inb]) = delivered c incoming ++ (if decide (in_reply inb = c) then [in_message inb] else []).
Proof. unfold delivered. rewrite filter_app, fmap_app. f_equal. rewrite filter_cons, filter_nil. by case_decide. Qed.

(** How a move looks from a connection it is not about: its own view is as it was. *)
Lemma view_other_goto c c' p r : c' ≠ c → view (goto c' p r) c = view r c.
Proof. intros Hne. unfold view. simpl. by rewrite lookup_insert_ne. Qed.

Lemma view_other_finish c c' res r : c' ≠ c → view (finish c' res r) c = view r c.
Proof. intros Hne. unfold view. simpl. by rewrite lookup_insert_ne. Qed.

Lemma view_other_sinks c f r : f (r_sinks r) !! c = r_sinks r !! c → view (with_sinks f r) c = view r c.
Proof. intros Hf. unfold view. simpl. by rewrite Hf. Qed.

Lemma view_table c f r : view (with_table f r) c = view r c.
Proof. done. Qed.

Lemma view_other_named c c' i r : c' ≠ c → view (named c' i r) c = view r c.
Proof. intros Hne. unfold view. simpl. by rewrite lookup_insert_ne. Qed.

Lemma view_other_incoming c inb r : in_reply inb ≠ c → view (with_incoming inb r) c = view r c.
Proof. intros Hne. unfold view. simpl. by rewrite delivered_snoc, decide_False, app_nil_r. Qed.

Lemma view_other_decoded c c' frames seen r : c' ≠ Some c → view (decoded_on c' frames seen r) c = view r c.
Proof.
  intros Hne. unfold view. simpl. rewrite decoded_snoc. case_match; [rewrite decide_False by done|]; by rewrite app_nil_r.
Qed.

Ltac other_view :=
  repeat first
    [ reflexivity | rewrite view_table
    | rewrite view_other_goto by done | rewrite view_other_finish by done | rewrite view_other_named by done | rewrite view_other_incoming by done
    | rewrite view_other_decoded by congruence
    | rewrite view_other_sinks by (first [by rewrite lookup_insert_ne | by rewrite lookup_alter_ne]) ].

(** The moves of a connection: one case per event and phase it can happen in. *)
Ltac peer_cases_of ev p E :=
  unfold router_peer, reading_ends in E;
  destruct ev as [?|? [name|[z d]]|?|? [[frames| | |]|[z d]]|?|? [z d]|?|?|?|?|?|], p as [|i|i [m|]|i res|i res]; simplify_eq/=.
Tactic Notation "peer_cases" := lazymatch goal with E : router_peer _ ?ev _ ?p _ = Some _ |- _ => peer_cases_of ev p E end.

Lemma router_peer_frame ev c p r r' c' : router_peer s ev c p r = Some r' → c' ≠ c → view r' c' = view r c'.
Proof.
  intros E Hne. apply not_eq_sym in Hne. peer_cases; other_view.
  - destruct (decode s (r_seen r) frames) as [res seen]. destruct res as [m|[]]; simplify_eq/=; other_view.
  - destruct (r_open r); simplify_eq/=; other_view.
  - case_match; simplify_eq/=; other_view.
  - case_match; simplify_eq/=; other_view.
Qed.

(** *** The sink of a connection *)

Lemma sink_step cs cs' : conn_reach cs → conn_step cs cs' → conn_reach cs'.
Proof. intros Hr Hs. eapply rtc_r; [exact Hr|exact Hs]. Qed.

Lemma sink_reader_ends cs e :
  conn_reach cs → n_phase (conn cs) = ConnRunning →
  let cs' := set_conn (unwrap_or (reader_ends e (conn cs)) (conn cs)) cs in conn_reach cs' ∧ n_phase (conn cs') = ConnOver (Err e).
Proof.
  intros Hr Hp. destruct cs as [c acc ws t]. unfold reader_ends, set_conn. simpl in *. rewrite Hp. simpl. split; [|done].
  eapply sink_step; [exact Hr|]. apply (cs_read _ _ _ _ e). unfold reader_ends. by rewrite Hp.
Qed.

Lemma sink_write_fails cs e c' :
  conn_reach cs → writer_step (Err e) (conn cs) = Some c' → conn_reach (set_conn c' cs) ∧ n_phase c' = ConnOver (Err e).
Proof.
  intros Hr Hw. destruct cs as [c acc ws t]. unfold set_conn. simpl in *. split; [by eapply sink_step, cs_write|].
  unfold writer_step in Hw. destruct (n_phase c), (n_queue c) as [|[]]; by simplify_eq.
Qed.

Lemma sink_close cs res :
  conn_reach cs → n_phase (conn cs) = ConnOver res →
  let cs' := set_conn (unwrap_or (conn_close (conn cs)) (conn cs)) cs in conn_reach cs' ∧ n_phase (conn cs') = ConnGone.
Proof.
  intros Hr Hp. destruct cs as [c acc ws t]. unfold set_conn. simpl in *. unfold conn_close. rewrite Hp. simpl. split; [|done].
  eapply sink_step; [exact Hr|]. apply cs_close. unfold conn_close. by rewrite Hp.
Qed.

Lemma sink_abort cs : conn_reach cs → conn_reach (abort_sink cs) ∧ n_phase (conn (abort_sink cs)) = ConnGone.
Proof.
  intros Hr. destruct cs as [c acc ws t]. unfold abort_sink, set_conn, abort_conn. simpl. destruct (n_phase c) as [|res|] eqn:Hp; simpl.
  - split; [|done]. set (e := error_closed "router peer"). destruct (sink_reader_ends _ e Hr Hp) as [Hr1 Hp1].
    destruct (sink_close _ _ Hr1 Hp1) as [Hr2 _]. revert Hr2. unfold set_conn, reader_ends. simpl. rewrite Hp. done.
  - by apply (sink_close (MkConnSystem c acc ws t) res).
  - by rewrite Hp.
Qed.

(** *** A connection's own moves keep its view in order *)

Lemma view_ok_reading_ends r c i e sending :
  view_ok (view r c) → sv_tasks (r_server r) !! c = Some (Running (RServing i sending)) → view_ok (view (reading_ends c i e r) c).
Proof.
  unfold view, view_ok. simpl. intros Hv Ht. rewrite Ht in Hv. destruct Hv as ((cs & Hs & Hp & Hr) & Hn & Hu). simpl in *.
  rewrite lookup_insert_eq. split_and!; [|done|].
  - destruct (sink_reader_ends cs e Hr Hp) as [Hr' Hp']. eexists. simpl. rewrite lookup_alter_eq, Hs. simpl. eauto.
  - exists (option_list sending). split; [destruct sending; simpl; lia | done].
Qed.

Lemma view_ok_weak v :
  view_ok v → (v_sink v = None ∨ ∃ cs, v_sink v = Some cs ∧ conn_reach cs) ∧ ∃ rest, length rest ≤ 1 ∧ undelivered rest v.
Proof.
  unfold view_ok. destruct (v_task v) as [[[|i|i m|i res|i res]|res]|].
  1: intros ->; simpl; split; [by left | by exists []; split; [simpl; lia|]].
  1: intros ((cs & ? & _ & ?) & _ & Hu); split; [right; eauto | exists []; split; [simpl; lia | done]].
  1: intros ((cs & ? & _ & ?) & _ & Hu); split; [right; eauto | exists (option_list m); split; [destruct m; simpl; lia | done]].
  1,2: intros ((cs & ? & _ & ?) & _ & Hu); split; [right; eauto | done].
  all: intros ([?|(cs & ? & _ & ?)] & Hu); split; [by left|done|right; eauto|done].
Qed.

(** A dropped task leaves its sink closed. *)
Lemma view_ok_dropped v t : view_ok v → (∀ p, t ≠ Some (Running p)) → view_ok (MkView t (abort_sink <$> v_sink v) (v_name v) (v_got v) (v_said v)).
Proof.
  intros [Hs Hu]%view_ok_weak Ht.
  assert ((abort_sink <$> v_sink v = None ∨ sink_in ConnGone (MkView t (abort_sink <$> v_sink v) (v_name v) (v_got v) (v_said v)))) as Hg.
  { destruct Hs as [->|(cs & -> & [Hr Hp]%sink_abort)]; [by left|right]. eexists. split_and!; [reflexivity|done..]. }
  unfold view_ok. simpl. destruct t as [[p|res]|]; [by destruct (Ht p)|done..].
Qed.

Lemma view_ok_write_fails r c i sending e conn' :
  view_ok (view r c) → sv_tasks (r_server r) !! c = Some (Running (RServing i sending)) →
  r_sinks r !! c ≫= (λ sink, writer_step (Err e) (conn sink)) = Some conn' →
  view_ok (view (goto c (RClosing i (Err e)) (with_sinks (alter (set_conn conn') c) r)) c).
Proof.
  unfold view, view_ok. simpl. intros Hv Ht Hw. rewrite Ht in Hv. destruct Hv as ((cs & Hs & Hp & Hr) & Hn & Hu). simpl in *.
  rewrite Hs in Hw. simpl in Hw. destruct (sink_write_fails _ _ _ Hr Hw) as [Hr' Hp'].
  rewrite lookup_insert_eq. split_and!; [|done|].
  - exists (set_conn conn' cs). simpl. rewrite lookup_alter_eq, Hs. done.
  - exists (option_list sending). split; [destruct sending; simpl; lia | done].
Qed.

Lemma view_ok_decoded r c i frames res seen :
  view_ok (view r c) → sv_tasks (r_server r) !! c = Some (Running (RServing i None)) → r_seen r = (decode_all s ∅ (r_reads r).*2).2 →
  decode s (r_seen r) frames = (res, seen) →
  view_ok (view (goto c (RServing i (match res with Ok m => Some m | Err _ => None end)) (decoded_on (Some c) frames seen r)) c).
Proof.
  unfold view, view_ok. simpl. intros Hv Ht Hseen E. rewrite Ht in Hv. destruct Hv as (Hs & Hn & Hu). simpl in *.
  rewrite lookup_insert_eq. split_and!; [done..|]. unfold undelivered in *. simpl in *.
  rewrite decoded_snoc, <- Hseen, E, Hu, app_nil_r. simpl. destruct res; simpl; [by rewrite decide_True|done].
Qed.

Lemma router_peer_ok ev c p r r' :
  view_ok (view r c) → sv_tasks (r_server r) !! c = Some (Running p) → r_seen r = (decode_all s ∅ (r_reads r).*2).2 →
  router_peer s ev c p r = Some r' → view_ok (view r' c).
Proof.
  intros Hok Ht Hseen E. pose proof Hok as Hv. unfold view, view_ok in Hv. simpl in Hv. rewrite Ht in Hv. simpl in Hv.
  destruct ev as [?|? peer|?|? event|?|? [z d]|?|?|?|?|?|]; try discriminate E; simpl in E.
  - destruct peer as [name|[z d]], p; try discriminate E; injection E as <-; injection Hv as Es En Eg Ed; unfold view, view_ok; simpl.
    + rewrite !lookup_insert_eq. split_and!; [|done|].
      * eexists. split_and!; [reflexivity|done|apply rtc_refl].
      * unfold undelivered. simpl. by rewrite Eg, Ed.
    + rewrite lookup_insert_eq. split; [by left|]. exists []. unfold undelivered. simpl. rewrite Eg, Ed. split; [lia|done].
  - destruct p as [|i| | |]; try discriminate E. injection E as <-. unfold view, view_ok. simpl. by rewrite lookup_insert_eq.
  - destruct p as [| |i [m|]| |]; try discriminate E. injection E as <-. destruct event as [[frames| | |]|[z d]].
    1: destruct (decode s (r_seen r) frames) as [res seen] eqn:Ed; pose proof (view_ok_decoded _ _ _ _ _ _ Hok Ht Hseen Ed) as Hd;
       destruct res as [m|we]; [done|].
    2-5: by eapply view_ok_reading_ends.
    assert (view_ok (view (decoded_on (Some c) frames seen r) c)) as Hd'.
    { revert Hd. unfold view, view_ok. simpl. by rewrite lookup_insert_eq, Ht. }
    destruct we; try done; by eapply (view_ok_reading_ends (decoded_on (Some c) frames seen r)).
  - destruct p as [| |i [m|]| |]; try discriminate E. injection E as <-. destruct (r_open r); [|by eapply view_ok_reading_ends].
    destruct Hv as (Hs & Hn & Hu). unfold view, view_ok. simpl. rewrite lookup_insert_eq. split_and!; [done..|].
    unfold undelivered in *. simpl in *. by rewrite delivered_snoc, decide_True, app_nil_r.
  - destruct p as [| |i sending| |]; try discriminate E. destruct (r_sinks r !! c ≫= _) as [conn'|] eqn:Ew; [|discriminate E].
    injection E as <-. by eapply view_ok_write_fails.
  - destruct p as [| | |i res|]; try discriminate E. injection E as <-. destruct Hv as ((cs & Hs & Hp & Hr) & Hn & Hu). simpl in *.
    destruct (sink_close _ _ Hr Hp) as [Hr' Hp']. unfold view, view_ok. simpl. rewrite lookup_insert_eq. split_and!; [|done..].
    eexists. simpl. rewrite lookup_alter_eq, Hs. eauto.
  - destruct p as [| | | |i res]; try discriminate E. injection E as <-. destruct Hv as (Hs & Hn & Hu).
    unfold view, view_ok. simpl. rewrite lookup_insert_eq. split; [by right|done].
  - assert (view r' c = MkView (Some (Finished None)) (abort_sink <$> v_sink (view r c)) (v_name (view r c)) (v_got (view r c)) (v_said (view r c))) as ->.
    { destruct p; injection E as <-; unfold view; simpl; by rewrite lookup_insert_eq, lookup_alter_eq. }
    by apply view_ok_dropped.
Qed.

(** *** What a move does to the shared state *)

Lemma router_peer_seen ev c p r r' :
  router_peer s ev c p r = Some r' → r_seen r = (decode_all s ∅ (r_reads r).*2).2 → r_seen r' = (decode_all s ∅ (r_reads r').*2).2.
Proof.
  intros E Hseen. peer_cases; try done.
  - destruct (decode_all s ∅ (r_reads r).*2) as [rs seen0] eqn:E0. simpl in Hseen. subst seen0.
    destruct (decode s (r_seen r) frames) as [[m|[]] seen] eqn:Ed; simpl; rewrite fmap_app; simpl;
      rewrite (decode_all_snoc _ _ _ _ _ E0), Ed; done.
  - by destruct (r_open r); simplify_eq/=.
  - by case_match; simplify_eq/=.
  - by case_match; simplify_eq/=.
Qed.

Lemma router_peer_incoming ev c p r r' :
  view_ok (view r c) → sv_tasks (r_server r) !! c = Some (Running p) → router_peer s ev c p r = Some r' →
  (r_incoming r' = r_incoming r ∨ ∃ m i, r_incoming r' = r_incoming r ++ [MkInbound m c i] ∧ r_names r' !! c = Some i) ∧
  (r_names r' = r_names r ∨ r_names r !! c = None ∧ ∃ i, r_names r' = <[c := i]> (r_names r)).
Proof.
  intros Hv Ht E. unfold view, view_ok in Hv. simpl in Hv. rewrite Ht in Hv. simpl in Hv. peer_cases; auto.
  - split; [by left | right; eauto].
  - destruct (decode s (r_seen r) frames) as [[m|[]] seen]; simplify_eq/=; auto.
  - destruct (r_open r); simplify_eq/=; [|auto]. destruct Hv as (_ & Hn & _). simpl in Hn. split; [right; eauto | by left].
  - case_match; simplify_eq/=; auto.
  - case_match; simplify_eq/=; auto.
Qed.

(** Which tasks may have an entry in the table. *)
Definition in_table (t : option (Task RouterPhase)) : Prop :=
  match t with Some (Running (RServing _ _ | RClosing _ _ | RLeaving _ _)) | Some (Finished None) => True | _ => False end.

(** What an entry of the table stands for. *)
Definition entries_ok (r : Router) : Prop :=
  ∀ t i c, r_table r = Some t → t !! i = Some c → r_names r !! c = Some i ∧ (in_table (sv_tasks (r_server r) !! c) ∨ is_Some (sv_result (r_server r))).

Lemma entries_keep r r' :
  (∀ t' i c, r_table r' = Some t' → t' !! i = Some c → ∃ t, r_table r = Some t ∧ t !! i = Some c) → r_names r ⊆ r_names r' →
  (∀ c, in_table (sv_tasks (r_server r) !! c) → in_table (sv_tasks (r_server r') !! c) ∨ ∀ t' i, r_table r' = Some t' → t' !! i ≠ Some c) →
  sv_result (r_server r) = None → entries_ok r → entries_ok r'.
Proof.
  intros Ht Hn Hin Hres He t' i c Et' Ei. destruct (Ht t' i c Et' Ei) as (t & Et & Eti). destruct (He t i c Et Eti) as [Hname Hw].
  split; [by eapply lookup_weaken|]. rewrite Hres in Hw. destruct Hw as [Hw|[? ?]]; [|done]. destruct (Hin c Hw) as [|Hno]; [by left|].
  by destruct (Hno t' i Et').
Qed.

Lemma entries_task r r' c p :
  sv_tasks (r_server r) !! c = Some (Running p) → r_table r' = r_table r → r_names r ⊆ r_names r' →
  (∃ t', sv_tasks (r_server r') = <[c := t']> (sv_tasks (r_server r)) ∧ (in_table (Some (Running p)) → in_table (Some t'))) →
  sv_result (r_server r) = None → entries_ok r → entries_ok r'.
Proof.
  intros Hp Ht Hn (t' & Hts & Hin). apply entries_keep; [|done|].
  - rewrite Ht. eauto.
  - intros c' Hc'. left. rewrite Hts. destruct (decide (c = c')) as [<-|Hne]; [|by rewrite lookup_insert_ne].
    rewrite lookup_insert_eq. rewrite Hp in Hc'. auto.
Qed.

Lemma entries_enter r c i :
  r_names r !! c = Some i → sv_result (r_server r) = None → entries_ok r →
  entries_ok (goto c (RServing i None) (with_table (peers_insert i c) r)).
Proof.
  intros Hn Hres He t' i' c' Et' Ei. simpl in *. destruct (r_table r) as [t|] eqn:Et; simplify_eq/=. unfold peers_insert in Ei.
  destruct (decide (i = i')) as [<-|Hne].
  - rewrite lookup_insert_eq in Ei. simplify_eq. rewrite lookup_insert_eq. split; [done|by left].
  - rewrite lookup_insert_ne in Ei by done. destruct (He t i' c' Et Ei) as [Hn' [Hw|Hw]]; [|by rewrite Hres in Hw; destruct Hw].
    split; [done|left]. destruct (decide (c = c')) as [<-|]; [congruence|]. by rewrite lookup_insert_ne.
Qed.

Lemma entries_leave r c i result :
  r_names r !! c = Some i → sv_result (r_server r) = None → entries_ok r →
  entries_ok (finish c result (with_table (peers_remove i c) r)).
Proof.
  intros Hn Hres He t' i' c' Et' Ei. simpl in *. destruct (r_table r) as [t|] eqn:Et; simplify_eq/=.
  assert (t !! i' = Some c' ∧ c ≠ c') as [Ei' Hne].
  { unfold peers_remove in Ei. case_decide as Hd; [apply lookup_delete_Some in Ei as [Hi Ei]|].
    - split; [done|]. intros <-. destruct (He t i' c Et Ei) as [? _]. congruence.
    - split; [done|]. intros <-. destruct (He t i' c Et Ei) as [? _]. congruence. }
  destruct (He t i' c' Et Ei') as [Hn' [Hw|Hw]]; [|by rewrite Hres in Hw; destruct Hw].
  split; [done|left]. by rewrite lookup_insert_ne.
Qed.

Lemma router_peer_entries ev c p r r' :
  view_ok (view r c) → sv_tasks (r_server r) !! c = Some (Running p) → router_peer s ev c p r = Some r' →
  sv_result (r_server r) = None → entries_ok r → entries_ok r'.
Proof.
  intros Hv Ht E. unfold view, view_ok in Hv. simpl in Hv. rewrite Ht in Hv. simpl in Hv. peer_cases.
  all: try (apply (entries_task _ _ _ _ Ht); [reflexivity|reflexivity|by eexists]).
  - apply (entries_task _ _ _ _ Ht); [done|by apply insert_subseteq|by eexists].
  - apply entries_enter. apply Hv.
  - destruct (decode s (r_seen r) frames) as [[m|[]] seen]; try done.
    all: apply (entries_task _ _ _ _ Ht); [reflexivity|reflexivity|by eexists].
  - destruct (r_open r); apply (entries_task _ _ _ _ Ht); [reflexivity|reflexivity|by eexists|reflexivity|reflexivity|by eexists].
  - case_match; simplify_eq/=. apply (entries_task _ _ _ _ Ht); [reflexivity|reflexivity|by eexists].
  - case_match; simplify_eq/=. apply (entries_task _ _ _ _ Ht); [reflexivity|reflexivity|by eexists].
  - apply entries_leave. apply Hv.
Qed.

(** *** The server's invariant *)

Record router_inv (r : Router) : Prop := {
  ri_seen : r_seen r = (decode_all s ∅ (r_reads r).*2).2;
  ri_views : ∀ c, view_ok (view r c);
  ri_fresh : ∀ c, sv_spawned (r_server r) ≤ c → view r c = MkView None None None [] [];
  ri_names : ∀ inb, inb ∈ r_incoming r → r_names r !! in_reply inb = Some (in_identity inb);
  ri_entries : entries_ok r;
  ri_over : is_Some (sv_result (r_server r)) → sv_tasks (r_server r) = ∅;
}.

Lemma router_peer_server ev c p r r' :
  router_peer s ev c p r = Some r' → sv_result (r_server r') = sv_result (r_server r) ∧ sv_spawned (r_server r') = sv_spawned (r_server r).
Proof.
  intros E. peer_cases; try done.
  - by destruct (decode s (r_seen r) frames) as [[m|[]] seen].
  - by destruct (r_open r).
  - by case_match; simplify_eq/=.
  - by case_match; simplify_eq/=.
Qed.

Lemma router_inv_peer ev c p r r' :
  router_inv r → sv_result (r_server r) = None → sv_tasks (r_server r) !! c = Some (Running p) → router_peer s ev c p r = Some r' → router_inv r'.
Proof.
  intros [H1 H2 H3 H4 H5 H6] Hres Ht E. destruct (router_peer_server _ _ _ _ _ E) as [Hr' Hs'].
  assert (c < sv_spawned (r_server r)) as Hlt.
  { destruct (decide (sv_spawned (r_server r) ≤ c)) as [Hle|]; [|lia]. pose proof (H3 c Hle) as Hv. unfold view in Hv. rewrite Ht in Hv. simplify_eq. }
  split.
  - by eapply router_peer_seen.
  - intros c'. destruct (decide (c' = c)) as [->|Hne]; [by eapply router_peer_ok|]. by rewrite (router_peer_frame _ _ _ _ _ _ E Hne).
  - intros c' Hle. rewrite Hs' in Hle. rewrite (router_peer_frame _ _ _ _ _ _ E) by lia. by apply H3.
  - destruct (router_peer_incoming _ _ _ _ _ (H2 c) Ht E) as [Hin Hnames]. intros inb Hinb.
    assert (inb ∈ r_incoming r → r_names r' !! in_reply inb = Some (in_identity inb)) as Hold.
    { intros Hn%H4. destruct Hnames as [->|(Hno & i & ->)]; [done|]. rewrite lookup_insert_ne; [done|congruence]. }
    destruct Hin as [Hin|(m & i & Hin & Hn)]; rewrite Hin in Hinb; [auto|]. apply elem_of_app in Hinb as [?| ->%list_elem_of_singleton]; auto.
  - by eapply router_peer_entries.
  - rewrite Hr', Hres. by intros [].
Qed.

(** The server returns. *)
Lemma router_inv_return r e : router_inv r → router_inv (settle (with_server (server_return e (r_server r)) r)).
Proof.
  intros [H1 H2 H3 H4 H5 H6]. unfold settle. simpl.
  assert (∀ c, view (with_sinks (fmap abort_sink) (with_server (server_return e (r_server r)) r)) c =
    MkView None (abort_sink <$> v_sink (view r c)) (v_name (view r c)) (v_got (view r c)) (v_said (view r c))) as Hv.
  { intros c. unfold view. simpl. by rewrite lookup_empty, lookup_fmap. }
  split; simpl; try done.
  - intros c. rewrite Hv. by apply view_ok_dropped.
  - intros c Hc. rewrite Hv, (H3 c Hc). done.
  - intros t i c Et Ei. simpl in *. destruct (H5 t i c Et Ei) as [? _]. split; [done|right; by eexists].
Qed.

Lemma router_inv_accept r : router_inv r → sv_result (r_server r) = None → router_inv (settle (with_server (server_accept RHandshake (Ok tt) (r_server r)) r)).
Proof.
  intros [H1 H2 H3 H4 H5 H6] Hres. unfold settle. simpl. rewrite Hres.
  assert (view r (sv_spawned (r_server r)) = MkView None None None [] []) as Hnew by by apply H3.
  unfold view in Hnew. injection Hnew as Et Es En Eg Ed.
  split; simpl; try done.
  - intros c. unfold view. simpl. destruct (decide (c = sv_spawned (r_server r))) as [->|Hne].
    + rewrite lookup_insert_eq, Es, En, Eg, Ed. done.
    + rewrite lookup_insert_ne by done. apply H2.
  - intros c Hc. rewrite <- (H3 c) by lia. unfold view. simpl. by rewrite lookup_insert_ne by lia.
  - revert H5. apply entries_keep; [simpl; eauto|done| |done]. simpl. intros c Hc. left. rewrite lookup_insert_ne; [done|]. intros <-. by rewrite Et in Hc.
Qed.

Lemma router_inv_join r c res : router_inv r → sv_result (r_server r) = None → sv_tasks (r_server r) !! c = Some (Finished (Some res)) →
  ∀ lines, router_inv (with_server (MkServer (delete c (sv_tasks (r_server r))) (sv_spawned (r_server r)) lines None) r).
Proof.
  intros [H1 H2 H3 H4 H5 H6] Hres Ht lines. split; simpl; try done.
  - intros c'. unfold view. simpl. destruct (decide (c' = c)) as [->|Hne].
    + rewrite lookup_delete_eq. pose proof (H2 c) as Hv. unfold view, view_ok in Hv. simpl in Hv. by rewrite Ht in Hv.
    + rewrite lookup_delete_ne by done. apply H2.
  - intros c' Hc. rewrite <- (H3 c' Hc). unfold view. simpl. rewrite lookup_delete_ne; [done|]. intros <-.
    pose proof (H3 c Hc) as Hv. unfold view in Hv. rewrite Ht in Hv. simplify_eq.
  - revert H5. apply entries_keep; [simpl; eauto|done| |done]. simpl. intros c' Hc'. left. rewrite lookup_delete_ne; [done|]. intros <-. by rewrite Ht in Hc'.
Qed.

Lemma router_inv_sink r c cs cs' :
  router_inv r → r_sinks r !! c = Some cs → conn_step cs cs' → n_phase (conn cs') = n_phase (conn cs) → router_inv (with_sinks (insert c cs') r).
Proof.
  intros [H1 H2 H3 H4 H5 H6] Hs Hstep Hp. split; simpl; try done.
  - intros c'. unfold view. simpl. destruct (decide (c' = c)) as [->|Hne]; [|rewrite lookup_insert_ne by done; apply H2].
    rewrite lookup_insert_eq. pose proof (H2 c) as Hv. unfold view, view_ok, sink_in, undelivered in *. simpl in *. rewrite Hs in Hv.
    assert (∀ phase, (∃ cs0, Some cs = Some cs0 ∧ n_phase (conn cs0) = phase ∧ conn_reach cs0) →
      ∃ cs0, Some cs' = Some cs0 ∧ n_phase (conn cs0) = phase ∧ conn_reach cs0) as Hmove.
    { intros phase (cs0 & [= <-] & <- & Hr). exists cs'. split_and!; [done..|]. by eapply sink_step. }
    repeat case_match; simplify_eq/=; destruct_and?; naive_solver.
  - intros c' Hc. unfold view. simpl. rewrite lookup_insert_ne; [apply (H3 c' Hc)|]. intros <-.
    pose proof (H3 c Hc) as Hv. unfold view in Hv. rewrite Hs in Hv. simplify_eq.
Qed.

Lemma router_inv_other r frames : router_inv r → router_inv (decoded_on None frames (decode s (r_seen r) frames).2 r).
Proof.
  intros [H1 H2 H3 H4 H5 H6]. split; simpl; try done.
  - rewrite fmap_app. simpl. destruct (decode_all s ∅ (r_reads r).*2) as [rs seen] eqn:E. by rewrite (decode_all_snoc _ _ _ _ _ E), H1.
  - intros c. rewrite view_other_decoded by done. apply H2.
  - intros c Hc. rewrite view_other_decoded by done. by apply H3.
Qed.

Lemma router_step_inv r r' : router_step s r r' → router_inv r → router_inv r'.
Proof.
  destruct 1 as [ev r r' E|r c cs cs' Hs Hstep Hp]; intros Hi; [|by eapply router_inv_sink].
  unfold serve_router in E. destruct (sv_result (r_server r)) as [e|] eqn:Hres; [done|].
  assert (∀ c, match sv_tasks (r_server r) !! c with Some (Running p) => router_peer s ev c p r | _ => None end = Some r' → router_inv r') as Hpeer.
  { intros c Ec. destruct (sv_tasks (r_server r) !! c) as [[p|]|] eqn:Ht; try discriminate Ec. by eapply router_inv_peer. }
  destruct ev as [[[]|[errno d]]|c peer|c|c event|c|c e|c|c|c|c|frames|]; try (by eapply Hpeer).
  - injection E as <-. by apply router_inv_accept.
  - injection E as <-. by apply router_inv_return.
  - unfold server_join in E. destruct (sv_tasks (r_server r) !! c) as [[|res]|] eqn:Ht; try discriminate E. injection E as <-.
    destruct res as [res|]; [|by apply router_inv_return].
    destruct res as [u|e]; simpl; unfold settle; simpl; rewrite Hres; by apply (router_inv_join r c _ Hi Hres Ht).
  - injection E as <-. by apply router_inv_other.
  - injection E as <-. destruct Hi. by split.
Qed.

Lemma router_reach_inv keeps_peers r : router_reach s keeps_peers r → router_inv r.
Proof.
  apply (rtc_invariant (router_step s) router_inv); [|apply router_step_inv].
  split; simpl; try done.
  - intros c. unfold view, view_ok. simpl. rewrite lookup_empty. split; [by left|]. exists []. split; [simpl; lia|done].
  - intros inb Hin. by apply elem_of_nil in Hin.
  - intros t i c Et Ei. simpl in Et. by destruct keeps_peers; simplify_eq/=.
Qed.

Lemma router_sink_reach r c cs : router_inv r → r_sinks r !! c = Some cs → conn_reach cs.
Proof. intros Hi Hs. destruct (view_ok_weak _ (ri_views _ Hi c)) as [[Hn|(cs' & Hs' & Hr)] _]; simpl in *; by simplify_eq. Qed.

(** *** What a move of the server adds *)

(** An event leaves the calls on a sink alone, and no connection comes back. *)
Definition sink_grows (o o' : option ConnSystem) : Prop :=
  match o, o' with
  | Some cs, Some cs' =>
      accepted cs' = accepted cs ∧ waiting cs' = waiting cs ∧ told cs' = told cs ∧
      (n_phase (conn cs) ≠ ConnRunning → n_phase (conn cs') ≠ ConnRunning)
  | None, Some cs' => cs' = MkConnSystem conn_init [] ∅ []
  | None, None => True
  | Some _, None => False
  end.

Record router_grows (r r' : Router) : Prop := {
  rg_incoming : ∃ new, r_incoming r' = r_incoming r ++ new;
  rg_names : r_names r ⊆ r_names r';
  rg_named : ∀ c i, r_names r' !! c = Some i → r_names r !! c = Some i ∨ is_Some (r_sinks r' !! c);
  rg_sinks : ∀ c, sink_grows (r_sinks r !! c) (r_sinks r' !! c);
}.

Lemma sink_grows_refl o : sink_grows o o.
Proof. by destruct o. Qed.

Lemma sink_grows_alter (m : gmap nat ConnSystem) f c c' :
  (∀ cs, sink_grows (Some cs) (Some (f cs))) → sink_grows (m !! c') (alter f c m !! c').
Proof.
  intros Hf. destruct (decide (c' = c)) as [->|Hne]; [|rewrite lookup_alter_ne by done; apply sink_grows_refl].
  rewrite lookup_alter_eq. destruct (m !! c); simpl; [apply Hf | done].
Qed.

Lemma sink_grows_abort cs : sink_grows (Some cs) (Some (abort_sink cs)).
Proof. simpl. split_and!; try done. unfold abort_conn, conn_close. destruct (n_phase (conn cs)) eqn:E; simpl; rewrite ?E; naive_solver. Qed.

Lemma sink_grows_reader cs e : sink_grows (Some cs) (Some (set_conn (unwrap_or (reader_ends e (conn cs)) (conn cs)) cs)).
Proof. simpl. split_and!; try done. unfold reader_ends. destruct (n_phase (conn cs)) eqn:E; simpl; rewrite ?E; naive_solver. Qed.

Lemma sink_grows_close cs : sink_grows (Some cs) (Some (set_conn (unwrap_or (conn_close (conn cs)) (conn cs)) cs)).
Proof. simpl. split_and!; try done. unfold conn_close. destruct (n_phase (conn cs)) eqn:E; simpl; rewrite ?E; naive_solver. Qed.

Create HintDb sinks.
#[local] Hint Resolve sink_grows_abort sink_grows_reader sink_grows_close : sinks.

Lemma sink_grows_same r r' : r_sinks r' = r_sinks r → ∀ c, sink_grows (r_sinks r !! c) (r_sinks r' !! c).
Proof. intros -> c. apply sink_grows_refl. Qed.

Lemma router_grows_same r r' : r_incoming r' = r_incoming r → r_names r' = r_names r → (∀ c, sink_grows (r_sinks r !! c) (r_sinks r' !! c)) → router_grows r r'.
Proof. intros Ei En Hs. split; [exists []; by rewrite app_nil_r | by rewrite En | rewrite En; auto | done]. Qed.

Lemma router_grows_reading c i e r : router_grows r (reading_ends c i e r).
Proof. apply router_grows_same; [done..|]. intros c'. simpl. apply sink_grows_alter. intros cs. apply sink_grows_reader. Qed.

Lemma router_grows_write c i z r r' :
  match r_sinks r !! c ≫= (λ sink, writer_step (Err z) (conn sink)) with
  | Some conn' => Some (goto c (RClosing i (Err z)) (with_sinks (alter (set_conn conn') c) r))
  | None => None
  end = Some r' → router_grows r r'.
Proof.
  destruct (r_sinks r !! c ≫= _) as [conn'|] eqn:E; [|done]. intros [= <-]. apply router_grows_same; [done..|]. intros c'. simpl.
  apply sink_grows_alter. intros cs. simpl. split_and!; try done. intros _ Hp. destruct (r_sinks r !! c) as [cs0|]; [|done]. simpl in E.
  unfold writer_step in E. destruct (n_phase (conn cs0)); [|done..]. destruct (n_queue (conn cs0)) as [|[]]; [done|]. by simplify_eq.
Qed.

Lemma router_peer_grows ev c p r r' :
  view_ok (view r c) → sv_tasks (r_server r) !! c = Some (Running p) → router_peer s ev c p r = Some r' → router_grows r r'.
Proof.
  intros Hv Ht E. unfold view, view_ok in Hv. simpl in Hv. rewrite Ht in Hv. simpl in Hv.
  assert (∀ sn f r1, router_grows (decoded_on (Some c) f sn r) r1 → router_grows r r1) as Hdec by (intros sn f r1 [? ? ? ?]; by split).
  peer_cases; try (apply router_grows_same; [done..|]; intros c'; simpl; first [apply sink_grows_refl | apply sink_grows_alter; intros cs; auto with sinks]).
  - split; simpl; [exists []; by rewrite app_nil_r | apply insert_subseteq; naive_solver|intros c' i'|intros c'].
    { destruct (decide (c' = c)) as [->|Hne]; [rewrite !lookup_insert_eq; intros _; right; by eexists | rewrite !lookup_insert_ne by done; auto]. }
    destruct (decide (c' = c)) as [->|Hne]; [|rewrite lookup_insert_ne by done; apply sink_grows_refl].
    rewrite lookup_insert_eq. assert (r_sinks r !! c = None) as -> by naive_solver. done.
  - destruct (decode s (r_seen r) frames) as [[m|[]] seen]; simplify_eq/=; apply (Hdec seen frames);
      first [apply router_grows_reading | apply router_grows_same; auto using sink_grows_same].
  - destruct (r_open r); simplify_eq/=; [|apply router_grows_reading]. split; simpl; [by eexists | done | auto | by apply sink_grows_same].
  - by eapply router_grows_write.
  - by eapply router_grows_write.
Qed.

Lemma serve_router_grows ev r r' : router_inv r → serve_router s ev r = Some r' → router_grows r r'.
Proof.
  intros Hi E. unfold serve_router in E. destruct (sv_result (r_server r)) eqn:Hres; [done|].
  assert (∀ sv, router_grows r (settle (with_server sv r))) as Hsettle.
  { intros sv. apply router_grows_same; [unfold settle; simpl; by destruct (sv_result sv)..|]. intros c. unfold settle. simpl.
    destruct (sv_result sv); [|apply sink_grows_refl]. simpl. rewrite lookup_fmap. destruct (r_sinks r !! c); [apply sink_grows_abort | done]. }
  assert (∀ c, match sv_tasks (r_server r) !! c with Some (Running p) => router_peer s ev c p r | _ => None end = Some r' → router_grows r r') as Hpeer.
  { intros c Ec. destruct (sv_tasks (r_server r) !! c) as [[p|]|] eqn:Ht; try discriminate Ec.
    exact (router_peer_grows _ _ _ _ _ (ri_views _ Hi c) Ht Ec). }
  destruct ev as [stream|c peer|c|c event|c|c e|c|c|c|c|frames|]; try (by eapply Hpeer); try (injection E as <-); [done| |apply router_grows_same; auto using sink_grows_same..].
  destruct (server_join "router" c (r_server r)) as [sv|]; [|done]. injection E as <-. done.
Qed.

(** *** Properties *)

Lemma decoded_from c reads m : m ∈ decoded c reads → ∃ frames seen seen', (Some c, frames) ∈ reads ∧ decode s seen frames = (Ok m, seen').
Proof.
  induction reads as [|[c' frames] reads IH] using rev_ind; [by intros ?%elem_of_nil|].
  rewrite decoded_snoc. intros [(f & sn & sn' & Hin & E)%IH|Hm]%elem_of_app; [exists f, sn, sn'; set_solver|].
  destruct (decode s _ frames) as [[m'|] seen'] eqn:E; simpl in Hm; [|by apply elem_of_nil in Hm].
  case_decide; [|by apply elem_of_nil in Hm]. apply list_elem_of_singleton in Hm as <-. subst c'. do 3 eexists. split; [|exact E]. set_solver.
Qed.

(** With a key, what the engine was handed came signed on the connection it names. *)
Lemma engine_input_signed r inb :
  router_inv r → key s ≠ [] → inb ∈ r_incoming r →
  ∃ sig h p md cn,
    (Some (in_reply inb), identities (in_message inb) ++ DELIMITER :: sig :: [h; p; md; cn] ++ buffers (in_message inb)) ∈ r_reads r ∧
    sig = hex_encode (mac_finalize (foldl mac_update (mac_new (key s)) [h; p; md; cn])) ∧ from_slice_map h = Ok (header (in_message inb)).
Proof.
  intros Hi Hk Hin.
  assert (in_message inb ∈ decoded (in_reply inb) (r_reads r)) as (frames & sn & sn' & Hr & E)%decoded_from.
  { destruct (view_ok_weak _ (ri_views _ Hi (in_reply inb))) as [_ (rest & _ & Hu)]. unfold undelivered in Hu. simpl in Hu. rewrite Hu.
    apply elem_of_app. left. apply list_elem_of_fmap. exists inb. split; [done|]. by apply list_elem_of_filter. }
  destruct (decode_signed_ok _ _ _ _ _ Hk E) as (sig & h & p & md & cn & -> & Hsig & _ & _ & Hh & _). eauto 10.
Qed.

(** C17: (what reaches the engine) whatever clients connect, send and
    disconnect, and however the connections interleave: what the engine receives
    of a connection is, in order, what one session decoding everything in the
    order it arrived accepts of that connection, but for at most one last message
    that was being handed on when the connection ended; it carries the
    connection's sink and the identity the client gave.  With a key, every
    message the engine receives came on that connection with the MAC of its
    parts, and the signatures accepted on all connections, and on the other
    servers that share the session, are pairwise different: nothing is
    replayed from one connection to another. *)
Theorem router_engine_input keeps_peers r :
  router_reach s keeps_peers r →
  (∀ c, ∃ rest, decoded c (r_reads r) = delivered c (r_incoming r) ++ rest ∧ length rest ≤ 1) ∧
  (∀ inb, inb ∈ r_incoming r → r_names r !! in_reply inb = Some (in_identity inb)) ∧
  (key s ≠ [] →
    NoDup (accepted_signatures (r_reads r).*2 (decode_all s ∅ (r_reads r).*2).1) ∧
    ∀ inb, inb ∈ r_incoming r → ∃ sig h p md cn,
      (Some (in_reply inb), identities (in_message inb) ++ DELIMITER :: sig :: [h; p; md; cn] ++ buffers (in_message inb)) ∈ r_reads r ∧
      sig = hex_encode (mac_finalize (foldl mac_update (mac_new (key s)) [h; p; md; cn]))).
Proof.
  intros Hi%router_reach_inv.
  assert (∀ c, ∃ rest, decoded c (r_reads r) = delivered c (r_incoming r) ++ rest ∧ length rest ≤ 1) as Hd.
  { intros c. destruct (view_ok_weak _ (ri_views _ Hi c)) as [_ (rest & Hl & Hu)]. eauto. }
  split_and!; [done|apply (ri_names _ Hi)|]. intros Hk. split; [by apply accepted_signatures_fresh|]. intros inb Hin.
  destruct (engine_input_signed r inb Hi Hk Hin) as (sig & h & p & md & cn & Hr & Hs & _). eauto 10.
Qed.

(** C18: (isolation) an event of one connection, whatever a client sends, a broken
    frame or a failed write, changes nothing of any other connection: where its
    task is, its sink, its identity and what it said and was delivered.  The
    server itself returns only when accepting fails or when a connection's task
    panicked, with that error. *)
Theorem router_isolation ev r r' :
  serve_router s ev r = Some r' →
  match sv_result (r_server r') with
  | Some e =>
      (∃ errno d, ev = EAccept (Err (errno, d)) ∧ e = from_io errno d) ∨
      (∃ c, ev = EJoin c ∧ sv_tasks (r_server r) !! c = Some (Finished None) ∧ e = from_join_error "task panicked")
  | None => ∀ c, event_conn ev ≠ Some c → c ≠ sv_spawned (r_server r) → view r' c = view r c
  end.
Proof.
  intros E. unfold serve_router in E. destruct (sv_result (r_server r)) as [e|] eqn:Hres; [done|].
  assert (∀ c, match sv_tasks (r_server r) !! c with Some (Running p) => router_peer s ev c p r | _ => None end = Some r' →
    sv_result (r_server r') = None ∧ ∀ c', Some c ≠ Some c' → view r' c' = view r c') as Hpeer.
  { intros c Ec. destruct (sv_tasks (r_server r) !! c) as [[p|]|] eqn:Ht; try discriminate Ec.
    split; [by rewrite (proj1 (router_peer_server _ _ _ _ _ Ec))|]. intros c' Hne. eapply router_peer_frame; [done|congruence]. }
  destruct ev as [[[]|[errno d]]|c peer|c|c event|c|c e|c|c|c|c|frames|]; try (destruct (Hpeer c E) as [-> Hv]; auto).
  - injection E as <-. unfold settle. simpl. rewrite !Hres. simpl. rewrite ?Hres. intros c _ Hne. unfold view. simpl. by rewrite lookup_insert_ne.
  - injection E as <-. simpl. left. eauto.
  - unfold server_join in E. destruct (sv_tasks (r_server r) !! c) as [[|res]|] eqn:Ht; try discriminate E. injection E as <-.
    destruct res as [[u|e]|]; simpl; [..|right; by eexists]; unfold settle; simpl; rewrite !Hres; simpl; rewrite ?Hres; intros c' Hne _;
      unfold view; simpl; (rewrite lookup_delete_ne; [done|congruence]).
  - injection E as <-. simpl. rewrite Hres. intros c _ _. by rewrite view_other_decoded.
  - injection E as <-. simpl. rewrite Hres. done.
Qed.

(** (connections and sinks) the sink of every connection goes through the
    protocol of [ReplySink] and its writer, and is closed once the connection's
    task is no longer running, whether it ended by itself, panicked or went with
    the server: no reply waits on it for ever.  An entry of the table of peers
    is a connection that gave that identity and has not left; only a panic, which
    ends the server, leaves an entry behind. *)
Theorem router_connections keeps_peers r :
  router_reach s keeps_peers r →
  (∀ c cs, r_sinks r !! c = Some cs → conn_reach cs ∧
     ((∀ p, sv_tasks (r_server r) !! c ≠ Some (Running p)) → n_phase (conn cs) = ConnGone)) ∧
  (∀ t i c, r_table r = Some t → t !! i = Some c →
     r_names r !! c = Some i ∧ (in_table (sv_tasks (r_server r) !! c) ∨ is_Some (sv_result (r_server r)))) ∧
  (is_Some (sv_result (r_server r)) → sv_tasks (r_server r) = ∅).
Proof.
  intros Hi%router_reach_inv. split_and!; [|apply (ri_entries _ Hi)|apply (ri_over _ Hi)]. intros c cs Hs.
  pose proof (ri_views _ Hi c) as Hv. split.
  - by eapply router_sink_reach.
  - intros Ht. unfold view, view_ok in Hv. simpl in Hv. destruct (sv_tasks (r_server r) !! c) as [[p|res]|]; [by destruct (Ht p)|..].
    all: destruct Hv as [[Hn|(cs' & Hs' & Hp & _)] _]; simpl in *; by simplify_eq.
Qed.
End RouterProofs.

(** ** Runs, and witnesses *)

Definition router_run `{WireExt} (s : Session) (evs : list RouterEvent) (r : Router) : option Router :=
  foldl (λ o ev, o ≫= serve_router s ev) (Some r) evs.

Lemma router_run_reach `{WireExt} s evs r r' : router_run s evs r = Some r' → rtc (router_step s) r r'.
Proof.
  unfold router_run. revert r'. induction evs as [|ev evs IH] using rev_ind; intros r'; simpl; [by intros [= ->]|].
  rewrite foldl_app. simpl. destruct (foldl _ _ evs) as [r1|] eqn:E; [|done]. simpl. intros E1.
  eapply rtc_r; [by apply IH|by econstructor].
Qed.

(** Two clients: the first sends a signed message, the second sends it again under
    its own identity, then leaves by a protocol error. *)
Module RouterDemo.
Definition events : list RouterEvent :=
  [EAccept (Ok tt); EHandshake 0 (Ok (Some (as_bytes "a"))); EAccept (Ok tt); EEnter 0; EHandshake 1 (Ok (Some (as_bytes "b"))); EEnter 1;
   ERecv 0 (Ok (IMessage WireDemo.frames)); EForward 0; ERecv 1 (Ok (IMessage WireDemo.frames)); ERecv 1 (Ok (IPing [])); EClose 1; ELeave 1; EJoin 1].
Definition server : Router := unwrap_or (@router_run WireDemo.ext WireDemo.session events (router_init true)) (router_init true).
Definition before : Router := unwrap_or (@router_run WireDemo.ext WireDemo.session (take 8 events) (router_init true)) (router_init true).
Definition junk : RouterEvent := ERecv 1 (Ok (IMessage [as_bytes "junk"])).
Definition after : Router := unwrap_or (@serve_router WireDemo.ext WireDemo.session junk before) before.
Lemma server_reach : @router_reach WireDemo.ext WireDemo.session true server.
Proof. apply (@router_run_reach WireDemo.ext _ events). vm_compute. reflexivity. Qed.
End RouterDemo.

Lemma router_engine_input_witness :
  in_message <$> r_incoming RouterDemo.server = [WireDemo.msg] ∧ length (r_reads RouterDemo.server) = 2 ∧
  NoDup (accepted_signatures (r_reads RouterDemo.server).*2 (@decode_all WireDemo.ext WireDemo.session ∅ (r_reads RouterDemo.server).*2).1).
Proof.
  split; [vm_compute; reflexivity|]. split; [vm_compute; reflexivity|].
  apply (@router_engine_input WireDemo.ext WireDemo.session true _ RouterDemo.server_reach). done.
Defined.

Lemma router_isolation_witness :
  @serve_router WireDemo.ext WireDemo.session RouterDemo.junk RouterDemo.before = Some RouterDemo.after ∧
  @view WireDemo.ext WireDemo.session RouterDemo.after 0 = @view WireDemo.ext WireDemo.session RouterDemo.before 0.
Proof.
  assert (@serve_router WireDemo.ext WireDemo.session RouterDemo.junk RouterDemo.before = Some RouterDemo.after) as E by (vm_compute; reflexivity).
  split; [exact E|]. pose proof (@router_isolation WireDemo.ext WireDemo.session _ _ _ E) as Hi.
  assert (sv_result (r_server RouterDemo.after) = None) as Hr by (vm_compute; reflexivity). rewrite Hr in Hi. apply Hi; vm_compute; discriminate.
Defined.

Lemma router_connections_witness : ∃ cs, r_sinks RouterDemo.server !! 1 = Some cs ∧ conn_reach cs ∧ n_phase (conn cs) = ConnGone.
Proof.
  eexists. split; [vm_compute; reflexivity|].
  destruct (@router_connections WireDemo.ext WireDemo.session true _ RouterDemo.server_reach) as [Hs _].
  destruct (Hs 1 _ ltac:(vm_compute; reflexivity)) as [Hr Hg]. split; [exact Hr|]. apply Hg. intros p E. vm_compute in E. discriminate E.
Defined.
