(* ===== verification/Stdin.v ===== *)
(** * Input from clients (src/src/engine.rs, [Stdin])

    The stdin channel as a whole: its router server, the task of [Stdin::new]
    that takes the replies, the table of pending inputs, and any number of calls
    of [Stdin::request], which run concurrently: one execution per shell may ask. *)

From Stdlib Require Import ZArith Strings.Byte.
From stdpp Require Import base gmap sets list strings pretty relations.
From S2P Require Import Prelude Json Errors Wire Language Services Transport Connections Servers.

(** ** Which input a reply completes

    The task looks the parent's id up, and else iterates over a [HashMap], in an
    order that is not specified: any pending input of the same client may be
    the one. *)
Definition reply_parent (inb : Inbound) : string := unwrap_or (mget_str (parent_header (in_message inb)) "msg_id") "".
Definition reply_value (inb : Inbound) : string := unwrap_or (get_str (content (in_message inb)) "value") "".
Definition is_input_reply (inb : Inbound) : bool := bool_decide (msg_type (in_message inb) = "input_reply").

(** An entry of the table: the client, and the call that owns the other end of
    [complete]. *)
Notation Pending := (gmap string (bytes * nat)).

Definition completes (inb : Inbound) (pending : Pending) (key : string) : Prop :=
  if pending !! reply_parent inb then key = reply_parent inb else fst <$> pending !! key = Some (in_identity inb).

(** ** A call of [Stdin::request]

    It has put its entry in the table and waits for its client to connect; has
    the client's sink; waits for the sink to send the prompt; waits for the
    reply; has left the [select!]s with a result and has its entry to remove;
    or has returned. *)
Inductive CallPhase :=
| CWaiting
| CFound (peer : nat)
| CSending (peer : nat)
| CAsked (peer : nat)
| CEnding (result : Result string)
| CDone (result : Result string).

(** [call_frames] is the prompt encoded; [call_interrupted] the interrupt's flag;
    [call_answer] what the oneshot holds, with the place in the channel of the
    message it came in.  History: [call_peer] is the connection whose channel
    took the prompt. *)
Record Call := MkCall {
  call_id : string;
  call_identity : bytes;
  call_frames : Result (list bytes);
  call_interrupted : bool;
  call_answer : option (nat * string);
  call_phase : CallPhase;
  call_peer : option nat;
}.

Definition call_goto (p : CallPhase) (c : Call) : Call :=
  MkCall (call_id c) (call_identity c) (call_frames c) (call_interrupted c) (call_answer c) p (call_peer c).
Definition call_sending (k : nat) (c : Call) : Call :=
  MkCall (call_id c) (call_identity c) (call_frames c) (call_interrupted c) (call_answer c) (CSending k) (Some k).
Definition call_interrupt (c : Call) : Call :=
  MkCall (call_id c) (call_identity c) (call_frames c) true (call_answer c) (call_phase c) (call_peer c).
Definition call_complete (j : nat) (value : string) (c : Call) : Call :=
  MkCall (call_id c) (call_identity c) (call_frames c) (call_interrupted c) (Some (j, value)) (call_phase c) (call_peer c).

(** What a poll of the call finds: the interrupt, the end of the connection, or
    neither, so that the innermost future goes on.  An interrupt that comes
    right after the flag was read is found by the next poll. *)
Inductive Poll := PInterrupted | PPeerClosed | PGoOn.

(** The call drops its [send]. *)
Definition drop_send (i k : nat) : Router → Router :=
  with_sinks (alter (λ cs, MkConnSystem (conn cs) (accepted cs) (waiting cs ∖ {[i]}) (told cs)) k).

(** [peer.send(..)], its first poll. *)
Definition submit (i k : nat) (frames : list bytes) (cs : ConnSystem) (c : Call) (r : Router) : Call * Router :=
  match sink_submit i frames (conn cs) with
  | (Some (Ok _), _) => (call_goto (CAsked k) c, r)
  | (Some (Err e), _) => (call_goto (CEnding (Err e)) c, with_sinks (insert k (MkConnSystem (conn cs) (accepted cs) (waiting cs) (told cs ++ [(i, Err e)]))) r)
  | (None, conn') => (call_sending k c, with_sinks (insert k (MkConnSystem conn' (accepted cs ++ [(i, frames)]) ({[i]} ∪ waiting cs) (told cs))) r)
  end.

(** [peer.send(..)] is over with [sent]. *)
Definition sent (i k : nat) (res : Result unit) (cs : ConnSystem) (c : Call) (r : Router) : Call * Router :=
  (call_goto (match res with Ok _ => CAsked k | Err e => CEnding (Err e) end) c,
   with_sinks (insert k (MkConnSystem (conn cs) (accepted cs) (waiting cs ∖ {[i]}) (told cs ++ [(i, res)]))) r).

(** One move of call [i] up to the end of its [select!]s: [None] if it cannot make
    that move. *)
Definition request_poll (i : nat) (ev : Poll) (c : Call) (r : Router) : option (Call * Router) :=
  match ev, call_phase c with
  | PInterrupted, (CWaiting | CFound _ | CAsked _) =>
      if call_interrupted c then Some (call_goto (CEnding (Err error_interrupted)) c, r) else None
  | PInterrupted, CSending k =>
      if call_interrupted c then Some (call_goto (CEnding (Err error_interrupted)) c, drop_send i k r) else None
  | PPeerClosed, (CFound k | CAsked k) =>
      cs ← r_sinks r !! k; e ← n_closed (conn cs); Some (call_goto (CEnding (Err (error_context e "waiting for stdin"))) c, r)
  | PPeerClosed, CSending k =>
      cs ← r_sinks r !! k; e ← n_closed (conn cs); Some (call_goto (CEnding (Err (error_context e "waiting for stdin"))) c, drop_send i k r)
  | PGoOn, CWaiting => t ← r_table r; k ← t !! call_identity c; Some (call_goto (CFound k) c, r)
  | PGoOn, CFound k =>
      match call_frames c with
      | Ok frames => cs ← r_sinks r !! k; Some (submit i k frames cs c r)
      | Err e => Some (call_goto (CEnding (Err e)) c, r)
      end
  | PGoOn, CSending k => cs ← r_sinks r !! k; res ← sink_poll i (conn cs); Some (sent i k res cs c r)
  | PGoOn, CAsked k => '(_, value) ← call_answer c; Some (call_goto (CEnding (Ok value)) c, r)
  | _, _ => None
  end.

(** ** The stdin channel

    [st_taken] counts the messages of the router that the task took, and
    [st_ended] is the task's result: it ends when the router is gone and it has
    taken everything. *)
Record StdinSystem := MkStdin {
  st_router : Router;
  st_taken : nat;
  st_ended : option Error;
  st_pending : Pending;
  st_calls : list Call;
}.

Definition stdin_init : StdinSystem := MkStdin (router_init true) 0 None ∅ [].

Section Stdin.
Context `{WireExt} (s : Session).

(** [Stdin::request] up to its [select!]: the prompt is made and goes in the table. *)
Definition request_message (n : nat) (parent : Message) (prompt : string) (password : bool) : Message :=
  session_message s n "input_request" (Obj [("prompt", Str prompt); ("password", Bool password)]) (Some parent).

Definition request_start (m : Message) (identity : bytes) (st : StdinSystem) : StdinSystem :=
  let frames := match encode s m with Ok frames => Ok frames | Err e => Err (error_from_wire e) end in
  MkStdin (st_router st) (st_taken st) (st_ended st) (<[msg_id m := (identity, length (st_calls st))]> (st_pending st))
    (st_calls st ++ [MkCall (msg_id m) identity frames false None CWaiting None]).

(** The last lines of [Stdin::request]. *)
Definition request_finish (i : nat) (c : Call) (st : StdinSystem) : option StdinSystem :=
  match call_phase c with
  | CEnding result =>
      Some (MkStdin (st_router st) (st_taken st) (st_ended st) (delete (call_id c) (st_pending st))
              (<[i := call_goto (CDone result) c]> (st_calls st)))
  | _ => None
  end.

(** The task takes a message, which completes the input [key]. *)
Definition reply_taken (key : option string) (inb : Inbound) (st : StdinSystem) : StdinSystem :=
  match key ≫= λ key, (λ entry, (key, entry.2)) <$> st_pending st !! key with
  | Some (key, i) =>
      MkStdin (st_router st) (S (st_taken st)) (st_ended st) (delete key (st_pending st))
        (alter (call_complete (st_taken st) (reply_value inb)) i (st_calls st))
  | None => MkStdin (st_router st) (S (st_taken st)) (st_ended st) (st_pending st) (st_calls st)
  end.

Inductive stdin_step : StdinSystem → StdinSystem → Prop :=
(** The server and its connections. *)
| st_event ev r r' n d p cs : serve_router s ev r = Some r' → stdin_step (MkStdin r n d p cs) (MkStdin r' n d p cs)
| st_write r k cs conn' n d p calls :
    r_sinks r !! k = Some cs → writer_step (Ok tt) (conn cs) = Some conn' →
    stdin_step (MkStdin r n d p calls) (MkStdin (with_sinks (insert k (set_conn conn' cs)) r) n d p calls)
(** The task that takes the replies. *)
| st_reply st inb key :
    st_ended st = None → r_incoming (st_router st) !! st_taken st = Some inb → is_input_reply inb = true →
    completes inb (st_pending st) key → stdin_step st (reply_taken (Some key) inb st)
| st_ignore st inb :
    st_ended st = None → r_incoming (st_router st) !! st_taken st = Some inb →
    is_input_reply inb = false ∨ (∀ key, ¬ completes inb (st_pending st) key) → stdin_step st (reply_taken None inb st)
| st_end r n p calls :
    is_Some (sv_result (r_server r)) → n = length (r_incoming r) →
    stdin_step (MkStdin r n None p calls) (MkStdin r n (Some (error_closed "stdin router")) p calls)
(** The calls; message ids are UUIDs, so a new one is none of the earlier. *)
| st_start st n parent prompt password identity :
    msg_id (request_message n parent prompt password) ∉ call_id <$> st_calls st →
    stdin_step st (request_start (request_message n parent prompt password) identity st)
| st_interrupt r n d p calls i :
    stdin_step (MkStdin r n d p calls) (MkStdin r n d p (alter call_interrupt i calls))
| st_poll r n d p calls i c ev c' r' :
    calls !! i = Some c → request_poll i ev c r = Some (c', r') → stdin_step (MkStdin r n d p calls) (MkStdin r' n d p (<[i := c']> calls))
| st_finish st i c st' : st_calls st !! i = Some c → request_finish i c st = Some st' → stdin_step st st'.

Definition stdin_reach (st : StdinSystem) : Prop := rtc stdin_step stdin_init st.
End Stdin.

(** ** What relates the calls to the connections *)

Definition call_done (c : Call) : bool := match call_phase c with CDone _ => true | _ => false end.
(** The call has reached its [send]. *)
Definition submitted (c : Call) : bool := match call_phase c with CWaiting | CFound _ => false | _ => true end.

(** A call goes on: what it was made with stays, what happened to it too. *)
Record call_more (c c' : Call) : Prop := {
  cm_id : call_id c' = call_id c;
  cm_identity : call_identity c' = call_identity c;
  cm_frames : call_frames c' = call_frames c;
  cm_interrupted : call_interrupted c = true → call_interrupted c' = true;
  cm_peer : is_Some (call_peer c) → call_peer c' = call_peer c;
  cm_submitted : submitted c = true → submitted c' = true;
}.

(** The connections go on, as far as call [j] can tell. *)
Definition sink_more (j : nat) (cs cs' : ConnSystem) : Prop :=
  (∀ f, (j, f) ∈ accepted cs → (j, f) ∈ accepted cs') ∧ (j ∈ waiting cs → j ∈ waiting cs') ∧
  (∀ res, (j, res) ∈ told cs → (j, res) ∈ told cs') ∧ (n_phase (conn cs) ≠ ConnRunning → n_phase (conn cs') ≠ ConnRunning).

Record router_more (j : nat) (r r' : Router) : Prop := {
  rm_names : r_names r ⊆ r_names r';
  rm_sinks : ∀ k cs, r_sinks r !! k = Some cs → ∃ cs', r_sinks r' !! k = Some cs' ∧ sink_more j cs cs';
}.

(** Connection [k] is one of the call's client. *)
Definition peer_of (r : Router) (c : Call) (k : nat) (cs : ConnSystem) : Prop :=
  r_sinks r !! k = Some cs ∧ r_names r !! k = Some (call_identity c).

(** Why a call may fail: it was interrupted, its prompt could not be encoded, or
    the connection it asked on is over. *)
Definition failed (r : Router) (c : Call) (e : Error) : Prop :=
  (call_interrupted c = true ∧ e = error_interrupted) ∨ call_frames c = Err e ∨
  ∃ k cs, peer_of r c k cs ∧ n_phase (conn cs) ≠ ConnRunning.

(** The call's prompt was sent, on a connection of its client. *)
Definition prompted (r : Router) (i : nat) (c : Call) : Prop :=
  ∃ k cs, call_peer c = Some k ∧ peer_of r c k cs ∧ (i, Ok tt) ∈ told cs.

Definition result_ok (r : Router) (i : nat) (c : Call) (result : Result string) : Prop :=
  match result with
  | Ok value => prompted r i c ∧ snd <$> call_answer c = Some value
  | Err e => failed r c e
  end.

Definition call_ok (r : Router) (i : nat) (c : Call) : Prop :=
  match call_phase c with
  | CWaiting => call_peer c = None
  | CFound k => call_peer c = None ∧ ∃ cs, peer_of r c k cs
  | CSending k => call_peer c = Some k ∧ ∃ cs, peer_of r c k cs ∧ i ∈ waiting cs ∧ i ∈ (accepted cs).*1
  | CAsked k => call_peer c = Some k ∧ ∃ cs, peer_of r c k cs ∧ (i, Ok tt) ∈ told cs
  | CEnding result | CDone result => result_ok r i c result
  end.

(** What a connection was handed are prompts of its client, each by the one call
    that asked there. *)
Definition sink_ok (calls : list Call) (names : gmap nat bytes) (k : nat) (cs : ConnSystem) : Prop :=
  (∀ i f, (i, f) ∈ accepted cs → ∃ c, calls !! i = Some c ∧ call_peer c = Some k ∧ call_frames c = Ok f ∧ names !! k = Some (call_identity c)) ∧
  (∀ i, i ∈ (told cs).*1 → ∃ c, calls !! i = Some c ∧ submitted c = true).

Lemma call_more_refl c : call_more c c.
Proof. by split. Qed.

Lemma sink_more_refl j cs : sink_more j cs cs.
Proof. by split_and!. Qed.

Lemma router_more_refl j r : router_more j r r.
Proof. split; [done|]. eauto using sink_more_refl. Qed.

Lemma router_grows_more j r r' : router_grows r r' → router_more j r r'.
Proof.
  intros [_ Hn _ Hs]. split; [done|]. intros k cs Hk. specialize (Hs k). rewrite Hk in Hs. destruct (r_sinks r' !! k) as [cs'|]; [|done].
  destruct Hs as (Ha & Hw & Ht & Hp). exists cs'. split; [done|]. unfold sink_more. rewrite Ha, Hw, Ht. done.
Qed.

Lemma router_more_insert j r k cs cs' :
  r_sinks r !! k = Some cs → sink_more j cs cs' → router_more j r (with_sinks (insert k cs') r).
Proof.
  intros Hk Hm. split; [done|]. intros k' cs0 Hk'. simpl. destruct (decide (k' = k)) as [->|Hne].
  - rewrite lookup_insert_eq. simplify_eq. eauto.
  - rewrite lookup_insert_ne by done. eauto using sink_more_refl.
Qed.

Lemma peer_of_more j r r' c c' k cs :
  router_more j r r' → call_identity c' = call_identity c → peer_of r c k cs → ∃ cs', peer_of r' c' k cs' ∧ sink_more j cs cs'.
Proof.
  intros [Hn Hs] Ei [Hk Hi]. destruct (Hs _ _ Hk) as (cs' & Hk' & Hm). exists cs'. split; [|done]. split; [done|].
  rewrite Ei. by eapply lookup_weaken.
Qed.

Lemma failed_more j r r' c c' e : router_more j r r' → call_more c c' → failed r c e → failed r' c' e.
Proof.
  intros Hr [Hid Hi Hf Hint _ _] [[Hc ->]|[Hc|(k & cs & Hp & Hph)]]; unfold failed; [auto | rewrite Hf; auto|].
  destruct (peer_of_more _ _ _ _ c' _ _ Hr Hi Hp) as (cs' & Hp' & _ & _ & _ & Hm). eauto 10.
Qed.

Lemma prompted_more r r' i c c' : router_more i r r' → call_more c c' → prompted r i c → prompted r' i c'.
Proof.
  intros Hr [_ Hi _ _ Hpeer _] (k & cs & Hk & Hp & Ht). destruct (peer_of_more _ _ _ _ c' _ _ Hr Hi Hp) as (cs' & Hp' & _ & _ & Hm & _).
  exists k, cs'. split_and!; [|done|auto]. rewrite Hpeer; [done|by eexists].
Qed.

(** A call keeps its invariant while the others go on. *)
Lemma call_ok_more r r' i c : router_more i r r' → call_ok r i c → call_ok r' i c.
Proof.
  intros Hr. unfold call_ok, result_ok.
  pose proof (λ k cs, peer_of_more _ _ _ _ c k cs Hr eq_refl) as Hp.
  pose proof (λ e, failed_more _ _ _ _ _ e Hr (call_more_refl c)) as Hf.
  pose proof (prompted_more _ _ _ _ _ Hr (call_more_refl c)) as Hpr.
  destruct (call_phase c) as [|k|k|k|[v|e]|[v|e]]; [done|..]; try (by auto); try (intros []; by auto).
  - intros (Hn & cs & (cs' & ? & _)%Hp). eauto.
  - intros (Hn & cs & (cs' & ? & Ha & Hw & _)%Hp & Hwait & ([i' f] & -> & Hin)%list_elem_of_fmap). split; [done|]. exists cs'.
    split_and!; [done|auto|]. apply list_elem_of_fmap. exists (i', f). auto.
  - intros (Hn & cs & (cs' & ? & _ & _ & Ht & _)%Hp & Hin). eauto 6.
Qed.

Lemma sink_ok_more calls calls' names names' k cs :
  (∀ i c, calls !! i = Some c → ∃ c', calls' !! i = Some c' ∧ call_more c c') → names ⊆ names' →
  sink_ok calls names k cs → sink_ok calls' names' k cs.
Proof.
  intros Hc Hn [Ha Ht]. split.
  - intros i f (c & Hi & Hp & Hf & Hk)%Ha. destruct (Hc _ _ Hi) as (c' & Hi' & [Hid Hid' Hfr _ Hpeer _]). exists c'.
    split_and!; [done| | |].
    + rewrite Hpeer; [done|by eexists].
    + by rewrite Hfr.
    + rewrite Hid'. by eapply lookup_weaken.
  - intros i (c & Hi & Hs)%Ht. destruct (Hc _ _ Hi) as (c' & Hi' & []). eauto.
Qed.

Lemma calls_more_insert (calls : list Call) i c c' :
  calls !! i = Some c → call_more c c' → ∀ j cj, calls !! j = Some cj → ∃ cj', <[i := c']> calls !! j = Some cj' ∧ call_more cj cj'.
Proof.
  intros Hi Hm j cj Hj. destruct (decide (j = i)) as [->|Hne].
  - rewrite list_lookup_insert_eq by (by eapply lookup_lt_Some). simplify_eq. eauto.
  - rewrite list_lookup_insert_ne by done. eauto using call_more_refl.
Qed.

(** ** The moves of a call *)

Definition sinks_ok (calls : list Call) (r : Router) : Prop := ∀ k cs, r_sinks r !! k = Some cs → sink_ok calls (r_names r) k cs.

Lemma unsent_fresh calls r i c k cs :
  sinks_ok calls r → calls !! i = Some c → call_ok r i c → submitted c = false → r_sinks r !! k = Some cs →
  i ∉ (accepted cs).*1 ∧ i ∉ (told cs).*1.
Proof.
  intros Hs Hi Hc Hsub Hk. destruct (Hs _ _ Hk) as [Ha Ht]. split.
  - intros ([i' f] & -> & (c' & Hi' & Hp & _)%Ha)%list_elem_of_fmap. simpl in *. simplify_eq.
    unfold call_ok, submitted in *. destruct (call_phase c); naive_solver.
  - intros (c' & Hi' & Hs')%Ht. simplify_eq. congruence.
Qed.

(** A move of call [i] on a sink: only its own request and its own result are new. *)
Lemma sinks_ok_move calls r i c c' k cs cs' :
  sinks_ok calls r → r_sinks r !! k = Some cs → calls !! i = Some c → call_more c c' → submitted c' = true →
  (∀ j f, (j, f) ∈ accepted cs' → (j, f) ∈ accepted cs ∨ j = i ∧ call_peer c' = Some k ∧ call_frames c' = Ok f ∧ r_names r !! k = Some (call_identity c')) →
  (∀ j, j ∈ (told cs').*1 → j ∈ (told cs).*1 ∨ j = i) →
  sinks_ok (<[i := c']> calls) (with_sinks (insert k cs') r).
Proof.
  intros Hs Hk Hi Hm Hsub Ha Ht. pose proof (calls_more_insert _ _ _ _ Hi Hm) as Hcm.
  assert (∀ k0 cs0, r_sinks r !! k0 = Some cs0 → sink_ok (<[i:=c']> calls) (r_names r) k0 cs0) as Hold.
  { intros k0 cs0 Hk0. eapply sink_ok_more; [exact Hcm|done|by apply Hs]. }
  intros k0 cs0. simpl. destruct (decide (k0 = k)) as [->|Hne]; [|rewrite lookup_insert_ne by done; apply Hold].
  rewrite lookup_insert_eq. intros [= <-]. destruct (Hold _ _ Hk) as [Hoa Hot].
  pose proof (list_lookup_insert_eq calls i c' (lookup_lt_Some _ _ _ Hi)) as Hi'. split.
  - intros j f [?|(-> & ? & ? & ?)]%Ha; eauto 10.
  - intros j [?| ->]%Ht; eauto.
Qed.

Lemma sinks_ok_same calls calls' r :
  (∀ i c, calls !! i = Some c → ∃ c', calls' !! i = Some c' ∧ call_more c c') → sinks_ok calls r → sinks_ok calls' r.
Proof. intros Hc Hs k cs Hk. eapply sink_ok_more; [done..|by apply Hs]. Qed.

Lemma drop_send_insert i k r cs :
  r_sinks r !! k = Some cs →
  drop_send i k r = with_sinks (insert k (MkConnSystem (conn cs) (accepted cs) (waiting cs ∖ {[i]}) (told cs))) r.
Proof.
  intros Hk. unfold drop_send, with_sinks. f_equal. apply map_eq. intros k'. destruct (decide (k' = k)) as [->|Hne].
  - by rewrite lookup_alter_eq, lookup_insert_eq, Hk.
  - by rewrite lookup_alter_ne, lookup_insert_ne.
Qed.

Section StdinProofs.
Context `{WireExt} (s : Session).

(** What a move of call [i] must come to. *)
Record poll_ok (calls : list Call) (r : Router) (i : nat) (c c' : Call) (r' : Router) : Prop := {
  po_router : router_inv s r';
  po_same : r_incoming r' = r_incoming r ∧ r_names r' = r_names r ∧ dom (r_sinks r') = dom (r_sinks r);
  po_more : call_more c c';
  po_answer : call_answer c' = call_answer c;
  po_open : call_done c' = false;
  po_call : call_ok r' i c';
  po_others : ∀ j, j ≠ i → router_more j r r';
  po_sinks : sinks_ok (<[i := c']> calls) r';
}.

(** A move that leaves the connections alone. *)
Lemma poll_ok_still calls r i c p :
  router_inv s r → sinks_ok calls r → calls !! i = Some c → (submitted c = true → submitted (call_goto p c) = true) →
  call_done (call_goto p c) = false → call_ok r i (call_goto p c) → poll_ok calls r i c (call_goto p c) r.
Proof.
  intros Hr Hs Hi Hsub Hd Hc. assert (call_more c (call_goto p c)) as Hm by (by split).
  split; try done; [intros; apply router_more_refl|]. eapply sinks_ok_same; [|exact Hs]. by eapply calls_more_insert.
Qed.

(** A move on the sink of connection [k]. *)
Lemma poll_ok_sink calls r i c c' k cs cs' :
  router_inv s r → sinks_ok calls r → calls !! i = Some c → r_sinks r !! k = Some cs →
  conn_step cs cs' → n_phase (conn cs') = n_phase (conn cs) →
  call_more c c' → call_answer c' = call_answer c → call_done c' = false → submitted c' = true →
  (∀ j f, (j, f) ∈ accepted cs' → (j, f) ∈ accepted cs ∨ j = i ∧ call_peer c' = Some k ∧ call_frames c' = Ok f ∧ r_names r !! k = Some (call_identity c')) →
  (∀ j, j ∈ (told cs').*1 → j ∈ (told cs).*1 ∨ j = i) → (∀ j, j ≠ i → sink_more j cs cs') →
  call_ok (with_sinks (insert k cs') r) i c' → poll_ok calls r i c c' (with_sinks (insert k cs') r).
Proof.
  intros Hr Hs Hi Hk Hstep Hp Hm Han Hd Hsub Ha Ht Hmore Hc. split; try done.
  - eapply router_step_inv; [|exact Hr]. by eapply rs_sink.
  - split_and!; [done..|]. simpl. apply dom_insert_lookup_L. by eexists.
  - intros j Hj. eapply router_more_insert; eauto.
  - by eapply sinks_ok_move.
Qed.

Ltac phase_of c := unfold call_ok, submitted in *; destruct (call_phase c) eqn:?; simplify_eq/=.

(** The call drops its [send] and ends. *)
Lemma poll_ok_drop calls r i c k e :
  router_inv s r → sinks_ok calls r → calls !! i = Some c → call_phase c = CSending k → call_ok r i c → failed r c e →
  poll_ok calls r i c (call_goto (CEnding (Err e)) c) (drop_send i k r).
Proof.
  intros Hr Hs Hi Hph Hc Hf. unfold call_ok in Hc. rewrite Hph in Hc. destruct Hc as (Hpeer & cs & [Hk Hn] & Hw & Ha).
  rewrite (drop_send_insert _ _ _ _ Hk).
  assert (∀ j, j ≠ i → sink_more j cs (MkConnSystem (conn cs) (accepted cs) (waiting cs ∖ {[i]}) (told cs))) as Hm.
  { intros j Hj. split_and!; simpl; [done|set_solver|done|done]. }
  eapply poll_ok_sink; try done; simpl; auto.
  - destruct cs. by apply cs_cancel.
  - eapply (failed_more (S i)); [|by split|exact Hf]. eapply router_more_insert; [done|apply Hm; lia].
Qed.

Lemma poll_ok_submit calls r i c k cs frames c' r' :
  router_inv s r → sinks_ok calls r → calls !! i = Some c → call_phase c = CFound k → call_ok r i c → call_frames c = Ok frames →
  r_sinks r !! k = Some cs → submit i k frames cs c r = (c', r') → poll_ok calls r i c c' r'.
Proof.
  intros Hr Hs Hi Hph Hc Hfr Hk E. pose proof (router_sink_reach _ _ _ _ Hr Hk) as Hreach.
  destruct (unsent_fresh _ _ _ _ _ _ Hs Hi Hc ltac:(unfold submitted; by rewrite Hph) Hk) as [Ha Ht].
  unfold call_ok in Hc. rewrite Hph in Hc. destruct Hc as (Hpeer & cs0 & [Hk0 Hn]). rewrite Hk in Hk0. injection Hk0 as <-.
  unfold submit in E. destruct (sink_submit i frames (conn cs)) as [[[[]|e]|] conn'] eqn:Es.
  - unfold sink_submit in Es. repeat case_match; simplify_eq.
  - destruct (submit_refused_over _ _ _ _ _ Hreach Es) as [Hover ->]. injection E as <- <-. eapply poll_ok_sink; try done; simpl; auto.
    + destruct cs. by eapply cs_refused.
    + intros j. rewrite fmap_app. intros [?|?%list_elem_of_singleton]%elem_of_app; auto.
    + intros j Hj. split_and!; simpl; [done..|set_solver|done].
    + right. right. eexists k, _. split; [split; simpl; [apply lookup_insert_eq|done]|done].
  - assert (conn' = MkConn ConnRunning (n_queue (conn cs) ++ [(i, frames)]) (n_written (conn cs)) (n_complete (conn cs)) None ∧ n_phase (conn cs) = ConnRunning)
      as [-> Hrun] by (unfold sink_submit in Es; repeat case_match; by simplify_eq).
    injection E as <- <-. eapply poll_ok_sink; try done; simpl; auto.
    + destruct cs. by apply cs_submit.
    + split; try done. intros []; congruence.
    + intros j f [?|[= -> ->]%list_elem_of_singleton]%elem_of_app; auto.
    + intros j Hj. split_and!; simpl; [set_solver|set_solver|done|congruence].
    + split; [done|]. eexists. split_and!; [split; simpl; [apply lookup_insert_eq|done]|set_solver|]. simpl. rewrite fmap_app. set_solver.
Qed.

Lemma poll_ok_sent calls r i c k cs res c' r' :
  router_inv s r → sinks_ok calls r → calls !! i = Some c → call_phase c = CSending k → call_ok r i c →
  r_sinks r !! k = Some cs → sink_poll i (conn cs) = Some res → sent i k res cs c r = (c', r') → poll_ok calls r i c c' r'.
Proof.
  intros Hr Hs Hi Hph Hc Hk Hpoll E. pose proof (router_sink_reach _ _ _ _ Hr Hk) as Hreach.
  unfold call_ok in Hc. rewrite Hph in Hc. destruct Hc as (Hpeer & cs0 & [Hk0 Hn] & Hw & Ha). rewrite Hk in Hk0. injection Hk0 as <-.
  injection E as <- <-. eapply poll_ok_sink; try done; simpl; auto.
  - destruct cs. by apply cs_poll.
  - by destruct res.
  - by destruct res.
  - by destruct res.
  - intros j. rewrite fmap_app. intros [?|?%list_elem_of_singleton]%elem_of_app; auto.
  - intros j Hj. split_and!; simpl; [done|set_solver|set_solver|done].
  - destruct res as [[]|e]; simpl.
    + split; [done|]. eexists. split; [split; simpl; [apply lookup_insert_eq|done]|]. simpl. apply elem_of_app. right. by left.
    + right. right. eexists k, _. split; [split; simpl; [apply lookup_insert_eq|done]|]. exact (poll_failed_over _ _ _ Hreach Hpoll).
Qed.

Lemma request_poll_ok calls r i c ev c' r' :
  router_inv s r → (∀ k n, r_names r !! k = Some n → is_Some (r_sinks r !! k)) → sinks_ok calls r →
  calls !! i = Some c → call_ok r i c → request_poll i ev c r = Some (c', r') → poll_ok calls r i c c' r'.
Proof.
  intros Hr Hnamed Hs Hi Hc E.
  assert (∀ k cs e, r_sinks r !! k = Some cs → r_names r !! k = Some (call_identity c) → n_closed (conn cs) = Some e →
    failed r c (error_context e "waiting for stdin")) as Hover.
  { intros k cs e Hk Hn He. right. right. exists k, cs. split; [done|]. eapply closed_over; [by eapply router_sink_reach|done]. }
  assert (∀ e, submitted (call_goto (CEnding (Err e)) c) = true → failed r c e → poll_ok calls r i c (call_goto (CEnding (Err e)) c) r) as Hstill.
  { intros e Hsub Hf. by apply poll_ok_still. }
  unfold request_poll in E. destruct ev, (call_phase c) as [|k|k|k|res|res] eqn:Hph; try discriminate E.
  all: repeat match type of E with (if ?b then _ else _) = _ => destruct b eqn:Hint; [|discriminate E] end.
  all: repeat match type of E with (?o ≫= _) = Some _ => let x := fresh "x" in let Hx := fresh "Hx" in apply bind_Some in E as (x & Hx & E) end.
  all: try (injection E as <- <-).
  all: try (by apply Hstill; [|left]).
  all: try (by eapply poll_ok_drop; [..|left]).
  - apply Hstill; [done|]. unfold call_ok in Hc. rewrite Hph in Hc. destruct Hc as (_ & cs0 & [? ?]). simplify_eq. by eapply Hover.
  - eapply poll_ok_drop; try done. unfold call_ok in Hc. rewrite Hph in Hc. destruct Hc as (_ & cs0 & [? ?] & _). simplify_eq. by eapply Hover.
  - apply Hstill; [done|]. unfold call_ok in Hc. rewrite Hph in Hc. destruct Hc as (_ & cs0 & [? ?] & _). simplify_eq. by eapply Hover.
  - apply poll_ok_still; try done; unfold call_ok in *; rewrite Hph in Hc; simpl; [unfold submitted; by rewrite Hph|]. split; [done|].
    destruct (ri_entries _ _ Hr _ _ _ Hx Hx0) as [Hn _]. destruct (Hnamed _ _ Hn) as [cs Hcs]. exists cs. by split.
  - destruct (call_frames c) as [frames|e] eqn:Hf; [|injection E as <- <-; apply Hstill; [done|]; right; by left].
    apply bind_Some in E as (cs & Hcs & E). injection E as E. by eapply poll_ok_submit.
  - by eapply poll_ok_sent.
  - destruct x as [j v]. injection E as <- <-. apply poll_ok_still; try done. unfold call_ok in *. rewrite Hph in Hc. simpl. destruct Hc as (Hp & cs & Hk & Ht).
    split; [by exists k, cs|]. by rewrite Hx.
Qed.

(** *** The table of pending inputs *)

(** What the table has to do with a call. *)
Record Entry := MkEntry { e_id : string; e_identity : bytes; e_answer : option (nat * string); e_done : bool }.
Definition call_entry (c : Call) : Entry := MkEntry (call_id c) (call_identity c) (call_answer c) (call_done c).

(** A reply may complete the input of a call: it names it, or comes from the
    client that was asked. *)
Definition replies_to (inb : Inbound) (id : string) (identity : bytes) (value : string) : Prop :=
  is_input_reply inb = true ∧ reply_value inb = value ∧ (reply_parent inb = id ∨ in_identity inb = identity).

Record table_ok (incoming : list Inbound) (taken : nat) (pending : Pending) (es : list Entry) : Prop := {
  to_ids : NoDup (e_id <$> es);
  to_pending : ∀ id identity i, pending !! id = Some (identity, i) →
    ∃ e, es !! i = Some e ∧ e_id e = id ∧ e_identity e = identity ∧ e_answer e = None ∧ e_done e = false;
  to_open : ∀ i e, es !! i = Some e → e_answer e = None → e_done e = false → pending !! e_id e = Some (e_identity e, i);
  to_answers : ∀ i e j v, es !! i = Some e → e_answer e = Some (j, v) →
    j < taken ∧ ∃ inb, incoming !! j = Some inb ∧ replies_to inb (e_id e) (e_identity e) v;
  to_once : ∀ i i' e e' j v v', es !! i = Some e → es !! i' = Some e' → e_answer e = Some (j, v) → e_answer e' = Some (j, v') → i = i';
}.

Lemma table_ids pending incoming taken es i i' e e' :
  table_ok incoming taken pending es → es !! i = Some e → es !! i' = Some e' → e_id e = e_id e' → i = i'.
Proof.
  intros Ht Hi Hi' E. apply (NoDup_lookup (e_id <$> es) i i' (e_id e)); [apply Ht|..]; rewrite list_lookup_fmap; [by rewrite Hi|by rewrite Hi', E].
Qed.

Lemma table_grows incoming new taken pending es : table_ok incoming taken pending es → table_ok (incoming ++ new) taken pending es.
Proof.
  intros [H1 H2 H3 H4 H5]. split; try done. intros i e j v Hi Ha. destruct (H4 _ _ _ _ Hi Ha) as (Hj & inb & Hinb & Hr).
  split; [done|]. exists inb. split; [by apply lookup_app_l_Some|done].
Qed.

Lemma table_taken incoming taken pending es : table_ok incoming taken pending es → table_ok incoming (S taken) pending es.
Proof. intros [H1 H2 H3 H4 H5]. split; try done. intros i e j v Hi Ha. destruct (H4 _ _ _ _ Hi Ha) as (Hj & ?). split; [lia|done]. Qed.

(** [Stdin::request] enters its prompt. *)
Lemma table_start incoming taken pending es id identity :
  id ∉ e_id <$> es → table_ok incoming taken pending es →
  table_ok incoming taken (<[id := (identity, length es)]> pending) (es ++ [MkEntry id identity None false]).
Proof.
  intros Hid [H1 H2 H3 H4 H5]. set (new := MkEntry id identity None false).
  assert (∀ i e, (es ++ [new]) !! i = Some e → es !! i = Some e ∨ i = length es ∧ e = new) as Hcase.
  { intros i e [Hi|[Hl Hi]]%lookup_app_Some; [by left|]. right. apply list_lookup_singleton_Some in Hi as [? <-]. split; [lia|done]. }
  split.
  - rewrite fmap_app. apply NoDup_app. split_and!; [done| |apply NoDup_singleton]. intros x Hx ->%list_elem_of_singleton. done.
  - intros id' identity' i. destruct (decide (id' = id)) as [->|Hne].
    + rewrite lookup_insert_eq. intros [= <- <-]. exists new. split; [by apply list_lookup_middle|done].
    + rewrite lookup_insert_ne by done. intros (e & Hi & He)%H2. exists e. split; [by apply lookup_app_l_Some|done].
  - intros i e [Hi|[-> ->]]%Hcase Ha Hd; simpl; [|apply lookup_insert_eq]. rewrite lookup_insert_ne; [by apply H3|]. intros ->.
    apply Hid. apply list_elem_of_fmap. exists e. split; [done|]. by eapply list_elem_of_lookup_2.
  - intros i e j v [Hi|[-> ->]]%Hcase Ha; [by eapply H4|done].
  - intros i i' e e' j v v' [Hi|[-> ->]]%Hcase [Hi'|[-> ->]]%Hcase Ha Ha'; try done. by eapply H5.
Qed.

(** An entry leaves the table: with an answer, or because the call is over. *)
Lemma table_leave incoming taken taken' pending es i e e' :
  table_ok incoming taken pending es → taken ≤ taken' → es !! i = Some e → e_id e' = e_id e → e_identity e' = e_identity e →
  (e_answer e' = None → e_done e' = true) →
  (e_answer e' = e_answer e ∨
   ∃ v inb, e_answer e' = Some (taken, v) ∧ taken < taken' ∧ incoming !! taken = Some inb ∧ replies_to inb (e_id e) (e_identity e) v) →
  table_ok incoming taken' (delete (e_id e) pending) (<[i := e']> es).
Proof.
  intros Ht Hle Hi Eid Eident Hend Hans. pose proof Ht as [H1 H2 H3 H4 H5]. pose proof (lookup_lt_Some _ _ _ Hi) as Hl.
  assert (∀ k ek, <[i := e']> es !! k = Some ek → k = i ∧ ek = e' ∨ k ≠ i ∧ es !! k = Some ek) as Hcase.
  { intros k ek Hk. destruct (decide (k = i)) as [->|Hne]; [rewrite list_lookup_insert_eq in Hk by done|rewrite list_lookup_insert_ne in Hk by done]; naive_solver. }
  split.
  - rewrite list_fmap_insert. rewrite list_insert_id; [done|]. by rewrite list_lookup_fmap, Hi, Eid.
  - intros id identity k [Hne Hk]%lookup_delete_Some. destruct (H2 _ _ _ Hk) as (ek & Hek & <- & He). exists ek. split; [|done].
    rewrite list_lookup_insert_ne; [done|]. intros ->. by simplify_eq.
  - intros k ek [[-> ->]|[Hne Hk]]%Hcase Ha Hd; [by rewrite Hend in Hd|]. rewrite lookup_delete_ne; [by apply H3|].
    intros E. by apply Hne; symmetry; eapply table_ids.
  - intros k ek j v [[-> ->]|[Hne Hk]]%Hcase Ha.
    + rewrite Eid, Eident. destruct Hans as [Ea|(v' & inb & Ea & Hlt & Hinb & Hr)].
      * rewrite Ea in Ha. destruct (H4 _ _ _ _ Hi Ha). split; [lia|done].
      * rewrite Ea in Ha. injection Ha as <- <-. eauto.
    + destruct (H4 _ _ _ _ Hk Ha). split; [lia|done].
  - assert (∀ k ek j v v', k ≠ i → es !! k = Some ek → e_answer ek = Some (j, v) → e_answer e' = Some (j, v') → False) as Hself.
    { intros k ek j v v' Hne Hk Ha Ha'. destruct Hans as [Ea|(w & inb & Ea & _)]; rewrite Ea in Ha'; [by apply Hne; eapply H5|].
      injection Ha' as <- _. destruct (H4 _ _ _ _ Hk Ha). lia. }
    intros k k' ek ek' j v v' [[-> ->]|[Hne Hk]]%Hcase [[-> ->]|[Hne' Hk']]%Hcase Ha Ha'; [done|by destruct (Hself k' ek' j v' v)|by destruct (Hself k ek j v v')|by eapply H5].
Qed.

(** *** The invariant *)

Record stdin_inv (st : StdinSystem) : Prop := {
  si_router : router_inv s (st_router st);
  si_named : ∀ k n, r_names (st_router st) !! k = Some n → is_Some (r_sinks (st_router st) !! k);
  si_sinks : sinks_ok (st_calls st) (st_router st);
  si_calls : ∀ i c, st_calls st !! i = Some c → call_ok (st_router st) i c;
  si_table : table_ok (r_incoming (st_router st)) (st_taken st) (st_pending st) (call_entry <$> st_calls st);
}.

Lemma stdin_inv_event ev r r' n d p calls :
  serve_router s ev r = Some r' → stdin_inv (MkStdin r n d p calls) → stdin_inv (MkStdin r' n d p calls).
Proof.
  intros E [H1 H2 H3 H4 H5]. simpl in *. pose proof (serve_router_grows _ _ _ _ H1 E) as Hg. split; simpl.
  - eapply router_step_inv; [by eapply rs_event|done].
  - intros k i Hk. destruct (rg_named _ _ Hg _ _ Hk) as [[cs Hcs]%H2|]; [|done].
    destruct (rm_sinks 0 _ _ (router_grows_more 0 _ _ Hg) _ _ Hcs) as (cs' & -> & _). by eexists.
  - intros k cs' Hk. pose proof (rg_sinks _ _ Hg k) as Hs. rewrite Hk in Hs. destruct (r_sinks r !! k) as [cs|] eqn:Hcs.
    + destruct Hs as (Ha & _ & Ht & _). unfold sink_ok. rewrite Ha, Ht.
      eapply sink_ok_more; [|apply (rg_names _ _ Hg)|by apply H3]. eauto using call_more_refl.
    + rewrite Hs. split; intros ?; [intros ? ?%elem_of_nil|intros ?%elem_of_nil]; done.
  - intros i c Hi. eapply call_ok_more; [by apply router_grows_more|auto].
  - destruct (rg_incoming _ _ Hg) as [new ->]. by apply table_grows.
Qed.

Lemma stdin_inv_write r k cs conn' n d p calls :
  r_sinks r !! k = Some cs → writer_step (Ok tt) (conn cs) = Some conn' →
  stdin_inv (MkStdin r n d p calls) → stdin_inv (MkStdin (with_sinks (insert k (set_conn conn' cs)) r) n d p calls).
Proof.
  intros Hk E [H1 H2 H3 H4 H5]. simpl in *.
  assert (n_phase conn' = n_phase (conn cs)) as Hp by (unfold writer_step in E; repeat case_match; by simplify_eq/=).
  split; simpl.
  - eapply router_step_inv; [|exact H1]. eapply rs_sink; [exact Hk| |done]. destruct cs. by eapply cs_write.
  - intros k' i Hk'. destruct (decide (k' = k)) as [->|Hne]; [rewrite lookup_insert_eq; by eexists|rewrite lookup_insert_ne by done; eauto].
  - intros k' cs'. simpl. destruct (decide (k' = k)) as [->|Hne]; [|rewrite lookup_insert_ne by done; apply H3].
    rewrite lookup_insert_eq. intros [= <-]. apply (H3 _ _ Hk).
  - intros i c Hi. eapply call_ok_more; [|by apply H4]. eapply router_more_insert; [done|]. split_and!; simpl; [done..|congruence].
  - done.
Qed.

(** A call changes, and with it the table. *)
Lemma stdin_inv_call r n d p calls i c c' n' d' p' :
  calls !! i = Some c → call_more c c' → call_ok r i c' → stdin_inv (MkStdin r n d p calls) →
  table_ok (r_incoming r) n' p' (<[i := call_entry c']> (call_entry <$> calls)) →
  stdin_inv (MkStdin r n' d' p' (<[i := c']> calls)).
Proof.
  intros Hi Hm Hok [H1 H2 H3 H4 H5] Ht. simpl in *. split; simpl; try done.
  - eapply sinks_ok_same; [|exact H3]. by eapply calls_more_insert.
  - intros j cj Hj. destruct (decide (j = i)) as [->|Hne]; [|rewrite list_lookup_insert_ne in Hj by done; auto].
    rewrite list_lookup_insert_eq in Hj by (by eapply lookup_lt_Some). by simplify_eq.
  - by rewrite list_fmap_insert.
Qed.

Lemma list_alter_insert {A} (f : A → A) (l : list A) i x : l !! i = Some x → alter f i l = <[i := f x]> l.
Proof.
  intros Hi. apply list_eq. intros j. destruct (decide (j = i)) as [->|Hne].
  - by rewrite list_lookup_alter_eq, list_lookup_insert_eq, Hi by (by eapply lookup_lt_Some).
  - by rewrite list_lookup_alter_ne, list_lookup_insert_ne.
Qed.

Lemma stdin_inv_interrupt r n d p calls i :
  stdin_inv (MkStdin r n d p calls) → stdin_inv (MkStdin r n d p (alter call_interrupt i calls)).
Proof.
  intros Hinv. destruct (calls !! i) as [c|] eqn:Hi.
  - rewrite (list_alter_insert _ _ _ _ Hi). assert (call_more c (call_interrupt c)) as Hm by (by split).
    eapply stdin_inv_call; [done..| |done|].
    + pose proof (si_calls _ Hinv _ _ Hi) as Hc. simpl in Hc. unfold call_ok, result_ok in *. simpl.
      destruct (call_phase c) as [|k|k|k|[v|e]|[v|e]]; try done; by eapply (failed_more 0); [apply router_more_refl|..].
    + rewrite list_insert_id; [apply Hinv|]. by rewrite list_lookup_fmap, Hi.
  - assert (alter call_interrupt i calls = calls) as ->; [|done]. apply list_eq. intros j. destruct (decide (j = i)) as [->|Hne].
    + by rewrite list_lookup_alter_eq, Hi.
    + by rewrite list_lookup_alter_ne.
Qed.

Lemma stdin_inv_poll r n d p calls i c ev c' r' :
  calls !! i = Some c → request_poll i ev c r = Some (c', r') →
  stdin_inv (MkStdin r n d p calls) → stdin_inv (MkStdin r' n d p (<[i := c']> calls)).
Proof.
  intros Hi E [H1 H2 H3 H4 H5]. simpl in *. pose proof (H4 _ _ Hi) as Hok.
  destruct (request_poll_ok _ _ _ _ _ _ _ H1 H2 H3 Hi Hok E) as [Hr (Einc & En & Ed) [Eid Eident _ _ _ _] Ea Hd Hok' Hothers Hs].
  assert (call_done c = false) as Hd0 by (unfold request_poll, call_done in *; destruct ev, (call_phase c); done).
  split; simpl; [done| |done| |].
  - intros k m. rewrite En. intros Hk%H2. apply elem_of_dom. rewrite Ed. by apply elem_of_dom.
  - intros j cj Hj. destruct (decide (j = i)) as [->|Hne].
    + rewrite list_lookup_insert_eq in Hj by (by eapply lookup_lt_Some). by simplify_eq.
    + rewrite list_lookup_insert_ne in Hj by done. eapply call_ok_more; eauto.
  - rewrite list_fmap_insert, Einc. rewrite list_insert_id; [done|]. rewrite list_lookup_fmap, Hi. simpl. unfold call_entry. congruence.
Qed.

Lemma stdin_inv_finish st i c st' :
  st_calls st !! i = Some c → request_finish i c st = Some st' → stdin_inv st → stdin_inv st'.
Proof.
  intros Hi E Hinv. unfold request_finish in E. destruct (call_phase c) as [|k|k|k|res|res] eqn:Hph; simplify_eq/=.
  pose proof (si_calls _ Hinv _ _ Hi) as Hc. unfold call_ok in Hc. rewrite Hph in Hc. destruct st as [r n d p calls]. simpl in *.
  assert (call_more c (call_goto (CDone res) c)) as Hm by (by split). eapply stdin_inv_call; [done..| |done|].
  - unfold call_ok. simpl. done.
  - eapply (table_leave _ _ _ _ _ _ (call_entry c)); [apply Hinv|done|by rewrite list_lookup_fmap, Hi|done..|by left].
Qed.

Lemma stdin_inv_start st m identity : msg_id m ∉ call_id <$> st_calls st → stdin_inv st → stdin_inv (request_start s m identity st).
Proof.
  intros Hid [H1 H2 H3 H4 H5]. split; simpl; [done|done| | |].
  - eapply sinks_ok_same; [|exact H3]. intros i c Hi. exists c. split; [by apply lookup_app_l_Some|apply call_more_refl].
  - intros i c [Hi|[_ [_ <-]%list_lookup_singleton_Some]]%lookup_app_Some; [auto|done].
  - rewrite fmap_app. simpl. erewrite <- (length_fmap call_entry (st_calls st)). apply table_start; [|done].
    by rewrite <- list_fmap_compose.
Qed.

Lemma completes_pending inb pending key : completes inb pending key → ∃ identity i, pending !! key = Some (identity, i) ∧ (reply_parent inb = key ∨ in_identity inb = identity).
Proof.
  unfold completes. destruct (pending !! reply_parent inb) as [[identity i]|] eqn:E; [intros ->; eauto|].
  destruct (pending !! key) as [[identity i]|]; simpl; [|done]. intros [= ->]. eauto.
Qed.

Lemma stdin_inv_reply st inb key :
  r_incoming (st_router st) !! st_taken st = Some inb → is_input_reply inb = true → completes inb (st_pending st) key →
  stdin_inv st → stdin_inv (reply_taken (Some key) inb st).
Proof.
  intros Hin Hrep (identity & i & Hkey & Hwho)%completes_pending Hinv. unfold reply_taken. simpl. rewrite Hkey. simpl.
  destruct (to_pending _ _ _ _ (si_table _ Hinv) _ _ _ Hkey) as (e & He & Eid & Eident & Eans & Edone).
  rewrite list_lookup_fmap in He. destruct (st_calls st !! i) as [c|] eqn:Hi; [|done]. simpl in He. injection He as <-. simpl in *. subst key identity.
  rewrite (list_alter_insert _ _ _ _ Hi). destruct st as [r n d p calls]. simpl in *.
  eapply stdin_inv_call; [done|by split| |done|].
  - pose proof (si_calls _ Hinv _ _ Hi) as Hc. simpl in Hc. unfold call_ok, result_ok in *. simpl.
    destruct (call_phase c) as [|k|k|k|[v|e]|[v|e]]; try done; destruct Hc as [? Hv]; by rewrite Eans in Hv.
  - eapply (table_leave _ n _ _ _ _ (call_entry c)); [apply Hinv|lia|by rewrite list_lookup_fmap, Hi|done..|].
    right. exists (reply_value inb), inb. by split_and!; [|lia|..].
Qed.

Lemma stdin_reach_inv st : stdin_reach s st → stdin_inv st.
Proof.
  apply (rtc_invariant (stdin_step s) stdin_inv).
  - split; simpl; try done; [apply (router_reach_inv s true), rtc_refl|]. split; try done. constructor.
  - intros st1 st2 Hs Hinv. destruct Hs as [ev r r' n d p cs E|r k cs conn' n d p calls Hk E|sa inb key _ Hin Hrep Hkey|sa inb _ Hin _
      |r n p calls _ _|sa n parent prompt password identity Hid|r n d p calls i|r n d p calls i c ev c' r' Hi E|sa i c sb Hi E].
    + by eapply stdin_inv_event.
    + by eapply stdin_inv_write.
    + by apply stdin_inv_reply.
    + destruct Hinv as [H1 H2 H3 H4 H5]. split; try done. by apply table_taken.
    + destruct Hinv as [H1 H2 H3 H4 H5]. by split.
    + by apply stdin_inv_start.
    + by apply stdin_inv_interrupt.
    + by eapply stdin_inv_poll.
    + by eapply stdin_inv_finish.
Qed.

(** *** Properties *)

(** A call that returned has no entry left. *)
Lemma done_not_pending st i c : stdin_inv st → st_calls st !! i = Some c → call_done c = true → st_pending st !! call_id c = None.
Proof.
  intros Hinv Hi Hd. destruct (st_pending st !! call_id c) as [[identity i']|] eqn:E; [|done]. exfalso.
  destruct (to_pending _ _ _ _ (si_table _ Hinv) _ _ _ E) as (e & He & Eid & _ & _ & Ed).
  assert ((call_entry <$> st_calls st) !! i = Some (call_entry c)) as Hc by (by rewrite list_lookup_fmap, Hi).
  pose proof (table_ids _ _ _ _ _ _ _ _ (si_table _ Hinv) He Hc Eid) as ->. simplify_eq. unfold call_entry in Ed. simpl in Ed. congruence.
Qed.

Lemma prompted_written st i c : stdin_inv st → prompted (st_router st) i c →
  ∃ k cs, call_peer c = Some k ∧ peer_of (st_router st) c k cs ∧ was_written i cs.
Proof.
  intros Hinv (k & cs & Hk & [Hs Hn] & Ht). exists k, cs. split_and!; [done|done|].
  apply (ci_told _ (conn_reach_inv _ (router_sink_reach _ _ _ _ (si_router _ Hinv) Hs))), Ht.
Qed.

(** C19: (answers) whatever clients connect, send and disconnect, however many
    executions ask for input at once, and whenever they are interrupted: a call of
    [Stdin::request] that returned a value had written its prompt to a connection
    of its client, and the value is that of a message of type [input_reply] the
    task has taken, which names the prompt as its parent or comes from the same
    client; no message answers two calls.  A call fails only if it was
    interrupted, its prompt could not be encoded, or a connection of its client is
    over.  A call that returned has left nothing in the table of pending inputs,
    and each entry of the table belongs to a call still waiting for an answer. *)
Theorem stdin_answers st :
  stdin_reach s st →
  (∀ i c, st_calls st !! i = Some c → call_done c = true → st_pending st !! call_id c = None) ∧
  (∀ id identity i, st_pending st !! id = Some (identity, i) →
     ∃ c, st_calls st !! i = Some c ∧ call_id c = id ∧ call_identity c = identity ∧ call_answer c = None ∧ call_done c = false) ∧
  (∀ i c v, st_calls st !! i = Some c → call_phase c = CDone (Ok v) →
     (∃ k cs, call_peer c = Some k ∧ peer_of (st_router st) c k cs ∧ was_written i cs) ∧
     ∃ j inb, call_answer c = Some (j, v) ∧ j < st_taken st ∧ r_incoming (st_router st) !! j = Some inb ∧
       replies_to inb (call_id c) (call_identity c) v) ∧
  (∀ i c e, st_calls st !! i = Some c → call_phase c = CDone (Err e) → failed (st_router st) c e) ∧
  (∀ i i' c c' j v v', st_calls st !! i = Some c → st_calls st !! i' = Some c' →
     call_answer c = Some (j, v) → call_answer c' = Some (j, v') → i = i').
Proof.
  intros Hinv%stdin_reach_inv. pose proof (si_table _ Hinv) as Ht.
  assert (∀ i c, st_calls st !! i = Some c → (call_entry <$> st_calls st) !! i = Some (call_entry c)) as He.
  { intros i c Hi. by rewrite list_lookup_fmap, Hi. }
  split_and!.
  - intros i c. by apply done_not_pending.
  - intros id identity i Hp. destruct (to_pending _ _ _ _ Ht _ _ _ Hp) as (e & Hi & He').
    apply list_lookup_fmap_Some in Hi as (c & -> & Hi). by exists c.
  - intros i c v Hi Hph. pose proof (si_calls _ Hinv _ _ Hi) as Hc. unfold call_ok in Hc. rewrite Hph in Hc. destruct Hc as [Hp Ha].
    split; [by apply prompted_written|]. destruct (call_answer c) as [[j v']|] eqn:Ea; [|done]. injection Ha as ->.
    destruct (to_answers _ _ _ _ Ht _ _ j v (He _ _ Hi) Ea) as (Hj & inb & Hinb & Hr). by exists j, inb.
  - intros i c e Hi Hph. pose proof (si_calls _ Hinv _ _ Hi) as Hc. unfold call_ok in Hc. by rewrite Hph in Hc.
  - intros i i' c c' j v v' Hi Hi' Ha Ha'. by eapply (to_once _ _ _ _ Ht _ _ _ _ j v v' (He _ _ Hi) (He _ _ Hi')).
Qed.

(** The ways a call can end are those of [Services.stdin_request]; the one in which
    the sender of the reply is dropped does not happen. *)
Lemma stdin_call_outcome st i c r frames :
  stdin_reach s st → st_calls st !! i = Some c → call_phase c = CDone r → call_frames c = Ok frames →
  ∃ ends, input_result ends = r ∧ ends ≠ InputDropped ∧ (is_ok r = true → prompt_sent ends = true ∧ prompted (st_router st) i c).
Proof.
  intros Hinv%stdin_reach_inv Hi Hph Hf. pose proof (si_calls _ Hinv _ _ Hi) as Hc. unfold call_ok in Hc. rewrite Hph in Hc.
  destruct r as [v|e]; [by exists (InputReplied v); destruct Hc|]. by exists (InputSendFailed e).
Qed.

(** (prompts) what a connection of the stdin channel is sent are prompts, each
    of one call that asked the client of that connection; no call asks twice,
    on one connection or on two. *)
Theorem stdin_prompts st k cs :
  stdin_reach s st → r_sinks (st_router st) !! k = Some cs →
  NoDup (accepted cs).*1 ∧ n_written (conn cs) `prefix_of` (accepted cs).*2 ∧
  ∀ i f, (i, f) ∈ accepted cs →
    ∃ c, st_calls st !! i = Some c ∧ call_peer c = Some k ∧ call_frames c = Ok f ∧ r_names (st_router st) !! k = Some (call_identity c).
Proof.
  intros Hinv%stdin_reach_inv Hk. pose proof (conn_reach_inv _ (router_sink_reach _ _ _ _ (si_router _ Hinv) Hk)) as Hc.
  split_and!; [apply Hc| |apply (si_sinks _ Hinv _ _ Hk)].
  destruct (ci_done _ Hc) as (taken & rest & -> & -> & _). rewrite fmap_app. by eexists.
Qed.

(** *** Every call comes to its end *)

Inductive call_step (i : nat) : StdinSystem → StdinSystem → Prop :=
| ca_poll r n d p calls c ev c' r' :
    calls !! i = Some c → request_poll i ev c r = Some (c', r') → call_step i (MkStdin r n d p calls) (MkStdin r' n d p (<[i := c']> calls))
| ca_finish st c st' : st_calls st !! i = Some c → request_finish i c st = Some st' → call_step i st st'.

Definition call_rank (c : Call) : nat :=
  match call_phase c with CWaiting => 5 | CFound _ => 4 | CSending _ => 3 | CAsked _ => 2 | CEnding _ => 1 | CDone _ => 0 end.

(** What a call may wait for: its client to connect; the connection's writer; or
    the reply, for which the table has its entry and the connection is not
    closed. *)
Definition call_waits (st : StdinSystem) (i : nat) (c : Call) : Prop :=
  match call_phase c with
  | CWaiting => r_table (st_router st) ≫= lookup (call_identity c) = None
  | CSending k => ∃ cs, peer_of (st_router st) c k cs ∧ n_phase (conn cs) = ConnRunning ∧ i ∈ (n_queue (conn cs)).*1
  | CAsked k =>
      (∃ cs, peer_of (st_router st) c k cs ∧ n_closed (conn cs) = None) ∧ st_pending st !! call_id c = Some (call_identity c, i)
  | _ => False
  end.

Lemma call_step_rank i st st' c :
  call_step i st st' → st_calls st !! i = Some c → ∃ c', st_calls st' !! i = Some c' ∧ call_rank c' < call_rank c.
Proof.
  destruct 1 as [r n d p calls c0 ev c' r' Hi E|st c0 st' Hi E]; simpl; intros Hi'; rewrite Hi in Hi'; injection Hi' as ->; pose proof (lookup_lt_Some _ _ _ Hi).
  - exists c'. rewrite list_lookup_insert_eq by done. split; [done|]. unfold request_poll, call_rank, submit, sent in *.
    destruct ev, (call_phase c); try discriminate E; repeat (case_match || (apply bind_Some in E as (? & ? & E))); simplify_eq/=; lia.
  - unfold request_finish, call_rank in *. destruct (call_phase c); simplify_eq/=. rewrite list_lookup_insert_eq by done. eexists. split; [done|]. simpl. lia.
Qed.

Lemma call_can_poll st i c ev : st_calls st !! i = Some c → is_Some (request_poll i ev c (st_router st)) → ∃ st', call_step i st st'.
Proof. destruct st as [r n d p calls]. intros Hi [[c' r'] E]. eexists. by eapply ca_poll. Qed.

(** A sending call whose request the writer reported, or whose connection is over,
    goes on. *)
Lemma sending_waits st i k cs :
  stdin_inv st → r_sinks (st_router st) !! k = Some cs → i ∈ (accepted cs).*1 → sink_poll i (conn cs) = None →
  n_phase (conn cs) = ConnRunning ∧ i ∈ (n_queue (conn cs)).*1.
Proof.
  intros Hinv Hk Ha Hp. pose proof (router_sink_reach _ _ _ _ (si_router _ Hinv) Hk) as Hr. unfold sink_poll in Hp.
  destruct (n_closed (conn cs)); [done|]. destruct (n_complete (conn cs) !! i) eqn:Ec; [done|]. destruct (n_phase (conn cs)) eqn:Eph; try done.
  split; [done|]. destruct (proj1 (conn_reach_reports _ Hr Eph) _ Ha); [done|congruence].
Qed.

(** C20: (input calls end) every move of a call brings it nearer to its end: it
    makes at most five.  A call that has not returned can move, unless it was not
    interrupted and its client is not connected, or its prompt is in the channel
    of a running connection, or its prompt was sent, its entry is in the table for
    a reply to find and the connection is not closed.  So an interrupt, and the
    end of the connection it asked on, end every call. *)
Theorem stdin_calls_end st i c :
  stdin_reach s st → st_calls st !! i = Some c →
  (∀ st', call_step i st st' → ∃ c', st_calls st' !! i = Some c' ∧ call_rank c' < call_rank c) ∧
  (call_done c = true ∨ (∃ st', call_step i st st') ∨ (call_interrupted c = false ∧ call_waits st i c)).
Proof.
  intros Hinv%stdin_reach_inv Hi. split; [intros st' Hs; by eapply call_step_rank|].
  destruct (call_done c) eqn:Hd; [by left|]. right. pose proof (si_calls _ Hinv _ _ Hi) as Hc.
  destruct (call_interrupted c) eqn:Hint.
  { left. unfold call_done in Hd. destruct (call_phase c) as [|k|k|k|res|res] eqn:Hph; [..|done].
    all: try (eapply (call_can_poll _ _ _ PInterrupted); [done|]; unfold request_poll; rewrite Hph, Hint; by eexists).
    eexists. eapply ca_finish; [done|]. unfold request_finish. by rewrite Hph. }
  unfold call_ok, call_waits, call_done in *. destruct (call_phase c) as [|k|k|k|res|res] eqn:Hph; [..|done].
  - destruct (r_table (st_router st) ≫= lookup (call_identity c)) as [k|] eqn:Et; [|by right]. left.
    apply (call_can_poll _ _ _ PGoOn Hi). unfold request_poll. rewrite Hph. apply bind_Some in Et as (t & -> & Ek). simpl. rewrite Ek. by eexists.
  - destruct Hc as (_ & cs & Hk & _). left. apply (call_can_poll _ _ _ PGoOn Hi). unfold request_poll. rewrite Hph.
    destruct (call_frames c); [|by eexists]. rewrite Hk. by eexists.
  - destruct Hc as (_ & cs & Hk & _ & Ha). destruct (sink_poll i (conn cs)) as [res|] eqn:Es.
    + left. apply (call_can_poll _ _ _ PGoOn Hi). unfold request_poll. rewrite Hph, (proj1 Hk). simpl. rewrite Es. by eexists.
    + right. split; [done|]. exists cs. split; [done|]. by eapply sending_waits; [|apply Hk|..].
  - destruct Hc as (_ & cs & Hk & _). destruct (call_answer c) as [[j v]|] eqn:Ea.
    { left. apply (call_can_poll _ _ _ PGoOn Hi). unfold request_poll. rewrite Hph, Ea. by eexists. }
    destruct (n_closed (conn cs)) as [e|] eqn:Ecl.
    { left. apply (call_can_poll _ _ _ PPeerClosed Hi). unfold request_poll. rewrite Hph, (proj1 Hk). simpl. rewrite Ecl. by eexists. }
    right. split; [done|]. split; [by eexists|]. apply (to_open _ _ _ _ (si_table _ Hinv) i (call_entry c)); [by rewrite list_lookup_fmap, Hi|done|].
    simpl. unfold call_done. by rewrite Hph.
  - left. eexists. eapply ca_finish; [done|]. unfold request_finish. by rewrite Hph.
Qed.
End StdinProofs.

(** ** Runs

    The moves as a function; the iteration over the [HashMap] is the one of
    [input_key]. *)
Inductive StdinMove :=
| MEvent (ev : RouterEvent)
| MWrite (k : nat)
| MReply
| MStart (n : nat) (parent : Message) (prompt : string) (identity : bytes)
| MInterrupt (i : nat)
| MPoll (i : nat) (ev : Poll)
| MFinish (i : nat).

Section Runs.
Context `{WireExt} (s : Session).

Definition stdin_exec (mv : StdinMove) (st : StdinSystem) : option StdinSystem :=
  let '(MkStdin r n d p calls) := st in
  match mv with
  | MEvent ev => (λ r', MkStdin r' n d p calls) <$> serve_router s ev r
  | MWrite k =>
      cs ← r_sinks r !! k; conn' ← writer_step (Ok tt) (conn cs); Some (MkStdin (with_sinks (insert k (set_conn conn' cs)) r) n d p calls)
  | MReply =>
      match d, r_incoming r !! n with
      | None, Some inb => Some (reply_taken (if is_input_reply inb then input_key inb (fst <$> p) else None) inb st)
      | _, _ => None
      end
  | MStart k parent prompt identity =>
      let m := request_message s k parent prompt false in
      if decide (msg_id m ∉ call_id <$> calls) then Some (request_start s m identity st) else None
  | MInterrupt i => Some (MkStdin r n d p (alter call_interrupt i calls))
  | MPoll i ev => c ← calls !! i; '(c', r') ← request_poll i ev c r; Some (MkStdin r' n d p (<[i := c']> calls))
  | MFinish i => c ← calls !! i; request_finish i c st
  end.

(** The table of the task's code agrees with the choice the task may make. *)
Lemma input_key_completes inb pending :
  match input_key inb (fst <$> pending) with
  | Some key => completes inb pending key
  | None => ∀ key, ¬ completes inb pending key
  end.
Proof.
  unfold input_key, completes. cbv zeta. fold (reply_parent inb). rewrite lookup_fmap.
  destruct (pending !! reply_parent inb) as [[identity i]|] eqn:E; (case_decide as Hp; simpl in Hp); [done|by destruct Hp|by destruct Hp|].
  destruct (List.find _ _) as [[key identity]|] eqn:Ef; simpl.
  - apply find_some in Ef as [Hin Hb%bool_decide_eq_true]. simpl in Hb. subst identity.
    apply list_elem_of_In, elem_of_map_to_list in Hin. by rewrite lookup_fmap in Hin.
  - intros key Hk. pose proof (find_none _ _ Ef (key, in_identity inb)) as Hf. simpl in Hf. rewrite bool_decide_true in Hf by done.
    assert ((fst <$> pending) !! key = Some (in_identity inb)) as Hin by by rewrite lookup_fmap.
    apply elem_of_map_to_list, list_elem_of_In in Hin. by specialize (Hf Hin).
Qed.

Lemma stdin_exec_sound mv st st' : stdin_exec mv st = Some st' → stdin_step s st st'.
Proof.
  destruct st as [r n d p calls], mv as [ev|k| |k parent prompt identity|i|i ev|i]; unfold stdin_exec; intros E.
  - apply fmap_Some in E as (r' & E & ->). by eapply st_event.
  - apply bind_Some in E as (cs & Hk & E). apply bind_Some in E as (conn' & Hw & E). injection E as <-. by eapply st_write.
  - destruct d; [done|]. destruct (r_incoming r !! n) as [inb|] eqn:Hin; [|done]. injection E as <-.
    pose proof (input_key_completes inb p) as Hk. destruct (is_input_reply inb) eqn:Hr; [|apply st_ignore; auto].
    destruct (input_key inb (fst <$> p)) as [key|]; [by apply st_reply|apply st_ignore; auto].
  - case_decide; [|done]. injection E as <-. by apply st_start.
  - injection E as <-. apply st_interrupt.
  - apply bind_Some in E as (c & Hi & E). apply bind_Some in E as ([c' r'] & Hp & E). injection E as <-. by eapply st_poll.
  - apply bind_Some in E as (c & Hi & E). by eapply st_finish.
Qed.

Definition stdin_run (mvs : list StdinMove) (st : StdinSystem) : option StdinSystem := foldl (λ o mv, o ≫= stdin_exec mv) (Some st) mvs.

Lemma stdin_run_reach mvs st : stdin_run mvs stdin_init = Some st → stdin_reach s st.
Proof.
  unfold stdin_run. revert st. induction mvs as [|mv mvs IH] using rev_ind; intros st; simpl; [by intros [= <-]; apply rtc_refl|].
  rewrite foldl_app. simpl. destruct (foldl _ _ mvs) as [st1|]; [|done]. simpl. intros E.
  eapply rtc_r; [by apply IH|by eapply stdin_exec_sound].
Qed.
End Runs.

(** A client, two executions that ask it, and replies. *)
Module StdinDemo.
Definition reply (parent value : string) : Message :=
  MkMessage [] [("msg_id", Str ("r-" +:+ parent)); ("msg_type", Str "input_reply")] [("msg_id", Str parent)] [] (Obj [("value", Str value)]) [].

Definition values : list Value :=
  [Obj []] ++ concat (map (λ m, [Obj (header m); Obj (parent_header m); content m]) [reply "uuid-0" "first"; reply "uuid-1" "second"; reply "uuid-3" ""]).
Definition parse (bs : bytes) : result string Value :=
  match list_find (λ v, as_bytes (WireDemo.print v) = bs) values with Some (_, v) => Ok v | None => Err "unknown" end.

Definition ext : WireExt := {|
  mac_state := N; mac_new k := WireDemo.lenN k; mac_update n part := (n + WireDemo.lenN part)%N;
  mac_finalize n := [unwrap_or (Byte.of_N (n mod 256)) x00]; hex_encode := id;
  to_vec_map m := Ok (as_bytes (WireDemo.print (Obj m))); to_vec v := Ok (as_bytes (WireDemo.print v));
  from_slice_map bs := (v ← parse bs; ok_or "not a map" (as_object v)); from_slice := parse;
  uuid_v4 n := "uuid-" +:+ pretty n; rfc3339_now n := "t" +:+ pretty n;
|}.
Definition session : Session := MkSession [] "s" "kernel".
Definition frames (m : Message) : list bytes := match @encode ext session m with Ok f => f | Err _ => [] end.

Definition client : bytes := as_bytes "a".
(** Call [i] asks [identity], which is connected as [k]; client [k] says [m]. *)
Definition asks (i k : nat) (identity : bytes) (prompt : string) : list StdinMove :=
  [MStart i WireDemo.msg prompt identity; MPoll i PGoOn; MPoll i PGoOn; MWrite k; MPoll i PGoOn].
Definition tells (k : nat) (m : Message) : list StdinMove :=
  [MEvent (ERecv k (Ok (IMessage (frames m)))); MEvent (EForward k); MReply].
Definition arrives (k : nat) (identity : bytes) : list StdinMove :=
  [MEvent (EAccept (Ok tt)); MEvent (EHandshake k (Ok (Some identity))); MEvent (EEnter k)].

Definition ask (i : nat) : list StdinMove := asks i 0 client "Name: ".
Definition says (m : Message) : list StdinMove := tells 0 m.
Definition client_connects : list StdinMove := arrives 0 client.

(** Both ask, the second is answered first. *)
Definition two_prompts : list StdinMove :=
  client_connects ++ ask 0 ++ ask 1 ++ says (reply "uuid-1" "second") ++ says (reply "uuid-0" "first") ++
  [MPoll 0 PGoOn; MFinish 0; MPoll 1 PGoOn; MFinish 1].
(** The first is interrupted, and its reply comes while the second is pending. *)
Definition late_reply : list StdinMove :=
  client_connects ++ ask 0 ++ [MInterrupt 0; MPoll 0 PInterrupted; MFinish 0] ++ ask 1 ++ says (reply "uuid-0" "first") ++ [MPoll 1 PGoOn; MFinish 1].

(** The crate's own test: input from a client that never comes, interrupted; then
    one call each that is interrupted, loses its client, and is answered with
    the empty string. *)
Definition never_comes : list StdinMove := [MStart 0 WireDemo.msg "" (as_bytes "missing"); MInterrupt 0; MPoll 0 PInterrupted; MFinish 0].
Definition scenario (k : nat) (name : string) : list StdinMove :=
  let i := S k in
  arrives k (as_bytes name) ++ asks i k (as_bytes name) "prompt" ++
  (if decide (name = "interrupt") then [MInterrupt i; MPoll i PInterrupted]
   else if decide (name = "disconnect") then [MEvent (ERecv k (Err (ZmtpClosed, "closed"))); MEvent (EClose k); MPoll i PPeerClosed]
   else tells k (reply "uuid-3" "") ++ [MPoll i PGoOn]) ++ [MFinish i].
Definition test_pending_input_lifetime : list (list StdinMove) := [never_comes; scenario 0 "interrupt"; scenario 1 "disconnect"; scenario 2 "reply"].

Definition outcome (c : Call) : option (ErrorKind + string) :=
  match call_phase c with CDone (Ok v) => Some (inr v) | CDone (Err e) => Some (inl (error_kind e)) | _ => None end.

Definition run (mvs : list StdinMove) : StdinSystem := unwrap_or (@stdin_run ext session mvs stdin_init) stdin_init.
Definition results (st : StdinSystem) : list CallPhase := call_phase <$> st_calls st.

Lemma two_reach : @stdin_reach ext session (run two_prompts).
Proof. apply (@stdin_run_reach ext _ two_prompts). vm_compute. reflexivity. Qed.
Lemma asked_reach : @stdin_reach ext session (run (client_connects ++ ask 0)).
Proof. apply (@stdin_run_reach ext _ (client_connects ++ ask 0)). vm_compute. reflexivity. Qed.
End StdinDemo.

(** The assertions of the test [pending_input_lifetime]: how each call ends, that
    the first waits until it is interrupted, and that nothing is pending after
    any of them. *)
Example pending_input_lifetime :
  let st := StdinDemo.run (concat StdinDemo.test_pending_input_lifetime) in
  map StdinDemo.outcome (st_calls st) = [Some (inl Interrupted); Some (inl Interrupted); Some (inl Closed); Some (inr "")] ∧
  @stdin_run StdinDemo.ext StdinDemo.session [MStart 0 WireDemo.msg "" (as_bytes "missing"); MPoll 0 PGoOn] stdin_init = None ∧
  map (λ n, st_pending (StdinDemo.run (concat (take n StdinDemo.test_pending_input_lifetime)))) [1; 2; 3; 4] = [∅; ∅; ∅; ∅].
Proof. vm_compute. done. Qed.

(** A reply that names its prompt reaches it, whatever the order. *)
Example replies_by_parent : StdinDemo.results (StdinDemo.run StdinDemo.two_prompts) = [CDone (Ok "first"); CDone (Ok "second")].
Proof. vm_compute. reflexivity. Qed.

(** A late reply to an interrupted prompt is taken as the answer to the next
    prompt of the same client, whose id it does not name. *)
Example late_reply_answers_next :
  StdinDemo.results (StdinDemo.run StdinDemo.late_reply) = [CDone (Err error_interrupted); CDone (Ok "first")].
Proof. vm_compute. reflexivity. Qed.

Lemma stdin_answers_witness :
  StdinDemo.results (StdinDemo.run StdinDemo.two_prompts) = [CDone (Ok "first"); CDone (Ok "second")] ∧
  ∃ c j inb, st_calls (StdinDemo.run StdinDemo.two_prompts) !! 0 = Some c ∧ call_answer c = Some (j, "first") ∧
    r_incoming (st_router (StdinDemo.run StdinDemo.two_prompts)) !! j = Some inb ∧ replies_to inb (call_id c) (call_identity c) "first".
Proof.
  split; [vm_compute; reflexivity|].
  destruct (@stdin_answers StdinDemo.ext StdinDemo.session _ StdinDemo.two_reach) as (_ & _ & Ha & _).
  destruct (st_calls (StdinDemo.run StdinDemo.two_prompts) !! 0) as [c|] eqn:Hc; [|exfalso; vm_compute in Hc; discriminate Hc].
  assert (call_phase c = CDone (Ok "first")) as Hp by (vm_compute in Hc; by injection Hc as <-).
  destruct (Ha 0 c "first" Hc Hp) as (_ & j & inb & Hj & _ & Hinb & Hr). exists c, j, inb. exact (conj eq_refl (conj Hj (conj Hinb Hr))).
Defined.

Lemma stdin_calls_end_witness :
  ∃ c, st_calls (StdinDemo.run (StdinDemo.client_connects ++ StdinDemo.ask 0)) !! 0 = Some c ∧ call_phase c = CAsked 0 ∧
    (call_done c = true ∨ (∃ st', call_step 0 (StdinDemo.run (StdinDemo.client_connects ++ StdinDemo.ask 0)) st') ∨
     (call_interrupted c = false ∧ call_waits (StdinDemo.run (StdinDemo.client_connects ++ StdinDemo.ask 0)) 0 c)).
Proof.
  destruct (st_calls (StdinDemo.run (StdinDemo.client_connects ++ StdinDemo.ask 0)) !! 0) as [c|] eqn:Hc; [|exfalso; vm_compute in Hc; discriminate Hc].
  exists c. split; [reflexivity|]. split; [vm_compute in Hc; by injection Hc as <-|].
  apply (@stdin_calls_end StdinDemo.ext StdinDemo.session _ 0 c StdinDemo.asked_reach Hc).
Defined.
