(* ===== verification/Broadcast.v ===== *)
(** * IOPub and the heartbeat as servers (src/src/transport.rs)

    [Iopub::serve] with the tasks of its subscribers and the publishers that go
    through the list of them under its lock, and [serve_heartbeat]. *)

From Stdlib Require Import ZArith.
From stdpp Require Import base gmap sets list strings relations.
From S2P Require Import Prelude Json Errors Wire Services Transport Connections Servers.

(** ** IOPub

    Where the task of a subscriber is: in the handshake; waiting for the lock of
    the list; or in its loop. *)
Inductive IopubPhase := IHandshake | IPushing | IServing.

(** [i_peers] is the list of the subscribers' channels, by connection, and
    [i_queue] what is in each channel; [i_publishing] is the publisher that has
    the lock: its frames and its index.  [i_wrote] is what each peer was written.
    History: [i_log] is the frames of every message published, with the
    subscribers it had reached if its publisher was dropped on the way, [i_joined]
    how many there were when a subscriber entered the list, [i_took] the frames
    its task took out of its channel and wrote. *)
Record IopubServer := MkIopub {
  i_server : Server IopubPhase;
  i_peers : list nat;
  i_queue : gmap nat (list (list bytes));
  i_publishing : option (list bytes * nat);
  i_wrote : gmap nat (list Outgoing);
  i_log : list (list bytes * option (list nat));
  i_joined : gmap nat nat;
  i_took : gmap nat (list (list bytes));
}.

Definition iopub_init : IopubServer := MkIopub server_init [] ∅ None ∅ [] ∅ ∅.

Definition i_with_server (s : Server IopubPhase) (x : IopubServer) : IopubServer :=
  MkIopub s (i_peers x) (i_queue x) (i_publishing x) (i_wrote x) (i_log x) (i_joined x) (i_took x).
Definition i_goto (c : nat) (t : Task IopubPhase) (x : IopubServer) : IopubServer := i_with_server (set_task c t (i_server x)) x.
Definition i_with_list (peers : list nat) (p : option (list bytes * nat)) (x : IopubServer) : IopubServer :=
  MkIopub (i_server x) peers (i_queue x) p (i_wrote x) (i_log x) (i_joined x) (i_took x).
Definition i_with_queue (c : nat) (q : list (list bytes)) (x : IopubServer) : IopubServer :=
  MkIopub (i_server x) (i_peers x) (<[c := q]> (i_queue x)) (i_publishing x) (i_wrote x) (i_log x) (i_joined x) (i_took x).
Definition i_with_log (frames : list bytes) (x : IopubServer) : IopubServer :=
  MkIopub (i_server x) (i_peers x) (i_queue x) (i_publishing x) (i_wrote x) (i_log x ++ [(frames, None)]) (i_joined x) (i_took x).
Definition i_cut (reached : list nat) (x : IopubServer) : IopubServer :=
  MkIopub (i_server x) (i_peers x) (i_queue x) (i_publishing x) (i_wrote x)
    (alter (λ e, (e.1, Some reached)) (pred (length (i_log x))) (i_log x)) (i_joined x) (i_took x).
Definition i_writes (c : nat) (outs : list Outgoing) (x : IopubServer) : IopubServer :=
  MkIopub (i_server x) (i_peers x) (i_queue x) (i_publishing x) (<[c := unwrap_or (i_wrote x !! c) [] ++ outs]> (i_wrote x)) (i_log x) (i_joined x) (i_took x).
Definition i_takes (c : nat) (frames : list bytes) (x : IopubServer) : IopubServer :=
  MkIopub (i_server x) (i_peers x) (i_queue x) (i_publishing x) (i_wrote x) (i_log x) (i_joined x) (<[c := unwrap_or (i_took x !! c) [] ++ [frames]]> (i_took x)).
Definition i_joins (c : nat) (x : IopubServer) : IopubServer :=
  MkIopub (i_server x) (i_peers x) (i_queue x) (i_publishing x) (i_wrote x) (i_log x) (<[c := length (i_log x)]> (i_joined x)) (i_took x).

(** The receiver of a channel lives in the loop of its task. *)
Definition receiving (x : IopubServer) (c : nat) : bool :=
  match sv_tasks (i_server x) !! c with Some (Running IServing) => true | _ => false end.

Inductive IopubEvent :=
| IAccept (stream : result (option Z * string) unit)
| IHandshaken (c : nat) (peer : result (Zmtp * string) unit)
| IPush (c : nat)
| IRecv (c : nat) (event : result (Zmtp * string) Incoming) (draw : nat) (sent : result (Zmtp * string) unit)
| IOut (c : nat) (sent : result (Zmtp * string) unit)
| IPanic (c : nat)
| IJoin (c : nat)
| IPublish (m : Message)
| IPublishNext
| IPublishDropped.

Section IopubServing.
Context `{WireExt} (s : Session) (capacity : nat) (lossy : bytes → string).

(** [writer.send(..).await?], for what answers an event. *)
Definition i_answer (c : nat) (outs : list Outgoing) (sent : result (Zmtp * string) unit) (x : IopubServer) : IopubServer :=
  match sent with
  | Ok _ => i_writes c outs x
  | Err (z, d) => if decide (outs = []) then x else i_goto c (Finished (Some (Err (from_zmtp z d)))) x
  end.

(** [Iopub::peer], for the task of a subscriber that is running.  The push waits
    for the lock. *)
Definition iopub_peer (ev : IopubEvent) (c : nat) (p : IopubPhase) (x : IopubServer) : option IopubServer :=
  match ev, p with
  | IHandshaken _ (Err (z, d)), IHandshake => Some (i_goto c (Finished (Some (Err (from_zmtp z d)))) x)
  | IHandshaken _ (Ok _), IHandshake => Some (i_goto c (Running IPushing) x)
  | IPush _, IPushing =>
      match i_publishing x with
      | Some _ => None
      | None => Some (i_goto c (Running IServing) (i_joins c (i_with_queue c [] (i_with_list (i_peers x ++ [c]) None x))))
      end
  | IRecv _ event draw sent, IServing =>
      Some (match event with
            | Err (z, d) => i_goto c (Finished (Some (Err (from_zmtp z d)))) x
            | Ok ev =>
                match iopub_event s lossy draw ev with
                | Ok outs => i_answer c outs sent x
                | Err e => i_goto c (Finished (Some (Err e))) x
                end
            end)
  | IOut _ sent, IServing =>
      match unwrap_or (i_queue x !! c) [] with
      | frames :: queue =>
          Some (match sent with
                | Ok _ => i_takes c frames (i_writes c [Frames frames] (i_with_queue c queue x))
                | Err (z, d) => i_goto c (Finished (Some (Err (from_zmtp z d)))) x
                end)
      | [] => if decide (c ∈ i_peers x) then None else Some (i_goto c (Finished (Some (Ok tt))) x)
      end
  | IPanic _, _ => Some (i_goto c (Finished None) x)
  | _, _ => None
  end.

(** [Iopub::publish], a round of its loop at a time.  A send waits while the
    channel is full and fails if its receiver is gone. *)
Definition publish_next (x : IopubServer) : option IopubServer :=
  match i_publishing x with
  | None => None
  | Some (frames, i) =>
      match i_peers x !! i with
      | None => Some (i_with_list (i_peers x) None x)
      | Some p =>
          let queue := unwrap_or (i_queue x !! p) [] in
          if receiving x p then
            if decide (length queue < capacity) then Some (i_with_queue p (queue ++ [frames]) (i_with_list (i_peers x) (Some (frames, S i)) x))
            else None
          else Some (i_with_list (swap_remove i (i_peers x)) (Some (frames, i)) x)
      end
  end.

(** The publisher's future is dropped while it waits for room in a channel: the
    execution it belongs to is aborted.  The lock is free again, and the rest of
    the list does not get the message. *)
Definition publish_dropped (x : IopubServer) : option IopubServer :=
  match i_publishing x with
  | None => None
  | Some (frames, i) => Some (i_with_list (i_peers x) None (i_cut (take i (i_peers x)) x))
  end.

(** [Iopub::serve] and its publishers.  Publishing goes on when the server has
    returned; its tasks do not. *)
Definition iopub_serve (ev : IopubEvent) (x : IopubServer) : option IopubServer :=
  match ev with
  | IPublish m =>
      match i_publishing x, encode s m with
      | Some _, _ => None
      | None, Err _ => Some x
      | None, Ok frames => Some (i_with_log frames (i_with_list (i_peers x) (Some (frames, 0)) x))
      end
  | IPublishNext => publish_next x
  | IPublishDropped => publish_dropped x
  | _ =>
      match sv_result (i_server x), ev with
      | Some _, _ => None
      | None, IAccept stream => Some (i_with_server (server_accept IHandshake stream (i_server x)) x)
      | None, IJoin c => (λ sv, i_with_server sv x) <$> server_join "iopub" c (i_server x)
      | None, IHandshaken c _ | None, IPush c | None, IRecv c _ _ _ | None, IOut c _ | None, IPanic c =>
          match sv_tasks (i_server x) !! c with Some (Running p) => iopub_peer ev c p x | _ => None end
      | None, _ => None
      end
  end.

Definition iopub_step (x x' : IopubServer) : Prop := ∃ ev, iopub_serve ev x = Some x'.
Definition iopub_reach (x : IopubServer) : Prop := rtc iopub_step iopub_init x.
End IopubServing.

(** *** What holds of every state *)

(** What a subscriber got: what its task wrote and what its channel holds. *)
Definition got (x : IopubServer) (c : nat) : list (list bytes) := unwrap_or (i_took x !! c) [] ++ unwrap_or (i_queue x !! c) [].

(** A publisher that has the lock is still on its way to the subscriber. *)
Definition awaited (x : IopubServer) (c : nat) : list (list bytes) :=
  match i_publishing x with Some (frames, i) => if decide (c ∈ take i (i_peers x)) then [] else [frames] | None => [] end.

(** What a subscriber gets of a log: every message whose publisher was not dropped
    before it had reached it. *)
Definition reaches (c : nat) (e : list bytes * option (list nat)) : option (list bytes) :=
  match e.2 with Some reached => if decide (c ∈ reached) then Some e.1 else None | None => Some e.1 end.

Definition sent_to (c : nat) (log : list (list bytes * option (list nat))) : list (list bytes) := omap (reaches c) log.

(** A task that has not entered the list. *)
Definition outside (x : IopubServer) (c : nat) : Prop :=
  sv_spawned (i_server x) ≤ c ∨ sv_tasks (i_server x) !! c = Some (Running IHandshake) ∨ sv_tasks (i_server x) !! c = Some (Running IPushing).

Record iopub_inv (capacity : nat) (x : IopubServer) : Prop := {
  ii_spawned : ∀ c, sv_spawned (i_server x) ≤ c → sv_tasks (i_server x) !! c = None;
  ii_nodup : NoDup (i_peers x);
  ii_index : ∀ f i, i_publishing x = Some (f, i) → i ≤ length (i_peers x);
  ii_subscriber : ∀ c, receiving x c = true →
    c ∈ i_peers x ∧ ∃ j, i_joined x !! c = Some j ∧ got x c ++ awaited x c = sent_to c (drop j (i_log x));
  ii_joined : ∀ c j, i_joined x !! c = Some j → j ≤ length (i_log x) ∧ (i_publishing x ≠ None → j < length (i_log x));
  ii_current : ∀ f i, i_publishing x = Some (f, i) → ∃ l, i_log x = l ++ [(f, None)];
  ii_outside : ∀ c, outside x c → c ∉ i_peers x ∧ i_took x !! c = None ∧ receiving x c = false;
  ii_took : ∀ c j, i_joined x !! c = Some j → ∃ rest, unwrap_or (i_took x !! c) [] ++ rest ++ awaited x c = sent_to c (drop j (i_log x));
  ii_capacity : ∀ c q, i_queue x !! c = Some q → length q ≤ capacity;
}.

Section IopubProofs.
Context `{WireExt} (s : Session) (capacity : nat) (lossy : bytes → string).
Notation inv := (iopub_inv capacity).

Lemma iopub_inv_server sv x :
  inv x → (∀ c, sv_spawned sv ≤ c → sv_tasks sv !! c = None) → (∀ c, receiving (i_with_server sv x) c = true → receiving x c = true) →
  (∀ c, outside (i_with_server sv x) c → outside x c) → inv (i_with_server sv x).
Proof.
  intros [H0 H1 H2 H3 HJ HC H4 H5 H6] Hsp Hr Ho. split; try done.
  - intros c Hc%Hr. by apply H3.
  - intros c Hc%Ho. destruct (H4 c Hc) as (? & ? & Hn). split_and!; [done..|].
    destruct (receiving (i_with_server sv x) c) eqn:E; [|done]. apply Hr in E. congruence.
Qed.

(** A task that does not enter its loop. *)
Lemma iopub_inv_goto c p t x :
  inv x → sv_tasks (i_server x) !! c = Some (Running p) → t ≠ Running IServing → (t = Running IHandshake ∨ t = Running IPushing → p ≠ IServing) →
  inv (i_goto c t x).
Proof.
  intros Hi Ht Hne Hnew. apply iopub_inv_server; [done|..].
  - simpl. intros c' Hc'. rewrite lookup_insert_ne; [by apply (ii_spawned _ _ Hi)|]. intros <-. by rewrite (ii_spawned _ _ Hi) in Ht.
  - intros c'. unfold receiving. simpl. destruct (decide (c = c')) as [<-|]; [rewrite lookup_insert_eq|by rewrite lookup_insert_ne].
    by destruct t as [[]|].
  - intros c'. unfold outside. simpl. destruct (decide (c = c')) as [<-|]; [rewrite lookup_insert_eq|by rewrite lookup_insert_ne].
    rewrite Ht. intros [?|[[= ->]|[= ->]]]; [by left|..]; destruct p; naive_solver.
Qed.

Lemma iopub_inv_writes c outs x : inv x → inv (i_writes c outs x).
Proof. intros [H0 H1 H2 H3 HJ HC H4 H5 H6]. by split. Qed.

Lemma iopub_inv_accept stream x : inv x → inv (i_with_server (server_accept IHandshake stream (i_server x)) x).
Proof.
  intros Hi. destruct stream as [u|[errno d]]; apply iopub_inv_server; try done.
  - simpl. intros c Hc. rewrite lookup_insert_ne by lia. apply (ii_spawned _ _ Hi). lia.
  - intros c. unfold receiving. simpl. destruct (decide (c = sv_spawned (i_server x))) as [->|];
      [by rewrite lookup_insert_eq | by rewrite lookup_insert_ne].
  - intros c. unfold outside. simpl. destruct (decide (c = sv_spawned (i_server x))) as [->|]; [by left; lia|].
    rewrite lookup_insert_ne by done. intros [?|?]; [left; lia | by right].
  - intros c. unfold outside. simpl. rewrite lookup_empty. intros [?|[?|?]]; [by left|done..].
Qed.

Lemma iopub_inv_join c sv x : inv x → server_join "iopub" c (i_server x) = Some sv → inv (i_with_server sv x).
Proof.
  intros Hi. unfold server_join. destruct (sv_tasks (i_server x) !! c) as [[|res]|] eqn:Ht; try done. intros [= <-].
  destruct (peer_finished res "iopub") as [line|e]; apply iopub_inv_server; try done.
  - simpl. intros c' Hc'. apply lookup_delete_None. right. by apply (ii_spawned _ _ Hi).
  - intros c'. unfold receiving. simpl. destruct (decide (c = c')) as [<-|]; [by rewrite lookup_delete_eq | by rewrite lookup_delete_ne].
  - intros c'. unfold outside. simpl. destruct (decide (c = c')) as [<-|]; [rewrite lookup_delete_eq|by rewrite lookup_delete_ne].
    intros [?|[?|?]]; [by left|done..].
  - intros c'. unfold outside. simpl. rewrite lookup_empty. intros [?|[?|?]]; [by left|done..].
Qed.

Lemma iopub_inv_push c x :
  inv x → sv_tasks (i_server x) !! c = Some (Running IPushing) → i_publishing x = None →
  inv (i_goto c (Running IServing) (i_joins c (i_with_queue c [] (i_with_list (i_peers x ++ [c]) None x)))).
Proof.
  intros [H0 H1 H2 H3 HJ HC H4 H5 H6] Ht Hp. destruct (H4 c) as (Hc & Htk & _); [by right; right|].
  assert (c < sv_spawned (i_server x)) as Hlt.
  { destruct (decide (sv_spawned (i_server x) ≤ c)) as [Hle|]; [by rewrite (H0 c Hle) in Ht | lia]. }
  split; simpl; try done.
  - intros c' Hc'. rewrite lookup_insert_ne by lia. by apply H0.
  - apply NoDup_app. split_and!; [done| |apply NoDup_singleton]. intros c' Hc' ->%list_elem_of_singleton. done.
  - intros c'. unfold receiving, got, awaited. simpl. destruct (decide (c = c')) as [<-|Hne].
    + intros _. split; [set_solver|]. exists (length (i_log x)). rewrite !lookup_insert_eq, Htk, drop_all. done.
    + rewrite !lookup_insert_ne by done. intros Hr. destruct (H3 c' Hr) as (Hin & j & ? & E).
      split; [set_solver|]. exists j. revert E. unfold awaited. by rewrite Hp.
  - intros c' j. destruct (decide (c = c')) as [<-|Hne]; [rewrite lookup_insert_eq; intros [= <-]; split; [done|by intros []]|].
    rewrite lookup_insert_ne by done. intros [? _]%HJ. split; [done|by intros []].
  - intros c'. unfold outside, receiving. simpl. destruct (decide (c = c')) as [<-|Hne].
    + rewrite lookup_insert_eq. intros [Hs|[?|?]]; [lia|done..].
    + rewrite lookup_insert_ne by done. intros Ho. destruct (H4 c' Ho) as (? & ? & ?). set_solver.
  - intros c' j. destruct (decide (c = c')) as [<-|Hne].
    + rewrite lookup_insert_eq. intros [= <-]. exists []. by rewrite Htk, drop_all.
    + rewrite lookup_insert_ne by done. intros [rest E]%H5. exists rest. revert E. unfold awaited. by rewrite Hp.
  - intros c' q. destruct (decide (c = c')) as [<-|Hne]; [rewrite lookup_insert_eq; intros [= <-]; simpl; lia|].
    rewrite lookup_insert_ne by done. apply H6.
Qed.

Lemma iopub_inv_out c frames queue x :
  inv x → receiving x c = true → unwrap_or (i_queue x !! c) [] = frames :: queue →
  inv (i_takes c frames (i_writes c [Frames frames] (i_with_queue c queue x))).
Proof.
  intros [H0 H1 H2 H3 HJ HC H4 H5 H6] Hr Hq. destruct (i_queue x !! c) as [q|] eqn:Eq; simplify_eq/=.
  assert (∀ c', got (i_takes c frames (i_writes c [Frames frames] (i_with_queue c queue x))) c' = got x c') as Hg.
  { intros c'. unfold got. simpl. destruct (decide (c = c')) as [<-|]; [|by rewrite !lookup_insert_ne].
    rewrite !lookup_insert_eq, Eq. simpl. by rewrite <- app_assoc. }
  split; simpl; try done.
  - intros c' Hr'. rewrite Hg. by apply H3.
  - intros c' Ho. destruct (H4 c' Ho) as (? & Htk & Hr'). split_and!; [done| |done].
    rewrite lookup_insert_ne; [done|]. intros <-. unfold receiving in *. simpl in *. congruence.
  - intros c' j Hj. destruct (decide (c = c')) as [<-|]; [|rewrite lookup_insert_ne by done; by apply H5].
    destruct (H3 c Hr) as (_ & j' & Hj' & E). simplify_eq. rewrite lookup_insert_eq. simpl. rewrite <- E. unfold got. rewrite Eq. simpl.
    exists queue. by rewrite <- !app_assoc.
  - intros c' q'. destruct (decide (c = c')) as [<-|]; [rewrite lookup_insert_eq|rewrite lookup_insert_ne by done; by apply H6].
    intros [= <-]. pose proof (H6 c _ Eq) as Hl. simpl in Hl. lia.
Qed.

Lemma sent_to_publish c j frames (log : list (list bytes * option (list nat))) :
  j ≤ length log → sent_to c (drop j (log ++ [(frames, None)])) = sent_to c (drop j log) ++ [frames].
Proof. intros Hj. rewrite drop_app_le by done. unfold sent_to. by rewrite omap_app. Qed.

Lemma iopub_inv_publish frames x :
  inv x → i_publishing x = None → inv (i_with_log frames (i_with_list (i_peers x) (Some (frames, 0)) x)).
Proof.
  intros [H0 H1 H2 H3 HJ HC H4 H5 H6] Hp. split; simpl; try done.
  - intros f i [= <- <-]. lia.
  - intros c Hr. destruct (H3 c Hr) as (? & j & Hj & E). split; [done|]. exists j. split; [done|].
    rewrite sent_to_publish by by apply (HJ c). rewrite <- E. unfold awaited. rewrite Hp. simpl. by rewrite app_nil_r.
  - intros c j [Hj _]%HJ. rewrite length_app. simpl. lia.
  - intros f i [= <- <-]. by eexists.
  - intros c j Hj. destruct (H5 c j Hj) as [rest E]. exists rest. rewrite sent_to_publish by by apply (HJ c).
    rewrite <- E. unfold awaited. rewrite Hp. simpl. by rewrite app_nil_r, <- app_assoc.
Qed.

Lemma swap_remove_elem {A} (l : list A) i p : l !! i = Some p → l ≡ₚ p :: swap_remove i l.
Proof.
  intros Hi. destruct (swap_remove_spec l i p Hi) as (Et & Ed & _). rewrite <- (take_drop i l) at 1. rewrite Ed, <- Et.
  rewrite <- Permutation_middle. by rewrite take_drop.
Qed.

Lemma iopub_inv_send frames i p x :
  inv x → i_publishing x = Some (frames, i) → i_peers x !! i = Some p → receiving x p = true → length (unwrap_or (i_queue x !! p) []) < capacity →
  inv (i_with_queue p (unwrap_or (i_queue x !! p) [] ++ [frames]) (i_with_list (i_peers x) (Some (frames, S i)) x)).
Proof.
  intros [H0 H1 H2 H3 HJ HC H4 H5 H6] Hp Hpi Hrp Hcap. pose proof (lookup_lt_Some _ _ _ Hpi) as Hlt.
  set (x' := i_with_queue p _ _).
  assert (∀ c, (p = c ∧ awaited x c = [frames] ∧ awaited x' c = []) ∨ (p ≠ c ∧ awaited x' c = awaited x c)) as Haw.
  { intros c. unfold awaited. simpl. rewrite Hp, (take_S_r _ _ _ Hpi). destruct (decide (p = c)) as [<-|Hne]; [left|right]; (split; [done|]).
    - rewrite decide_False, decide_True; [done|set_solver|].
      intros (k & Hk & Hk2)%elem_of_take. by assert (k = i) by (by eapply NoDup_lookup); lia.
    - destruct (decide (c ∈ take i (i_peers x))); [by rewrite decide_True by set_solver|]. rewrite decide_False; [done|]. set_solver. }
  split; simpl; try done.
  - intros f i' [= <- <-]. lia.
  - intros c Hr. destruct (H3 c Hr) as (Hin & j & ? & E). split; [done|]. exists j. split_and!; [done..|]. rewrite <- E.
    unfold got. simpl. destruct (Haw c) as [[<- [-> ->]]|[Hne ->]].
    + rewrite lookup_insert_eq. simpl. by rewrite app_nil_r, app_assoc.
    + by rewrite lookup_insert_ne by done.
  - intros c j Hj%HJ. rewrite Hp in Hj. naive_solver.
  - intros f i' [= <- <-]. by apply (HC _ i).
  - intros c j Hj. destruct (H5 c j Hj) as [rest E]. destruct (Haw c) as [[<- [Eo ->]]|[Hne ->]]; [|by exists rest].
    exists (rest ++ [frames]). rewrite <- E, Eo, app_nil_r. done.
  - intros c q. destruct (decide (p = c)) as [<-|]; [rewrite lookup_insert_eq|rewrite lookup_insert_ne by done; by apply H6].
    intros [= <-]. rewrite length_app. simpl. lia.
Qed.

Lemma iopub_inv_drop frames i p x :
  inv x → i_publishing x = Some (frames, i) → i_peers x !! i = Some p → receiving x p = false →
  inv (i_with_list (swap_remove i (i_peers x)) (Some (frames, i)) x).
Proof.
  intros [H0 H1 H2 H3 HJ HC H4 H5 H6] Hp Hpi Hrp. pose proof (swap_remove_elem _ _ _ Hpi) as Hperm.
  destruct (swap_remove_spec _ _ _ Hpi) as (Et & _ & El). pose proof (lookup_lt_Some _ _ _ Hpi) as Hlt.
  split; simpl; try done.
  - rewrite Hperm in H1. by apply NoDup_cons in H1 as [_ H1].
  - intros f i' [= <- <-]. lia.
  - intros c Hr. destruct (H3 c Hr) as (Hin & j & ? & E). split.
    + rewrite Hperm in Hin. apply elem_of_cons in Hin as [->|]; [|done]. unfold receiving in *. simpl in *. congruence.
    + exists j. split_and!; [done..|]. rewrite <- E. unfold awaited. simpl. by rewrite Hp, Et.
  - intros c j Hj%HJ. rewrite Hp in Hj. naive_solver.
  - intros f i' [= <- <-]. by apply (HC _ i).
  - intros c Ho. destruct (H4 c Ho) as (Hin & ? & ?). split_and!; [|done..]. intros Hin'. apply Hin. rewrite Hperm. by right.
  - intros c j Hj. destruct (H5 c j Hj) as [rest E]. exists rest. rewrite <- E. unfold awaited. simpl. by rewrite Hp, Et.
Qed.

Lemma iopub_inv_done frames i x : inv x → i_publishing x = Some (frames, i) → i_peers x !! i = None → inv (i_with_list (i_peers x) None x).
Proof.
  intros [H0 H1 H2 H3 HJ HC H4 H5 H6] Hp Hpi%lookup_ge_None. split; simpl; try done.
  - intros c Hr. destruct (H3 c Hr) as (Hin & j & ? & E). split; [done|]. exists j. split_and!; [done..|]. rewrite <- E.
    unfold awaited. simpl. rewrite Hp, decide_True; [done|]. by rewrite take_ge.
  - intros c j [? _]%HJ. split; [done|by intros []].
  - intros c j Hj. destruct (H5 c j Hj) as [rest E]. exists (rest ++ awaited x c). rewrite <- E. simpl. by rewrite app_nil_r.
Qed.

(** The log of a message whose publisher is dropped. *)
Lemma sent_to_cut c j l (frames : list bytes) reached :
  j ≤ length l → let log := l ++ [(frames, None)] in
  sent_to c (drop j log) = sent_to c (drop j (alter (λ e, (e.1, Some reached)) (pred (length log)) log)) ++
    (if decide (c ∈ reached) then [] else [frames]).
Proof.
  intros Hj log. unfold log. rewrite length_app. simpl.
  replace (pred (length l + 1)) with (length l + 0) by lia. rewrite alter_app_r. simpl. rewrite !drop_app_le by done.
  unfold sent_to. rewrite !omap_app, <- app_assoc. f_equal. simpl. unfold reaches. simpl. by destruct (decide (c ∈ reached)).
Qed.

Lemma iopub_inv_dropped frames i x :
  inv x → i_publishing x = Some (frames, i) → inv (i_with_list (i_peers x) None (i_cut (take i (i_peers x)) x)).
Proof.
  intros [H0 H1 H2 H3 HJ HC H4 H5 H6] Hp. destruct (HC _ _ Hp) as [l El].
  assert (∀ c j, i_joined x !! c = Some j → j ≤ length l) as Hle.
  { intros c j [_ Hj]%HJ. specialize (Hj ltac:(by rewrite Hp)). rewrite El, length_app in Hj. simpl in Hj. lia. }
  assert (∀ c j, i_joined x !! c = Some j → sent_to c (drop j (i_log x)) =
    sent_to c (drop j (i_log (i_cut (take i (i_peers x)) x))) ++ awaited x c) as Hsent.
  { intros c j Hj. unfold awaited, i_cut. simpl. rewrite Hp, El. by apply sent_to_cut, (Hle c). }
  split; simpl; try done.
  - intros c Hr. destruct (H3 c Hr) as (Hin & j & Hj & E). split; [done|]. exists j. split; [done|].
    rewrite (Hsent c j Hj) in E. apply app_inv_tail in E. unfold awaited. simpl. rewrite app_nil_r. exact E.
  - intros c j [? _]%HJ. rewrite length_alter. split; [done|by intros []].
  - intros c j Hj. destruct (H5 c j Hj) as [rest E]. exists rest. rewrite (Hsent c j Hj), app_assoc in E. apply app_inv_tail in E.
    rewrite app_nil_r. exact E.
Qed.

Lemma iopub_inv_peer ev c p x x' :
  inv x → sv_tasks (i_server x) !! c = Some (Running p) → iopub_peer s lossy ev c p x = Some x' → inv x'.
Proof.
  intros Hi Ht E.
  assert (∀ r, inv (i_goto c (Finished r) x)) as Hend by (intros r; apply (iopub_inv_goto c p); [done..|naive_solver]).
  unfold iopub_peer in E. destruct ev as [|c0 [u|[z d]]|c0|c0 event draw sent|c0 sent|c0|c0| | |], p; try discriminate E.
  - injection E as <-. apply (iopub_inv_goto c IHandshake); [done..|naive_solver].
  - injection E as <-. apply Hend.
  - destruct (i_publishing x) eqn:Hp; [done|]. injection E as <-. by apply iopub_inv_push.
  - injection E as <-. destruct event as [event|[z d]]; [|apply Hend]. destruct (iopub_event _ _ _ _) as [outs|e]; [|apply Hend].
    unfold i_answer. destruct sent as [u|[z d]]; [by apply iopub_inv_writes|]. case_decide; [done|apply Hend].
  - destruct (unwrap_or (i_queue x !! c) []) as [|frames queue] eqn:Eq.
    + case_decide; [done|]. injection E as <-. apply Hend.
    + injection E as <-. destruct sent as [u|[z d]]; [|apply Hend]. apply iopub_inv_out; [done| |done]. unfold receiving. by rewrite Ht.
  - injection E as <-. apply Hend.
  - injection E as <-. apply Hend.
  - injection E as <-. apply Hend.
Qed.

Lemma iopub_step_inv x x' : iopub_step s capacity lossy x x' → inv x → inv x'.
Proof.
  intros [ev E] Hi. unfold iopub_serve in E.
  assert (∀ c, match sv_tasks (i_server x) !! c with Some (Running p) => iopub_peer s lossy ev c p x | _ => None end = Some x' → inv x') as Hpeer.
  { intros c Ec. destruct (sv_tasks (i_server x) !! c) as [[p|]|] eqn:Ht; try discriminate Ec. by eapply iopub_inv_peer. }
  destruct ev as [stream|c peer|c|c event draw sent|c sent|c|c|m| |]; [destruct (sv_result (i_server x)); [done|]..| | |]; try (by eapply Hpeer).
  - injection E as <-. by apply iopub_inv_accept.
  - destruct (server_join "iopub" c (i_server x)) as [sv|] eqn:Ej; [|done]. injection E as <-. by eapply iopub_inv_join.
  - destruct (i_publishing x) eqn:Hp; [done|]. destruct (encode s m); injection E as <-; [by apply iopub_inv_publish | done].
  - unfold publish_next in E. destruct (i_publishing x) as [[frames i]|] eqn:Hp; [|done].
    destruct (i_peers x !! i) as [p|] eqn:Hpi; [destruct (receiving x p) eqn:Hrp; [case_decide; [|done]|]|]; injection E as <-.
    + by apply iopub_inv_send.
    + by eapply iopub_inv_drop.
    + by eapply iopub_inv_done.
  - unfold publish_dropped in E. destruct (i_publishing x) as [[frames i]|] eqn:Hp; [|done]. injection E as <-. by eapply iopub_inv_dropped.
Qed.

Lemma iopub_reach_inv x : iopub_reach s capacity lossy x → inv x.
Proof.
  apply (rtc_invariant (iopub_step s capacity lossy) inv); [|apply iopub_step_inv].
  split; simpl; try done; [constructor|]. intros c _. split_and!; [apply not_elem_of_nil|done|done].
Qed.

(** C21: (IOPub streams) whatever subscribers come and go while messages are
    published, and whichever publishers are dropped while they wait for a slow
    subscriber: what the task of a subscriber took to write, followed by what waits
    in its channel, is the sequence of all messages published since it entered
    the list, in order, nothing lost, repeated or reordered, but for messages whose
    publisher was dropped before it reached the subscriber and for the message
    whose publisher is still on its way to it; a channel never holds more than
    the configured capacity; what a subscriber that is gone was sent is the front
    of that sequence; and a subscriber's task never finds its channel closed. *)
Theorem iopub_streams x :
  iopub_reach s capacity lossy x →
  (∀ c, receiving x c = true → ∃ j, i_joined x !! c = Some j ∧ got x c ++ awaited x c = sent_to c (drop j (i_log x))) ∧
  (∀ c j, i_joined x !! c = Some j → unwrap_or (i_took x !! c) [] `prefix_of` sent_to c (drop j (i_log x))) ∧
  (∀ c q, i_queue x !! c = Some q → length q ≤ capacity) ∧
  (∀ c sent, receiving x c = true → unwrap_or (i_queue x !! c) [] = [] → iopub_peer s lossy (IOut c sent) c IServing x = None).
Proof.
  intros [H0 H1 H2 H3 HJ HC H4 H5 H6]%iopub_reach_inv. split_and!; [| |done|].
  - intros c Hr. destruct (H3 c Hr) as (_ & j & ? & ?). eauto.
  - intros c j [rest <-]%H5. by eexists.
  - intros c sent Hr Hq. simpl. rewrite Hq. destruct (H3 c Hr) as [Hin _]. by rewrite decide_True.
Qed.

(** (publishing ends) a publisher under the lock that is not waiting for room in a
    subscriber's channel has a next round, and takes at most one round per
    subscriber and one to finish: a slow subscriber, and nothing else, can hold
    it up. *)
Lemma publish_progress x frames i :
  i_publishing x = Some (frames, i) →
  match publish_next capacity x with
  | Some x' => i_publishing x' = None ∨ ∃ i', i_publishing x' = Some (frames, i') ∧ length (i_peers x') - i' < length (i_peers x) - i
  | None => ∃ p, i_peers x !! i = Some p ∧ receiving x p = true ∧ capacity ≤ length (unwrap_or (i_queue x !! p) [])
  end.
Proof.
  intros Hp. unfold publish_next. rewrite Hp. destruct (i_peers x !! i) as [p|] eqn:Hpi; [|by left].
  pose proof (lookup_lt_Some _ _ _ Hpi) as Hlt. destruct (receiving x p) eqn:Hr.
  - case_decide; [right; exists (S i); simpl; split; [done|lia] | exists p; split_and!; [done..|lia]].
  - right. exists i. simpl. destruct (swap_remove_spec _ _ _ Hpi) as (_ & _ & El). split; [done|lia].
Qed.
End IopubProofs.

(** ** The heartbeat *)

Inductive HeartbeatPhase := HHandshake | HServing.

(** [h_wrote] is what each peer was written, [h_read] every event it was read. *)
Record HeartbeatServer := MkHeartbeat { h_server : Server HeartbeatPhase; h_wrote : gmap nat (list Outgoing); h_read : gmap nat (list Incoming) }.

Inductive HeartbeatEvent :=
| HAccept (stream : result (option Z * string) unit)
| HHandshaken (c : nat) (peer : result (Zmtp * string) unit)
| HRecv (c : nat) (event : result (Zmtp * string) Incoming) (sent : result (Zmtp * string) unit)
| HPanic (c : nat)
| HJoin (c : nat).

Definition h_goto (c : nat) (t : Task HeartbeatPhase) (x : HeartbeatServer) : HeartbeatServer := MkHeartbeat (set_task c t (h_server x)) (h_wrote x) (h_read x).

(** The task of a connection. *)
Definition heartbeat_peer (ev : HeartbeatEvent) (c : nat) (p : HeartbeatPhase) (x : HeartbeatServer) : option HeartbeatServer :=
  match ev, p with
  | HHandshaken _ (Err (z, d)), HHandshake => Some (h_goto c (Finished (Some (Err (from_zmtp z d)))) x)
  | HHandshaken _ (Ok _), HHandshake => Some (h_goto c (Running HServing) x)
  | HRecv _ (Err (z, d)) _, HServing => Some (h_goto c (Finished (Some (Err (from_zmtp z d)))) x)
  | HRecv _ (Ok event) sent, HServing =>
      let x := MkHeartbeat (h_server x) (h_wrote x) (<[c := unwrap_or (h_read x !! c) [] ++ [event]]> (h_read x)) in
      Some (match heartbeat_event event, sent with
            | Err e, _ => h_goto c (Finished (Some (Err e))) x
            | Ok _, Err (z, d) => h_goto c (Finished (Some (Err (from_zmtp z d)))) x
            | Ok out, Ok _ => MkHeartbeat (h_server x) (<[c := unwrap_or (h_wrote x !! c) [] ++ [out]]> (h_wrote x)) (h_read x)
            end)
  | HPanic _, _ => Some (h_goto c (Finished None) x)
  | _, _ => None
  end.

Definition serve_heartbeat (ev : HeartbeatEvent) (x : HeartbeatServer) : option HeartbeatServer :=
  match sv_result (h_server x), ev with
  | Some _, _ => None
  | None, HAccept stream => Some (MkHeartbeat (server_accept HHandshake stream (h_server x)) (h_wrote x) (h_read x))
  | None, HJoin c => (λ sv, MkHeartbeat sv (h_wrote x) (h_read x)) <$> server_join "heartbeat" c (h_server x)
  | None, HHandshaken c _ | None, HRecv c _ _ | None, HPanic c =>
      match sv_tasks (h_server x) !! c with Some (Running p) => heartbeat_peer ev c p x | _ => None end
  end.

Definition heartbeat_reach (x : HeartbeatServer) : Prop := rtc (λ x x', ∃ ev, serve_heartbeat ev x = Some x') (MkHeartbeat server_init ∅ ∅) x.

(** What is owed to a peer for what it sent. *)
Definition echo (ev : Incoming) : option Outgoing := match heartbeat_event ev with Ok out => Some out | Err _ => None end.

Definition owed (x : HeartbeatServer) (c : nat) : list Outgoing := omap echo (unwrap_or (h_read x !! c) []).
Definition paid (x : HeartbeatServer) (c : nat) : list Outgoing := unwrap_or (h_wrote x !! c) [].

(** A connection's task has not ended. *)
Definition h_open (x : HeartbeatServer) (c : nat) : Prop := sv_spawned (h_server x) ≤ c ∨ ∃ p, sv_tasks (h_server x) !! c = Some (Running p).

Definition heartbeat_ok (x : HeartbeatServer) (c : nat) : Prop :=
  (sv_spawned (h_server x) ≤ c → sv_tasks (h_server x) !! c = None) ∧
  ∃ rest, owed x c = paid x c ++ rest ∧ length rest ≤ 1 ∧ (h_open x c → rest = []).

(** A move that leaves a connection's reads and writes, and opens none that was not. *)
Lemma heartbeat_ok_mono x sv c :
  heartbeat_ok x c → sv_spawned (h_server x) ≤ sv_spawned sv →
  (sv_spawned sv ≤ c → sv_tasks (h_server x) !! c = None → sv_tasks sv !! c = None) →
  (h_open (MkHeartbeat sv (h_wrote x) (h_read x)) c → h_open x c) → heartbeat_ok (MkHeartbeat sv (h_wrote x) (h_read x)) c.
Proof.
  intros [Hn (rest & E & Hl & Ho)] Hs Ht Hopen. split; [simpl; intros Hc; apply Ht, Hn; [done|lia]|]. exists rest. auto.
Qed.

Lemma heartbeat_ok_task x c t c' :
  (∀ c', heartbeat_ok x c') → h_open x c → sv_tasks (h_server x) !! c ≠ None → heartbeat_ok (h_goto c t x) c'.
Proof.
  intros Hok Hc Hn. apply heartbeat_ok_mono; [done|done|..]; simpl.
  - intros Hs Hne. rewrite lookup_insert_ne; [done|]. intros <-. done.
  - unfold h_open. simpl. destruct (decide (c = c')) as [<-|]; [auto|by rewrite lookup_insert_ne].
Qed.

(** An event read, with what was written back: the answer, or nothing and the task is over. *)
Lemma heartbeat_ok_recv x c event out sent c' :
  (∀ c', heartbeat_ok x c') → sv_tasks (h_server x) !! c = Some (Running HServing) → echo event = out →
  let x' := MkHeartbeat (h_server x) (h_wrote x) (<[c := unwrap_or (h_read x !! c) [] ++ [event]]> (h_read x)) in
  heartbeat_ok (match out, sent with
                | Some o, None => MkHeartbeat (h_server x) (<[c := unwrap_or (h_wrote x !! c) [] ++ [o]]> (h_wrote x)) (h_read x')
                | _, _ => h_goto c (Finished (unwrap_or sent None)) x'
                end) c'.
Proof.
  intros Hok Ht Hecho x'. destruct (Hok c') as [Hn (rest & E & Hl & Ho)]. unfold owed, paid in E.
  assert (c < sv_spawned (h_server x)) as Hlt.
  { destruct (decide (sv_spawned (h_server x) ≤ c)); [|lia]. destruct (Hok c) as [Hc _]. by rewrite Hc in Ht. }
  destruct (decide (c = c')) as [<-|Hne].
  - rewrite (Ho (or_intror (ex_intro _ HServing Ht))), app_nil_r in E.
    assert (owed x' c = paid x c ++ option_list out) as Hx.
    { unfold owed, paid. simpl. rewrite lookup_insert_eq. simpl. rewrite omap_app, E. simpl. rewrite Hecho. by destruct out. }
    destruct out as [o|], sent as [e|]; (split; [intros Hc; simpl in Hc; lia|]).
    + exists [o]. split_and!; [exact Hx|simpl; lia|]. unfold h_open. simpl. rewrite lookup_insert_eq. intros [?|[? ?]]; [lia|done].
    + exists []. split_and!; [|simpl; lia|done]. change (owed x' c = unwrap_or (<[c:=unwrap_or (h_wrote x !! c) [] ++ [o]]> (h_wrote x) !! c) [] ++ []).
      rewrite Hx, lookup_insert_eq, app_nil_r. done.
    + exists []. split_and!; [exact Hx|simpl; lia|done].
    + exists []. split_and!; [exact Hx|simpl; lia|done].
  - assert (∀ t, heartbeat_ok (h_goto c t x') c') as Hg.
    { intros t. split; [simpl; rewrite lookup_insert_ne by done; done|]. exists rest. unfold owed, paid, h_open in *. simpl.
      rewrite !lookup_insert_ne by done. auto. }
    destruct out as [o|], sent as [e|]; [apply Hg| |apply Hg|apply Hg].
    split; [done|]. exists rest. unfold owed, paid, h_open in *. simpl. rewrite !lookup_insert_ne by done. auto.
Qed.

Lemma heartbeat_step_ok ev x x' : serve_heartbeat ev x = Some x' → (∀ c, heartbeat_ok x c) → ∀ c, heartbeat_ok x' c.
Proof.
  intros E Hok c'. unfold serve_heartbeat in E. destruct (sv_result (h_server x)); [done|].
  destruct ev as [stream|c peer|c event sent|c|c].
  - injection E as <-. destruct stream as [u|[errno d]]; (apply heartbeat_ok_mono; [done|simpl; lia|..]); simpl; try done.
    + intros Hs Hn. by rewrite lookup_insert_ne by lia.
    + unfold h_open. simpl. destruct (decide (c' = sv_spawned (h_server x))) as [->|]; [left; lia|].
      rewrite lookup_insert_ne by done. intros [?|?]; [left; lia|by right].
    + unfold h_open. simpl. rewrite lookup_empty. intros [?|[? ?]]; [by left|done].
  - destruct (sv_tasks (h_server x) !! c) as [[p|]|] eqn:Ht; try discriminate E. assert (h_open x c) as Hc by (right; eauto).
    destruct peer as [u|[z d]], p; try discriminate E; injection E as <-; (apply heartbeat_ok_task; [done..|by rewrite Ht]).
  - destruct (sv_tasks (h_server x) !! c) as [[[]|]|] eqn:Ht; try discriminate E; [destruct event as [ev|[z d]]; discriminate E|].
    destruct event as [ev|[z d]]; injection E as <-; [|apply heartbeat_ok_task; [done|right; eauto|by rewrite Ht]].
    destruct (heartbeat_event ev) as [out|e] eqn:Ee.
    + destruct sent as [u|[z d]].
      * apply (heartbeat_ok_recv x c ev (Some out) None c' Hok Ht). unfold echo. by rewrite Ee.
      * apply (heartbeat_ok_recv x c ev (Some out) (Some (Some (Err (from_zmtp z d)))) c' Hok Ht). unfold echo. by rewrite Ee.
    + apply (heartbeat_ok_recv x c ev None (Some (Some (Err e))) c' Hok Ht). unfold echo. by rewrite Ee.
  - destruct (sv_tasks (h_server x) !! c) as [[p|]|] eqn:Ht; try discriminate E. destruct p; injection E as <-;
      (apply heartbeat_ok_task; [done|right; eauto|by rewrite Ht]).
  - unfold server_join in E. destruct (sv_tasks (h_server x) !! c) as [[|res]|] eqn:Ht; try discriminate E. injection E as <-.
    destruct (peer_finished res "heartbeat"); (apply heartbeat_ok_mono; [done|simpl; lia|..]); simpl; try done.
    + intros Hs Hn. apply lookup_delete_None. by right.
    + unfold h_open. simpl. intros [?|[q [_ Hq]%lookup_delete_Some]]; [by left|right; eauto].
    + unfold h_open. simpl. rewrite lookup_empty. intros [?|[? ?]]; [by left|done].
Qed.

(** (heartbeat) each client gets back exactly what it sent, message for message and
    ping for ping, in order: while its connection is up nothing is missing, and
    when it ended at most the answer to the last event is. *)
Theorem heartbeat_echoes x c :
  heartbeat_reach x →
  ∃ rest, owed x c = paid x c ++ rest ∧ length rest ≤ 1 ∧ (∀ p, sv_tasks (h_server x) !! c = Some (Running p) → rest = []).
Proof.
  intros Hr. assert (∀ c, heartbeat_ok x c) as Hok.
  { revert Hr. apply (rtc_invariant _ (λ x, ∀ c, heartbeat_ok x c)); [|intros x1 x2 [ev E]; by eapply heartbeat_step_ok].
    intros c'. split; [done|]. exists []. split_and!; [done|simpl; lia|done]. }
  destruct (Hok c) as [_ (rest & E & Hl & Ho)]. exists rest. split_and!; [done..|]. intros p Hp. apply Ho. right. eauto.
Qed.

(** ** Witnesses *)

Definition iopub_run `{WireExt} (s : Session) (capacity : nat) (lossy : bytes → string) (evs : list IopubEvent) (x : IopubServer) : option IopubServer :=
  foldl (λ o ev, o ≫= iopub_serve s capacity lossy ev) (Some x) evs.

Lemma iopub_run_reach `{WireExt} s capacity lossy evs x x' :
  iopub_run s capacity lossy evs x = Some x' → rtc (iopub_step s capacity lossy) x x'.
Proof.
  unfold iopub_run. revert x'. induction evs as [|ev evs IH] using rev_ind; intros x'; simpl; [by intros [= ->]|].
  rewrite foldl_app. simpl. destruct (foldl _ _ evs) as [x1|] eqn:E; [|done]. simpl. intros E1.
  eapply rtc_r; [by apply IH|by eexists].
Qed.

(** The first subscriber breaks off before the second message is published; the
    publisher of the third is dropped before it reaches the second subscriber. *)
Module IopubDemo.
Definition events : list IopubEvent :=
  [IAccept (Ok tt); IHandshaken 0 (Ok tt); IPush 0; IAccept (Ok tt); IHandshaken 1 (Ok tt); IPush 1; IPublish WireDemo.msg; IPublishNext; IPublishNext;
   IPublishNext; IOut 1 (Ok tt); IRecv 0 (Ok (IMessage [])) 0 (Ok tt); IPublish WireDemo.msg; IPublishNext; IPublishNext; IPublishNext;
   IPublish WireDemo.msg; IPublishDropped].
Definition server : IopubServer := unwrap_or (@iopub_run WireDemo.ext WireDemo.session 8 (λ _, "") events iopub_init) iopub_init.
Lemma iopub_server_reach : @iopub_reach WireDemo.ext WireDemo.session 8 (λ _, "") server.
Proof. apply (@iopub_run_reach WireDemo.ext _ _ _ events). vm_compute. reflexivity. Qed.
End IopubDemo.

Lemma iopub_streams_witness :
  i_peers IopubDemo.server = [1] ∧ i_took IopubDemo.server !! 1 = Some [WireDemo.frames] ∧ length (got IopubDemo.server 1) = 2 ∧ length (i_log IopubDemo.server) = 3 ∧
  ∃ j, i_joined IopubDemo.server !! 1 = Some j ∧ got IopubDemo.server 1 ++ awaited IopubDemo.server 1 = sent_to 1 (drop j (i_log IopubDemo.server)).
Proof.
  do 4 (split; [vm_compute; reflexivity|]).
  apply (@iopub_streams WireDemo.ext WireDemo.session 8 (λ _, "") _ IopubDemo.iopub_server_reach). vm_compute. reflexivity.
Defined.
