(* ===== verification/Dap.v ===== *)
(** * The debug adapter client (src/src/dap.rs)

    The framing of messages, the allocation of sequence numbers, and the table
    of pending requests under concurrent sends, responses, drops and closing. *)

From Stdlib Require Import ZArith Strings.Byte.
From stdpp Require Import base gmap sets list strings.
From S2P Require Import Prelude Json Errors Wire.

(** ** Framing *)

Definition CRLF : bytes := [x0d; x0a].

(** Decimal digits of a [usize], as [format!] prints it. *)
Definition digit (d : nat) : byte := unwrap_or (Byte.of_N (48 + N.of_nat d)) x30.

Fixpoint dec (fuel n : nat) (acc : bytes) : bytes :=
  match fuel with
  | 0 => acc
  | S f => if n <? 10 then digit n :: acc else dec f (n / 10) (digit (n mod 10) :: acc)
  end.

Definition show_usize (n : nat) : bytes := dec (S n) n [].

Definition digit_val (b : byte) : option nat :=
  let n := N.to_nat (Byte.to_N b) in if (48 <=? n) && (n <=? 57) then Some (n - 48) else None.

Fixpoint parse_digits (acc : nat) (l : bytes) : option nat :=
  match l with [] => Some acc | b :: l' => digit_val b ≫= λ d, parse_digits (10 * acc + d) l' end.

(** [str::parse::<usize>]: digits, after an optional plus sign, within 64 bits. *)
Definition parse_usize (l : bytes) : option nat :=
  let digits := match l with b :: l' => if decide (b = x2b) then l' else l | [] => l end in
  if decide (digits = []) then None
  else parse_digits 0 digits ≫= λ n, if (Z.of_nat n <? u64_mod)%Z then Some n else None.

(** [Display] of the [ParseIntError] of a text that [parse_usize] refuses. *)
Definition parse_int_error (l : bytes) : string :=
  let digits := match l with b :: l' => if decide (b = x2b) then l' else l | [] => l end in
  if decide (l = []) then "cannot parse integer from empty string"
  else if decide (digits = []) then "invalid digit found in string"
  else match parse_digits 0 digits with Some _ => "number too large to fit in target type" | None => "invalid digit found in string" end.

Definition is_space (b : byte) : bool := bool_decide (b ∈ [x09; x0a; x0b; x0c; x0d; x20]).

Fixpoint trim_start (l : bytes) : bytes :=
  match l with b :: l' => if is_space b then trim_start l' else l | [] => [] end.

(** [str::trim] (ASCII white space). *)
Definition trim (l : bytes) : bytes := reverse (trim_start (reverse (trim_start l))).

Fixpoint strip_bytes (p l : bytes) : option bytes :=
  match p, l with
  | [], _ => Some l
  | a :: p', b :: l' => if decide (a = b) then strip_bytes p' l' else None
  | _ :: _, [] => None
  end.

(** [read_line]: up to and including the next line feed, or what is left. *)
Fixpoint read_line (l : bytes) : bytes * bytes :=
  match l with
  | [] => ([], [])
  | b :: l' => if decide (b = x0a) then ([b], l') else let '(line, rest) := read_line l' in (b :: line, rest)
  end.

(** The header loop; every round but the last reads a non-empty line, so the
    length of the input is enough fuel.  Headers are taken to be UTF-8. *)
Fixpoint read_headers (fuel : nat) (content_length : option nat) (l : bytes) : Result (option nat) * bytes :=
  match fuel with
  | 0 => (Err (error_closed "DAP connection"), l)
  | S f =>
      let '(header, rest) := read_line l in
      if decide (header = []) then (Err (error_closed "DAP connection"), rest)
      else if decide (header = CRLF) then (Ok content_length, rest)
      else
        match strip_bytes (as_bytes "Content-Length:") header with
        | Some value =>
            match parse_usize (trim value) with
            | Some n => read_headers f (Some n) rest
            | None => (Err (error_caused_by (error_new Protocol "invalid DAP Content-Length") (ForeignError OtherError (parse_int_error (trim value)) None)), rest)
            end
        | None => read_headers f content_length rest
        end
  end.

Section Framing.
Context `{WireExt}.

Definition encode_message (message : Value) : Result bytes :=
  match to_vec message with
  | Ok payload => Ok (as_bytes "Content-Length: " ++ show_usize (length payload) ++ CRLF ++ CRLF ++ payload)
  | Err e => Err (from_serde e)
  end.

(** One message from the input, and the input after it. *)
Definition read_message (l : bytes) : Result Value * bytes :=
  match read_headers (S (length l)) None l with
  | (Err e, rest) => (Err e, rest)
  | (Ok None, rest) => (Err (error_new Protocol "DAP message has no Content-Length"), rest)
  | (Ok (Some n), rest) =>
      if length rest <? n then (Err (from_io None "early eof"), [])
      else
        match from_slice (take n rest) with
        | Ok v => (Ok v, drop n rest)
        | Err e => (Err (error_caused_by (error_new Protocol "invalid DAP JSON") (ForeignError SerdeError e None)), drop n rest)
        end
  end.
End Framing.

Lemma digit_val_digit d : d < 10 → digit_val (digit d) = Some d.
Proof. intros Hd. do 10 (destruct d as [|d]; [reflexivity|]). lia. Qed.

Lemma parse_dec fuel n acc a :
  n < fuel → ∃ k, parse_digits a (dec fuel n acc) = parse_digits (a * 10 ^ k + n) acc.
Proof.
  revert n acc. induction fuel as [|f IH]; intros n acc Hn; [lia|]. cbn [dec].
  destruct (Nat.ltb_spec n 10).
  - exists 1. cbn [parse_digits]. rewrite digit_val_digit by lia. simpl. f_equal. lia.
  - destruct (IH (n / 10) (digit (n mod 10) :: acc)) as [k E]; [pose proof (Nat.div_lt n 10); lia|].
    exists (S k). rewrite E. cbn [parse_digits]. rewrite digit_val_digit by (apply Nat.mod_upper_bound; lia). cbn [mbind option_bind]. f_equal.
    rewrite Nat.pow_succ_r'. pose proof (Nat.div_mod n 10). lia.
Qed.

Lemma parse_show n : parse_digits 0 (show_usize n) = Some n.
Proof. unfold show_usize. destruct (parse_dec (S n) n [] 0) as [k E]; [lia|]. rewrite E. done. Qed.

Lemma dec_digits fuel n acc :
  (∀ b, b ∈ acc → ∃ d, d < 10 ∧ b = digit d) → ∀ b, b ∈ dec fuel n acc → ∃ d, d < 10 ∧ b = digit d.
Proof.
  revert n acc. induction fuel as [|f IH]; intros n acc Ha b; simpl; [auto|].
  destruct (Nat.ltb_spec n 10); [intros [->|?]%elem_of_cons; eauto|].
  apply IH. intros b' [->|?]%elem_of_cons; [|auto]. exists (n mod 10). split; [apply Nat.mod_upper_bound; lia | done].
Qed.

Lemma show_digits n b : b ∈ show_usize n → is_space b = false ∧ b ≠ x2b ∧ b ≠ x0a.
Proof.
  intros Hb. destruct (dec_digits (S n) n [] (λ b Hb, match not_elem_of_nil b Hb with end) b Hb) as (d & Hd & ->).
  do 10 (destruct d as [|d]; [done|]). lia.
Qed.

Lemma show_nonempty n : show_usize n ≠ [].
Proof.
  assert (∀ fuel m acc, acc ≠ [] ∨ 0 < fuel → dec fuel m acc ≠ []) as Hd; [|apply Hd; lia].
  induction fuel as [|f IH]; intros m acc Ha; simpl; [destruct Ha; [done|lia]|]. case_match; [done|]. apply IH. by left.
Qed.

Lemma read_line_app l rest : x0a ∉ l → read_line (l ++ x0a :: rest) = (l ++ [x0a], rest).
Proof.
  induction l as [|b l IH]; simpl; intros Hn; [done|]. apply not_elem_of_cons in Hn as [Hb Hl].
  rewrite decide_False by done. by rewrite IH.
Qed.

Lemma trim_start_app l r : l ≠ [] → (∀ b, b ∈ l → is_space b = false) → trim_start (l ++ r) = l ++ r.
Proof. destruct l as [|b l]; [done|]. intros _ Hs. simpl. by rewrite (Hs b) by left. Qed.

Lemma trim_show n : trim (x20 :: show_usize n ++ CRLF) = show_usize n.
Proof.
  unfold trim. assert (∀ b, b ∈ show_usize n → is_space b = false) as Hs by (intros b Hb; by apply show_digits in Hb as [? _]).
  change (trim_start (x20 :: show_usize n ++ CRLF)) with (trim_start (show_usize n ++ CRLF)).
  rewrite trim_start_app by (done || apply show_nonempty). rewrite reverse_app.
  change (trim_start (reverse CRLF ++ reverse (show_usize n))) with (trim_start (reverse (show_usize n))).
  rewrite <- (app_nil_r (reverse (show_usize n))), trim_start_app, app_nil_r, reverse_involutive; [done| |].
  - intros E%(f_equal reverse). rewrite reverse_involutive in E. by apply show_nonempty in E.
  - intros b Hb. apply Hs. by apply elem_of_reverse.
Qed.

Lemma parse_usize_show n : (Z.of_nat n < u64_mod)%Z → parse_usize (show_usize n) = Some n.
Proof.
  intros Hn. unfold parse_usize. pose proof (show_nonempty n) as He.
  destruct (show_usize n) as [|b l] eqn:E; [done|].
  rewrite (decide_False (P := b = x2b)); [|apply (show_digits n b); rewrite E; left].
  rewrite decide_False by done. rewrite <- E, parse_show. cbn [mbind option_bind].
  by rewrite (proj2 (Z.ltb_lt _ _) Hn).
Qed.

Lemma read_headers_message fuel n payload :
  (Z.of_nat n < u64_mod)%Z →
  read_headers (S (S fuel)) None (as_bytes "Content-Length: " ++ show_usize n ++ CRLF ++ CRLF ++ payload) = (Ok (Some n), payload).
Proof.
  intros Hn. set (line := as_bytes "Content-Length: " ++ show_usize n ++ [x0d]).
  assert (as_bytes "Content-Length: " ++ show_usize n ++ CRLF ++ CRLF ++ payload = line ++ x0a :: CRLF ++ payload) as ->.
  { unfold line, CRLF. by rewrite <- !app_assoc. }
  assert (x0a ∉ line) as Hl.
  { unfold line. rewrite !not_elem_of_app. split_and!; [by apply (bool_decide_unpack _); vm_compute | | by apply (bool_decide_unpack _); vm_compute].
    intros Hb. by apply show_digits in Hb as (_ & _ & ?). }
  remember (S fuel) as f eqn:Ef. cbn [read_headers]. rewrite read_line_app by done.
  assert (line ++ [x0a] = as_bytes "Content-Length:" ++ x20 :: show_usize n ++ CRLF) as ->.
  { unfold line, CRLF. by rewrite <- !app_assoc. }
  rewrite decide_False by done. rewrite decide_False by done.
  assert (∀ p l, strip_bytes p (p ++ l) = Some l) as Hstrip.
  { induction p as [|b p IH]; intros l; simpl; [done|]. by rewrite decide_True. }
  rewrite Hstrip, trim_show, parse_usize_show by done. rewrite Ef. reflexivity.
Qed.

(** Reading gives back what was written: a message that was encoded and whose
    text parses back is read from the front of any input, and exactly its bytes
    are consumed. *)
Lemma read_encoded `{WireExt} v payload frame rest :
  to_vec v = Ok payload → from_slice payload = Ok v → (Z.of_nat (length payload) < u64_mod)%Z →
  encode_message v = Ok frame → read_message (frame ++ rest) = (Ok v, rest).
Proof.
  intros Ht Hf Hn He. unfold encode_message in He. rewrite Ht in He.
  assert (frame = as_bytes "Content-Length: " ++ show_usize (length payload) ++ CRLF ++ CRLF ++ payload) as -> by congruence.
  unfold read_message. rewrite <- !app_assoc.
  match goal with |- context [read_headers (S (length ?l)) None ?l] => assert (∃ f, length l = S f) as [f ->] end.
  { exists (length (as_bytes "ontent-Length: " ++ show_usize (length payload) ++ CRLF ++ CRLF ++ payload ++ rest)). done. }
  rewrite read_headers_message by done. rewrite length_app, (proj2 (Nat.ltb_ge _ _)) by lia.
  by rewrite take_app_length, drop_app_length, Hf.
Qed.

(** ** The client

    [d_pending] maps a sequence number to the oneshot of its request, named by a
    number; [d_answered] is what oneshots were sent, [d_dropped] the oneshots
    whose receiver is closed.  [d_close] is the reason the client is closed. *)
Record Dap := MkDap {
  d_pending : gmap Z nat;
  d_close : option Error;
  d_next_seq : Z;
  d_outgoing : list bytes;
  d_answered : list (nat * Result Value);
  d_dropped : gset nat;
  d_events : list Value;
  d_oneshots : nat;
}.

Definition dap_init : Dap := MkDap ∅ None 1 [] [] ∅ [] 0.

Definition set_pending (p : gmap Z nat) (d : Dap) : Dap :=
  MkDap p (d_close d) (d_next_seq d) (d_outgoing d) (d_answered d) (d_dropped d) (d_events d) (d_oneshots d).

(** [request_sequence]: the request's own number if it has one, else the next;
    later ones are above it.  Gives the request with its number filled in. *)
Definition request_sequence (request : Value) (next : Z) : Result (Z * Value) * Z :=
  match as_object request with
  | None => (Err (error_new InvalidInput "DAP request must be an object"), next)
  | Some content =>
      let '(seq, content, next) :=
        match opt_filter (λ s, (0 <? s)%Z) (map_get content "seq" ≫= as_u64) with
        | Some s => (s, content, next)
        | None => (next, map_insert content "seq" (jnat next), u64_add next 1)
        end in
      if (seq + 1 <? u64_mod)%Z then (Ok (seq, Obj content), Z.max next (seq + 1))
      else (Err (error_new InvalidInput "DAP request sequence is too large"), next)
  end.

(** A call of [send] between two of its critical sections: numbered and encoded;
    in the table; past the second look at [close]. *)
Inductive SendState :=
| Numbered (seq : Z) (frame : bytes)
| Inserted (seq : Z) (k : nat) (frame : bytes)
| Cleared (seq : Z) (k : nat) (frame : bytes).

(** [Drop for DapRequest]: closes the receiver, and takes the entry out of the
    table if its receiver is closed. *)
Definition drop_request (seq : Z) (k : nat) (d : Dap) : Dap :=
  let dropped := {[k]} ∪ d_dropped d in
  let p := match d_pending d !! seq with
           | Some k' => if decide (k' ∈ dropped) then delete seq (d_pending d) else d_pending d
           | None => d_pending d
           end in
  MkDap p (d_close d) (d_next_seq d) (d_outgoing d) (d_answered d) dropped (d_events d) (d_oneshots d).

(** [fail_pending], first half: the first reason stays. *)
Definition mark_closed (e : Error) (d : Dap) : Dap :=
  MkDap (d_pending d) (Some (unwrap_or (d_close d) e)) (d_next_seq d) (d_outgoing d) (d_answered d) (d_dropped d) (d_events d) (d_oneshots d).

(** [fail_pending], second half: every pending request is told the reason. *)
Definition drain_pending (d : Dap) : Dap :=
  match d_close d with
  | Some e => MkDap ∅ (d_close d) (d_next_seq d) (d_outgoing d) (d_answered d ++ map (λ k, (k, Err e)) (map_to_list (d_pending d)).*2)
                (d_dropped d) (d_events d) (d_oneshots d)
  | None => d
  end.

(** The body of [read_messages] for one message. *)
Definition receive (message : Value) (d : Dap) : Dap :=
  if decide (get_str message "type" = Some "event") then
    MkDap (d_pending d) (d_close d) (d_next_seq d) (d_outgoing d) (d_answered d) (d_dropped d) (d_events d ++ [message]) (d_oneshots d)
  else
    match get_u64 message "request_seq" with
    | Some seq =>
        match d_pending d !! seq with
        | Some k => MkDap (delete seq (d_pending d)) (d_close d) (d_next_seq d) (d_outgoing d) (d_answered d ++ [(k, Ok message)])
                      (d_dropped d) (d_events d) (d_oneshots d)
        | None => d
        end
    | None => d
    end.

(** The client with its calls in progress; [failing] counts the calls of
    [fail_pending] between their halves. *)
Record DapSystem := MkDapSystem { dap : Dap; sends : list SendState; failing : nat }.

Section Client.
Context `{WireExt}.

Definition insert_pending (seq : Z) (d : Dap) : Dap :=
  MkDap (<[seq := d_oneshots d]> (d_pending d)) (d_close d) (d_next_seq d) (d_outgoing d) (d_answered d) (d_dropped d) (d_events d) (S (d_oneshots d)).

Definition set_next_seq (n : Z) (d : Dap) : Dap :=
  MkDap (d_pending d) (d_close d) n (d_outgoing d) (d_answered d) (d_dropped d) (d_events d) (d_oneshots d).

Definition push_outgoing (frame : bytes) (d : Dap) : Dap :=
  MkDap (d_pending d) (d_close d) (d_next_seq d) (d_outgoing d ++ [frame]) (d_answered d) (d_dropped d) (d_events d) (d_oneshots d).

Inductive dap_step : DapSystem → DapSystem → Prop :=
| dap_number d ss f request seq request' next frame :
    d_close d = None → request_sequence request (d_next_seq d) = (Ok (seq, request'), next) → encode_message request' = Ok frame →
    dap_step (MkDapSystem d ss f) (MkDapSystem (set_next_seq next d) (ss ++ [Numbered seq frame]) f)
| dap_number_fails d ss f request r next :
    request_sequence request (d_next_seq d) = (r, next) → dap_step (MkDapSystem d ss f) (MkDapSystem (set_next_seq next d) ss f)
| dap_insert d ss f i seq frame :
    ss !! i = Some (Numbered seq frame) → d_pending d !! seq = None →
    dap_step (MkDapSystem d ss f) (MkDapSystem (insert_pending seq d) (<[i := Inserted seq (d_oneshots d) frame]> ss) f)
| dap_duplicate d ss f i seq frame :
    ss !! i = Some (Numbered seq frame) → is_Some (d_pending d !! seq) →
    dap_step (MkDapSystem d ss f) (MkDapSystem d (delete i ss) f)
| dap_check_open d ss f i seq k frame :
    ss !! i = Some (Inserted seq k frame) → d_close d = None →
    dap_step (MkDapSystem d ss f) (MkDapSystem d (<[i := Cleared seq k frame]> ss) f)
| dap_check_closed d ss f i seq k frame :
    ss !! i = Some (Inserted seq k frame) → is_Some (d_close d) →
    dap_step (MkDapSystem d ss f) (MkDapSystem (drop_request seq k d) (delete i ss) f)
| dap_push d ss f i seq k frame :
    ss !! i = Some (Cleared seq k frame) →
    dap_step (MkDapSystem d ss f) (MkDapSystem (push_outgoing frame d) (delete i ss) f)
| dap_push_fails d ss f i seq k frame :
    ss !! i = Some (Cleared seq k frame) →
    dap_step (MkDapSystem d ss f) (MkDapSystem (drop_request seq k d) (delete i ss) f)
| dap_mark d ss f e : dap_step (MkDapSystem d ss f) (MkDapSystem (mark_closed e d) ss (S f))
| dap_drain d ss f : dap_step (MkDapSystem d ss (S f)) (MkDapSystem (drain_pending d) ss f)
| dap_receive d ss f message : dap_step (MkDapSystem d ss f) (MkDapSystem (receive message d) ss f)
| dap_drop d ss f seq k :
    k < d_oneshots d → (∀ frame, Inserted seq k frame ∉ ss) →
    dap_step (MkDapSystem d ss f) (MkDapSystem (drop_request seq k d) ss f).

Inductive dap_reachable : DapSystem → Prop :=
| dap_start : dap_reachable (MkDapSystem dap_init [] 0)
| dap_next s s' : dap_reachable s → dap_step s s' → dap_reachable s'.
End Client.

(** ** Every request ends *)

(** Each oneshot is pending, answered or dropped; it is answered at most once;
    once the client is closed and told so, only calls of [send] that are about
    to notice still have entries in the table. *)
Record dap_ok (s : DapSystem) : Prop := {
  ok_failing : 0 < failing s → is_Some (d_close (dap s));
  ok_range : ∀ seq k, d_pending (dap s) !! seq = Some k → k < d_oneshots (dap s) ∧ k ∉ (d_answered (dap s)).*1;
  ok_unique : ∀ seq seq' k, d_pending (dap s) !! seq = Some k → d_pending (dap s) !! seq' = Some k → seq = seq';
  ok_answered : NoDup (d_answered (dap s)).*1 ∧ ∀ k, k ∈ (d_answered (dap s)).*1 → k < d_oneshots (dap s);
  ok_all : ∀ k, k < d_oneshots (dap s) →
    (∃ seq, d_pending (dap s) !! seq = Some k) ∨ k ∈ (d_answered (dap s)).*1 ∨ k ∈ d_dropped (dap s);
  ok_closed : is_Some (d_close (dap s)) → failing s = 0 → ∀ seq k, d_pending (dap s) !! seq = Some k →
    ∃ frame, Inserted seq k frame ∈ sends s;
}.

Lemma elem_of_delete_ne {A} (l : list A) i x y : l !! i = Some y → x ∈ l → x ≠ y → x ∈ delete i l.
Proof. intros Hi Hx Hne. rewrite (delete_Permutation _ _ _ Hi) in Hx. by apply elem_of_cons in Hx as [->|?]. Qed.

Lemma elem_of_insert_ne {A} (l : list A) i x y z : l !! i = Some y → x ∈ l → x ≠ y → x ∈ <[i := z]> l.
Proof.
  intros Hi [j Hj]%list_elem_of_lookup Hne. apply list_elem_of_lookup. exists j.
  rewrite list_lookup_insert_ne; [done|]. intros ->. congruence.
Qed.

Lemma elem_of_insert_here {A} (l : list A) i y z : l !! i = Some y → z ∈ <[i := z]> l.
Proof. intros Hi. apply list_elem_of_lookup. exists i. apply list_lookup_insert_eq. by eapply lookup_lt_Some. Qed.

(** An update that changes neither the table nor the oneshots nor the reason. *)
Lemma dap_ok_same d d' ss ss' f :
  d_pending d' = d_pending d → d_close d' = d_close d → d_answered d' = d_answered d → d_dropped d' = d_dropped d →
  d_oneshots d' = d_oneshots d → (is_Some (d_close d) → ∀ seq k fr, Inserted seq k fr ∈ ss → Inserted seq k fr ∈ ss') →
  dap_ok (MkDapSystem d ss f) → dap_ok (MkDapSystem d' ss' f).
Proof.
  intros Ep Ec Ea Ed Eo Hs [H1 H2 H3 H4 H5 H6]. simpl in *. split; simpl; rewrite ?Ep, ?Ec, ?Ea, ?Ed, ?Eo; auto.
  intros Hc Hf seq k Hk. destruct (H6 Hc Hf seq k Hk) as [fr ?]. eauto.
Qed.

Lemma drop_request_pending seq k d seq' k' :
  d_pending (drop_request seq k d) !! seq' = Some k' → d_pending d !! seq' = Some k' ∧ (seq' = seq → k' ≠ k).
Proof.
  simpl. destruct (d_pending d !! seq) as [k0|] eqn:E; [case_decide as Hd|].
  - intros [? ?]%lookup_delete_Some. split; [done|]. by intros ->.
  - intros E'. split; [done|]. intros ->. assert (k' = k0) as -> by congruence. intros ->. apply Hd. set_solver.
  - intros E'. split; [done|]. intros ->. congruence.
Qed.

Lemma drop_request_kept seq k d seq' k' :
  d_pending d !! seq' = Some k' → k' ∉ {[k]} ∪ d_dropped d → d_pending (drop_request seq k d) !! seq' = Some k'.
Proof.
  intros E Hn. simpl. destruct (d_pending d !! seq) as [k0|] eqn:E0; [|done]. case_decide; [|done].
  rewrite lookup_delete_ne; [done|]. intros ->. congruence.
Qed.

Lemma dap_ok_drop seq k d ss ss' f :
  (∀ seq' k' fr, Inserted seq' k' fr ∈ ss → (seq' = seq ∧ k' = k) ∨ Inserted seq' k' fr ∈ ss') →
  dap_ok (MkDapSystem d ss f) → dap_ok (MkDapSystem (drop_request seq k d) ss' f).
Proof.
  intros Hs [H1 H2 H3 H4 H5 H6]. split; simpl in *; [done| | |done| |].
  - intros seq' k' [E _]%drop_request_pending. eauto.
  - intros s1 s2 k' [E1 _]%drop_request_pending [E2 _]%drop_request_pending. eauto.
  - intros k' Hk. destruct (decide (k' ∈ {[k]} ∪ d_dropped d)) as [|Hn]; [auto|].
    destruct (H5 k' Hk) as [[seq' E]|[?|?]]; [left|auto|set_solver]. exists seq'. by apply drop_request_kept.
  - intros Hc Hf seq' k' [E Hne]%drop_request_pending. destruct (H6 Hc Hf _ _ E) as [fr Hin].
    destruct (Hs _ _ _ Hin) as [[-> ->]|?]; [by destruct Hne | eauto].
Qed.

Lemma dap_ok_drain d ss f : dap_ok (MkDapSystem d ss (S f)) → dap_ok (MkDapSystem (drain_pending d) ss f).
Proof.
  intros [H1 H2 H3 H4 H5 H6]. simpl in *. destruct H1 as [e He]; [lia|]. unfold drain_pending. rewrite He.
  assert ((d_answered d ++ map (λ k, (k, Err e)) (map_to_list (d_pending d)).*2).*1 = (d_answered d).*1 ++ (map_to_list (d_pending d)).*2) as Ea.
  { rewrite fmap_app. f_equal. induction (map_to_list (d_pending d)).*2 as [|k l IH]; simpl; [done|]. by f_equal. }
  assert (∀ k, k ∈ (map_to_list (d_pending d)).*2 ↔ ∃ seq, d_pending d !! seq = Some k) as Hin.
  { intros k. rewrite list_elem_of_fmap. split.
    - intros ([s k'] & -> & Hi%elem_of_map_to_list). eauto.
    - intros [s Hi]. exists (s, k). split; [done|]. by apply elem_of_map_to_list. }
  split; simpl; rewrite ?Ea; [done | intros ? ? []%lookup_empty_Some | intros ? ? ? []%lookup_empty_Some | | | intros _ _ ? ? []%lookup_empty_Some].
  - destruct H4 as [Hnd Hlt]. split.
    + apply NoDup_app. split_and!; [done| |].
      * intros k Hk [s Hs]%Hin. by apply (H2 s k Hs).
      * apply NoDup_fmap_2_strong; [|apply NoDup_map_to_list].
        intros [s k] [s' k'] Hi%elem_of_map_to_list Hi'%elem_of_map_to_list. simpl. intros <-. f_equal. eauto.
    + intros k [?|[s Hs]%Hin]%elem_of_app; [auto | by apply (H2 s)].
  - intros k Hk. destruct (H5 k Hk) as [Hs|[?|?]]; right; [left|left|right]; try done; apply elem_of_app; [right; by apply Hin | by left].
Qed.

Lemma dap_ok_receive message d ss f : dap_ok (MkDapSystem d ss f) → dap_ok (MkDapSystem (receive message d) ss f).
Proof.
  intros Hok. unfold receive. case_decide; [by eapply dap_ok_same; [..|exact Hok]|].
  destruct (get_u64 message "request_seq") as [seq|]; [|done]. destruct (d_pending d !! seq) as [k|] eqn:E; [|done].
  destruct Hok as [H1 H2 H3 H4 H5 H6]. simpl in *. destruct (H2 seq k E) as [Hlt Hna].
  split; simpl; rewrite ?fmap_app; simpl; [done| | | | |].
  - intros s' k' [Hne E']%lookup_delete_Some. destruct (H2 _ _ E') as [? Hn]. split; [done|].
    intros [?|Hk%list_elem_of_singleton]%elem_of_app; [done|]. subst k'. by destruct Hne; eauto.
  - intros s1 s2 k' [_ E1]%lookup_delete_Some [_ E2]%lookup_delete_Some. eauto.
  - destruct H4 as [Hnd Hr]. split; [|intros k' [?|Hk%list_elem_of_singleton]%elem_of_app; subst; auto].
    apply NoDup_app. split_and!; [done| |apply NoDup_singleton]. intros k' Hk' Hk%list_elem_of_singleton. by subst.
  - intros k' Hk. destruct (H5 k' Hk) as [[s' E']|[?|?]].
    + destruct (decide (seq = s')) as [<-|Hne].
      * right. left. apply elem_of_app. right. apply list_elem_of_singleton. congruence.
      * left. exists s'. by rewrite lookup_delete_ne.
    + right. left. apply elem_of_app. by left.
    + auto.
  - intros Hc Hf s' k' [_ E']%lookup_delete_Some. eauto.
Qed.

Lemma dap_ok_insert d ss f i seq frame :
  ss !! i = Some (Numbered seq frame) → d_pending d !! seq = None → dap_ok (MkDapSystem d ss f) →
  dap_ok (MkDapSystem (insert_pending seq d) (<[i := Inserted seq (d_oneshots d) frame]> ss) f).
Proof.
  intros Hi Hn [H1 H2 H3 H4 H5 H6]. simpl in *. destruct H4 as [Hnd Hr].
  assert (∀ s, d_pending d !! s ≠ Some (d_oneshots d)) as Hnew by (intros s [? _]%H2; lia).
  split; simpl; [done| | | | |].
  - intros s k [[<- <-]|[_ E]]%lookup_insert_Some; [split; [lia|]; intros Hk%Hr; lia | destruct (H2 _ _ E); split; [lia|done]].
  - intros s s' k [[<- <-]|[Hs E]]%lookup_insert_Some [[<- Ek]|[Hs' E']]%lookup_insert_Some; subst; eauto; exfalso; by eapply Hnew.
  - split; [done|]. intros k Hk%Hr. lia.
  - intros k Hk. destruct (decide (k = d_oneshots d)) as [->|Hne]; [left; exists seq; by rewrite lookup_insert_eq|].
    destruct (H5 k) as [[s E]|[?|?]]; [lia|left|auto|auto]. exists s. rewrite lookup_insert_ne; [done|]. intros ->. congruence.
  - intros Hc Hf s k [[<- <-]|[_ E]]%lookup_insert_Some; [exists frame; by eapply elem_of_insert_here|].
    destruct (H6 Hc Hf _ _ E) as [fr Hin]. exists fr. by eapply elem_of_insert_ne.
Qed.

Lemma dap_ok_step `{WireExt} s s' : dap_step s s' → dap_ok s → dap_ok s'.
Proof.
  intros Hs Hok. destruct Hs.
  - eapply dap_ok_same; [..|exact Hok]; try done. intros _ s k fr Hin. apply elem_of_app. by left.
  - by eapply dap_ok_same; [..|exact Hok].
  - by apply dap_ok_insert.
  - eapply dap_ok_same; [..|exact Hok]; try done. intros _ s k fr Hin. by eapply elem_of_delete_ne.
  - eapply dap_ok_same; [..|exact Hok]; try done. intros Hc. rewrite H1 in Hc. by apply is_Some_None in Hc.
  - eapply dap_ok_drop; [|exact Hok]. intros s' k' fr Hin.
    destruct (decide (s' = seq ∧ k' = k)) as [?|Hne]; [by left|right]. eapply elem_of_delete_ne; [done..|]. intros [= -> -> _]. by destruct Hne.
  - eapply dap_ok_same; [..|exact Hok]; try done. intros _ s k' fr Hin. by eapply elem_of_delete_ne.
  - eapply dap_ok_drop; [|exact Hok]. intros s' k' fr Hin. right. by eapply elem_of_delete_ne.
  - destruct Hok as [H1' H2 H3 H4 H5 H6]. split; simpl in *; eauto. done.
  - by apply dap_ok_drain.
  - by apply dap_ok_receive.
  - eapply dap_ok_drop; [|exact Hok]. auto.
Qed.

Lemma dap_reachable_ok `{WireExt} s : dap_reachable s → dap_ok s.
Proof.
  induction 1 as [|s s' _ IH Hs]; [|by eapply dap_ok_step].
  split; simpl; [lia | intros ? ? []%lookup_empty_Some | intros ? ? ? []%lookup_empty_Some | | lia | by intros ?%is_Some_None].
  split; [constructor | by intros k ?%elem_of_nil].
Qed.

(** C25: (no debug request waits for ever) in any interleaving of sends,
    responses, dropped requests and closing, whoever closes: every request put
    in the table is still there, was answered, or was given up by its caller;
    none is answered twice; and once the client is closed and no call of
    [fail_pending] is under way, the only requests left in the table belong to
    calls of [send] that are about to see the client closed and take them out
    again.  With no such call the table is empty: everyone has been told. *)
Theorem dap_requests_end `{WireExt} d ss f :
  dap_reachable (MkDapSystem d ss f) →
  NoDup (d_answered d).*1 ∧
  (∀ k, k < d_oneshots d → (∃ seq, d_pending d !! seq = Some k) ∨ k ∈ (d_answered d).*1 ∨ k ∈ d_dropped d) ∧
  (is_Some (d_close d) → f = 0 → ∀ seq k, d_pending d !! seq = Some k → ∃ frame, Inserted seq k frame ∈ ss).
Proof.
  intros Hr. by apply dap_reachable_ok in Hr as [_ _ _ [Hn _] Ha Hc].
Qed.
