(* ===== verification/DapTasks.v ===== *)
(** * The tasks of the debug adapter client (src/src/dap.rs)

    The two tasks that [DapClient::connect] spawns, the writer and the reader,
    around the client of file Dap: what they write, what they read of the
    adapter's stream, and how either's end, a dropped client or [close] ends
    both. *)

From Stdlib Require Import ZArith Strings.Byte.
From stdpp Require Import base gmap sets list strings relations.
From S2P Require Import Prelude Json Errors Wire Dap.

(** ** The stream of messages *)

Section Stream.
Context `{WireExt}.

(** All the messages of an input, and the error at its end.  A message takes at
    least a byte, so the length of the input is enough fuel. *)
Fixpoint read_all (fuel : nat) (l : bytes) : list Value * option Error :=
  match fuel with
  | 0 => ([], None)
  | S f =>
      match read_message l with
      | (Ok m, rest) => let '(ms, e) := read_all f rest in (m :: ms, e)
      | (Err e, _) => ([], Some e)
      end
  end.

Definition stream_messages (l : bytes) : list Value * option Error := read_all (S (length l)) l.

Lemma read_line_length l : length (read_line l).1 + length (read_line l).2 = length l.
Proof. induction l as [|b l IH]; simpl; [done|]. case_decide; [done|]. destruct (read_line l). simpl in *. lia. Qed.

Lemma read_headers_length fuel cl l r rest : read_headers fuel cl l = (Ok r, rest) → length rest < length l.
Proof.
  revert cl l. induction fuel as [|f IH]; intros cl l; cbn [read_headers]; [done|]. pose proof (read_line_length l) as Hl.
  destruct (read_line l) as [header rest'] eqn:E. simpl in Hl. case_decide as He; [done|].
  assert (0 < length header) as Hh by (destruct header; [done|simpl; lia]). case_decide; [intros [= -> ->]; lia|].
  destruct (strip_bytes (as_bytes "Content-Length:") header) as [value|]; [destruct (parse_usize (trim value)); [|done]|]; intros Hr%IH; lia.
Qed.

Lemma read_message_length l m rest : read_message l = (Ok m, rest) → length rest < length l.
Proof.
  unfold read_message. destruct (read_headers _ None l) as [[[n|]|e] rest'] eqn:E; [|done..]. apply read_headers_length in E.
  case_match; [done|]. destruct (from_slice (take n rest')); [|done]. intros [= <- <-]. rewrite length_drop. lia.
Qed.

Lemma read_all_fuel f1 f2 l : length l < f1 → length l < f2 → read_all f1 l = read_all f2 l.
Proof.
  revert f2 l. induction f1 as [|f1 IH]; intros [|f2] l H1 H2; try lia. cbn [read_all].
  destruct (read_message l) as [[m|e] rest] eqn:E; [|done]. apply read_message_length in E. by rewrite (IH f2) by lia.
Qed.

Lemma read_all_ends f l : length l < f → is_Some (read_all f l).2.
Proof.
  revert l. induction f as [|f IH]; intros l Hl; [lia|]. cbn [read_all].
  destruct (read_message l) as [[m|e] rest] eqn:E; [|by eexists]. apply read_message_length in E.
  destruct (read_all f rest) eqn:Er. specialize (IH rest ltac:(lia)). by rewrite Er in IH.
Qed.

(** One message at a time is the whole stream. *)
Lemma stream_messages_cons l m rest :
  read_message l = (Ok m, rest) → stream_messages l = (m :: (stream_messages rest).1, (stream_messages rest).2).
Proof.
  intros E. unfold stream_messages at 1. cbn [read_all]. rewrite E. apply read_message_length in E.
  rewrite (read_all_fuel _ (S (length rest))) by lia. unfold stream_messages. by destruct (read_all _ rest).
Qed.

(** A message whose text parses back, within the size a header can say. *)
Definition reads_back (m : Value) : Prop := ∃ payload, to_vec m = Ok payload ∧ from_slice payload = Ok m ∧ (Z.of_nat (length payload) < u64_mod)%Z.

Lemma reads_back_frame m rest : reads_back m → ∃ frame, encode_message m = Ok frame ∧ read_message (frame ++ rest) = (Ok m, rest).
Proof.
  intros (payload & Ht & Hf & Hn). eexists. split; [unfold encode_message; by rewrite Ht|].
  eapply read_encoded; [done..|]. unfold encode_message. by rewrite Ht.
Qed.

(** C27: (the stream round trip) a stream of encoded messages, of any number and
    one after the other, is read as exactly those messages in that order, and its
    end as a closed connection; what an adapter sends after them is read as if
    they had not been there. *)
Theorem stream_roundtrip ms frames rest :
  Forall reads_back ms → Forall2 (λ m frame, encode_message m = Ok frame) ms frames →
  stream_messages (concat frames ++ rest) = (ms ++ (stream_messages rest).1, (stream_messages rest).2) ∧
  stream_messages [] = ([], Some (error_closed "DAP connection")).
Proof.
  intros Hms Hf. split; [|done]. revert Hms. induction Hf as [|m frame ms frames He _ IH]; intros Hms; [simpl; by destruct (stream_messages rest)|].
  apply Forall_cons in Hms as [Hm Hms]. specialize (IH Hms). simpl. rewrite <- app_assoc.
  destruct (reads_back_frame m (concat frames ++ rest) Hm) as (frame' & He' & Hr).
  assert (frame' = frame) as -> by congruence.
  by rewrite (stream_messages_cons _ _ _ Hr), IH.
Qed.
End Stream.

(** ** The tasks

    A task is about to look at [close] ([TTop]), in its select ([TSelect]), over
    with the error it will report ([TEnding]), or past its [fail_pending].  The
    writer may also be in the middle of a [write_all], with the bytes of the frame
    that are still to be written ([WWriting]); it does not look at [close] there. *)
Inductive TaskPhase := TTop | TSelect | TEnding (e : Error) | TDone.
Inductive WriterPhase := WTop | WSelect | WWriting (rest : bytes) | WEnding (e : Error) | WDone.

(** What becomes of one [write] of a [write_all]: the adapter's end takes some
    bytes, or it fails.  As long as it does neither, the write waits. *)
Inductive Wrote := WChunk (n : nat) | WFailed (errno : option Z) (d : string).

(** [t_client] is the client with its calls; [t_input] what the adapter's stream
    still holds until it ends.  [t_taken] counts the frames the writer took out
    of the channel, and [t_bytes] is what it wrote.  History: [t_stream] is the
    whole stream, and [t_received] the messages the reader took from it. *)
Record DapTasks := MkTasks {
  t_client : DapSystem;
  t_writer : WriterPhase;
  t_reader : TaskPhase;
  t_input : bytes;
  t_taken : nat;
  t_bytes : bytes;
  t_stream : bytes;
  t_received : list Value;
}.

(** [DapClient::connect], once the stream is there. *)
Definition connect (stream : bytes) : DapTasks := MkTasks (MkDapSystem dap_init [] 0) WTop TTop stream 0 [] stream [].

Definition set_client (s : DapSystem) (t : DapTasks) : DapTasks :=
  MkTasks s (t_writer t) (t_reader t) (t_input t) (t_taken t) (t_bytes t) (t_stream t) (t_received t).
Definition set_writer (w : WriterPhase) (t : DapTasks) : DapTasks :=
  MkTasks (t_client t) w (t_reader t) (t_input t) (t_taken t) (t_bytes t) (t_stream t) (t_received t).
Definition set_reader (r : TaskPhase) (t : DapTasks) : DapTasks :=
  MkTasks (t_client t) (t_writer t) r (t_input t) (t_taken t) (t_bytes t) (t_stream t) (t_received t).

Definition is_closed (t : DapTasks) : bool := if d_close (dap (t_client t)) then true else false.

(** [fail_pending] begins: the first reason stays, and the table is about to be
    emptied. *)
Definition begin_failing (e : Error) (t : DapTasks) : DapTasks :=
  set_client (MkDapSystem (mark_closed e (dap (t_client t))) (sends (t_client t)) (S (failing (t_client t)))) t.

(** A move of the writer: [write_messages], and what its task does with the
    result.  [wrote] is how a write goes, [stop] whether the select takes the
    branch of [close] when both can be taken.  A write that takes no byte is an
    error of [write_all].  The channel ends only with the client, which closes it
    first. *)
Definition writer_move (wrote : Wrote) (stop : bool) (t : DapTasks) : option DapTasks :=
  match t_writer t with
  | WTop => Some (set_writer (if is_closed t then WEnding (error_closed "DAP writer") else WSelect) t)
  | WSelect =>
      match is_closed t && stop, d_outgoing (dap (t_client t)) !! t_taken t with
      | true, _ => Some (set_writer (WEnding (error_closed "DAP writer")) t)
      | false, Some frame =>
          Some (MkTasks (t_client t) (WWriting frame) (t_reader t) (t_input t) (S (t_taken t)) (t_bytes t) (t_stream t) (t_received t))
      | false, None => None
      end
  | WWriting [] => Some (set_writer WTop t)
  | WWriting rest =>
      Some (match wrote with
            | WChunk 0 => set_writer (WEnding (from_io None "write zero")) t
            | WChunk n =>
                MkTasks (t_client t) (WWriting (drop n rest)) (t_reader t) (t_input t) (t_taken t) (t_bytes t ++ take n rest) (t_stream t) (t_received t)
            | WFailed errno d => set_writer (WEnding (from_io errno d)) t
            end)
  | WEnding e => Some (set_writer WDone (begin_failing e t))
  | WDone => None
  end.

Section Reader.
Context `{WireExt}.

(** A move of the reader: [read_messages], and what its task does with the
    result. *)
Definition reader_move (stop : bool) (t : DapTasks) : option DapTasks :=
  match t_reader t with
  | TTop => Some (set_reader (if is_closed t then TEnding (error_closed "DAP reader") else TSelect) t)
  | TSelect =>
      if is_closed t && stop then Some (set_reader (TEnding (error_closed "DAP reader")) t)
      else
        Some (match read_message (t_input t) with
              | (Ok m, rest) =>
                  MkTasks (MkDapSystem (receive m (dap (t_client t))) (sends (t_client t)) (failing (t_client t))) (t_writer t) TTop rest
                    (t_taken t) (t_bytes t) (t_stream t) (t_received t ++ [m])
              | (Err e, rest) =>
                  MkTasks (t_client t) (t_writer t) (TEnding e) rest (t_taken t) (t_bytes t) (t_stream t) (t_received t)
              end)
  | TEnding e => Some (set_reader TDone (begin_failing e t))
  | TDone => None
  end.

(** The channel's receiver lives in [write_messages]; with it gone, nothing more is
    put in. *)
Definition writing (t : DapTasks) : bool := match t_writer t with WTop | WSelect | WWriting _ => true | WEnding _ | WDone => false end.

(** A move of the callers: of a [send], a dropped request, or the second half of
    a [fail_pending]. *)
Definition caller_move (s s' : DapSystem) : Prop :=
  dap_step s s' ∧ d_close (dap s') = d_close (dap s) ∧ d_events (dap s') = d_events (dap s) ∧
  d_outgoing (dap s) `prefix_of` d_outgoing (dap s') ∧
  ∀ k m, (k, Ok m) ∈ d_answered (dap s') → (k, Ok m) ∈ d_answered (dap s).

(** [close] and [Drop for DapInner] are [begin_failing] with this error. *)
Definition client_closed : Error := error_closed "DAP client".

Inductive task_step : DapTasks → DapTasks → Prop :=
| tk_writer wrote stop t t' : writer_move wrote stop t = Some t' → task_step t t'
| tk_reader stop t t' : reader_move stop t = Some t' → task_step t t'.

(** The moves of the tasks that the adapter has no part in: all but a write that
    is not over. *)
Inductive alone_step : DapTasks → DapTasks → Prop :=
| al_writer wrote stop t t' : (∀ b rest, t_writer t ≠ WWriting (b :: rest)) → writer_move wrote stop t = Some t' → alone_step t t'
| al_reader t t' : is_closed t = true → reader_move true t = Some t' → alone_step t t'.

Inductive tasks_step : DapTasks → DapTasks → Prop :=
| ts_task t t' : task_step t t' → tasks_step t t'
| ts_caller s' t :
    caller_move (t_client t) s' → (writing t = false → d_outgoing (dap s') = d_outgoing (dap (t_client t))) → tasks_step t (set_client s' t)
| ts_close t : tasks_step t (begin_failing client_closed t).

Definition tasks_reach (stream : bytes) (t : DapTasks) : Prop := rtc tasks_step (connect stream) t.
End Reader.

(** ** What holds of every state *)

Section TaskProofs.
Context `{WireExt}.

Definition reading (t : DapTasks) : bool := match t_reader t with TTop | TSelect => true | TEnding _ | TDone => false end.

(** What the writer has written: the frames it took, but for the rest of the one
    it is writing, or of one whose write failed. *)
Definition written_ok (t : DapTasks) : Prop :=
  let frames := concat (take (t_taken t) (d_outgoing (dap (t_client t)))) in
  match t_writer t with
  | WTop | WSelect => t_bytes t = frames
  | WWriting rest => t_bytes t ++ rest = frames
  | WEnding _ | WDone => t_bytes t `prefix_of` frames
  end.

Record tasks_inv (stream : bytes) (t : DapTasks) : Prop := {
  ti_reach : dap_reachable (t_client t);
  ti_stream : t_stream t = stream;
  ti_taken : t_taken t ≤ length (d_outgoing (dap (t_client t)));
  ti_written : written_ok t;
  ti_received : ∃ rest, (stream_messages stream).1 = t_received t ++ rest ∧ (reading t = true → rest = (stream_messages (t_input t)).1);
  ti_events : d_events (dap (t_client t)) = filter (λ m, get_str m "type" = Some "event") (t_received t);
  ti_writer : t_writer t = WDone → is_closed t = true;
  ti_reader : t_reader t = TDone → is_closed t = true;
}.

Lemma written_prefix t : written_ok t → t_bytes t `prefix_of` concat (take (t_taken t) (d_outgoing (dap (t_client t)))).
Proof. unfold written_ok. destruct (t_writer t); [by intros ->..|by intros <-; eexists|done|done]. Qed.

Lemma begin_failing_step e t :
  dap_reachable (t_client t) → dap_reachable (t_client (begin_failing e t)) ∧ is_closed (begin_failing e t) = true.
Proof.
  intros Hr. split; [|done]. destruct t as [[d ss f] w r i k b st rv]. by eapply dap_next, dap_mark.
Qed.

Lemma tasks_inv_failing e stream t : tasks_inv stream t → tasks_inv stream (begin_failing e t).
Proof. intros [H1 H2 H3 H4 H5 H6 H7 H8]. destruct (begin_failing_step e t H1) as [Hr Hc]. by split. Qed.

(** A task moves on. *)
Lemma tasks_inv_writer p stream t :
  tasks_inv stream t → written_ok (set_writer p t) → (p = WDone → is_closed t = true) → tasks_inv stream (set_writer p t).
Proof. intros [H1 H2 H3 H4 H5 H6 H7 H8] Hp Hc. by split. Qed.

Lemma tasks_inv_reader p stream t :
  tasks_inv stream t → (reading (set_reader p t) = true → reading t = true) → (p = TDone → is_closed t = true) → tasks_inv stream (set_reader p t).
Proof. intros [H1 H2 H3 H4 (rest & E & Hr) H6 H7 H8] Hp Hc. split; try done. exists rest. auto. Qed.

Lemma receive_events m d : d_events (receive m d) = d_events d ++ (if decide (get_str m "type" = Some "event") then [m] else []).
Proof. unfold receive. case_decide; [done|]. rewrite app_nil_r. destruct (get_u64 m "request_seq"); [|done]. by destruct (d_pending d !! _). Qed.

Lemma receive_keeps m d : d_outgoing (receive m d) = d_outgoing d ∧ d_close (receive m d) = d_close d.
Proof. unfold receive. case_decide; [done|]. destruct (get_u64 m "request_seq"); [|done]. by destruct (d_pending d !! _). Qed.

Lemma tasks_inv_read stop stream t t' : tasks_inv stream t → reader_move stop t = Some t' → tasks_inv stream t'.
Proof.
  intros Hi E. unfold reader_move in E. destruct (t_reader t) as [| |e|] eqn:Hp; [..|done].
  - injection E as <-. apply tasks_inv_reader; [done| |by destruct (is_closed t)]. intros _. unfold reading. by rewrite Hp.
  - destruct (is_closed t && stop); [injection E as <-; by apply tasks_inv_reader|]. injection E as <-.
    destruct Hi as [H1 H2 H3 H4 (rest & Er & Hr) H6 H7 H8]. rewrite (Hr ltac:(unfold reading; by rewrite Hp)) in Er.
    destruct (read_message (t_input t)) as [[m|e] rest'] eqn:Em; split; try done; simpl.
    + destruct (t_client t) as [d ss f]. by eapply dap_next, dap_receive.
    + by rewrite (proj1 (receive_keeps _ _)).
    + unfold written_ok in *. simpl in *. by rewrite (proj1 (receive_keeps _ _)).
    + eexists. split; [|done]. by rewrite Er, (stream_messages_cons _ _ _ Em), <- app_assoc.
    + rewrite receive_events, H6, filter_app, filter_cons, filter_nil. done.
    + intros Hw%H7. unfold is_closed in *. simpl. by rewrite (proj2 (receive_keeps _ _)).
    + eexists. split; [exact Er|done].
  - injection E as <-. apply tasks_inv_reader; [by apply tasks_inv_failing|done|]. intros _. by apply begin_failing_step, Hi.
Qed.

Lemma tasks_inv_write wrote stop stream t t' : tasks_inv stream t → writer_move wrote stop t = Some t' → tasks_inv stream t'.
Proof.
  intros Hi E. pose proof (ti_written _ _ Hi) as Hw. pose proof (written_prefix _ Hw) as Hpre. unfold writer_move in E.
  destruct (t_writer t) as [| |rest|e|] eqn:Hp; [..|done].
  - injection E as <-. unfold written_ok in Hw. rewrite Hp in Hw. apply tasks_inv_writer; [done|by destruct (is_closed t)|by destruct (is_closed t)].
  - destruct (is_closed t && stop); [injection E as <-; by apply tasks_inv_writer|].
    destruct (d_outgoing (dap (t_client t)) !! t_taken t) as [frame|] eqn:Hf; [|done]. injection E as <-.
    unfold written_ok in Hw. rewrite Hp in Hw. destruct Hi as [H1 H2 H3 _ H5 H6 H7 H8]. split; try done; simpl.
    + by apply lookup_lt_Some in Hf.
    + unfold written_ok. simpl. by rewrite (take_S_r _ _ _ Hf), concat_app, Hw; simpl; rewrite app_nil_r.
  - unfold written_ok in Hw. rewrite Hp in Hw. destruct rest as [|b rest].
    + injection E as <-. apply tasks_inv_writer; [done| |done]. unfold written_ok. simpl. by rewrite app_nil_r in Hw.
    + injection E as <-. destruct wrote as [[|n]|errno d]; [by apply tasks_inv_writer| |by apply tasks_inv_writer].
      destruct Hi as [H1 H2 H3 _ H5 H6 H7 H8]. split; try done. unfold written_ok. simpl. by rewrite <- Hw, <- app_assoc; simpl; rewrite take_drop.
  - injection E as <-. apply tasks_inv_writer; [by apply tasks_inv_failing|done|]. intros _. by apply begin_failing_step, Hi.
Qed.

Lemma tasks_inv_caller s' stream t : tasks_inv stream t → caller_move (t_client t) s' → tasks_inv stream (set_client s' t).
Proof.
  intros [H1 H2 H3 H4 H5 H6 H7 H8] (Hs & Hc & He & [more Ho] & _). split; try done; simpl.
  - by eapply dap_next.
  - rewrite Ho, length_app. lia.
  - unfold written_ok in *. simpl. by rewrite Ho, take_app_le by lia.
  - by rewrite He.
  - unfold is_closed in *. simpl. by rewrite Hc.
  - unfold is_closed in *. simpl. by rewrite Hc.
Qed.

Lemma tasks_reach_inv stream t : tasks_reach stream t → tasks_inv stream t.
Proof.
  apply (rtc_invariant tasks_step (tasks_inv stream)).
  - split; try done; simpl; [apply dap_start|by eexists].
  - intros t1 t2 Hs Hi. destruct Hs as [t1 t2 [wrote stop t1' t2' E|stop t1' t2' E]|s' t1 Hc _|t1].
    + by eapply tasks_inv_write.
    + by eapply tasks_inv_read.
    + by apply tasks_inv_caller.
    + by apply tasks_inv_failing.
Qed.

(** A closed client's tasks come to their end by themselves, but for a write. *)
Lemma writer_task_ends t :
  is_closed t = true → (∀ b rest, t_writer t ≠ WWriting (b :: rest)) →
  ∃ t', rtc alone_step t t' ∧ t_writer t' = WDone ∧ t_reader t' = t_reader t ∧ is_closed t' = true.
Proof.
  intros Hc Hno.
  assert (∀ e t0, is_closed t0 = true → t_writer t0 = WEnding e →
    ∃ t', rtc alone_step t0 t' ∧ t_writer t' = WDone ∧ t_reader t' = t_reader t0 ∧ is_closed t' = true) as He.
  { intros e t0 Hc0 Ht0. eexists. split; [apply rtc_once, (al_writer (WChunk 0) true); [by rewrite Ht0|unfold writer_move; by rewrite Ht0]|done]. }
  assert (∀ t0, is_closed t0 = true → t_writer t0 = WTop ∨ t_writer t0 = WSelect →
    ∃ t', rtc alone_step t0 t' ∧ t_writer t' = WDone ∧ t_reader t' = t_reader t0 ∧ is_closed t' = true) as Hl.
  { intros t0 Hc0 Ht0. destruct (He _ (set_writer (WEnding (error_closed "DAP writer")) t0) Hc0 eq_refl) as (t' & Hr & Hd & Hd' & Hc').
    exists t'. split_and!; [|done..]. eapply rtc_l; [apply (al_writer (WChunk 0) true); [by destruct Ht0 as [->| ->]|]|done].
    unfold writer_move. by destruct Ht0 as [->| ->]; rewrite Hc0. }
  destruct (t_writer t) as [| |[|b rest]|e|] eqn:Hp; [by apply Hl; auto..| |by destruct (Hno b rest)|by eapply He|by exists t].
  destruct (Hl (set_writer WTop t) Hc (or_introl eq_refl)) as (t' & Hr & Hd & Hd' & Hc'). exists t'. split_and!; [|done..].
  eapply rtc_l; [apply (al_writer (WChunk 0) true); [by rewrite Hp|unfold writer_move; by rewrite Hp]|done].
Qed.

Lemma reader_task_ends t : is_closed t = true → ∃ t', rtc alone_step t t' ∧ t_reader t' = TDone ∧ t_writer t' = t_writer t ∧ is_closed t' = true.
Proof.
  intros Hc.
  assert (∀ e t0, is_closed t0 = true → t_reader t0 = TEnding e →
    ∃ t', rtc alone_step t0 t' ∧ t_reader t' = TDone ∧ t_writer t' = t_writer t0 ∧ is_closed t' = true) as He.
  { intros e t0 Hc0 Ht0. eexists. split; [apply rtc_once, al_reader; [done|]; unfold reader_move; by rewrite Ht0|done]. }
  destruct (t_reader t) as [| |e|] eqn:Hp; [| |by eapply He|by exists t].
  all: destruct (He _ (set_reader (TEnding (error_closed "DAP reader")) t) Hc eq_refl) as (t' & Hr & Hd & Hd' & Hc');
    exists t'; split_and!; [|done..]; eapply rtc_l; [apply al_reader; [done|]; unfold reader_move; by rewrite Hp, Hc|done].
Qed.

Lemma alone_steps t t' : rtc alone_step t t' → rtc task_step t t'.
Proof.
  induction 1 as [|t t1 t2 Hs _ IH]; [done|]. eapply rtc_l; [|exact IH]. destruct Hs; [by eapply tk_writer | by eapply tk_reader].
Qed.

(** An adapter that takes the bytes of a write lets the writer go on. *)
Lemma write_ends t : is_closed t = true → ∃ t', rtc task_step t t' ∧ (∀ b rest, t_writer t' ≠ WWriting (b :: rest)) ∧ t_reader t' = t_reader t ∧ is_closed t' = true.
Proof.
  intros Hc. destruct (t_writer t) as [| |[|b rest]|e|] eqn:Hp; try (exists t; by rewrite Hp).
  eexists. split; [apply rtc_once, (tk_writer (WChunk (S (length rest))) true); unfold writer_move; by rewrite Hp|]. simpl. by rewrite drop_all.
Qed.

(** C26: (the debug connection) at every moment of a debug connection: its
    client is a client of the protocol of pending requests; the bytes written to
    the adapter are the frames taken from the requests, in the order in which they
    put them in, none twice or left out, but for the rest of the last one while it
    is being written or if its write failed; the messages taken from its stream
    are the front of the messages of the stream, and the events passed on are
    exactly the events among them; a task that ended has closed the client, so no
    request outlives its connection; and once the client is closed, whoever closed
    it, the reader comes to its end by moves the adapter has no part in, and so
    does the writer unless it is in the middle of a write, which it finishes first:
    an adapter that takes no bytes keeps it, and one that takes them lets both
    tasks end. *)
Theorem debug_connection stream t :
  tasks_reach stream t →
  dap_reachable (t_client t) ∧
  (let frames := concat (take (t_taken t) (d_outgoing (dap (t_client t)))) in
   match t_writer t with
   | WTop | WSelect => t_bytes t = frames
   | WWriting rest => t_bytes t ++ rest = frames
   | WEnding _ | WDone => t_bytes t `prefix_of` frames
   end) ∧
  t_received t `prefix_of` (stream_messages stream).1 ∧
  d_events (dap (t_client t)) = filter (λ m, get_str m "type" = Some "event") (t_received t) ∧
  (t_writer t = WDone ∨ t_reader t = TDone → is_closed t = true) ∧
  (is_closed t = true → ∃ t', rtc alone_step t t' ∧ t_reader t' = TDone ∧
    ((∀ b rest, t_writer t ≠ WWriting (b :: rest)) → t_writer t' = WDone)) ∧
  (is_closed t = true → ∃ t', rtc task_step t t' ∧ t_reader t' = TDone ∧ t_writer t' = WDone).
Proof.
  intros [H1 H2 H3 H4 (rest & Er & _) H6 H7 H8]%tasks_reach_inv. split_and!; [done|exact H4|by eexists|done|by intros [?|?]; auto|..]; intros Hc.
  2: { destruct (write_ends t Hc) as (t0 & Hr0 & Hno & _ & Hc0). destruct (reader_task_ends t0 Hc0) as (t1 & Hr1%alone_steps & Hd1 & Hw1 & Hc1).
       destruct (writer_task_ends t1 Hc1) as (t2 & Hr2%alone_steps & Hw2 & Hd2 & _); [by rewrite Hw1|].
       exists t2. split_and!; [by do 2 (etrans; [eassumption|])|congruence|done]. }
  destruct (reader_task_ends t Hc) as (t1 & Hr1 & Hd1 & Hw1 & Hc1).
  destruct (t_writer t) as [| |[|b rest']|e|] eqn:Hp.
  4: { exists t1. split_and!; [done..|]. intros Hno. by destruct (Hno b rest'). }
  all: destruct (writer_task_ends t1 Hc1) as (t2 & Hr2 & Hw2 & Hd2 & _); [by rewrite Hw1|]; exists t2; split_and!; [by etrans|congruence|done].
Qed.
End TaskProofs.

(** ** Witnesses *)

Lemma stream_roundtrip_witness :
  let frame := match @encode_message WireDemo.ext WireDemo.body with Ok f => f | Err _ => [] end in
  @stream_messages WireDemo.ext (frame ++ frame) = ([WireDemo.body; WireDemo.body], Some (error_closed "DAP connection")).
Proof.
  intros frame. assert (@encode_message WireDemo.ext WireDemo.body = Ok frame) as He by (vm_compute; reflexivity).
  assert (@reads_back WireDemo.ext WireDemo.body) as Hb.
  { eexists. split; [vm_compute; reflexivity|]. split; vm_compute; reflexivity. }
  destruct (@stream_roundtrip WireDemo.ext [WireDemo.body; WireDemo.body] [frame; frame] []) as [E _].
  - repeat constructor; exact Hb.
  - repeat constructor; exact He.
  - change (concat [frame; frame]) with (frame ++ frame ++ []) in E. rewrite !app_nil_r in E. exact E.
Defined.

(** An adapter that sends one event; the client is closed, and both tasks end. *)
Module DapTasksDemo.
Definition event : Value := WireDemo.body.
Definition stream : bytes := match @encode_message WireDemo.ext event with Ok f => f | Err _ => [] end.
Definition read_once : DapTasks := unwrap_or (@reader_move WireDemo.ext false (set_reader TSelect (connect stream))) (connect stream).
Lemma read_once_reach : @tasks_reach WireDemo.ext stream (begin_failing client_closed read_once).
Proof.
  eapply rtc_l; [apply ts_task, (tk_reader false); reflexivity|].
  eapply rtc_l; [apply ts_task, (tk_reader false _ read_once); vm_compute; reflexivity|].
  apply rtc_once, ts_close.
Qed.
End DapTasksDemo.

Lemma debug_connection_witness :
  t_received (begin_failing client_closed DapTasksDemo.read_once) = [WireDemo.body] ∧
  ∃ t', rtc (@alone_step WireDemo.ext) (begin_failing client_closed DapTasksDemo.read_once) t' ∧ t_reader t' = TDone ∧ t_writer t' = WDone.
Proof.
  split; [vm_compute; reflexivity|].
  destruct (@debug_connection WireDemo.ext DapTasksDemo.stream _ DapTasksDemo.read_once_reach) as (_ & _ & _ & _ & _ & Hend & _).
  destruct (Hend eq_refl) as (t' & Hr & Hd & Hw). exists t'. split; [exact Hr|]. split; [exact Hd|]. apply Hw. intros b rest. discriminate.
Defined.
