(* ===== verification/PyDap.v ===== *)
(** * The debug client in Python (src/py/src/python_dap.rs; src/src/dap.rs)

    Python threads send debug requests and wait for their responses, while
    connections come and go.  A connection is a [Dap] of the file before; a
    [DapRequest] is the number of its connection, its sequence number and its
    oneshot.  Each call of the client is here one step: the interleavings of its
    critical sections are those of [dap_step], and every connection of this file
    is shown to be a state that [dap_step] reaches. *)

From Stdlib Require Import ZArith.
From stdpp Require Import base gmap sets list strings pretty.
From Corelib.Floats Require Import SpecFloat.
From S2P Require Import Prelude Json Errors Wire Language Services Startup PyAdapter Dap.

(** ** Operations of [DapClient] and [DapRequest] *)

Definition fail_pending (e : Error) (d : Dap) : Dap := drain_pending (mark_closed e d).

(** [DapClient::close]. *)
Definition dap_close (d : Dap) : Dap := fail_pending (error_closed "DAP client") d.

Section Client.
Context `{WireExt}.

(** [DapClient::send], which gives the number and the oneshot of the request;
    [writing]: the writer task still takes frames. *)
Definition dap_send (request : Value) (writing : bool) (d : Dap) : Result (Z * nat) * Dap :=
  match d_close d with
  | Some e => (Err e, d)
  | None =>
      let '(numbered, next) := request_sequence request (d_next_seq d) in
      let d := set_next_seq next d in
      match numbered with
      | Err e => (Err e, d)
      | Ok (seq, request) =>
          match encode_message request with
          | Err e => (Err e, d)
          | Ok frame =>
              match d_pending d !! seq with
              | Some _ => (Err (error_new InvalidInput ("DAP request " +:+ pretty (Z.to_N seq) +:+ " is already pending")), d)
              | None =>
                  let k := d_oneshots d in
                  let d := insert_pending seq d in
                  if writing then (Ok (seq, k), push_outgoing frame d)
                  else (Err (error_closed "DAP connection"), drop_request seq k d)
              end
          end
      end
  end.
End Client.

Definition dap_answer (k : nat) (d : Dap) : option (Result Value) := snd <$> List.find (λ a, bool_decide (a.1 = k)) (d_answered d).

Definition timed_out_error (seq : Z) : Error :=
  error_caused_by (error_new TimedOut ("waiting for DAP request " +:+ pretty (Z.to_N seq))) (ForeignError OtherError "deadline has elapsed" None).

(** [DapRequest::wait]; [None]: it waits.  The timeout looks at the oneshot
    before the clock.  A oneshot that is neither answered nor in the table has
    lost its sender. *)
Definition dap_wait (seq : Z) (k : nat) (elapsed : bool) (d : Dap) : option (Result Value) :=
  match dap_answer k d with
  | Some r => Some r
  | None =>
      if decide (d_pending d !! seq = Some k) then (if elapsed then Some (Err (timed_out_error seq)) else None)
      else Some (Err (error_caused_by (error_closed "DAP connection") (ForeignError RecvError "channel closed" None)))
  end.

(** ** The Python classes *)

(** What a call raises: a plain [ValueError], an exception of Python's own, or
    an engine error as [py_error] converts it. *)
Inductive DapExc := ValueErr (m : string) | PyRaised (e : PyErr) | Converted (x : PyExc).

Definition timeout_duration (seconds : spec_float) : DapExc + Z :=
  match duration_from_secs_f64 seconds with
  | Some t => inr t
  | None =>
      let negative := match seconds with S754_finite s _ _ | S754_infinity s => s | _ => false end in
      inl (ValueErr ("invalid DAP timeout: cannot convert float seconds to Duration: " +:+
        (if negative then "value is negative" else "value is either too big or NaN")))
  end.

Record Held := MkHeld { h_conn : nat; h_seq : Z; h_oneshot : nat }.

(** [waiters] are the [PyDapRequest]s, emptied when they are awaited; [calls]
    the threads that wait; [results] what finished waits returned, before the
    conversion to Python. *)
Record PyDap := MkPyDap {
  conns : list Dap; current : option nat; waiters : list (option Held); calls : list Held; results : list (Held * Result Value) }.

Definition py_dap_new : PyDap := MkPyDap [] None [] [] [].

Definition with_conns (l : list Dap) (s : PyDap) : PyDap := MkPyDap l (current s) (waiters s) (calls s) (results s).
Definition update_conn (c : nat) (f : Dap → Dap) (s : PyDap) : PyDap :=
  match conns s !! c with Some d => with_conns (<[c := f d]> (conns s)) s | None => s end.
Definition with_current (c : option nat) (s : PyDap) : PyDap := MkPyDap (conns s) c (waiters s) (calls s) (results s).
Definition with_waiters (l : list (option Held)) (s : PyDap) : PyDap := MkPyDap (conns s) (current s) l (calls s) (results s).
Definition with_calls (l : list Held) (s : PyDap) : PyDap := MkPyDap (conns s) (current s) (waiters s) l (results s).

Definition close_conn (c : option nat) (s : PyDap) : PyDap := match c with Some c => update_conn c dap_close s | None => s end.

(** [connect], from the result of connecting the socket: the new client takes
    the place of the previous one, which is closed. *)
Definition py_connect (socket : Result unit) (s : PyDap) : (DapExc + unit) * PyDap :=
  match socket with
  | Err e => (inl (Converted (py_error e)), s)
  | Ok _ => (inr tt, close_conn (current s) (with_current (Some (length (conns s))) (with_conns (conns s ++ [dap_init]) s)))
  end.

(** [close], and [Drop for PyDapClient]. *)
Definition py_close (s : PyDap) : PyDap := with_current None (close_conn (current s) s).

Definition py_client (s : PyDap) : DapExc + nat :=
  match current s with Some c => inr c | None => inl (Converted (py_error (error_closed "DAP client (not connected)"))) end.

(** The end of a [DapRequest]. *)
Definition drop_held (h : Held) (s : PyDap) : PyDap := update_conn (h_conn h) (drop_request (h_seq h) (h_oneshot h)) s.

Section Python.
Context `{WireExt}.

(** [self.client()?.send(request)]. *)
Definition py_send (c : nat) (request : Value) (writing : bool) (s : PyDap) : (DapExc + Held) * PyDap :=
  match conns s !! c with
  | Some d =>
      let '(r, d') := dap_send request writing d in
      (match r with Ok (seq, k) => inr (MkHeld c seq k) | Err e => inl (Converted (py_error e)) end, with_conns (<[c := d']> (conns s)) s)
  | None => (inl (Converted (py_error (error_closed "DAP client (not connected)"))), s)
  end.

(** [send_request] up to its wait: the request is converted, the client looked
    up and the timeout checked before anything is sent. *)
Definition send_request (request : PyResult Value) (timeout : spec_float) (writing : bool) (s : PyDap) : (DapExc + unit) * PyDap :=
  match request with
  | Err e => (inl (PyRaised e), s)
  | Ok request =>
      match py_client s, timeout_duration timeout with
      | inl x, _ | _, inl x => (inl x, s)
      | inr c, inr _ =>
          match py_send c request writing s with
          | (inr h, s) => (inr tt, with_calls (calls s ++ [h]) s)
          | (inl x, s) => (inl x, s)
          end
      end
  end.

(** [send_request_async]: the number of the request, and its waiter, named by
    its place in [waiters]. *)
Definition send_request_async (request : PyResult Value) (writing : bool) (s : PyDap) : (DapExc + Z * nat) * PyDap :=
  match py_client s with
  | inl x => (inl x, s)
  | inr c =>
      match request with
      | Err e => (inl (PyRaised e), s)
      | Ok request =>
          match py_send c request writing s with
          | (inr h, s) => (inr (h_seq h, length (waiters s)), with_waiters (waiters s ++ [Some h]) s)
          | (inl x, s) => (inl x, s)
          end
      end
  end.
End Python.

(** [PyDapRequest::wait] up to its wait: the request is taken out of the waiter
    first, so a bad timeout gives it up. *)
Definition py_wait (i : nat) (timeout : spec_float) (s : PyDap) : (DapExc + unit) * PyDap :=
  match waiters s !! i with
  | Some (Some h) =>
      let s := with_waiters (<[i := None]> (waiters s)) s in
      match timeout_duration timeout with
      | inl x => (inl x, drop_held h s)
      | inr _ => (inr tt, with_calls (calls s ++ [h]) s)
      end
  | _ => (inl (ValueErr "DAP request was already awaited"), s)
  end.

Definition wait_for_response (req_seq : Z) (i : nat) (timeout : spec_float) (s : PyDap) : (DapExc + unit) * PyDap :=
  if decide ((h_seq <$> mjoin (waiters s !! i)) = Some req_seq) then py_wait i timeout s
  else (inl (ValueErr "DAP request sequence does not match waiter"), s).

(** The end of a wait: the request is dropped. *)
Definition finish_wait (i : nat) (h : Held) (r : Result Value) (s : PyDap) : PyDap :=
  let s := drop_held h s in
  MkPyDap (conns s) (current s) (waiters s) (delete i (calls s)) (results s ++ [(h, r)]).

(** ** Steps: calls of Python threads, ends of waits, and the connections' own *)

Inductive py_dap_step `{WireExt} : PyDap → PyDap → Prop :=
| pd_connect s socket : py_dap_step s (py_connect socket s).2
| pd_close s : py_dap_step s (py_close s)
| pd_send s request timeout writing : py_dap_step s (send_request request timeout writing s).2
| pd_send_async s request writing : py_dap_step s (send_request_async request writing s).2
| pd_wait s i timeout : py_dap_step s (py_wait i timeout s).2
| pd_wait_for s seq i timeout : py_dap_step s (wait_for_response seq i timeout s).2
| pd_finish s i h d elapsed r :
    calls s !! i = Some h → conns s !! h_conn h = Some d → dap_wait (h_seq h) (h_oneshot h) elapsed d = Some r →
    py_dap_step s (finish_wait i h r s)
| pd_drop_waiter s i h : waiters s !! i = Some (Some h) → py_dap_step s (drop_held h (with_waiters (<[i := None]> (waiters s)) s))
| pd_message s c message : py_dap_step s (update_conn c (receive message) s)
| pd_fail s c e : py_dap_step s (update_conn c (fail_pending e) s).

Inductive py_dap_reach `{WireExt} : PyDap → Prop :=
| pd_start : py_dap_reach py_dap_new
| pd_next s s' : py_dap_reach s → py_dap_step s s' → py_dap_reach s'.

(** ** One connection *)

(** What may answer request [seq] of a connection: a response to it, or the
    reason the connection is closed. *)
Definition explains (seq : Z) (d : Dap) (r : Result Value) : Prop :=
  match r with Ok m => get_u64 m "request_seq" = Some seq | Err e => d_close d = Some e end.

(** A request that somebody holds is in the table or answered. *)
Record held_ok (seq : Z) (k : nat) (d : Dap) : Prop := {
  held_range : k < d_oneshots d;
  held_open : k ∉ d_dropped d;
  held_where : d_pending d !! seq = Some k ∨ k ∈ (d_answered d).*1;
  held_explained : ∀ r, (k, r) ∈ d_answered d → explains seq d r;
}.

Section Connection.
Context `{WireExt}.

Record conn_ok (d : Dap) : Prop := {
  conn_reachable : dap_reachable (MkDapSystem d [] 0);
  conn_dropped : ∀ k, k ∈ d_dropped d → k < d_oneshots d;
}.

(** [advances P d d']: the connection goes from [d] to [d'] by steps of the
    client, keeps its reason for being closed, and does right by the requests
    whose oneshots satisfy [P]. *)
Record advances (P : nat → Prop) (d d' : Dap) : Prop := {
  adv_ok : conn_ok d';
  adv_oneshots : d_oneshots d ≤ d_oneshots d';
  adv_close : ∀ e, d_close d = Some e → d_close d' = Some e;
  adv_held : ∀ seq k, P k → held_ok seq k d → held_ok seq k d';
}.

Lemma conn_ok_dap d : conn_ok d → dap_ok (MkDapSystem d [] 0).
Proof. intros [Hr _]. by apply dap_reachable_ok. Qed.

Lemma conn_closed_empty d : conn_ok d → is_Some (d_close d) → d_pending d = ∅.
Proof.
  intros Hd%conn_ok_dap Hc. apply map_eq. intros seq. rewrite lookup_empty. destruct (d_pending d !! seq) as [k|] eqn:E; [|done].
  destruct (ok_closed _ Hd Hc eq_refl seq k E) as [fr []%elem_of_nil].
Qed.

Lemma receive_advances P m d : conn_ok d → advances P d (receive m d).
Proof.
  intros Hd. pose proof (conn_ok_dap d Hd) as Hok. split.
  - split; [eapply dap_next; [apply Hd | apply dap_receive]|]. destruct Hd as [_ Hd]. unfold receive. by repeat case_match.
  - unfold receive. by repeat case_match.
  - unfold receive. by repeat case_match.
  - intros seq k _ [Hr Ho Hw He]. unfold receive. case_decide; [by split|].
    destruct (get_u64 m "request_seq") as [seq0|] eqn:Es; [|by split]. destruct (d_pending d !! seq0) as [k0|] eqn:E0; [|by split].
    destruct (ok_range _ Hok seq0 k0 E0) as [_ Hna]. simpl in Hna.
    assert (k = k0 → seq = seq0) as Heq.
    { intros ->. destruct Hw as [Hw|Hw]; [|done]. by apply (ok_unique _ Hok seq seq0 k0). }
    split; simpl; [done|done| |].
    + rewrite fmap_app, elem_of_app. destruct (decide (k = k0)) as [->|Hne]; [right; right; by left|].
      destruct Hw as [Hw|Hw]; [left|auto]. rewrite lookup_delete_ne; [done|]. intros ->. congruence.
    + intros r [Hin|[= -> ->]%list_elem_of_singleton]%elem_of_app; [by apply He|]. by rewrite Heq.
Qed.

Lemma fail_advances P e d : conn_ok d → advances P d (fail_pending e d).
Proof.
  intros Hd. unfold fail_pending, drain_pending, mark_closed. simpl. split; simpl.
  - split; [|apply Hd]. eapply dap_next; [eapply dap_next; [apply Hd | apply (dap_mark d [] 0 e)]|].
    apply (dap_drain (mark_closed e d) [] 0).
  - done.
  - by intros e' ->.
  - intros seq k _ [Hr Ho Hw He]. set (e' := unwrap_or (d_close d) e).
    assert (∀ k', k' ∈ (map (λ k, (k, Err e' : Result Value)) (map_to_list (d_pending d)).*2).*1 ↔ k' ∈ (map_to_list (d_pending d)).*2) as Hin.
    { intros k'. rewrite list_elem_of_fmap. split.
      - intros ([? ?] & -> & (k1 & [= -> ->] & Hk)%list_elem_of_fmap). done.
      - intros Hk. exists (k', Err e'). split; [done|]. apply list_elem_of_fmap. eauto. }
    split; simpl; [done|done| |].
    + right. rewrite fmap_app, elem_of_app, Hin. destruct Hw as [Hw|Hw]; [right|by left].
      apply list_elem_of_fmap. exists (seq, k). split; [done|]. by apply elem_of_map_to_list.
    + intros r [Hr'|(k1 & [= -> ->] & _)%list_elem_of_fmap]%elem_of_app; [|done].
      specialize (He r Hr'). destruct r; [done|]. simpl in *. unfold e'. by rewrite He.
Qed.

Lemma drop_advances seq0 k0 d : conn_ok d → k0 < d_oneshots d → advances (λ k, k ≠ k0) d (drop_request seq0 k0 d).
Proof.
  intros Hd Hk0. split; [split| | |]; try done.
  - eapply dap_next; [apply Hd | apply (dap_drop d [] 0)]; [done|]. by intros fr ?%elem_of_nil.
  - simpl. intros k [->%elem_of_singleton|?]%elem_of_union; [done | by apply Hd].
  - intros seq k Hne [Hr Ho Hw He]. split; [done | simpl; set_solver | | exact He].
    destruct Hw as [Hw|Hw]; [left | by right]. apply drop_request_kept; [done | set_solver].
Qed.

Lemma number_ok next request r d : conn_ok d → request_sequence request (d_next_seq d) = (r, next) → conn_ok (set_next_seq next d).
Proof. intros Hd E. split; [eapply dap_next; [apply Hd | by eapply dap_number_fails] | apply Hd]. Qed.

(** The request that was put in the table, before it is handed to the writer. *)
Lemma insert_steps request request' seq next frame d :
  conn_ok d → d_close d = None → request_sequence request (d_next_seq d) = (Ok (seq, request'), next) → encode_message request' = Ok frame →
  d_pending d !! seq = None →
  dap_reachable (MkDapSystem (insert_pending seq (set_next_seq next d)) [Cleared seq (d_oneshots d) frame] 0).
Proof.
  intros Hd Hc En Ef Hp. eapply dap_next; [eapply dap_next; [eapply dap_next; [apply Hd | by eapply (dap_number d [] 0)] |]|].
  - by apply (dap_insert (set_next_seq next d) [Numbered seq frame] 0 0).
  - by apply (dap_check_open _ [Inserted seq (d_oneshots d) frame] 0 0).
Qed.

Lemma send_advances P request writing d r d' :
  conn_ok d → dap_send request writing d = (r, d') →
  advances P d d' ∧ (∀ seq k, r = Ok (seq, k) → held_ok seq k d' ∧ k = d_oneshots d).
Proof.
  intros Hd. pose proof (conn_ok_dap d Hd) as Hok. unfold dap_send.
  destruct (d_close d) as [e|] eqn:Hc; [intros [= <- <-]; by split; [split; eauto|]|].
  destruct (request_sequence request (d_next_seq d)) as [n next] eqn:En.
  assert (advances P d (set_next_seq next d)) as Hnum.
  { split; [by eapply number_ok | done | done |]. intros seq k _ [? ? ? ?]. by split. }
  destruct n as [[seq request']|e]; [|by intros [= <- <-]]. destruct (encode_message request') as [frame|e] eqn:Ef; [|by intros [= <- <-]].
  cbn [set_next_seq d_pending]. destruct (d_pending d !! seq) as [k|] eqn:Ep; [by intros [= <- <-]|].
  pose proof (insert_steps request request' seq next frame d Hd Hc En Ef Ep) as Hins.
  assert (d_oneshots d ∉ d_dropped d) as Hfresh by (intros ?%Hd; lia).
  assert (d_oneshots d ∉ (d_answered d).*1) as Hna by (intros ?%(ok_answered _ Hok); simpl in *; lia).
  assert (∀ seq' k' frs, held_ok seq' k' d → held_ok seq' k' (push_outgoing frs (insert_pending seq (set_next_seq next d))) ∧
     held_ok seq' k' (insert_pending seq (set_next_seq next d))) as Hkeep.
  { intros seq' k' frs [Hr Ho Hw He].
    assert (<[seq := d_oneshots d]> (d_pending d) !! seq' = Some k' ∨ k' ∈ (d_answered d).*1) as Hw'.
    { destruct Hw as [Hw|Hw]; [left | by right]. rewrite lookup_insert_ne; [done|]. intros ->. congruence. }
    split; split; simpl; auto; lia. }
  destruct writing; intros [= <- <-].
  - split; [split|].
    + split; [by eapply dap_next; [exact Hins | by apply (dap_push _ [Cleared seq (d_oneshots d) frame] 0 0 seq (d_oneshots d))]|].
      simpl. intros k ?%Hd. lia.
    + simpl. lia.
    + simpl. congruence.
    + intros seq' k' _ Hh. by apply Hkeep.
    + intros ? ? [= <- <-]. split; [|done]. split; simpl; [lia|done|left; by rewrite lookup_insert_eq|].
      intros r Hr. destruct Hna. apply list_elem_of_fmap. by exists (d_oneshots d, r).
  - split; [split|done].
    + split; [by eapply dap_next; [exact Hins | by apply (dap_push_fails _ [Cleared seq (d_oneshots d) frame] 0 0 seq (d_oneshots d) frame)]|].
      simpl. intros k [->%elem_of_singleton|?%Hd]%elem_of_union; lia.
    + simpl. lia.
    + simpl. congruence.
    + intros seq' k' _ Hh. destruct (Hkeep seq' k' [] Hh) as [_ [Hr Ho Hw He]].
      assert (k' ≠ d_oneshots d) as Hne by (destruct Hh; lia).
      split; [done | simpl in *; set_solver | | exact He].
      destruct Hw as [Hw|Hw]; [left | by right]. apply drop_request_kept; [done | simpl in *; set_solver].
Qed.
End Connection.

(** ** All connections *)

(** The requests that are not yet awaited and those being awaited. *)
Definition held (s : PyDap) : list Held := omap id (waiters s) ++ calls s.

Definition key (h : Held) : nat * nat := (h_conn h, h_oneshot h).

(** The requests somebody holds or has had an answer to. *)
Definition keys (s : PyDap) : list (nat * nat) := key <$> held s ++ (results s).*1.

Section Invariant.
Context `{WireExt}.

Record py_dap_ok (s : PyDap) : Prop := {
  pd_conns : ∀ c d, conns s !! c = Some d → conn_ok d;
  pd_valid : ∀ c, current s = Some c → is_Some (conns s !! c);
  pd_current : ∀ c d, conns s !! c = Some d → current s ≠ Some c → is_Some (d_close d);
  pd_held : ∀ h, h ∈ held s → ∃ d, conns s !! h_conn h = Some d ∧ held_ok (h_seq h) (h_oneshot h) d;
  pd_results : ∀ h r, (h, r) ∈ results s → ∃ d, conns s !! h_conn h = Some d ∧ h_oneshot h < d_oneshots d ∧
    (r = Err (timed_out_error (h_seq h)) ∨ explains (h_seq h) d r);
  pd_once : NoDup (keys s);
}.

Lemma explains_advances P seq d d' r : advances P d d' → explains seq d r → explains seq d' r.
Proof. intros Ha. destruct r; [done|]. apply (adv_close _ _ _ Ha). Qed.

(** A step of one connection. *)
Lemma ok_conn P s c d d' :
  py_dap_ok s → conns s !! c = Some d → advances P d d' → (∀ h, h ∈ held s → h_conn h = c → P (h_oneshot h)) →
  py_dap_ok (with_conns (<[c := d']> (conns s)) s).
Proof.
  intros [H1 H2 H3 H4 H5 H6] Hc Ha HP.
  assert (∀ c0 d0 (Q : Dap → Prop), conns s !! c0 = Some d0 → (c0 = c → Q d') → Q d0 →
    ∃ d1, <[c := d']> (conns s) !! c0 = Some d1 ∧ Q d1) as Hlook.
  { intros c0 d0 Q E Hq Hq0. destruct (decide (c0 = c)) as [->|].
    - exists d'. split; [apply list_lookup_insert_eq; by eapply lookup_lt_Some | auto].
    - exists d0. by rewrite list_lookup_insert_ne. }
  split; simpl; [| | | | |done].
  - intros c0 d0 [(<- & -> & _)|[_ E]]%list_lookup_insert_Some; [apply Ha | eauto].
  - intros c0 Hcur. destruct (H2 c0 Hcur) as [d0 E]. edestruct (Hlook c0 d0 (λ _, True)) as (d1 & -> & _); auto.
  - intros c0 d0 [(<- & -> & _)|[_ E]]%list_lookup_insert_Some Hne; [|eauto].
    destruct (H3 c d Hc Hne) as [e He]. exists e. by eapply adv_close.
  - intros h Hh. destruct (H4 h Hh) as (d0 & E & Hok). eapply Hlook; [done| |done].
    intros Eq. assert (d0 = d) as -> by congruence. eapply adv_held; eauto.
  - intros h r Hr. destruct (H5 h r Hr) as (d0 & E & Hlt & Hex).
    eapply (Hlook _ _ (λ d, h_oneshot h < d_oneshots d ∧ (r = Err (timed_out_error (h_seq h)) ∨ explains (h_seq h) d r))); [done| |done].
    intros Eq. assert (d0 = d) as -> by congruence. split; [pose proof (adv_oneshots _ _ _ Ha); lia|].
    destruct Hex; [by left | right; by eapply explains_advances].
Qed.

(** Requests that are given up, or change hands. *)
Lemma ok_fewer l s s' :
  conns s' = conns s → current s' = current s → results s' = results s → held s ≡ₚ l ++ held s' → py_dap_ok s → py_dap_ok s'.
Proof.
  intros Ec Eu Er Hp [H1 H2 H3 H4 H5 H6]. split; rewrite ?Ec, ?Eu, ?Er; auto.
  - intros h Hh. apply H4. rewrite Hp. apply elem_of_app. by right.
  - revert H6. unfold keys. rewrite Hp, Er, <- app_assoc, fmap_app. by intros (_ & _ & ?)%NoDup_app.
Qed.

(** A new request. *)
Lemma ok_hold h d s s' :
  conns s' = conns s → current s' = current s → results s' = results s → held s' ≡ₚ h :: held s →
  conns s !! h_conn h = Some d → held_ok (h_seq h) (h_oneshot h) d → key h ∉ keys s → py_dap_ok s → py_dap_ok s'.
Proof.
  intros Ec Eu Er Hp Hd Hh Hk [H1 H2 H3 H4 H5 H6]. split; rewrite ?Ec, ?Eu, ?Er; auto.
  - intros h' Hh'. rewrite Hp in Hh'. apply elem_of_cons in Hh' as [->|?]; eauto.
  - unfold keys. rewrite Hp, Er. simpl. by constructor.
Qed.

(** The end of a request: nobody else holds it. *)
Lemma ok_drop_held h s :
  py_dap_ok s → (∃ d, conns s !! h_conn h = Some d ∧ h_oneshot h < d_oneshots d) → key h ∉ keys s → py_dap_ok (drop_held h s).
Proof.
  intros Hok (d & Hd & Hlt) Hk. unfold drop_held, update_conn. rewrite Hd.
  eapply ok_conn; [done|done|apply drop_advances; [by eapply pd_conns | done]|].
  intros h' Hh' Hc Eq. apply Hk. unfold keys, key. rewrite <- Hc, <- Eq. apply list_elem_of_fmap. exists h'. split; [done|].
  apply elem_of_app. by left.
Qed.

(** Taking a request out of the hands of its holder. *)
Lemma ok_take h s s' :
  conns s' = conns s → current s' = current s → results s' = results s → held s ≡ₚ h :: held s' → py_dap_ok s →
  py_dap_ok s' ∧ key h ∉ keys s' ∧ ∃ d, conns s' !! h_conn h = Some d ∧ held_ok (h_seq h) (h_oneshot h) d.
Proof.
  intros Ec Eu Er Hp Hok. split_and!; [by eapply (ok_fewer [h])| |].
  - pose proof (pd_once _ Hok) as Hn. unfold keys in *. rewrite Er. rewrite Hp in Hn. by apply NoDup_cons in Hn as [? _].
  - rewrite Ec. apply (pd_held _ Hok). rewrite Hp. by left.
Qed.

Lemma ok_result h r d s :
  py_dap_ok s → key h ∉ keys s → conns s !! h_conn h = Some d → h_oneshot h < d_oneshots d →
  r = Err (timed_out_error (h_seq h)) ∨ explains (h_seq h) d r →
  py_dap_ok (MkPyDap (conns s) (current s) (waiters s) (calls s) (results s ++ [(h, r)])).
Proof.
  intros [H1 H2 H3 H4 H5 H6] Hk Hd Hlt Hr. split; simpl; auto.
  - intros h' r' [?|[= -> ->]%list_elem_of_singleton]%elem_of_app; eauto.
  - unfold keys in *. simpl. rewrite (fmap_app fst). simpl. rewrite app_assoc, fmap_app. simpl.
    rewrite Permutation_app_comm. simpl. by constructor.
Qed.

Lemma ok_update_conn c f s :
  (∀ d, conn_ok d → advances (λ _, True) d (f d)) → py_dap_ok s → py_dap_ok (update_conn c f s).
Proof.
  intros Hf Hok. unfold update_conn. destruct (conns s !! c) as [d|] eqn:E; [|done].
  by eapply (ok_conn (λ _, True)); [done|done|apply Hf; by eapply pd_conns|].
Qed.

Lemma conns_update_length c f s : length (conns (update_conn c f s)) = length (conns s).
Proof. unfold update_conn. case_match; [apply length_insert | done]. Qed.

Lemma current_update_conn c f s : current (update_conn c f s) = current s.
Proof. unfold update_conn. by case_match. Qed.

Lemma ok_close s : py_dap_ok s → py_dap_ok (py_close s).
Proof.
  intros Hok. assert (py_dap_ok (close_conn (current s) s)) as Hok'.
  { destruct (current s) as [c|]; [|done]. apply ok_update_conn; [|done]. intros d. apply fail_advances. }
  destruct Hok' as [H1 H2 H3 H4 H5 H6]. split; auto; [done|]. intros c d E _.
  change (conns (py_close s)) with (conns (close_conn (current s) s)) in E.
  destruct (decide (current s = Some c)) as [Ec|Hne].
  - rewrite Ec in E. simpl in E. unfold update_conn in E. destruct (conns s !! c) as [d0|] eqn:E0; [|congruence].
    simpl in E. apply list_lookup_insert_Some in E as [(_ & <- & _)|[? _]]; [|done]. by eexists.
  - apply (H3 c d E). assert (∀ o, current (close_conn o s) = current s) as ->; [|done].
    intros [c'|]; [apply current_update_conn | done].
Qed.

Lemma connect_close s :
  (∀ c, current s = Some c → is_Some (conns s !! c)) →
  (py_connect (Ok tt) s).2 = with_current (Some (length (conns s))) (with_conns (conns (py_close s) ++ [dap_init]) (py_close s)).
Proof.
  intros Hv. unfold py_connect, py_close. simpl. unfold close_conn. destruct (current s) as [c|]; [|done].
  destruct (Hv c eq_refl) as [d Hd]. unfold update_conn. simpl. rewrite lookup_app_l by (by eapply lookup_lt_Some). rewrite Hd.
  unfold with_conns, with_current. simpl. by rewrite insert_app_l by (by eapply lookup_lt_Some).
Qed.

Lemma ok_connect socket s : py_dap_ok s → py_dap_ok (py_connect socket s).2.
Proof.
  intros Hok. destruct socket as [[]|e]; [|done]. rewrite connect_close by apply (pd_valid _ Hok).
  assert (length (conns s) = length (conns (py_close s))) as ->.
  { unfold py_close, close_conn. destruct (current s); [symmetry; apply conns_update_length | done]. }
  destruct (ok_close s Hok) as [H1 H2 H3 H4 H5 H6]. assert (current (py_close s) = None) as Hn by done.
  generalize dependent (py_close s). intros s1 H1 H2 H3 H4 H5 H6 Hn.
  assert (∀ c d, conns s1 !! c = Some d → (conns s1 ++ [dap_init]) !! c = Some d) as Hold by (intros c d E; by apply lookup_app_l_Some).
  split; simpl; [| | | | |done].
  - intros c d [?|[_ E]]%lookup_app_Some; [eauto|]. destruct (c - _); [|done]. injection E as <-.
    split; [constructor | by intros k ?%elem_of_empty].
  - intros c [= <-]. rewrite lookup_app_r by done. by rewrite Nat.sub_diag.
  - intros c d [E|[Hge E]]%lookup_app_Some Hne; [by apply (H3 c d E); rewrite Hn|]. destruct Hne. f_equal.
    destruct (c - length (conns s1)) eqn:Ed; [lia | done].
  - intros h Hh. destruct (H4 h Hh) as (d & E & ?). eauto.
  - intros h r Hr. destruct (H5 h r Hr) as (d & E & ?). eauto.
Qed.

Lemma ok_py_send c request writing s x s' :
  py_dap_ok s → py_send c request writing s = (x, s') →
  py_dap_ok s' ∧ held s' = held s ∧ waiters s' = waiters s ∧ calls s' = calls s ∧
  (∀ h, x = inr h → key h ∉ keys s' ∧ ∃ d, conns s' !! h_conn h = Some d ∧ held_ok (h_seq h) (h_oneshot h) d).
Proof.
  intros Hok. unfold py_send. destruct (conns s !! c) as [d|] eqn:Ed; [|by intros [= <- <-]].
  destruct (dap_send request writing d) as [r d'] eqn:Es. intros [= <- <-].
  destruct (send_advances (λ _, True) request writing d r d' (pd_conns _ Hok _ _ Ed) Es) as [Ha Hnew].
  split_and!; [by eapply (ok_conn (λ _, True))|done|done|done|]. intros h Hh.
  destruct r as [[seq k]|e]; [|done]. injection Hh as <-. destruct (Hnew seq k eq_refl) as [Hh Hk]. simpl. split.
  - intros (h' & Hk' & Hin)%list_elem_of_fmap. unfold key in Hk'. simpl in Hk'. injection Hk' as Ec Ek.
    assert (h_oneshot h' < d_oneshots d); [|lia].
    apply elem_of_app in Hin as [Hin|([h1 r1] & -> & Hin)%list_elem_of_fmap].
    + destruct (pd_held _ Hok h' Hin) as (d0 & E0 & [? _ _ _]). congruence.
    + destruct (pd_results _ Hok h1 r1 Hin) as (d0 & E0 & ? & _). simpl in *. congruence.
  - exists d'. split; [apply list_lookup_insert_eq; by eapply lookup_lt_Some | done].
Qed.

Lemma ok_py_wait i timeout s : py_dap_ok s → py_dap_ok (py_wait i timeout s).2.
Proof.
  intros Hok. unfold py_wait. destruct (waiters s !! i) as [[h|]|] eqn:Ew; [|done|done].
  set (s1 := with_waiters (<[i := None]> (waiters s)) s).
  assert (held s ≡ₚ h :: held s1) as Hp.
  { unfold held. simpl. change (h :: ?l ++ ?r) with ((h :: l) ++ r). f_equiv. clear -Ew. revert i Ew.
    induction (waiters s) as [|o l IH]; intros [|i] Ew; simplify_eq/=; [done|]. destruct o; simpl; [|auto].
    rewrite (IH i Ew). apply Permutation_swap. }
  destruct (ok_take h s s1 eq_refl eq_refl eq_refl Hp Hok) as (Hok1 & Hk & d & Hd & Hh).
  destruct (timeout_duration timeout); simpl.
  - apply ok_drop_held; [done| |done]. exists d. by split; [|destruct Hh].
  - eapply (ok_hold h d s1); try done. unfold held. simpl. rewrite app_assoc. apply Permutation_app_comm.
Qed.

Lemma dap_answer_elem k d r : dap_answer k d = Some r → (k, r) ∈ d_answered d.
Proof.
  unfold dap_answer. destruct (List.find _ _) as [[k' r']|] eqn:E; [|done]. intros [= <-].
  apply find_some in E as [Hin Hk%bool_decide_eq_true]. simpl in Hk. subst k'. by apply list_elem_of_In.
Qed.

Lemma dap_answer_some k d : k ∈ (d_answered d).*1 → is_Some (dap_answer k d).
Proof.
  intros ([k' r] & -> & Hin)%list_elem_of_fmap. unfold dap_answer. destruct (List.find _ _) as [a|] eqn:E; [by eexists|].
  pose proof (find_none _ _ E (k', r)) as Hn. simpl in Hn. rewrite bool_decide_true in Hn by done.
  apply list_elem_of_In in Hin. by specialize (Hn Hin).
Qed.

(** A wait on a request that is held: its sender is never lost. *)
Lemma held_wait seq k elapsed d r :
  held_ok seq k d → dap_wait seq k elapsed d = Some r → r = Err (timed_out_error seq) ∨ explains seq d r.
Proof.
  intros [Hr Ho Hw He]. unfold dap_wait. destruct (dap_answer k d) as [r'|] eqn:Ea.
  - intros [= <-]. right. by apply He, dap_answer_elem.
  - destruct Hw as [Hw|Hw]; [|apply dap_answer_some in Hw; rewrite Ea in Hw; by apply is_Some_None in Hw].
    rewrite decide_True by done. destruct elapsed; [|done]. intros [= <-]. by left.
Qed.

Lemma finish_wait_drop i h r s :
  let s1 := drop_held h (with_calls (delete i (calls s)) s) in
  finish_wait i h r s = MkPyDap (conns s1) (current s1) (waiters s1) (calls s1) (results s1 ++ [(h, r)]).
Proof. unfold finish_wait, drop_held, update_conn. simpl. by case_match. Qed.

Lemma ok_finish i h d elapsed r s :
  py_dap_ok s → calls s !! i = Some h → conns s !! h_conn h = Some d → dap_wait (h_seq h) (h_oneshot h) elapsed d = Some r →
  py_dap_ok (finish_wait i h r s).
Proof.
  intros Hok Hi Hd Hr. set (s1 := with_calls (delete i (calls s)) s).
  destruct (ok_take h s s1 eq_refl eq_refl eq_refl) as (Hok1 & Hk & d0 & Hd0 & Hh); [|done|].
  { unfold held. simpl. rewrite (delete_Permutation _ _ _ Hi) at 1. by rewrite <- Permutation_middle. }
  simpl in Hd0. assert (d0 = d) as -> by congruence.
  pose proof (ok_drop_held h s1 Hok1 (ex_intro _ d (conj Hd (held_range _ _ _ Hh))) Hk) as Hok2.
  rewrite finish_wait_drop. fold s1. cbv zeta.
  assert (conns (drop_held h s1) !! h_conn h = Some (drop_request (h_seq h) (h_oneshot h) d)) as Hd'.
  { unfold drop_held, update_conn. simpl. rewrite Hd. apply list_lookup_insert_eq. by eapply lookup_lt_Some. }
  eapply ok_result; [done| |exact Hd'|apply Hh|].
  - unfold drop_held, update_conn. simpl. by rewrite Hd.
  - destruct (held_wait _ _ _ _ _ Hh Hr); [by left | right; by destruct r].
Qed.

Lemma ok_py_dap_step s s' : py_dap_step s s' → py_dap_ok s → py_dap_ok s'.
Proof.
  intros Hs Hok. destruct Hs as [s socket|s|s request timeout writing|s request writing|s i timeout|s seq i timeout|s i h d elapsed r Hi Hd Hr|s i h Hi|s c m|s c e].
  - by apply ok_connect.
  - by apply ok_close.
  - unfold send_request. destruct request as [request|]; [|done]. destruct (py_client s) as [|c]; [by destruct (timeout_duration timeout)|].
    destruct (timeout_duration timeout); [done|]. destruct (py_send c request writing s) as [[|h] s1] eqn:E;
      destruct (ok_py_send _ _ _ _ _ _ Hok E) as (Hok1 & _ & _ & _ & Hh); [done|].
    destruct (Hh h eq_refl) as (Hk & d & Hd & Hhd). eapply (ok_hold h d s1); try done.
    unfold held. simpl. rewrite app_assoc. apply Permutation_app_comm.
  - unfold send_request_async. destruct (py_client s) as [|c]; [done|]. destruct request as [request|]; [|done].
    destruct (py_send c request writing s) as [[|h] s1] eqn:E;
      destruct (ok_py_send _ _ _ _ _ _ Hok E) as (Hok1 & _ & _ & _ & Hh); [done|].
    destruct (Hh h eq_refl) as (Hk & d & Hd & Hhd). eapply (ok_hold h d s1); try done.
    unfold held. simpl. rewrite omap_app, <- app_assoc. simpl. by rewrite <- Permutation_middle.
  - by apply ok_py_wait.
  - unfold wait_for_response. case_decide; [by apply ok_py_wait | done].
  - by eapply ok_finish.
  - pose proof (ok_py_wait i S754_nan s Hok) as Hw. unfold py_wait in Hw. by rewrite Hi in Hw.
  - apply ok_update_conn; [|done]. intros d. apply receive_advances.
  - apply ok_update_conn; [|done]. intros d. apply fail_advances.
Qed.

Lemma py_dap_reach_ok s : py_dap_reach s → py_dap_ok s.
Proof.
  induction 1 as [|s s' _ IH Hs]; [|by eapply ok_py_dap_step].
  split; simpl; try done; [by intros h ?%elem_of_nil | by intros h r ?%elem_of_nil | constructor].
Qed.

(** C39: (debug calls in Python) whatever the threads, the adapter and the
    network do, a wait for a debug request returns a response to that very
    request, the reason its connection was closed, or a timeout; every request is
    awaited at most once; a wait ends once its timeout has elapsed, and without
    waiting for it as soon as its connection is no longer the client's own,
    because it was replaced, closed or lost. *)
Theorem debug_calls_end s :
  py_dap_reach s →
  (∀ h r, (h, r) ∈ results s → ∃ d, conns s !! h_conn h = Some d ∧
    match r with
    | Ok m => get_u64 m "request_seq" = Some (h_seq h)
    | Err e => e = timed_out_error (h_seq h) ∨ d_close d = Some e
    end) ∧
  NoDup (key <$> held s ++ (results s).*1) ∧
  (∀ h, h ∈ calls s → ∃ d, conns s !! h_conn h = Some d ∧ is_Some (dap_wait (h_seq h) (h_oneshot h) true d) ∧
    (current s ≠ Some (h_conn h) ∨ is_Some (d_close d) → is_Some (dap_wait (h_seq h) (h_oneshot h) false d))).
Proof.
  intros Hs%py_dap_reach_ok. split_and!; [|apply (pd_once _ Hs)|].
  - intros h r Hr. destruct (pd_results _ Hs h r Hr) as (d & Hd & _ & Hex). exists d. split; [done|].
    destruct Hex as [->|Hex]; [by left|]. destruct r; [done | by right].
  - intros h Hh. destruct (pd_held _ Hs h) as (d & Hd & [Hr Ho Hw He]); [apply elem_of_app; by right|]. exists d.
    assert (k_answered : h_oneshot h ∈ (d_answered d).*1 → ∀ b, is_Some (dap_wait (h_seq h) (h_oneshot h) b d)).
    { intros [r Ha]%dap_answer_some b. unfold dap_wait. by rewrite Ha. }
    split_and!; [done| |].
    + destruct Hw as [Hw|Hw]; [|by apply k_answered]. unfold dap_wait. destruct (dap_answer _ _); [by eexists|].
      rewrite decide_True by done. by eexists.
    + intros Hc. apply k_answered. destruct Hw as [Hw|Hw]; [|done]. exfalso.
      rewrite (conn_closed_empty d (pd_conns _ Hs _ _ Hd)), lookup_empty in Hw; [done|].
      destruct Hc as [Hc|Hc]; [by apply (pd_current _ Hs _ _ Hd) | done].
Qed.
End Invariant.

(** A client that sends a request, waits for it and is closed meanwhile. *)
#[local] Existing Instance WireDemo.ext.

Definition demo_open : PyDap := (py_connect (Ok tt) py_dap_new).2.
Definition demo_waiting : PyDap := (send_request (Ok (Obj [])) (S754_finite false 1 0) true demo_open).2.
Definition demo_closed : PyDap := py_close demo_waiting.
Definition demo_request : Held := MkHeld 0 1 0.

Lemma demo_closed_reach : py_dap_reach demo_closed.
Proof.
  eapply pd_next; [eapply pd_next; [eapply pd_next; [apply pd_start|apply (pd_connect _ (Ok tt))]|apply pd_send]|apply pd_close].
Qed.

Lemma debug_calls_end_witness :
  calls demo_closed = [demo_request] ∧
  ∃ d, conns demo_closed !! 0 = Some d ∧ is_Some (dap_wait 1 0 false d) ∧ dap_wait 1 0 false d = Some (Err (error_closed "DAP client")).
Proof.
  assert (calls demo_closed = [demo_request]) as Ec by (vm_compute; reflexivity). split; [exact Ec|].
  destruct (debug_calls_end demo_closed demo_closed_reach) as (_ & _ & Hw).
  destruct (Hw demo_request) as (d & Hd & _ & Hclosed); [rewrite Ec; left|]. exists d. split; [exact Hd|].
  split; [apply Hclosed; left; vm_compute; discriminate|].
  assert (conns demo_closed !! 0 ≫= dap_wait 1 0 false = Some (Err (error_closed "DAP client"))) as E by (vm_compute; reflexivity).
  change (h_conn demo_request) with 0 in Hd. rewrite Hd in E. exact E.
Defined.
