(* ===== verification/EndToEnd.v ===== *)
(** * From the clients' frames to the replies

    The kernel with its two request channels: the router servers of the shell and
    of the control channel (file Servers), which share one session and put what
    they decode in the channels of the main loop, and the kernel with its shells
    and background stops (files Kernel, System, KernelLedger). *)

From Stdlib Require Import ZArith.
From stdpp Require Import base gmap sets list strings relations.
From S2P Require Import Prelude Json Errors Wire Language Services Shell Ledger Kernel System Routing KernelLedger Transport Connections Servers.

(** The sinks of the two servers are different ones: the kernel knows a
    connection by its number and its channel. *)
Definition on_channel (control : bool) (inb : Inbound) : Inbound :=
  MkInbound (in_message inb) (2 * in_reply inb + (if control then 1 else 0)) (in_identity inb).

Section EndToEnd.
Context `{JsonTotal} {Ses : Type} `{LanguageSession Ses} {L : Type} `{Language L Ses} (ks : KernelServices) (language : L).
Notation s := (ks_session ks).

(** What a move of a server put in the engine's channel. *)
Definition arrivals (r r' : Router) : list Inbound := drop (length (r_incoming r)) (r_incoming r').

(** What it decoded, the other server's session has seen too. *)
Definition observe (frames : list (list bytes)) (r : Router) : Router :=
  if sv_result (r_server r) then r else foldl (λ r f, decoded_on None f (decode s (r_seen r) f).2 r) r frames.

Definition shared (r r' : Router) (other : Router) : Router := observe (drop (length (r_reads r)) (r_reads r')).*2 other.

(** The two servers and the kernel, from the start. *)
Inductive served (w0 : World) : Router → Router → Kernel Ses * World → Prop :=
| sv_init : served w0 (router_init false) (router_init false) (kernel_init language, w0)
| sv_shell r1 r1' r2 k w :
    served w0 r1 r2 (k, w) → router_step s r1 r1' →
    served w0 r1' (shared r1 r1' r2) (with_shell_queue (shell_queue k ++ map (on_channel false) (arrivals r1 r1')) k, w)
| sv_control r1 r2 r2' k w :
    served w0 r1 r2 (k, w) → router_step s r2 r2' →
    served w0 (shared r2 r2' r1) r2' (with_control_queue (control_queue k ++ map (on_channel true) (arrivals r2 r2')) k, w)
| sv_kernel r1 r2 k w k' w' :
    served w0 r1 r2 (k, w) → ksys_step ks language (k, w) (k', w') →
    length (shell_queue k') ≤ length (shell_queue k) → length (control_queue k') ≤ length (control_queue k) →
    served w0 r1 r2 (k', w').

(** All that was ever put in the two channels. *)
Definition shell_requests (r : Router) : list Inbound := map (on_channel false) (r_incoming r).
Definition control_requests (r : Router) : list Inbound := map (on_channel true) (r_incoming r).

(** *** The parts of the whole are runs of their own *)

Lemma observe_run frames r : rtc (router_step s) r (observe frames r) ∧ r_incoming (observe frames r) = r_incoming r.
Proof.
  unfold observe. destruct (sv_result (r_server r)) eqn:Hres; [by split|].
  revert r Hres. induction frames as [|f frames IH]; intros r Hres; simpl; [by split|].
  destruct (IH (decoded_on None f (decode s (r_seen r) f).2 r) Hres) as [Hr Hi]. split; [|by rewrite Hi].
  eapply rtc_l; [|exact Hr]. apply (rs_event _ (EOther f)). unfold serve_router. by rewrite Hres.
Qed.

Lemma router_step_appends r r' : router_inv s r → router_step s r r' → r_incoming r' = r_incoming r ++ arrivals r r'.
Proof.
  intros Hi Hs. assert (∃ new, r_incoming r' = r_incoming r ++ new) as [new E].
  { destruct Hs as [ev r r' E|r c cs cs' _ _ _]; [exact (rg_incoming _ _ (serve_router_grows _ _ _ _ Hi E))|]. exists []. simpl. by rewrite app_nil_r. }
  unfold arrivals. by rewrite E, drop_app_length.
Qed.

Lemma ledger_run_shells w0 sent ctl k w l :
  ledger_run ks language w0 sent ctl (k, w) → ledger_run ks language w0 (sent ++ l) ctl (with_shell_queue (shell_queue k ++ l) k, w).
Proof.
  revert sent k. induction l as [|i l IH]; intros sent k Hr; [rewrite !app_nil_r; by destruct k|].
  apply lr_shell with (i := i) in Hr. apply IH in Hr. simpl in Hr. by rewrite <- !app_assoc in Hr.
Qed.

Lemma ledger_run_controls w0 sent ctl k w l :
  ledger_run ks language w0 sent ctl (k, w) → ledger_run ks language w0 sent (ctl ++ l) (with_control_queue (control_queue k ++ l) k, w).
Proof.
  revert ctl k. induction l as [|i l IH]; intros ctl k Hr; [rewrite !app_nil_r; by destruct k|].
  apply lr_control with (i := i) in Hr. apply IH in Hr. simpl in Hr. by rewrite <- !app_assoc in Hr.
Qed.

Lemma served_parts w0 r1 r2 c :
  served w0 r1 r2 c →
  router_reach s false r1 ∧ router_reach s false r2 ∧ ledger_run ks language w0 (shell_requests r1) (control_requests r2) c.
Proof.
  induction 1 as [|r1 r1' r2 k w _ (Hr1 & Hr2 & Hl) Hs|r1 r2 r2' k w _ (Hr1 & Hr2 & Hl) Hs|r1 r2 k w k' w' _ (Hr1 & Hr2 & Hl) Hs Hq Hc].
  - split_and!; [apply rtc_refl..|]. apply lr_init.
  - destruct (observe_run (drop (length (r_reads r1)) (r_reads r1')).*2 r2) as [Ho Hi]. split_and!; [exact (rtc_r _ _ _ Hr1 Hs)|exact (transitivity Hr2 Ho)|].
    unfold shell_requests, control_requests, shared. rewrite Hi, (router_step_appends r1 r1' (router_reach_inv _ _ _ Hr1) Hs), map_app.
    by apply ledger_run_shells.
  - destruct (observe_run (drop (length (r_reads r2)) (r_reads r2')).*2 r1) as [Ho Hi]. split_and!; [exact (transitivity Hr1 Ho)|exact (rtc_r _ _ _ Hr2 Hs)|].
    unfold shell_requests, control_requests, shared. rewrite Hi, (router_step_appends r2 r2' (router_reach_inv _ _ _ Hr2) Hs), map_app.
    by apply ledger_run_controls.
  - split_and!; [done..|]. by eapply lr_step.
Qed.

(** A request that was put in the engine's channel, by the key of its reply. *)
Lemma keys_requests control r sink hd :
  (sink, hd) ∈ keys (map (on_channel control) (r_incoming r)) →
  ∃ inb, inb ∈ r_incoming r ∧ sink = 2 * in_reply inb + (if control then 1 else 0) ∧ hd = header (in_message inb).
Proof.
  unfold keys. intros (inb & E & Hin)%list_elem_of_fmap. apply list_elem_of_filter in Hin as [_ (inb0 & -> & Hin)%list_elem_of_fmap].
  injection E as -> ->. eauto.
Qed.

(** A signed message, read on connection [c] of a server, with this header. *)
Definition signed_request (r : Router) (c : nat) (hd : Map) : Prop :=
  ∃ ids sig h p md cn bufs,
    (Some c, ids ++ DELIMITER :: sig :: [h; p; md; cn] ++ bufs) ∈ r_reads r ∧
    sig = hex_encode (mac_finalize (foldl mac_update (mac_new (key s)) [h; p; md; cn])) ∧ from_slice_map h = Ok hd.

Lemma keys_signed control r sink hd :
  router_reach s false r → key s ≠ [] → (sink, hd) ∈ keys (map (on_channel control) (r_incoming r)) →
  ∃ c, sink = 2 * c + (if control then 1 else 0) ∧ signed_request r c hd.
Proof.
  intros Hr Hk (inb & Hin & -> & ->)%keys_requests. exists (in_reply inb). split; [done|].
  destruct (engine_input_signed s r inb (router_reach_inv _ _ _ Hr) Hk Hin) as (sig & h & p & md & cn & Hread & Hsig & Hh).
  exists (identities (in_message inb)), sig, h, p, md, cn, (buffers (in_message inb)). done.
Qed.

(** C1: (end to end) in every run of the whole kernel behind its two servers, with
    any interleaving of clients, connections, main loop, shells and background
    stops, in which no hold request is strictly above another and up to any moment
    at which the loop has not been left, no shell task has failed and no execution
    has panicked: the replies sent, what the running shells and the background
    stops still owe, what shells that ended left behind unanswered, and the
    requests in the two channels are together exactly the requests the two servers
    handed on, each once; and with a key, every reply the kernel sends answers a
    message that came with a good signature on the very connection the reply goes
    to, and no signature was accepted twice, on either server. *)
Theorem end_to_end w0 r1 r2 k w :
  served w0 r1 r2 (k, w) → holds_level (shell_requests r1) → in_loop k = true → healthy k →
  answers (trace w) ++ owed k ++ left_behind k ++ keys (shell_queue k) ++ keys (control_queue k) ++ omap deleting (stops k) ++ releasing (kphase k) ≡ₚ
    answers (trace w0) ++ keys (shell_requests r1) ++ keys (control_requests r2) ∧
  (key s ≠ [] →
    (∀ sink hd, (sink, hd) ∈ answers (trace w) → (sink, hd) ∉ answers (trace w0) →
      ∃ c, (sink = 2 * c ∧ signed_request r1 c hd) ∨ (sink = 2 * c + 1 ∧ signed_request r2 c hd)) ∧
    NoDup (accepted_signatures (r_reads r1).*2 (decode_all s ∅ (r_reads r1).*2).1) ∧
    NoDup (accepted_signatures (r_reads r2).*2 (decode_all s ∅ (r_reads r2).*2).1)).
Proof.
  intros (Hr1 & Hr2 & Hl)%served_parts Hlev Hloop Hh. destruct (kernel_book_run _ _ _ _ _ _ Hl Hlev Hloop Hh) as [Eb _].
  rewrite kernel_book_split in Eb. split; [done|]. intros Hk. split_and!; [|by apply accepted_signatures_fresh..].
  intros sink hd Hin Hn.
  assert ((sink, hd) ∈ answers (trace w0) ++ keys (shell_requests r1) ++ keys (control_requests r2)) as Hall.
  { rewrite <- Eb. apply elem_of_app. by left. }
  apply elem_of_app in Hall as [?|[Hs|Hc]%elem_of_app]; [done|..].
  - destruct (keys_signed false r1 sink hd Hr1 Hk Hs) as (c & -> & ?). exists c. left. split; [lia|done].
  - destruct (keys_signed true r2 sink hd Hr2 Hk Hc) as (c & -> & ?). exists c. by right.
Qed.
End EndToEnd.
