(* ===== verification/Scenarios.v ===== *)
(** * Concrete runs

    A small kernel to try the theorems on: the wire format of [WireDemo], a
    language that knows a few snippets, and an executable form of the shell's
    moves.  Runs here are computed and then used to show where the scheduler
    loses a request. *)

From Stdlib Require Import ZArith.
From stdpp Require Import base gmap sets list strings.
From S2P Require Import Prelude Json Errors Wire Language Services Queue Requests Shell Ledger Controls Schedule Lifetime Kernel.

(** ** An executable form of [sys_step] *)

Section Moves.
Context `{WireExt} `{LanguageSession L} (ks : KernelServices) (lang : L).

Definition enabled (s : Shell) (w : World) (c : Choice) : bool :=
  running s && match phase s with PSelect => ready s w c | _ => true end.

Definition move (l : Label) (c : Shell * World) : option (Shell * World) :=
  let '(s, w) := c in
  match l with
  | LArrive inb => if running s then Some (set_incoming s (incoming s ++ [inb]), w) else None
  | LControl k => if running s then Some (set_controls s (controls s ++ [k]), w) else None
  | LProgress =>
      match active s with
      | Some (MkActive (o :: rest) r i None) =>
          if running s then Some (set_active s (Some (MkActive rest r i None)), set_world_trace w (trace w ++ [o])) else None
      | _ => None
      end
  | LPanic d =>
      match active s with
      | Some a => if running s && negb (finished a)
                  then Some (set_active s (Some (MkActive [] (a_result a) (a_interrupted a) (Some d))), w) else None
      | None => None
      end
  | LStep ch =>
      if enabled s w ch then
        match shell_step ks lang ch s w with
        | (Ok s', w') => Some (s', w')
        | (Err e, w') => Some (set_phase s (PDone (Err e)), w')
        end
      else None
  | LOutput _ | LWorld _ _ => None
  end.

Fixpoint moves (ls : list Label) (c : Shell * World) : option (Shell * World) :=
  match ls with [] => Some c | l :: ls' => move l c ≫= moves ls' end.

Lemma move_sound l c c' : move l c = Some c' → sys_step ks lang l c c'.
Proof.
  destruct c as [s w], l as [inb|k| |o|d|w1 outs|ch]; simpl.
  - destruct (running s) eqn:Hr; [|done]. intros [= <-]. by constructor.
  - destruct (running s) eqn:Hr; [|done]. intros [= <-]. by constructor.
  - destruct (active s) as [[[|o rest] r i [d|]]|] eqn:Ea; try done. destruct (running s) eqn:Hr; [|done]. intros [= <-].
    eapply (step_progress ks lang s w (MkActive (o :: rest) r i None)); done.
  - done.
  - destruct (active s) as [a|] eqn:Ea; [|done]. destruct (running s) eqn:Hr, (finished a) eqn:Hf; try done. intros [= <-]. by eapply step_panic.
  - done.
  - unfold enabled. destruct (running s) eqn:Hr; [|done]. simpl. destruct (match phase s with PSelect => _ | _ => _ end) eqn:He; [|done].
    assert (phase s = PSelect → ready s w ch = true) as Hp by (intros E; by rewrite E in He).
    destruct (shell_step ks lang ch s w) as [[s'|e] w'] eqn:Es; intros [= <-]; by econstructor.
Qed.

Lemma run_app c0 ls c ls' c' : run_from ks lang c0 ls c → moves ls' c = Some c' → run_from ks lang c0 (ls ++ ls') c'.
Proof.
  revert ls c. induction ls' as [|l ls' IH]; simpl; intros ls c Hrun E; [injection E as <-; by rewrite app_nil_r|].
  destruct (move l c) as [c1|] eqn:Em; [|done]. simpl in E. rewrite cons_middle, app_assoc.
  eapply IH; [|exact E]. eapply run_snoc; [exact Hrun | by apply move_sound].
Qed.

Lemma moves_sound ls c c' : moves ls c = Some c' → run_from ks lang c ls c'.
Proof. intros E. apply (run_app c [] c ls c'); [constructor | done]. Qed.
End Moves.

(** ** The demonstration kernel *)

Module Demo.
#[export] Instance ext : WireExt := WireDemo.ext.

#[export] Instance json : JsonTotal.
Proof. split; intros; eexists; reflexivity. Qed.

Definition info : KernelInfo := MkKernelInfo "demo" "1" "" (Obj []).

(** [bad] raises, [gone] loses the service; every other snippet evaluates to itself. *)
Definition run (n : nat) (ex : ExecuteRequest) : Result ExecuteOutcome :=
  if decide (ex_code ex = "gone") then Err (error_closed "demo language")
  else if decide (ex_code ex = "bad") then Ok (MkExecuteOutcome None (Obj []) (Some (MkLanguageError "Bad" "code" [])) (Obj []) (Arr []))
  else Ok (MkExecuteOutcome (Some (Str (ex_code ex))) (Obj []) None (Obj []) (Arr [])).

#[export] Instance session : LanguageSession unit :=
  session_with_defaults (λ _ _, Ok info) (λ _ n ex _, MkLanguageRun [[Event (Stream "stdout" "hi"); Event (Stream "stdout" "!")]] (run n ex)).

(** The same session with a language that is always there. *)
Definition steady_session : LanguageSession nat :=
  session_with_defaults (λ _ _, Ok info) (λ _ n ex _, MkLanguageRun [] (Ok execute_outcome_default)).

Definition ks : KernelServices := MkServices WireDemo.session (Obj []) true 10.

Definition w0 : World := MkWorld 0 0 ∅ ∅ [] [].

Definition message (mt id : string) (md : Map) (c : Value) : Message :=
  MkMessage [] [("msg_id", Str id); ("msg_type", Str mt); ("session", Str "s")] [] md c [].

Definition inb (n : nat) (mt id : string) (md : Map) (c : Value) : Inbound := MkInbound (message mt id md c) n (as_bytes "peer").

Definition exec (n : nat) (id : string) (md : Map) (code : string) : Inbound :=
  inb n "execute_request" id md (Obj [("code", Str code)]).

Definition at_priority (p : Z) : Map := [("priority", jnat p)].
Definition hold_at (p : Z) : Map := [("hold", Bool true); ("priority", jnat p)].

(** [n] steps of the shell that do not wait, and one that does. *)
Definition steps (n : nat) : list Label := replicate n (LStep SelIncoming).

Definition final (ls : list Label) : Shell * World := default (shell_init, w0) (moves ks () ls (shell_init, w0)).
Definition final_shell (ls : list Label) : Shell := (final ls).1.
Definition final_world (ls : list Label) : World := (final ls).2.

Definition ran (ls : list Label) : bool := match moves ks () ls (shell_init, w0) with Some _ => true | None => false end.

Lemma final_run ls : ran ls = true → run_from ks () (shell_init, w0) ls (final_shell ls, final_world ls).
Proof.
  unfold ran. destruct (moves ks () ls (shell_init, w0)) as [c|] eqn:E; [intros _|done]. assert (moves ks () ls (shell_init, w0) = Some (final_shell ls, final_world ls)) as E'.
  { unfold final_shell, final_world, final. rewrite E. by destruct c. }
  by apply moves_sound.
Qed.
End Demo.
Import Demo.

(** ** Runs that lose a request *)

(** A held request, a hold of higher priority, the release of the second, a stop. *)
Definition first_hold : Inbound := exec 1 "h1" (hold_at 0) "".
Definition second_hold : Inbound := exec 2 "h2" (hold_at 1) "".
Definition nested_holds : list Label :=
  LArrive first_hold :: steps 5 ++ LArrive second_hold :: steps 5 ++
  [LControl (Release "h2" "ok" 0); LControl Stop] ++ steps 5.

(** (a hold within a hold) the premise of the accounting theorem is needed:
    a hold of strictly higher priority passes the hold and takes its place, and
    the first held request is forgotten.  In this run the shell receives the two
    holds, ends well with nothing in its hands, and has answered only the
    second. *)
Theorem nested_hold_unanswered :
  ∃ s w, run_from ks () (shell_init, w0) nested_holds (s, w) ∧ phase s = PDone (Ok tt) ∧
    received nested_holds = [first_hold; second_hold] ∧ outstanding s = [] ∧ answers (trace w) = [request_key second_hold].
Proof.
  exists (final_shell nested_holds), (final_world nested_holds).
  split; [apply final_run; vm_compute; reflexivity|]. split_and!; vm_compute; reflexivity.
Qed.

Definition late : Inbound := exec 1 "late" [] "1".
Definition stop_race : list Label := steps 1 ++ [LArrive late; LControl Stop] ++ steps 3.

(** (a request that arrives while the shell stops) the exception of the
    stopping theorem is real: a request that arrives just after the shell has
    emptied its channel, and before the stop that it then reads, stays in the
    channel and is never answered. *)
Theorem stop_race_unanswered :
  ∃ s w, run_from ks () (shell_init, w0) stop_race (s, w) ∧ phase s = PDone (Ok tt) ∧
    received stop_race = [late] ∧ incoming s = [late] ∧ answers (trace w) = [].
Proof.
  exists (final_shell stop_race), (final_world stop_race).
  split; [apply final_run; vm_compute; reflexivity|]. split_and!; vm_compute; reflexivity.
Qed.

(** ** Witnesses *)

(** An execution in progress, with a second one and a completion request behind it. *)
Definition e1 : Inbound := exec 1 "e1" [] "1".
Definition e2 : Inbound := exec 2 "e2" (at_priority 1) "2".
Definition c3 : Inbound := inb 3 "is_complete_request" "c3" [] (Obj [("code", Str "x")]).
Definition busy_run : list Label := LArrive e1 :: steps 5 ++ [LProgress; LArrive e2; LArrive c3] ++ steps 6.
Definition idle_run : list Label := busy_run ++ steps 4.

Lemma demo_items_wf : wf_queue [MkItem f64_zero 0 e1; MkItem (f64_of_Z 1) 1 e2; MkItem f64_zero 2 c3].
Proof. split; [repeat constructor | simpl; repeat (constructor; [set_solver|]); constructor]. Qed.

Lemma pop_runnable_selects_witness :
  ∃ i q', pop_runnable [MkItem f64_zero 0 e1; MkItem (f64_of_Z 1) 1 e2; MkItem f64_zero 2 c3] false None = (Some i, q') ∧
    inbound i = e2 ∧ ∀ j, j ∈ q' → runnable false None j = true →
      f64_gt (priority i) (priority j) = true ∨ (f64_partial_cmp (priority i) (priority j) = Some Eq ∧ (order i < order j)%Z).
Proof.
  pose proof (pop_runnable_selects [MkItem f64_zero 0 e1; MkItem (f64_of_Z 1) 1 e2; MkItem f64_zero 2 c3] false None
    (proj1 demo_items_wf) (proj2 demo_items_wf)) as Hs.
  eexists _, _. split; [vm_compute; reflexivity|]. split; [reflexivity|]. apply Hs.
Defined.

Lemma pop_runnable_layout_witness :
  (pop_runnable [MkItem f64_zero 0 e1; MkItem (f64_of_Z 1) 1 e2; MkItem f64_zero 2 c3] true None).1 =
  (pop_runnable [MkItem f64_zero 2 c3; MkItem f64_zero 0 e1; MkItem (f64_of_Z 1) 1 e2] true None).1.
Proof.
  apply (pop_runnable_layout _ _ true None (proj1 demo_items_wf) (proj2 demo_items_wf)).
  apply (Permutation_app_comm [_; _] [_]).
Defined.
