(* ===== verification/Witnesses.v ===== *)
(** * The theorems at concrete inputs

    Every theorem with hypotheses, applied to the demonstration kernel of
    [Scenarios]. *)

From Stdlib Require Import ZArith.
From stdpp Require Import base gmap sets list strings sorting.
From S2P Require Import Prelude Json Errors Wire Language Services Queue Requests Shell Ledger Controls Schedule Lifetime Kernel System.
From S2P Require Import PyAdapter Hosts Routing Context ControlRequests Survival KernelLedger Rest KernelRest Driver Transport Servers Dap EndToEnd Scenarios.
Import Demo.

(** ** Services and requests *)

Lemma stdin_request_ends_witness :
  ∃ w', stdin_request ks (as_bytes "peer") (in_message e1) "name?" false (InputReplied "v") w0 = (Ok "v", w') ∧ pending w' = ∅.
Proof.
  destruct (stdin_request_ends ks (as_bytes "peer") (in_message e1) "name?" false (InputReplied "v") w0) as (w' & E & Ep & _).
  exists w'. split; [exact E|]. rewrite Ep. vm_compute. reflexivity.
Defined.

Lemma run_execution_protocol_witness :
  (run_execution ks () e1 (execute_request (content (in_message e1))) 1 w0).1 = Ok (MkDone false true).
Proof.
  destruct (run_execution_protocol ks () e1 (execute_request (content (in_message e1))) 1 w0 eq_refl) as (t & w' & E & _).
  rewrite E. vm_compute. reflexivity.
Defined.

(** ** The shell's run *)

Lemma no_holds_level l : forallb (λ i, negb (is_hold i)) l = true → holds_level l.
Proof.
  intros Hf i j Hi _ Hh. rewrite forallb_forall in Hf. apply list_elem_of_In in Hi. apply Hf in Hi. by rewrite Hh in Hi.
Qed.

Lemma every_request_accounted_witness :
  answers (trace (final_world idle_run)) ++ answers (todo (final_shell idle_run)) ++ keys (outstanding (final_shell idle_run)) ≡ₚ
  [request_key e1; request_key e2; request_key c3].
Proof.
  apply (every_request_accounted ks () w0 idle_run (final_shell idle_run) (final_world idle_run)).
  - apply final_run. vm_compute. reflexivity.
  - apply no_holds_level. vm_compute. reflexivity.
  - vm_compute. reflexivity.
Defined.

Definition start_run : list Label := LArrive e1 :: steps 4.

Lemma wf_start : Forall wf_inbound (received start_run).
Proof. apply Forall_cons. split; [reflexivity | constructor]. Qed.

Lemma execution_lifecycle_witness :
  ∃ s' w', shell_step ks () SelIncoming (final_shell start_run) (final_world start_run) = (Ok s', w') ∧
    ((execution_count s' = 0%Z ∧ ∀ a', active s' = Some a' → ∃ a, active (final_shell start_run) = Some a ∧ same_execution a a') ∨
     ∃ item, active (final_shell start_run) = None ∧ queue (final_shell start_run) ≡ₚ item :: queue s' ∧
       above_hold (held (final_shell start_run)) item = true ∧
       starts ks () (final_shell start_run) (final_world start_run) item (queue s') s' w' ∧
       ∀ j, j ∈ queue s' → runnable false (held (final_shell start_run)) j = true → item_lt j item).
Proof.
  destruct (shell_step ks () SelIncoming (final_shell start_run) (final_world start_run)) as [[s'|e] w'] eqn:E.
  2: { exfalso. assert (is_ok (shell_step ks () SelIncoming (final_shell start_run) (final_world start_run)).1 = true) as Hok
         by (vm_compute; reflexivity). by rewrite E in Hok. }
  exists s', w'. split; [reflexivity|].
  change 0%Z with (execution_count (final_shell start_run)).
  apply (execution_lifecycle ks () w0 start_run (final_shell start_run) (final_world start_run) (LStep SelIncoming)).
  - apply final_run. vm_compute. reflexivity.
  - apply step_shell; [vm_compute; reflexivity | vm_compute; discriminate | exact E].
  - exact wf_start.
  - vm_compute. reflexivity.
Defined.

Lemma idle_means_blocked_witness :
  phase (final_shell idle_run) = PSelect ∧ length (queue (final_shell idle_run)) = 1 ∧
  ∀ q, q ∈ queue (final_shell idle_run) → is_execute (inbound q) = true ∧
    (is_Some (active (final_shell idle_run)) ∨
     ∃ h, held (final_shell idle_run) = Some h ∧ f64_gt (priority q) (priority (held_item h)) = false).
Proof.
  split; [vm_compute; reflexivity|]. split; [vm_compute; reflexivity|]. intros q.
  apply (idle_means_blocked ks () w0 idle_run (final_shell idle_run) (final_world idle_run) q).
  - apply final_run. vm_compute. reflexivity.
  - vm_compute. reflexivity.
Defined.

Lemma interrupt_branch_dead_witness : interrupting (final_shell start_run) = false.
Proof.
  eapply (interrupt_branch_dead ks () w0 start_run (final_shell start_run) (final_world start_run) (MkItem f64_zero 0 e1) []).
  - apply final_run. vm_compute. reflexivity.
  - vm_compute. reflexivity.
  - vm_compute. reflexivity.
  - vm_compute. reflexivity.
Defined.

#[local] Existing Instance steady_session.

#[local] Instance steady : Steadfast (L := nat) 0.
Proof. split; try done. Qed.

Lemma shell_survives_witness :
  ∃ s w s' w', moves ks 0 start_run (shell_init, w0) = Some (s, w) ∧ shell_step ks 0 SelIncoming s w = (Ok s', w') ∧
    (running s' = true ∨ (∃ n, phase s' = PDone (lang_shutdown 0 n)) ∧ may_end s s').
Proof.
  destruct (moves ks 0 start_run (shell_init, w0)) as [[s w]|] eqn:E.
  2: { exfalso. assert (match moves ks 0 start_run (shell_init, w0) with Some _ => true | None => false end = true) as Hok
         by (vm_compute; reflexivity). by rewrite E in Hok. }
  assert (match moves ks 0 start_run (shell_init, w0) with Some (s, w) => running s = true ∧ panicked s = false | None => True end) as Hc
    by (vm_compute; auto). rewrite E in Hc. destruct Hc as [Hr Hp].
  destruct (shell_survives ks 0 w0 start_run s w SelIncoming) as (s' & w' & E' & Hend).
  - by apply moves_sound.
  - exact Hr.
  - exact Hp.
  - intros Hc. discriminate Hc.
  - intros Hc. discriminate Hc.
  - exists s, w, s', w'. exact (conj eq_refl (conj E' Hend)).
Defined.

Definition stopped_run : list Label := LArrive e1 :: steps 5 ++ replicate 6 LProgress ++ [LControl Stop] ++ steps 4.

Lemma stopped_shell_answered_witness :
  answers (trace (final_world stopped_run)) ++ keys (incoming (final_shell stopped_run)) ≡ₚ [request_key e1].
Proof.
  apply (stopped_shell_answered ks () w0 stopped_run (final_shell stopped_run) (final_world stopped_run)).
  - apply final_run. vm_compute. reflexivity.
  - apply no_holds_level. vm_compute. reflexivity.
  - change (received stopped_run) with [e1]. apply Forall_cons. split; [reflexivity | constructor].
  - vm_compute. reflexivity.
Defined.

Lemma execution_numbering_witness :
  (count_execution (counted [execute_request (content (in_message e1))] shell_init) (MkExecuteRequest "" false false (Obj []) true)).1 = 1%Z.
Proof. apply (execution_numbering [execute_request (content (in_message e1))]). vm_compute. reflexivity. Defined.

(** ** The debug adapter client *)

(** A client that numbers one request, puts it in the table and is closed. *)
Definition demo_dap : DapSystem :=
  let frame := match encode_message (Obj [("seq", jnat 1)]) with Ok f => f | Err _ => [] end in
  MkDapSystem (drain_pending (mark_closed (error_closed "DAP client") (insert_pending 1 (set_next_seq 2 dap_init)))) [Inserted 1 0 frame] 0.

Lemma demo_dap_reachable : dap_reachable demo_dap.
Proof.
  eapply dap_next; [|apply dap_drain]. eapply dap_next; [|apply dap_mark].
  eapply dap_next; [|apply (dap_insert (set_next_seq 2 dap_init) [Numbered 1 (match encode_message (Obj [("seq", jnat 1)]) with Ok f => f | Err _ => [] end)] 0 0 1); reflexivity].
  eapply dap_next; [apply dap_start|]. eapply (dap_number dap_init [] 0 (Obj [])); reflexivity.
Qed.

Lemma dap_requests_end_witness : NoDup (d_answered (dap demo_dap)).*1 ∧ d_answered (dap demo_dap) = [(0, Err (error_closed "DAP client"))].
Proof.
  split; [|vm_compute; reflexivity].
  apply (dap_requests_end (dap demo_dap) (sends demo_dap) (failing demo_dap) demo_dap_reachable).
Defined.

(** ** Controls *)

(** A shell with three requests in its channel and a held one. *)
Definition held_shell : Shell :=
  MkShell [e1; c3; e2] [] [] 0 (Some (MkHeld (MkItem f64_zero 0 first_hold) 5)) None false false 3 [] PSelect.

Lemma held_shell_wf : wf_queue (queue (drain_incoming held_shell)).
Proof. split; [repeat constructor | simpl; repeat (constructor; [set_solver|]); constructor]. Qed.

Lemma abort_pending_effect_witness :
  ∃ sorted w', StronglySorted (λ a b, item_lt b a) sorted ∧
    emits_at w0 (abort_pending ks held_shell) (Ok (set_queue (drain_incoming held_shell) (others sorted))) (aborts_obs 3 sorted) w'.
Proof.
  destruct (abort_pending_effect ks held_shell w0 held_shell_wf) as (sorted & w' & _ & Hs & E & _). exists sorted, w'. exact (conj Hs E).
Defined.

Lemma execution_done_effect_witness :
  ∃ w', emits_at w0 (execution_done ks held_shell (MkDone true true)) (Ok (aborted_shell (set_active held_shell None)))
    (abort_pending_obs (set_active held_shell None)) w'.
Proof. apply (execution_done_effect ks held_shell (MkDone true true) w0). Defined.

Lemma release_effect_witness :
  ∃ w', emits_at w0 (apply_control ks () held_shell (Release "h1" "ok" 7)) (Ok (add_released (set_held held_shell None) 7 true))
    (hold_obs 3 first_hold "ok" ++ []) w'.
Proof. apply (release_effect ks () held_shell "h1" "ok" 7 w0). Defined.

Lemma hold_timeout_effect_witness :
  ∃ w', emits_at (MkWorld 0 6 ∅ ∅ [] []) (select_step ks () SelHold held_shell) (Ok (aborted_shell (set_held held_shell None)))
    (hold_obs 3 first_hold "timeout" ++ abort_pending_obs (set_held held_shell None)) w'.
Proof.
  apply (hold_timeout_effect ks () held_shell (MkHeld (MkItem f64_zero 0 first_hold) 5) (MkWorld 0 6 ∅ ∅ [] [])); reflexivity.
Defined.

Lemma demo_on_interrupt n : lang_on_interrupt () n = Ok tt.
Proof. reflexivity. Qed.

Lemma interrupt_effect_witness :
  ∃ w' s', emits_at w0 (apply_control ks () held_shell Interrupt) (Ok s')
      (hold_obs (execution_count held_shell) first_hold "interrupt" ++ abort_pending_obs (set_interrupting held_shell true)) w' ∧
    held s' = None ∧ incoming s' = [] ∧ ∀ q, q ∈ queue s' → is_execute (inbound q) = false.
Proof.
  destruct (interrupt_effect ks () held_shell w0) as (w' & s' & E & _ & Hh & Hi & _ & _ & Hq).
  exists w', s'. exact (conj E (conj Hh (conj Hi Hq))).
Defined.

(** ** The kernel *)

#[local] Instance demo_language : Language unit unit :=
  {| parent _ := (); supports_children _ := true; create_child _ _ := Ok () |}.

Definition k0 : Kernel unit := kernel_init ().

(** Two subshells-worth of state: the parent and a subshell both sessions use. *)
Definition k1 : Kernel unit :=
  MkKernel {[ "" := 0; "sub" := 1 ]} {[ "a" := "sub"; "b" := "sub" ]} {[ 0 := ((), shell_init); 1 := ((), shell_init) ]}
    0 [] [] [e1] [] [] KLoop.

(** The same with an ended subshell. *)
Definition k1_ended : Kernel unit :=
  MkKernel {[ "" := 0; "sub" := 1 ]} ∅ {[ 0 := ((), shell_init); 1 := ((), set_phase shell_init (PDone (Ok tt))) ]}
    0 [] [] [] [] [] KLoop.

Definition routed : Kernel unit * World := kernel_step ks () KShellMessage (with_shell_queue [e1] k0) w0.

Lemma routed_reachable : reachable ks () w0 (routed.1, routed.2).
Proof.
  assert (reachable ks () w0 (with_shell_queue [e1] k0, w0)) as Hr.
  { eapply reach_step; [apply reach_init | apply (k_shell_message ks () k0 w0 e1)]. }
  eapply reach_step; [exact Hr|]. rewrite <- surjective_pairing. apply k_loop. intros _. reflexivity.
Qed.

Lemma routed_ledger : ledger_run ks () w0 [e1] [] (routed.1, routed.2).
Proof.
  eapply lr_step; [apply (lr_shell ks () w0 [] [] k0 w0 e1), lr_init| |vm_compute; lia|vm_compute; lia].
  rewrite <- surjective_pairing. apply k_loop. intros _. reflexivity.
Qed.

Lemma healthy_check (k : Kernel unit) : map_Forall (λ _ p, failed_shell p.2 = false) (tasks k) → healthy k.
Proof. intros Hf t ses s Et. exact (Hf t _ Et). Qed.

Lemma routed_healthy : healthy routed.1.
Proof. apply healthy_check, (bool_decide_unpack _). vm_compute. exact I. Qed.

Lemma kernel_requests_accounted_witness :
  answers (trace routed.2) ++ owed routed.1 ++ left_behind routed.1 ++ keys (shell_queue routed.1) ++ keys (control_queue routed.1) ++
    omap deleting (stops routed.1) ++ releasing (kphase routed.1) ≡ₚ [request_key e1].
Proof.
  apply (kernel_requests_accounted ks () w0 [e1] [] routed.1 routed.2 routed_ledger).
  - apply no_holds_level. vm_compute. reflexivity.
  - vm_compute. reflexivity.
  - apply routed_healthy.
Defined.

Lemma kernel_tables_witness : shells routed.1 !! "" = Some 0 ∧ is_Some (tasks routed.1 !! 0).
Proof.
  assert (shells routed.1 !! "" = Some 0) as E by (vm_compute; reflexivity).
  exact (conj E (proj1 (kernel_tables ks () w0 routed.1 routed.2 routed_reachable) "" 0 E)).
Defined.

(** An execute request in a kernel with a subshell and two routes to it. *)
Lemma route_shell_delivers_witness :
  ∃ id k' w', destined (route_overrides k1) e1 id ∧ route_shell ks () e1 k1 w0 = (Ok tt, k', w').
Proof.
  destruct (route_shell_delivers ks () e1 k1 w0) as (id & Hd & _ & k' & w' & E & _). exists id, k', w'. exact (conj Hd E).
Defined.

Lemma k1_shells id t : shells k1 !! id = Some t → (id = "" ∧ t = 0) ∨ (id = "sub" ∧ t = 1).
Proof.
  assert (shells k1 = <["" := 0]> {["sub" := 1]}) as -> by reflexivity.
  intros [[<- <-]|[_ [<- <-]%lookup_singleton_Some]]%lookup_insert_Some; auto.
Qed.

Lemma k1_ok : kernel_ok k1.
Proof.
  split.
  - intros id t [[-> ->]|[-> ->]]%k1_shells; eexists; reflexivity.
  - intros id id' t [[-> ->]|[-> ->]]%k1_shells [[-> ?]|[-> ?]]%k1_shells; done.
  - assert (route_overrides k1 = <["a" := "sub"]> {["b" := "sub"]}) as -> by reflexivity.
    intros c id [[_ <-]|[_ [_ <-]%lookup_singleton_Some]]%lookup_insert_Some; discriminate.
Qed.

Lemma k1_live : all_live k1.
Proof. intros id t [[-> ->]|[-> ->]]%k1_shells; reflexivity. Qed.

Definition control (mt : string) (c : Value) : Inbound := inb 9 mt "ctl" [] c.

Lemma interrupt_request_effect_witness :
  ∃ k' w', handle_control ks () (control "interrupt_request" (Obj [])) k1 w0 = (Ok false, k', w') ∧ shell_queue k' = [].
Proof.
  destruct (interrupt_request_effect ks () (control "interrupt_request" (Obj [])) k1 w0 k1_ok k1_live eq_refl)
    as (k2 & w2 & k' & w' & _ & _ & _ & E & _ & Hq & _). exists k', w'. exact (conj E Hq).
Defined.

(** A release request that no shell holds a message for. *)
Definition release_hold : Inbound := control "release_request" (Obj [("msg_id", Str "none")]).
Definition releasing_kernel : Kernel unit * World := kernel_step ks () KControl (with_control_queue [release_hold] k0) w0.
Definition asked_kernel : Kernel unit * World := kernel_step ks () KTerminate releasing_kernel.1 releasing_kernel.2.

Lemma releasing_reachable : reachable ks () w0 (releasing_kernel.1, releasing_kernel.2).
Proof.
  rewrite <- surjective_pairing. eapply reach_step; [|apply k_loop; intros _; reflexivity].
  eapply reach_step; [apply reach_init|]. exact (k_control_message ks () k0 w0 release_hold).
Qed.

Lemma kernel_survives_witness :
  kphase releasing_kernel.1 = KReleasing None [0] "none" "ok" false 9 (in_message release_hold) ∧ in_loop asked_kernel.1 = true ∧ all_live asked_kernel.1.
Proof.
  assert (kphase releasing_kernel.1 = KReleasing None [0] "none" "ok" false 9 (in_message release_hold)) as Hp by (vm_compute; reflexivity).
  assert (all_live releasing_kernel.1) as Hl by (intros id t; apply (map_Forall_lookup_1 (λ _ t, live releasing_kernel.1 t = true));
    apply (bool_decide_unpack _); vm_compute; exact I).
  split; [exact Hp|]. pose proof (kernel_survives ks () w0 KTerminate releasing_kernel.1 releasing_kernel.2 releasing_reachable) as Hs.
  rewrite Hp in Hs. destruct (Hs Hl) as (k' & w' & E & Hl' & Hin & _). unfold asked_kernel. rewrite E. exact (conj Hin Hl').
Defined.

Lemma interrupt_after_end_stops_kernel_witness :
  ∃ todo, kphase (kernel_step ks () KInterrupted k1_ended w0).1 = KStopping None todo (Err (error_closed "kernel service")).
Proof. apply (interrupt_after_end_stops_kernel ks () k1_ended w0 "sub" 1); vm_compute; reflexivity. Defined.

Lemma create_request_effect_witness :
  ∃ k' w', handle_control ks () (control "create_subshell_request" (Obj [("subshell_id", Str "new")])) k0 w0 = (Ok false, k', w').
Proof.
  destruct (create_request_effect ks () (control "create_subshell_request" (Obj [("subshell_id", Str "new")])) k0 w0)
    as (r & k' & w' & E & _); [reflexivity | reflexivity |]. exists k', w'. exact E.
Defined.

Lemma delete_request_effect_witness :
  ∃ k', handle_control ks () (control "delete_subshell_request" (Obj [("subshell_id", Str "sub")])) k1 w0 = (Ok false, k', w0) ∧
    shells k' = delete "sub" (shells k1) ∧ ∀ c i, route_overrides k' !! c = Some i ↔ route_overrides k1 !! c = Some i ∧ i ≠ "sub".
Proof.
  destruct (delete_request_effect ks () (control "delete_subshell_request" (Obj [("subshell_id", Str "sub")])) k1 w0 1)
    as (k' & E & Es & _ & Hr & _); [reflexivity | reflexivity |]. exists k'. exact (conj E (conj Es Hr)).
Defined.

Lemma delete_without_id_removes_parent_witness :
  ∃ k', handle_control ks () (control "delete_subshell_request" (Obj [])) k0 w0 = (Ok false, k', w0) ∧ kphase k' = KLoop ∧
    ∃ w3, route_shell ks () e1 k' w0 = (Ok tt, k', w3) ∧ answers (trace w3) = [request_key e1].
Proof.
  apply (delete_without_id_removes_parent ks () (control "delete_subshell_request" (Obj [])) k0 w0 0 e1 w0); reflexivity.
Defined.

Lemma open_close_roundtrip_witness :
  ∃ k1 w1, session_command () (Open "a" (Some "x") 0) k0 w0 = (Ok tt, k1, w1) ∧ route_overrides k1 = <["a" := "x"]> ∅.
Proof.
  destruct (open_close_roundtrip () "a" "x" 0 1 k0 w0) as (k1 & w1 & k2 & w2 & k3 & E & Er & _);
    [discriminate | reflexivity | reflexivity | reflexivity |]. exists k1, w1. exact (conj E Er).
Defined.

Lemma close_delete_leaves_route_witness :
  ∃ k', session_command () (Close "a" "sub" true 0) k1 w0 = (Ok tt, k', w0) ∧
    route_overrides k' !! "b" = Some "sub" ∧ shells k' !! "sub" = None.
Proof.
  destruct (close_delete_leaves_route ks () "a" "b" "sub" 0 1 k1 w0) as (k' & E & Hr & Hs & _);
    [discriminate | reflexivity | reflexivity | reflexivity |]. exists k'. exact (conj E (conj Hr Hs)).
Defined.

Lemma control_request_answered_witness :
  ∃ b k' w', handle_control ks () (control "shutdown_request" (Obj [])) k1 w0 = (Ok b, k', w') ∧
    answers (trace w') = [request_key (control "shutdown_request" (Obj []))].
Proof.
  apply (control_request_answered ks () (control "shutdown_request" (Obj [])) k1 w0); [reflexivity|].
  by intros [?|[?|[?|[]%elem_of_nil]%elem_of_cons]%elem_of_cons]%elem_of_cons.
Defined.

(** ** What running code asks for *)

(** A session that opens a route and closes it again with its subshell. *)
Definition open_cmd : SessionCommand := Open "s" (Some "sub") 0.
Definition close_cmd : SessionCommand := Close "s" "sub" true 1.

Definition serve_command (c : SessionCommand) (k : Kernel unit * World) : Kernel unit * World :=
  kernel_step ks () KCommand (with_commands (commands k.1 ++ [c]) k.1) k.2.

Definition opened : Kernel unit * World := serve_command open_cmd (k0, w0).
Definition closing_route : Kernel unit * World := serve_command close_cmd opened.

Lemma serve_command_run sent c k :
  commands_run ks () w0 sent k → kphase k.1 = KLoop → commands k.1 = [] → length (commands (serve_command c k).1) ≤ 1 →
  commands_run ks () w0 (sent ++ [c]) (serve_command c k).
Proof.
  intros Hr Hp Hq Hl. unfold serve_command in *. destruct k as [k w]. simpl in *. rewrite (surjective_pairing (kernel_step _ _ _ _ _)).
  eapply cr_step; [by apply (cr_send ks () w0 sent k w c)| |].
  - rewrite <- surjective_pairing. apply k_loop. intros _. by rewrite Hq.
  - simpl. by rewrite Hq in *.
Qed.

Lemma closing_run : commands_run ks () w0 [open_cmd; close_cmd] closing_route.
Proof.
  apply (serve_command_run [open_cmd]); [|vm_compute; reflexivity|vm_compute; reflexivity|vm_compute; lia].
  apply (serve_command_run []); [apply cr_init|reflexivity|reflexivity|vm_compute; lia].
Qed.

Lemma commands_accounted_witness :
  ∃ lost, [(0, true); (1, false)] ≡ₚ map answered (completed closing_route.1) ++ omap closing (stops closing_route.1) ++
    map asked (commands closing_route.1) ++ lost ∧
    map answered (completed closing_route.1) = [(0, true)] ∧ omap closing (stops closing_route.1) = [(1, false)].
Proof.
  pose proof closing_run as Hr. rewrite (surjective_pairing closing_route) in Hr.
  destruct (commands_accounted ks () w0 [open_cmd; close_cmd] closing_route.1 closing_route.2 Hr) as (lost & Hp & _).
  exists lost. split; [exact Hp | split; vm_compute; reflexivity].
Defined.

Lemma subshell_calls_own_session_witness :
  route_overrides (session_command () open_cmd k1 w0).1.2 !! "a" = Some "sub".
Proof.
  destruct (subshell_calls_own_session () (in_message e1) true 1 0 (Ok open_cmd) k1 w0) as (_ & _ & Hr).
  - apply (call_open (output_context (in_message e1) true 1) 0 (Some "sub")).
  - rewrite Hr by discriminate. reflexivity.
Defined.

Lemma input_call_ends_witness :
  ∃ r w', sink_input ks (output_context (in_message e1) true 1) false (in_message e1) (Some (as_bytes "peer")) "name?" false
    (InputCancelled true) w0 = (Ok r, w') ∧ raises PyKeyboardInterrupt "Interrupted" r ∧ pending w' = ∅.
Proof.
  destruct (input_call_ends ks (in_message e1) (Some (as_bytes "peer")) 1 false "name?" false (InputCancelled true) w0)
    as (r & w' & E & Hr & Hp & _).
  exists r, w'. split; [exact E|]. split; [exact Hr|]. rewrite Hp. vm_compute. reflexivity.
Defined.

(** ** A Python shell *)

(** Its objects are JSON values; [bad] raises and every other snippet evaluates
    to null. *)
Definition demo_error : PyErr := MkPyErr false false "ZeroDivisionError: division by zero".

#[local] Instance demo_shell : PyShell bool := {|
  PyObj := Value; py_dumps _ := Ok "{}"; py_loads _ := Ok (Obj []); json_from_str _ := Ok (Obj []); json_text _ := "{}"; is_none := is_null; py_hasattr _ _ _ := Ok false;
  py_set_event_callback _ _ := Ok tt; py_set_kernel_sink _ _ _ := Ok tt;
  py_kernel_info _ _ := Ok (Obj []);
  py_execute _ _ ex _ := MkPyRun (Some (Ok tt)) [] false (if decide (ex_code ex = "bad") then Err demo_error else Ok (Obj [])) true None;
  py_split _ _ l := [l]; py_request _ _ _ _ := (Some (Ok tt), Ok Null); py_debug _ _ v := Ok v;
  py_message _ _ _ _ := (Some (Ok tt), ([], Ok tt)); py_shutdown _ _ := (Some (Ok tt), Ok tt); py_on_interrupt _ _ := Ok tt;
  has_child_loop _ := false; py_join _ _ := None; py_child _ _ := ChildDied |}.

Definition bad_request : Inbound := exec 1 "e1" [] "bad".

Lemma python_execution_replies_witness :
  ∃ w' shown c, emits_at w0 (run_execution ks true bad_request (execute_request (content (in_message bad_request))) 1) (Ok (MkDone true true))
      (status_obs (in_message bad_request) "busy" :: shown ++
        [ORep 1 (header (in_message bad_request)) "execute_reply" c; status_obs (in_message bad_request) "idle"]) w' ∧
    Forall (λ o, is_reply o = false) shown ∧
    value_index c "status" = Str "error" ∧ value_index c "ename" = Str "KernelError".
Proof.
  destruct (python_execution_replies ks true bad_request (execute_request (content (in_message bad_request))) 1 w0)
    as (t & w' & shown & c & E & Hno & Hs & Hn); [reflexivity | by repeat split |].
  exists w', shown, c. split; [exact E | split; [exact Hno | split; [exact Hs | apply Hn; reflexivity]]].
Defined.

(** ** The echo kernel *)

Definition echo_request : Inbound := exec 1 "e1" [] "boom".

Lemma echo_execution_witness :
  ∃ w' verdict c,
    emits_at w0 (@run_execution _ _ (echo_session (λ _, Err "invalid float literal") id (MkLanguageRun [] (Ok execute_outcome_default))) ks tt
        echo_request (execute_request (content (in_message echo_request))) 1) (Ok (MkDone true true))
      ([status_obs (in_message echo_request) "busy";
        OPub (header (in_message echo_request)) "execute_input" (Obj [("code", Str "boom"); ("execution_count", jnat 1)]);
        OPub (header (in_message echo_request)) "stream" (Obj [("name", Str "stdout"); ("text", Str ("echo: boom" +:+ newline))])] ++
       [verdict; ORep 1 (header (in_message echo_request)) "execute_reply" c; status_obs (in_message echo_request) "idle"]) w' ∧
    value_index c "ename" = Str "EchoError".
Proof.
  destruct (echo_execution ks (λ _, Err "invalid float literal") id (MkLanguageRun [] (Ok execute_outcome_default)) echo_request
    (execute_request (content (in_message echo_request))) 1 w0 0 (MkLanguageRun [[echo_line "boom"]] (Ok (echo_outcome id "boom"))))
    as (w' & verdict & c & E & Hn); [reflexivity..|]. exists w', verdict, c. split; [exact E|exact Hn].
Defined.

(** ** From a client's frames to the kernel *)

Definition shell_event (ev : RouterEvent) (x : Router * Router * Kernel unit) : Router * Router * Kernel unit :=
  let '(r1, r2, k) := x in
  match serve_router (ks_session ks) ev r1 with
  | Some r1' => (r1', shared ks r1 r1' r2, with_shell_queue (shell_queue k ++ map (on_channel false) (arrivals r1 r1')) k)
  | None => x
  end.

Lemma shell_events_served evs r1 r2 k :
  served ks () w0 r1 r2 (k, w0) →
  let x := foldl (λ x ev, shell_event ev x) (r1, r2, k) evs in served ks () w0 x.1.1 x.1.2 (x.2, w0).
Proof.
  revert r1 r2 k. induction evs as [|ev evs IH]; intros r1 r2 k Hs; [exact Hs|]. cbn [foldl].
  assert (∃ r1' r2' k', shell_event ev (r1, r2, k) = (r1', r2', k') ∧ served ks () w0 r1' r2' (k', w0)) as (r1' & r2' & k' & E & Hs').
  { unfold shell_event. destruct (serve_router (ks_session ks) ev r1) as [r1'|] eqn:E; [|eauto 10].
    do 3 eexists. split; [reflexivity|]. apply sv_shell; [done|]. by eapply rs_event. }
  rewrite E. by apply IH.
Qed.

(** One client connects on the shell channel and sends a signed request. *)
Definition client_sends : Router * Router * Kernel unit :=
  foldl (λ x ev, shell_event ev x) (router_init false, router_init false, k0)
    [EAccept (Ok tt); EHandshake 0 (Ok None); EEnter 0; ERecv 0 (Ok (IMessage WireDemo.frames)); EForward 0].

Lemma client_sends_served : served ks () w0 client_sends.1.1 client_sends.1.2 (client_sends.2, w0).
Proof. apply shell_events_served, sv_init. Qed.

Lemma end_to_end_witness :
  answers (trace w0) ++ owed client_sends.2 ++ left_behind client_sends.2 ++ keys (shell_queue client_sends.2) ++ keys (control_queue client_sends.2) ++
    omap deleting (stops client_sends.2) ++ releasing (kphase client_sends.2) ≡ₚ [(0, WireDemo.hdr)].
Proof.
  apply (end_to_end ks () w0 client_sends.1.1 client_sends.1.2 client_sends.2 w0 client_sends_served).
  - apply no_holds_level. vm_compute. reflexivity.
  - vm_compute. reflexivity.
  - apply healthy_check, (bool_decide_unpack _). vm_compute. exact I.
Defined.

(** ** Left alone *)

(** Two executions, a completion request and a control request at once. *)
Definition c4 : Inbound := inb 4 "create_subshell_request" "c4" [] (Obj [("subshell_id", Str "sub")]).
Definition burst : Kernel unit := with_control_queue [c4] (with_shell_queue [e1; e2; c3] k0).
Definition rested : Kernel unit * World := drive ks () always always 300 (burst, w0).

(** The same, with code that never returns. *)
Definition never (t : nat) : bool := false.
Definition blocked : Kernel unit * World := drive ks () never always 300 (burst, w0).

Lemma burst_ledger : ledger_run ks () w0 [e1; e2; c3] [c4] (burst, w0).
Proof.
  apply (lr_control ks () w0 [e1; e2; c3] [] (with_shell_queue [e1; e2; c3] k0) w0 c4).
  apply (lr_shell ks () w0 [e1; e2] [] (with_shell_queue [e1; e2] k0) w0 c3).
  apply (lr_shell ks () w0 [e1] [] (with_shell_queue [e1] k0) w0 e2).
  apply (lr_shell ks () w0 [] [] k0 w0 e1), lr_init.
Qed.

Lemma burst_reachable : reachable ks () w0 (burst, w0).
Proof. eapply ledger_reachable, burst_ledger. Qed.

Lemma rested_goes : rtc (kgoes ks ()) (burst, w0) (rested.1, rested.2).
Proof. rewrite <- surjective_pairing. apply drive_goes. Qed.

Lemma rested_nf : nf (kernel_move ks () always always) (rested.1, rested.2).
Proof. rewrite <- surjective_pairing. apply kernel_next_complete. vm_compute. reflexivity. Qed.

Lemma blocked_goes : rtc (kgoes ks ()) (burst, w0) (blocked.1, blocked.2).
Proof. rewrite <- surjective_pairing. apply drive_goes. Qed.

Lemma blocked_nf : nf (kernel_move ks () never always) (blocked.1, blocked.2).
Proof. rewrite <- surjective_pairing. apply kernel_next_complete. vm_compute. reflexivity. Qed.

Lemma rested_healthy : healthy rested.1.
Proof. apply healthy_check, (bool_decide_unpack _). vm_compute. exact I. Qed.

Lemma rested_idle : idle rested.1.
Proof.
  assert (map_Forall (λ _ p, held p.2 = None) (tasks rested.1)) as Hf by (apply (bool_decide_unpack _); vm_compute; exact I).
  assert (map_Forall (λ _ p, is_Some (active p.2) → False) (tasks rested.1)) as Ha by (apply (bool_decide_unpack _); vm_compute; exact I).
  intros t ses s Et _. split; [exact (Hf t _ Et)|]. specialize (Ha t _ Et). simpl in Ha. destruct (active s); [|reflexivity]. exfalso. apply Ha. by eexists.
Qed.

Lemma kernel_answers_everything_witness :
  answers (trace rested.2) ++ left_behind rested.1 ≡ₚ [request_key e1; request_key e2; request_key c3; request_key c4] ∧ left_behind rested.1 = [].
Proof.
  split; [|vm_compute; reflexivity].
  apply (kernel_answers_everything ks () w0 [e1; e2; c3] [c4] burst w0 burst_ledger) with (code := always) (k' := rested.1) (w' := rested.2).
  - apply no_holds_level. vm_compute. reflexivity.
  - exact rested_goes.
  - exact rested_nf.
  - vm_compute. reflexivity.
  - exact rested_healthy.
  - exact rested_idle.
Defined.


(** Told to terminate while it is busy, with code that returns and with code that
    does not. *)
Definition leaving : Kernel unit * World :=
  kernel_step ks () KTerminate (drive ks () always always 14 (burst, w0)).1 (drive ks () always always 14 (burst, w0)).2.
Definition returned : Kernel unit * World := drive ks () always always 300 leaving.
Definition refused : Kernel unit * World := drive ks () never always 300 leaving.

Lemma leaving_reachable : reachable ks () w0 (leaving.1, leaving.2).
Proof.
  rewrite <- surjective_pairing. eapply reach_step; [|apply k_loop; intros _; reflexivity].
  rewrite <- surjective_pairing. eapply kgoes_reachable; [apply burst_reachable | apply drive_goes].
Qed.

Lemma kernel_shutdown_ends_witness :
  (kphase returned.1 = KExit (Ok tt) ∧ ∃ r, kphase returned.1 = KExit r) ∧
  ∃ t s a, awaited refused.1 = Some t ∧ task_shell refused.1 t = Some s ∧ active s = Some a ∧ a_interrupted a = true.
Proof.
  destruct (kernel_shutdown_ends ks () w0 leaving.1 leaving.2 leaving_reachable) as [_ Hend]; [vm_compute; reflexivity|].
  assert (kphase returned.1 = KExit (Ok tt)) as Hr by (vm_compute; reflexivity).
  split; [split; [exact Hr|]|].
  - destruct (Hend always always returned.1 returned.2) as [(r & Hx & _)|(t & s & Ha & _)].
    + rewrite <- !surjective_pairing. apply drive_goes.
    + rewrite <- surjective_pairing. apply kernel_next_complete. vm_compute. reflexivity.
    + by exists r.
    + exfalso. unfold awaited in Ha. rewrite Hr in Ha. discriminate Ha.
  - destruct (Hend never always refused.1 refused.2) as [(r & Hx & _)|(t & s & Ha & Es & _ & [Hl|(_ & a & Ea & _ & Hi)])].
    + rewrite <- !surjective_pairing. apply drive_goes.
    + rewrite <- surjective_pairing. apply kernel_next_complete. vm_compute. reflexivity.
    + exfalso. assert (match kphase refused.1 with KExit _ => false | _ => true end = true) as Hn by (vm_compute; reflexivity). rewrite Hx in Hn. discriminate Hn.
    + discriminate Hl.
    + exists t, s, a. exact (conj Ha (conj Es (conj Ea Hi))).
Defined.

(** A held shell that is told to stop and interrupted. *)
Definition held_run : list Label := LArrive (exec 1 "h1" (hold_at 0) "") :: steps 6 ++ [LControl Stop; LControl Interrupt].

